(* ===== verification/_CoqProject ===== *)
-Q . S2P
Prelude.v
GoTime.v
Rtp.v
Red.v
Ingress.v
ClockLineage.v
SessionTypes.v
Forwarder.v
Cadence.v
RepairCache.v
Pacer.v
CadencePacer.v
PacketLog.v
AudioBus.v
Session.v
Token.v
Storage.v
Lexicon.v
WordSet.v
Names.v
PhraseRule.v
NamePolicy.v
Access.v
Invitation.v
Events.v
Admission.v
ServerPolicy.v
MediaAuthority.v
ControlState.v
Downlink.v
AccessHandler.v
AuthorityClient.v
SignalPeer.v
Whip.v
Observations.v
Startup.v
Sqlite.v
Process.v
Telemetry.v
