(* ===== verification/Prelude.v ===== *)
(** * PocketStation Relay: a verification development

    Relay is a Go server that receives live audio from publishers, by WebRTC,
    WHIP or an Opus WebSocket, and forwards it packet by packet to listeners.
    Next to the media path runs the Access service, which creates Sessions, issues
    capability tokens and invitations and decides which media process may run a
    Session; a media process reaches it in its own process or over HTTP.

    This library translates the code of src/ into executable definitions and
    proves what makes each part correct.

    ** Conventions

    Integers are [Z], wrapped explicitly to their width ([u8] ... [u64], [i16],
    [i32], [i64]); time is in nanoseconds ([GoTime]).  Errors are values of
    [result].  The clock, the random source, the results of system calls and the
    point where a context is cancelled are arguments.  Concurrent code is written
    as one step function per goroutine, with a step for each access to shared
    state (a critical section, an atomic operation, a channel operation), and
    theorems quantify over all schedules.  Shared objects are cells of a store,
    addressed by index: packet buffers, event channels, Sessions of a registry,
    media writers.  Code outside src/ is a class or a section parameter with the
    documented behaviour as its laws: the RTP codec ([Rtp.Codec]), the JWT library
    ([Token.Jwt]), digests and UUIDs ([Invitation]), HMAC ([ServerPolicy.TurnAuth]),
    sizes and encodings of records ([Storage.RecordSizes], [Sqlite.RecordJson]), the
    acceptance of ICE candidates ([SignalPeer.MessageLoop]), address parsing and
    lookup ([Process.Network]).  Interfaces of the code itself are classes with
    instances: [SessionTypes.BusSubscription], implemented by the downlink, and
    [MediaAuthority.Authority], implemented by the service in the same process and
    by the HTTP client.

    ** Media path

    - [Rtp], [Red], [Ingress]: packets; the RFC 2198 codec
      (internal/media/red/red.go) and the listener that adds redundancy
      (internal/server/red_listener.go); the Opus WebSocket contract
      (internal/media/ingress/opus.go) and its reader (audio_ingress.go).  Encoding
      and parsing are inverse, a single loss is recovered, the reader returns.
    - [ClockLineage]: internal/media/clocklineage.  The capture mapping that
      writers publish and readers poll is read whole, and the sequential reading
      of the code refines that interleaving.
    - [AudioBus], [Session], [SessionTypes], [PacketLog]: internal/session.  A bus
      delivers packets in the order of its one loop; a Session gives every
      subscriber of the bus each packet and evicts exactly those that fail; limits
      hold; the packet log never shows a torn entry.
    - [Forwarder], [Cadence], [RepairCache], [Pacer], [CadencePacer], [Downlink]:
      internal/media/downlink.  Sequence numbers and timestamps continue across
      source switches; the pacer, with its producers, its worker, [Stop] and NACKs
      interleaved over one packet pool, loses and duplicates nothing and owns each
      buffer once, with the worker of the forwarding mode and with that of the
      cadence mode, which also spaces its writes and returns when it is stopped; a
      leg composes these behind the interface a Session relies on,
      its writes return, its statistics stay within their types and agree with
      the pacer's.

    ** Access service

    - [Token], [Storage], [Access]: access/token, access/storage (the contract and
      the in-memory store), access/service.go, state.go, authority.go, renewal.go.
      Transactions are atomic under cancellation; the store stays consistent; a
      displaced writer is fenced and a takeover waits for the lease.
    - [Sqlite]: access/storage/sqlite.  A transaction is a program of calls of the
      storage interface ([Program]), which the store in memory and the SQL
      statements both run; whatever fails, the database refines the store in
      memory.
    - [Lexicon], [WordSet], [Names], [PhraseRule], [NamePolicy], [Invitation]:
      access/names, name_policy.go and invitation.go.  Numbering and parsing of
      names are inverse, the bit sets decide the editorial rule, an invitation is
      redeemable, and at most once.
    - [Events]: event_bus.go and events.go, with channels and pollers.
    - [Admission]: the two rate limiters and the handshake gate.  A call of the
      relay's limiter, whose locks are per entry, is one step.
    - [AccessHandler]: the endpoints of handler.go, invitation_handler.go,
      renewal.go and internal_handler.go, on decoded bodies, with interference of
      other requests between the check of a capability and the operation; the
      event stream.  Refused requests change nothing, and nothing about a Session
      is answered or changed without its capability.

    ** Media process

    - [ServerPolicy]: publish_buses.go, codec_hint.go, ice_restart.go and the TURN
      credentials.
    - [MediaAuthority]: capabilities.go, access_authority.go and
      control_state_sync.go of internal/server.  A process that was displaced from
      a Session never holds it again, proved against the [Authority] interface for
      all interleavings of its goroutines, of other processes and of the service.
    - [AuthorityClient]: internal/notifications/callback/client.go composed with the
      internal endpoints over a network that loses requests and answers and
      delivers late; it satisfies the laws of [Authority].
    - [ControlState]: the reports of a Session and what the service accepts.
    - [SignalPeer], [Whip]: admission of connections by every protocol, the life of
      a listener's place and subscription, candidates, key exchange, and the table
      of WHIP connections.  The callbacks of a connection run on goroutines of the
      WebRTC library and interleave with the code.
    - [Observations], [Telemetry]: the latency window, the observation endpoints with
      the snapshots they show, the webhook.  A queue depth loaded while the worker
      runs stays within the capacity of the pacer.
    - [Startup]: environment, origins, the embedded TURN server, server defaults.
    - [Process]: cmd/relay-server/main.go with ice.go and public_ip.go, and
      internal/server/lifecycle.go and discovery_http.go.  What a relay that starts can rely on, what a
      restart on a database keeps, and how [main] and its signal handler end.

    ** Bounds and fuel

    Loops recurse on their data where they can.  [WordSet.search_loop] (binary
    search) takes the length of its range, [PacketLog.last_entries] one step for
    each atomic operation a reader can make on a full ring, and
    [Downlink.enqueue_call] the length of the packet pool and six steps; each has a
    theorem or lemma that this is enough.  The worker of [CadencePacer] has a
    measure: left alone it takes at most 2075 steps.  [Names.rand_Int] stops when the
    supplied random bytes are used up, which is a failed read of the random source.
    Theorems that need it state that a counter has not reached 2^64.

    ** Not modelled

    The JSON codec and the HTTP and WebSocket libraries; the construction of peer
    connections and media engines and the routing table, which are sequences of
    calls of third-party libraries; the text that shows metrics to operators; the
    test clients.  The SQL engine is modelled by what the
    statements of sqlite.go mean on tables, with faults at any point, and the
    SQLite store is compared with the store in memory for records whose JSON
    encoding is faithful and whose times fit 64 bits of nanoseconds
    ([Sqlite.long_sessions_vanish] shows what happens otherwise). *)

From stdpp Require Export prelude gmap strings list sorting.
From Stdlib Require Export Lia.

#[global] Set Warnings "-notation-overridden,-clear-no-such-hyp".

Open Scope Z_scope.

(** ** Machine integers

    Go's sized integers are modelled by [Z] together with an explicit
    conversion.  A conversion is written in a definition exactly where Go
    performs one: at a [uintN(...)]/[intN(...)] conversion, and after an
    arithmetic operation whose operands have that type. *)

Definition u8 (z : Z) : Z := z mod 256.
Definition u16 (z : Z) : Z := z mod 65536.
Definition u32 (z : Z) : Z := z mod 4294967296.
Definition u64 (z : Z) : Z := z mod 18446744073709551616.
Definition i16 (z : Z) : Z := (z + 32768) mod 65536 - 32768.
Definition i32 (z : Z) : Z := (z + 2147483648) mod 4294967296 - 2147483648.
Definition i64 (z : Z) : Z :=
  (z + 9223372036854775808) mod 18446744073709551616 - 9223372036854775808.

Definition maxInt64 : Z := 9223372036854775807.
Definition minInt64 : Z := -9223372036854775808.

Definition is_u8 (z : Z) : Prop := 0 <= z < 256.
Definition is_u16 (z : Z) : Prop := 0 <= z < 65536.
Definition is_u32 (z : Z) : Prop := 0 <= z < 4294967296.
Definition is_u64 (z : Z) : Prop := 0 <= z < 18446744073709551616.
Definition is_i64 (z : Z) : Prop := minInt64 <= z <= maxInt64.

(** The arithmetic decision procedure of the development: machine-integer
    conversions are unfolded to [mod] and [lia] is run on the Euclidean
    equations. *)
Ltac unfold_ints :=
  unfold is_u8, is_u16, is_u32, is_u64, is_i64, maxInt64, minInt64,
         u8, u16, u32, u64, i16, i32, i64 in *.

Ltac ilia := unfold_ints; Z.to_euclidean_division_equations; lia.

(** Case analysis on every boolean or option scrutinee of the goal or of the
    context, keeping its equation. *)
Ltac case_if :=
  match goal with
  | |- context [if ?b then _ else _] => let E := fresh "E" in destruct b eqn:E
  | H : context [if ?b then _ else _] |- _ => let E := fresh "E" in destruct b eqn:E
  end.

(** Turns boolean comparisons in the context into propositions. *)
Ltac bool_hyps :=
  repeat match goal with
  | H : _ && _ = true |- _ => apply andb_prop in H; destruct H
  | H : _ && _ = false |- _ => apply andb_false_iff in H
  | H : _ || _ = true |- _ => apply orb_prop in H
  | H : _ || _ = false |- _ => apply orb_false_elim in H; destruct H
  | H : negb _ = true |- _ => apply negb_true_iff in H
  | H : negb _ = false |- _ => apply negb_false_iff in H
  | H : (_ =? _) = true |- _ => apply Z.eqb_eq in H
  | H : (_ =? _) = false |- _ => apply Z.eqb_neq in H
  | H : (_ <? _) = true |- _ => apply Z.ltb_lt in H
  | H : (_ <? _) = false |- _ => apply Z.ltb_ge in H
  | H : (_ <=? _) = true |- _ => apply Z.leb_le in H
  | H : (_ <=? _) = false |- _ => apply Z.leb_gt in H
  | H : (_ >? _) = _ |- _ => rewrite Z.gtb_ltb in H
  | H : (_ >=? _) = _ |- _ => rewrite Z.geb_leb in H
  | H : bool_decide _ = true |- _ => apply bool_decide_eq_true in H
  | H : bool_decide _ = false |- _ => apply bool_decide_eq_false in H
  end.

Create HintDb relay.
Create Rewrite HintDb relay.

Lemma u8_range z : is_u8 (u8 z). Proof. ilia. Qed.
Lemma u16_range z : is_u16 (u16 z). Proof. ilia. Qed.
Lemma u32_range z : is_u32 (u32 z). Proof. ilia. Qed.
Lemma u64_range z : is_u64 (u64 z). Proof. ilia. Qed.
Lemma i64_range z : is_i64 (i64 z). Proof. ilia. Qed.
Lemma u8_small z : is_u8 z → u8 z = z. Proof. ilia. Qed.
Lemma u16_small z : is_u16 z → u16 z = z. Proof. ilia. Qed.
Lemma u32_small z : is_u32 z → u32 z = z. Proof. ilia. Qed.
Lemma u64_small z : is_u64 z → u64 z = z. Proof. ilia. Qed.
Lemma i64_small z : is_i64 z → i64 z = z. Proof. ilia. Qed.

#[export] Hint Resolve u8_range u16_range u32_range u64_range i64_range : relay.
#[export] Hint Rewrite u8_small u16_small u32_small u64_small i64_small
  using assumption : relay.

(** A disjunction of disjoint bit fields is their sum. *)
Lemma lor_disjoint a b n : 0 <= n → 0 <= b < 2 ^ n → Z.lor (a * 2 ^ n) b = a * 2 ^ n + b.
Proof.
  intros Hn Hb. rewrite <- Z.add_lor_land.
  replace (Z.land (a * 2 ^ n) b) with 0; [lia|].
  symmetry. apply Z.bits_inj'. intros i Hi. rewrite Z.land_spec, Z.bits_0.
  destruct (Z.lt_ge_cases i n).
  - rewrite Z.mul_pow2_bits_low by lia. done.
  - rewrite <- (Z.mod_small b (2 ^ n)) by lia. rewrite Z.mod_pow2_bits_high by lia.
    apply andb_false_r.
Qed.

(** ** Fallible computations: Go's [(value, error)] pairs *)

Inductive result (E A : Type) : Type :=
| Ok (a : A)
| Err (e : E).
Arguments Ok {E A} a.
Arguments Err {E A} e.

#[export] Instance result_ret E : MRet (result E) := λ A a, Ok a.
#[export] Instance result_bind E : MBind (result E) := λ A B f r,
  match r with Ok a => f a | Err e => Err e end.
#[export] Instance result_fmap E : FMap (result E) := λ A B f r,
  match r with Ok a => Ok (f a) | Err e => Err e end.

Definition is_ok {E A} (r : result E A) : bool :=
  match r with Ok _ => true | Err _ => false end.

Lemma bind_ok_inv {E A B} (r : result E A) (f : A → result E B) b :
  (r ≫= f) = Ok b → ∃ a, r = Ok a ∧ f a = Ok b.
Proof. destruct r; [eauto | discriminate]. Qed.

(** [guard_err b e]: [if b { return e }]. *)
Definition guard_err {E} (b : bool) (e : E) : result E unit :=
  if b then Err e else Ok tt.

Lemma guard_err_ok {E} b (e : E) u : guard_err b e = Ok u → b = false.
Proof. by destruct b. Qed.

(** ** Lists *)

(** [s[lo:hi]] of a Go slice whose bounds the code has already checked. *)
Definition slice {A} (l : list A) (lo hi : nat) : list A := take (hi - lo) (drop lo l).

Lemma drop_slice {A} (l : list A) a b : (a <= b)%nat → drop a l = slice l a b ++ drop b l.
Proof.
  intros H. unfold slice. rewrite <- (take_drop (b - a) (drop a l)) at 1.
  by rewrite drop_drop, Nat.add_comm, Nat.sub_add.
Qed.

Lemma length_slice {A} (l : list A) a b :
  (a <= b <= length l)%nat → length (slice l a b) = (b - a)%nat.
Proof. intros H. unfold slice. rewrite length_take, length_drop. lia. Qed.

Lemma Forall_slice {A} (P : A → Prop) l a b : Forall P l → Forall P (slice l a b).
Proof. intros H. by apply Forall_take, Forall_drop. Qed.

(** [a <= b] for Go strings, byte by byte. *)
Definition string_le (a b : string) : Prop := String.leb a b = true.
#[export] Instance string_le_dec a b : Decision (string_le a b).
Proof. unfold string_le. apply _. Defined.

(** Entries in the order of their keys. *)
Definition sort_keys {A} (l : list (string * A)) : list (string * A) := merge_sort (λ a b, string_le a.1 b.1) l.

Lemma elem_of_sort_keys {A} (l : list (string * A)) x : x ∈ sort_keys l ↔ x ∈ l.
Proof. unfold sort_keys. by rewrite merge_sort_Permutation. Qed.

Section SortMap.
Context {A B : Type} (f : A → B).
Local Abbreviation map_key := (prod_map (A := string) id f).
Local Abbreviation key_le := (λ a b, string_le a.1 b.1).
Local Abbreviation map_stack := (fmap (M := list) (fmap (M := option) (fmap (M := list) map_key))).

Lemma list_merge_map (l1 l2 : list (string * A)) :
  list_merge key_le (map_key <$> l1) (map_key <$> l2) = map_key <$> list_merge key_le l1 l2.
Proof.
  revert l2. induction l1 as [|[k1 a1] l1 IH1]; intros l2; [by destruct l2|].
  induction l2 as [|[k2 a2] l2 IH2]; [done|]. cbn in *. change (id k1) with k1. change (id k2) with k2.
  destruct (decide (string_le k1 k2)); cbn; f_equal; [apply (IH1 ((k2, a2) :: l2))|apply IH2].
Qed.

Lemma merge_list_to_stack_map st (l : list (string * A)) :
  merge_list_to_stack key_le (map_stack st) (map_key <$> l) =
  map_stack (merge_list_to_stack key_le st l).
Proof.
  revert l. induction st as [|[l'|] st IH]; intros l; [done| |done]. cbn. f_equal. rewrite <- IH. f_equal. apply list_merge_map.
Qed.

Lemma sort_keys_map (l : list (string * A)) : sort_keys (map_key <$> l) = map_key <$> sort_keys l.
Proof.
  unfold sort_keys, merge_sort.
  assert (Hst : ∀ st, merge_stack key_le (map_stack st) = map_key <$> merge_stack key_le st).
  { induction st as [|[l'|] st IH]; [done| |done]. cbn. rewrite IH. apply list_merge_map. }
  assert (Haux : ∀ st, merge_sort_aux key_le (map_stack st) (map_key <$> l) = map_key <$> merge_sort_aux key_le st l).
  { induction l as [|x l IH]; intros st; [apply Hst|]. cbn. rewrite <- IH. f_equal. apply (merge_list_to_stack_map st [x]). }
  apply (Haux []).
Qed.
End SortMap.

Definition len {A} (l : list A) : Z := Z.of_nat (length l).

Lemma len_nonneg {A} (l : list A) : 0 <= len l.
Proof. unfold len; lia. Qed.

Lemma len_app {A} (l k : list A) : len (l ++ k) = len l + len k.
Proof. unfold len. rewrite length_app. lia. Qed.

Lemma len_nil_iff {A} (l : list A) : len l = 0 ↔ l = [].
Proof. unfold len. destruct l; simpl; split; intros; [done|done|lia|done]. Qed.

#[export] Hint Resolve len_nonneg : relay.

(** Big-endian decoding, [encoding/binary.BigEndian.UintN]. *)
Fixpoint be_combine_acc (acc : Z) (l : list Z) : Z :=
  match l with
  | [] => acc
  | b :: l' => be_combine_acc (acc * 256 + b) l'
  end.
Definition be_combine (l : list Z) : Z := be_combine_acc 0 l.

(** Big-endian encoding of the low [8 * n] bits of [z]. *)
Fixpoint be_split (n : nat) (z : Z) : list Z :=
  match n with
  | O => []
  | S n' => u8 (Z.shiftr z (8 * Z.of_nat n')) :: be_split n' z
  end.

Lemma length_be_split n z : length (be_split n z) = n.
Proof. induction n; simpl; congruence. Qed.

Lemma be_split_bytes n z : Forall is_u8 (be_split n z).
Proof. induction n; simpl; constructor; auto with relay. Qed.

Lemma be_combine_acc_split n acc z :
  be_combine_acc acc (be_split n z) = acc * 2 ^ (8 * Z.of_nat n) + z mod 2 ^ (8 * Z.of_nat n).
Proof.
  revert acc. induction n as [|n IH]; intros acc.
  { simpl. rewrite Z.mod_1_r. lia. }
  cbn [be_split be_combine_acc]. rewrite IH.
  rewrite Z.shiftr_div_pow2 by lia.
  replace (8 * Z.of_nat (S n)) with (8 * Z.of_nat n + 8) by lia.
  rewrite Z.pow_add_r by lia. change (2 ^ 8) with 256.
  set (p := 2 ^ (8 * Z.of_nat n)).
  assert (0 < p) by (unfold p; lia).
  rewrite (Z.rem_mul_r z p 256) by lia.
  unfold u8. ring.
Qed.

Lemma be_combine_split n z :
  0 <= z < 2 ^ (8 * Z.of_nat n) → be_combine (be_split n z) = z.
Proof.
  intros Hz. unfold be_combine. rewrite be_combine_acc_split, Z.mod_small; lia.
Qed.

Lemma be_combine_acc_shift l acc :
  be_combine_acc acc l = acc * 2 ^ (8 * len l) + be_combine_acc 0 l.
Proof.
  revert acc. induction l as [|b l IH]; intros acc; cbn [be_combine_acc].
  { unfold len. cbn. lia. }
  rewrite (IH (acc * 256 + b)), (IH (0 * 256 + b)).
  replace (8 * len (b :: l)) with (8 + 8 * len l) by (unfold len; cbn [length]; lia).
  rewrite Z.pow_add_r by (pose proof (len_nonneg l); lia). change (2 ^ 8) with 256. ring.
Qed.

Lemma be_combine_bound l : Forall is_u8 l → 0 <= be_combine l < 2 ^ (8 * len l).
Proof.
  unfold be_combine. induction 1 as [|b l Hb Hl IH]; [unfold len; cbn; lia|].
  cbn [be_combine_acc]. rewrite be_combine_acc_shift.
  replace (8 * len (b :: l)) with (8 + 8 * len l) by (unfold len; cbn [length]; lia).
  rewrite Z.pow_add_r by (pose proof (len_nonneg l); lia). change (2 ^ 8) with 256.
  unfold is_u8 in Hb. nia.
Qed.

Lemma be_split_add n acc z :
  0 <= z < 2 ^ (8 * Z.of_nat n) → be_split n (acc * 2 ^ (8 * Z.of_nat n) + z) = be_split n z.
Proof.
  revert acc z. induction n as [|n IH]; intros acc z Hz; [done|].
  cbn [be_split]. replace (8 * Z.of_nat (S n)) with (8 + 8 * Z.of_nat n) in * by lia.
  rewrite Z.pow_add_r in * by lia. change (2 ^ 8) with 256 in *.
  set (p := 2 ^ (8 * Z.of_nat n)) in *. assert (0 < p) by (unfold p; lia).
  assert (Hdm : z = p * (z / p) + z mod p) by (apply Z.div_mod; lia).
  pose proof (Z.mod_pos_bound z p ltac:(lia)).
  f_equal.
  - rewrite !Z.shiftr_div_pow2 by lia. fold p.
    replace (acc * (256 * p) + z) with (z + (acc * 256) * p) by ring.
    rewrite Z.div_add by lia. unfold u8. by rewrite Z.mod_add by lia.
  - rewrite Hdm. replace (acc * (256 * p) + (p * (z / p) + z mod p))
      with ((acc * 256 + z / p) * p + z mod p) by ring.
    replace (p * (z / p) + z mod p) with ((z / p) * p + z mod p) by ring.
    by rewrite !IH by done.
Qed.

Lemma be_split_combine l : Forall is_u8 l → be_split (length l) (be_combine l) = l.
Proof.
  unfold be_combine. induction 1 as [|b l Hb Hl IH]; [done|].
  pose proof (be_combine_bound l Hl) as Hbd. unfold be_combine in Hbd.
  cbn [be_combine_acc length be_split]. rewrite be_combine_acc_shift. unfold len in *.
  f_equal; [|by rewrite be_split_add].
  rewrite Z.shiftr_div_pow2 by lia. set (p := 2 ^ (8 * Z.of_nat (length l))) in *.
  rewrite Z.div_add_l by lia. rewrite (Z.div_small (be_combine_acc 0 l)) by lia.
  rewrite Z.add_0_r. apply u8_small. unfold is_u8 in *. lia.
Qed.

Lemma be_split_combine_n n l :
  length l = n → Forall is_u8 l → be_split n (be_combine l) = l.
Proof. intros <-. apply be_split_combine. Qed.

(** Summation over a list. *)
Definition sumZ (l : list Z) : Z := foldr Z.add 0 l.

Lemma sumZ_cons z l : sumZ (z :: l) = z + sumZ l.
Proof. done. Qed.

Lemma sumZ_nonneg l : Forall (λ z, 0 <= z) l → 0 <= sumZ l.
Proof. induction 1 as [|z l Hz _ IH]; [done|]. rewrite sumZ_cons. lia. Qed.

Lemma sumZ_app l k : sumZ (l ++ k) = sumZ l + sumZ k.
Proof. induction l as [|z l IH]; [done|]. cbn [app]. rewrite !sumZ_cons, IH. lia. Qed.

(** Replacing one element of a list: its share of a sum and of a concatenation. *)
Lemma sumZ_fmap_insert {A} (g : A → Z) l i x y :
  l !! i = Some x → sumZ (g <$> <[i := y]> l) = sumZ (g <$> l) - g x + g y.
Proof.
  intros Hi. rewrite <- (take_drop_middle l i x Hi) at 2.
  rewrite insert_take_drop by by eapply lookup_lt_Some.
  rewrite !fmap_app, !fmap_cons, !sumZ_app, !sumZ_cons. lia.
Qed.

Lemma bind_insert_split {A B} (f : A → list B) l i x :
  l !! i = Some x →
  ∃ rest, l ≫= f ≡ₚ f x ++ rest ∧ ∀ y, <[i := y]> l ≫= f ≡ₚ f y ++ rest.
Proof.
  intros Hi. exists ((take i l ≫= f) ++ (drop (S i) l ≫= f)). split.
  - rewrite <- (take_drop_middle l i x Hi) at 1. rewrite bind_app, bind_cons.
    rewrite !app_assoc. by rewrite (Permutation_app_comm (f x)).
  - intros y. rewrite insert_take_drop by by eapply lookup_lt_Some. rewrite bind_app, bind_cons.
    rewrite !app_assoc. by rewrite (Permutation_app_comm (f y)).
Qed.

(** [alter] at an index that is, or is not, in range. *)
Lemma alter_as_insert {A} (f : A → A) (l : list A) (i : nat) x :
  l !! i = Some x → alter f i l = <[i := f x]> l.
Proof.
  intros Hi. apply list_eq. intros j. destruct (decide (j = i)) as [->|Hne].
  - rewrite list_lookup_alter_eq, Hi, list_lookup_insert_eq by (by eapply lookup_lt_Some). done.
  - by rewrite list_lookup_alter_ne, list_lookup_insert_ne.
Qed.

Lemma alter_out_of_range {A} (f : A → A) (l : list A) (i : nat) : l !! i = None → alter f i l = l.
Proof.
  intros Hi. apply list_eq. intros j. destruct (decide (j = i)) as [->|Hne].
  - by rewrite list_lookup_alter_eq, Hi.
  - by rewrite list_lookup_alter_ne.
Qed.

(** Filters that agree on the elements of the list. *)
Lemma filter_ext_in {A} (P Q : A → Prop) `{∀ x, Decision (P x)} `{∀ x, Decision (Q x)} (l : list A) :
  (∀ x, x ∈ l → P x ↔ Q x) → filter P l = filter Q l.
Proof.
  induction l as [|x l IH]; intros HPQ; [done|]. rewrite !filter_cons.
  assert (P x ↔ Q x) by (apply HPQ; left). rewrite IH by (intros y Hy; apply HPQ; by right).
  repeat case_decide; tauto.
Qed.

Lemma filter_all_in {A} (P : A → Prop) `{∀ x, Decision (P x)} (l : list A) :
  (∀ x, x ∈ l → P x) → filter P l = l.
Proof.
  induction l as [|x l IH]; intros HP; [done|]. rewrite filter_cons, decide_True by (apply HP; left).
  f_equal. apply IH. intros y Hy. apply HP. by right.
Qed.

(** Exhaustive checking of a byte property by evaluation. *)
Lemma u8_forall (P : Z → bool) :
  forallb P (seqZ 0 256) = true → ∀ z, is_u8 z → P z = true.
Proof.
  intros HP z Hz. rewrite forallb_forall in HP. apply HP.
  apply list_elem_of_In, elem_of_seqZ. ilia.
Qed.
