(* ===== verification/GoTime.v ===== *)
(** * GoTime: the parts of Go's [time] package that Relay uses

    A [time.Time] is the number of nanoseconds since the Unix epoch.  Go keeps
    64-bit seconds, so every instant the code can meet is representable and the
    instant itself needs no wrap-around; the operations that return an [int64]
    ([Unix], [UnixNano], durations) saturate or wrap as they do in Go. *)

From S2P Require Export Prelude.

Definition Nanosecond : Z := 1.
Definition Microsecond : Z := 1000.
Definition Millisecond : Z := 1000000.
Definition Second : Z := 1000000000.
Definition Minute : Z := 60 * Second.
Definition Hour : Z := 60 * Minute.

(** [time.Time{}], 0001-01-01T00:00:00Z. *)
Definition zero_time : Z := -62135596800 * Second.
Definition IsZero (t : Z) : bool := t =? zero_time.

Definition sat64 (z : Z) : Z := Z.max minInt64 (Z.min maxInt64 z).

(** [t.Add(d)], [t.Sub(u)] (saturating), [t.After(u)], [t.Before(u)]. *)
Definition time_Add (t d : Z) : Z := t + d.
Definition Sub (t u : Z) : Z := sat64 (t - u).
Definition After (t u : Z) : bool := u <? t.
Definition Before (t u : Z) : bool := t <? u.

(** [t.Unix()], [t.Nanosecond()], [t.UnixNano()], [time.Unix(sec, nsec)]. *)
Definition Unix (t : Z) : Z := i64 (t / Second).
Definition NanosecondOf (t : Z) : Z := t mod Second.
Definition UnixNano (t : Z) : Z := i64 t.
Definition time_Unix (sec nsec : Z) : Z := sec * Second + nsec.

(** [d.Microseconds()], [d.Milliseconds()]: Go's [/] truncates toward zero. *)
Definition Microseconds (d : Z) : Z := Z.quot d 1000.
Definition Milliseconds (d : Z) : Z := Z.quot d 1000000.

(** [t.Truncate(time.Second)]: the zero time is a whole number of seconds. *)
Definition TruncateSecond (t : Z) : Z := t - t mod Second.

Lemma Sub_exact t u : is_i64 (t - u) → Sub t u = t - u.
Proof. unfold Sub, sat64. ilia. Qed.

Lemma Sub_le_mono t t' u : t <= t' → Sub t u <= Sub t' u.
Proof. unfold Sub, sat64. lia. Qed.

Lemma Sub_pos_iff t u : 0 < Sub t u ↔ u < t.
Proof. unfold Sub, sat64. unfold_ints. lia. Qed.

Lemma Sub_ge_iff t u d : is_i64 d → d <= Sub t u → d <= t - u ∨ d = minInt64.
Proof. unfold Sub, sat64. unfold_ints. lia. Qed.

#[export] Hint Rewrite Sub_exact using ilia : relay.
