(* ===== verification/Rtp.v ===== *)
(** * Rtp: RTP packets

    The [rtp.Packet] of [github.com/pion/rtp], restricted to the fields that
    Relay reads or writes.  The embedded [Header] is flattened: Go promotes its
    fields.  Marshalling and [SetExtension] belong to that package and are
    parameters of the components that call them. *)

From S2P Require Export Prelude.

Module Rtp.

Record Packet := mkPacket {
  Version : Z;                      (* uint8 *)
  Padding : bool;
  Extension : bool;
  Marker : bool;
  PayloadType : Z;                  (* uint8 *)
  SequenceNumber : Z;               (* uint16 *)
  Timestamp : Z;                    (* uint32 *)
  SSRC : Z;                         (* uint32 *)
  CSRC : list Z;
  ExtensionProfile : Z;             (* uint16 *)
  Extensions : list (Z * list Z);
  Payload : list Z;
  PaddingSize : Z                   (* uint8 *) }.

Definition zero : Packet :=
  mkPacket 0 false false false 0 0 0 0 [] 0 [] [] 0.

Definition set_sequence_timestamp (seq ts : Z) (p : Packet) : Packet :=
  mkPacket (Version p) (Padding p) (Extension p) (Marker p) (PayloadType p) seq ts
    (SSRC p) (CSRC p) (ExtensionProfile p) (Extensions p) (Payload p) (PaddingSize p).

Definition set_sequence (seq : Z) (p : Packet) : Packet :=
  set_sequence_timestamp seq (Timestamp p) p.

Definition set_payload (payload : list Z) (p : Packet) : Packet :=
  mkPacket (Version p) (Padding p) (Extension p) (Marker p) (PayloadType p)
    (SequenceNumber p) (Timestamp p) (SSRC p) (CSRC p) (ExtensionProfile p) (Extensions p)
    payload (PaddingSize p).

Definition set_padding (padding : bool) (size : Z) (p : Packet) : Packet :=
  mkPacket (Version p) padding (Extension p) (Marker p) (PayloadType p)
    (SequenceNumber p) (Timestamp p) (SSRC p) (CSRC p) (ExtensionProfile p) (Extensions p)
    (Payload p) size.

Definition set_header (h p : Packet) : Packet :=
  mkPacket (Version h) (Padding h) (Extension h) (Marker h) (PayloadType h)
    (SequenceNumber h) (Timestamp h) (SSRC h) (CSRC h) (ExtensionProfile h) (Extensions h)
    (Payload p) (PaddingSize p).

Definition reset_lists (p : Packet) : Packet :=
  mkPacket (Version p) (Padding p) (Extension p) (Marker p) (PayloadType p)
    (SequenceNumber p) (Timestamp p) (SSRC p) [] 0 [] (Payload p) (PaddingSize p).

(** Field values have their Go types. *)
Definition typed (p : Packet) : Prop :=
  is_u16 (SequenceNumber p) ∧ is_u32 (Timestamp p) ∧ is_u32 (SSRC p).

#[export] Instance Packet_eq_dec : EqDecision Packet.
Proof. solve_decision. Defined.

(** The operations of [github.com/pion/rtp] that Relay calls. *)
Class Codec := {
  MarshalSize : Packet → Z;
  HeaderMarshalSize : Packet → Z;
  (** [MarshalTo] into a buffer that is large enough; [None] for an error *)
  MarshalTo : Packet → option (list Z);
  (** [Header.Unmarshal]: the packet whose header is overwritten, the new
      header, and the number of octets consumed or an error *)
  HeaderUnmarshal : Packet → list Z → Packet * option Z;
  (** [SetExtension(id, payload)] *)
  SetExtension : Z → list Z → Packet → option Packet }.

(** A packet with the given media fields, used by the witnesses. *)
Definition media (seq ts : Z) (payload : list Z) : Packet :=
  mkPacket 2 false false false 111 seq ts 7 [] 0 [] payload 0.

End Rtp.
