(* ===== verification/Red.v ===== *)
(** * Red: RFC 2198 redundant audio payloads

    [Red] translates [internal/media/red/red.go] (the encoder and the parser of
    RED payloads), [RedListener] translates [internal/server/red_listener.go]
    (the per-listener decorator that carries the previous Opus frame as the
    redundant block of the next packet). *)

From S2P Require Export Prelude.
From S2P Require Export Rtp.

Module Red.

Definition maxBlockLength : Z := Z.shiftl 1 10 - 1.
Definition maxTimestampOffset : Z := Z.shiftl 1 14 - 1.
Definition redundantHeaderLen : Z := 4.
Definition primaryHeaderLen : Z := 1.
Definition payloadTypeMask : Z := 127.
Definition fBit : Z := 128.

Inductive red_error :=
| ErrEmptyPrimary
| ErrBlockLength (i : Z) (n : Z)
| ErrBlockOffset (i : Z) (offset : Z)
| ErrMalformed.

(** [red.Block]. *)
Record Block := mkBlock {
  PayloadType : Z;
  TimestampOffsetSamples : Z;
  Payload : list Z }.

(** The validation loop of [Encode]; [size] is the capacity of the buffer. *)
Fixpoint check_blocks (i : Z) (redundant : list Block) (size : Z) : result red_error Z :=
  match redundant with
  | [] => Ok size
  | b :: rest =>
    if len (Payload b) >? maxBlockLength then Err (ErrBlockLength i (len (Payload b)))
    else if TimestampOffsetSamples b >? maxTimestampOffset
    then Err (ErrBlockOffset i (TimestampOffsetSamples b))
    else check_blocks (i + 1) rest (size + (redundantHeaderLen + len (Payload b)))
  end.

(** The four octets appended for one redundant block header. *)
Definition block_header (b : Block) : list Z :=
  let v := Z.lor (u32 (Z.shiftl (TimestampOffsetSamples b) 10)) (u32 (len (Payload b))) in
  [Z.lor fBit (Z.land (PayloadType b) payloadTypeMask);
   u8 (Z.shiftr v 16); u8 (Z.shiftr v 8); u8 v].

(** The octets appended once the checks have passed: redundant headers, primary
    header, redundant payloads, primary payload. *)
Definition encode_bytes (primaryPayloadType : Z) (primary : list Z) (redundant : list Block)
  : list Z :=
  concat (map block_header redundant)
  ++ [Z.land primaryPayloadType payloadTypeMask]
  ++ concat (map Payload redundant) ++ primary.

Definition Encode (primaryPayloadType : Z) (primary : list Z) (redundant : list Block)
  : result red_error (list Z) :=
  if len primary =? 0 then Err ErrEmptyPrimary else
  _ ← check_blocks 0 redundant (primaryHeaderLen + len primary);
  Ok (encode_bytes primaryPayloadType primary redundant).

Record hdr := mkHdr { pt : Z; tsOff : Z; length_ : Z }.

(** [red.Parsed]. *)
Record Parsed := mkParsed {
  Redundant : list Block;
  PrimaryType : Z;
  PrimaryPayload : list Z }.

(** The header loop of [Parse].  [payload] is [payload[pos:]]: [pos >= len] is
    the empty list, [pos + redundantHeaderLen > len] is fewer than four octets.
    Returns the redundant headers, the primary type and the unread suffix. *)
Fixpoint parse_headers (payload : list Z) : result red_error (list hdr * Z * list Z) :=
  match payload with
  | [] => Err ErrMalformed
  | first :: rest =>
    if Z.land first fBit =? 0 then Ok ([], Z.land first payloadTypeMask, rest) else
    match rest with
    | b1 :: b2 :: b3 :: rest' =>
      let v := Z.lor (Z.lor (u32 (Z.shiftl b1 16)) (u32 (Z.shiftl b2 8))) b3 in
      let h := mkHdr (Z.land first payloadTypeMask) (Z.shiftr v 10) (Z.land v maxBlockLength) in
      '(hs, primaryType, suffix) ← parse_headers rest';
      Ok (h :: hs, primaryType, suffix)
    | _ => Err ErrMalformed
    end
  end.

(** The redundant-payload loop of [Parse]. *)
Fixpoint parse_payloads (hs : list hdr) (payload : list Z)
  : result red_error (list Block * list Z) :=
  match hs with
  | [] => Ok ([], payload)
  | h :: hs' =>
    if length_ h >? len payload then Err ErrMalformed else
    let n := Z.to_nat (length_ h) in
    '(bs, suffix) ← parse_payloads hs' (drop n payload);
    Ok (mkBlock (pt h) (tsOff h) (take n payload) :: bs, suffix)
  end.

Definition Parse (payload : list Z) : result red_error Parsed :=
  '(redHdrs, primaryType, rest) ← parse_headers payload;
  '(redundant, primary) ← parse_payloads redHdrs rest;
  if len primary =? 0 then Err ErrMalformed
  else Ok (mkParsed redundant primaryType primary).

(** A block whose fields have their Go types: [uint8], [uint32]. *)
Definition block_typed (b : Block) : Prop :=
  is_u8 (PayloadType b) ∧ is_u32 (TimestampOffsetSamples b).

(** The 7-bit payload type is all that the wire format carries. *)
Definition mask_block (b : Block) : Block :=
  mkBlock (Z.land (PayloadType b) payloadTypeMask) (TimestampOffsetSamples b) (Payload b).

(** *** Field packing *)

Lemma land_mask7 z : Z.land z payloadTypeMask = z mod 128.
Proof. exact (Z.land_ones z 7 ltac:(lia)). Qed.

Lemma land_mask10 z : Z.land z maxBlockLength = z mod 1024.
Proof. exact (Z.land_ones z 10 ltac:(lia)). Qed.

Lemma pack_offset_length ts n :
  0 <= ts <= maxTimestampOffset → 0 <= n <= maxBlockLength →
  Z.lor (u32 (Z.shiftl ts 10)) (u32 n) = ts * 1024 + n.
Proof.
  change maxTimestampOffset with 16383. change maxBlockLength with 1023. intros Hts Hn.
  rewrite Z.shiftl_mul_pow2 by lia. rewrite !u32_small by ilia.
  apply (lor_disjoint ts n 10); lia.
Qed.

Lemma unpack_octets b1 b2 b3 :
  is_u8 b1 → is_u8 b2 → is_u8 b3 →
  Z.lor (Z.lor (u32 (Z.shiftl b1 16)) (u32 (Z.shiftl b2 8))) b3 = b1 * 65536 + b2 * 256 + b3.
Proof.
  intros H1 H2 H3. rewrite !Z.shiftl_mul_pow2 by lia. rewrite !u32_small by ilia.
  rewrite (lor_disjoint b1 (b2 * 2 ^ 8) 16) by ilia.
  replace (b1 * 2 ^ 16 + b2 * 2 ^ 8) with ((b1 * 256 + b2) * 2 ^ 8) by lia.
  rewrite (lor_disjoint (b1 * 256 + b2) b3 8) by ilia. lia.
Qed.

Lemma fBit_test b : is_u8 b → (Z.land b fBit =? 0) = (b <? 128).
Proof.
  intros Hb. apply eqb_prop.
  exact (u8_forall (λ b, eqb (Z.land b fBit =? 0) (b <? 128)) ltac:(vm_compute; reflexivity) b Hb).
Qed.

Lemma fBit_set z : Z.lor fBit (Z.land z payloadTypeMask) = 128 + z mod 128.
Proof. rewrite land_mask7. apply (lor_disjoint 1 (z mod 128) 7); [lia|]. apply Z.mod_pos_bound. lia. Qed.

(** A block that passes the checks of [Encode]. *)
Definition block_fits (b : Block) : Prop :=
  0 <= TimestampOffsetSamples b <= maxTimestampOffset ∧ len (Payload b) <= maxBlockLength.

Lemma check_blocks_ok i rs size n :
  Forall block_typed rs → check_blocks i rs size = Ok n →
  Forall block_fits rs ∧ n = size + sumZ (map (λ b, redundantHeaderLen + len (Payload b)) rs).
Proof.
  intros Ht. revert i size. induction Ht as [|b rs [_ Hb] Ht IH]; intros i size; simpl.
  { intros [= ->]. split; [constructor | lia]. }
  destruct (_ >? maxBlockLength) eqn:E1; [done|].
  destruct (_ >? maxTimestampOffset) eqn:E2; [done|].
  intros [Hf ->]%IH. bool_hyps. split; [constructor; [split; ilia | done] | lia].
Qed.

Lemma check_blocks_fits i rs size :
  Forall block_fits rs → ∃ n, check_blocks i rs size = Ok n.
Proof.
  intros Hf. revert i size. induction Hf as [|b rs [Hb1 Hb2] Hf IH]; intros i size; simpl; [eauto|].
  rewrite !Z.gtb_ltb.
  destruct (Z.ltb_spec maxBlockLength (len (Payload b))); [lia|].
  destruct (Z.ltb_spec maxTimestampOffset (TimestampOffsetSamples b)); [lia|]. apply IH.
Qed.

Definition hdr_of (b : Block) : hdr :=
  mkHdr (Z.land (PayloadType b) payloadTypeMask) (TimestampOffsetSamples b) (len (Payload b)).

Lemma parse_one_header b tail :
  block_fits b →
  parse_headers (block_header b ++ tail) =
    ('(hs, p, suffix) ← parse_headers tail; Ok (hdr_of b :: hs, p, suffix)).
Proof.
  intros [Hts Hl]. pose proof (len_nonneg (Payload b)).
  unfold block_header. rewrite pack_offset_length by lia.
  change maxTimestampOffset with 16383 in Hts. change maxBlockLength with 1023 in Hl.
  cbn [app parse_headers]. rewrite fBit_set, fBit_test by ilia.
  destruct (Z.ltb_spec (128 + PayloadType b mod 128) 128); [ilia|].
  set (v := TimestampOffsetSamples b * 1024 + len (Payload b)) in *.
  assert (Hv : 0 <= v < 16777216) by lia.
  rewrite unpack_octets by auto with relay.
  rewrite !Z.shiftr_div_pow2 by lia.
  replace (u8 (v / 2 ^ 16) * 65536 + u8 (v / 2 ^ 8) * 256 + u8 v) with v by ilia.
  rewrite land_mask10, land_mask7. unfold hdr_of. rewrite land_mask7.
  replace ((128 + PayloadType b mod 128) mod 128) with (PayloadType b mod 128) by ilia.
  replace (v / 2 ^ 10) with (TimestampOffsetSamples b) by (unfold v; ilia).
  replace (v mod 1024) with (len (Payload b)) by (unfold v; ilia).
  done.
Qed.

Lemma parse_encoded_headers rs p tail :
  Forall block_fits rs →
  parse_headers (concat (map block_header rs) ++ [Z.land p payloadTypeMask] ++ tail) =
    Ok (map hdr_of rs, Z.land p payloadTypeMask, tail).
Proof.
  induction 1 as [|b rs Hb Hrs IH].
  - cbn [map concat app parse_headers]. rewrite !land_mask7, fBit_test by ilia.
    destruct (Z.ltb_spec (p mod 128) 128); [|ilia].
    by replace ((p mod 128) mod 128) with (p mod 128) by ilia.
  - cbn [map concat]. rewrite <- app_assoc, parse_one_header, IH by done. done.
Qed.

Lemma parse_encoded_payloads rs tail :
  parse_payloads (map hdr_of rs) (concat (map Payload rs) ++ tail) = Ok (map mask_block rs, tail).
Proof.
  induction rs as [|b rs IH]; [done|].
  cbn [map concat parse_payloads hdr_of length_ pt tsOff]. rewrite <- app_assoc, Z.gtb_ltb.
  destruct (Z.ltb_spec (len (Payload b ++ concat (map Payload rs) ++ tail)) (len (Payload b)))
    as [Hlt|_]; [rewrite len_app in Hlt; pose proof (len_nonneg (concat (map Payload rs) ++ tail)); lia|].
  unfold len. rewrite Nat2Z.id, drop_app_length, take_app_length, IH. done.
Qed.
Lemma parse_encode_bytes p primary rs :
  Forall block_fits rs → (len primary =? 0) = false →
  Parse (encode_bytes p primary rs) =
    Ok (mkParsed (map mask_block rs) (Z.land p payloadTypeMask) primary).
Proof.
  intros Hf Hp. unfold Parse, encode_bytes. rewrite parse_encoded_headers by done.
  cbn. rewrite parse_encoded_payloads. cbn. by rewrite Hp.
Qed.

Lemma encode_fits p primary rs :
  Forall block_fits rs → (len primary =? 0) = false →
  Encode p primary rs = Ok (encode_bytes p primary rs).
Proof.
  intros Hf Hp. unfold Encode. rewrite Hp.
  by destruct (check_blocks_fits 0 rs (primaryHeaderLen + len primary) Hf) as [n ->].
Qed.

(** *** Properties of the codec *)

(** C10: parsing inverts encoding: whatever [Encode] produces from typed blocks,
    [Parse] returns the same redundant blocks in order, the primary type and
    the primary payload, with every payload type reduced to its seven wire
    bits. *)
Theorem parse_encode (p : Z) (primary : list Z) (rs : list Block) (out : list Z) :
  Forall block_typed rs →
  Encode p primary rs = Ok out →
  Parse out = Ok (mkParsed (map mask_block rs) (Z.land p payloadTypeMask) primary).
Proof.
  intros Ht. unfold Encode. destruct (len primary =? 0) eqn:Hp; [done|].
  intros (n & Hc & [= <-])%bind_ok_inv.
  destruct (check_blocks_ok _ _ _ _ Ht Hc) as [Hf _]. by apply parse_encode_bytes.
Qed.

Lemma parse_encode_witness :
  Parse ([239; 15; 0; 2; 111; 1; 2] ++ [9]) =
    Ok (mkParsed [mkBlock 111 960 [1; 2]] 111 [9]).
Proof.
  apply (parse_encode 111 [9] [mkBlock 111 960 [1; 2]]).
  - repeat constructor; cbn; ilia.
  - vm_compute. reflexivity.
Defined.

Lemma parse_headers_inv payload hs p rest :
  Forall is_u8 payload → parse_headers payload = Ok (hs, p, rest) →
  ∃ heads,
    payload = concat heads ++ [p] ++ rest ∧ is_u8 p ∧ Z.land p payloadTypeMask = p ∧
    Forall2 (λ h bytes, ∀ data, len data = length_ h →
      let b := mkBlock (pt h) (tsOff h) data in block_header b = bytes ∧ block_fits b) hs heads ∧
    Forall (λ h, 0 <= length_ h) hs.
Proof.
  remember (length payload) as n eqn:Hn. revert payload hs Hn.
  induction (lt_wf n) as [n _ IH]; intros payload hs -> Hb Hparse.
  destruct payload as [|first rest0]; [done|]. cbn [parse_headers] in Hparse.
  apply Forall_cons in Hb as [Hfirst Hb].
  rewrite fBit_test in Hparse by done. rewrite land_mask7 in Hparse.
  destruct (Z.ltb_spec first 128).
  { injection Hparse as <- <- <-. exists []. cbn. rewrite land_mask7.
    replace (first mod 128) with first by ilia. rewrite Z.mod_small by ilia. auto. }
  destruct rest0 as [|b1 [|b2 [|b3 rest0]]]; [done..|].
  apply bind_ok_inv in Hparse as ([[hs' p'] suffix] & Hrec & [= <- <- <-]).
  do 3 apply Forall_cons in Hb as [? Hb].
  rewrite unpack_octets by done. set (v := b1 * 65536 + b2 * 256 + b3).
  edestruct (IH (length rest0)) as (heads & Hpay & Hp & Hmask & Hhs & Hnn);
    [cbn; lia | reflexivity | done | exact Hrec |].
  exists ([first; b1; b2; b3] :: heads). cbn [concat]. rewrite <- app_assoc, Hpay.
  split; [by rewrite <- Hpay|]. do 2 (split; [done|]).
  rewrite land_mask10, Z.shiftr_div_pow2 by lia.
  split; [constructor; [|done] | constructor; [cbn; ilia | done]].
  cbn. intros data Hd. unfold block_fits. cbn.
  change maxTimestampOffset with 16383. change maxBlockLength with 1023.
  assert (Hfits : 0 <= v / 2 ^ 10 <= 16383 ∧ 0 <= len data <= 1023) by (unfold v; ilia).
  split; [|split; lia]. unfold block_header. cbn [TimestampOffsetSamples Payload PayloadType].
  rewrite pack_offset_length by (change maxTimestampOffset with 16383; change maxBlockLength with 1023; lia).
  rewrite fBit_set, Hd. rewrite !Z.shiftr_div_pow2 by lia.
  repeat f_equal; unfold v; ilia.
Qed.

Lemma parse_payloads_inv hs payload bs suffix :
  Forall (λ h, 0 <= length_ h) hs → parse_payloads hs payload = Ok (bs, suffix) →
  payload = concat (map Payload bs) ++ suffix ∧
  Forall2 (λ h b, b = mkBlock (pt h) (tsOff h) (Payload b) ∧ len (Payload b) = length_ h) hs bs.
Proof.
  intros Hnn. revert payload bs. induction Hnn as [|h hs Hh Hnn IH]; intros payload bs Hparse.
  { injection Hparse as <- <-. by split; [|constructor]. }
  cbn [parse_payloads] in Hparse. destruct (_ >? _) eqn:E; [done|]. bool_hyps.
  apply bind_ok_inv in Hparse as ([bs' suffix'] & Hrec & [= <- <-]).
  apply IH in Hrec as [Hpay H2]. cbn [map concat Payload]. rewrite <- app_assoc, <- Hpay, take_drop.
  split; [done|]. constructor; [|done]. split; [done|]. cbn. unfold len in *. rewrite length_take. lia.
Qed.

(** [Encode] inverts [Parse]: re-encoding what was parsed from a byte
    string yields exactly the byte string, so no two RED payloads parse to the
    same blocks and nothing of the wire image is lost. *)
Theorem encode_parse (payload : list Z) (r : Parsed) :
  Forall is_u8 payload →
  Parse payload = Ok r →
  Encode (PrimaryType r) (PrimaryPayload r) (Redundant r) = Ok payload.
Proof.
  intros Hb Hparse. unfold Parse in Hparse.
  apply bind_ok_inv in Hparse as ([[hs p] rest] & Hh & Hparse).
  apply bind_ok_inv in Hparse as ([bs primary] & Hp & Hparse). cbn in Hparse.
  destruct (len primary =? 0) eqn:Hne; [done|]. injection Hparse as <-. cbn.
  destruct (parse_headers_inv _ _ _ _ Hb Hh) as (heads & -> & Hp8 & Hmask & H2 & Hnn).
  destruct (parse_payloads_inv _ _ _ _ Hnn Hp) as [-> H2b].
  assert (Hall : map block_header bs = heads ∧ Forall block_fits bs).
  { clear -H2 H2b. revert heads H2. induction H2b as [|h b hs bs [Hb Hl] H2b IH]; intros heads H2.
    - inversion H2; subst. by split; [|constructor].
    - inversion H2 as [|?? ? ? Hhead Hrest]; subst. destruct (IH _ Hrest) as [<- Hf].
      rewrite Hb in Hl |- *. destruct (Hhead _ Hl) as [<- ?]. by split; [|constructor]. }
  destruct Hall as [<- Hf]. rewrite encode_fits by done. unfold encode_bytes. by rewrite Hmask.
Qed.

Lemma encode_parse_witness :
  Encode 111 [9] [mkBlock 111 960 [1; 2]] = Ok [239; 15; 0; 2; 111; 1; 2; 9].
Proof.
  apply (encode_parse [239; 15; 0; 2; 111; 1; 2; 9] (mkParsed [mkBlock 111 960 [1; 2]] 111 [9])).
  - repeat constructor; lia.
  - vm_compute. reflexivity.
Defined.

Lemma len_encode_bytes p primary rs :
  len (encode_bytes p primary rs) =
    primaryHeaderLen + len primary + sumZ (map (λ b, redundantHeaderLen + len (Payload b)) rs).
Proof.
  unfold encode_bytes, primaryHeaderLen, redundantHeaderLen. rewrite !len_app.
  enough (len (concat (map block_header rs)) + len (concat (map Payload rs)) =
    sumZ (map (λ b, 4 + len (Payload b)) rs)) by (unfold len at 2; cbn [length]; lia).
  induction rs as [|b rs IH]; [done|].
  cbn [map concat sumZ foldr]. rewrite !len_app. change (foldr Z.add 0) with sumZ. rewrite <- IH.
  change (len (block_header b)) with 4. lia.
Qed.

(** [Encode] succeeds exactly on a non-empty primary whose redundant
    blocks fit the 10-bit length and 14-bit offset fields, and then the
    capacity it reserved is the length it wrote. *)
Theorem encode_ok_iff (p : Z) (primary : list Z) (rs : list Block) :
  Forall block_typed rs →
  (is_ok (Encode p primary rs) = true ↔ primary ≠ [] ∧ Forall block_fits rs) ∧
  (∀ out, Encode p primary rs = Ok out →
     check_blocks 0 rs (primaryHeaderLen + len primary) = Ok (len out)).
Proof.
  intros Ht. unfold Encode. pose proof (len_nil_iff primary) as Hnil.
  destruct (Z.eqb_spec (len primary) 0) as [H0|H0]; [split; [split; [done | tauto] | done]|].
  destruct (check_blocks _ _ _) as [n|] eqn:Hc; cbn [mbind result_bind is_ok].
  - destruct (check_blocks_ok _ _ _ _ Ht Hc) as [Hf ->]. split; [split; [tauto | done]|].
    intros out [= <-]. by rewrite len_encode_bytes.
  - split; [|done]. split; [done|]. intros [_ Hf].
    destruct (check_blocks_fits 0 rs (primaryHeaderLen + len primary) Hf). congruence.
Qed.

Lemma encode_ok_iff_witness :
  is_ok (Encode 111 [9] [mkBlock 111 960 [1; 2]]) = true ∧
  check_blocks 0 [mkBlock 111 960 [1; 2]] (primaryHeaderLen + len [9]) = Ok 8.
Proof.
  destruct (encode_ok_iff 111 [9] [mkBlock 111 960 [1; 2]]) as [_ H].
  - repeat constructor; cbn; ilia.
  - split; [reflexivity|]. apply (H [239; 15; 0; 2; 111; 1; 2; 9]). reflexivity.
Defined.

End Red.

Module RedListener.
Import Red.

Definition redMaxTimestampOffsetSamples : Z := Z.shiftl 1 14 - 1.

(** [redListener] without [inner], the underlying track, which is an argument
    of [WriteRTP]: it returns the error of its own [WriteRTP], if any. *)
Record redListener := mkListener {
  opusPT : Z;
  prevPayload : list Z;
  prevTimestampSamples : Z;
  havePrev : bool }.

Definition newREDListener (pt : Z) : redListener := mkListener pt [] 0 false.

Section WriteRTP.
Context {E : Type} (inner : Rtp.Packet → option E).

(** The redundant blocks selected for [pkt]. *)
Definition redundancy (r : redListener) (pkt : Rtp.Packet) : list Block :=
  if havePrev r then
    let offsetSamples := u32 (Rtp.Timestamp pkt - prevTimestampSamples r) in
    if (offsetSamples >? 0) && (offsetSamples <=? redMaxTimestampOffsetSamples)
    then [mkBlock (opusPT r) offsetSamples (prevPayload r)] else []
  else [].

(** The new listener, the packet handed to [inner] (if it was called) and the
    returned error. *)
Definition WriteRTP (r : redListener) (pkt : Rtp.Packet)
  : redListener * option Rtp.Packet * option (red_error + E) :=
  match Encode (opusPT r) (Rtp.Payload pkt) (redundancy r pkt) with
  | Err e => (r, None, Some (inl e))
  | Ok redPayload =>
    let r' := mkListener (opusPT r) (Rtp.Payload pkt) (Rtp.Timestamp pkt) true in
    let out := Rtp.set_payload redPayload pkt in
    (r', Some out, inr <$> inner out)
  end.

(** A stream of writes: the final listener and, per packet, what was sent. *)
Fixpoint write_all (r : redListener) (pkts : list Rtp.Packet)
  : redListener * list (option Rtp.Packet) :=
  match pkts with
  | [] => (r, [])
  | pkt :: pkts' =>
    let '(r', out, _) := WriteRTP r pkt in
    let '(r'', outs) := write_all r' pkts' in (r'', out :: outs)
  end.

(** An Opus stream that RED can protect: non-empty frames of at most 1023
    octets, each 1 to 16383 samples after its predecessor. *)
Definition protectable (pkts : list Rtp.Packet) : Prop :=
  Forall (λ p, 0 < len (Rtp.Payload p) <= maxBlockLength) pkts ∧
  ∀ i p q, pkts !! i = Some p → pkts !! S i = Some q →
    0 < u32 (Rtp.Timestamp q - Rtp.Timestamp p) <= redMaxTimestampOffsetSamples.

(** The redundancy a receiver finds in the packet that follows [p]. *)
Definition recovery_block (pt : Z) (p q : Rtp.Packet) : Block :=
  mkBlock (Z.land pt payloadTypeMask) (u32 (Rtp.Timestamp q - Rtp.Timestamp p)) (Rtp.Payload p).

Definition remembers (r : redListener) (p : Rtp.Packet) : Prop :=
  havePrev r = true ∧ prevPayload r = Rtp.Payload p ∧ prevTimestampSamples r = Rtp.Timestamp p.

Lemma write_encodes r pkt :
  is_u8 (opusPT r) → 0 < len (Rtp.Payload pkt) → Forall block_fits (redundancy r pkt) →
  ∃ bytes,
    WriteRTP r pkt =
      (mkListener (opusPT r) (Rtp.Payload pkt) (Rtp.Timestamp pkt) true,
       Some (Rtp.set_payload bytes pkt), inr <$> inner (Rtp.set_payload bytes pkt)) ∧
    Parse bytes = Ok (mkParsed (map mask_block (redundancy r pkt))
                        (Z.land (opusPT r) payloadTypeMask) (Rtp.Payload pkt)).
Proof.
  intros Hpt Hne Hfits.
  assert (Hp : (len (Rtp.Payload pkt) =? 0) = false) by lia.
  eexists. unfold WriteRTP. rewrite encode_fits by done.
  split; [done|]. by apply parse_encode_bytes.
Qed.

Lemma redundancy_after r p q :
  remembers r p → 0 < u32 (Rtp.Timestamp q - Rtp.Timestamp p) <= redMaxTimestampOffsetSamples →
  redundancy r q = [mkBlock (opusPT r) (u32 (Rtp.Timestamp q - Rtp.Timestamp p)) (Rtp.Payload p)].
Proof.
  intros (Hh & Hp & Ht) Hoff. unfold redundancy. rewrite Hh, Hp, Ht, Z.gtb_ltb.
  destruct (Z.ltb_spec 0 (u32 (Rtp.Timestamp q - Rtp.Timestamp p))); [|lia].
  destruct (Z.leb_spec (u32 (Rtp.Timestamp q - Rtp.Timestamp p)) redMaxTimestampOffsetSamples); [done|lia].
Qed.

Lemma write_all_protectable r p pkts :
  is_u8 (opusPT r) → remembers r p → protectable (p :: pkts) →
  ∀ i a b, (p :: pkts) !! i = Some a → pkts !! i = Some b →
  ∃ out, (write_all r pkts).2 !! i = Some (Some out) ∧
    Parse (Rtp.Payload out) = Ok (mkParsed [recovery_block (opusPT r) a b]
                                    (Z.land (opusPT r) payloadTypeMask) (Rtp.Payload b)).
Proof.
  revert r p. induction pkts as [|q pkts IH]; intros r p Hpt Hrem [Hlens Hoffs] i a b Ha Hb; [done|].
  apply Forall_cons in Hlens as [Hp Hlens].
  pose proof (Hoffs 0%nat p q eq_refl eq_refl) as Hoff.
  assert (Hq : 0 < len (Rtp.Payload q) <= maxBlockLength) by (by apply Forall_cons in Hlens as [? _]).
  destruct (write_encodes r q) as (bytes & Hw & Hparse); [done|lia| |].
  { rewrite (redundancy_after _ p) by done. repeat constructor; cbn; try lia.
    change maxTimestampOffset with redMaxTimestampOffsetSamples. lia. }
  rewrite (redundancy_after _ p) in Hparse by done. cbn [write_all]. rewrite Hw.
  destruct (write_all _ pkts) as [r'' outs] eqn:Hall. cbn [snd].
  destruct i as [|i].
  - cbn in Ha, Hb. simplify_eq. exists (Rtp.set_payload bytes b). split; [done|]. exact Hparse.
  - cbn in Hb. specialize (IH (mkListener (opusPT r) (Rtp.Payload q) (Rtp.Timestamp q) true) q Hpt).
    rewrite Hall in IH. apply (IH ltac:(done)); [|exact Ha|exact Hb].
    split; [done|]. intros j x y Hx Hy. by apply (Hoffs (S j)).
Qed.

(** Single-loss recovery: when a protectable Opus stream is written
    through a listener, every packet after the first carries the complete
    previous frame with its exact timestamp distance, so a receiver that loses
    packet [i] recovers it from packet [i + 1]. *)
Theorem red_recovers_single_loss (pt : Z) (pkts : list Rtp.Packet) (i : nat) (a b : Rtp.Packet) :
  is_u8 pt → protectable pkts → pkts !! i = Some a → pkts !! S i = Some b →
  ∃ out, (write_all (newREDListener pt) pkts).2 !! S i = Some (Some out) ∧
    Parse (Rtp.Payload out) =
      Ok (mkParsed [recovery_block pt a b] (Z.land pt payloadTypeMask) (Rtp.Payload b)).
Proof.
  intros Hpt Hprot Ha Hb. destruct pkts as [|p pkts]; [done|].
  assert (Hp : 0 < len (Rtp.Payload p) <= maxBlockLength)
    by (destruct Hprot as [Hl _]; by apply Forall_cons in Hl as [? _]).
  destruct (write_encodes (newREDListener pt) p) as (bytes & Hw & _); [done|lia|constructor|].
  cbn [write_all]. rewrite Hw. cbn [opusPT newREDListener].
  pose proof (write_all_protectable (mkListener pt (Rtp.Payload p) (Rtp.Timestamp p) true) p pkts
    Hpt ltac:(done) Hprot i a b Ha Hb) as Hrest.
  destruct (write_all _ pkts) as [r'' outs]. exact Hrest.
Qed.

(** An Opus frame longer than 1023 octets (the codec allows 1275) makes
    the listener reject every following packet whose timestamp is within 16383
    samples of it, and the rejected packet does not replace the frame: nothing
    is sent until the stream has moved 341 ms past the oversized frame. *)
Theorem red_listener_blocks_after_oversized (r : redListener) (p q : Rtp.Packet) :
  remembers r p → maxBlockLength < len (Rtp.Payload p) → Rtp.Payload q ≠ [] →
  0 < u32 (Rtp.Timestamp q - Rtp.Timestamp p) <= redMaxTimestampOffsetSamples →
  WriteRTP r q = (r, None, Some (inl (ErrBlockLength 0 (len (Rtp.Payload p))))).
Proof.
  intros Hrem Hlong Hne Hoff. unfold WriteRTP. rewrite (redundancy_after _ p) by done.
  unfold Encode. destruct (Z.eqb_spec (len (Rtp.Payload q)) 0) as [H0%len_nil_iff|_]; [done|].
  cbn [check_blocks Payload]. rewrite Z.gtb_ltb.
  destruct (Z.ltb_spec maxBlockLength (len (Rtp.Payload p))); [done|lia].
Qed.

End WriteRTP.

Lemma red_recovers_single_loss_witness :
  let inner := λ _ : Rtp.Packet, @None unit in
  let pkts := [Rtp.media 1 0 [5]; Rtp.media 2 960 [6; 7]; Rtp.media 3 1920 [8]] in
  ∃ out, (write_all inner (newREDListener 111) pkts).2 !! 2%nat = Some (Some out) ∧
    Parse (Rtp.Payload out) = Ok (mkParsed [mkBlock 111 960 [6; 7]] 111 [8]).
Proof.
  apply (red_recovers_single_loss _ 111 [Rtp.media 1 0 [5]; Rtp.media 2 960 [6; 7]; Rtp.media 3 1920 [8]]
    1 (Rtp.media 2 960 [6; 7]) (Rtp.media 3 1920 [8])); [ilia| |reflexivity|reflexivity].
  split; [repeat constructor; vm_compute; congruence|].
  intros [|[|[|i]]] x y Hx Hy; cbn in Hx, Hy; simplify_eq; vm_compute; split; congruence.
Defined.

Lemma red_listener_blocks_after_oversized_witness :
  let big := Rtp.media 1 0 (replicate 1024 0) in
  let r := mkListener 111 (Rtp.Payload big) 0 true in
  WriteRTP (λ _, @None unit) r (Rtp.media 2 960 [1]) = (r, None, Some (inl (ErrBlockLength 0 1024))).
Proof.
  apply (red_listener_blocks_after_oversized _ (mkListener 111 (replicate 1024 0) 0 true)
    (Rtp.media 1 0 (replicate 1024 0)) (Rtp.media 2 960 [1])).
  - repeat split.
  - vm_compute. reflexivity.
  - discriminate.
  - vm_compute. split; congruence.
Defined.

End RedListener.
