(* ===== verification/Ingress.v ===== *)
(** * Ingress: the pks-opus-v1 publisher boundary

    [Opus] translates [internal/media/ingress/opus.go]: the frame parser and
    the replay and pacing fence.  [Source] translates the [ReadRTP] loop of
    [opusWebSocketSource] in [internal/server/audio_ingress.go]. *)

From S2P Require Export GoTime Rtp.

Module Opus.

Definition HeaderBytes : Z := 40.
Definition MaxPayloadBytes : Z := 1275.
Definition MaxMessageBytes : Z := HeaderBytes + MaxPayloadBytes.
Definition FrameSamples : Z := 960.
Definition FrameDuration : Z := 20 * Millisecond.
Definition MaxSessionAge : Z := 24 * Hour.
Definition MaxLate : Z := 250 * Millisecond.
Definition MaxAhead : Z := 100 * Millisecond.

Inductive ingress_error := ErrFrame | ErrContinuity | ErrFuture.

Record Frame := mkFrame {
  Sequence : Z;             (* uint64 *)
  TimestampSamples : Z;     (* uint32 *)
  CaptureTimestampNs : Z;   (* uint64 *)
  OutputGeneration : Z;     (* uint64 *)
  Channels : Z;             (* uint8 *)
  Payload : list Z }.

Definition zero_frame : Frame := mkFrame 0 0 0 0 0 [].

(** [message[i]]; every use is under the length check. *)
Definition byte_at (message : list Z) (i : nat) : Z := nth i message 0.

(** [string(message[:4]) != "PKSO"]. *)
Definition magic : list Z := [80; 75; 83; 79].

(** The rejected headers, in the order of the condition in [Parse]. *)
Definition bad_header (message : list Z) : bool :=
  (len message <=? HeaderBytes) || (len message >? MaxMessageBytes) ||
  negb (bool_decide (slice message 0 4 = magic)) || negb (byte_at message 4 =? 1) ||
  (negb (byte_at message 5 =? 1) && negb (byte_at message 5 =? 2)) ||
  negb (byte_at message 6 =? 0) || negb (byte_at message 7 =? 0) ||
  negb (be_combine (slice message 20 22) =? FrameSamples) ||
  negb (be_combine (slice message 22 24) =? len message - HeaderBytes).

(** [samples]: the frame size selected by the TOC configuration, a [uint16]. *)
Definition toc_samples (toc : Z) : Z :=
  let configuration := Z.shiftr toc 3 in
  if configuration <? 12
  then nth (Z.to_nat (Z.land configuration 3)) [480; 960; 1920; 2880] 0
  else if configuration <? 16 then u16 (Z.shiftl 480 (Z.land configuration 1))
  else u16 (Z.shiftl 120 (Z.land configuration 3)).

(** [count]: the frame-count code of the TOC octet. *)
Definition frame_count (payload : list Z) : result ingress_error Z :=
  match Z.land (byte_at payload 0) 3 with
  | 1 | 2 => Ok 2
  | 3 => if len payload <? 2 then Err ErrFrame else Ok (u16 (Z.land (byte_at payload 1) 63))
  | _ => Ok 1
  end.

Definition Parse (message : list Z) : result ingress_error Frame :=
  if bad_header message then Err ErrFrame else
  let payload := drop 40 message in
  let samples := toc_samples (byte_at payload 0) in
  count ← frame_count payload;
  if (count =? 0) || negb (u16 (samples * count) =? FrameSamples) then Err ErrFrame else
  Ok (mkFrame (be_combine (slice message 8 16)) (be_combine (slice message 16 20))
        (be_combine (slice message 24 32)) (be_combine (slice message 32 40))
        (byte_at message 5) payload).

(** [ingress.Timeline]. *)
Record Timeline := mkTimeline {
  started : bool;
  originNs : Z;
  originSequence : Z;
  originAt : Z;
  last : Frame }.

Definition fresh : Timeline := mkTimeline false 0 0 zero_time zero_frame.

Definition Admit (timeline : Timeline) (frame : Frame) (now : Z)
  : Timeline * result ingress_error bool :=
  if negb (started timeline) then
    (mkTimeline true (CaptureTimestampNs frame) (Sequence frame) now frame, Ok false)
  else
  let last := last timeline in
  if negb (Channels frame =? Channels last) || (Sequence frame <=? Sequence last) ||
     (CaptureTimestampNs frame <=? CaptureTimestampNs last) ||
     (u64 (CaptureTimestampNs frame - originNs timeline) >? u64 MaxSessionAge) ||
     (u64 (Sequence frame - originSequence timeline) >? u64 (Z.quot MaxSessionAge FrameDuration))
  then (timeline, Err ErrContinuity) else
  let delta := u64 (Sequence frame - Sequence last) in
  if (delta >? 1500) ||
     negb (u32 (TimestampSamples frame - TimestampSamples last) =? u32 (u64 (delta * FrameSamples)))
  then (timeline, Err ErrContinuity) else
  let elapsed := i64 (i64 (u64 (Sequence frame - originSequence timeline)) * FrameDuration) in
  let arrivalElapsed := Sub now (originAt timeline) in
  if i64 (elapsed - arrivalElapsed) >? MaxAhead then (timeline, Err ErrFuture) else
  (mkTimeline (started timeline) (originNs timeline) (originSequence timeline)
     (originAt timeline) frame,
   Ok (i64 (arrivalElapsed - elapsed) >? MaxLate)).

(** *** Reference semantics of the wire format *)

(** RFC 6716 section 3.1: the duration of one Opus packet in 48 kHz samples,
    computed without machine arithmetic. *)
Definition config_samples (config : Z) : Z :=
  if config <? 12 then nth (Z.to_nat (config mod 4)) [480; 960; 1920; 2880] 0
  else if config <? 16 then nth (Z.to_nat (config mod 2)) [480; 960] 0
  else nth (Z.to_nat (config mod 4)) [120; 240; 480; 960] 0.

Definition opus_duration (payload : list Z) : option Z :=
  match payload with
  | [] => None
  | toc :: rest =>
    match toc mod 4 with
    | 0 => Some (config_samples (toc / 8))
    | 3 => match rest with [] => None | b :: _ => Some (config_samples (toc / 8) * (b mod 64)) end
    | _ => Some (config_samples (toc / 8) * 2)
    end
  end.

(** The 40-octet header and payload of a frame. *)
Definition render (f : Frame) : list Z :=
  magic ++ [1; Channels f; 0; 0] ++ be_split 8 (Sequence f) ++ be_split 4 (TimestampSamples f) ++
  be_split 2 FrameSamples ++ be_split 2 (len (Payload f)) ++
  be_split 8 (CaptureTimestampNs f) ++ be_split 8 (OutputGeneration f) ++ Payload f.

Definition typed_frame (f : Frame) : Prop :=
  is_u64 (Sequence f) ∧ is_u32 (TimestampSamples f) ∧ is_u64 (CaptureTimestampNs f) ∧
  is_u64 (OutputGeneration f) ∧ Forall is_u8 (Payload f).

Definition wf_frame (f : Frame) : Prop :=
  typed_frame f ∧ (Channels f = 1 ∨ Channels f = 2) ∧
  0 < len (Payload f) <= MaxPayloadBytes ∧ opus_duration (Payload f) = Some FrameSamples.

(** The machine computation of the duration check. *)
Definition duration_ok (payload : list Z) : bool :=
  match frame_count payload with
  | Ok count => negb (count =? 0) && (u16 (toc_samples (byte_at payload 0) * count) =? FrameSamples)
  | Err _ => false
  end.

Lemma toc_samples_spec toc : is_u8 toc → toc_samples toc = config_samples (toc / 8).
Proof.
  intros H. apply Z.eqb_eq.
  exact (u8_forall (λ t, toc_samples t =? config_samples (t / 8)) ltac:(vm_compute; reflexivity) toc H).
Qed.

(** The duration test on the two octets it depends on, evaluated exhaustively
    over the configurations and the six-bit frame count. *)
Lemma duration_product_exact :
  forallb (λ c, forallb (λ m,
     eqb (negb (m =? 0) && (u16 (config_samples c * m) =? 960)) (config_samples c * m =? 960))
     (seqZ 0 64)) (seqZ 0 32) = true.
Proof. vm_compute. reflexivity. Qed.

Lemma duration_product toc m :
  is_u8 toc → 0 <= m < 64 →
  negb (m =? 0) && (u16 (config_samples (toc / 8) * m) =? FrameSamples) =
  (config_samples (toc / 8) * m =? FrameSamples).
Proof.
  intros Ht Hm. pose proof duration_product_exact as H.
  rewrite forallb_forall in H. specialize (H (toc / 8)). rewrite forallb_forall in H.
  apply eqb_prop, H; apply list_elem_of_In, elem_of_seqZ; ilia.
Qed.

Lemma land3 z : Z.land z 3 = z mod 4.
Proof. exact (Z.land_ones z 2 ltac:(lia)). Qed.
Lemma land63 z : Z.land z 63 = z mod 64.
Proof. exact (Z.land_ones z 6 ltac:(lia)). Qed.

Lemma duration_ok_spec payload :
  Forall is_u8 payload → payload ≠ [] →
  duration_ok payload = true ↔ opus_duration payload = Some FrameSamples.
Proof.
  intros Hb Hne. destruct payload as [|toc rest]; [done|].
  apply Forall_cons in Hb as [Htoc Hrest].
  unfold duration_ok, frame_count, opus_duration, byte_at. cbn [nth].
  rewrite land3, toc_samples_spec by done.
  pose proof (duration_product toc 1 Htoc ltac:(lia)) as H1.
  pose proof (duration_product toc 2 Htoc ltac:(lia)) as H2.
  assert (Hcases : toc mod 4 = 0 ∨ toc mod 4 = 1 ∨ toc mod 4 = 2 ∨ toc mod 4 = 3) by ilia.
  destruct Hcases as [-> | [-> | [-> | ->]]]; cbn [negb andb Z.eqb] in *.
  - rewrite H1, Z.mul_1_r, Z.eqb_eq. split; congruence.
  - rewrite H2, Z.eqb_eq. split; congruence.
  - rewrite H2, Z.eqb_eq. split; congruence.
  - destruct rest as [|b rest]; [done|].
    destruct (Z.ltb_spec (len (toc :: b :: rest)) 2) as [Hl|_]; [unfold len in Hl; cbn [length] in Hl; lia|].
    cbn [nth]. rewrite land63. rewrite u16_small by ilia.
    rewrite duration_product, Z.eqb_eq by ilia. split; congruence.
Qed.
Lemma bad_header_length message : bad_header message = false → 40 < len message <= 1315.
Proof. unfold bad_header. intros H. bool_hyps. unfold MaxMessageBytes, HeaderBytes, MaxPayloadBytes in *. lia. Qed.

Lemma frame_count_err payload e : frame_count payload = Err e → e = ErrFrame.
Proof. unfold frame_count. repeat case_match; congruence. Qed.

(** [Parse] with the header and duration checks separated. *)
Lemma parse_alt message :
  Parse message =
    if bad_header message || negb (duration_ok (drop 40 message)) then Err ErrFrame
    else Ok (mkFrame (be_combine (slice message 8 16)) (be_combine (slice message 16 20))
               (be_combine (slice message 24 32)) (be_combine (slice message 32 40))
               (byte_at message 5) (drop 40 message)).
Proof.
  unfold Parse, duration_ok. destruct (bad_header message); [done|]. cbn [orb].
  destruct (frame_count _) as [count|e] eqn:Hc; [|by rewrite (frame_count_err _ _ Hc)].
  cbn [mbind result_bind]. destruct (count =? 0), (u16 _ =? _); done.
Qed.

Lemma slice_4_8 m : 8 <= len m →
  slice m 4 8 = [byte_at m 4; byte_at m 5; byte_at m 6; byte_at m 7].
Proof.
  intros H. do 8 (destruct m as [|? m]; [unfold len in H; cbn [length] in H; lia|]). done.
Qed.

Lemma bad_header_false m :
  bad_header m = false ↔
  HeaderBytes < len m <= MaxMessageBytes ∧ slice m 0 4 = magic ∧ byte_at m 4 = 1 ∧
  (byte_at m 5 = 1 ∨ byte_at m 5 = 2) ∧ byte_at m 6 = 0 ∧ byte_at m 7 = 0 ∧
  be_combine (slice m 20 22) = FrameSamples ∧ be_combine (slice m 22 24) = len m - HeaderBytes.
Proof.
  unfold bad_header. rewrite !orb_false_iff, andb_false_iff, !negb_false_iff, !Z.eqb_eq,
    bool_decide_eq_true, Z.leb_gt, Z.gtb_ltb, Z.ltb_ge. tauto.
Qed.

Lemma parse_sound message f :
  Forall is_u8 message → Parse message = Ok f → wf_frame f ∧ message = render f.
Proof.
  intros Hb. rewrite parse_alt. destruct (bad_header message) eqn:Hh; [done|].
  destruct (duration_ok _) eqn:Hd; [|done]. cbn [orb negb]. intros [= <-].
  pose proof (bad_header_length _ Hh) as Hlen.
  apply bad_header_false in Hh as (_ & Hmagic & H4 & H5 & H6 & H7 & Hfs & Hpl).
  assert (Hdrop : len (drop 40 message) = len message - HeaderBytes)
    by (unfold len, HeaderBytes in *; rewrite length_drop; lia).
  apply duration_ok_spec in Hd; [|by apply Forall_drop|intros Hnil%len_nil_iff; unfold HeaderBytes in *; lia].
  assert (Hsl : ∀ n a b, (a + n = b)%nat → (b <= 40)%nat →
    be_split n (be_combine (slice message a b)) = slice message a b).
  { intros n a b Hab Hb40. apply be_split_combine_n; [rewrite length_slice; unfold len in Hlen; lia|].
    by apply Forall_slice. }
  assert (Hbd : ∀ a b, (a <= b <= 40)%nat →
    0 <= be_combine (slice message a b) < 2 ^ (8 * Z.of_nat (b - a))).
  { intros a b Hab. pose proof (be_combine_bound (slice message a b) (Forall_slice _ _ _ _ Hb)) as H.
    unfold len in H. rewrite length_slice in H by (unfold len in Hlen; lia). exact H. }
  split.
  - split; [|cbn; rewrite Hdrop; unfold HeaderBytes, MaxPayloadBytes; repeat split; try lia; auto].
    split_and!; cbn; [apply (Hbd 8 16)%nat|apply (Hbd 16 20)%nat|apply (Hbd 24 32)%nat|
      apply (Hbd 32 40)%nat|by apply Forall_drop]; lia.
  - unfold render. cbn [Sequence TimestampSamples CaptureTimestampNs OutputGeneration Channels Payload].
    rewrite Hdrop, <- Hpl, <- Hfs.
    rewrite (Hsl 8 8 16)%nat, (Hsl 4 16 20)%nat, (Hsl 2 20 22)%nat, (Hsl 2 22 24)%nat,
      (Hsl 8 24 32)%nat, (Hsl 8 32 40)%nat by lia.
    replace [1; byte_at message 5; 0; 0] with (slice message 4 8) by (rewrite slice_4_8 by lia; congruence).
    rewrite <- Hmagic, <- !drop_slice by lia. by rewrite drop_0.
Qed.

Lemma length_render f : len (render f) = HeaderBytes + len (Payload f).
Proof.
  unfold render, len, HeaderBytes. rewrite !length_app, !length_be_split. cbn [length magic]. lia.
Qed.

Lemma parse_complete f : wf_frame f → Parse (render f) = Ok f.
Proof.
  intros ((Hs & Ht & Hc & Hg & Hb) & Hch & Hl & Hd).
  assert (Hslices :
    slice (render f) 0 4 = magic ∧ byte_at (render f) 4 = 1 ∧ byte_at (render f) 5 = Channels f ∧
    byte_at (render f) 6 = 0 ∧ byte_at (render f) 7 = 0 ∧
    slice (render f) 8 16 = be_split 8 (Sequence f) ∧
    slice (render f) 16 20 = be_split 4 (TimestampSamples f) ∧
    slice (render f) 20 22 = be_split 2 FrameSamples ∧
    slice (render f) 22 24 = be_split 2 (len (Payload f)) ∧
    slice (render f) 24 32 = be_split 8 (CaptureTimestampNs f) ∧
    slice (render f) 32 40 = be_split 8 (OutputGeneration f) ∧
    drop 40 (render f) = Payload f) by (split_and!; reflexivity).
  destruct Hslices as (E0 & E4 & E5 & E6 & E7 & E8 & E16 & E20 & E22 & E24 & E32 & E40).
  assert (Hpl : be_combine (be_split 2 (len (Payload f))) = len (Payload f)).
  { apply be_combine_split. unfold MaxPayloadBytes in Hl. cbn. lia. }
  assert (Hh : bad_header (render f) = false).
  { apply bad_header_false. rewrite E0, E4, E5, E6, E7, E20, E22, Hpl, length_render.
    unfold MaxMessageBytes, HeaderBytes in *. rewrite (be_combine_split 2 FrameSamples) by (cbn; unfold FrameSamples; lia).
    split_and!; try done; lia. }
  rewrite parse_alt, Hh, E5, E8, E16, E24, E32, E40.
  assert (duration_ok (Payload f) = true) as ->.
  { apply duration_ok_spec; [done| |done]. intros Hnil%len_nil_iff. lia. }
  cbn [orb negb]. rewrite !be_combine_split by (cbn; ilia). by destruct f.
Qed.

(** The parser accepts exactly the rendered well-formed frames: a byte
    message parses to [f] iff it is the 40-octet header followed by [f]'s
    payload, with one or two channels, 1 to 1275 payload octets and an Opus
    packet whose true duration (no 16-bit wrap-around) is 20 ms. *)
Theorem parse_exact (message : list Z) (f : Frame) :
  Forall is_u8 message → (Parse message = Ok f ↔ wf_frame f ∧ message = render f).
Proof.
  intros Hb. split; [by apply parse_sound|]. intros [Hwf ->]. by apply parse_complete.
Qed.

Lemma parse_exact_witness :
  let f := mkFrame 7 6720 140000000 1 2 [8 * 31; 1; 2] in
  Parse (render f) = Ok f.
Proof.
  apply (parse_exact (render (mkFrame 7 6720 140000000 1 2 [8 * 31; 1; 2]))
    (mkFrame 7 6720 140000000 1 2 [8 * 31; 1; 2])).
  - repeat constructor; vm_compute; congruence.
  - split; [|reflexivity]. split_and!; cbn; try (right; reflexivity); repeat constructor;
      vm_compute; congruence.
Defined.

(** *** The replay and pacing fence *)

(** What [Admit] guarantees about a frame it accepts on a started timeline. *)
Lemma admit_next timeline frame now timeline' late :
  typed_frame frame → typed_frame (last timeline) →
  is_u64 (originSequence timeline) → originSequence timeline <= Sequence (last timeline) →
  originAt timeline <= now →
  started timeline = true → Admit timeline frame now = (timeline', Ok late) →
  timeline' = mkTimeline true (originNs timeline) (originSequence timeline) (originAt timeline) frame ∧
  Channels frame = Channels (last timeline) ∧
  Sequence (last timeline) < Sequence frame <= originSequence timeline + 4320000 ∧
  CaptureTimestampNs (last timeline) < CaptureTimestampNs frame ∧
  TimestampSamples frame =
    u32 (TimestampSamples (last timeline) + (Sequence frame - Sequence (last timeline)) * FrameSamples) ∧
  (Sequence frame - originSequence timeline) * FrameDuration - Sub now (originAt timeline) <= MaxAhead ∧
  late = (MaxLate <? Sub now (originAt timeline) - (Sequence frame - originSequence timeline) * FrameDuration).
Proof.
  intros (Hs & Ht & _) (Hs' & Ht' & _) Ho Hol Hnow Hst. unfold Admit. rewrite Hst. cbn [negb].
  destruct (_ || _) eqn:E1; [done|]. destruct (_ || _) eqn:E2 in |- *; [done|].
  destruct (_ >? MaxAhead) eqn:E3; [done|]. intros [= <- <-]. bool_hyps.
  change (u64 (Z.quot MaxSessionAge FrameDuration)) with 4320000 in *.
  assert (Hsub : 0 <= Sub now (originAt timeline) <= maxInt64) by (unfold Sub, sat64; ilia).
  set (a := Sub now (originAt timeline)) in *. clearbody a.
  change FrameDuration with 20000000 in *. change MaxAhead with 100000000 in *.
  change MaxLate with 250000000 in *. change FrameSamples with 960 in *.
  rewrite (u64_small (Sequence frame - originSequence timeline)) in * by ilia.
  rewrite (u64_small (Sequence frame - Sequence (last timeline))) in * by ilia.
  rewrite (i64_small (Sequence frame - originSequence timeline)) in * by ilia.
  rewrite (i64_small ((Sequence frame - originSequence timeline) * 20000000)) in * by ilia.
  rewrite i64_small in * by ilia.
  rewrite Z.gtb_ltb. split_and!; try done; ilia.
Qed.

Lemma admit_first timeline frame now :
  started timeline = false →
  Admit timeline frame now =
    (mkTimeline true (CaptureTimestampNs frame) (Sequence frame) now frame, Ok false).
Proof. intros Hst. unfold Admit. by rewrite Hst. Qed.

Lemma admit_last timeline frame now timeline' late :
  Admit timeline frame now = (timeline', Ok late) → last timeline' = frame.
Proof. unfold Admit. repeat case_if; intros HA; by simplify_eq. Qed.

(** The frames a connection presents, with their arrival times: [Some] when
    [Admit] accepted every one of them. *)
Fixpoint admit_all (timeline : Timeline) (l : list (Frame * Z)) : option Timeline :=
  match l with
  | [] => Some timeline
  | (frame, now) :: l' =>
    match Admit timeline frame now with
    | (timeline', Ok _) => admit_all timeline' l'
    | (_, Err _) => None
    end
  end.

(** A frame's position relative to the first frame of its connection. *)
Definition on_schedule (f0 : Frame) (t0 : Z) (p : Frame * Z) : Prop :=
  Sequence f0 < Sequence p.1 ∧
  TimestampSamples p.1 =
    u32 (TimestampSamples f0 + (Sequence p.1 - Sequence f0) * FrameSamples) ∧
  (Sequence p.1 - Sequence f0) * FrameDuration <= p.2 - t0 + MaxAhead.

Definition follows (p q : Frame * Z) : Prop :=
  Sequence p.1 < Sequence q.1 ∧ CaptureTimestampNs p.1 < CaptureTimestampNs q.1 ∧
  Channels p.1 = Channels q.1.

#[local] Instance follows_trans : Transitive follows.
Proof. intros [f1 t1] [f2 t2] [f3 t3]; unfold follows; cbn. intuition (lia || congruence). Qed.

Lemma admit_all_started f0 t0 l timeline timeline' t :
  typed_frame f0 → Forall (λ p, typed_frame p.1 ∧ t0 <= p.2) l →
  started timeline = true → originSequence timeline = Sequence f0 → originAt timeline = t0 →
  typed_frame (last timeline) →
  last timeline = f0 ∨ on_schedule f0 t0 (last timeline, t) →
  admit_all timeline l = Some timeline' →
  Sorted follows ((last timeline, t) :: l) ∧ Forall (on_schedule f0 t0) l.
Proof.
  intros Hf0 Hl. revert timeline t. induction l as [|[f now] l IH]; intros timeline t Hst Hos Hoa Hlast Hpos.
  { intros _. split; repeat constructor. }
  apply Forall_cons in Hl as [[Hf Hnow] Hl]. cbn [fst snd] in *. cbn [admit_all].
  assert (Hge : Sequence f0 <= Sequence (last timeline)).
  { destruct Hpos as [-> | [Hgt _]]; cbn in *; lia. }
  destruct (Admit timeline f now) as [tl [late|]] eqn:HA; [|done].
  apply admit_next in HA as (-> & Hch & Hseq & Hcap & Hts & Hahead & _); try done;
    [|rewrite Hos; apply Hf0 | lia | lia].
  rewrite Hos, Hoa in *.
  assert (Hsch : on_schedule f0 t0 (f, now)).
  { assert (Hsub : Sub now t0 <= now - t0) by (unfold Sub, sat64; ilia).
    split_and!; cbn [fst snd]; [lia| |lia].
    rewrite Hts. destruct Hpos as [-> | (_ & Hprev & _)]; [done|]. cbn [fst] in Hprev.
    rewrite Hprev. generalize (TimestampSamples f0) (Sequence (last timeline)) (Sequence f) (Sequence f0).
    intros. change FrameSamples with 960. ilia. }
  specialize (IH Hl). intros Hrun. apply (IH _ now) in Hrun as [Hsorted Hall]; cbn [last started originSequence originAt] in *; auto.
  split; [|by constructor]. constructor; [done|]. constructor. unfold follows; cbn [fst].
  split_and!; [lia|lia|done].
Qed.

(** On one connection the fence of [Timeline.Admit] holds for the whole
    stream: sequences and capture times strictly increase and the channel
    count is constant over every pair of accepted frames, every media
    timestamp is the first one plus 960 samples per sequence step (modulo
    2^32), and no accepted frame is more than 100 ms ahead of the wall clock
    measured from the first frame. *)
Theorem admit_stream f0 t0 l timeline' :
  typed_frame f0 → Forall (λ p, typed_frame p.1 ∧ t0 <= p.2) l →
  admit_all fresh ((f0, t0) :: l) = Some timeline' →
  StronglySorted follows ((f0, t0) :: l) ∧ Forall (on_schedule f0 t0) l.
Proof.
  intros Hf0 Hl Hrun. cbn [admit_all] in Hrun. rewrite admit_first in Hrun by done.
  apply (admit_all_started f0 t0 l _ _ t0) in Hrun as [Hs Ha]; auto; [].
  split; [|done]. apply Sorted_StronglySorted; [apply _ | done].
Qed.

Definition sample_frame (seq ts cap : Z) : Frame := mkFrame seq ts cap 0 1 [248; 255; 254].

Lemma admit_stream_witness :
  StronglySorted follows [(sample_frame 7 0 1, 0); (sample_frame 8 960 2, 10000000);
                          (sample_frame 10 2880 5, 60000000)] ∧
  Forall (on_schedule (sample_frame 7 0 1) 0)
    [(sample_frame 8 960 2, 10000000); (sample_frame 10 2880 5, 60000000)].
Proof.
  eapply (admit_stream _ _ _ (mkTimeline true 1 7 0 (sample_frame 10 2880 5)));
    [| |reflexivity]; repeat constructor; vm_compute; congruence.
Defined.

(** An accepted frame is reported late exactly when it arrives more than
    250 ms behind its media position, and the timeline still moves on to it. *)
Theorem admit_late timeline frame now timeline' late :
  typed_frame frame → typed_frame (last timeline) →
  is_u64 (originSequence timeline) → originSequence timeline <= Sequence (last timeline) →
  originAt timeline <= now <= originAt timeline + maxInt64 →
  started timeline = true → Admit timeline frame now = (timeline', Ok late) →
  last timeline' = frame ∧
  (late = true ↔
   originAt timeline + (Sequence frame - originSequence timeline) * FrameDuration + MaxLate < now).
Proof.
  intros ?? Ho Hge Hnow Hst HA. apply admit_next in HA as (-> & _ & _ & _ & _ & _ & ->); try done; [|lia].
  split; [done|]. rewrite Sub_exact by ilia. rewrite Z.ltb_lt. lia.
Qed.

Lemma admit_late_witness :
  true = true ↔ 0 + (9 - 7) * FrameDuration + MaxLate < 291000000.
Proof.
  apply (admit_late (mkTimeline true 1 7 0 (sample_frame 8 960 2)) (sample_frame 9 1920 3) 291000000
    (mkTimeline true 1 7 0 (sample_frame 9 1920 3)) true); [| | | | |reflexivity|reflexivity];
    repeat constructor; vm_compute; congruence.
Defined.

End Opus.

(** ** The WebSocket source

    One iteration of [ReadRTP] reads the clock, blocks in [NextReader] and, for
    a binary message, reads it into the fixed buffer and reads the clock again.
    An [event] is what the connection and the clock give one iteration. *)
Module Source.
Import Opus.

Inductive event :=
| ReadError (now failedAt : Z)
    (* [NextReader] fails at [failedAt] *)
| Message (now : Z) (binary : bool) (bytes : list Z) (truncated : bool) (arrivedAt : Z).
    (* a message whose body is [bytes]; [truncated] when the reader ends in an
       error other than [io.EOF] *)

Inductive close_code := ClosePolicyViolation | CloseGoingAway | CloseProtocolError.

Inductive source_error :=
| errSourceCapabilityExpired
| errRead
| errIngress (e : ingress_error).

Definition opusIngressIdleTimeout : Z := 15 * Second.

Record opusWebSocketSource := mkSource {
  closed : option (close_code * string);  (* [once], [done] and the close frame sent *)
  PacketDropCount : Z;                    (* of the bus, [uint64] *)
  packet : Rtp.Packet;
  timeline : Timeline;
  readDeadline : Z;                       (* [conn.SetReadDeadline] *)
  expiresAt : Z }.

(** [source.close]: [once.Do] keeps the first reason. *)
Definition close (code : close_code) (reason : string) (s : opusWebSocketSource) : opusWebSocketSource :=
  match closed s with
  | Some _ => s
  | None => mkSource (Some (code, reason)) (PacketDropCount s) (packet s) (timeline s)
              (readDeadline s) (expiresAt s)
  end.

Definition set_deadline (d : Z) (s : opusWebSocketSource) : opusWebSocketSource :=
  mkSource (closed s) (PacketDropCount s) (packet s) (timeline s) d (expiresAt s).

Definition set_timeline (tl : Timeline) (s : opusWebSocketSource) : opusWebSocketSource :=
  mkSource (closed s) (PacketDropCount s) (packet s) tl (readDeadline s) (expiresAt s).

Definition add_drop (s : opusWebSocketSource) : opusWebSocketSource :=
  mkSource (closed s) (u64 (PacketDropCount s + 1)) (packet s) (timeline s) (readDeadline s) (expiresAt s).

Definition set_packet (p : Rtp.Packet) (s : opusWebSocketSource) : opusWebSocketSource :=
  mkSource (closed s) (PacketDropCount s) p (timeline s) (readDeadline s) (expiresAt s).

(** The deadline given to the connection: the idle timeout, cut at the expiry
    of the capability. *)
Definition read_deadline (now expires : Z) : Z :=
  let deadline := time_Add now opusIngressIdleTimeout in
  if Before expires deadline then expires else deadline.

(** [io.ReadFull(reader, buffer)] fills the [MaxMessageBytes + 1] octets of the
    buffer without an error iff the message has that many. *)
Definition fills_buffer (bytes : list Z) : bool := len bytes >=? MaxMessageBytes + 1.

(** The packet handed to the bus reader for an admitted frame. *)
Definition frame_packet (p : Rtp.Packet) (f : Frame) : Rtp.Packet :=
  Rtp.set_payload (Payload f) (Rtp.set_sequence_timestamp (u16 (Sequence f)) (TimestampSamples f) p).

(** What one iteration does: return an error, return a packet, or go on. *)
Inductive outcome := Fail (e : source_error) | Packet (p : Rtp.Packet) | Continue.

Definition iteration (s : opusWebSocketSource) (e : event) : opusWebSocketSource * outcome :=
  let expired s := (close ClosePolicyViolation "source capability expired" s,
                    Fail errSourceCapabilityExpired) in
  let now := match e with ReadError now _ => now | Message now _ _ _ _ => now end in
  if negb (Before now (expiresAt s)) then expired s else
  let s := set_deadline (read_deadline now (expiresAt s)) s in
  match e with
  | ReadError _ failedAt =>
    if negb (Before failedAt (expiresAt s)) then expired s
    else (close CloseGoingAway "source disconnected" s, Fail errRead)
  | Message _ binary bytes truncated arrivedAt =>
    if negb binary then
      (close CloseProtocolError "binary Opus frame required" s, Fail (errIngress ErrFrame)) else
    if negb (Before arrivedAt (expiresAt s)) then expired s else
    if truncated || fills_buffer bytes then
      (close CloseProtocolError "frame size rejected" s, Fail (errIngress ErrFrame)) else
    match Opus.Parse bytes with
    | Err e => (close CloseProtocolError "Opus frame rejected" s, Fail (errIngress e))
    | Ok frame =>
      let '(tl, admitted) := Admit (timeline s) frame arrivedAt in
      let s := set_timeline tl s in
      match admitted with
      | Err e => (close CloseProtocolError "Opus continuity rejected" s, Fail (errIngress e))
      | Ok true => (add_drop s, Continue)
      | Ok false =>
        let p := frame_packet (packet s) frame in (set_packet p s, Packet p)
      end
    end
  end.

(** [ReadRTP]: [None] when the connection has no further event, where the call
    is blocked in [NextReader]. *)
Fixpoint ReadRTP (s : opusWebSocketSource) (events : list event)
  : opusWebSocketSource * option (result source_error Rtp.Packet) * list event :=
  match events with
  | [] => (s, None, [])
  | e :: events' =>
    match iteration s e with
    | (s', Fail err) => (s', Some (Err err), events')
    | (s', Packet p) => (s', Some (Ok p), events')
    | (s', Continue) => ReadRTP s' events'
    end
  end.

(** A late frame: admitted by the timeline and dropped. *)
Definition late_frame (expires : Z) (e : event) : Prop :=
  ∃ now bytes arrivedAt f, e = Message now true bytes false arrivedAt ∧
    now < expires ∧ arrivedAt < expires ∧ Opus.Parse bytes = Ok f.

Lemma close_expiresAt code reason s : expiresAt (close code reason s) = expiresAt s.
Proof. unfold close. by destruct (closed s). Qed.

Lemma close_closed code reason s : closed (close code reason s) ≠ None.
Proof. unfold close. by destruct (closed s) eqn:E; [rewrite E|]. Qed.

Lemma close_drops code reason s : PacketDropCount (close code reason s) = PacketDropCount s.
Proof. unfold close. by destruct (closed s). Qed.

Lemma iteration_expiresAt s e : expiresAt (iteration s e).1 = expiresAt s.
Proof.
  unfold iteration. destruct e as [now t|now b bytes tr t]; repeat case_if;
    cbn [fst]; rewrite ?close_expiresAt; try done.
  destruct (Opus.Parse bytes) as [f|]; cbn [fst]; [|by rewrite close_expiresAt].
  cbn [set_deadline timeline]. destruct (Admit _ f t) as [tl [[]|]]; cbn [fst]; rewrite ?close_expiresAt; done.
Qed.

Lemma iteration_fail s e s' err : iteration s e = (s', Fail err) → closed s' ≠ None.
Proof.
  unfold iteration. destruct e as [now t|now b bytes tr t]; repeat case_if;
    try (intros [= <- <-]; apply close_closed).
  destruct (Opus.Parse bytes) as [f|]; [|intros [= <- <-]; apply close_closed].
  cbn [set_deadline timeline].
  destruct (Admit _ f t) as [tl [[]|]]; intros [= <- <-]; apply close_closed.
Qed.

(** An iteration that does not fail has admitted a frame before the expiry. *)
Lemma iteration_admits s e s' o :
  iteration s e = (s', o) → (∀ err, o ≠ Fail err) →
  ∃ now bytes at_ f late,
    e = Message now true bytes false at_ ∧ now < expiresAt s ∧ at_ < expiresAt s ∧
    len bytes <= MaxMessageBytes ∧ Opus.Parse bytes = Ok f ∧
    Admit (timeline s) f at_ = (timeline s', Ok late) ∧ closed s' = closed s ∧
    match o with
    | Continue => late = true ∧ PacketDropCount s' = u64 (PacketDropCount s + 1)
    | Packet p => late = false ∧ PacketDropCount s' = PacketDropCount s ∧
                  p = frame_packet (packet s) f
    | Fail _ => False
    end.
Proof.
  unfold iteration. intros Hit Hno.
  destruct e as [now t|now b bytes tr t]; repeat case_if; simplify_eq; try (by destruct (Hno _ eq_refl)).
  destruct (Opus.Parse bytes) as [f|] eqn:Hp; [|simplify_eq; by destruct (Hno _ eq_refl)].
  cbn [set_deadline timeline packet expiresAt] in *.
  destruct (Admit _ f t) as [tl [[]|]] eqn:HA; simplify_eq; try (by destruct (Hno _ eq_refl));
    unfold Before, fills_buffer in *; bool_hyps; simplify_eq;
    exists now, bytes, t, f; eexists; split_and!; try done; lia.
Qed.

(** A packet returned by [ReadRTP] was read before the capability expired,
    comes from a well-formed frame the timeline admitted as on time, and
    carries its 16-bit sequence, media timestamp and payload; the connection is
    still open; every message skipped before it was itself received before
    the expiry, and each was counted as one drop. *)
Theorem read_rtp_packet s events s' p rest :
  ReadRTP s events = (s', Some (Ok p), rest) →
  ∃ skipped now bytes at_ f,
    events = skipped ++ Message now true bytes false at_ :: rest ∧
    Forall (late_frame (expiresAt s)) skipped ∧
    at_ < expiresAt s ∧ Opus.Parse bytes = Ok f ∧ last (timeline s') = f ∧
    Rtp.SequenceNumber p = u16 (Sequence f) ∧ Rtp.Timestamp p = TimestampSamples f ∧
    Rtp.Payload p = Payload f ∧ closed s' = closed s ∧
    u64 (PacketDropCount s') = u64 (PacketDropCount s + len skipped).
Proof.
  revert s. induction events as [|e events IH]; intros s; cbn [ReadRTP]; [done|].
  pose proof (iteration_expiresAt s e) as Hexp.
  destruct (iteration s e) as [s1 o] eqn:Hit. cbn [fst] in Hexp. destruct o as [err|p'|].
  - done.
  - intros [= -> -> ->].
    apply iteration_admits in Hit as (now & bytes & t & f & late & -> & Hn & Ht & _ & Hp & HA & Hc & Ho);
      [|done]. destruct Ho as (-> & Hd & ->).
    exists [], now, bytes, t, f. split_and!; try done.
    + by eapply admit_last.
    + unfold len. cbn. by rewrite Hd, Z.add_0_r.
  - intros HR. destruct (IH _ HR) as (sk & now & bytes & t & f & -> & Hsk & Ht & Hp & Hl & H1 & H2 & H3 & H4 & H5).
    apply iteration_admits in Hit as (now' & bytes' & t' & f' & late & -> & Hn' & Ht' & _ & Hp' & _ & Hc & -> & Hd);
      [|done].
    exists (Message now' true bytes' false t' :: sk), now, bytes, t, f. rewrite Hexp in *.
    split_and!; try done; [|congruence|].
    + constructor; [|done]. by exists now', bytes', t', f'.
    + rewrite H5, Hd. unfold len. cbn [length]. ilia.
Qed.

(** Every failing return of [ReadRTP] has closed the connection, and the
    call never runs past the events that are on the connection: it returns
    unless every message was a late frame. *)
Theorem read_rtp_returns s events s' r rest :
  ReadRTP s events = (s', r, rest) →
  match r with
  | Some (Err _) => closed s' ≠ None
  | Some (Ok _) => closed s' = closed s
  | None => rest = [] ∧ closed s' = closed s ∧ Forall (late_frame (expiresAt s)) events
  end.
Proof.
  revert s. induction events as [|e events IH]; intros s; cbn [ReadRTP].
  { intros [= <- <- <-]. by repeat constructor. }
  pose proof (iteration_expiresAt s e) as Hexp.
  destruct (iteration s e) as [s1 o] eqn:Hit. cbn [fst] in Hexp. destruct o as [err|p|].
  - intros [= <- <- <-]. by eapply iteration_fail.
  - intros [= <- <- <-]. by apply iteration_admits in Hit as (?&?&?&?&?&_&_&_&_&_&_&Hc&_).
  - apply iteration_admits in Hit as (now & bytes & t & f & late & -> & Hn & Ht & _ & Hp & _ & Hc & _); [|done].
    intros HR%IH. destruct r as [[]|]; [congruence|done|]. destruct HR as (-> & -> & HF).
    rewrite Hexp in HF. split_and!; try done. constructor; [|done]. by exists now, bytes, t, f.
Qed.

Definition sample_source : opusWebSocketSource :=
  mkSource None 0 Rtp.zero fresh 0 (60 * Second).

Definition sample_message (seq ts cap at_ : Z) : event :=
  Message at_ true (render (sample_frame seq ts cap)) false at_.

Definition sample_events : list event :=
  [sample_message 7 0 1 0; sample_message 8 960 2 (Second); sample_message 9 1920 3 (40 * Millisecond)].

Lemma read_rtp_packet_witness :
  Rtp.SequenceNumber (Rtp.media 7 0 [248; 255; 254]) = 7 ∧
  ∃ skipped now bytes at_ f,
    sample_events = skipped ++ Message now true bytes false at_ :: drop 1 sample_events ∧
    at_ < 60 * Second ∧ Opus.Parse bytes = Ok f.
Proof.
  split; [reflexivity|].
  destruct (read_rtp_packet sample_source sample_events
    (ReadRTP sample_source sample_events).1.1
    (frame_packet Rtp.zero (sample_frame 7 0 1)) (drop 1 sample_events))
    as (sk & now & bytes & t & f & H1 & _ & H2 & H3 & _); [vm_compute; reflexivity|].
  by exists sk, now, bytes, t, f.
Defined.

Lemma read_rtp_returns_witness :
  closed (ReadRTP sample_source [Message 0 false [] false 0]).1.1 ≠ None.
Proof.
  apply (read_rtp_returns sample_source [Message 0 false [] false 0] _
    (Some (Err (errIngress ErrFrame))) []). reflexivity.
Defined.

End Source.
