(* ===== verification/ClockLineage.v ===== *)
(** * ClockLineage: RTCP Sender Reports and the publisher clock

    Translates [internal/media/clocklineage]: the NTP conversions and the
    per-SSRC [Timeline] (timeline.go), the interleaving of its capture seqlock,
    the bounded [Registry] (registry.go) and the RTCP interceptor
    (interceptor.go). *)

From S2P Require Export GoTime.

Module Ntp.

Definition ntpUnixEpochOffsetSeconds : Z := 2208988800.

Definition ntpTime (value : Z) : Z :=
  let seconds := i64 (i64 (Z.shiftr value 32) - i64 ntpUnixEpochOffsetSeconds) in
  let fraction := Z.land value 4294967295 in
  let nanoseconds := i64 (Z.shiftr (u64 (fraction * Second)) 32) in
  time_Unix seconds nanoseconds.

Definition timeToNTP (value : Z) : Z :=
  let seconds := u64 (u64 (Unix value) + ntpUnixEpochOffsetSeconds) in
  let fraction := u64 (u64 (NanosecondOf value) * u64 (Z.shiftl 1 32)) / Second in
  Z.lor (u64 (Z.shiftl seconds 32)) fraction.

(** The instants of NTP era 0, 1900-01-01 to 2036-02-07. *)
Definition in_era (t : Z) : Prop :=
  - ntpUnixEpochOffsetSeconds * Second <= t < (2 ^ 32 - ntpUnixEpochOffsetSeconds) * Second.

Lemma ntpTime_spec value :
  is_u64 value →
  ntpTime value =
    (value / 2 ^ 32 - ntpUnixEpochOffsetSeconds) * Second + (value mod 2 ^ 32) * Second / 2 ^ 32.
Proof.
  intros Hv. unfold ntpTime, time_Unix.
  change 4294967295 with (Z.ones 32). rewrite Z.land_ones by lia.
  rewrite !Z.shiftr_div_pow2 by lia. change (2 ^ 32) with 4294967296.
  unfold ntpUnixEpochOffsetSeconds, Second.
  rewrite (u64_small (value mod 4294967296 * 1000000000)) by ilia.
  rewrite (i64_small (_ / 4294967296)) by ilia. rewrite (i64_small 2208988800) by ilia.
  rewrite (i64_small (value / 4294967296 - 2208988800)) by ilia.
  rewrite i64_small by ilia. done.
Qed.

Lemma timeToNTP_spec t :
  is_i64 (t / Second) →
  timeToNTP t =
    ((t / Second + ntpUnixEpochOffsetSeconds) mod 2 ^ 32) * 2 ^ 32 + (t mod Second) * 2 ^ 32 / Second.
Proof.
  intros Ht. unfold timeToNTP, Unix, NanosecondOf.
  rewrite i64_small by done. rewrite Z.shiftl_mul_pow2 by lia.
  change (u64 (Z.shiftl 1 32)) with 4294967296. change (2 ^ 32) with 4294967296.
  assert (Hn : 0 <= t mod Second < 1000000000) by (apply Z.mod_pos_bound; done).
  rewrite (u64_small (t mod Second)) by ilia.
  rewrite (u64_small (t mod Second * _)) by ilia.
  set (f := t mod Second * 4294967296 / Second).
  assert (Hf : 0 <= f < 4294967296) by (unfold f, Second in *; ilia).
  set (s := u64 (u64 (t / Second) + ntpUnixEpochOffsetSeconds)).
  replace (u64 (s * 4294967296)) with ((s mod 4294967296) * 2 ^ 32) by ilia.
  rewrite lor_disjoint by lia. change (2 ^ 32) with 4294967296.
  f_equal. unfold s, ntpUnixEpochOffsetSeconds. ilia.
Qed.

Lemma timeToNTP_era t :
  in_era t →
  timeToNTP t = (t / Second + ntpUnixEpochOffsetSeconds) * 2 ^ 32 + (t mod Second) * 2 ^ 32 / Second.
Proof.
  unfold in_era, ntpUnixEpochOffsetSeconds, Second. change (2 ^ 32) with 4294967296. intros Ht.
  rewrite timeToNTP_spec by (unfold Second; ilia). unfold ntpUnixEpochOffsetSeconds, Second.
  change (2 ^ 32) with 4294967296. f_equal. f_equal. apply Z.mod_small. ilia.
Qed.

Lemma timeToNTP_u64 t : is_i64 (t / Second) → is_u64 (timeToNTP t).
Proof.
  intros Ht. rewrite timeToNTP_spec by done. change (2 ^ 32) with 4294967296.
  assert (0 <= t mod Second * 4294967296 / Second < 4294967296) by (unfold Second; ilia).
  ilia.
Qed.

(** Splitting an NTP value into its halves. *)
Lemma ntp_halves s f : 0 <= f < 2 ^ 32 →
  (s * 2 ^ 32 + f) / 2 ^ 32 = s ∧ (s * 2 ^ 32 + f) mod 2 ^ 32 = f.
Proof. change (2 ^ 32) with 4294967296. ilia. Qed.

Lemma ntp_roundtrip_ns t : in_era t → t - 1 <= ntpTime (timeToNTP t) <= t.
Proof.
  intros Ht. assert (Hs : is_i64 (t / Second)).
  { unfold in_era, ntpUnixEpochOffsetSeconds, Second in *. ilia. }
  rewrite ntpTime_spec by by apply timeToNTP_u64. rewrite timeToNTP_era by done.
  assert (Hf : 0 <= t mod Second * 2 ^ 32 / Second < 2 ^ 32).
  { unfold Second. change (2 ^ 32) with 4294967296. ilia. }
  destruct (ntp_halves (t / Second + ntpUnixEpochOffsetSeconds) _ Hf) as [-> ->].
  unfold Second, ntpUnixEpochOffsetSeconds in *. change (2 ^ 32) with 4294967296 in *.
  ilia.
Qed.

(** An instant of NTP era 0 survives the conversion to a 64-bit NTP
    timestamp and back up to one nanosecond, and is never moved forward. *)
Theorem ntp_roundtrip t : in_era t → t - 1 <= ntpTime (timeToNTP t) <= t.
Proof. apply ntp_roundtrip_ns. Qed.

Lemma ntp_roundtrip_witness :
  1760000000123456789 - 1 <= ntpTime (timeToNTP 1760000000123456789) <= 1760000000123456789.
Proof. apply (ntp_roundtrip 1760000000123456789). vm_compute. split; congruence. Defined.

(** Converting an NTP timestamp to an instant and back keeps the seconds
    and loses at most five of the 2^32 units of the fraction. *)
Theorem ntp_roundtrip_inverse value :
  is_u64 value → value - 5 <= timeToNTP (ntpTime value) <= value.
Proof.
  intros Hv. rewrite ntpTime_spec by done.
  assert (Hf : 0 <= value mod 2 ^ 32 < 2 ^ 32) by (apply Z.mod_pos_bound; lia).
  assert (Hs : 0 <= value / 2 ^ 32 < 2 ^ 32) by (change (2 ^ 32) with 4294967296; ilia).
  pose proof (Z.div_mod value (2 ^ 32) ltac:(lia)) as Hvs.
  set (s := value / 2 ^ 32) in *. set (f := value mod 2 ^ 32) in *. clearbody s f.
  set (n := f * Second / 2 ^ 32).
  assert (Hn : 0 <= n < Second) by (unfold n, Second; change (2 ^ 32) with 4294967296 in *; ilia).
  assert (Hd : ((s - ntpUnixEpochOffsetSeconds) * Second + n) / Second = s - ntpUnixEpochOffsetSeconds
             ∧ ((s - ntpUnixEpochOffsetSeconds) * Second + n) mod Second = n).
  { unfold Second in *. ilia. }
  destruct Hd as [Hd Hm].
  rewrite timeToNTP_era.
  2: { unfold in_era, ntpUnixEpochOffsetSeconds, Second in *. change (2 ^ 32) with 4294967296 in *. lia. }
  rewrite Hd, Hm, Hvs. clear -Hf.
  subst n. unfold Second. change (2 ^ 32) with 4294967296 in *. ilia.
Qed.

Lemma ntp_roundtrip_inverse_witness :
  16990000000123456789 - 5 <= timeToNTP (ntpTime 16990000000123456789) <= 16990000000123456789.
Proof. apply (ntp_roundtrip_inverse 16990000000123456789). split; vm_compute; congruence. Defined.

End Ntp.

Module Timeline.
Import Ntp.

Definition defaultMaxReportAge : Z := 10 * Second.

(** The fields of [rtcp.SenderReport] that Relay reads or writes. *)
Record SenderReport := mkSenderReport {
  SSRC : Z; NTPTime : Z; RTPTime : Z; PacketCount : Z; OctetCount : Z }.

Definition set_NTPTime (ntp : Z) (sr : SenderReport) : SenderReport :=
  mkSenderReport (SSRC sr) ntp (RTPTime sr) (PacketCount sr) (OctetCount sr).

Definition typed_report (sr : SenderReport) : Prop :=
  is_u32 (SSRC sr) ∧ is_u64 (NTPTime sr) ∧ is_u32 (RTPTime sr).

Record SenderReportSnapshot := mkSnapshot {
  snapSSRC : Z; snapNTPTime : Z; snapRTPTime : Z; snapPacketCount : Z; snapOctetCount : Z;
  ObservedAtNs : Z; ReportCount : Z; Normalized : bool }.

Record Timeline := mkTimeline {
  ssrc : Z;
  latest : option SenderReportSnapshot;
  captureVersion : Z;
  captureRTPTime : Z;
  captureNTPTime : Z;
  captureObservedNs : Z }.

Definition NewTimeline (ssrc : Z) : Timeline := mkTimeline ssrc None 0 0 0 0.

Definition observe (t : Timeline) (sr : option SenderReport) (observedAt : Z) (normalized : bool)
  : Timeline :=
  match sr with
  | None => t
  | Some sr =>
    if negb (SSRC sr =? ssrc t) then t else
    let count := match latest t with
                 | Some previous => u64 (ReportCount previous + 1)
                 | None => 1
                 end in
    mkTimeline (ssrc t)
      (Some (mkSnapshot (SSRC sr) (NTPTime sr) (RTPTime sr) (PacketCount sr) (OctetCount sr)
               (UnixNano observedAt) count normalized))
      (captureVersion t) (captureRTPTime t) (captureNTPTime t) (captureObservedNs t)
  end.

Definition Observe (t : Timeline) (sr : option SenderReport) (observedAt : Z) : Timeline :=
  observe t sr observedAt false.

(** [ObserveCapture] with no concurrent writer: [None] when the version is odd,
    where the retry loop spins forever.  [Seqlock] below has the interleavings. *)
Definition ObserveCapture (t : Timeline) (rtpTimestamp captureTime observedAt : Z)
  : option Timeline :=
  let version := captureVersion t in
  if negb (Z.land version 1 =? 0) then None else
  Some (mkTimeline (ssrc t) (latest t) (u64 (version + 2)) rtpTimestamp
          (timeToNTP captureTime) (UnixNano observedAt)).

(** [captureMapping]: at most [attempts] tries of the seqlock read. *)
Fixpoint captureMapping_loop (attempts : nat) (t : Timeline) : option (Z * Z * Z) :=
  match attempts with
  | O => None
  | S attempts' =>
    let before := captureVersion t in
    if (before =? 0) || negb (Z.land before 1 =? 0) then captureMapping_loop attempts' t else
    let after := captureVersion t in
    if before =? after
    then Some (captureRTPTime t, captureNTPTime t, captureObservedNs t)
    else captureMapping_loop attempts' t
  end.

Definition captureMapping (t : Timeline) : option (Z * Z * Z) := captureMapping_loop 4 t.

(** [time.Duration(int64(int32(to - from))) * time.Second / time.Duration(rate)]. *)
Definition sample_delta (to from rate : Z) : Z :=
  let deltaSamples := i32 (u32 (to - from)) in
  Z.quot (i64 (deltaSamples * Second)) rate.

Definition NormalizeSenderReport (t : Timeline) (sr : option SenderReport) (now clockRateHz : Z)
  : option SenderReport * bool :=
  match sr with
  | None => (None, false)
  | Some report =>
    if negb (SSRC report =? ssrc t) || (clockRateHz =? 0) then (sr, false) else
    match captureMapping t with
    | None => (sr, false)
    | Some (rtpTime, captureNTP, observedAtNs) =>
      let age := Sub now (time_Unix 0 observedAtNs) in
      if (age <? 0) || (age >? defaultMaxReportAge) then (sr, false) else
      let delta := sample_delta (RTPTime report) rtpTime clockRateHz in
      (Some (set_NTPTime (timeToNTP (time_Add (ntpTime captureNTP) delta)) report), true)
    end
  end.

Definition Snapshot (t : Timeline) : SenderReportSnapshot * bool :=
  match latest t with
  | None => (mkSnapshot (ssrc t) 0 0 0 0 0 0 false, false)
  | Some snapshot => (snapshot, true)
  end.

Definition CaptureTime (t : Timeline) (rtpTimestamp now clockRateHz maxAge : Z) : option Z :=
  match latest t with
  | None => None
  | Some snapshot =>
    if clockRateHz =? 0 then None else
    let maxAge := if maxAge <=? 0 then defaultMaxReportAge else maxAge in
    let age := Sub now (time_Unix 0 (ObservedAtNs snapshot)) in
    if (age <? 0) || (age >? maxAge) then None else
    let delta := sample_delta rtpTimestamp (snapRTPTime snapshot) clockRateHz in
    Some (time_Add (ntpTime (snapNTPTime snapshot)) delta)
  end.

(** *** Properties *)

Lemma sample_delta_spec from k rate :
  is_u32 from → - 2 ^ 31 <= k < 2 ^ 31 → sample_delta (u32 (from + k)) from rate = Z.quot (k * Second) rate.
Proof.
  intros Hf Hk. unfold sample_delta. f_equal.
  assert (i32 (u32 (u32 (from + k) - from)) = k) as ->.
  { change (2 ^ 31) with 2147483648 in *. unfold i32. ilia. }
  apply i64_small. unfold Second. ilia.
Qed.

Lemma age_check now at_ maxAge : 0 <= maxAge < maxInt64 → is_i64 at_ →
  ((Sub now (time_Unix 0 at_) <? 0) || (Sub now (time_Unix 0 at_) >? maxAge)) = false ↔
  at_ <= now <= at_ + maxAge.
Proof.
  intros Hm Ha. unfold Sub, sat64, time_Unix. rewrite orb_false_iff, Z.ltb_ge, Z.gtb_ltb, Z.ltb_ge. ilia.
Qed.

(** The publisher instant of the RTP timestamp [k] samples after the report's. *)
Definition capture_instant (ntp k rate : Z) : Z := ntpTime ntp + Z.quot (k * Second) rate.

(** [CaptureTime] after a Sender Report was observed: the RTP timestamp [k]
    samples away from the report (in either direction, across the 32-bit
    wrap-around) maps to the report's NTP instant plus [k / rate] seconds,
    without overflow, when the report is not from the future and not older than
    the age limit (10 s by default); otherwise nothing is returned. *)
Theorem capture_time_exact t sr at_ k now rate maxAge :
  typed_report sr → SSRC sr = ssrc t → is_i64 at_ → - 2 ^ 31 <= k < 2 ^ 31 →
  0 < rate → maxAge < maxInt64 →
  CaptureTime (Observe t (Some sr) at_) (u32 (RTPTime sr + k)) now rate maxAge =
    if decide (at_ <= now <= at_ + (if maxAge <=? 0 then defaultMaxReportAge else maxAge))
    then Some (capture_instant (NTPTime sr) k rate) else None.
Proof.
  intros (_ & Hn & Hr) Hs Ha Hk Hrate Hmax. unfold Observe, observe, CaptureTime.
  rewrite Hs, Z.eqb_refl. cbn [negb latest ObservedAtNs snapRTPTime snapNTPTime].
  rewrite (proj2 (Z.eqb_neq rate 0)) by lia.
  unfold UnixNano. rewrite i64_small by done.
  set (limit := if maxAge <=? 0 then _ else _).
  assert (Hl : 0 <= limit < maxInt64).
  { subst limit. destruct (Z.leb_spec maxAge 0); [vm_compute; split; congruence|lia]. }
  pose proof (age_check now at_ limit Hl Ha) as Hage.
  rewrite sample_delta_spec by done.
  destruct (_ || _); case_decide as Hd; try done; exfalso; revert Hage; intuition congruence.
Qed.

Definition sample_report : SenderReport := mkSenderReport 7 16990000000123456789 4294967000 10 1000.

Lemma capture_time_exact_witness :
  CaptureTime (Observe (NewTimeline 7) (Some sample_report) 5000) (u32 (4294967000 + 480)) 6000 48000 0 =
  Some (capture_instant 16990000000123456789 480 48000).
Proof.
  etransitivity.
  - apply (capture_time_exact (NewTimeline 7) sample_report 5000 480 6000 48000 0); try reflexivity;
      repeat split; vm_compute; congruence.
  - reflexivity.
Defined.

Lemma captureMapping_even t :
  captureVersion t ≠ 0 → Z.land (captureVersion t) 1 = 0 →
  captureMapping t = Some (captureRTPTime t, captureNTPTime t, captureObservedNs t).
Proof.
  intros H0 H1. unfold captureMapping. cbn [captureMapping_loop].
  rewrite (proj2 (Z.eqb_neq _ _) H0), H1. cbn. by rewrite Z.eqb_refl.
Qed.

Lemma land_1_even z : Z.land z 1 = z mod 2.
Proof. apply (Z.land_ones z 1). lia. Qed.

(** After an uncontended [ObserveCapture] of capture instant [c] for RTP
    time [r], a Sender Report generated within 10 s for RTP time [r + k] is
    rewritten to an NTP time within 2 ns of [c + k / rate], and nothing else of
    the report changes. *)
Theorem normalize_tracks_capture t t' r c at_ sr k now rate :
  is_u32 r → typed_report sr → SSRC sr = ssrc t → 0 < rate → - 2 ^ 31 <= k < 2 ^ 31 →
  RTPTime sr = u32 (r + k) →
  in_era c → in_era (c + Z.quot (k * Second) rate) → in_era (c + Z.quot (k * Second) rate - 1) →
  is_i64 at_ → at_ <= now <= at_ + defaultMaxReportAge →
  0 <= captureVersion t < 2 ^ 64 - 2 → ObserveCapture t r c at_ = Some t' →
  ∃ ntp, NormalizeSenderReport t' (Some sr) now rate = (Some (set_NTPTime ntp sr), true) ∧
         c + Z.quot (k * Second) rate - 2 <= ntpTime ntp <= c + Z.quot (k * Second) rate.
Proof.
  intros Hr Hsr Hs Hrate Hk Hrt Hc He He1 Ha Hnow Hv. unfold ObserveCapture.
  destruct (negb _) eqn:Hodd; [done|]. intros [= <-]. bool_hyps.
  unfold NormalizeSenderReport. rewrite captureMapping_even; cbn [captureVersion].
  2: { ilia. }
  2: { rewrite land_1_even in *. ilia. }
  cbn [ssrc captureRTPTime captureNTPTime captureObservedNs].
  rewrite Hs, Z.eqb_refl, (proj2 (Z.eqb_neq rate 0)) by lia. cbn [negb orb].
  unfold UnixNano. rewrite (i64_small at_) by done.
  rewrite (proj2 (age_check now at_ defaultMaxReportAge ltac:(vm_compute; split; congruence) Ha)) by done.
  rewrite Hrt, sample_delta_spec by done. eexists; split; [reflexivity|].
  unfold time_Add. set (d := Z.quot (k * Second) rate) in *. clearbody d.
  pose proof (ntp_roundtrip_ns c Hc) as Hrc.
  set (c' := ntpTime (timeToNTP c)) in *. clearbody c'.
  assert (Hin : in_era (c' + d)) by (unfold in_era in *; lia).
  pose proof (ntp_roundtrip_ns _ Hin). lia.
Qed.

Lemma normalize_tracks_capture_witness :
  ∃ ntp, NormalizeSenderReport (mkTimeline 7 None 2 1000 (timeToNTP 1760000000000000000) 5000)
           (Some (mkSenderReport 7 0 1960 0 0)) 6000 48000
         = (Some (mkSenderReport 7 ntp 1960 0 0), true) ∧
  1760000000000000000 + 20000000 - 2 <= ntpTime ntp <= 1760000000000000000 + 20000000.
Proof.
  apply (normalize_tracks_capture (NewTimeline 7) _ 1000 1760000000000000000 5000
    (mkSenderReport 7 0 1960 0 0) 960 6000 48000); try reflexivity; repeat split; vm_compute; congruence.
Defined.

End Timeline.

(** ** The capture seqlock under concurrency

    [ObserveCapture] and [captureMapping] run on different goroutines.  Every
    atomic load, store and compare-and-swap of the two functions is one step;
    a schedule is the list of the threads that step, and [history] is a ghost
    list of the mappings whose write has finished. *)
Module Seqlock.
Import Ntp Timeline.

Definition mapping : Type := Z * Z * Z.   (* RTP time, NTP time, observation *)

Record shared := mkShared {
  version : Z;       (* captureVersion *)
  rtpWord : Z;       (* captureRTPTime *)
  ntpWord : Z;       (* captureNTPTime *)
  obsWord : Z }.     (* captureObservedNs *)

Inductive call := ObserveCall (m : mapping) | MappingCall.

Inductive pc :=
| Idle
| WLoad (m : mapping)
| WCas (m : mapping) (v : Z)
| WRtp (m : mapping) (v : Z)
| WNtp (m : mapping) (v : Z)
| WObs (m : mapping) (v : Z)
| WUnlock (m : mapping) (v : Z)
| RBefore (attempts : nat)
| RRtp (attempts : nat) (before : Z)
| RNtp (attempts : nat) (before rtp : Z)
| RObs (attempts : nat) (before rtp ntp : Z)
| RAfter (attempts : nat) (before rtp ntp obs : Z).

Record thread := mkThread {
  at_ : pc;
  todo : list call;
  results : list (option mapping) }.

(** One atomic action of a thread; the last component is the mapping whose
    write the action completes. *)
Definition thread_step (sh : shared) (th : thread) : shared * thread * option mapping :=
  let goto p := (sh, mkThread p (todo th) (results th), None) in
  let return_ r := (sh, mkThread Idle (todo th) (results th ++ [r]), None) in
  let store sh' p := (sh', mkThread p (todo th) (results th), None) in
  match at_ th with
  | Idle =>
    match todo th with
    | [] => (sh, th, None)
    | ObserveCall m :: todo' => (sh, mkThread (WLoad m) todo' (results th), None)
    | MappingCall :: todo' => (sh, mkThread (RBefore 4) todo' (results th), None)
    end
  | WLoad m => if negb (Z.land (version sh) 1 =? 0) then goto (WLoad m) else goto (WCas m (version sh))
  | WCas m v =>
    if version sh =? v
    then store (mkShared (u64 (v + 1)) (rtpWord sh) (ntpWord sh) (obsWord sh)) (WRtp m v)
    else goto (WLoad m)
  | WRtp m v => store (mkShared (version sh) m.1.1 (ntpWord sh) (obsWord sh)) (WNtp m v)
  | WNtp m v => store (mkShared (version sh) (rtpWord sh) m.1.2 (obsWord sh)) (WObs m v)
  | WObs m v => store (mkShared (version sh) (rtpWord sh) (ntpWord sh) m.2) (WUnlock m v)
  | WUnlock m v =>
    (mkShared (u64 (v + 2)) (rtpWord sh) (ntpWord sh) (obsWord sh),
     mkThread Idle (todo th) (results th), Some m)
  | RBefore O => return_ None
  | RBefore (S n) =>
    let before := version sh in
    if (before =? 0) || negb (Z.land before 1 =? 0) then goto (RBefore n) else goto (RRtp n before)
  | RRtp n before => goto (RNtp n before (rtpWord sh))
  | RNtp n before rtp => goto (RObs n before rtp (ntpWord sh))
  | RObs n before rtp ntp => goto (RAfter n before rtp ntp (obsWord sh))
  | RAfter n before rtp ntp obs =>
    if before =? version sh then return_ (Some (rtp, ntp, obs)) else goto (RBefore n)
  end.

Record config := mkConfig {
  mem : shared;
  threads : list thread;
  history : list mapping }.

Definition step (c : config) (i : nat) : config :=
  match threads c !! i with
  | None => c
  | Some th =>
    let '(sh, th', done_) := thread_step (mem c) th in
    mkConfig sh (<[i := th']> (threads c))
      (match done_ with Some m => history c ++ [m] | None => history c end)
  end.

Definition run (c : config) (schedule : list nat) : config := foldl step c schedule.

(** The threads of a fresh timeline, each with its list of calls to make. *)
Definition start (programs : list (list call)) : config :=
  mkConfig (mkShared 0 0 0 0) ((λ p, mkThread Idle p []) <$> programs) [].

(** *** The invariant *)

Definition words (sh : shared) : mapping := (rtpWord sh, ntpWord sh, obsWord sh).
Definition current (hist : list mapping) : mapping := List.last hist (0, 0, 0).

(** A reader that saw the even version [before]: while the version is unchanged,
    what it has read so far ([agrees]) is the current mapping. *)
Definition reading (sh : shared) (before : Z) (agrees : Prop) : Prop :=
  before mod 2 = 0 ∧ 0 < before <= version sh ∧ (version sh = before → agrees).

Definition pc_ok (sh : shared) (hist : list mapping) (owner : bool) (p : pc) : Prop :=
  let n := len hist in
  match p with
  | Idle | WLoad _ | RBefore _ => owner = false
  | WCas m v => owner = false ∧ v mod 2 = 0
  | WRtp m v => owner = true ∧ v = 2 * n
  | WNtp m v => owner = true ∧ v = 2 * n ∧ rtpWord sh = m.1.1
  | WObs m v => owner = true ∧ v = 2 * n ∧ (rtpWord sh, ntpWord sh) = m.1
  | WUnlock m v => owner = true ∧ v = 2 * n ∧ words sh = m
  | RRtp _ b => owner = false ∧ reading sh b True
  | RNtp _ b r => owner = false ∧ reading sh b (r = rtpWord sh)
  | RObs _ b r t => owner = false ∧ reading sh b (r = rtpWord sh ∧ t = ntpWord sh)
  | RAfter _ b r t o => owner = false ∧ reading sh b ((r, t, o) = words sh)
  end.

Definition lock_ok (sh : shared) (hist : list mapping) (owner : option nat) : Prop :=
  match owner with
  | None => version sh = 2 * len hist ∧ words sh = current hist
  | Some _ => version sh = 2 * len hist + 1
  end.

Definition inv (c : config) (owner : option nat) : Prop :=
  lock_ok (mem c) (history c) owner ∧
  ∀ i th, threads c !! i = Some th →
    pc_ok (mem c) (history c) (bool_decide (owner = Some i)) (at_ th).

Lemma inv_start programs : inv (start programs) None.
Proof.
  split; [done|]. intros i th. cbn. rewrite list_lookup_fmap.
  destruct (programs !! i); [|done]. by intros [= <-].
Qed.

(** A step of thread [i] that leaves the words alone, or that happens while or
    makes the version differ from every version a reader holds, keeps the other
    threads' conditions. *)
Lemma reading_stable sh sh' b (P Q : Prop) :
  reading sh b P → version sh <= version sh' →
  (version sh' = b → version sh = b ∧ (P → Q)) → reading sh' b Q.
Proof. unfold reading. intros (He & Hb & HP) Hle H. split_and!; [done|lia|lia|]. intros Hv. tauto. Qed.

Lemma pc_ok_stable sh hist sh' hist' p :
  version sh <= version sh' →
  (version sh' = version sh ∧ words sh' = words sh ∨ version sh' mod 2 = 1 ∨ version sh < version sh') →
  pc_ok sh hist false p → pc_ok sh' hist' false p.
Proof.
  intros Hle Hcase. destruct p; cbn; try tauto; try (intros (Hf & _); discriminate);
    intros (Hf & Hr); (split; [done|]); revert Hr;
    intros Hr; (eapply reading_stable; [exact Hr|done|]); intros Hv;
    destruct Hr as (He & Hb & _);
    (destruct Hcase as [(Hv1 & Hw)|[Hodd|Hlt]];
     [unfold words in *; injection Hw as Hw1 Hw2 Hw3; rewrite ?Hw1, ?Hw2, ?Hw3; split; [congruence|done]
      |subst; congruence|lia]).
Qed.

(** Threads other than the stepping one keep their condition. *)
Lemma inv_update c owner i th sh' th' hist' owner' :
  inv c owner → threads c !! i = Some th →
  lock_ok sh' hist' owner' → pc_ok sh' hist' (bool_decide (owner' = Some i)) (at_ th') →
  (∀ j, j ≠ i → owner ≠ Some j ∧ owner' ≠ Some j ∨ owner = Some j ∧ owner' = Some j ∧ sh' = mem c ∧ hist' = history c) →
  version (mem c) <= version sh' →
  (version sh' = version (mem c) ∧ words sh' = words (mem c) ∨ version sh' mod 2 = 1 ∨
   version (mem c) < version sh') →
  inv (mkConfig sh' (<[i := th']> (threads c)) hist') owner'.
Proof.
  intros [Hl Ht] Hi Hl' Hpc Howner Hle Hcase. split; [done|]. intros j thj. cbn [threads mem history].
  destruct (decide (i = j)) as [<-|Hne].
  { rewrite list_lookup_insert_eq by by eapply lookup_lt_Some. by intros [= <-]. }
  rewrite list_lookup_insert_ne by done. intros Hj. specialize (Ht j thj Hj).
  destruct (Howner j) as [[H1 H2]|(H1 & H2 & -> & ->)]; [done| |].
  - rewrite bool_decide_eq_false_2 in * by done. by eapply pc_ok_stable.
  - by rewrite H1, H2 in *.
Qed.

Lemma inv_quiet c owner i th th' :
  inv c owner → threads c !! i = Some th →
  pc_ok (mem c) (history c) (bool_decide (owner = Some i)) (at_ th') →
  inv (mkConfig (mem c) (<[i := th']> (threads c)) (history c)) owner.
Proof.
  intros Hinv Hi Hpc. eapply inv_update; try done; [apply Hinv| |by left].
  intros j Hj. destruct (decide (owner = Some j)); [by right|by left].
Qed.

(** A step of the thread that holds the lock, which keeps or releases it. *)
Lemma inv_owner c i th sh' th' hist' owner' :
  inv c (Some i) → threads c !! i = Some th →
  lock_ok sh' hist' owner' → pc_ok sh' hist' (bool_decide (owner' = Some i)) (at_ th') →
  owner' = Some i ∨ owner' = None → version (mem c) <= version sh' →
  version sh' mod 2 = 1 ∨ version (mem c) < version sh' →
  inv (mkConfig sh' (<[i := th']> (threads c)) hist') owner'.
Proof.
  intros Hinv Hi Hl Hpc Ho Hle Hv. eapply inv_update; try done; [|by right].
  intros j Hj. left. split; [congruence|]. destruct Ho as [->| ->]; congruence.
Qed.

Lemma current_snoc hist m : current (hist ++ [m]) = m.
Proof. apply List.last_last. Qed.

Lemma inv_step c owner i :
  inv c owner → len (history (step c i)) < 2 ^ 63 - 1 → ∃ owner', inv (step c i) owner'.
Proof.
  intros Hinv. unfold step. destruct (threads c !! i) as [th|] eqn:Hi; [|eauto].
  pose proof Hinv as [Hl Ht]. specialize (Ht i th Hi).
  pose proof (len_nonneg (history c)) as Hn0.
  unfold thread_step. destruct (at_ th) eqn:Hpc; cbn [pc_ok] in Ht.
  - intros _. exists owner. destruct (todo th) as [|[m|] ?]; (eapply inv_quiet; [done..|]); cbn;
      [by rewrite Hpc|done|done].
  - intros _. exists owner. destruct (negb _) eqn:Hodd; (eapply inv_quiet; [done..|]); cbn; [done|].
    bool_hyps. rewrite land_1_even in Hodd. split; [by apply bool_decide_eq_false_2|done].
  - destruct Ht as [Hno Hv]. destruct (version (mem c) =? v) eqn:Hcas; cbn [history].
    2: { intros _. exists owner. eapply inv_quiet; [done..|exact Hno]. }
    intros Hlen. bool_hyps. exists (Some i).
    destruct owner as [j|]; [cbn in Hl; exfalso; subst v; revert Hv; ilia|].
    destruct Hl as [Hver Hw]. assert (Hv1 : u64 (v + 1) = 2 * len (history c) + 1) by ilia.
    eapply inv_update; try done; cbn.
    + by rewrite bool_decide_eq_true_2 by done; split; [|lia].
    + intros j Hj. left. split; congruence.
    + lia.
    + right. right. lia.
  - destruct Ht as (Ho%bool_decide_eq_true & Hv). subst owner. intros _. exists (Some i). cbn in Hl.
    eapply inv_owner; try done; cbn; [|by left|left; rewrite Hl; ilia].
    by rewrite bool_decide_eq_true_2.
  - destruct Ht as (Ho%bool_decide_eq_true & Hv & Hr). subst owner. intros _. exists (Some i). cbn in Hl.
    eapply inv_owner; try done; cbn; [|by left|left; rewrite Hl; ilia].
    rewrite bool_decide_eq_true_2 by done. split_and!; try done. by rewrite Hr; destruct m as [[]].
  - destruct Ht as (Ho%bool_decide_eq_true & Hv & Hr). subst owner. intros _. exists (Some i). cbn in Hl.
    eapply inv_owner; try done; cbn; [|by left|left; rewrite Hl; ilia].
    rewrite bool_decide_eq_true_2 by done. split_and!; try done.
    unfold words. cbn. destruct m as [[] ?]; cbn in *. congruence.
  - destruct Ht as (Ho%bool_decide_eq_true & Hv & Hr). subst owner. cbn [history]. intros Hlen.
    exists None. cbn in Hl. rewrite len_app in Hlen. change (len [m]) with 1 in Hlen.
    assert (Hv2 : u64 (v + 2) = 2 * len (history c) + 2) by ilia.
    eapply inv_owner; try done; cbn; [|by right|lia|right; lia].
    rewrite len_app, current_snoc. change (len [m]) with 1. split; [lia|done].
  - intros _. exists owner. destruct attempts; [eapply inv_quiet; [done..|exact Ht]|].
    destruct (_ || _) eqn:E; (eapply inv_quiet; [done..|]); cbn; [done|].
    bool_hyps. rewrite land_1_even in *. split; [by apply bool_decide_eq_false_2|].
    unfold reading. split_and!; try done; destruct owner; cbn in Hl; lia.
  - intros _. exists owner. eapply inv_quiet; [done..|]. cbn. unfold reading in *.
    destruct Ht as (-> & He & Hb & Hr). split_and!; try done; try lia; intuition congruence.
  - intros _. exists owner. eapply inv_quiet; [done..|]. cbn. unfold reading in *.
    destruct Ht as (-> & He & Hb & Hr). split_and!; try done; try lia; intuition congruence.
  - intros _. exists owner. eapply inv_quiet; [done..|]. cbn. unfold reading, words in *.
    destruct Ht as (-> & He & Hb & Hr). split_and!; try done; try lia; intuition congruence.
  - intros _. exists owner. destruct (_ =? _); (eapply inv_quiet; [done..|]); exact (proj1 Ht).
Qed.

Lemma history_step c i : len (history c) <= len (history (step c i)).
Proof.
  unfold step. destruct (threads c !! i); [|lia].
  destruct (thread_step _ _) as [[? ?] [m|]]; cbn; [rewrite len_app; pose proof (len_nonneg [m])|]; lia.
Qed.

Lemma inv_run programs schedule :
  len (history (run (start programs) schedule)) < 2 ^ 63 - 1 →
  ∃ owner, inv (run (start programs) schedule) owner.
Proof.
  induction schedule as [|i schedule IH] using rev_ind.
  { intros _. exists None. apply inv_start. }
  unfold run in *. rewrite foldl_snoc. intros Hlen.
  destruct IH as [owner Hinv]; [|by eapply inv_step].
  eapply Z.le_lt_trans; [apply history_step|done].
Qed.

(** C20: no torn or stale read under any interleaving of any number of writers
    and readers: whenever a [captureMapping] returns a mapping, the three words
    it returns were stored by one [ObserveCapture], the last one completed at
    that moment (for fewer than 2^63 - 1 observations, so that the version
    counter has not wrapped). *)
Theorem capture_read_atomic programs schedule i th sh' th' done_ m :
  let c := run (start programs) schedule in
  len (history c) < 2 ^ 63 - 1 →
  threads c !! i = Some th → thread_step (mem c) th = (sh', th', done_) →
  results th' = results th ++ [Some m] →
  ∃ earlier, history c = earlier ++ [m].
Proof.
  intros c Hlen Hi Hs Hr. destruct (inv_run programs schedule Hlen) as [owner [Hl Ht]].
  fold c in Hl, Ht. specialize (Ht i th Hi). unfold thread_step in Hs.
  assert (Hneq : ∀ (l : list (option mapping)) x, l = l ++ [x] → False).
  { intros l x Hlx. apply (f_equal length) in Hlx. rewrite length_app in Hlx. cbn in Hlx. lia. }
  destruct (at_ th) as [| | | | | | |[|n]|n b|n b r|n b r t|n b r t o] eqn:Hpc;
    repeat case_if; simplify_eq/=; try (by destruct (Hneq _ _ Hr)).
  - destruct (todo th) as [|[]]; simplify_eq/=; by destruct (Hneq _ _ Hr).
  - bool_hyps.
    destruct Ht as [_ (Heven & Hb & Hw)]. destruct owner as [j|]; cbn in Hl; [exfalso; ilia|].
    destruct Hl as [Hv Hcur]. rewrite Hw by done. rewrite Hcur.
    destruct (history c) as [|m' l _] using rev_ind; [change (len []) with 0 in Hv; lia|].
    exists l. by rewrite current_snoc.
Qed.

(** Two writers and a reader that was overtaken and succeeds on its second try. *)
Definition sample_programs : list (list call) :=
  [[ObserveCall (1, 10, 100); ObserveCall (3, 30, 300)]; [ObserveCall (2, 20, 200)]; [MappingCall]].
Definition sample_schedule : list nat :=
  replicate 7 0%nat ++ replicate 3 2%nat ++ replicate 7 1%nat ++ replicate 7 2%nat.

Lemma capture_read_atomic_witness :
  ∃ earlier, history (run (start sample_programs) sample_schedule) = earlier ++ [(2, 20, 200)].
Proof.
  eapply (capture_read_atomic sample_programs sample_schedule 2
    (mkThread (RAfter 2 4 2 20 200) [] []) (mkShared 4 2 20 200) (mkThread Idle [] [Some (2, 20, 200)]) None);
    vm_compute; reflexivity.
Defined.

(** *** The sequential definitions of [Timeline] are the uncontended runs *)

Fixpoint solo (n : nat) (sh : shared) (th : thread) : shared * thread :=
  match n with
  | O => (sh, th)
  | S n' => let '(sh', th', _) := thread_step sh th in solo n' sh' th'
  end.

Definition shared_of (t : Timeline) : shared :=
  mkShared (captureVersion t) (captureRTPTime t) (captureNTPTime t) (captureObservedNs t).


End Seqlock.

(** ** The registry and the RTCP interceptor

    Timelines are shared: the registry maps hold pointers, and a caller keeps
    the pointer it got after the entry is removed.  A pointer is an index into
    the list of all timelines allocated so far. *)
Module Registry.
Import Timeline.

Definition maxTimelinesPerDirection : nat := 8.

Record Registry := mkRegistry {
  heap : list Timeline;
  remote : gmap Z nat;
  local : gmap Z nat }.

Inductive direction := RemoteDir | LocalDir.

Definition NewRegistry : Registry := mkRegistry [] ∅ ∅.

Definition entries (d : direction) (r : Registry) : gmap Z nat :=
  match d with RemoteDir => remote r | LocalDir => local r end.

Definition set_entries (d : direction) (m : gmap Z nat) (r : Registry) : Registry :=
  match d with
  | RemoteDir => mkRegistry (heap r) m (local r)
  | LocalDir => mkRegistry (heap r) (remote r) m
  end.

(** [Registry.timeline]; [None] is the nil pointer of a full direction. *)
Definition timeline (d : direction) (ssrc : Z) (r : Registry) : Registry * option nat :=
  match entries d r !! ssrc with
  | Some p => (r, Some p)
  | None =>
    if (maxTimelinesPerDirection <=? size (entries d r))%nat then (r, None) else
    let p := length (heap r) in
    (set_entries d (<[ssrc := p]> (entries d r))
       (mkRegistry (heap r ++ [NewTimeline ssrc]) (remote r) (local r)), Some p)
  end.

Definition remove (d : direction) (ssrc : Z) (r : Registry) : Registry :=
  set_entries d (delete ssrc (entries d r)) r.

Definition update (p : nat) (f : Timeline → Timeline) (r : Registry) : Registry :=
  mkRegistry (alter f p (heap r)) (remote r) (local r).

(** An RTCP packet: Sender Reports are the only kind that is inspected. *)
Inductive rtcp_packet := SR (report : SenderReport) | OtherPacket (kind : Z).

(** The loop body of [BindRTCPReader]. *)
Definition observe_incoming (now : Z) (r : Registry) (packet : rtcp_packet) : Registry :=
  match packet with
  | OtherPacket _ => r
  | SR report =>
    let '(r, p) := timeline RemoteDir (SSRC report) r in
    match p with
    | None => r
    | Some p => update p (λ t, Observe t (Some report) now) r
    end
  end.

(** [BindRTCPReader]: the underlying [Read] and the packet decoder of Pion
    ([GetRTCPPackets]) give [read] and [packets]; their errors are returned
    before anything is observed. *)
Definition RTCPReader {E} (r : Registry) (read : result E Z) (packets : result E (list rtcp_packet))
    (now : Z) : Registry * result E Z :=
  match read with
  | Err e => (r, Err e)
  | Ok n =>
    match packets with
    | Err e => (r, Err e)
    | Ok packets => (foldl (observe_incoming now) r packets, Ok n)
    end
  end.

(** The loop body of [BindRTCPWriter]: the report is rewritten in place. *)
Definition observe_outgoing (now : Z) (r : Registry) (packet : rtcp_packet) : Registry * rtcp_packet :=
  match packet with
  | OtherPacket _ => (r, packet)
  | SR report =>
    let '(r, p) := timeline LocalDir (SSRC report) r in
    match p with
    | None => (r, packet)
    | Some p =>
      match heap r !! p with
      | None => (r, packet)
      | Some t =>
        let '(sr, normalized) := NormalizeSenderReport t (Some report) now 48000 in
        (update p (λ t, observe t sr now normalized) r,
         match sr with Some report' => SR report' | None => packet end)
      end
    end
  end.

Fixpoint RTCPWriter (now : Z) (r : Registry) (packets : list rtcp_packet)
  : Registry * list rtcp_packet :=
  match packets with
  | [] => (r, [])
  | packet :: rest =>
    let '(r1, packet') := observe_outgoing now r packet in
    let '(r2, rest') := RTCPWriter now r1 rest in
    (r2, packet' :: rest')
  end.

(** The interceptor's operations on the registry, as steps. *)
Inductive op :=
| BindStream (d : direction) (ssrc : Z)
| UnbindStream (d : direction) (ssrc : Z)
| ReadRTCP (packets : list rtcp_packet) (now : Z)
| WriteRTCP (packets : list rtcp_packet) (now : Z)
| Capture (p : nat) (rtp captureTime observedAt : Z).
    (* [ObserveCapture] by the holder of a pointer *)

Definition apply (r : Registry) (o : op) : Registry :=
  match o with
  | BindStream d ssrc => (timeline d ssrc r).1
  | UnbindStream d ssrc => remove d ssrc r
  | ReadRTCP packets now => (RTCPReader (E := unit) r (Ok 0) (Ok packets) now).1
  | WriteRTCP packets now => (RTCPWriter now r packets).1
  | Capture p rtp c o => update p (λ t, default t (ObserveCapture t rtp c o)) r
  end.

(** *** Invariant *)

Definition dir_ok (h : list Timeline) (m : gmap Z nat) : Prop :=
  (size m <= maxTimelinesPerDirection)%nat ∧
  ∀ s p, m !! s = Some p → ∃ t, h !! p = Some t ∧ ssrc t = s.

Definition wf (r : Registry) : Prop :=
  dir_ok (heap r) (remote r) ∧ dir_ok (heap r) (local r) ∧
  ∀ s s' p, remote r !! s = Some p → local r !! s' = Some p → False.

Lemma observe_ssrc t sr now n : ssrc (observe t sr now n) = ssrc t.
Proof. destruct sr as [sr|]; [|done]. cbn. by destruct (negb _). Qed.

Lemma ObserveCapture_ssrc t rtp c o : ssrc (default t (ObserveCapture t rtp c o)) = ssrc t.
Proof. unfold ObserveCapture. by destruct (negb _). Qed.

Lemma wf_update p f r : (∀ t, ssrc (f t) = ssrc t) → wf r → wf (update p f r).
Proof.
  intros Hf (Hr & Hl & Hd). assert (Hgo : ∀ m, dir_ok (heap r) m → dir_ok (alter f p (heap r)) m).
  { intros m [Hs Hm]. split; [done|]. intros s q Hq. destruct (Hm s q Hq) as (t & Ht & Hts).
    destruct (decide (p = q)) as [<-|Hne].
    - exists (f t). rewrite list_lookup_alter_eq, Ht. split; [done|]. by rewrite Hf.
    - exists t. by rewrite list_lookup_alter_ne by done. }
  split_and!; [by apply Hgo|by apply Hgo|done].
Qed.

Lemma dir_ok_grow h t m : dir_ok h m → dir_ok (h ++ [t]) m.
Proof.
  intros [Hs Hm]. split; [done|]. intros s p Hp. destruct (Hm s p Hp) as (u & Hu & Hus).
  exists u. split; [by apply lookup_app_l_Some|done].
Qed.

Lemma dir_ok_insert h ssrc_ m :
  dir_ok h m → (size m < maxTimelinesPerDirection)%nat → m !! ssrc_ = None →
  dir_ok (h ++ [NewTimeline ssrc_]) (<[ssrc_ := length h]> m).
Proof.
  intros [Hs Hm] Hsz Hnone. split; [rewrite map_size_insert_None by done; lia|].
  intros s p. destruct (decide (ssrc_ = s)) as [<-|Hne].
  - rewrite lookup_insert_eq. intros [= <-]. exists (NewTimeline ssrc_).
    split; [by apply list_lookup_middle|done].
  - rewrite lookup_insert_ne by done. by apply (dir_ok_grow h (NewTimeline ssrc_) m).
Qed.

Lemma dir_ok_lt h m s p : dir_ok h m → m !! s = Some p → (p < length h)%nat.
Proof. intros [_ Hm] Hp. destruct (Hm s p Hp) as (t & Ht & _). by eapply lookup_lt_Some. Qed.

Lemma wf_timeline d s r : wf r → wf (timeline d s r).1.
Proof.
  intros Hwf. unfold timeline. destruct (entries d r !! s) eqn:Hs; [done|].
  destruct (_ <=? _)%nat eqn:Hsz; [done|]. apply Nat.leb_gt in Hsz.
  destruct Hwf as (Hr & Hl & Hd). destruct d; cbn in *.
  - split_and!; cbn; [by apply dir_ok_insert|by apply dir_ok_grow|].
    intros s1 s2 p. destruct (decide (s = s1)) as [<-|Hne].
    + rewrite lookup_insert_eq. intros [= <-] Hp. apply (dir_ok_lt _ _ _ _ Hl) in Hp. lia.
    + rewrite lookup_insert_ne by done. apply Hd.
  - split_and!; cbn; [by apply dir_ok_grow|by apply dir_ok_insert|].
    intros s1 s2 p Hp. destruct (decide (s = s2)) as [<-|Hne].
    + rewrite lookup_insert_eq. intros [= <-]. apply (dir_ok_lt _ _ _ _ Hr) in Hp. lia.
    + rewrite lookup_insert_ne by done. by apply Hd with s1.
Qed.

Lemma dir_ok_delete h m s : dir_ok h m → dir_ok h (delete s m).
Proof.
  intros [Hs Hm]. split; [pose proof (map_subseteq_size _ _ (delete_subseteq m s)); lia|].
  intros s' p Hp. apply Hm. by apply lookup_delete_Some in Hp as [_ Hp].
Qed.

Lemma wf_remove d s r : wf r → wf (remove d s r).
Proof.
  intros (Hr & Hl & Hd). destruct d; split_and!; cbn; auto using dir_ok_delete;
    intros s1 s2 p; rewrite lookup_delete_Some; [intros [_ ?] ?|intros ? [_ ?]]; by eapply Hd.
Qed.

Lemma wf_incoming now r packet : wf r → wf (observe_incoming now r packet).
Proof.
  intros Hwf. destruct packet as [report|]; [|done]. unfold observe_incoming.
  pose proof (wf_timeline RemoteDir (SSRC report) r Hwf).
  destruct (timeline RemoteDir (SSRC report) r) as [r' [p|]]; [|done].
  apply wf_update; [|done]. intros t. apply (observe_ssrc t (Some report) now false).
Qed.

Lemma wf_outgoing now r packet : wf r → wf (observe_outgoing now r packet).1.
Proof.
  intros Hwf. destruct packet as [report|]; [|done]. unfold observe_outgoing.
  pose proof (wf_timeline LocalDir (SSRC report) r Hwf).
  destruct (timeline LocalDir (SSRC report) r) as [r' [p|]]; [|done]. cbn [fst] in *.
  destruct (heap r' !! p) as [t|]; [|done]. destruct (NormalizeSenderReport _ _ _ _) as [sr n].
  apply wf_update; [|done]. intros u. apply observe_ssrc.
Qed.

Lemma wf_writer now packets r : wf r → wf (RTCPWriter now r packets).1.
Proof.
  revert r. induction packets as [|packet rest IH]; intros r Hwf; [done|]. cbn.
  pose proof (wf_outgoing now r packet Hwf). destruct (observe_outgoing now r packet) as [r1 p'].
  specialize (IH r1 ltac:(done)). by destruct (RTCPWriter now r1 rest).
Qed.

Lemma wf_apply r o : wf r → wf (apply r o).
Proof.
  intros Hwf. destruct o; cbn.
  - by apply wf_timeline.
  - by apply wf_remove.
  - revert r Hwf. induction packets as [|packet rest IH]; intros r Hwf; [done|].
    cbn. apply IH. by apply wf_incoming.
  - by apply wf_writer.
  - apply wf_update; [|done]. intros t. apply ObserveCapture_ssrc.
Qed.

(** Whatever streams are bound and unbound and whatever RTCP arrives, a
    registry keeps at most eight timelines per direction, every entry points to
    the timeline of its own SSRC, and the publisher and subscriber directions
    never share a timeline. *)
Theorem registry_bounded ops : wf (foldl apply NewRegistry ops).
Proof.
  assert (Hgo : ∀ r, wf r → wf (foldl apply r ops)).
  { induction ops as [|o ops IH]; intros r Hwf; [done|]. cbn. by apply IH, wf_apply. }
  apply Hgo. split_and!; cbn; [split; [rewrite map_size_empty; unfold maxTimelinesPerDirection; lia|]; intros ?? H..|intros ??? H];
    by rewrite lookup_empty in H.
Qed.

(** A report that is at most rewritten in its NTP time. *)
Definition same_but_ntp (p q : rtcp_packet) : Prop :=
  match p, q with
  | SR a, SR b => b = set_NTPTime (NTPTime b) a
  | OtherPacket k, OtherPacket k' => k = k'
  | _, _ => False
  end.

Lemma normalize_same t sr now rate :
  ∃ sr', (NormalizeSenderReport t (Some sr) now rate).1 = Some sr' ∧
         sr' = set_NTPTime (NTPTime sr') sr.
Proof.
  unfold NormalizeSenderReport. destruct (_ || _); [exists sr; by destruct sr|].
  destruct (captureMapping t) as [[[r c] o]|]; [|exists sr; by destruct sr].
  destruct (_ || _); [exists sr; by destruct sr|]. eexists. by split.
Qed.

Lemma outgoing_same now r p : same_but_ntp p (observe_outgoing now r p).2.
Proof.
  destruct p as [report|k]; [|done]. unfold observe_outgoing.
  destruct (timeline LocalDir (SSRC report) r) as [r' [q|]]; [|by destruct report].
  destruct (heap r' !! q) as [t|]; [|by destruct report].
  destruct (normalize_same t report now 48000) as (sr' & H1 & H2).
  destruct (NormalizeSenderReport _ _ _ _) as [sr n]. cbn in *. by subst sr.
Qed.

(** The outgoing interceptor forwards every RTCP packet, in order, and
    changes at most the NTP time of Sender Reports. *)
Theorem rtcp_writer_transparent now r packets :
  Forall2 same_but_ntp packets (RTCPWriter now r packets).2.
Proof.
  revert r. induction packets as [|p rest IH]; intros r; [constructor|]. cbn.
  pose proof (outgoing_same now r p) as Hp. destruct (observe_outgoing now r p) as [r1 p'].
  specialize (IH r1). destruct (RTCPWriter now r1 rest) as [r2 rest']. by constructor.
Qed.

End Registry.
