(* ===== verification/SessionTypes.v ===== *)
(** * SessionTypes: data shared by the session and the downlink

    The types of [internal/session/subscription.go] that cross the boundary
    between a bus and its subscriptions. *)

From S2P Require Export GoTime Rtp.

Record SourceIdentity := mkSourceIdentity {
  srcBusID : string;
  srcGeneration : Z;   (* uint64 *)
  srcSSRC : Z          (* uint32 *) }.

Definition no_source : SourceIdentity := mkSourceIdentity "" 0 0.

#[export] Instance SourceIdentity_eq_dec : EqDecision SourceIdentity.
Proof. solve_decision. Defined.

(** [BusSubscription], the delivery contract a session relies on.  The packet is
    borrowed: an implementation that writes into it returns the changed packet. *)
Class BusSubscription (S : Type) := {
  WriteRTPWithSource : Rtp.Packet → Z → bool → SourceIdentity → S → S * Rtp.Packet * bool;
    (* the new state, the packet as it is left, and whether the write failed *)
  RequiresPacketCopy : S → bool;
  StopForwarding : S → S }.

(** What the contract promises: a subscription that does not ask for a private
    copy leaves the borrowed packet as it was. *)
Class SubscriptionLaws (S : Type) `{BusSubscription S} : Prop := {
  write_borrows : ∀ s pkt captureTime known source,
    RequiresPacketCopy s = false →
    (WriteRTPWithSource pkt captureTime known source s).1.2 = pkt }.
