(* ===== verification/Forwarder.v ===== *)
(** * Forwarder: sequence and timestamp translation of one subscriber

    Translates [internal/media/downlink/forwarder.go]: the extended-sequence
    unwrapper, the reconnect translator and the contiguous sequence forwarder. *)

From S2P Require Export SessionTypes.

Module Unwrapper.

Record sequenceUnwrapper := mkUnwrapper {
  initialized : bool;
  highestExt : Z       (* int64 *) }.

Definition fresh : sequenceUnwrapper := mkUnwrapper false 0.

Definition unwrap (u : sequenceUnwrapper) (seq : Z) : sequenceUnwrapper * Z :=
  if negb (initialized u) then (mkUnwrapper true seq, seq) else
  let ext := i64 (highestExt u + i16 (u16 (seq - u16 (highestExt u)))) in
  (if ext >? highestExt u then mkUnwrapper true ext else u, ext).

Fixpoint unwrap_all (u : sequenceUnwrapper) (seqs : list Z) : sequenceUnwrapper * list Z :=
  match seqs with
  | [] => (u, [])
  | seq :: seqs' =>
    let '(u1, ext) := unwrap u seq in
    let '(u2, exts) := unwrap_all u1 seqs' in
    (u2, ext :: exts)
  end.

(** A sender's true packet numbers: each within half the 16-bit space of the
    highest number before it. *)
Fixpoint near_highest (highest : Z) (ns : list Z) : Prop :=
  match ns with
  | [] => True
  | n :: ns' => - 32768 <= n - highest < 32768 ∧ near_highest (Z.max highest n) ns'
  end.

Lemma unwrap_started h n :
  0 <= h < 2 ^ 62 → - 32768 <= n - h < 32768 →
  unwrap (mkUnwrapper true h) (u16 n) = (mkUnwrapper true (Z.max h n), n).
Proof.
  intros Hh Hn. unfold unwrap. cbn [initialized highestExt negb].
  assert (i64 (h + i16 (u16 (u16 n - u16 h))) = n) as -> by (unfold i16; ilia).
  rewrite Z.gtb_ltb. destruct (Z.ltb_spec h n); do 2 f_equal; lia.
Qed.

Lemma unwrap_all_started h ns :
  0 <= h → Forall (λ n, n < 2 ^ 62) (h :: ns) → near_highest h ns →
  (unwrap_all (mkUnwrapper true h) (u16 <$> ns)).2 = ns.
Proof.
  revert h. induction ns as [|n ns IH]; intros h Hh Hb Hnear; [done|].
  apply Forall_cons in Hb as [Hbh Hb]. apply Forall_cons in Hb as [Hbn Hb].
  destruct Hnear as [Hn Hnear]. cbn [fmap list_fmap unwrap_all]. rewrite unwrap_started by lia.
  specialize (IH (Z.max h n) ltac:(lia) ltac:(constructor; [lia|done]) Hnear).
  destruct (unwrap_all _ _). cbn in *. by rewrite IH.
Qed.

(** The unwrapper recovers the sender's packet numbers from their low 16
    bits: for any number of packets, reordered or duplicated or lost, as long as
    each lies within 2^15 of the highest number seen, across any number of
    16-bit wrap-arounds. *)
Theorem unwrap_recovers n ns :
  is_u16 n → Forall (λ m, m < 2 ^ 62) ns → near_highest n ns →
  (unwrap_all fresh (u16 <$> n :: ns)).2 = n :: ns.
Proof.
  intros Hn Hb Hnear. cbn [fmap list_fmap unwrap_all unwrap fresh initialized negb].
  rewrite u16_small by done.
  pose proof (unwrap_all_started n ns ltac:(apply Hn) ltac:(constructor; [ilia|done]) Hnear) as H.
  unfold fmap in *. destruct (unwrap_all _ _). cbn in *. by rewrite H.
Qed.

Lemma unwrap_recovers_witness :
  (unwrap_all fresh [65534; 1; 65535; 0; 2]).2 = [65534; 65537; 65535; 65536; 65538].
Proof.
  apply (unwrap_recovers 65534 [65537; 65535; 65536; 65538]).
  - split; vm_compute; congruence.
  - repeat constructor.
  - repeat split; vm_compute; congruence.
Defined.

End Unwrapper.

Module Translator.

Definition defaultAudioFrameSamples : Z := 960.

Record rtpForwardTranslator := mkTranslator {
  initialized : bool;
  source : SourceIdentity;
  sequenceOffset : Z;        (* uint16 *)
  timestampOffset : Z;       (* uint32 *)
  lastInputSequence : Z;     (* uint16 *)
  lastInputTimestamp : Z;    (* uint32 *)
  lastOutputSequence : Z;    (* uint16 *)
  lastOutputTimestamp : Z;   (* uint32 *)
  nominalSamples : Z;        (* uint32 *)
  lastArrival : Z }.

Definition fresh : rtpForwardTranslator :=
  mkTranslator false no_source 0 0 0 0 0 0 0 zero_time.

(** The media time a reconnect skips: one nominal frame, or the wall-clock gap
    rounded to whole frames when that is longer. *)
Definition reconnect_step (t : rtpForwardTranslator) (arrival : Z) : Z :=
  let timestampStep := if nominalSamples t =? 0 then defaultAudioFrameSamples else nominalSamples t in
  if negb (IsZero arrival) && negb (IsZero (lastArrival t)) then
    let elapsed := Sub arrival (lastArrival t) in
    if elapsed >? 0 then
      let elapsedSamples := u64 (u64 elapsed * 48000) / u64 Second in
      let quantizedSamples := u64 (u64 (elapsedSamples + timestampStep / 2) / timestampStep * timestampStep) in
      if (quantizedSamples >? timestampStep) && (quantizedSamples <=? 4294967295)
      then u32 quantizedSamples else timestampStep
    else timestampStep
  else timestampStep.

(** The frame size learned from two packets of one attachment. *)
Definition learn_nominal (t : rtpForwardTranslator) (inputTimestamp sequenceDelta : Z) : Z :=
  let timestampDelta := i32 (u32 (inputTimestamp - lastInputTimestamp t)) in
  if timestampDelta >? 0 then
    let candidate := u32 timestampDelta / u32 sequenceDelta in
    if (candidate >? 0) && (candidate <=? 4800) then candidate else nominalSamples t
  else nominalSamples t.

Definition translateAt (t : rtpForwardTranslator) (pkt : Rtp.Packet) (src : SourceIdentity) (arrival : Z)
  : rtpForwardTranslator * Rtp.Packet * bool :=
  let seq := Rtp.SequenceNumber pkt in
  let ts := Rtp.Timestamp pkt in
  if negb (initialized t) then
    (mkTranslator true src (sequenceOffset t) (timestampOffset t) seq ts seq ts
       defaultAudioFrameSamples arrival, pkt, false)
  else if negb (bool_decide (src = source t)) then
    let sequenceOffset' := u16 (u16 (lastOutputSequence t + 1) - seq) in
    let timestampStep := reconnect_step t arrival in
    let timestampOffset' := u32 (u32 (lastOutputTimestamp t + timestampStep) - ts) in
    let outSeq := u16 (seq + sequenceOffset') in
    let outTs := u32 (ts + timestampOffset') in
    (mkTranslator true src sequenceOffset' timestampOffset'
       (u16 (outSeq - sequenceOffset')) (u32 (outTs - timestampOffset')) outSeq outTs
       (nominalSamples t) arrival,
     Rtp.set_sequence_timestamp outSeq outTs pkt, true)
  else
    let outSeq := u16 (seq + sequenceOffset t) in
    let outTs := u32 (ts + timestampOffset t) in
    let pkt' := Rtp.set_sequence_timestamp outSeq outTs pkt in
    let sequenceDelta := i16 (u16 (seq - lastInputSequence t)) in
    if sequenceDelta >? 0 then
      (mkTranslator true (source t) (sequenceOffset t) (timestampOffset t) seq ts outSeq outTs
         (learn_nominal t ts sequenceDelta) arrival, pkt', false)
    else (t, pkt', false).

Definition translate (t : rtpForwardTranslator) (pkt : Rtp.Packet) (src : SourceIdentity)
  : rtpForwardTranslator * Rtp.Packet * bool := translateAt t pkt src zero_time.

Fixpoint translate_all (t : rtpForwardTranslator) (l : list (Rtp.Packet * SourceIdentity * Z))
  : rtpForwardTranslator * list Rtp.Packet :=
  match l with
  | [] => (t, [])
  | (pkt, src, arrival) :: l' =>
    let '(t1, pkt', _) := translateAt t pkt src arrival in
    let '(t2, out) := translate_all t1 l' in
    (t2, pkt' :: out)
  end.

(** *** Invariant *)

Definition wf (t : rtpForwardTranslator) : Prop :=
  is_u16 (sequenceOffset t) ∧ is_u32 (timestampOffset t) ∧
  is_u16 (lastInputSequence t) ∧ is_u32 (lastInputTimestamp t) ∧
  is_u16 (lastOutputSequence t) ∧ is_u32 (lastOutputTimestamp t) ∧
  (initialized t = false → sequenceOffset t = 0 ∧ timestampOffset t = 0) ∧
  (initialized t = true →
    lastOutputSequence t = u16 (lastInputSequence t + sequenceOffset t) ∧
    lastOutputTimestamp t = u32 (lastInputTimestamp t + timestampOffset t) ∧
    0 < nominalSamples t <= 4800).

Lemma wf_fresh : wf fresh.
Proof. split_and!; cbn; try done; ilia. Qed.

Lemma learn_nominal_range t ts d : 0 < nominalSamples t <= 4800 → 0 < learn_nominal t ts d <= 4800.
Proof. unfold learn_nominal. intros H. repeat case_if; bool_hyps; lia. Qed.

Lemma wf_translateAt t pkt src arrival :
  wf t → Rtp.typed pkt → wf (translateAt t pkt src arrival).1.1.
Proof.
  intros (H1 & H2 & H3 & H4 & H5 & H6 & H0 & H7) (Hs & Ht & _). unfold translateAt.
  destruct (initialized t) eqn:Hi; cbn [negb].
  2: { destruct (H0 eq_refl) as [-> ->]. split_and!; cbn; try done; try ilia.
       intros _. rewrite !Z.add_0_r, u16_small, u32_small by done. unfold defaultAudioFrameSamples.
       split_and!; lia. }
  specialize (H7 eq_refl) as (H7 & H8 & H9).
  case_bool_decide as Hsrc; cbn [negb].
  - destruct (_ >? 0) eqn:Hd; cbn [fst].
    + split_and!; cbn; auto with relay; try done. intros _.
      pose proof (learn_nominal_range t (Rtp.Timestamp pkt) (i16 (u16 (Rtp.SequenceNumber pkt - lastInputSequence t))) H9).
      split_and!; try done; lia.
    + split_and!; try done. by rewrite Hi.
  - split_and!; cbn; auto with relay; try done. intros _. split_and!; try ilia.
Qed.

(** *** Reconnects and gaps *)

(** Output of an attachment whose offsets are fixed. *)
Definition shift (seqOff tsOff : Z) (pkt : Rtp.Packet) : Rtp.Packet :=
  Rtp.set_sequence_timestamp (u16 (Rtp.SequenceNumber pkt + seqOff)) (u32 (Rtp.Timestamp pkt + tsOff)) pkt.

Lemma translateAt_same t pkt arrival :
  initialized t = true →
  (translateAt t pkt (source t) arrival).1.2 = shift (sequenceOffset t) (timestampOffset t) pkt ∧
  source (translateAt t pkt (source t) arrival).1.1 = source t ∧
  initialized (translateAt t pkt (source t) arrival).1.1 = true ∧
  sequenceOffset (translateAt t pkt (source t) arrival).1.1 = sequenceOffset t ∧
  timestampOffset (translateAt t pkt (source t) arrival).1.1 = timestampOffset t.
Proof.
  intros Hi. unfold translateAt. rewrite Hi, bool_decide_eq_true_2 by done. cbn [negb].
  by destruct (_ >? 0).
Qed.

Lemma translate_all_same t l :
  initialized t = true → Forall (λ e, e.1.2 = source t) l →
  (translate_all t l).2 = shift (sequenceOffset t) (timestampOffset t) <$> l.*1.*1.
Proof.
  revert t. induction l as [|[[pkt src] arrival] l IH]; intros t Hi Hl; [done|].
  apply Forall_cons in Hl as [Hsrc Hl]. cbn in Hsrc. subst src. cbn [translate_all].
  destruct (translateAt_same t pkt arrival Hi) as (Hp & Hs & Hi' & Ho & Ht).
  destruct (translateAt t pkt (source t) arrival) as [[t1 pkt'] r]. cbn in Hp, Hs, Hi', Ho, Ht.
  specialize (IH t1 Hi'). rewrite Hs, Ho, Ht in IH. specialize (IH Hl).
  destruct (translate_all t1 l) as [t2 out]. cbn in *. by rewrite Hp, IH.
Qed.

(** A reconnecting publisher continues the subscriber's stream: the first
    packet of the new attachment is sent with the sequence number after the
    last one sent and a timestamp one step later, and every packet of the
    attachment is moved by the same two offsets, so the gaps and the reordering
    within the attachment reach the subscriber unchanged. *)
Theorem reconnect_continues t p0 src arrival l :
  wf t → initialized t = true → src ≠ source t → Rtp.typed p0 →
  Forall (λ e, e.1.2 = src) l →
  ∃ seqOff tsOff,
    (translate_all t ((p0, src, arrival) :: l)).2 = shift seqOff tsOff <$> (p0 :: l.*1.*1) ∧
    u16 (Rtp.SequenceNumber p0 + seqOff) = u16 (lastOutputSequence t + 1) ∧
    u32 (Rtp.Timestamp p0 + tsOff) = u32 (lastOutputTimestamp t + reconnect_step t arrival).
Proof.
  intros Hwf Hi Hne (Hs & Ht & _) Hl. cbn [translate_all]. unfold translateAt at 1.
  rewrite Hi, bool_decide_eq_false_2 by done. cbn [negb].
  match goal with |- context [translate_all ?t1 l] => pose proof (translate_all_same t1 l eq_refl Hl) as Hrest;
    destruct (translate_all t1 l) as [t2 out] end.
  cbn in Hrest |- *. subst out. eexists _, _. split; [reflexivity|]. split; ilia.
Qed.

Definition sample_source (generation : Z) : SourceIdentity := mkSourceIdentity "audio" generation 7.

Definition sample_translator : rtpForwardTranslator :=
  (translateAt fresh (Rtp.media 65535 4294966336 []) (sample_source 1) (5 * Second)).1.1.

Lemma reconnect_continues_witness :
  ∃ seqOff tsOff,
    (translate_all sample_translator
      [(Rtp.media 500 77 [], sample_source 2, 6 * Second);
       (Rtp.media 502 1997 [], sample_source 2, 7 * Second)]).2
    = shift seqOff tsOff <$> [Rtp.media 500 77 []; Rtp.media 502 1997 []] ∧
    u16 (500 + seqOff) = 0 ∧ u32 (77 + tsOff) = u32 (4294966336 + 48000).
Proof.
  apply (reconnect_continues sample_translator (Rtp.media 500 77 []) (sample_source 2) (6 * Second)
    [(Rtp.media 502 1997 [], sample_source 2, 7 * Second)]).
  - apply wf_translateAt; [apply wf_fresh|]. repeat split; vm_compute; congruence.
  - reflexivity.
  - discriminate.
  - repeat split; vm_compute; congruence.
  - repeat constructor.
Defined.

(** For a gap of less than 106 hours between the packets around a
    reconnect, the media time skipped is a whole number of learned frames, at
    least one, and when it is more than one it is the wall-clock gap at 48 kHz
    to within half a frame. *)
Theorem reconnect_step_tracks_clock t arrival :
  0 < nominalSamples t <= 4800 →
  arrival - lastArrival t < 106 * Hour →
  let step := reconnect_step t arrival in
  let gap := (arrival - lastArrival t) * 48000 / Second in
  step mod nominalSamples t = 0 ∧ nominalSamples t <= step < 2 ^ 32 ∧
  (step ≠ nominalSamples t → 2 * Z.abs (step - gap) <= nominalSamples t).
Proof.
  intros Hn Hgap step gap. subst step gap. unfold reconnect_step.
  rewrite (proj2 (Z.eqb_neq _ _)) by lia. set (n := nominalSamples t) in *. clearbody n.
  set (d := arrival - lastArrival t) in *.
  assert (Hsame : n mod n = 0 ∧ n <= n < 2 ^ 32) by (rewrite Z_mod_same_full; lia).
  destruct (_ && _); [|split_and!; [apply Hsame..|done]].
  destruct (Sub arrival (lastArrival t) >? 0) eqn:Hpos; [|split_and!; [apply Hsame..|done]].
  rewrite Z.gtb_ltb in Hpos. apply Z.ltb_lt in Hpos.
  apply (proj1 (Sub_pos_iff arrival (lastArrival t))) in Hpos.
  unfold Hour, Minute, Second in Hgap.
  assert (Hd : 0 < d < 381600000000000) by (unfold d in *; lia).
  rewrite Sub_exact by (fold d; ilia). fold d. clearbody d. clear Hgap Hpos.
  rewrite (u64_small d), (u64_small (d * 48000)), (u64_small Second) by (unfold Second; ilia).
  assert (Hg : 0 <= d * 48000 / Second < 20000000000) by (unfold Second; ilia).
  set (g := d * 48000 / Second) in *. clearbody g. clear Hd d.
  assert (Hh : 0 <= n / 2 <= 2400) by ilia.
  rewrite (u64_small (g + n / 2)) by ilia.
  pose proof (Z.div_mod (g + n / 2) n ltac:(lia)) as Hdm.
  pose proof (Z.mod_pos_bound (g + n / 2) n ltac:(lia)) as Hmb.
  pose proof (Z.div_pos (g + n / 2) n ltac:(lia) ltac:(lia)) as Hq0.
  set (q := (g + n / 2) / n) in *. set (r := (g + n / 2) mod n) in *. clearbody q r.
  pose proof (Z.mul_nonneg_nonneg q n Hq0 ltac:(lia)) as Hqn.
  rewrite (u64_small (q * n)) by ilia.
  destruct (_ && _) eqn:Hq; [|split_and!; [apply Hsame..|done]]. bool_hyps.
  rewrite u32_small by ilia. rewrite Z_mod_mult.
  split_and!; try lia. intros _. assert (n - 1 <= 2 * (n / 2) <= n) by ilia. lia.
Qed.

Lemma reconnect_step_tracks_clock_witness :
  let step := reconnect_step sample_translator (6 * Second + 7 * Millisecond) in
  step mod 960 = 0 ∧ 960 <= step < 2 ^ 32 ∧
  (step ≠ 960 → 2 * Z.abs (step - 48336) <= 960).
Proof.
  apply (reconnect_step_tracks_clock sample_translator (6 * Second + 7 * Millisecond));
    [split; vm_compute; congruence|reflexivity].
Defined.

(** The 64-bit product wraps for a gap of 2^64 / 48000 ns (about 106.7 h): the
    upper bound on the skipped media time, which rejects any gap of more than
    2^32 samples (24.8 h), no longer applies, and a gap of 107.7 h is taken for
    one of 1 h. *)
Theorem reconnect_step_wraps :
  let t := mkTranslator true no_source 0 0 0 0 0 0 960 0 in
  reconnect_step t (30 * Hour) = 960 ∧
  reconnect_step t (384307168202283 + 1 * Hour) = 172800000.
Proof. split; vm_compute; reflexivity. Qed.

End Translator.

Module SequenceForwarder.
Import Unwrapper.

Inductive forwardDecision := forwardMedia | dropPadding | dropLate.

#[export] Instance forwardDecision_eq_dec : EqDecision forwardDecision.
Proof. solve_decision. Defined.

Record sequenceForwarder := mkForwarder {
  unwrapper : sequenceUnwrapper;
  haveReleased : bool;
  lastReleasedExtSeq : Z;   (* int64 *)
  haveOutput : bool;
  lastOutputSeq : Z         (* uint16 *) }.

Definition fresh : sequenceForwarder := mkForwarder Unwrapper.fresh false 0 false 0.

Definition unwrap (f : sequenceForwarder) (seq : Z) : sequenceForwarder * Z :=
  let '(u, ext) := Unwrapper.unwrap (unwrapper f) seq in
  (mkForwarder u (haveReleased f) (lastReleasedExtSeq f) (haveOutput f) (lastOutputSeq f), ext).

Definition release (f : sequenceForwarder) (pkt : Rtp.Packet) (extSeq : Z)
  : sequenceForwarder * Rtp.Packet * forwardDecision :=
  if haveReleased f && (extSeq <=? lastReleasedExtSeq f) then (f, pkt, dropLate) else
  if Rtp.Padding pkt then
    (mkForwarder (unwrapper f) true extSeq (haveOutput f) (lastOutputSeq f), pkt, dropPadding)
  else
  let out := if negb (haveOutput f) then Rtp.SequenceNumber pkt else u16 (lastOutputSeq f + 1) in
  (mkForwarder (unwrapper f) true extSeq true out, Rtp.set_sequence out pkt, forwardMedia).

Definition hasGap (f : sequenceForwarder) (nextExtSeq : Z) : bool :=
  haveReleased f && (nextExtSeq >? i64 (lastReleasedExtSeq f + 1)).

(** The media packets a list of releases forwards, with their extended
    sequence numbers. *)
Fixpoint release_all (f : sequenceForwarder) (l : list (Rtp.Packet * Z)) : list (Rtp.Packet * Z) :=
  match l with
  | [] => []
  | (pkt, ext) :: l' =>
    match release f pkt ext with
    | (f', pkt', forwardMedia) => (pkt', ext) :: release_all f' l'
    | (f', _, _) => release_all f' l'
    end
  end.

(** The sequence numbers [s], [s + 1], ... modulo 2^16. *)
Definition contiguous_from (s : Z) (l : list (Rtp.Packet * Z)) : Prop :=
  ∀ i pkt ext, l !! i = Some (pkt, ext) → Rtp.SequenceNumber pkt = u16 (s + Z.of_nat i).

Lemma release_all_contiguous f l :
  haveOutput f = true → is_u16 (lastOutputSeq f) →
  contiguous_from (lastOutputSeq f + 1) (release_all f l).
Proof.
  revert f. induction l as [|[pkt ext] l IH]; intros f Ho Hs; cbn [release_all]; [by intros i ?? H|].
  unfold release. destruct (_ && _); [by apply IH|].
  destruct (Rtp.Padding pkt); [by apply (IH (mkForwarder _ _ _ _ _))|].
  rewrite Ho. cbn [negb]. intros [|i] pkt' ext'; cbn [lookup list_lookup].
  - intros [= <- _]. cbn. by rewrite Z.add_0_r.
  - intros H. eapply IH in H; cbn [haveOutput lastOutputSeq] in *; [|done|apply u16_range].
    rewrite H. ilia.
Qed.

Lemma release_all_increasing f l :
  haveReleased f = true → Sorted Z.lt (lastReleasedExtSeq f :: (release_all f l).*2).
Proof.
  revert f. induction l as [|[pkt ext] l IH]; intros f Hr; cbn [release_all]; [by repeat constructor|].
  unfold release. rewrite Hr. cbn [andb]. destruct (Z.leb_spec ext (lastReleasedExtSeq f)); [by apply IH|].
  destruct (Rtp.Padding pkt).
  - specialize (IH (mkForwarder (unwrapper f) true ext (haveOutput f) (lastOutputSeq f)) eq_refl). cbn in IH.
    apply Sorted_inv in IH as [Hs Hh]. constructor; [done|].
    destruct (release_all _ l).*2; [constructor|]. apply HdRel_inv in Hh. constructor. lia.
  - cbn [fmap list_fmap fst snd]. constructor; [|by constructor]. apply (IH (mkForwarder _ _ _ _ _)). done.
Qed.

Lemma release_all_spec f l :
  haveReleased f = false → haveOutput f = false → Forall (λ e, Rtp.typed e.1) l →
  ∃ s, contiguous_from s (release_all f l) ∧ Sorted Z.lt (release_all f l).*2.
Proof.
  revert f. induction l as [|[pkt ext] l IH]; intros f Hr Ho Hl; [exists 0; by repeat constructor|].
  apply Forall_cons in Hl as [(Hseq & _) Hl]. cbn [release_all]. unfold release. rewrite Hr. cbn [andb].
  destruct (Rtp.Padding pkt); cycle 1.
  { rewrite Ho. cbn [negb]. exists (Rtp.SequenceNumber pkt). split.
    - intros [|i] pkt' ext'; cbn [lookup list_lookup].
      + intros [= <- _]. cbn. by rewrite Z.add_0_r, u16_small.
      + intros H. apply release_all_contiguous in H; [|done|done]. rewrite H. cbn. f_equal. lia.
    - apply (release_all_increasing (mkForwarder _ true ext true _)). done. }
  set (f' := mkForwarder _ _ _ _ _).
  assert (Hinc := release_all_increasing f' l eq_refl). apply Sorted_inv in Hinc as [Hinc _].
  clear IH. enough (∃ s, contiguous_from s (release_all f' l)) as [s Hs] by (exists s; done).
  assert (Hf' : haveOutput f' = false) by done. clearbody f'. clear Hinc Hr Ho.
  revert f' Hf' Hl. induction l as [|[pkt1 ext1] l IH]; intros f' Hf' Hl; [exists 0; by intros ????|].
  apply Forall_cons in Hl as [(Hseq1 & _) Hl]. cbn [release_all]. unfold release.
  destruct (_ && _); [by apply IH|]. destruct (Rtp.Padding pkt1); [by apply IH|].
  rewrite Hf'. cbn [negb]. exists (Rtp.SequenceNumber pkt1). intros [|i] pkt' ext'; cbn [lookup list_lookup].
  - intros [= <- _]. cbn. by rewrite Z.add_0_r, u16_small.
  - intros H. apply release_all_contiguous in H; [|done|done]. rewrite H. cbn. f_equal. lia.
Qed.

(** The cadence forwarder emits one contiguous sequence space: whatever is
    lost, duplicated, late or padding-only on the source hop, the forwarded
    media packets carry consecutive sequence numbers modulo 2^16, and their
    source positions strictly increase, so nothing is forwarded twice or out of
    order. *)
Theorem forwarder_contiguous l :
  Forall (λ e, Rtp.typed e.1) l →
  ∃ s, contiguous_from s (release_all fresh l) ∧ Sorted Z.lt (release_all fresh l).*2.
Proof. by apply release_all_spec. Qed.

Lemma forwarder_contiguous_witness :
  ∃ s, contiguous_from s (release_all fresh [(Rtp.media 65535 0 [1], 65535); (Rtp.media 3 960 [2], 65539);
                                             (Rtp.media 1 480 [3], 65537)]) ∧
       Sorted Z.lt (release_all fresh [(Rtp.media 65535 0 [1], 65535); (Rtp.media 3 960 [2], 65539);
                                       (Rtp.media 1 480 [3], 65537)]).*2.
Proof.
  apply (forwarder_contiguous [(Rtp.media 65535 0 [1], 65535); (Rtp.media 3 960 [2], 65539);
    (Rtp.media 1 480 [3], 65537)]). repeat constructor; vm_compute; congruence.
Defined.

End SequenceForwarder.
