(* ===== verification/Cadence.v ===== *)
(** * Cadence: media time, send time and spacing histograms

    Translates [cadence_timeline.go] and [cadence_histogram.go] of
    [internal/media/downlink]. *)

From S2P Require Export SessionTypes.
From Stdlib Require Import SpecFloat.

Module Cadence.

Definition audioClockRateHz : Z := 48000.
Definition defaultPacerTargetDelay : Z := 10 * Millisecond.
Definition defaultPacerMaxLead : Z := 250 * Millisecond.
Definition defaultPacerMaxLateness : Z := 40 * Millisecond.
Definition defaultPacerResetSamples : Z := u32 (u64 (audioClockRateHz * 5)).
Definition minimumCadenceSpacingNumeratorRatio : Z := 4.
Definition minimumCadenceSpacingDenominatorRatio : Z := 5.

Record cadenceTimeline := mkCadence {
  initialized : bool;
  lastRtpTs : Z;        (* uint32 *)
  lastDueAt : Z;
  nominalSamples : Z;   (* uint32 *)
  maxLead : Z;
  maxLateness : Z;
  resetSamples : Z      (* uint32 *) }.

Definition newCadenceTimeline : cadenceTimeline :=
  mkCadence false 0 zero_time 0 defaultPacerMaxLead defaultPacerMaxLateness defaultPacerResetSamples.

Definition reset (t : cadenceTimeline) : cadenceTimeline :=
  mkCadence false (lastRtpTs t) (lastDueAt t) 0 (maxLead t) (maxLateness t) (resetSamples t).

(** The fields [dueAt] updates. *)
Definition anchor (t : cadenceTimeline) (rtpTs due nominal : Z) : cadenceTimeline :=
  mkCadence true rtpTs due nominal (maxLead t) (maxLateness t) (resetSamples t).

(** The timeline, the due time, [reset] and [advances]. *)
Definition dueAt (t : cadenceTimeline) (rtpTs arrival : Z) : cadenceTimeline * Z * bool * bool :=
  let fallback := time_Add arrival defaultPacerTargetDelay in
  if negb (initialized t) then (anchor t rtpTs fallback (nominalSamples t), fallback, false, true) else
  let signedDeltaSamples := i32 (u32 (rtpTs - lastRtpTs t)) in
  if signedDeltaSamples <=? 0 then (t, arrival, false, false) else
  let deltaSamples := u32 signedDeltaSamples in
  if deltaSamples >? resetSamples t then
    (anchor t rtpTs fallback (nominalSamples t), fallback, true, true) else
  let '(nominal, deltaSamples) :=
    if nominalSamples t =? 0 then (deltaSamples, deltaSamples)
    else if deltaSamples >? nominalSamples t then (nominalSamples t, nominalSamples t)
    else (nominalSamples t, deltaSamples) in
  let due := time_Add (lastDueAt t) (i64 (u64 (deltaSamples * Second) / audioClockRateHz)) in
  if Sub due arrival >? maxLead t then (anchor t rtpTs fallback nominal, fallback, true, true) else
  if Sub arrival due >? maxLateness t then (anchor t rtpTs arrival nominal, arrival, true, true) else
  (anchor t rtpTs due nominal, due, false, true).

Definition minimumCadenceSpacingNs (mediaSpacingNs : Z) : Z :=
  if mediaSpacingNs <=? 0 then 0 else
  Z.quot (i64 (mediaSpacingNs * minimumCadenceSpacingNumeratorRatio)) minimumCadenceSpacingDenominatorRatio.

(** *** Properties *)

Definition limits_ok (t : cadenceTimeline) : Prop :=
  maxLead t = defaultPacerMaxLead ∧ maxLateness t = defaultPacerMaxLateness ∧
  resetSamples t = defaultPacerResetSamples ∧
  (nominalSamples t = 0 ∨ 0 < nominalSamples t <= defaultPacerResetSamples).

Lemma limits_new : limits_ok newCadenceTimeline.
Proof. by repeat constructor. Qed.

Lemma limits_reset t : limits_ok t → limits_ok (reset t).
Proof. intros (H1 & H2 & H3 & _). split_and!; try done. by left. Qed.

Lemma dueAt_reset_samples : defaultPacerResetSamples = 240000.
Proof. reflexivity. Qed.

(** Every outcome of [dueAt], without machine arithmetic. *)
Lemma dueAt_cases t rtpTs arrival :
  limits_ok t → is_u32 rtpTs → is_u32 (lastRtpTs t) →
  let delta := i32 (u32 (rtpTs - lastRtpTs t)) in
  let nominal := if nominalSamples t =? 0 then delta else nominalSamples t in
  let due := lastDueAt t + (Z.min delta nominal * Second) / 48000 in
  let fallback := arrival + defaultPacerTargetDelay in
  ∃ t' due' r a, dueAt t rtpTs arrival = (t', due', r, a) ∧
  (initialized t = false ∧ t' = anchor t rtpTs fallback (nominalSamples t) ∧ due' = fallback ∧ r = false ∧ a = true ∨
   initialized t = true ∧ delta <= 0 ∧ t' = t ∧ due' = arrival ∧ r = false ∧ a = false ∨
   initialized t = true ∧ 240000 < delta ∧ t' = anchor t rtpTs fallback (nominalSamples t) ∧ due' = fallback ∧
     r = true ∧ a = true ∨
   initialized t = true ∧ 0 < delta <= 240000 ∧
     (defaultPacerMaxLead < Sub due arrival ∧ t' = anchor t rtpTs fallback nominal ∧ due' = fallback ∧ r = true ∧ a = true ∨
      defaultPacerMaxLateness < Sub arrival due ∧ t' = anchor t rtpTs arrival nominal ∧ due' = arrival ∧ r = true ∧ a = true ∨
      Sub due arrival <= defaultPacerMaxLead ∧ Sub arrival due <= defaultPacerMaxLateness ∧
        t' = anchor t rtpTs due nominal ∧ due' = due ∧ r = false ∧ a = true)).
Proof.
  intros (Hlead & Hlate & Hrs & Hnom) Hts Hlts. cbv zeta. unfold dueAt, time_Add.
  rewrite Hlead, Hlate, Hrs. rewrite dueAt_reset_samples in *.
  set (delta := i32 (u32 (rtpTs - lastRtpTs t))) in *.
  assert (Hdelta : -2147483648 <= delta < 2147483648) by (unfold delta, i32; ilia). clearbody delta.
  destruct (initialized t); cbn [negb].
  2: { eexists _, _, _, _. split; [reflexivity|]. left. by split_and!. }
  destruct (Z.leb_spec delta 0).
  { eexists _, _, _, _. split; [reflexivity|]. right. left. by split_and!. }
  rewrite (u32_small delta) by ilia. rewrite Z.gtb_ltb.
  destruct (Z.ltb_spec 240000 delta).
  { eexists _, _, _, _. split; [reflexivity|]. right. right. left. by split_and!. }
  assert (Hnd : (if nominalSamples t =? 0 then (delta, delta)
     else if delta >? nominalSamples t then (nominalSamples t, nominalSamples t)
     else (nominalSamples t, delta)) =
     (if nominalSamples t =? 0 then delta else nominalSamples t,
      Z.min delta (if nominalSamples t =? 0 then delta else nominalSamples t))).
  { destruct (Z.eqb_spec (nominalSamples t) 0); [f_equal; lia|]. rewrite Z.gtb_ltb.
    destruct (Z.ltb_spec (nominalSamples t) delta); f_equal; lia. }
  rewrite Hnd. set (nominal := if nominalSamples t =? 0 then delta else nominalSamples t).
  set (d := Z.min delta nominal).
  assert (Hd : 0 <= d <= 240000).
  { unfold d, nominal. destruct (Z.eqb_spec (nominalSamples t) 0); lia. }
  rewrite (u64_small (d * Second)) by (unfold Second; ilia).
  rewrite (i64_small (_ / _)) by (unfold Second, audioClockRateHz; ilia).
  change audioClockRateHz with 48000. rewrite !Z.gtb_ltb.
  set (due := lastDueAt t + d * Second / 48000).
  destruct (Z.ltb_spec defaultPacerMaxLead (Sub due arrival)).
  { eexists _, _, _, _. split; [reflexivity|]. right. right. right.
    split_and!; try done; try lia. left. by split_and!. }
  destruct (Z.ltb_spec defaultPacerMaxLateness (Sub arrival due)).
  - eexists _, _, _, _. split; [reflexivity|]. right. right. right.
    split_and!; try done; try lia. right. left. by split_and!.
  - eexists _, _, _, _. split; [reflexivity|]. right. right. right.
    split_and!; try done; try lia. right. right. by split_and!.
Qed.

Lemma dueAt_limits t rtpTs arrival :
  limits_ok t → is_u32 rtpTs → is_u32 (lastRtpTs t) →
  limits_ok (dueAt t rtpTs arrival).1.1.1 ∧ is_u32 (lastRtpTs (dueAt t rtpTs arrival).1.1.1).
Proof.
  intros Hl Hts Hlts. destruct (dueAt_cases t rtpTs arrival Hl Hts Hlts) as (t' & d & r & a & -> & Hc).
  cbn [fst]. destruct Hl as (H1 & H2 & H3 & H4).
  assert (Hnom : 0 < i32 (u32 (rtpTs - lastRtpTs t)) <= 240000 → ∀ due,
    limits_ok (anchor t rtpTs due
      (if nominalSamples t =? 0 then i32 (u32 (rtpTs - lastRtpTs t)) else nominalSamples t))).
  { intros Hd due. split_and!; try done. cbn. rewrite dueAt_reset_samples in *. right.
    destruct (Z.eqb_spec (nominalSamples t) 0); lia. }
  destruct Hc as [(_ & -> & _)|[(_ & _ & -> & _)|[(_ & _ & -> & _)|(_ & Hd & Hc)]]]; try done.
  destruct Hc as [(_ & -> & _)|[(_ & -> & _)|(_ & _ & -> & _)]]; (split; [by apply Hnom|done]).
Qed.

Lemma Sub_le_exact x y c : c < maxInt64 → Sub x y <= c → x - y <= Z.max c minInt64.
Proof. unfold Sub, sat64. unfold_ints. lia. Qed.

(** The cadence never accumulates latency: for every packet, whatever its
    timestamp and however irregular the arrivals, the send time is at most
    250 ms after the arrival and at most 40 ms before it; a packet that does not
    advance the media clock is due at once; and when a packet advances it
    without a reset, the send time advances by its media spacing, capped at the
    learned frame size, so that a lost packet leaves no wall-clock hole. *)
Theorem cadence_bounded t rtpTs arrival :
  limits_ok t → is_u32 rtpTs → is_u32 (lastRtpTs t) →
  let '(t', due, r, a) := dueAt t rtpTs arrival in
  arrival - 40 * Millisecond <= due <= arrival + 250 * Millisecond ∧
  (a = false → due = arrival ∧ t' = t) ∧ (a = true → lastDueAt t' = due ∧ lastRtpTs t' = rtpTs) ∧
  (initialized t = true → a = true → r = false →
    due = lastDueAt t + Z.min (i32 (u32 (rtpTs - lastRtpTs t))) (nominalSamples t') * Second / 48000).
Proof.
  intros Hl Hts Hlts. destruct (dueAt_cases t rtpTs arrival Hl Hts Hlts) as (t' & d & r & a & -> & Hc).
  unfold defaultPacerTargetDelay, Millisecond in *.
  destruct Hc as [(Hi & -> & -> & -> & ->)|[(Hi & _ & -> & -> & -> & ->)|[(Hi & _ & -> & -> & -> & ->)|(Hi & Hd & Hc)]]].
  1-3: split_and!; try done; try lia; intros; congruence.
  destruct Hc as [(_ & -> & -> & -> & ->)|[(_ & -> & -> & -> & ->)|(Hle & Hla & -> & -> & -> & ->)]].
  1-2: split_and!; try done; lia.
  apply Sub_le_exact in Hle, Hla; [|done..].
  unfold defaultPacerMaxLead, defaultPacerMaxLateness, Millisecond, minInt64 in *.
  split_and!; try done; try lia.
Qed.

Lemma cadence_bounded_witness :
  let t := (dueAt newCadenceTimeline 1000 (5 * Second)).1.1.1 in
  let '(t', due, r, a) := dueAt t 1960 (5 * Second + 3 * Millisecond) in
  5 * Second + 3 * Millisecond - 40 * Millisecond <= due <= 5 * Second + 3 * Millisecond + 250 * Millisecond ∧
  (a = false → due = 5 * Second + 3 * Millisecond ∧ t' = t) ∧
  (a = true → lastDueAt t' = due ∧ lastRtpTs t' = 1960) ∧
  (initialized t = true → a = true → r = false →
    due = lastDueAt t + Z.min (i32 (u32 (1960 - lastRtpTs t))) (nominalSamples t') * Second / 48000).
Proof.
  apply (cadence_bounded (dueAt newCadenceTimeline 1000 (5 * Second)).1.1.1 1960
    (5 * Second + 3 * Millisecond)).
  - apply dueAt_limits; [apply limits_new| |]; split; vm_compute; congruence.
  - split; vm_compute; congruence.
  - split; vm_compute; congruence.
Defined.

Lemma minimum_spacing_bounds d :
  0 <= d <= maxInt64 / 4 → 4 * d - 5 < 5 * minimumCadenceSpacingNs d <= 4 * d.
Proof.
  intros Hd. unfold minimumCadenceSpacingNs, minimumCadenceSpacingNumeratorRatio,
    minimumCadenceSpacingDenominatorRatio.
  destruct (Z.leb_spec d 0); [lia|]. rewrite i64_small by ilia. ilia.
Qed.

End Cadence.

Module Histogram.

Definition cadenceSpacingBucketMaxNs : list Z :=
  (λ ms, ms * Millisecond) <$> [1; 5; 10; 15; 18; 22; 25; 30; 40; 50; 60; 70; 80; 100; 150; 250].

(** [counts]: one [uint64] per bucket. *)
Abbreviation cadenceSpacingHistogram := (list Z).

Definition empty : cadenceSpacingHistogram := replicate 16 0.

(** The loop of [observe] over the buckets but the last, which takes the rest. *)
Fixpoint bucket_from (i : nat) (bounds : list Z) (spacingNs : Z) : nat :=
  match bounds with
  | [] | [_] => i
  | b :: bounds' => if spacingNs <? b then i else bucket_from (S i) bounds' spacingNs
  end.

Definition bucket (spacingNs : Z) : nat := bucket_from 0 cadenceSpacingBucketMaxNs spacingNs.

Definition observe (h : cadenceSpacingHistogram) (spacingNs : Z) : cadenceSpacingHistogram :=
  alter (λ c, u64 (c + 1)) (bucket spacingNs) h.

(** *** [float64] arithmetic: IEEE 754 binary64 *)

Definition float64 (z : Z) : spec_float := binary_normalize 53 1024 z 0 false.
Definition fmul : spec_float → spec_float → spec_float := SFmul 53 1024.
Definition fdiv : spec_float → spec_float → spec_float := SFdiv 53 1024.

(** [uint64(math.Ceil(x))] for a finite non-negative [x]. *)
Definition ceil_uint64 (x : spec_float) : Z :=
  match x with
  | S754_finite false m e =>
    u64 (if 0 <=? e then Z.pos m * 2 ^ e else - ((- Z.pos m) / 2 ^ (- e)))
  | _ => 0
  end.

Fixpoint rank_bucket (i : nat) (counts : list Z) (cumulative target : Z) : option nat :=
  match counts with
  | [] => None
  | c :: counts' =>
    let cumulative := u64 (cumulative + c) in
    if cumulative >=? target then Some i else rank_bucket (S i) counts' cumulative target
  end.

Definition total (h : cadenceSpacingHistogram) : Z := foldl (λ t c, u64 (t + c)) 0 h.

Definition percentile_target (h : cadenceSpacingHistogram) (percentile : spec_float) : Z :=
  Z.max (ceil_uint64 (fmul (float64 (total h)) percentile)) 1.

Definition bound_ms (i : nat) : spec_float :=
  fdiv (float64 (nth i cadenceSpacingBucketMaxNs 0)) (float64 Millisecond).

Definition percentileMs (h : cadenceSpacingHistogram) (percentile : spec_float) : spec_float :=
  if total h =? 0 then S754_zero false else
  match rank_bucket 0 h 0 (percentile_target h percentile) with
  | Some i => bound_ms i
  | None => bound_ms 15
  end.

(** The constants 0.50 and 0.95 of [Snapshot] as binary64 values. *)
Definition p50 : spec_float := fdiv (float64 1) (float64 2).
Definition p95 : spec_float := fdiv (float64 95) (float64 100).

(** *** Properties *)

Lemma bucket_from_lt i bounds s :
  bounds ≠ [] → (i <= bucket_from i bounds s < i + length bounds)%nat.
Proof.
  revert i. induction bounds as [|b [|b' bounds] IH]; intros i Hne; [done|cbn; lia|].
  change (bucket_from i (b :: b' :: bounds) s) with
    (if s <? b then i else bucket_from (S i) (b' :: bounds) s).
  destruct (s <? b); [cbn; lia|]. specialize (IH (S i) ltac:(done)). cbn [length] in *. lia.
Qed.

Lemma bucket_lt s : (bucket s < 16)%nat.
Proof. pose proof (bucket_from_lt 0 cadenceSpacingBucketMaxNs s ltac:(done)). unfold bucket. cbn in *. lia. Qed.

Lemma sumZ_alter (h : list Z) i f :
  (i < length h)%nat → sumZ (alter f i h) = sumZ h + f (nth i h 0) - nth i h 0.
Proof.
  revert i. induction h as [|c h IH]; intros i Hi; [cbn in Hi; lia|].
  destruct i as [|i]; cbn [nth].
  - change (alter f 0%nat (c :: h)) with (f c :: h). rewrite !sumZ_cons. lia.
  - change (alter f (S i) (c :: h)) with (c :: alter f i h). rewrite !sumZ_cons.
    cbn in Hi. rewrite IH by lia. lia.
Qed.

Lemma total_sum_acc h acc :
  Forall (λ c, 0 <= c) h → 0 <= acc → acc + sumZ h < 2 ^ 64 → foldl (λ t c, u64 (t + c)) acc h = acc + sumZ h.
Proof.
  intros Hh. revert acc. induction Hh as [|c h Hc Hh IH]; intros acc Hacc Hs; cbn [foldl]; [unfold sumZ; cbn; lia|].
  rewrite sumZ_cons in *. pose proof (sumZ_nonneg h Hh).
  rewrite (u64_small (acc + c)) by ilia. rewrite IH by lia. lia.
Qed.

Lemma total_sum h : Forall (λ c, 0 <= c) h → sumZ h < 2 ^ 64 → total h = sumZ h.
Proof. intros. unfold total. rewrite total_sum_acc; [lia|done|lia|lia]. Qed.

Lemma rank_bucket_spec i h acc target :
  Forall (λ c, 0 <= c) h → 0 <= acc → acc + sumZ h < 2 ^ 64 → acc < target <= acc + sumZ h →
  ∃ k, rank_bucket i h acc target = Some (i + k)%nat ∧ (k < length h)%nat ∧
       acc + sumZ (take k h) < target <= acc + sumZ (take (S k) h).
Proof.
  intros Hh. revert i acc. induction Hh as [|c h Hc Hh IH]; intros i acc Hacc Hs Ht.
  { unfold sumZ in *; cbn in *; lia. }
  rewrite sumZ_cons in *. pose proof (sumZ_nonneg h Hh). cbn [rank_bucket].
  rewrite (u64_small (acc + c)) by ilia. rewrite Z.geb_leb.
  destruct (Z.leb_spec target (acc + c)).
  - exists 0%nat. rewrite Nat.add_0_r. cbn [length take firstn].
    rewrite sumZ_cons. change (take 0 h) with (@nil Z). change (sumZ []) with 0. split_and!; try done; lia.
  - destruct (IH (S i) (acc + c)) as (k & Hk & Hlt & Hb); [lia..|].
    exists (S k). rewrite Hk. cbn [length take firstn]. rewrite !sumZ_cons.
    split_and!; [f_equal; lia|lia|lia|lia].
Qed.

(** The histogram after some observations, each bucket with its samples. *)
Definition holds (h : cadenceSpacingHistogram) (samples : list Z) : Prop :=
  length h = 16%nat ∧ Forall (λ c, 0 <= c) h ∧ sumZ h = len samples ∧
  ∀ i, (i < 16)%nat → nth i h 0 = len (filter (λ s, bucket s = i) samples).

Lemma holds_empty : holds empty [].
Proof.
  split_and!; [done| |done|]; [by repeat constructor|]. intros i Hi. do 16 (destruct i; [done|]). lia.
Qed.

Lemma holds_observe h samples s :
  len samples < 2 ^ 64 - 1 → holds h samples → holds (observe h s) (samples ++ [s]).
Proof.
  intros Hlen (Hl & Hpos & Hsum & Hn). pose proof (bucket_lt s) as Hb. unfold observe.
  assert (Hsmall : u64 (nth (bucket s) h 0 + 1) = nth (bucket s) h 0 + 1).
  { rewrite (Hn _ Hb). apply u64_small. unfold len in *.
    pose proof (length_filter (λ s0, bucket s0 = bucket s) samples). ilia. }
  split_and!.
  - by rewrite length_alter.
  - apply Forall_alter; [done|]. intros c _ _. pose proof (u64_range (c + 1)) as [? _]. done.
  - rewrite sumZ_alter by lia. rewrite Hsmall, Hsum, len_app. change (len [s]) with 1. lia.
  - intros i Hi. rewrite filter_app, len_app, <- Hn by done. destruct (decide (bucket s = i)) as [<-|Hne].
    + rewrite filter_cons_True by done. change (len (s :: filter _ [])) with 1. rewrite <- Hsmall.
      destruct (lookup_lt_is_Some_2 h (bucket s) ltac:(lia)) as [c Hc].
      by rewrite !nth_lookup, list_lookup_alter_eq, Hc.
    + rewrite filter_cons_False by done. cbn [filter list_filter]. change (len (@nil Z)) with 0.
      by rewrite !nth_lookup, list_lookup_alter_ne, Z.add_0_r.
Qed.

Lemma holds_all samples : len samples < 2 ^ 64 → holds (foldl observe empty samples) samples.
Proof.
  induction samples as [|s samples IH] using rev_ind; intros Hlen; [apply holds_empty|].
  rewrite len_app in Hlen. change (len [s]) with 1 in Hlen. rewrite foldl_snoc.
  apply holds_observe; [lia|]. apply IH. lia.
Qed.

(** A histogram counts every observation exactly once, in the bucket of the
    first bound above it (the last bucket takes the rest), so its total is the
    number of observations; and a percentile query over a target rank within
    the total stops at the bucket that holds the observation of that rank. *)
Theorem histogram_exact samples target :
  len samples < 2 ^ 64 → 1 <= target <= len samples →
  let h := foldl observe empty samples in
  total h = len samples ∧
  (∀ i, (i < 16)%nat → nth i h 0 = len (filter (λ s, bucket s = i) samples)) ∧
  ∃ k, rank_bucket 0 h 0 target = Some k ∧ (k < 16)%nat ∧
       sumZ (take k h) < target <= sumZ (take (S k) h).
Proof.
  intros Hlen Ht h. destruct (holds_all samples Hlen) as (Hl & Hpos & Hsum & Hn). fold h in Hl, Hpos, Hsum, Hn.
  split; [|split; [exact Hn|]].
  { rewrite <- Hsum. apply total_sum; [exact Hpos|]. by rewrite Hsum. }
  destruct (rank_bucket_spec 0 h 0 target) as (k & Hk & Hlt & Hb); [done|lia|lia|lia|].
  exists k. rewrite Hl in Hlt. split_and!; [exact Hk|lia|lia|lia].
Qed.

Definition sample_spacings : list Z := (λ ms, ms * Millisecond) <$> [20; 20; 3; 21; 300].

Lemma histogram_exact_witness :
  total (foldl observe empty sample_spacings) = 5 ∧
  percentileMs (foldl observe empty sample_spacings) p50 = float64 22 ∧
  percentileMs (foldl observe empty sample_spacings) p95 = float64 250 ∧
  ∃ k, rank_bucket 0 (foldl observe empty sample_spacings) 0 3 = Some k ∧ (k < 16)%nat.
Proof.
  destruct (histogram_exact sample_spacings 3) as (H1 & _ & k & Hk & Hlt & _);
    [reflexivity|split; vm_compute; congruence|].
  split_and!; [exact H1|vm_compute; reflexivity|vm_compute; reflexivity|]. by exists k.
Defined.

End Histogram.
