(* ===== verification/RepairCache.v ===== *)
(** * RepairCache: owned packet storage and the retransmission cache

    [Pool] is the fixed array of [ownedPacerPacket] of
    [internal/media/downlink/pacer.go]; a pointer to a slot is its index.
    [Cache] translates [retransmission_cache.go]: its entries point into the
    pool. *)

From S2P Require Export SessionTypes.

Module Pool.

(** [ownedPacerPacket]: the payload buffer is part of the packet. *)
Record ownedPacerPacket := mkOwned {
  claimed : bool;
  packet : Rtp.Packet }.

Abbreviation pool := (list ownedPacerPacket).

Definition free_slot : ownedPacerPacket := mkOwned false Rtp.zero.

(** [ownedPacerPacket.release] *)
Definition release (p : pool) (i : nat) : pool := <[i := free_slot]> p.

Definition release_all (p : pool) (l : list nat) : pool := foldl release p l.

(** [claimed.CompareAndSwap(false, true)] followed by the copy of the packet. *)
Definition claim (p : pool) (i : nat) (pkt : Rtp.Packet) : pool := <[i := mkOwned true pkt]> p.

Definition set_packet (p : pool) (i : nat) (pkt : Rtp.Packet) : pool :=
  alter (λ s, mkOwned (claimed s) pkt) i p.

Definition packet_at (p : pool) (i : nat) : Rtp.Packet :=
  match p !! i with Some s => packet s | None => Rtp.zero end.

Definition is_claimed (p : pool) (i : nat) : Prop :=
  ∃ s, p !! i = Some s ∧ claimed s = true.

(** The slots of [l], each held once, are exactly the claimed ones. *)
Definition owned_by (p : pool) (l : list nat) : Prop :=
  NoDup l ∧ ∀ i, is_claimed p i ↔ i ∈ l.

Lemma owned_perm p l l' : l ≡ₚ l' → owned_by p l → owned_by p l'.
Proof. intros Hp [Hn Hc]. split; [by rewrite <- Hp|]. intros i. by rewrite Hc, Hp. Qed.

#[export] Instance owned_by_proper p : Proper ((≡ₚ) ==> iff) (owned_by p).
Proof. intros l l' Hp. split; by apply owned_perm. Qed.

Lemma claimed_release p i j : is_claimed (release p i) j ↔ is_claimed p j ∧ j ≠ i.
Proof.
  unfold is_claimed, release. destruct (decide (j = i)) as [->|Hne].
  - split; [|by intros [_ ?]]. intros (s & Hs & Hc). apply list_lookup_insert_Some in Hs as [(_ & <- & _)|[? _]]; done.
  - rewrite list_lookup_insert_ne by done. naive_solver.
Qed.

Lemma owned_release p i l : owned_by p (i :: l) → owned_by (release p i) l.
Proof.
  intros [Hn Hc]. apply NoDup_cons in Hn as [Hi Hn]. split; [done|]. intros j.
  rewrite claimed_release, Hc, elem_of_cons. set_solver.
Qed.

Lemma owned_release_all p k l : owned_by p (k ++ l) → owned_by (release_all p k) l.
Proof.
  revert p. induction k as [|i k IH]; intros p H; [done|]. cbn. apply IH. by apply owned_release.
Qed.

Lemma owned_claim p i s pkt l :
  p !! i = Some s → claimed s = false → owned_by p l → owned_by (claim p i pkt) (i :: l).
Proof.
  intros Hi Hs [Hn Hc]. split.
  - apply NoDup_cons. split; [|done]. rewrite <- Hc. intros (s' & Hs' & Hc'). congruence.
  - intros j. rewrite elem_of_cons, <- Hc. unfold is_claimed, claim.
    destruct (decide (j = i)) as [->|Hne].
    + rewrite list_lookup_insert_eq by (by eapply lookup_lt_Some). naive_solver.
    + rewrite list_lookup_insert_ne by done. naive_solver.
Qed.

Lemma claimed_set_packet p i pkt j : is_claimed (set_packet p i pkt) j ↔ is_claimed p j.
Proof.
  unfold is_claimed, set_packet. destruct (decide (j = i)) as [->|Hne].
  - rewrite list_lookup_alter_eq. destruct (p !! i); cbn; naive_solver.
  - by rewrite list_lookup_alter_ne.
Qed.

Lemma owned_set_packet p i pkt l : owned_by p l → owned_by (set_packet p i pkt) l.
Proof. intros [Hn Hc]. split; [done|]. intros j. by rewrite claimed_set_packet. Qed.

Lemma length_release p i : length (release p i) = length p.
Proof. apply length_insert. Qed.

Lemma length_release_all p l : length (release_all p l) = length p.
Proof. revert p. induction l as [|i l IH]; intros p; [done|]. cbn. by rewrite IH, length_release. Qed.

Lemma length_claim p i pkt : length (claim p i pkt) = length p.
Proof. apply length_insert. Qed.

Lemma length_set_packet p i pkt : length (set_packet p i pkt) = length p.
Proof. apply length_alter. Qed.

Lemma owned_lt p l i : owned_by p l → i ∈ l → (i < length p)%nat.
Proof. intros [_ Hc] Hi. apply Hc in Hi as (s & Hs & _). by eapply lookup_lt_Some. Qed.

(** Fewer owners than slots leave a free one. *)
Lemma owned_free p l :
  owned_by p l → (length l < length p)%nat → ∃ i s, p !! i = Some s ∧ claimed s = false.
Proof.
  intros [Hn Hc] Hlt.
  destruct (decide (Forall (λ s, claimed s = true) p)) as [Hall|Hnot].
  - exfalso. assert (Hsub : seq 0 (length p) ⊆+ l).
    { apply NoDup_submseteq; [apply NoDup_seq|]. intros i Hi. apply elem_of_seq in Hi.
      apply Hc. destruct (lookup_lt_is_Some_2 p i) as [s Hs]; [lia|]. exists s. split; [done|].
      rewrite Forall_lookup in Hall. by apply (Hall i). }
    apply submseteq_length in Hsub. rewrite length_seq in Hsub. lia.
  - apply not_Forall_Exists in Hnot; [|apply _]. apply Exists_exists in Hnot as (s & Hs & Hcl).
    apply list_elem_of_lookup in Hs as [i Hi]. exists i, s. split; [done|]. by apply not_true_is_false.
Qed.

End Pool.

Module Cache.
Import Pool.

Definition retransmissionCachePackets : nat := 512.
Definition minRetransmissionThrottle : Z := 20 * Millisecond.
Definition maxRetransmissionThrottle : Z := 100 * Millisecond.
Definition maxRetransmissionsPerPacket : Z := 3.

(** [owned] also stands for the packet pointer: [storeOwned] sets both to the
    same slot and [clear] resets both. *)
Record retransmissionSlot := mkSlot {
  owned : option nat;
  lastRetransmitAtNs : Z;   (* int64 *)
  retransmitCount : Z       (* uint32 *) }.

Record retransmissionCache := mkCache {
  slots : list retransmissionSlot;
  rttNs : Z                 (* int64 *) }.

Definition empty : retransmissionCache :=
  mkCache (replicate retransmissionCachePackets (mkSlot None 0 0)) 0.

Definition slot_index (seq : Z) : nat := Z.to_nat (seq mod Z.of_nat retransmissionCachePackets).

Definition owned_at (c : retransmissionCache) (k : nat) : option nat :=
  slots c !! k ≫= owned.

(** [storeOwned]: the entry of the packet's sequence number is replaced and the
    slot it held is released. *)
Definition storeOwned (c : retransmissionCache) (p : pool) (i : nat) : retransmissionCache * pool :=
  let k := slot_index (Rtp.SequenceNumber (packet_at p i)) in
  let previous := owned_at c k in
  (mkCache (<[k := mkSlot (Some i) 0 0]> (slots c)) (rttNs c),
   match previous with Some j => release p j | None => p end).

Definition cache_owned (c : retransmissionCache) : list nat := omap owned (slots c).

(** [clear]: pointers and owners are reset, the counters of a slot are not. *)
Definition clear (c : retransmissionCache) (p : pool) : retransmissionCache * pool :=
  (mkCache ((λ s, mkSlot None (lastRetransmitAtNs s) (retransmitCount s)) <$> slots c) (rttNs c),
   release_all p (cache_owned c)).

Definition setRTT (c : retransmissionCache) (rtt : Z) : retransmissionCache :=
  if rtt >=? 0 then mkCache (slots c) rtt else c.

Definition throttle (c : retransmissionCache) : Z :=
  if rttNs c >? 0
  then Z.min (Z.max (i64 (2 * rttNs c)) minRetransmissionThrottle) maxRetransmissionThrottle
  else maxRetransmissionThrottle.

(** [load]: the slot of the packet, hit, throttled.  Only the pacer worker calls
    it, so its compare-and-swap succeeds the first time. *)
Definition load (c : retransmissionCache) (p : pool) (seq now : Z)
  : retransmissionCache * option nat * bool * bool :=
  let k := slot_index seq in
  match slots c !! k with
  | None => (c, None, false, false)
  | Some s =>
    match owned s with
    | None => (c, None, false, false)
    | Some i =>
      if negb (Rtp.SequenceNumber (packet_at p i) =? seq) then (c, None, false, false) else
      if retransmitCount s >=? maxRetransmissionsPerPacket then (c, None, true, true) else
      let nowNs := UnixNano now in
      if negb (lastRetransmitAtNs s =? 0) && (i64 (nowNs - lastRetransmitAtNs s) <? throttle c)
      then (c, None, true, true)
      else (mkCache (<[k := mkSlot (owned s) nowNs (u32 (retransmitCount s + 1))]> (slots c)) (rttNs c),
            Some i, true, false)
    end
  end.

(** *** Ownership *)

Lemma cache_owned_split (l : list retransmissionSlot) k s :
  l !! k = Some s →
  ∃ rest, omap owned l ≡ₚ option_list (owned s) ++ rest ∧
    ∀ s', omap owned (<[k := s']> l) ≡ₚ option_list (owned s') ++ rest.
Proof.
  intros Hk. exists (omap owned (take k l) ++ omap owned (drop (S k) l)). split.
  - rewrite <- (take_drop_middle l k s Hk) at 1. rewrite omap_app. cbn [omap list_omap]. unfold omap. destruct (owned s); cbn; [by rewrite Permutation_middle|done].
  - intros s'. assert (k < length l)%nat by by eapply lookup_lt_Some.
    rewrite insert_take_drop by done. rewrite omap_app. cbn [omap list_omap]. unfold omap.
    destruct (owned s'); cbn; [by rewrite Permutation_middle|done].
Qed.

Lemma slot_index_lt seq : (slot_index seq < retransmissionCachePackets)%nat.
Proof. unfold slot_index, retransmissionCachePackets. pose proof (Z.mod_pos_bound seq 512 ltac:(lia)). lia. Qed.

Lemma owned_storeOwned c p i l :
  length (slots c) = retransmissionCachePackets →
  owned_by p (i :: cache_owned c ++ l) →
  owned_by (storeOwned c p i).2 (cache_owned (storeOwned c p i).1 ++ l).
Proof.
  intros Hlen H. unfold storeOwned, owned_at, cache_owned in *. cbn [fst snd].
  set (k := slot_index _).
  destruct (lookup_lt_is_Some_2 (slots c) k) as [s Hs]; [rewrite Hlen; apply slot_index_lt|].
  destruct (cache_owned_split _ _ _ Hs) as (rest & H1 & H2). rewrite Hs. cbn.
  cbn [slots]. rewrite H2. rewrite H1 in H. destruct (owned s) as [j|]; cbn in *; [|done].
  apply owned_release. eapply owned_perm; [|exact H]. constructor.
Qed.

Lemma owned_clear c p l :
  owned_by p (cache_owned c ++ l) →
  owned_by (clear c p).2 (cache_owned (clear c p).1 ++ l).
Proof.
  intros H. cbn. apply owned_release_all in H. eapply owned_perm; [|exact H].
  unfold cache_owned. cbn. assert (omap owned ((λ s, mkSlot None (lastRetransmitAtNs s) (retransmitCount s)) <$> slots c) = []) as ->; [|done].
  induction (slots c); [done|]. cbn. done.
Qed.

Lemma load_cache_owned c p seq now : cache_owned (load c p seq now).1.1.1 = cache_owned c.
Proof.
  unfold load. destruct (slots c !! slot_index seq) as [s|] eqn:Hs; [|done].
  destruct (owned s) as [i|] eqn:Ho; [|done]. repeat case_if; try done. cbn. unfold cache_owned. cbn.
  rewrite insert_take_drop by by eapply lookup_lt_Some.
  rewrite <- (take_drop_middle (slots c) _ _ Hs) at 3. rewrite !omap_app. f_equal. cbn. by rewrite Ho.
Qed.

Lemma length_cache_owned c : (length (cache_owned c) <= length (slots c))%nat.
Proof. unfold cache_owned. induction (slots c) as [|s l IH]; [done|]. cbn. destruct (owned s); cbn; unfold omap in *; lia. Qed.

(** *** Retransmission limits *)

(** What happens to the cache between two stores into a slot: requests for
    sequence numbers at some time, and round-trip estimates. *)
Inductive request := Nack (seq now : Z) | Rtt (rtt : Z).

(** The granted retransmissions: sequence number and time. *)
Fixpoint grants (c : retransmissionCache) (p : pool) (ops : list request) : list (Z * Z) :=
  match ops with
  | [] => []
  | Rtt rtt :: ops' => grants (setRTT c rtt) p ops'
  | Nack seq now :: ops' =>
    match load c p seq now with
    | (c', Some _, _, _) => (seq, UnixNano now) :: grants c' p ops'
    | (c', None, _, _) => grants c' p ops'
    end
  end.

Definition sane_request (r : request) : Prop :=
  match r with Nack _ now => 0 < now < 2 ^ 62 | Rtt rtt => True end.

Definition of_slot (k : nat) (g : list (Z * Z)) : list (Z * Z) := filter (λ q, slot_index q.1 = k) g.

(** Consecutive grants of one slot are at least 20 ms apart; [last] is the time
    of the grant before the list, 0 for none. *)
Fixpoint spaced (last : Z) (g : list (Z * Z)) : Prop :=
  match g with
  | [] => True
  | (_, t) :: g' => (last = 0 ∨ last + minRetransmissionThrottle <= t) ∧ spaced t g'
  end.

Lemma throttle_min c : minRetransmissionThrottle <= throttle c <= maxRetransmissionThrottle.
Proof.
  unfold throttle, minRetransmissionThrottle, maxRetransmissionThrottle, Millisecond.
  destruct (rttNs c >? 0); lia.
Qed.

Lemma grants_limited c p ops k s :
  Forall sane_request ops → slots c !! k = Some s →
  0 <= retransmitCount s <= 3 → 0 <= lastRetransmitAtNs s < 2 ^ 62 →
  len (of_slot k (grants c p ops)) <= 3 - retransmitCount s ∧
  spaced (lastRetransmitAtNs s) (of_slot k (grants c p ops)).
Proof.
  intros Hops. revert c s. induction Hops as [|op ops Hop Hops IH]; intros c s Hs Hc Hl.
  { split; [|done]. change (len _) with 0. lia. }
  destruct op as [seq now|rtt]; cbn [grants].
  2: { apply IH; [|done..]. unfold setRTT. by destruct (rtt >=? 0). }
  unfold load. destruct (slots c !! slot_index seq) as [s'|] eqn:Hs'; [|by apply IH].
  destruct (owned s') as [i|] eqn:Ho; [|by apply IH].
  destruct (negb (Rtp.SequenceNumber _ =? seq)); [by apply IH|].
  destruct (retransmitCount s' >=? maxRetransmissionsPerPacket) eqn:Hcount; [by apply IH|].
  destruct (_ && _) eqn:Hthr; [by apply IH|].
  unfold of_slot. destruct (decide (slot_index seq = k)) as [Hk|Hk].
  - rewrite filter_cons_True by done. rewrite <- Hk, Hs' in Hs. injection Hs as ->.
    cbn in Hop. assert (Hnow : UnixNano now = now) by (apply i64_small; ilia).
    unfold maxRetransmissionsPerPacket in Hcount. bool_hyps.
    rewrite (u32_small (retransmitCount s + 1)) by ilia.
    edestruct (IH (mkCache (<[slot_index seq := mkSlot (Some i) (UnixNano now) (retransmitCount s + 1)]> (slots c)) (rttNs c)))
      as [Hlen Hsp].
    { cbn [slots]. rewrite <- Hk. apply list_lookup_insert_eq. by eapply lookup_lt_Some. }
    { cbn. lia. }
    { cbn. rewrite Hnow. lia. }
    cbn [retransmitCount lastRetransmitAtNs] in *. unfold of_slot in *. split.
    + unfold len in *. cbn [length]. lia.
    + split; [|done]. rewrite Hnow in *. destruct Hthr as [Hz|Hlt]; bool_hyps; [by left|right].
      pose proof (throttle_min c). rewrite i64_small in Hlt by ilia. lia.
  - rewrite filter_cons_False by done. apply IH; [|done..]. cbn [slots]. by rewrite list_lookup_insert_ne.
Qed.

(** From the moment a packet is cached, it is retransmitted at most three
    times, two retransmissions are at least 20 ms apart, whatever requests and
    round-trip estimates arrive and in whatever order, and the first request
    for it is granted. *)
Theorem retransmission_limits c p i ops now :
  length (slots c) = retransmissionCachePackets → Forall sane_request ops →
  let s := Rtp.SequenceNumber (packet_at p i) in
  let c' := (storeOwned c p i).1 in
  let g := of_slot (slot_index s) (grants c' p ops) in
  len g <= 3 ∧ spaced 0 g ∧ (load c' p s now).1.1.2 = Some i.
Proof.
  intros Hlen Hops s c' g.
  assert (Hs : slots c' !! slot_index s = Some (mkSlot (Some i) 0 0)).
  { apply list_lookup_insert_eq. rewrite Hlen. apply slot_index_lt. }
  destruct (grants_limited c' p ops _ _ Hops Hs) as [H1 H2]; [cbn; lia..|].
  split_and!; [done..|]. unfold load. rewrite Hs. cbn [owned]. by rewrite Z.eqb_refl.
Qed.

Lemma retransmission_limits_witness :
  let p := [mkOwned true (Rtp.media 700 960 [1])] in
  let ops := [Nack 700 (5 * Millisecond); Nack 700 (24 * Millisecond); Rtt (3 * Millisecond);
              Nack 700 (25 * Millisecond); Nack 700 (50 * Millisecond); Nack 700 (90 * Millisecond)] in
  let c' := (storeOwned empty p 0).1 in
  grants c' p ops = [(700, 5 * Millisecond); (700, 25 * Millisecond); (700, 50 * Millisecond)] ∧
  len (of_slot (slot_index 700) (grants c' p ops)) <= 3 ∧
  spaced 0 (of_slot (slot_index 700) (grants c' p ops)) ∧ (load c' p 700 1).1.1.2 = Some 0%nat.
Proof.
  split; [vm_compute; reflexivity|].
  apply (retransmission_limits empty [mkOwned true (Rtp.media 700 960 [1])] 0
    [Nack 700 (5 * Millisecond); Nack 700 (24 * Millisecond); Rtt (3 * Millisecond);
     Nack 700 (25 * Millisecond); Nack 700 (50 * Millisecond); Nack 700 (90 * Millisecond)] 1).
  - vm_compute. reflexivity.
  - repeat constructor; vm_compute; congruence.
Defined.

End Cache.
