(* ===== verification/Pacer.v ===== *)
(** * Pacer: the single-writer downlink worker

    Translates [pacer.go], [pacer_retransmission.go], [forward_pacer.go] and the
    helpers of [pacer_scheduler.go] in [internal/media/downlink].

    [AudioCadencePacer] is shared by the bus readers that enqueue packets, the
    RTCP reader that reports NACKs, the worker goroutine that owns the writer and
    the caller of [Stop].  Every atomic or channel operation on shared state is
    one step of one of these threads; work on private state is merged into the
    step before it.  Clock readings and the results of transport writes are the
    inputs of a step. *)

From stdpp Require Export functions.
From S2P Require Export Forwarder Cadence RepairCache.

(** ** Ordering of the worker's pending packets *)
Module Items.
Import Pool.

(** [pacedPacket]: the packet pointer is the packet of the owned slot. *)
Record pacedPacket := mkItem {
  owned : nat;
  enqueuedAt : Z;
  extSeq : Z;                 (* int64 *)
  source : SourceIdentity;
  captureTime : Z;
  captureTimeKnown : bool }.

Definition set_extSeq (ext : Z) (it : pacedPacket) : pacedPacket :=
  mkItem (owned it) (enqueuedAt it) ext (source it) (captureTime it) (captureTimeKnown it).

(** The inner loop of the insertion sort: [prefix] is the sorted prefix, last
    element first; larger elements move one place up. *)
Fixpoint shift_in (prefix : list pacedPacket) (item : pacedPacket) : list pacedPacket :=
  match prefix with
  | [] => [item]
  | x :: prefix' =>
    if extSeq item <? extSeq x then x :: shift_in prefix' item else item :: x :: prefix'
  end.

Definition sortPacedPacketsByExtendedSequence (items : list pacedPacket) : list pacedPacket :=
  reverse (foldl shift_in [] items).

Definition by_ext (a b : pacedPacket) : Prop := extSeq a <= extSeq b.

Lemma shift_in_perm prefix item : shift_in prefix item ≡ₚ item :: prefix.
Proof.
  induction prefix as [|x prefix IH]; [done|]. cbn. destruct (_ <? _); [|done].
  rewrite IH. constructor.
Qed.

Lemma shift_in_sorted prefix item :
  Sorted (flip by_ext) prefix → Sorted (flip by_ext) (shift_in prefix item).
Proof.
  induction 1 as [|x prefix Hs IH Hx]; cbn; [by repeat constructor|].
  destruct (Z.ltb_spec (extSeq item) (extSeq x)).
  - constructor; [done|]. destruct Hx as [|y prefix Hxy]; cbn; [constructor; unfold flip, by_ext; lia|].
    destruct (_ <? _); constructor; unfold flip, by_ext in *; lia.
  - repeat constructor; [done|done|]. unfold flip, by_ext. lia.
Qed.

(** The items of one sequence number, in order. *)
Definition with_ext (e : Z) (l : list pacedPacket) : list pacedPacket := filter (λ it, extSeq it = e) l.

Lemma shift_in_stable e prefix item :
  Sorted (flip by_ext) prefix →
  with_ext e (shift_in prefix item) = with_ext e (item :: prefix).
Proof.
  intros Hs. apply Sorted_StronglySorted in Hs; [|intros a b c; unfold flip, by_ext; lia].
  induction Hs as [|x prefix Hs IH Hx]; [done|]. cbn [shift_in].
  destruct (Z.ltb_spec (extSeq item) (extSeq x)); [|done].
  unfold with_ext in *. rewrite !filter_cons in *. rewrite IH.
  destruct (decide (extSeq item = e)), (decide (extSeq x = e)); try done. lia.
Qed.

Lemma sort_fold items prefix :
  Sorted (flip by_ext) prefix →
  Sorted (flip by_ext) (foldl shift_in prefix items) ∧
  foldl shift_in prefix items ≡ₚ items ++ prefix ∧
  ∀ e, with_ext e (foldl shift_in prefix items) = with_ext e (reverse items ++ prefix).
Proof.
  revert prefix. induction items as [|it items IH]; intros prefix Hs; [done|]. cbn [foldl].
  destruct (IH (shift_in prefix it) (shift_in_sorted _ _ Hs)) as (H1 & H2 & H3). split_and!.
  - done.
  - rewrite H2, shift_in_perm. by rewrite <- Permutation_middle.
  - intros e. rewrite H3. rewrite reverse_cons, <- app_assoc. unfold with_ext in *. rewrite !filter_app.
    f_equal. rewrite <- filter_app. by apply shift_in_stable.
Qed.

Lemma sort_perm items : sortPacedPacketsByExtendedSequence items ≡ₚ items.
Proof.
  unfold sortPacedPacketsByExtendedSequence.
  destruct (sort_fold items []) as (_ & Hp & _); [constructor|].
  by rewrite reverse_Permutation, Hp, app_nil_r.
Qed.

Lemma Sorted_rev_flip (l : list pacedPacket) : Sorted (flip by_ext) l → Sorted by_ext (reverse l).
Proof.
  intros Hs. apply Sorted_StronglySorted in Hs; [|intros a b c; unfold flip, by_ext; lia].
  apply StronglySorted_Sorted. induction Hs as [|x l Hs IH Hx]; [constructor|]. rewrite reverse_cons.
  apply StronglySorted_app_2; [|done|by repeat constructor].
  intros a b Ha Hb. apply list_elem_of_singleton in Hb as ->. rewrite Forall_forall in Hx.
  apply (Hx a). by rewrite elem_of_reverse in Ha.
Qed.

Lemma sort_sorted items : Sorted by_ext (sortPacedPacketsByExtendedSequence items).
Proof. apply Sorted_rev_flip. by destruct (sort_fold items []) as (H & _); [constructor|]. Qed.

(** The insertion sort of the pending packets is a stable sort: its result
    is ordered by extended sequence number, is a permutation of its input, and
    packets with the same number keep their arrival order. *)
Theorem sort_stable items :
  Sorted by_ext (sortPacedPacketsByExtendedSequence items) ∧
  sortPacedPacketsByExtendedSequence items ≡ₚ items ∧
  ∀ e, with_ext e (sortPacedPacketsByExtendedSequence items) = with_ext e items.
Proof.
  split_and!; [apply sort_sorted|apply sort_perm|]. intros e.
  unfold sortPacedPacketsByExtendedSequence, with_ext.
  destruct (sort_fold items []) as (_ & _ & H); [constructor|]. specialize (H e). unfold with_ext in H.
  rewrite app_nil_r in H. by rewrite filter_reverse, H, filter_reverse, reverse_involutive.
Qed.

End Items.

(** ** The pacer *)
Module Pacer.
Import Pool Items.

Definition defaultPacerCapacity : nat := 32.
Definition defaultPacerMaxQueueAge : Z := 120 * Millisecond.
Definition defaultForwardReorderWaitMs : Z := 40 * Millisecond.
Definition maxPacerPacketBytes : Z := 1460.
Definition maxPacerHeaderExtensionsCount : Z := maxPacerPacketBytes / 2.
Definition ownedPacerPacketCount : nat :=
  (Cache.retransmissionCachePackets + 2 * defaultPacerCapacity + 1)%nat.
Definition pendingCapacity : nat := (defaultPacerCapacity + 1)%nat.
Definition pacerAdmissionClosed : Z := Z.shiftl 1 63.

Inductive pacer_error := errPacerPacketBounds | errWrite.

(** The atomic counters of [AudioCadencePacer]. *)
Inductive counter :=
| enqueuedCount | completedCount | sentCount | queueFullDrops | staleDrops | queuePeak
| maxQueueAgeNs | lastSpacingNs | maxSpacingNs | maxTimerWaitNs | maxTimerOversleepNs
| maxWriterDurationNs | writerBlockedCount | paddingPacketCount | sourcePaddingStrippedCount
| latePacketDropCount | latePaddingDropCount | lateMediaDropCount | gapTimeoutCount
| recoveryPacketCount | timelineResets | nackQueueDrops | nackCacheHits | nackCacheMisses
| nackThrottled | retransmitSentCount | retransmitErrorCount
| outputSequenceDiscontinuityCount | outputTimestampDiscontinuityCount
| outputMaxSequenceDelta | outputMaxTimestampDeltaSamples.

#[export] Instance counter_eq_dec : EqDecision counter.
Proof. solve_decision. Defined.

(** What the outside sees: the translated-packet observer and the writer. *)
Inductive wire_event :=
| Observed (pkt : Rtp.Packet) (captureTime : Z) (known : bool)
| Wrote (pkt : Rtp.Packet) (failed : bool).

Record pacer := mkPacer {
  ownedPackets : pool;
  nextOwnedSlot : Z;   (* uint32 *)
  queue : list pacedPacket;
  nacks : list Z;
  cache : Cache.retransmissionCache;
  writeScratch : Rtp.Packet;
  counters : counter → Z;
  queueAgeHist : list Z;
  spacingHist : list Z;
  stopped : bool;
  enqueueState : Z;   (* uint64 *)
  doneClosed : bool;   (* [close(p.done)] *)
  workerDone : bool;   (* [close(p.workerDone)] *)
  log : list wire_event }.   (* calls of the observer and of the writer, oldest first *)

Definition set_ownedPackets (x : pool) (p : pacer) : pacer :=
  mkPacer x (nextOwnedSlot p) (queue p) (nacks p) (cache p) (writeScratch p) (counters p)
    (queueAgeHist p) (spacingHist p) (stopped p) (enqueueState p) (doneClosed p) (workerDone p)
    (log p).
Definition set_nextOwnedSlot (x : Z) (p : pacer) : pacer :=
  mkPacer (ownedPackets p) x (queue p) (nacks p) (cache p) (writeScratch p) (counters p)
    (queueAgeHist p) (spacingHist p) (stopped p) (enqueueState p) (doneClosed p) (workerDone p)
    (log p).
Definition set_queue (x : list pacedPacket) (p : pacer) : pacer :=
  mkPacer (ownedPackets p) (nextOwnedSlot p) x (nacks p) (cache p) (writeScratch p) (counters p)
    (queueAgeHist p) (spacingHist p) (stopped p) (enqueueState p) (doneClosed p) (workerDone p)
    (log p).
Definition set_nacks (x : list Z) (p : pacer) : pacer :=
  mkPacer (ownedPackets p) (nextOwnedSlot p) (queue p) x (cache p) (writeScratch p) (counters p)
    (queueAgeHist p) (spacingHist p) (stopped p) (enqueueState p) (doneClosed p) (workerDone p)
    (log p).
Definition set_cache (x : Cache.retransmissionCache) (p : pacer) : pacer :=
  mkPacer (ownedPackets p) (nextOwnedSlot p) (queue p) (nacks p) x (writeScratch p) (counters p)
    (queueAgeHist p) (spacingHist p) (stopped p) (enqueueState p) (doneClosed p) (workerDone p)
    (log p).
Definition set_writeScratch (x : Rtp.Packet) (p : pacer) : pacer :=
  mkPacer (ownedPackets p) (nextOwnedSlot p) (queue p) (nacks p) (cache p) x (counters p)
    (queueAgeHist p) (spacingHist p) (stopped p) (enqueueState p) (doneClosed p) (workerDone p)
    (log p).
Definition set_counters (x : counter → Z) (p : pacer) : pacer :=
  mkPacer (ownedPackets p) (nextOwnedSlot p) (queue p) (nacks p) (cache p) (writeScratch p) x
    (queueAgeHist p) (spacingHist p) (stopped p) (enqueueState p) (doneClosed p) (workerDone p)
    (log p).
Definition set_queueAgeHist (x : list Z) (p : pacer) : pacer :=
  mkPacer (ownedPackets p) (nextOwnedSlot p) (queue p) (nacks p) (cache p) (writeScratch p)
    (counters p) x (spacingHist p) (stopped p) (enqueueState p) (doneClosed p) (workerDone p) (log
    p).
Definition set_spacingHist (x : list Z) (p : pacer) : pacer :=
  mkPacer (ownedPackets p) (nextOwnedSlot p) (queue p) (nacks p) (cache p) (writeScratch p)
    (counters p) (queueAgeHist p) x (stopped p) (enqueueState p) (doneClosed p) (workerDone p)
    (log p).
Definition set_stopped (x : bool) (p : pacer) : pacer :=
  mkPacer (ownedPackets p) (nextOwnedSlot p) (queue p) (nacks p) (cache p) (writeScratch p)
    (counters p) (queueAgeHist p) (spacingHist p) x (enqueueState p) (doneClosed p) (workerDone p)
    (log p).
Definition set_enqueueState (x : Z) (p : pacer) : pacer :=
  mkPacer (ownedPackets p) (nextOwnedSlot p) (queue p) (nacks p) (cache p) (writeScratch p)
    (counters p) (queueAgeHist p) (spacingHist p) (stopped p) x (doneClosed p) (workerDone p) (log
    p).
Definition set_doneClosed (x : bool) (p : pacer) : pacer :=
  mkPacer (ownedPackets p) (nextOwnedSlot p) (queue p) (nacks p) (cache p) (writeScratch p)
    (counters p) (queueAgeHist p) (spacingHist p) (stopped p) (enqueueState p) x (workerDone p)
    (log p).
Definition set_workerDone (x : bool) (p : pacer) : pacer :=
  mkPacer (ownedPackets p) (nextOwnedSlot p) (queue p) (nacks p) (cache p) (writeScratch p)
    (counters p) (queueAgeHist p) (spacingHist p) (stopped p) (enqueueState p) (doneClosed p) x
    (log p).
Definition set_log (x : list wire_event) (p : pacer) : pacer :=
  mkPacer (ownedPackets p) (nextOwnedSlot p) (queue p) (nacks p) (cache p) (writeScratch p)
    (counters p) (queueAgeHist p) (spacingHist p) (stopped p) (enqueueState p) (doneClosed p)
    (workerDone p) x.

Definition new : pacer :=
  mkPacer (replicate ownedPacerPacketCount free_slot) 0 [] [] Cache.empty Rtp.zero (λ _, 0)
    Histogram.empty Histogram.empty false 0 false false [].

(** [counter.Add(n)], [counter.Store(v)], [observeAtomicMax]. *)
Definition add (c : counter) (n : Z) (p : pacer) : pacer :=
  set_counters (<[c := u64 (counters p c + n)]> (counters p)) p.

Definition store (c : counter) (v : Z) (p : pacer) : pacer :=
  set_counters (<[c := v]> (counters p)) p.

Definition observeAtomicMax (c : counter) (v : Z) (p : pacer) : pacer :=
  if v >? counters p c then store c v p else p.

(** [add c 1] under a condition. *)
Definition add_if (b : bool) (c : counter) (p : pacer) : pacer := if b then add c 1 p else p.

Definition release (it : pacedPacket) (p : pacer) : pacer :=
  set_ownedPackets (Pool.release (ownedPackets p) (owned it)) p.

Definition packet_of (p : pacer) (it : pacedPacket) : Rtp.Packet := packet_at (ownedPackets p) (owned it).

Definition log_event (e : wire_event) (p : pacer) : pacer := set_log (log p ++ [e]) p.

Create Rewrite HintDb pacer_core.

Section Pacer.
Context `{codec : Rtp.Codec}.

Definition withinPacerPacketBounds (pkt : Rtp.Packet) : bool :=
  if (len (Rtp.CSRC pkt) >? 15) || (len (Rtp.Extensions pkt) >? maxPacerHeaderExtensionsCount)
  then false else
  if Rtp.Extension pkt && negb (Rtp.ExtensionProfile pkt =? 0xbede) &&
     negb (Rtp.ExtensionProfile pkt =? 0x1000) && (len (Rtp.Extensions pkt) =? 0)
  then false else
  Rtp.MarshalSize pkt <=? maxPacerPacketBytes.

(** [pacerWritePacket.copy]: the scratch packet and whether the copy succeeded. *)
Definition scratch_copy (scratch pkt : Rtp.Packet) : Rtp.Packet * bool :=
  if negb (withinPacerPacketBounds pkt) then (scratch, false) else
  match Rtp.MarshalTo pkt with
  | None => (scratch, false)
  | Some wire =>
    let '(scratch, headerBytes) := Rtp.HeaderUnmarshal (Rtp.reset_lists scratch) (wire ++ [0]) in
    match headerBytes with
    | None => (scratch, false)
    | Some headerBytes =>
      if negb (headerBytes =? Rtp.HeaderMarshalSize pkt) ||
         (headerBytes + len (Rtp.Payload pkt) >? len wire)
      then (scratch, false)
      else
        let payload := slice wire (Z.to_nat headerBytes) (Z.to_nat (headerBytes + len (Rtp.Payload pkt))) in
        (Rtp.set_padding (Rtp.Padding scratch) (Rtp.PaddingSize pkt) (Rtp.set_payload payload scratch), true)
    end
  end.

(** [writeOwnedPacket]; [failed] is the result of the transport write. *)
Definition writeOwnedPacket (pkt : Rtp.Packet) (failed : bool) (p : pacer) : pacer * bool :=
  let '(scratch, copied) := scratch_copy (writeScratch p) pkt in
  let p := set_writeScratch scratch p in
  if negb copied then (p, false) else (log_event (Wrote scratch failed) p, negb failed).

Definition retransmit (seq now : Z) (failed : bool) (p : pacer) : pacer :=
  let '(c, pkt, hit, throttled) := Cache.load (cache p) (ownedPackets p) seq now in
  let p := set_cache c p in
  if negb hit then add nackCacheMisses 1 p else
  let p := add nackCacheHits 1 p in
  if throttled then add nackThrottled 1 p else
  match pkt with
  | None => p
  | Some i =>
    let '(p, ok) := writeOwnedPacket (packet_at (ownedPackets p) i) failed p in
    if negb ok then add retransmitErrorCount 1 p else add retransmitSentCount 1 p
  end.

Definition stripSourceMediaPadding (pkt : Rtp.Packet) : Rtp.Packet * bool :=
  if negb (Rtp.Padding pkt) || (len (Rtp.Payload pkt) =? 0) then (pkt, false)
  else (Rtp.set_padding false 0 pkt, true).

(** *** Enqueue *)

(** The arguments of [EnqueueSource]. *)
Record arguments := mkArgs {
  arg_packet : Rtp.Packet;
  arg_source : SourceIdentity;
  arg_captureTime : Z;
  arg_known : bool }.

Inductive producer_state :=
| PIdle
| PAdmitted (a : arguments)
| PScan (a : arguments) (startSlot offset : nat)
| PSend (it : pacedPacket)
| PCount
| PLeave (r : result pacer_error unit).

Record producer := mkProducer {
  pstate : producer_state;
  calls : list arguments;
  returned : list (result pacer_error unit) }.

Definition producer_step (now : Z) (p : pacer) (t : producer) : pacer * producer :=
  let goto s := mkProducer s (calls t) (returned t) in
  match pstate t with
  | PIdle =>
    match calls t with
    | [] => (p, t)
    | a :: calls' =>
      (* beginEnqueue *)
      if negb (Z.land (enqueueState p) pacerAdmissionClosed =? 0)
      then (p, mkProducer PIdle calls' (returned t ++ [Ok tt]))
      else (set_enqueueState (u64 (enqueueState p + 1)) p, mkProducer (PAdmitted a) calls' (returned t))
    end
  | PAdmitted a =>
    if negb (withinPacerPacketBounds (arg_packet a)) then (p, goto (PLeave (Err errPacerPacketBounds)))
    else
      let next := u32 (nextOwnedSlot p + 1) in
      (set_nextOwnedSlot next p,
       goto (PScan a (Z.to_nat (next mod Z.of_nat (length (ownedPackets p)))) 0))
  | PScan a startSlot offset =>
    if (length (ownedPackets p) <=? offset)%nat then (add queueFullDrops 1 p, goto (PLeave (Ok tt)))
    else
      let i := ((startSlot + offset) mod length (ownedPackets p))%nat in
      match ownedPackets p !! i with
      | Some (mkOwned false _) =>
        (set_ownedPackets (claim (ownedPackets p) i (arg_packet a)) p,
         goto (PSend (mkItem i now 0 (arg_source a) (arg_captureTime a) (arg_known a))))
      | _ => (p, goto (PScan a startSlot (S offset)))
      end
  | PSend it =>
    if (length (queue p) <? defaultPacerCapacity)%nat
    then (set_queue (queue p ++ [it]) p, goto PCount)
    else (release it (add queueFullDrops 1 p), goto (PLeave (Ok tt)))
  | PCount =>
    let p := add enqueuedCount 1 p in
    let enqueued := counters p enqueuedCount in
    let depth := u64 (enqueued - Z.min enqueued (counters p completedCount)) in
    (observeAtomicMax queuePeak depth p, goto (PLeave (Ok tt)))
  | PLeave r =>
    (set_enqueueState (u64 (enqueueState p + 18446744073709551615)) p,
     mkProducer PIdle (calls t) (returned t ++ [r]))
  end.

(** *** [HandleNACK] *)

Inductive nacker_state := NIdle | NSend (seq : Z).
Record nacker := mkNacker { nstate : nacker_state; requests : list Z }.

Definition nacker_step (p : pacer) (t : nacker) : pacer * nacker :=
  match nstate t with
  | NIdle =>
    match requests t with
    | [] => (p, t)
    | seq :: rest => (p, mkNacker (if stopped p then NIdle else NSend seq) rest)
    end
  | NSend seq =>
    (if (length (nacks p) <? defaultPacerCapacity)%nat then set_nacks (nacks p ++ [seq]) p
     else add nackQueueDrops 1 p, mkNacker NIdle (requests t))
  end.

(** *** [Stop] *)

Inductive stopper_state := SIdle | SGate | SJoin | SWait | SDrain | SDone.

Definition stopper_step (p : pacer) (s : stopper_state) : pacer * stopper_state :=
  match s with
  | SIdle => (set_stopped true p, SGate)
  | SGate => (set_enqueueState (Z.lor (enqueueState p) pacerAdmissionClosed) p, SJoin)
  | SJoin =>
    if Z.land (enqueueState p) (Z.lnot pacerAdmissionClosed) =? 0 then (set_doneClosed true p, SWait)
    else (p, SJoin)
  | SWait => if workerDone p then (p, SDrain) else (p, SWait)
  | SDrain =>
    match queue p with
    | [] => (p, SDone)
    | it :: rest => (add completedCount 1 (release it (set_queue rest p)), SDrain)
    end
  | SDone => (p, SDone)
  end.

(** *** The worker: [run] with [paceMedia] off, [runForward] *)

Record forwardOutputState := mkOutput {
  haveOutput : bool;
  lastOutputSequence : Z;
  lastOutputTimestampSamples : Z;
  lastSendAtNs : Z }.

Inductive phase :=
| Select               (* no packet pending *)
| Drain                (* taking what the queue has *)
| Gap                  (* the condition of the gap-wait loop *)
| Wait (deadline : Z)  (* its select *)
| Release              (* the first pending packet goes out *)
| Exited.

Record worker := mkWorker {
  at_ : phase;
  pending : list pacedPacket;
  translator : Translator.rtpForwardTranslator;
  unwrapper : Unwrapper.sequenceUnwrapper;
  output : forwardOutputState;
  haveReleased : bool;
  lastReleasedExtSeq : Z }.

Definition new_worker : worker :=
  mkWorker Select [] Translator.fresh Unwrapper.fresh (mkOutput false 0 0 0) false 0.

Definition goto (ph : phase) (pend : list pacedPacket) (w : worker) : worker :=
  mkWorker ph pend (translator w) (unwrapper w) (output w) (haveReleased w) (lastReleasedExtSeq w).

(** [prepareForwardItem]: the packet is translated in its slot. *)
Definition prepareForwardItem (it : pacedPacket) (p : pacer) (w : worker) : pacer * worker * pacedPacket :=
  let '(t, pkt, reset) := Translator.translateAt (translator w) (packet_of p it) (source it) (enqueuedAt it) in
  let p := set_ownedPackets (set_packet (ownedPackets p) (owned it) pkt) p in
  let p := add_if reset timelineResets p in
  let '(u, ext) := Unwrapper.unwrap (unwrapper w) (Rtp.SequenceNumber pkt) in
  (p, mkWorker (at_ w) (pending w) t u (output w) (haveReleased w) (lastReleasedExtSeq w),
   set_extSeq ext it).

(** Receive the head of the queue into the pending array. *)
Definition take_item (p : pacer) (w : worker) : option (pacer * worker) :=
  match queue p with
  | [] => None
  | it :: rest =>
    let '(p, w, it) := prepareForwardItem it (set_queue rest p) w in
    Some (p, goto (at_ w) (pending w ++ [it]) w)
  end.

(** The clock readings of [writeForwardItem] and the result of its write. *)
Record io := mkIo {
  sinceAt : Z;        (* time.Since(item.enqueuedAt) *)
  writeStarted : Z;
  writeEnded : Z;     (* time.Since(writeStarted) *)
  sentAt : Z;         (* time.Now().UnixNano() *)
  writeFails : bool }.

Definition record_output (pkt : Rtp.Packet) (o : forwardOutputState) (p : pacer) : pacer * forwardOutputState :=
  let p :=
    if haveOutput o then
      let sequenceDeltaCount := u16 (Rtp.SequenceNumber pkt - lastOutputSequence o) in
      let timestampDeltaSamples := u32 (Rtp.Timestamp pkt - lastOutputTimestampSamples o) in
      let p := add_if (negb (sequenceDeltaCount =? 1)) outputSequenceDiscontinuityCount p in
      let p := add_if (negb (timestampDeltaSamples =? Translator.defaultAudioFrameSamples))
                 outputTimestampDiscontinuityCount p in
      observeAtomicMax outputMaxTimestampDeltaSamples timestampDeltaSamples
        (observeAtomicMax outputMaxSequenceDelta sequenceDeltaCount p)
    else p in
  (p, mkOutput true (Rtp.SequenceNumber pkt) (Rtp.Timestamp pkt) (lastSendAtNs o)).

Definition record_spacing (nowNs : Z) (o : forwardOutputState) (p : pacer) : pacer * forwardOutputState :=
  let p :=
    if negb (lastSendAtNs o =? 0) && (nowNs >? lastSendAtNs o) then
      let spacingNs := u64 (i64 (nowNs - lastSendAtNs o)) in
      let p := store lastSpacingNs spacingNs p in
      let p := set_spacingHist (Histogram.observe (spacingHist p) (i64 spacingNs)) p in
      observeAtomicMax maxSpacingNs spacingNs p
    else p in
  (p, mkOutput (haveOutput o) (lastOutputSequence o) (lastOutputTimestampSamples o) nowNs).

(** The age of the item: histogram and maximum. *)
Definition observe_age (queueAgeNs : Z) (p : pacer) : pacer :=
  let p := set_queueAgeHist (Histogram.observe (queueAgeHist p) queueAgeNs) p in
  observeAtomicMax maxQueueAgeNs (u64 (Z.max queueAgeNs 0)) p.

(** Padding is counted and stripped, and the packet is shown to the observer. *)
Definition strip_and_observe (it : pacedPacket) (p : pacer) : pacer * Rtp.Packet :=
  let p := add_if (Rtp.Padding (packet_of p it)) paddingPacketCount p in
  let '(pkt, stripped) := stripSourceMediaPadding (packet_of p it) in
  let p := set_ownedPackets (set_packet (ownedPackets p) (owned it) pkt) p in
  let p := add_if stripped sourcePaddingStrippedCount p in
  (log_event (Observed pkt (captureTime it) (captureTimeKnown it)) p, pkt).

Definition timed_write (pkt : Rtp.Packet) (x : io) (p : pacer) : pacer * bool :=
  let '(p, ok) := writeOwnedPacket pkt (writeFails x) p in
  let writeDuration := Sub (writeEnded x) (writeStarted x) in
  let p := observeAtomicMax maxWriterDurationNs (u64 writeDuration) p in
  (add_if (writeDuration >? 100 * Millisecond) writerBlockedCount p, ok).

(** A written packet moves into the retransmission cache. *)
Definition keep_sent (it : pacedPacket) (pkt : Rtp.Packet) (o : forwardOutputState) (p : pacer)
  : pacer * forwardOutputState :=
  let p := add sentCount 1 p in
  let '(c, pl) := Cache.storeOwned (cache p) (ownedPackets p) (owned it) in
  record_output pkt o (set_ownedPackets pl (set_cache c p)).

Definition writeForwardItem (it : pacedPacket) (o : forwardOutputState) (x : io) (p : pacer)
  : pacer * forwardOutputState :=
  let queueAgeNs := Sub (sinceAt x) (enqueuedAt it) in
  let p := observe_age queueAgeNs p in
  if queueAgeNs >? defaultPacerMaxQueueAge then
    (release it (add completedCount 1 (add staleDrops 1 p)), o)
  else
  let '(p, pkt) := strip_and_observe it p in
  let '(p, ok) := timed_write pkt x p in
  let '(p, o) := if ok : bool then keep_sent it pkt o p else (p, o) in
  let p := add completedCount 1 p in
  let '(p, o) := if Rtp.Padding pkt then (p, o) else record_spacing (UnixNano (sentAt x)) o p in
  (if ok then p else release it p, o).

(** The return of [runForward] and the deferred calls of [run]. *)
Definition exit (p : pacer) (w : worker) : pacer * worker :=
  let p := set_ownedPackets (release_all (ownedPackets p) (owned <$> pending w)) p in
  let p := add completedCount (Z.of_nat (length (pending w))) p in
  let '(c, pl) := Cache.clear (cache p) (ownedPackets p) in
  (set_workerDone true (set_ownedPackets pl (set_cache c p)), goto Exited [] w).

(** The earliest arrival among the pending packets. *)
Definition gapStartedAt (pend : list pacedPacket) : Z :=
  match pend with
  | [] => 0
  | it :: rest => foldl (λ t it, if Before (enqueuedAt it) t then enqueuedAt it else t) (enqueuedAt it) rest
  end.

(** The condition of the gap-wait loop. *)
Definition in_gap (w : worker) : bool :=
  match pending w with
  | [] => false
  | it :: _ => haveReleased w && (extSeq it >? i64 (lastReleasedExtSeq w + 1)) &&
               (length (pending w) <? pendingCapacity)%nat
  end.

(** Which ready case a [select] of the worker takes, with its clock reading. *)
Inductive choice :=
| TakeDone
| TakeNack (now : Z) (failed : bool)
| TakeQueue
| TakeTimer (now : Z)
| Proceed (x : io).      (* no select: the next statement *)

Definition take_nack (now : Z) (failed : bool) (p : pacer) : option pacer :=
  match nacks p with
  | [] => None
  | seq :: rest => Some (retransmit seq now failed (set_nacks rest p))
  end.

Definition worker_step (c : choice) (p : pacer) (w : worker) : option (pacer * worker) :=
  match at_ w, c with
  | Select, TakeDone | Wait _, TakeDone => if doneClosed p then Some (exit p w) else None
  | Select, TakeNack now failed => p' ← take_nack now failed p; Some (p', w)
  | Select, TakeQueue =>
    '(p', w') ← take_item p w; Some (p', goto Drain (pending w') w')
  | Drain, Proceed _ =>
    match (length (pending w) <? pendingCapacity)%nat, take_item p w with
    | true, Some (p', w') => Some (p', w')
    | _, _ => Some (p, goto Gap (sortPacedPacketsByExtendedSequence (pending w)) w)
    end
  | Gap, Proceed x =>
    if negb (in_gap w) then Some (p, goto Release (pending w) w) else
    let deadline := time_Add (gapStartedAt (pending w)) defaultForwardReorderWaitMs in
    let wait := Sub deadline (sinceAt x) in
    if wait <=? 0 then Some (add gapTimeoutCount 1 p, goto Release (pending w) w)
    else Some (observeAtomicMax maxTimerWaitNs (u64 wait) p, goto (Wait deadline) (pending w) w)
  | Wait _, TakeNack now failed => p' ← take_nack now failed p; Some (p', goto Gap (pending w) w)
  | Wait _, TakeQueue =>
    '(p', w') ← take_item p w;
    Some (p', goto Gap (sortPacedPacketsByExtendedSequence (pending w')) w')
  | Wait deadline, TakeTimer now =>
    if Before now deadline then None else
    let p := add gapTimeoutCount 1 p in
    let oversleep := Sub now deadline in
    Some (if oversleep >? 0 then observeAtomicMax maxTimerOversleepNs (u64 oversleep) p else p,
          goto Release (pending w) w)
  | Release, Proceed x =>
    match pending w with
    | [] => None
    | it :: rest =>
      let advance := negb (haveReleased w) || (extSeq it >? lastReleasedExtSeq w) in
      let '(p', o) := writeForwardItem it (output w) x p in
      Some (p', mkWorker (if (length rest =? 0)%nat then Select else Drain) rest (translator w) (unwrapper w) o
                  true (if advance then extSeq it else lastReleasedExtSeq w))
    end
  | _, _ => None
  end.

(** *** The whole system *)

Record system := mkSystem {
  pc : pacer;
  wk : worker;
  producers : list producer;
  nackers : list nacker;
  stopper : stopper_state }.

Inductive label :=
| LProducer (i : nat) (now : Z)
| LNacker (i : nat)
| LStop
| LSetRTT (rtt : Z)
| LWorker (c : choice).

Definition step (s : system) (l : label) : option system :=
  match l with
  | LProducer i now =>
    t ← producers s !! i;
    let '(p, t') := producer_step now (pc s) t in
    Some (mkSystem p (wk s) (<[i := t']> (producers s)) (nackers s) (stopper s))
  | LNacker i =>
    t ← nackers s !! i;
    let '(p, t') := nacker_step (pc s) t in
    Some (mkSystem p (wk s) (producers s) (<[i := t']> (nackers s)) (stopper s))
  | LStop =>
    let '(p, st) := stopper_step (pc s) (stopper s) in
    Some (mkSystem p (wk s) (producers s) (nackers s) st)
  | LSetRTT rtt =>
    Some (mkSystem (set_cache (Cache.setRTT (cache (pc s)) rtt) (pc s)) (wk s) (producers s) (nackers s) (stopper s))
  | LWorker c =>
    '(p, w) ← worker_step c (pc s) (wk s);
    Some (mkSystem p w (producers s) (nackers s) (stopper s))
  end.

Fixpoint run (s : system) (ls : list label) : option system :=
  match ls with
  | [] => Some s
  | l :: ls' => s' ← step s l; run s' ls'
  end.

(** A new pacer with the calls its users are going to make. *)
Definition start (enqueues : list (list arguments)) (requests : list (list Z)) : system :=
  mkSystem new new_worker ((λ a, mkProducer PIdle a []) <$> enqueues)
    ((λ r, mkNacker NIdle r) <$> requests) SIdle.


(** *** Framing

    The part of the state that the invariant is about; every other counter,
    histogram and log may change freely. *)

Definition core (p : pacer) : pool * list pacedPacket * list Z * Cache.retransmissionCache * Z * bool * bool * Z * Z :=
  (ownedPackets p, queue p, nacks p, cache p, enqueueState p, doneClosed p, workerDone p,
   counters p enqueuedCount, counters p completedCount).

Definition statistic (c : counter) : Prop := c ≠ enqueuedCount ∧ c ≠ completedCount.

Lemma core_add c n p : statistic c → core (add c n p) = core p.
Proof. intros [? ?]. unfold core, add. cbn. by rewrite !fn_lookup_insert_ne. Qed.

Lemma core_store c v p : statistic c → core (store c v p) = core p.
Proof. intros [? ?]. unfold core, store. cbn. by rewrite !fn_lookup_insert_ne. Qed.

Lemma core_max c v p : statistic c → core (observeAtomicMax c v p) = core p.
Proof. intros Hc. unfold observeAtomicMax. destruct (v >? _); [by apply core_store|done]. Qed.

Lemma core_add_if b c p : statistic c → core (add_if b c p) = core p.
Proof. intros Hc. destruct b; [by apply core_add|done]. Qed.

Lemma core_log e p : core (log_event e p) = core p. Proof. done. Qed.
Lemma core_queueAgeHist h p : core (set_queueAgeHist h p) = core p. Proof. done. Qed.
Lemma core_spacingHist h p : core (set_spacingHist h p) = core p. Proof. done. Qed.
Lemma core_writeScratch x p : core (set_writeScratch x p) = core p. Proof. done. Qed.

#[local] Hint Rewrite core_log core_queueAgeHist core_spacingHist core_writeScratch : pacer_core.
#[local] Hint Rewrite core_add core_store core_max core_add_if using (split; discriminate) : pacer_core.

Lemma core_age a p : core (observe_age a p) = core p.
Proof. unfold observe_age. by autorewrite with pacer_core. Qed.

Lemma core_output pkt o p : core (record_output pkt o p).1 = core p.
Proof. unfold record_output. cbn [fst]. destruct (haveOutput o); [|done]. by autorewrite with pacer_core. Qed.

Lemma core_spacing n o p : core (record_spacing n o p).1 = core p.
Proof. unfold record_spacing. cbn [fst]. destruct (_ && _); [|done]. by autorewrite with pacer_core. Qed.

Lemma core_write pkt f p : core (writeOwnedPacket pkt f p).1 = core p.
Proof.
  unfold writeOwnedPacket. destruct (scratch_copy _ _) as [s b]. destruct (negb b); cbn [fst];
    by autorewrite with pacer_core.
Qed.

Lemma core_timed pkt x p : core (timed_write pkt x p).1 = core p.
Proof.
  unfold timed_write. pose proof (core_write pkt (writeFails x) p) as H.
  destruct (writeOwnedPacket _ _ _) as [p' ok]. cbn [fst] in *. by autorewrite with pacer_core.
Qed.

(** What one pending packet's write does to the rest of the state. *)
Definition same_channels (p p' : pacer) : Prop :=
  queue p' = queue p ∧ nacks p' = nacks p ∧ enqueueState p' = enqueueState p ∧
  doneClosed p' = doneClosed p ∧ workerDone p' = workerDone p ∧
  counters p' enqueuedCount = counters p enqueuedCount.

Lemma core_channels p p' : core p' = core p → same_channels p p'.
Proof. unfold core. intros [= H1 H2 H3 H4 H5 H6 H7 H8 H9]. by split_and!. Qed.

Lemma core_slots p p' : core p' = core p →
  ownedPackets p' = ownedPackets p ∧ cache p' = cache p ∧
  counters p' completedCount = counters p completedCount.
Proof. unfold core. by intros [= H1 H2 H3 H4 H5 H6 H7 H8 H9]. Qed.

Lemma same_channels_trans p q r : same_channels p q → same_channels q r → same_channels p r.
Proof. unfold same_channels. intros (?&?&?&?&?&?) (?&?&?&?&?&?). split_and!; congruence. Qed.

Definition sizes_ok (p : pacer) : Prop :=
  length (ownedPackets p) = ownedPacerPacketCount ∧
  length (Cache.slots (cache p)) = Cache.retransmissionCachePackets.

(** The slots held by the cache and by [l] before and after. *)
Definition keeps_owners (k : list nat) (p p' : pacer) : Prop :=
  (sizes_ok p → sizes_ok p') ∧
  ∀ l, sizes_ok p → owned_by (ownedPackets p) (k ++ Cache.cache_owned (cache p) ++ l) →
       owned_by (ownedPackets p') (Cache.cache_owned (cache p') ++ l).

Lemma strip_spec it p :
  let p' := (strip_and_observe it p).1 in
  same_channels p p' ∧ cache p' = cache p ∧ counters p' completedCount = counters p completedCount ∧
  (sizes_ok p → sizes_ok p') ∧
  ∀ l, owned_by (ownedPackets p) l → owned_by (ownedPackets p') l.
Proof.
  unfold strip_and_observe. cbv zeta.
  set (p1 := add_if _ paddingPacketCount p).
  assert (H1 : core p1 = core p) by (apply core_add_if; split; discriminate).
  destruct (stripSourceMediaPadding (packet_of p1 it)) as [pkt st]. cbn [fst].
  set (p2 := set_ownedPackets _ p1).
  assert (H2 : core (log_event (Observed pkt (captureTime it) (captureTimeKnown it))
                 (add_if st sourcePaddingStrippedCount p2)) = core p2) by by autorewrite with pacer_core.
  set (p3 := log_event _ _) in *. clearbody p3.
  apply core_slots in H1 as Hs1. apply core_slots in H2 as Hs2. apply core_channels in H1, H2.
  destruct Hs1 as (Ha & Hb & Hc), Hs2 as (Hd & He & Hf). unfold p2 in Hd, He, Hf. cbn in Hd, He, Hf.
  rewrite Hd, He, Hf. split_and!.
  - eapply same_channels_trans; [exact H1|]. eapply same_channels_trans; [|exact H2]. by unfold p2.
  - done.
  - done.
  - unfold sizes_ok. rewrite Hd, He, Ha, Hb, length_set_packet. done.
  - intros l Hl. rewrite Ha. by apply owned_set_packet.
Qed.

Lemma keep_sent_spec it pkt o p :
  let p' := (keep_sent it pkt o p).1 in
  same_channels p p' ∧ counters p' completedCount = counters p completedCount ∧ keeps_owners [owned it] p p'.
Proof.
  unfold keep_sent. cbv zeta. pose proof (core_add sentCount 1 p ltac:(split; discriminate)) as H1.
  set (p1 := add sentCount 1 p) in *. clearbody p1.
  destruct (Cache.storeOwned (cache p1) (ownedPackets p1) (owned it)) as [c pl] eqn:Hst.
  set (p2 := set_ownedPackets pl (set_cache c p1)).
  pose proof (core_output pkt o p2) as H2. destruct (record_output pkt o p2) as [p3 o3]. cbn [fst] in *.
  apply core_slots in H1 as Hs1. apply core_slots in H2 as Hs2. apply core_channels in H1, H2.
  destruct Hs1 as (Ha & Hb & Hc), Hs2 as (Hd & He & Hf). unfold p2 in Hd, He, Hf. cbn in Hd, He, Hf.
  split_and!.
  - eapply same_channels_trans; [exact H1|]. eapply same_channels_trans; [|exact H2]. by unfold p2.
  - congruence.
  - assert (Hsz : sizes_ok p → sizes_ok p3).
    { unfold sizes_ok. rewrite Hd, He, <- Ha, <- Hb. intros [Hp Hs]. unfold Cache.storeOwned in Hst.
      injection Hst as <- <-. cbn. rewrite length_insert. split; [|done].
      destruct (Cache.owned_at _ _); [by rewrite length_release|done]. }
    split; [done|]. intros l [Hp Hs] Hown. rewrite Hd, He, <- Ha, <- Hb in *.
    pose proof (Cache.owned_storeOwned (cache p1) (ownedPackets p1) (owned it) l Hs Hown) as Hgo.
    by rewrite Hst in Hgo.
Qed.
(** Stages that neither touch the channels nor change who owns a slot. *)
Definition harmless (p p' : pacer) : Prop :=
  same_channels p p' ∧ counters p' completedCount = counters p completedCount ∧
  cache p' = cache p ∧ (sizes_ok p → sizes_ok p') ∧
  ∀ l, owned_by (ownedPackets p) l → owned_by (ownedPackets p') l.

Lemma core_harmless p p' : core p' = core p → harmless p p'.
Proof.
  intros H. apply core_slots in H as Hs. destruct Hs as (Ha & Hb & Hc).
  split_and!; [by apply core_channels|done|done| |]; unfold sizes_ok; by rewrite Ha, ?Hb.
Qed.

Lemma harmless_trans p q r : harmless p q → harmless q r → harmless p r.
Proof.
  intros (H1 & H2 & H3 & H4 & H5) (K1 & K2 & K3 & K4 & K5).
  split_and!; [by eapply same_channels_trans|congruence|congruence|auto|auto].
Qed.

(** One packet completes: the count goes up by one and the slot [i] is released
    or moves into the cache. *)
Definition completes (i : nat) (p p' : pacer) : Prop :=
  same_channels p p' ∧ counters p' completedCount = u64 (counters p completedCount + 1) ∧
  keeps_owners [i] p p'.

Lemma harmless_completes i p q r : harmless p q → completes i q r → completes i p r.
Proof.
  intros (H1 & H2 & H3 & H4 & H5) (K1 & K2 & K3 & K4).
  split_and!; [by eapply same_channels_trans|congruence|split; [auto|]].
  intros l Hsz Hown. apply K4; [auto|]. rewrite H3. auto.
Qed.

Lemma completes_harmless i p q r : completes i p q → harmless q r → completes i p r.
Proof.
  intros (K1 & K2 & K3 & K4) (H1 & H2 & H3 & H4 & H5).
  split_and!; [by eapply same_channels_trans|congruence|split; [auto|]].
  intros l Hsz Hown. rewrite H3. auto.
Qed.

Lemma add_completed_spec n p :
  let p' := add completedCount n p in
  same_channels p p' ∧ ownedPackets p' = ownedPackets p ∧ cache p' = cache p ∧
  counters p' completedCount = u64 (counters p completedCount + n).
Proof.
  unfold same_channels, add. cbn. rewrite fn_lookup_insert, fn_lookup_insert_ne by done. done.
Qed.

Lemma release_completes it p : completes (owned it) p (release it (add completedCount 1 p)).
Proof.
  destruct (add_completed_spec 1 p) as (H1 & H2 & H3 & H4). cbv zeta in *.
  set (q := add completedCount 1 p) in *. clearbody q. split_and!; [done|done|]. split.
  - unfold sizes_ok. cbn. by rewrite length_release, H2, H3.
  - intros l _ Hown. cbn. rewrite H3. apply owned_release. by rewrite H2.
Qed.

Lemma sent_completes it pkt o p : completes (owned it) p (add completedCount 1 (keep_sent it pkt o p).1).
Proof.
  destruct (keep_sent_spec it pkt o p) as (H1 & H2 & H3 & H4).
  set (q := (keep_sent it pkt o p).1) in *. clearbody q.
  destruct (add_completed_spec 1 q) as (K1 & K2 & K3 & K4). cbv zeta in *.
  split_and!; [by eapply same_channels_trans|congruence|]. split.
  - unfold sizes_ok. rewrite K2, K3. apply H3.
  - intros l Hsz Hown. rewrite K2, K3. by apply H4.
Qed.

Lemma harmless_strip it p : harmless p (strip_and_observe it p).1.
Proof. destruct (strip_spec it p) as (H1 & H2 & H3 & H4 & H5). by split_and!. Qed.

Lemma harmless_release_swap it p q :
  core q = core p → completes (owned it) p (release it (add completedCount 1 q)).
Proof.
  intros H. eapply harmless_completes; [by apply core_harmless|]. apply release_completes.
Qed.

Lemma release_core it p q : core q = core p → core (release it q) = core (release it p).
Proof. unfold core, release. cbn. intros [= -> -> -> -> -> -> -> -> ->]. done. Qed.

Lemma writeForwardItem_completes it o x p : completes (owned it) p (writeForwardItem it o x p).1.
Proof.
  unfold writeForwardItem. cbv zeta.
  eapply harmless_completes; [apply core_harmless, (core_age (Sub (sinceAt x) (enqueuedAt it)))|].
  set (p0 := observe_age _ p). clearbody p0. destruct (_ >? _); cbn [fst].
  { eapply harmless_completes; [apply core_harmless, (core_add staleDrops 1); split; discriminate|].
    apply release_completes. }
  pose proof (harmless_strip it p0) as Hst. destruct (strip_and_observe it p0) as [p1 pkt].
  eapply harmless_completes; [exact Hst|]. clear Hst.
  pose proof (core_timed pkt x p1) as Htw. destruct (timed_write pkt x p1) as [p2 ok].
  eapply harmless_completes; [apply core_harmless, Htw|]. cbn [fst]. clear Htw.
  destruct ok.
  - pose proof (sent_completes it pkt o p2) as Hs. destruct (keep_sent it pkt o p2) as [p3 o3]. cbn [fst] in Hs.
    destruct (Rtp.Padding pkt); [done|].
    pose proof (core_spacing (UnixNano (sentAt x)) o3 (add completedCount 1 p3)) as Hc.
    destruct (record_spacing _ _ _) as [p4 o4]. cbn [fst] in *.
    eapply completes_harmless; [exact Hs|by apply core_harmless].
  - destruct (Rtp.Padding pkt); [apply release_completes|].
    pose proof (core_spacing (UnixNano (sentAt x)) o (add completedCount 1 p2)) as Hc.
    destruct (record_spacing _ _ _) as [p4 o4]. cbn [fst] in *.
    eapply completes_harmless; [apply release_completes|].
    apply core_harmless. by apply release_core.
Qed.

Lemma retransmit_harmless seq now f p :
  let p' := retransmit seq now f p in
  same_channels p p' ∧ counters p' completedCount = counters p completedCount ∧
  ownedPackets p' = ownedPackets p ∧
  Cache.cache_owned (cache p') = Cache.cache_owned (cache p) ∧ (sizes_ok p → sizes_ok p').
Proof.
  unfold retransmit. cbv zeta.
  pose proof (Cache.load_cache_owned (cache p) (ownedPackets p) seq now) as Hown.
  assert (Hlen : length (Cache.slots (Cache.load (cache p) (ownedPackets p) seq now).1.1.1) = length (Cache.slots (cache p))).
  { unfold Cache.load. destruct (_ !! _) as [s|]; [|done]. destruct (Cache.owned s); [|done].
    repeat case_if; try done. cbn. apply length_insert. }
  destruct (Cache.load (cache p) (ownedPackets p) seq now) as [[[c pkt] hit] thr]. cbn [fst] in *.
  assert (Hgo : ∀ q, core q = core (set_cache c p) →
    same_channels p q ∧ counters q completedCount = counters p completedCount ∧
    ownedPackets q = ownedPackets p ∧
    Cache.cache_owned (cache q) = Cache.cache_owned (cache p) ∧ (sizes_ok p → sizes_ok q)).
  { intros q Hq. apply core_channels in Hq as Hch. apply core_slots in Hq as (Ha & Hb & Hc). cbn in Ha, Hb, Hc.
    split_and!; try done; [congruence|]. unfold sizes_ok. by rewrite Ha, Hb, Hlen. }
  destruct (negb hit); [apply Hgo; by autorewrite with pacer_core|].
  destruct thr; [apply Hgo; by autorewrite with pacer_core|].
  destruct pkt as [i|]; [|apply Hgo; by autorewrite with pacer_core].
  set (q := add nackCacheHits 1 (set_cache c p)).
  assert (Hq : core q = core (set_cache c p)) by (unfold q; by autorewrite with pacer_core).
  pose proof (core_write (packet_at (ownedPackets q) i) f q) as Hw.
  destruct (writeOwnedPacket _ _ _) as [r ok]. cbn [fst] in Hw.
  destruct (negb ok); apply Hgo; autorewrite with pacer_core; congruence.
Qed.

Lemma prepare_spec it p w :
  let '(p', w', it') := prepareForwardItem it p w in
  harmless p p' ∧ owned it' = owned it ∧ enqueuedAt it' = enqueuedAt it ∧
  at_ w' = at_ w ∧ pending w' = pending w ∧ haveReleased w' = haveReleased w ∧
  lastReleasedExtSeq w' = lastReleasedExtSeq w.
Proof.
  unfold prepareForwardItem. destruct (Translator.translateAt _ _ _ _) as [[t pkt] r].
  destruct (Unwrapper.unwrap _ _) as [u ext]. split_and!; try done.
  eapply harmless_trans; [|apply core_harmless, core_add_if; split; discriminate].
  split_and!; try done.
  - unfold sizes_ok. cbn. by rewrite length_set_packet.
  - intros l. apply owned_set_packet.
Qed.

Lemma take_item_spec p w p' w' :
  take_item p w = Some (p', w') →
  ∃ it rest it', queue p = it :: rest ∧ harmless (set_queue rest p) p' ∧
    owned it' = owned it ∧ enqueuedAt it' = enqueuedAt it ∧
    pending w' = pending w ++ [it'] ∧ at_ w' = at_ w ∧ haveReleased w' = haveReleased w ∧
    lastReleasedExtSeq w' = lastReleasedExtSeq w.
Proof.
  unfold take_item. destruct (queue p) as [|it rest] eqn:Hq; [done|].
  pose proof (prepare_spec it (set_queue rest p) w) as Hp.
  destruct (prepareForwardItem it (set_queue rest p) w) as [[p1 w1] it1].
  destruct Hp as (H1 & H2 & H3 & H4 & H5 & H6 & H7). intros [= <- <-].
  exists it, rest, it1. cbn. rewrite H5. by split_and!.
Qed.

Lemma take_item_none p w : take_item p w = None → queue p = [].
Proof.
  unfold take_item. destruct (queue p) as [|it rest]; [done|].
  by destruct (prepareForwardItem _ _ _) as [[p1 w1] it1].
Qed.

(** *** The invariant *)

Definition held (t : producer) : list nat :=
  match pstate t with PSend it => [owned it] | _ => [] end.
Definition active (t : producer) : Z := match pstate t with PIdle => 0 | _ => 1 end.
Definition counting (t : producer) : Z := match pstate t with PCount => 1 | _ => 0 end.

(** Who holds a slot: the queue, the worker, the cache and the producers that
    have not sent yet. *)
Definition owners (s : system) : list nat :=
  (owned <$> queue (pc s)) ++ (owned <$> pending (wk s)) ++ Cache.cache_owned (cache (pc s)) ++
  (producers s ≫= held).

Definition gate_closed (st : stopper_state) : bool :=
  match st with SIdle | SGate => false | _ => true end.
Definition joined (st : stopper_state) : bool :=
  match st with SWait | SDrain | SDone => true | _ => false end.
Definition drained (st : stopper_state) : bool :=
  match st with SDrain | SDone => true | _ => false end.

Definition phase_ok (p : pacer) (w : worker) : Prop :=
  match at_ w with
  | Select => pending w = []
  | Drain => pending w ≠ []
  | Gap | Release => pending w ≠ [] ∧ Sorted by_ext (pending w)
  | Wait d => pending w ≠ [] ∧ Sorted by_ext (pending w) ∧ in_gap w = true ∧
              d = gapStartedAt (pending w) + defaultForwardReorderWaitMs
  | Exited => pending w = [] ∧ Cache.cache_owned (cache p) = []
  end.

Record inv (s : system) : Prop := mkInv {
  inv_few : Z.of_nat (length (producers s)) < 2 ^ 63;
  inv_owners : owned_by (ownedPackets (pc s)) (owners s);
  inv_sizes : sizes_ok (pc s);
  inv_bounds : (length (queue (pc s)) <= defaultPacerCapacity)%nat ∧
               (length (pending (wk s)) <= pendingCapacity)%nat ∧
               (length (nacks (pc s)) <= defaultPacerCapacity)%nat;
  inv_count : u64 (counters (pc s) enqueuedCount + sumZ (counting <$> producers s)) =
              u64 (counters (pc s) completedCount +
                   Z.of_nat (length (queue (pc s)) + length (pending (wk s))));
  inv_gate : enqueueState (pc s) =
             sumZ (active <$> producers s) + (if gate_closed (stopper s) then 2 ^ 63 else 0);
  inv_phase : phase_ok (pc s) (wk s);
  inv_joined : joined (stopper s) = true → sumZ (active <$> producers s) = 0;
  inv_done : doneClosed (pc s) = joined (stopper s);
  inv_exit : at_ (wk s) = Exited ↔ workerDone (pc s) = true;
  inv_exited : at_ (wk s) = Exited → joined (stopper s) = true;
  inv_drained : drained (stopper s) = true → workerDone (pc s) = true;
  inv_stopped : stopper s = SDone → queue (pc s) = [] }.

Lemma active_bounds l : 0 <= sumZ (active <$> l) <= Z.of_nat (length l).
Proof.
  induction l as [|t l IH]; [done|]. rewrite fmap_cons, sumZ_cons. cbn [length].
  assert (0 <= active t <= 1) by (unfold active; destruct (pstate t); lia). lia.
Qed.

Lemma active_le l i t : l !! i = Some t → active t <= sumZ (active <$> l).
Proof.
  intros Hi. pose proof (sumZ_fmap_insert active l i t (mkProducer PIdle [] []) Hi) as H.
  pose proof (active_bounds (<[i := mkProducer PIdle [] []]> l)). change (active (mkProducer _ _ _)) with 0 in H. lia.
Qed.

(** A producer's step leaves the worker, the cache and the stopper alone. *)
Lemma inv_producer_frame s i t p' t' :
  inv s → producers s !! i = Some t →
  (∀ l, owned_by (ownedPackets (pc s)) ((owned <$> queue (pc s)) ++ held t ++ l) →
        owned_by (ownedPackets p') ((owned <$> queue p') ++ held t' ++ l)) →
  length (ownedPackets p') = length (ownedPackets (pc s)) → cache p' = cache (pc s) →
  nacks p' = nacks (pc s) → doneClosed p' = doneClosed (pc s) → workerDone p' = workerDone (pc s) →
  (length (queue p') <= defaultPacerCapacity)%nat → (queue p' = queue (pc s) ∨ active t = 1) →
  counters p' completedCount = counters (pc s) completedCount →
  u64 (counters p' enqueuedCount + counting t' + Z.of_nat (length (queue (pc s)))) =
    u64 (counters (pc s) enqueuedCount + counting t + Z.of_nat (length (queue p'))) →
  enqueueState p' = enqueueState (pc s) + active t' - active t →
  (active t' <= active t ∨ gate_closed (stopper s) = false) →
  inv (mkSystem p' (wk s) (<[i := t']> (producers s)) (nackers s) (stopper s)).
Proof.
  intros [Hfew Hown [Hsz1 Hsz2] (Hq & Hp & Hn) Hcnt Hgate Hph Hj Hd Hex1 Hex2 Hdr Hst]
    Hi Hslots Hlen Hcache Hnacks Hdone Hwd Hql Hqs Hcomp Henq Hes Hact.
  assert (Hsum : sumZ (active <$> <[i := t']> (producers s)) = sumZ (active <$> producers s) - active t + active t')
    by by apply sumZ_fmap_insert.
  assert (Hle : active t <= sumZ (active <$> producers s)) by by eapply active_le.
  pose proof (active_bounds (<[i := t']> (producers s))) as Hab.
  constructor; cbn [pc wk producers nackers stopper]; try rewrite ?Hdone, ?Hwd; try done.
  - by rewrite length_insert.
  - unfold owners in *. cbn [pc wk producers]. rewrite Hcache.
    destruct (bind_insert_split held (producers s) i t Hi) as (rest & H1 & H2). rewrite H2.
    eapply owned_perm; [|apply (Hslots ((owned <$> pending (wk s)) ++ Cache.cache_owned (cache (pc s)) ++ rest))].
    + solve_Permutation.
    + eapply owned_perm; [|exact Hown]. rewrite H1. solve_Permutation.
  - split; congruence.
  - by rewrite Hnacks.
  - rewrite (sumZ_fmap_insert counting _ _ _ _ Hi), Hcomp.
    generalize dependent (sumZ (counting <$> producers s)). intros z Hcnt.
    generalize dependent (counting t). generalize dependent (counting t'). intros. ilia.
  - lia.
  - unfold phase_ok in *. by rewrite Hcache.
  - intros Hjt. specialize (Hj Hjt). assert (gate_closed (stopper s) = true) by by destruct (stopper s).
    destruct Hact as [?|?]; [lia|congruence].
  - intros Hsd. destruct Hqs as [->|Hat]; [auto|].
    rewrite Hsd in Hj. specialize (Hj eq_refl). lia.
Qed.
Lemma gate_test a (closed : bool) :
  0 <= a < 2 ^ 63 →
  (Z.land (a + if closed then 2 ^ 63 else 0) pacerAdmissionClosed =? 0) = negb closed.
Proof.
  intros Ha. change pacerAdmissionClosed with (2 ^ 63).
  assert (Htest : Z.testbit (a + if closed then 2 ^ 63 else 0) 63 = closed).
  { rewrite Z.testbit_eqb by lia. destruct closed.
    - replace ((a + 2 ^ 63) / 2 ^ 63) with 1; [done|]. change (2 ^ 63) with 9223372036854775808 in *. ilia.
    - rewrite Z.add_0_r, Z.div_small by lia. done. }
  set (x := a + _) in *. clearbody x.
  assert (Hland : Z.land x (2 ^ 63) = if closed then 2 ^ 63 else 0).
  { apply Z.bits_inj'. intros n Hn. rewrite Z.land_spec, Z.pow2_bits_eqb by lia.
    destruct (Z.eqb_spec 63 n) as [<-|Hne].
    - rewrite Htest. destruct closed; [by rewrite Z.pow2_bits_true|done].
    - rewrite andb_false_r. destruct closed; [by rewrite Z.pow2_bits_false by lia|by rewrite Z.bits_0]. }
  rewrite Hland. by destruct closed.
Qed.

Lemma gate_close a : 0 <= a < 2 ^ 63 → Z.lor a pacerAdmissionClosed = a + 2 ^ 63.
Proof.
  intros Ha. change pacerAdmissionClosed with (1 * 2 ^ 63). rewrite Z.lor_comm, lor_disjoint by lia. lia.
Qed.

Lemma gate_active a : 0 <= a < 2 ^ 63 → Z.land (a + 2 ^ 63) (Z.lnot pacerAdmissionClosed) = a.
Proof.
  intros Ha. rewrite <- gate_close by done. apply Z.bits_inj'. intros n Hn.
  rewrite Z.land_spec, Z.lnot_spec, Z.lor_spec by done. change pacerAdmissionClosed with (2 ^ 63).
  rewrite Z.pow2_bits_eqb by lia. destruct (Z.eqb_spec 63 n) as [<-|Hne].
  - by rewrite orb_true_r, Z.testbit_eqb, Z.div_small by lia.
  - by rewrite orb_false_r, andb_true_r.
Qed.

Lemma add_stat_enq c n p : statistic c → counters (add c n p) enqueuedCount = counters p enqueuedCount.
Proof. intros [? ?]. unfold add. cbn. by rewrite fn_lookup_insert_ne. Qed.

Lemma add_stat_comp c n p : statistic c → counters (add c n p) completedCount = counters p completedCount.
Proof. intros [? ?]. unfold add. cbn. by rewrite fn_lookup_insert_ne. Qed.

Lemma inv_producer s i now t :
  inv s → producers s !! i = Some t →
  let '(p, t') := producer_step now (pc s) t in
  inv (mkSystem p (wk s) (<[i := t']> (producers s)) (nackers s) (stopper s)).
Proof.
  intros Hinv Hi. pose proof (inv_few _ Hinv) as Hfew. pose proof (inv_gate _ Hinv) as Hgate.
  pose proof (inv_bounds _ Hinv) as (Hq & _ & _).
  pose proof (active_bounds (producers s)) as Hab. pose proof (active_le _ _ _ Hi) as Hle.
  destruct t as [st calls_ ret]. unfold producer_step. cbn [pstate calls returned].
  destruct st as [|a|a start_ off|it| |r].
  - destruct calls_ as [|a calls_].
    { by apply (inv_producer_frame s i _ (pc s) _ Hinv Hi); try done; auto; cbn; lia. }
    rewrite Hgate, gate_test by lia. rewrite negb_involutive.
    destruct (gate_closed (stopper s)) eqn:Hg.
    { by apply (inv_producer_frame s i _ (pc s) _ Hinv Hi); try done; auto; cbn; lia. }
    apply (inv_producer_frame s i _ _ _ Hinv Hi); try done; cbn; auto.
    rewrite Hgate. change (active _) with 0. change (active _) with 1. ilia.
  - destruct (negb _); apply (inv_producer_frame s i _ _ _ Hinv Hi); try done; cbn; auto; lia.
  - destruct (_ <=? off)%nat.
    { apply (inv_producer_frame s i _ _ _ Hinv Hi); try done; cbn; auto; try lia; by rewrite ?fn_lookup_insert_ne. }
    destruct (ownedPackets (pc s) !! _) as [[[] pkt]|] eqn:Hslot.
    1, 3: apply (inv_producer_frame s i _ _ _ Hinv Hi); try done; cbn; auto; lia.
    apply (inv_producer_frame s i _ _ _ Hinv Hi); try done; cbn; auto; try lia.
    + intros l Hl. eapply owned_perm; [|eapply owned_claim; [exact Hslot|done|exact Hl]]. solve_Permutation.
    + apply length_claim.
  - destruct (_ <? defaultPacerCapacity)%nat eqn:Hlt.
    + apply Nat.ltb_lt in Hlt. apply (inv_producer_frame s i _ _ _ Hinv Hi); try done; cbn; auto.
      * intros l. rewrite fmap_app. cbn. intros Hl. eapply owned_perm; [|exact Hl]. solve_Permutation.
      * rewrite length_app. cbn. lia.
      * rewrite length_app. cbn. f_equal. lia.
      * lia.
      * left. lia.
    + apply (inv_producer_frame s i _ _ _ Hinv Hi); try done; cbn; auto; try lia; try (by rewrite ?fn_lookup_insert_ne).
      * intros l Hl. apply owned_release. eapply owned_perm; [|exact Hl]. solve_Permutation.
      * apply length_release.
  - set (p1 := add enqueuedCount 1 (pc s)).
    assert (Hmax : core (observeAtomicMax queuePeak
      (u64 (counters p1 enqueuedCount - Z.min (counters p1 enqueuedCount) (counters p1 completedCount))) p1) = core p1)
      by (apply core_max; split; discriminate).
    apply core_slots in Hmax as Hs. apply core_channels in Hmax.
    destruct Hs as (H1 & H2 & H3), Hmax as (H4 & H5 & H6 & H7 & H8 & H9).
    set (p2 := observeAtomicMax _ _ p1) in *. clearbody p2. unfold p1 in *. cbn in H1, H2, H4, H5, H6, H7, H8.
    unfold add in H3. cbn in H3. rewrite fn_lookup_insert_ne in H3 by done.
    unfold add in H9. cbn in H9. rewrite fn_lookup_insert in H9.
    apply (inv_producer_frame s i _ _ _ Hinv Hi); try done; cbn; try congruence; auto.
    + rewrite H9, H4. ilia.
    + lia.
    + left. lia.
  - apply (inv_producer_frame s i _ _ _ Hinv Hi); try done; cbn; auto.
    + change (active (mkProducer (PLeave r) calls_ ret)) with 1 in *.
      rewrite Hgate. destruct (gate_closed (stopper s)); ilia.
    + left. unfold active. cbn. lia.
Qed.

(** Steps that leave owners, channels and counts alone. *)
Lemma inv_same s p' nk :
  inv s → ownedPackets p' = ownedPackets (pc s) → queue p' = queue (pc s) →
  Cache.cache_owned (cache p') = Cache.cache_owned (cache (pc s)) → sizes_ok p' →
  enqueueState p' = enqueueState (pc s) → doneClosed p' = doneClosed (pc s) →
  workerDone p' = workerDone (pc s) → counters p' enqueuedCount = counters (pc s) enqueuedCount →
  counters p' completedCount = counters (pc s) completedCount →
  (length (nacks p') <= defaultPacerCapacity)%nat →
  inv (mkSystem p' (wk s) (producers s) nk (stopper s)).
Proof.
  intros [Hfew Hown Hsz (Hq & Hp & Hn) Hcnt Hgate Hph Hj Hd Hex1 Hex2 Hdr Hst] H1 H2 H3 H4 H5 H6 H7 H8 H9 H10.
  constructor; cbn [pc wk producers nackers stopper]; rewrite ?H1, ?H2, ?H5, ?H6, ?H7, ?H8, ?H9; try done.
  - unfold owners in *. cbn [pc wk producers]. by rewrite H2, H3.
  - unfold phase_ok in *. destruct (at_ (wk s)); try done. by rewrite H3.
Qed.

Lemma inv_nacker s i t :
  inv s → nackers s !! i = Some t →
  let '(p, t') := nacker_step (pc s) t in
  inv (mkSystem p (wk s) (producers s) (<[i := t']> (nackers s)) (stopper s)).
Proof.
  intros Hinv Hi. pose proof (inv_sizes _ Hinv) as Hsz. pose proof (inv_bounds _ Hinv) as (_ & _ & Hn).
  unfold nacker_step. destruct (nstate t) as [|seq].
  - destruct (requests t); by apply inv_same.
  - destruct (_ <? _)%nat eqn:Hlt.
    + apply Nat.ltb_lt in Hlt. apply inv_same; try done. cbn. rewrite length_app. cbn. lia.
    + apply inv_same; try done; cbn; by rewrite fn_lookup_insert_ne.
Qed.

Lemma inv_rtt s rtt :
  inv s →
  inv (mkSystem (set_cache (Cache.setRTT (cache (pc s)) rtt) (pc s)) (wk s) (producers s) (nackers s) (stopper s)).
Proof.
  intros Hinv. pose proof (inv_sizes _ Hinv) as Hsz. pose proof (inv_bounds _ Hinv) as (_ & _ & Hn).
  unfold Cache.setRTT. destruct (rtt >=? 0); by apply inv_same.
Qed.

Lemma inv_stopper s :
  inv s →
  let '(p, st) := stopper_step (pc s) (stopper s) in
  inv (mkSystem p (wk s) (producers s) (nackers s) st).
Proof.
  intros [Hfew Hown Hsz (Hq & Hp & Hn) Hcnt Hgate Hph Hj Hd Hex1 Hex2 Hdr Hst].
  pose proof (active_bounds (producers s)) as Hab. unfold stopper_step.
  destruct (stopper s) eqn:Hs; cbn [gate_closed joined drained] in *.
  - by constructor.
  - constructor; try done. cbn [pc producers stopper gate_closed enqueueState set_enqueueState].
    rewrite Hgate, Z.add_0_r. apply gate_close. lia.
  - rewrite Hgate, gate_active by lia. destruct (Z.eqb_spec (sumZ (active <$> producers s)) 0); by constructor.
  - destruct (workerDone (pc s)) eqn:Hw; constructor; try done; cbn; by rewrite ?Hw.
  - destruct (queue (pc s)) as [|it rest] eqn:Hqe; [constructor; try done; cbn; by rewrite ?Hqe|].
    destruct (add_completed_spec 1 (release it (set_queue rest (pc s)))) as (H1 & H2 & H3 & H4). cbv zeta in *.
    destruct H1 as (K1 & K2 & K3 & K4 & K5 & K6). set (p' := add _ _ _) in *. clearbody p'.
    cbn in H2, H3, H4, K1, K2, K3, K4, K5, K6.
    constructor; cbn [pc wk producers nackers stopper joined drained gate_closed];
      rewrite ?K1, ?K2, ?K3, ?K4, ?K5, ?K6; try done.
    + unfold owners in *. cbn [pc wk producers]. rewrite K1, H2, H3. apply owned_release. by rewrite Hqe in Hown.
    + unfold sizes_ok in *. by rewrite H2, H3, length_release.
    + split_and!; try done. cbn in Hq. lia.
    + rewrite H4. cbn [length] in Hcnt. rewrite Hcnt. ilia.
    + unfold phase_ok in *. by rewrite H3.
  - by constructor.
Qed.

Lemma inv_worker_frame s p' w' :
  inv s → at_ (wk s) ≠ Exited →
  (∀ l, owned_by (ownedPackets (pc s))
          ((owned <$> queue (pc s)) ++ (owned <$> pending (wk s)) ++ Cache.cache_owned (cache (pc s)) ++ l) →
        owned_by (ownedPackets p')
          ((owned <$> queue p') ++ (owned <$> pending w') ++ Cache.cache_owned (cache p') ++ l)) →
  sizes_ok p' → (length (queue p') <= defaultPacerCapacity)%nat →
  (length (pending w') <= pendingCapacity)%nat → (length (nacks p') <= defaultPacerCapacity)%nat →
  counters p' enqueuedCount = counters (pc s) enqueuedCount →
  u64 (counters p' completedCount + Z.of_nat (length (queue p') + length (pending w'))) =
    u64 (counters (pc s) completedCount + Z.of_nat (length (queue (pc s)) + length (pending (wk s)))) →
  enqueueState p' = enqueueState (pc s) → doneClosed p' = doneClosed (pc s) →
  phase_ok p' w' → (at_ w' = Exited ↔ workerDone p' = true) →
  (at_ w' = Exited → doneClosed (pc s) = true) →
  inv (mkSystem p' w' (producers s) (nackers s) (stopper s)).
Proof.
  intros [Hfew Hown Hsz (Hq & Hp & Hn) Hcnt Hgate Hph Hj Hd Hex1 Hex2 Hdr Hst]
    Hat H1 H2 H3 H4 H5 H6 H7 H8 H9 H10 H11 H12.
  assert (Hnw : workerDone (pc s) ≠ true) by by rewrite <- Hex1.
  constructor; cbn [pc wk producers nackers stopper]; rewrite ?H6, ?H8, ?H9; try done.
  - by apply H1.
  - by rewrite H7.
  - rewrite <- Hd. done.
  - intros Hdrn. by specialize (Hdr Hdrn).
  - intros Hs. rewrite Hs in Hdr. by specialize (Hdr eq_refl).
Qed.

Lemma cache_owned_clear c p : Cache.cache_owned (Cache.clear c p).1 = [].
Proof. unfold Cache.cache_owned. cbn. by induction (Cache.slots c). Qed.

Lemma inv_exit_step s :
  inv s → at_ (wk s) ≠ Exited → doneClosed (pc s) = true →
  inv (mkSystem (exit (pc s) (wk s)).1 (exit (pc s) (wk s)).2 (producers s) (nackers s) (stopper s)).
Proof.
  intros Hinv Hat Hdone. pose proof (inv_sizes _ Hinv) as [Hsz1 Hsz2].
  pose proof (inv_bounds _ Hinv) as (Hq & Hp & Hn). unfold exit.
  destruct (add_completed_spec (Z.of_nat (length (pending (wk s))))
    (set_ownedPackets (release_all (ownedPackets (pc s)) (owned <$> pending (wk s))) (pc s)))
    as (H1 & H2 & H3 & H4). cbv zeta in *.
  set (p1 := add _ _ _) in *. clearbody p1. destruct H1 as (K1 & K2 & K3 & K4 & K5 & K6).
  cbn in H2, H3, H4, K1, K2, K3, K4, K5, K6.
  pose proof (cache_owned_clear (cache p1) (ownedPackets p1)) as Hcl.
  pose proof (Cache.owned_clear (cache p1) (ownedPackets p1)) as Hoc.
  destruct (Cache.clear (cache p1) (ownedPackets p1)) as [c pl] eqn:Hclear. cbn [fst snd] in *.
  apply inv_worker_frame; cbn; rewrite ?K1, ?K2, ?K3, ?K4, ?K6; try done.
  - intros l Hl. rewrite Hcl. cbn. specialize (Hoc ((owned <$> queue (pc s)) ++ l)).
    rewrite Hcl in Hoc. apply Hoc. rewrite H2, H3. apply owned_release_all.
    eapply owned_perm; [|exact Hl]. solve_Permutation.
  - unfold Cache.clear in Hclear. injection Hclear as <- <-. unfold sizes_ok. cbn.
    by rewrite length_release_all, length_fmap, H2, H3, length_release_all.
  - unfold pendingCapacity. lia.
  - rewrite H4. ilia.
Qed.

Lemma inv_take s p' w' :
  inv s → at_ (wk s) ≠ Exited → (length (pending (wk s)) < pendingCapacity)%nat →
  take_item (pc s) (wk s) = Some (p', w') →
  ∀ ph pend, pend ≡ₚ pending w' →
  phase_ok p' (goto ph pend w') → ph ≠ Exited →
  inv (mkSystem p' (goto ph pend w') (producers s) (nackers s) (stopper s)).
Proof.
  intros Hinv Hat Hlt Htake ph pend Hpend Hph Hne.
  apply take_item_spec in Htake as (it & rest & it' & Hq0 & Hharm & Ho & _ & Hpw & _ & _ & _).
  pose proof (inv_sizes _ Hinv) as Hsz. pose proof (inv_bounds _ Hinv) as (Hq & Hp & Hn).
  destruct Hharm as ((K1 & K2 & K3 & K4 & K5 & K6) & H2 & H3 & H4 & H5). cbn in K1, K2, K3, K4, K5, K6, H2, H3, H5.
  assert (Hlen : length pend = S (length (pending (wk s)))).
  { rewrite Hpend, Hpw, length_app. cbn. lia. }
  apply inv_worker_frame; cbn [goto pending at_]; rewrite ?K1, ?K2, ?K3, ?K4, ?K5, ?K6; try done.
  - intros l Hl. rewrite H3. apply H5. eapply owned_perm; [|exact Hl].
    rewrite Hq0, Hpend, Hpw. rewrite fmap_app. cbn. rewrite Ho. solve_Permutation.
  - by apply H4.
  - rewrite Hq0 in Hq. cbn in Hq. lia.
  - lia.
  - rewrite Hlen, Hq0, H2. cbn [length]. f_equal. lia.
  - pose proof (inv_exit _ Hinv) as Hx. split; [done|]. intros Hwd. exfalso. apply Hat, Hx, Hwd.
Qed.

Lemma inv_phase_step s p' ph pend :
  inv s → at_ (wk s) ≠ Exited → core p' = core (pc s) → pend ≡ₚ pending (wk s) →
  phase_ok p' (goto ph pend (wk s)) → ph ≠ Exited →
  inv (mkSystem p' (goto ph pend (wk s)) (producers s) (nackers s) (stopper s)).
Proof.
  intros Hinv Hat Hcore Hpend Hph Hne. pose proof (inv_sizes _ Hinv) as Hsz.
  pose proof (inv_bounds _ Hinv) as (Hq & Hp & Hn).
  apply core_slots in Hcore as Hs. apply core_channels in Hcore as (K1 & K2 & K3 & K4 & K5 & K6).
  destruct Hs as (H1 & H2 & H3).
  apply inv_worker_frame; cbn [goto pending at_]; rewrite ?K1, ?K2, ?K3, ?K4, ?K5, ?K6, ?H1, ?H2, ?H3; try done.
  - intros l. by rewrite Hpend.
  - unfold sizes_ok. by rewrite H1, H2.
  - by rewrite Hpend.
  - by rewrite Hpend.
  - pose proof (inv_exit _ Hinv) as Hx. split; [done|]. intros Hwd. exfalso. apply Hat, Hx, Hwd.
Qed.

Lemma inv_nack_step s now f ph p' :
  inv s → at_ (wk s) ≠ Exited → take_nack now f (pc s) = Some p' → ph ≠ Exited →
  phase_ok p' (goto ph (pending (wk s)) (wk s)) →
  inv (mkSystem p' (goto ph (pending (wk s)) (wk s)) (producers s) (nackers s) (stopper s)).
Proof.
  intros Hinv Hat Htake Hne Hph. pose proof (inv_sizes _ Hinv) as Hsz.
  pose proof (inv_bounds _ Hinv) as (Hq & Hp & Hn). unfold take_nack in Htake.
  destruct (nacks (pc s)) as [|seq rest] eqn:Hnk; [done|]. injection Htake as <-.
  destruct (retransmit_harmless seq now f (set_nacks rest (pc s))) as (Hch & H2 & H3 & H4 & H5). cbv zeta in *.
  destruct Hch as (K1 & K2 & K3 & K4 & K5 & K6). set (p' := retransmit _ _ _ _) in *. clearbody p'.
  cbn in H2, H3, H4, K1, K2, K3, K4, K5, K6.
  apply inv_worker_frame; cbn [goto pending at_]; rewrite ?K1, ?K2, ?K3, ?K4, ?K5, ?K6, ?H2, ?H3, ?H4; try done.
  - by apply H5.
  - cbn in Hn. lia.
  - pose proof (inv_exit _ Hinv) as Hx. split; [done|]. intros Hwd. exfalso. apply Hat, Hx, Hwd.
Qed.

Lemma goto_same w : goto (at_ w) (pending w) w = w.
Proof. by destruct w. Qed.

Lemma sort_nonempty l : l ≠ [] → sortPacedPacketsByExtendedSequence l ≠ [].
Proof.
  intros Hl Hs. apply Hl. apply Permutation_nil. rewrite <- Hs. apply sort_perm.
Qed.

Lemma phase_goto p ph pend w :
  phase_ok p (goto ph pend w) ↔
  match ph with
  | Select => pend = []
  | Drain => pend ≠ []
  | Gap | Release => pend ≠ [] ∧ Sorted by_ext pend
  | Wait d => pend ≠ [] ∧ Sorted by_ext pend ∧ in_gap (goto ph pend w) = true ∧
              d = gapStartedAt pend + defaultForwardReorderWaitMs
  | Exited => pend = [] ∧ Cache.cache_owned (cache p) = []
  end.
Proof. by destruct ph. Qed.

Lemma inv_release s it rest x :
  inv s → at_ (wk s) = Release → pending (wk s) = it :: rest →
  let '(p', o) := writeForwardItem it (output (wk s)) x (pc s) in
  ∀ tr u hr lr,
  inv (mkSystem p' (mkWorker (if (length rest =? 0)%nat then Select else Drain) rest tr u o hr lr)
         (producers s) (nackers s) (stopper s)).
Proof.
  intros Hinv Hat Hpend. pose proof (inv_sizes _ Hinv) as Hsz. pose proof (inv_bounds _ Hinv) as (Hq & Hp & Hn).
  pose proof (writeForwardItem_completes it (output (wk s)) x (pc s)) as (Hch & Hcomp & Hsz' & Hown).
  destruct (writeForwardItem _ _ _ _) as [p' o]. cbn [fst] in *. intros tr u hr lr.
  destruct Hch as (K1 & K2 & K3 & K4 & K5 & K6).
  assert (Hne : at_ (wk s) ≠ Exited) by by rewrite Hat.
  apply inv_worker_frame; cbn [pending at_]; rewrite ?K1, ?K2, ?K3, ?K4, ?K5, ?K6; try done.
  - intros l Hl. rewrite Hpend in Hl. eapply owned_perm; [|apply (Hown ((owned <$> queue (pc s)) ++ (owned <$> rest) ++ l) Hsz)].
    + solve_Permutation.
    + eapply owned_perm; [|exact Hl]. cbn. solve_Permutation.
  - by apply Hsz'.
  - rewrite Hpend in Hp. cbn [length] in Hp. lia.
  - rewrite Hcomp, Hpend. cbn [length]. ilia.
  - unfold phase_ok. cbn. destruct rest; done.
  - pose proof (inv_exit _ Hinv) as Hx. split; [by destruct (_ =? _)%nat|].
    intros Hwd. exfalso. by apply Hne, Hx, Hwd.
  - by destruct (_ =? _)%nat.
Qed.

Lemma inv_worker s c p' w' :
  inv s → worker_step c (pc s) (wk s) = Some (p', w') →
  inv (mkSystem p' w' (producers s) (nackers s) (stopper s)).
Proof.
  intros Hinv Hstep. pose proof (inv_phase _ Hinv) as Hph. pose proof (inv_bounds _ Hinv) as (_ & Hp & _).
  unfold worker_step in Hstep. unfold phase_ok in Hph.
  destruct (at_ (wk s)) as [| | |d| |] eqn:Hat.
  - assert (Hne : at_ (wk s) ≠ Exited) by by rewrite Hat. destruct c as [|now f| | |]; try done.
    + destruct (doneClosed (pc s)) eqn:Hd; [|done]. apply (inj Some) in Hstep.
      pose proof (inv_exit_step s Hinv Hne Hd) as He. by rewrite Hstep in He.
    + destruct (take_nack now f (pc s)) as [q|] eqn:Hn; cbn in Hstep; [|done]. injection Hstep as <- <-.
      rewrite <- (goto_same (wk s)). eapply inv_nack_step; try done. by rewrite phase_goto, Hat.
    + destruct (take_item (pc s) (wk s)) as [[q v]|] eqn:Ht; cbn in Hstep; [|done]. injection Hstep as <- <-.
      eapply inv_take; try done; [rewrite Hph; cbn; unfold pendingCapacity; lia|].
      apply take_item_spec in Ht as (? & ? & ? & _ & _ & _ & _ & -> & _).
      rewrite phase_goto. by destruct (pending (wk s)).
  - assert (Hne : at_ (wk s) ≠ Exited) by by rewrite Hat. destruct c as [| | | |x]; try done.
    destruct (length (pending (wk s)) <? pendingCapacity)%nat eqn:Hlt.
    + destruct (take_item (pc s) (wk s)) as [[q v]|] eqn:Ht; injection Hstep as <- <-.
      * apply Nat.ltb_lt in Hlt. rewrite <- (goto_same v). eapply inv_take; try done.
        -- apply take_item_spec in Ht as (? & ? & ? & _ & _ & _ & _ & -> & -> & _).
           rewrite phase_goto, Hat. by destruct (pending (wk s)).
        -- apply take_item_spec in Ht as (? & ? & ? & _ & _ & _ & _ & _ & -> & _). done.
      * apply inv_phase_step; try done; [apply sort_perm|]. rewrite phase_goto.
        split; [by apply sort_nonempty|apply sort_sorted].
    + injection Hstep as <- <-. apply inv_phase_step; try done; [apply sort_perm|]. rewrite phase_goto.
      split; [by apply sort_nonempty|apply sort_sorted].
  - assert (Hne : at_ (wk s) ≠ Exited) by by rewrite Hat. destruct c as [| | | |x]; try done.
    destruct (negb (in_gap (wk s))) eqn:Hg; [injection Hstep as <- <-; by apply inv_phase_step|].
    destruct (_ <=? 0); injection Hstep as <- <-; apply inv_phase_step; try done;
      try (by autorewrite with pacer_core). rewrite phase_goto. split_and!; try apply Hph; [|done].
    apply negb_false_iff in Hg. unfold in_gap in *. done.
  - assert (Hne : at_ (wk s) ≠ Exited) by by rewrite Hat. destruct Hph as (Hpn & Hsorted & Hgap & ->).
    destruct c as [|now f| |now|]; try done.
    + destruct (doneClosed (pc s)) eqn:Hd; [|done]. apply (inj Some) in Hstep.
      pose proof (inv_exit_step s Hinv Hne Hd) as He. by rewrite Hstep in He.
    + destruct (take_nack now f (pc s)) as [q|] eqn:Hn; cbn in Hstep; [|done]. injection Hstep as <- <-.
      eapply inv_nack_step; done.
    + destruct (take_item (pc s) (wk s)) as [[q v]|] eqn:Ht; cbn in Hstep; [|done]. injection Hstep as <- <-.
      eapply inv_take; try done; [|apply sort_perm|].
      * unfold in_gap in Hgap. destruct (pending (wk s)); [done|]. bool_hyps. by apply Nat.ltb_lt.
      * rewrite phase_goto. split; [|apply sort_sorted]. apply sort_nonempty.
        apply take_item_spec in Ht as (? & ? & ? & _ & _ & _ & _ & -> & _). by destruct (pending (wk s)).
    + destruct (Before now _); [done|]. injection Hstep as <- <-. apply inv_phase_step; try done.
      destruct (_ >? 0); by autorewrite with pacer_core.
  - destruct c as [| | | |x]; try done. destruct (pending (wk s)) as [|it rest] eqn:Hpend; [done|].
    pose proof (inv_release s it rest x Hinv Hat Hpend) as Hr.
    destruct (writeForwardItem _ _ _ _) as [q o]. injection Hstep as <- <-. apply Hr.
  - by destruct c.
Qed.

Lemma pacer_inv_start enqueues reqs : Z.of_nat (length enqueues) < 2 ^ 63 → inv (start enqueues reqs).
Proof.
  intros Hfew. assert (Hact : sumZ (active <$> ((λ a, mkProducer PIdle a []) <$> enqueues)) = 0).
  { induction enqueues as [|a l IH]; [done|]. cbn [fmap list_fmap]. rewrite sumZ_cons. rewrite IH; [done|]. cbn in Hfew. lia. }
  assert (Hcnt : sumZ (counting <$> ((λ a, mkProducer PIdle a []) <$> enqueues)) = 0).
  { clear Hact. induction enqueues as [|a l IH]; [done|]. cbn [fmap list_fmap]. rewrite sumZ_cons. rewrite IH; [done|]. cbn in Hfew. lia. }
  assert (Hheld : ((λ a, mkProducer PIdle a []) <$> enqueues) ≫= held = []).
  { clear. induction enqueues; [done|]. done. }
  constructor; cbn [start pc wk producers nackers stopper]; try done.
  - by rewrite length_fmap.
  - unfold owners. cbn [start pc wk producers]. rewrite Hheld. split; [vm_compute; constructor|].
    intros i. split; [|intros Hi; vm_compute in Hi; by apply not_elem_of_nil in Hi].
    intros (s & Hs & Hc). cbn [ownedPackets new] in Hs. apply lookup_replicate in Hs as [-> _]. done.
  - split_and!; cbn; unfold defaultPacerCapacity, pendingCapacity; lia.
  - by rewrite Hcnt.
  - by rewrite Hact.
Qed.

Lemma pacer_inv_step s l s' : inv s → step s l = Some s' → inv s'.
Proof.
  intros Hinv. destruct l as [i now|i| |rtt|c]; cbn [step].
  - destruct (producers s !! i) as [t|] eqn:Hi; cbn; [|done]. pose proof (inv_producer s i now t Hinv Hi) as H.
    destruct (producer_step now (pc s) t). by intros [= <-].
  - destruct (nackers s !! i) as [t|] eqn:Hi; cbn; [|done]. pose proof (inv_nacker s i t Hinv Hi) as H.
    destruct (nacker_step (pc s) t). by intros [= <-].
  - pose proof (inv_stopper s Hinv) as H. destruct (stopper_step _ _). by intros [= <-].
  - intros [= <-]. by apply inv_rtt.
  - destruct (worker_step c (pc s) (wk s)) as [[p w]|] eqn:Hw; cbn; [|done]. intros [= <-]. by eapply inv_worker.
Qed.

Lemma pacer_inv_run s ls s' : inv s → run s ls = Some s' → inv s'.
Proof.
  revert s. induction ls as [|l ls IH]; intros s Hinv; cbn [run]; [by intros [= <-]|].
  destruct (step s l) as [s1|] eqn:Hs; cbn; [|done]. apply IH. by eapply pacer_inv_step.
Qed.

(** *** Properties of every run *)

(** C19: exclusive ownership under every interleaving of enqueuers, NACK
    handlers, the worker and [Stop]: each slot of the fixed pool is held by at
    most one of the queue, the worker's pending array, the retransmission cache
    and the producers between claim and send, and the claimed slots are exactly
    the held ones, so no slot leaks and none is reused while still referenced;
    queue, pending array and NACK channel stay within their capacities. *)
Theorem pacer_ownership enqueues reqs ls s :
  Z.of_nat (length enqueues) < 2 ^ 63 → run (start enqueues reqs) ls = Some s →
  NoDup (owners s) ∧ (∀ i, is_claimed (ownedPackets (pc s)) i ↔ i ∈ owners s) ∧
  (length (queue (pc s)) <= 32)%nat ∧ (length (pending (wk s)) <= 33)%nat ∧
  (length (nacks (pc s)) <= 32)%nat.
Proof.
  intros Hfew Hrun. pose proof (pacer_inv_run _ _ _ (pacer_inv_start enqueues reqs Hfew) Hrun) as Hinv.
  pose proof (inv_bounds _ Hinv) as (H1 & H2 & H3). destruct (inv_owners _ Hinv). by split_and!.
Qed.

(** C3: conservation: in every reachable state the packets counted as enqueued
    (with those sent but not counted yet) are the packets counted as completed
    plus those in the queue and in the pending array, modulo 2^64; so the queue
    depth the snapshot derives from the two counters is right whenever no
    producer is between send and count. *)
Theorem pacer_conservation enqueues reqs ls s :
  Z.of_nat (length enqueues) < 2 ^ 63 → run (start enqueues reqs) ls = Some s →
  u64 (counters (pc s) enqueuedCount + sumZ (counting <$> producers s)) =
  u64 (counters (pc s) completedCount + Z.of_nat (length (queue (pc s)) + length (pending (wk s)))).
Proof.
  intros Hfew Hrun. apply (inv_count s). exact (pacer_inv_run _ _ _ (pacer_inv_start enqueues reqs Hfew) Hrun).
Qed.

Lemma length_held l : Z.of_nat (length (l ≫= held)) <= sumZ (active <$> l).
Proof.
  induction l as [|t l IH]; [done|]. rewrite bind_cons, fmap_cons, sumZ_cons, length_app.
  assert (Z.of_nat (length (held t)) <= active t) by (unfold held, active; destruct (pstate t); cbn; lia).
  lia.
Qed.

(** The pool is large enough: as long as fewer than 32 packets are queued or
    being sent, a free slot exists, whatever the worker and the cache hold. *)
Theorem pool_sufficient enqueues reqs ls s :
  Z.of_nat (length enqueues) < 2 ^ 63 → run (start enqueues reqs) ls = Some s →
  (length (queue (pc s)) + length (producers s ≫= held) <= 31)%nat →
  ∃ i slot, ownedPackets (pc s) !! i = Some slot ∧ claimed slot = false.
Proof.
  intros Hfew Hrun Hlt. pose proof (pacer_inv_run _ _ _ (pacer_inv_start enqueues reqs Hfew) Hrun) as Hinv.
  destruct (inv_sizes _ Hinv) as [Hsz1 Hsz2]. pose proof (inv_bounds _ Hinv) as (H1 & H2 & H3).
  apply (owned_free _ (owners s)); [apply inv_owners; done|].
  pose proof (Cache.length_cache_owned (cache (pc s))) as Hc. rewrite Hsz2 in Hc.
  unfold owners. rewrite !length_app, !length_fmap, Hsz1.
  unfold ownedPacerPacketCount, pendingCapacity, defaultPacerCapacity, Cache.retransmissionCachePackets in *. lia.
Qed.

Lemma inv_stopped_released s :
  inv s → stopper s = SDone →
  sumZ (active <$> producers s) = 0 ∧ queue (pc s) = [] ∧ at_ (wk s) = Exited ∧
  (∀ i slot, ownedPackets (pc s) !! i = Some slot → claimed slot = false) ∧
  u64 (counters (pc s) enqueuedCount) = u64 (counters (pc s) completedCount).
Proof.
  intros [_ [Hnd Hcl] _ _ Hcnt _ Hph Hj Hd Hex1 Hex2 Hdr Hst] Hdone. rewrite Hdone in *.
  specialize (Hj eq_refl). specialize (Hst eq_refl). specialize (Hdr eq_refl).
  assert (Hat : at_ (wk s) = Exited) by by apply Hex1.
  unfold phase_ok in Hph. rewrite Hat in Hph. destruct Hph as [Hpend Hcache].
  pose proof (length_held (producers s)) as Hh.
  assert (Hnil : producers s ≫= held = []) by (apply length_zero_iff_nil; lia).
  assert (Hc0 : sumZ (counting <$> producers s) = 0).
  { clear -Hj. assert (∀ l, 0 <= sumZ (counting <$> l) <= sumZ (active <$> l)) as Hl; [|specialize (Hl (producers s)); lia].
    induction l as [|t l IH]; [done|]. rewrite !fmap_cons, !sumZ_cons.
    assert (0 <= counting t <= active t) by (unfold counting, active; destruct (pstate t); lia). lia. }
  split_and!; try done.
  - intros i slot Hi. apply not_true_is_false. intros Hc.
    assert (Hin : i ∈ owners s) by (apply Hcl; by exists slot).
    unfold owners in Hin. rewrite Hst, Hpend, Hcache, Hnil in Hin. by apply not_elem_of_nil in Hin.
  - rewrite Hc0, Hst, Hpend in Hcnt. cbn in Hcnt. by rewrite !Z.add_0_r in Hcnt.
Qed.

(** When [Stop] has returned, no producer is inside [EnqueueSource], the
    queue is empty, every slot of the pool is free and every enqueued packet has
    been counted as completed. *)
Theorem stop_releases_everything enqueues reqs ls s :
  Z.of_nat (length enqueues) < 2 ^ 63 → run (start enqueues reqs) ls = Some s →
  stopper s = SDone →
  sumZ (active <$> producers s) = 0 ∧ queue (pc s) = [] ∧ at_ (wk s) = Exited ∧
  (∀ i slot, ownedPackets (pc s) !! i = Some slot → claimed slot = false) ∧
  u64 (counters (pc s) enqueuedCount) = u64 (counters (pc s) completedCount).
Proof.
  intros Hfew Hrun. apply inv_stopped_released.
  exact (pacer_inv_run _ _ _ (pacer_inv_start enqueues reqs Hfew) Hrun).
Qed.

(** The packet that leaves next is ahead of a hole in the stream. *)
Definition ahead_of_gap (w : worker) (it : pacedPacket) : Prop :=
  haveReleased w = true ∧ lastReleasedExtSeq w + 1 < extSeq it.

Lemma gapStartedAt_le l t : gapStartedAt l <= t ↔ l = [] ∧ 0 <= t ∨ Exists (λ it, enqueuedAt it <= t) l.
Proof.
  destruct l as [|it rest]; cbn [gapStartedAt].
  { split; [by left|]. intros [[_ ?]|H]; [done|by inversion H]. }
  assert (Hgo : ∀ rest a, foldl (λ t it, if Before (enqueuedAt it) t then enqueuedAt it else t) a rest <= t ↔
                     a <= t ∨ Exists (λ it, enqueuedAt it <= t) rest).
  { clear. induction rest as [|x rest IH]; intros a; cbn [foldl].
    - split; [by left|]. intros [?|H]; [done|by inversion H].
    - rewrite IH, Exists_cons. unfold Before. destruct (Z.ltb_spec (enqueuedAt x) a);
        (split; [tauto|]); intros [?|[?|?]]; first [tauto | left; lia]. }
  rewrite Hgo, Exists_cons. split; [tauto|]. intros [[? _]|?]; [done|tauto].
Qed.

(** The reorder hold: in every reachable state the worker sends the pending
    packet with the lowest extended sequence number, and it sends one that leaves
    a hole behind the last packet sent only when the pending array is full or
    when, at that moment, some pending packet has been waiting for 40 ms. *)
Theorem gap_hold enqueues reqs ls s c p' w' :
  Z.of_nat (length enqueues) < 2 ^ 63 → run (start enqueues reqs) ls = Some s →
  worker_step c (pc s) (wk s) = Some (p', w') → at_ w' = Release →
  ∃ it rest, pending w' = it :: rest ∧ Forall (by_ext it) rest ∧
  (is_i64 (lastReleasedExtSeq w' + 1) → ahead_of_gap w' it →
   length (pending w') = 33%nat ∨
   ∃ now, (c = TakeTimer now ∨ ∃ x, c = Proceed x ∧ sinceAt x = now) ∧
     Exists (λ it, enqueuedAt it + 40 * Millisecond <= now) (pending w')).
Proof.
  intros Hfew Hrun Hstep Hrel. pose proof (pacer_inv_run _ _ _ (pacer_inv_start enqueues reqs Hfew) Hrun) as Hinv.
  pose proof (inv_worker s c p' w' Hinv Hstep) as Hinv'.
  pose proof (inv_phase _ Hinv') as Hph'. cbn [wk pc] in Hph'. unfold phase_ok in Hph'. rewrite Hrel in Hph'.
  destruct Hph' as [Hne Hsorted]. pose proof (inv_bounds _ Hinv') as (_ & Hlen' & _). cbn [wk] in Hlen'.
  destruct (pending w') as [|it rest] eqn:Hpend; [done|]. exists it, rest. split; [done|].
  apply Sorted_StronglySorted in Hsorted; [|intros a b d; unfold by_ext; lia].
  apply StronglySorted_cons in Hsorted as [Hmin _]. split; [done|]. intros Hfit [Hhr Hahead].
  destruct (decide (length (it :: rest) = 33%nat)) as [|Hnot]; [by left|right].
  assert (Hgap : in_gap w' = true).
  { unfold in_gap. rewrite Hpend, Hhr, i64_small by done. rewrite (proj2 (Z.gtb_lt _ _)) by lia.
    apply andb_true_intro. split; [done|]. apply Nat.ltb_lt. unfold pendingCapacity, defaultPacerCapacity in *. cbn [length] in *. lia. }
  assert (Hwait : ∀ now, gapStartedAt (it :: rest) + defaultForwardReorderWaitMs <= now →
    Exists (λ it, enqueuedAt it + 40 * Millisecond <= now) (it :: rest)).
  { intros now Hnow. unfold defaultForwardReorderWaitMs in Hnow.
    assert (Hg : gapStartedAt (it :: rest) <= now - 40 * Millisecond) by lia.
    apply gapStartedAt_le in Hg as [[? _]|Hg]; [done|]. eapply Exists_impl; [exact Hg|]. intros y Hy. cbn in Hy. lia. }
  pose proof (inv_phase _ Hinv) as Hph. unfold phase_ok in Hph. unfold worker_step in Hstep.
  destruct (at_ (wk s)) as [| | |d| |] eqn:Hat; destruct c as [|now f| |now|x]; try done.
  - destruct (doneClosed (pc s)); [|done]. injection Hstep as <- <-. done.
  - destruct (take_nack now f (pc s)); cbn in Hstep; simplify_eq/=. congruence.
  - by destruct (take_item (pc s) (wk s)) as [[? ?]|]; simplify_eq/=.
  - destruct (_ <? _)%nat; [|by simplify_eq/=].
    destruct (take_item (pc s) (wk s)) as [[? v]|] eqn:Ht; simplify_eq/=.
    apply take_item_spec in Ht as (?&?&?&_&_&_&_&_&Hv&_). congruence.
  - destruct (negb (in_gap (wk s))) eqn:Hg.
    + injection Hstep as <- <-. apply negb_true_iff in Hg.
      assert (in_gap (wk s) = true) by exact Hgap. congruence.
    + cbn in Hpend. destruct (_ <=? 0) eqn:Hw; injection Hstep as <- <-; [|done].
      exists (sinceAt x). split; [by eauto|]. apply Hwait. cbn in Hpend. rewrite Hpend in Hw.
      bool_hyps. unfold Sub, sat64, time_Add in Hw. unfold_ints. lia.
  - destruct (doneClosed (pc s)); [|done]. injection Hstep as <- <-. done.
  - by destruct (take_nack now f (pc s)); cbn in Hstep; simplify_eq/=.
  - by destruct (take_item (pc s) (wk s)) as [[? ?]|]; simplify_eq/=.
  - destruct Hph as (_ & _ & _ & ->). destruct (Before now _) eqn:Hb; [done|]. injection Hstep as <- <-.
    exists now. split; [by eauto|]. apply Hwait. cbn in Hpend. rewrite Hpend in Hb. unfold Before in Hb. bool_hyps. lia.
  - destruct (pending (wk s)); [done|]. destruct (writeForwardItem _ _ _ _). injection Hstep as <- <-. cbn in Hrel.
    by destruct (_ =? _)%nat.
Qed.

(** *** What goes on the wire *)

(** The documented behaviour of Pion's codec on one packet: marshalling writes
    the header, the payload and the padding in this order, and parsing the
    result restores the header. *)
Record codec_exact (pkt : Rtp.Packet) : Prop := {
  marshal_layout : ∃ header padding,
    Rtp.MarshalTo pkt = Some (header ++ Rtp.Payload pkt ++ padding) ∧
    len header = Rtp.HeaderMarshalSize pkt;
  unmarshal_header : ∀ scratch wire, Rtp.MarshalTo pkt = Some wire →
    Rtp.HeaderUnmarshal (Rtp.reset_lists scratch) (wire ++ [0]) =
    (Rtp.set_header pkt (Rtp.reset_lists scratch), Some (Rtp.HeaderMarshalSize pkt)) }.

Lemma scratch_copy_exact scratch pkt :
  codec_exact pkt → withinPacerPacketBounds pkt = true → scratch_copy scratch pkt = (pkt, true).
Proof.
  intros [(header & padding & Hm & Hh) Hu] Hb. unfold scratch_copy. rewrite Hb, Hm. cbn [negb].
  rewrite (Hu scratch _ Hm), Z.eqb_refl, <- Hh. cbn [negb orb].
  assert (Hlen : len header + len (Rtp.Payload pkt) <= len (header ++ Rtp.Payload pkt ++ padding)).
  { rewrite !len_app. pose proof (len_nonneg padding). lia. }
  rewrite Z.gtb_ltb, (proj2 (Z.ltb_ge _ _)) by lia.
  assert (slice (header ++ Rtp.Payload pkt ++ padding) (Z.to_nat (len header))
            (Z.to_nat (len header + len (Rtp.Payload pkt))) = Rtp.Payload pkt) as ->; [|by destruct pkt].
  unfold slice, len. rewrite <- Nat2Z.inj_add, !Nat2Z.id, drop_app_length.
  replace (length header + length (Rtp.Payload pkt) - length header)%nat with (length (Rtp.Payload pkt)) by lia.
  by rewrite take_app_length.
Qed.

Lemma log_add c n p : log (add c n p) = log p. Proof. done. Qed.
Lemma log_add_if b c p : log (add_if b c p) = log p. Proof. by destruct b. Qed.
Lemma log_store c v p : log (store c v p) = log p. Proof. done. Qed.
Lemma log_max c v p : log (observeAtomicMax c v p) = log p.
Proof. unfold observeAtomicMax. by destruct (_ >? _). Qed.
Lemma log_release it p : log (release it p) = log p. Proof. done. Qed.
Lemma log_pool x p : log (set_ownedPackets x p) = log p. Proof. done. Qed.
Lemma log_cache x p : log (set_cache x p) = log p. Proof. done. Qed.
Lemma log_hist1 x p : log (set_queueAgeHist x p) = log p. Proof. done. Qed.
Lemma log_hist2 x p : log (set_spacingHist x p) = log p. Proof. done. Qed.

#[local] Hint Rewrite log_add log_add_if log_store log_max log_release log_pool log_cache log_hist1
  log_hist2 : pacer_core.

Lemma log_write pkt f p :
  codec_exact pkt → withinPacerPacketBounds pkt = true →
  log (writeOwnedPacket pkt f p).1 = log p ++ [Wrote pkt f] ∧ (writeOwnedPacket pkt f p).2 = negb f.
Proof. intros Hc Hb. unfold writeOwnedPacket. by rewrite scratch_copy_exact. Qed.

Lemma log_output pkt o p : log (record_output pkt o p).1 = log p.
Proof. unfold record_output. destruct (haveOutput o); cbn [fst]; by autorewrite with pacer_core. Qed.

Lemma log_spacing n o p : log (record_spacing n o p).1 = log p.
Proof. unfold record_spacing. destruct (_ && _); cbn [fst]; by autorewrite with pacer_core. Qed.

Lemma packet_of_core p q it : core p = core q → packet_of p it = packet_of q it.
Proof. intros H. apply core_slots in H as (H & _). unfold packet_of. by rewrite H. Qed.

(** A packet that leaves the pending array within 120 ms of its arrival is
    shown to the observer and written once, exactly as it is in its slot apart
    from source padding, which is stripped from media; a packet that is older is
    not written at all. *)
Theorem forward_write_exact it o x p :
  let pkt := (stripSourceMediaPadding (packet_of p it)).1 in
  codec_exact pkt → withinPacerPacketBounds pkt = true →
  log (writeForwardItem it o x p).1 =
    log p ++ (if Sub (sinceAt x) (enqueuedAt it) >? 120 * Millisecond then []
              else [Observed pkt (captureTime it) (captureTimeKnown it); Wrote pkt (writeFails x)]).
Proof.
  intros pkt Hc Hb. unfold writeForwardItem. change (defaultPacerMaxQueueAge) with (120 * Millisecond).
  pose proof (core_age (Sub (sinceAt x) (enqueuedAt it)) p) as Hage.
  assert (Hlog0 : log (observe_age (Sub (sinceAt x) (enqueuedAt it)) p) = log p)
    by (unfold observe_age; by autorewrite with pacer_core).
  set (p0 := observe_age _ p) in *. clearbody p0.
  destruct (_ >? _); [cbn [fst]; autorewrite with pacer_core; by rewrite app_nil_r|].
  unfold strip_and_observe.
  assert (Hpk : packet_of (add_if (Rtp.Padding (packet_of p0 it)) paddingPacketCount p0) it = packet_of p it).
  { apply packet_of_core. by autorewrite with pacer_core. }
  rewrite Hpk. subst pkt. destruct (stripSourceMediaPadding (packet_of p it)) as [pkt st]. cbn [fst] in *.
  unfold timed_write.
  match goal with |- context [writeOwnedPacket pkt ?f ?q] => set (p1 := q);
    destruct (log_write pkt f p1 Hc Hb) as [Hlw Hok]; destruct (writeOwnedPacket pkt f p1) as [p2 ok] end.
  cbn [fst snd] in *. unfold p1 in Hlw. cbn [log log_event set_log] in Hlw. autorewrite with pacer_core in Hlw.
  rewrite Hlog0 in Hlw.
  replace (log p ++ [_; _]) with (log p2) by (rewrite Hlw; by rewrite <- app_assoc).
  destruct ok.
  - unfold keep_sent. destruct (Cache.storeOwned _ _ _) as [c pl].
    match goal with |- context [record_output pkt o ?q] => pose proof (log_output pkt o q) as Hlo;
      destruct (record_output pkt o q) as [p3 o3] end.
    cbn [fst] in Hlo. autorewrite with pacer_core in Hlo. destruct (Rtp.Padding pkt); [cbn [fst]; by autorewrite with pacer_core|].
    pose proof (log_spacing (UnixNano (sentAt x)) o3 (add completedCount 1 p3)) as Hls.
    destruct (record_spacing _ _ _) as [p4 o4]. cbn [fst] in *. autorewrite with pacer_core in Hls. congruence.
  - destruct (Rtp.Padding pkt); [cbn [fst]; by autorewrite with pacer_core|].
    match goal with |- context [record_spacing ?n ?o ?q] => pose proof (log_spacing n o q) as Hls;
      destruct (record_spacing n o q) as [p4 o4] end.
    cbn [fst] in *. autorewrite with pacer_core in *. done.
Qed.

(** A NACK is answered from the cache with the very packet that was sent
    under that sequence number, or not at all. *)
Theorem retransmit_exact seq now f p :
  (∀ i, codec_exact (packet_at (ownedPackets p) i) ∧
        withinPacerPacketBounds (packet_at (ownedPackets p) i) = true) →
  log (retransmit seq now f p) = log p ∨
  ∃ i, i ∈ Cache.cache_owned (cache p) ∧ Rtp.SequenceNumber (packet_at (ownedPackets p) i) = seq ∧
       log (retransmit seq now f p) = log p ++ [Wrote (packet_at (ownedPackets p) i) f].
Proof.
  intros Hex. unfold retransmit.
  destruct (Cache.load (cache p) (ownedPackets p) seq now) as [[[c pkt] hit] thr] eqn:Hl.
  destruct (negb hit); [left; by autorewrite with pacer_core|].
  destruct thr; [left; by autorewrite with pacer_core|].
  destruct pkt as [i|]; [|left; by autorewrite with pacer_core]. right. exists i.
  destruct (Hex i) as [Hc Hb].
  destruct (log_write (packet_at (ownedPackets p) i) f (add nackCacheHits 1 (set_cache c p)) Hc Hb) as [Hlw _].
  change (ownedPackets (add nackCacheHits 1 (set_cache c p))) with (ownedPackets p).
  destruct (writeOwnedPacket _ _ _) as [q ok]. cbn [fst] in Hlw. autorewrite with pacer_core in Hlw.
  split_and!; [| |destruct (negb ok); by autorewrite with pacer_core].
  - unfold Cache.load in Hl. destruct (Cache.slots (cache p) !! _) as [s|] eqn:Hs; [|done].
    destruct (Cache.owned s) as [j|] eqn:Ho; [|done]. repeat case_if; simplify_eq.
    apply list_elem_of_omap. exists s. split; [by eapply list_elem_of_lookup_2|done].
  - unfold Cache.load in Hl. destruct (Cache.slots (cache p) !! _) as [s|]; [|done].
    destruct (Cache.owned s) as [j|]; [|done]. repeat case_if; simplify_eq. by bool_hyps.
Qed.

End Pacer.

(** *** An example: three packets out of order, a NACK and a shutdown *)

(** A codec for packets without CSRCs and extensions. *)
#[local] Instance example_codec : Rtp.Codec := {|
  Rtp.MarshalSize p := 12 + len (Rtp.Payload p);
  Rtp.HeaderMarshalSize p := 12;
  Rtp.MarshalTo p :=
    Some ([Rtp.Version p; Rtp.PayloadType p] ++ be_split 2 (Rtp.SequenceNumber p) ++
          be_split 4 (Rtp.Timestamp p) ++ be_split 4 (Rtp.SSRC p) ++ Rtp.Payload p);
  Rtp.HeaderUnmarshal scratch wire :=
    (Rtp.mkPacket (nth 0 wire 0) false false false (nth 1 wire 0) (be_combine (slice wire 2 4))
       (be_combine (slice wire 4 8)) (be_combine (slice wire 8 12)) [] 0 [] (Rtp.Payload scratch)
       (Rtp.PaddingSize scratch), Some 12);
  Rtp.SetExtension id payload p := None |}.

Definition example_args (seq : Z) : arguments :=
  mkArgs (Rtp.media seq (960 * seq) [seq]) (Translator.sample_source 1) 0 false.

Definition example_start : system :=
  start [[example_args 10; example_args 12; example_args 11]] [[10]].

(** One whole [EnqueueSource]. *)
Definition enqueue (now : Z) : list label := replicate 6 (LProducer 0 now).

Definition clock (now : Z) : choice := Proceed (mkIo now now now now false).

Definition example_labels : list label :=
  enqueue 1000 ++ [LWorker TakeQueue] ++ replicate 3 (LWorker (clock 2000)) ++
  enqueue 20000000 ++ [LWorker TakeQueue] ++ replicate 2 (LWorker (clock 21000000)) ++
  [LNacker 0; LNacker 0; LWorker (TakeNack 22000000 false); LWorker (clock 22000000)] ++
  enqueue 25000000 ++ [LWorker TakeQueue] ++ replicate 2 (LWorker (clock 26000000)) ++
  replicate 3 (LWorker (clock 27000000)).

Definition stop_labels : list label := [LStop; LStop; LStop; LWorker TakeDone; LStop; LStop].

(** The sequence numbers written, in order. *)
Definition written (s : system) : list Z :=
  omap (λ e, match e with Wrote pkt false => Some (Rtp.SequenceNumber pkt) | _ => None end) (log (pc s)).

Lemma example_writes : written <$> run example_start example_labels = Some [10; 10; 11; 12].
Proof. vm_compute. reflexivity. Qed.

Lemma pacer_ownership_witness :
  ∃ s, run example_start example_labels = Some s ∧ NoDup (owners s).
Proof.
  destruct (run example_start example_labels) as [s|] eqn:Hrun; [|vm_compute in Hrun; discriminate].
  exists s. split; [reflexivity|].
  apply (pacer_ownership [[example_args 10; example_args 12; example_args 11]] [[10]] example_labels s);
    [reflexivity|exact Hrun].
Defined.

Lemma pacer_conservation_witness :
  ∃ s, run example_start example_labels = Some s ∧
  u64 (counters (pc s) enqueuedCount + sumZ (counting <$> producers s)) =
  u64 (counters (pc s) completedCount + Z.of_nat (length (queue (pc s)) + length (pending (wk s)))).
Proof.
  destruct (run example_start example_labels) as [s|] eqn:Hrun; [|vm_compute in Hrun; discriminate].
  exists s. split; [reflexivity|].
  apply (pacer_conservation [[example_args 10; example_args 12; example_args 11]] [[10]] example_labels s);
    [reflexivity|exact Hrun].
Defined.

Lemma pool_sufficient_witness :
  ∃ s, run example_start example_labels = Some s ∧
  ∃ i slot, ownedPackets (pc s) !! i = Some slot ∧ claimed slot = false.
Proof.
  destruct (run example_start example_labels) as [s|] eqn:Hrun; [|vm_compute in Hrun; discriminate].
  exists s. split; [reflexivity|].
  apply (pool_sufficient [[example_args 10; example_args 12; example_args 11]] [[10]] example_labels s);
    [reflexivity|exact Hrun|].
  assert (Hl : (λ s, (length (queue (pc s)) + length (producers s ≫= held))%nat) <$> run example_start example_labels = Some 0%nat)
    by (vm_compute; reflexivity).
  rewrite Hrun in Hl. injection Hl as Hl. rewrite Hl. lia.
Defined.

Lemma stop_releases_everything_witness :
  ∃ s, run example_start (example_labels ++ stop_labels) = Some s ∧ queue (pc s) = [] ∧
  u64 (counters (pc s) enqueuedCount) = u64 (counters (pc s) completedCount).
Proof.
  assert (Hd : stopper <$> run example_start (example_labels ++ stop_labels) = Some SDone)
    by (vm_compute; reflexivity).
  destruct (run example_start (example_labels ++ stop_labels)) as [s|] eqn:Hrun; [|discriminate].
  injection Hd as Hd. exists s. split; [reflexivity|].
  destruct (stop_releases_everything [[example_args 10; example_args 12; example_args 11]] [[10]]
    (example_labels ++ stop_labels) s) as (_ & H1 & _ & _ & H2); [reflexivity|exact Hrun|exact Hd|].
  split; [exact H1|exact H2].
Defined.

Lemma gap_hold_witness :
  ∃ s p' w' it rest, run example_start (take 30 example_labels) = Some s ∧
  worker_step (clock 26000000) (pc s) (wk s) = Some (p', w') ∧ pending w' = it :: rest ∧ Forall (by_ext it) rest.
Proof.
  assert (Hd : (λ s, at_ <$> (snd <$> worker_step (clock 26000000) (pc s) (wk s))) <$>
     run example_start (take 30 example_labels) = Some (Some Release)) by (vm_compute; reflexivity).
  destruct (run example_start (take 30 example_labels)) as [s|] eqn:Hrun; [|discriminate].
  injection Hd as Hd.
  destruct (worker_step (clock 26000000) (pc s) (wk s)) as [[p' w']|] eqn:Hw; [|discriminate].
  injection Hd as Hd.
  destruct (gap_hold [[example_args 10; example_args 12; example_args 11]] [[10]]
    (take 30 example_labels) s (clock 26000000) p' w') as (it & rest & H1 & H2 & _);
    [reflexivity|exact Hrun|exact Hw|exact Hd|].
  exists s, p', w', it, rest. split; [reflexivity|]. split; [exact Hw|]. split; [exact H1|exact H2].
Defined.

Lemma example_exact seq ts payload :
  is_u16 seq → is_u32 ts → codec_exact (Rtp.media seq ts payload).
Proof.
  intros Hs Ht. split.
  - exists ([2; 111] ++ be_split 2 seq ++ be_split 4 ts ++ be_split 4 7), []. split; [|reflexivity].
    cbn [Rtp.MarshalTo example_codec]. by rewrite app_nil_r, <- !app_assoc.
  - intros scratch wire [= <-]. cbn [Rtp.HeaderUnmarshal example_codec].
    do 2 f_equal. unfold slice. cbn [app take drop firstn skipn nth Nat.sub be_split].
    unfold Rtp.set_header, Rtp.media. cbn [Rtp.Version Rtp.Padding Rtp.Extension Rtp.Marker Rtp.PayloadType
      Rtp.SequenceNumber Rtp.Timestamp Rtp.SSRC Rtp.CSRC Rtp.ExtensionProfile Rtp.Extensions].
    f_equal.
    + apply (be_combine_split 2). ilia.
    + apply (be_combine_split 4). ilia.
Qed.

Definition example_pacer : pacer :=
  let pl := [mkOwned true (Rtp.media 700 960 [1])] in
  set_cache (Cache.storeOwned Cache.empty pl 0).1 (set_ownedPackets pl new).

Lemma forward_write_exact_witness :
  log (writeForwardItem (mkItem 0 0 700 no_source 5 true) (mkOutput false 0 0 0)
         (mkIo 1000 1000 1000 1000 false) example_pacer).1 =
  [Observed (Rtp.media 700 960 [1]) 5 true; Wrote (Rtp.media 700 960 [1]) false].
Proof.
  apply (forward_write_exact (mkItem 0 0 700 no_source 5 true) (mkOutput false 0 0 0)
    (mkIo 1000 1000 1000 1000 false) example_pacer).
  - apply (example_exact 700 960 [1]); split; vm_compute; congruence.
  - reflexivity.
Defined.

Lemma retransmit_exact_witness :
  log (retransmit 700 1000 false example_pacer) = [] ∨
  ∃ i, i ∈ Cache.cache_owned (cache example_pacer) ∧
       Rtp.SequenceNumber (packet_at (ownedPackets example_pacer) i) = 700 ∧
       log (retransmit 700 1000 false example_pacer) =
         [] ++ [Wrote (packet_at (ownedPackets example_pacer) i) false].
Proof.
  apply (retransmit_exact 700 1000 false example_pacer). intros [|i].
  - split; [apply (example_exact 700 960 [1]); split; vm_compute; congruence|reflexivity].
  - split; [|reflexivity]. split.
    + exists (replicate 12 0), []. by split.
    + intros scratch wire [= <-]. reflexivity.
Defined.

End Pacer.
