(* ===== verification/CadencePacer.v ===== *)
(** * CadencePacer: the downlink worker that schedules packets by media time

    Translates [run] and [waitUntil] of
    [internal/media/downlink/pacer_scheduler.go], the worker of an
    [AudioCadencePacer] with [paceMedia] on.  The shared state, the enqueuers, the
    NACK handlers and [Stop] are those of [Pacer]; only the worker differs.

    The clock is Go's monotonic clock: the system keeps the latest reading, and no
    step reads an earlier one. *)

From S2P Require Export Pacer.

Module CadencePacer.
Import Pool Items Pacer.

Definition defaultPacerInitialWait : Z := 10 * Millisecond.
Definition defaultPacerReorderWait : Z := 60 * Millisecond.

Section Worker.
Context `{codec : Rtp.Codec}.

(** The fields [reorderWait] and [observeTranslated != nil] of the pacer. *)
Context (reorderWait : Z) (observed : bool).

(** ** The worker *)

(** The locals of the loop body once a packet has its send time;
    [plan_spacing] is [mediaSpacingNs] where the code computes it. *)
Record plan := mkPlan {
  plan_item : pacedPacket;
  plan_due : Z;
  plan_primary : bool;
  plan_spacing : option Z }.

Inductive phase :=
| Select                      (* no packet pending *)
| Drain                       (* taking what the queue has *)
| Initial                     (* the condition of the loop [initialWait] *)
| InitialWait (deadline : Z)  (* its select *)
| Gap                         (* the condition of the loop [gapWait] *)
| GapWait (deadline : Z)      (* its select *)
| Release                     (* the first pending packet leaves the array *)
| Sleep (pl : plan)           (* the head of the loop of [waitUntil] *)
| SleepWait (pl : plan)       (* its select *)
| Send (pl : plan)
| Exited.

Record worker := mkWorker {
  at_ : phase;
  pending : list pacedPacket;
  forwarder : SequenceForwarder.sequenceForwarder;
  timeline : Cadence.cadenceTimeline;
  lastSendAtNs : Z;
  lastPrimaryWriteStartedAt : option Z }.   (* None: the zero time *)

Definition new_worker : worker :=
  mkWorker Select [] SequenceForwarder.fresh Cadence.newCadenceTimeline 0 None.

Definition goto (ph : phase) (pend : list pacedPacket) (w : worker) : worker :=
  mkWorker ph pend (forwarder w) (timeline w) (lastSendAtNs w) (lastPrimaryWriteStartedAt w).
Definition set_forwarder (f : SequenceForwarder.sequenceForwarder) (w : worker) : worker :=
  mkWorker (at_ w) (pending w) f (timeline w) (lastSendAtNs w) (lastPrimaryWriteStartedAt w).
Definition set_timeline (t : Cadence.cadenceTimeline) (w : worker) : worker :=
  mkWorker (at_ w) (pending w) (forwarder w) t (lastSendAtNs w) (lastPrimaryWriteStartedAt w).

(** The head of the loop: [pendingLen == 0] or not. *)
Definition continue (w : worker) : worker :=
  goto (if (length (pending w) =? 0)%nat then Select else Drain) (pending w) w.

(** The clock readings of a stretch of code without a select, oldest first, and
    the result of its write. *)
Record readings := mkReadings {
  read1 : Z;
  read2 : Z;
  started : Z;
  ended : Z;
  sent : Z;
  fails : bool }.

Inductive choice :=
| TakeDone
| TakeNack (now : Z) (failed : bool)
| TakeQueue
| TakeTimer (now : Z)
| Proceed (x : readings).

(** Receive the head of the queue into the pending array. *)
Definition take_item (p : pacer) (w : worker) : option (pacer * worker) :=
  match queue p with
  | [] => None
  | it :: rest =>
    let '(f, ext) := SequenceForwarder.unwrap (forwarder w) (Rtp.SequenceNumber (packet_of p it)) in
    Some (set_queue rest p, goto (at_ w) (pending w ++ [set_extSeq ext it]) (set_forwarder f w))
  end.

Definition room (w : worker) : bool := (length (pending w) <? pendingCapacity)%nat.

Definition has_gap (w : worker) : bool :=
  match pending w with
  | [] => false
  | it :: _ => SequenceForwarder.hasGap (forwarder w) (extSeq it)
  end.

(** [pending[0].enqueuedAt] *)
Definition first_enqueuedAt (w : worker) : Z :=
  match pending w with [] => zero_time | it :: _ => enqueuedAt it end.

(** The item is dropped: [item.release(); p.completedCount.Add(1)]. *)
Definition drop (it : pacedPacket) (p : pacer) : pacer := add completedCount 1 (release it p).

(** The send time of a packet that is to be forwarded. *)
Definition schedule (it : pacedPacket) (pkt : Rtp.Packet) (waitStarted : Z) (p : pacer) (w : worker)
  : pacer * worker * plan :=
  let timelineWasInitialized := Cadence.initialized (timeline w) in
  let previousDueAt := Cadence.lastDueAt (timeline w) in
  let '(t, dueAt, reset, advances) := Cadence.dueAt (timeline w) (Rtp.Timestamp pkt) (enqueuedAt it) in
  let p := add_if reset timelineResets p in
  let p := add_if (negb advances) recoveryPacketCount p in
  let '(dueAt, spacing) :=
    match lastPrimaryWriteStartedAt w with
    | Some last =>
      if timelineWasInitialized && advances && negb reset then
        let mediaSpacingNs := Sub dueAt previousDueAt in
        let minimumDueAt := time_Add last (Cadence.minimumCadenceSpacingNs mediaSpacingNs) in
        (if After minimumDueAt dueAt then minimumDueAt else dueAt, Some mediaSpacingNs)
      else (dueAt, None)
    | None => (dueAt, None)
    end in
  let requestedWait := Z.max (Sub dueAt waitStarted) 0 in
  (observeAtomicMax maxTimerWaitNs (u64 requestedWait) p, set_timeline t w, mkPlan it dueAt advances spacing).

(** The packet at the head of the pending array, up to the call of [waitUntil]. *)
Definition release_item (it : pacedPacket) (x : readings) (p : pacer) (w : worker) : pacer * worker :=
  let p := add_if (Rtp.Padding (packet_of p it)) paddingPacketCount p in
  let '(pkt, stripped) := stripSourceMediaPadding (packet_of p it) in
  let p := add_if stripped sourcePaddingStrippedCount p in
  let '(f, pkt, decision) := SequenceForwarder.release (forwarder w) pkt (extSeq it) in
  let p := set_ownedPackets (set_packet (ownedPackets p) (owned it) pkt) p in
  let w := set_forwarder f w in
  match decision with
  | SequenceForwarder.dropPadding => (drop it p, continue w)
  | SequenceForwarder.dropLate =>
    let p := add latePacketDropCount 1 p in
    let p := if Rtp.Padding pkt then add latePaddingDropCount 1 p else add lateMediaDropCount 1 p in
    (drop it p, continue w)
  | SequenceForwarder.forwardMedia =>
    if Sub (read1 x) (enqueuedAt it) >? defaultPacerMaxQueueAge then
      (drop it (add staleDrops 1 p), continue (set_timeline (Cadence.reset (timeline w)) w))
    else
      let '(p, w, pl) := schedule it pkt (read2 x) p w in
      (p, goto (Sleep pl) (pending w) w)
  end.

(** [p.sentCount.Add(1); p.retransmissionCache.storeOwned(item.owned)] *)
Definition keep (it : pacedPacket) (p : pacer) : pacer :=
  let p := add sentCount 1 p in
  let '(c, pl) := Cache.storeOwned (cache p) (ownedPackets p) (owned it) in
  set_ownedPackets pl (set_cache c p).

Definition spacing (nowNs : Z) (w : worker) (p : pacer) : pacer :=
  if negb (lastSendAtNs w =? 0) && (nowNs >? lastSendAtNs w) then
    let spacingNs := u64 (i64 (nowNs - lastSendAtNs w)) in
    let p := store lastSpacingNs spacingNs p in
    let p := set_spacingHist (Histogram.observe (spacingHist p) (i64 spacingNs)) p in
    observeAtomicMax maxSpacingNs spacingNs p
  else p.

(** The packet whose send time has come. *)
Definition send (pl : plan) (x : readings) (p : pacer) (w : worker) : pacer * worker :=
  let it := plan_item pl in
  let oversleep := Sub (read1 x) (plan_due pl) in
  let p := if oversleep >? 0 then observeAtomicMax maxTimerOversleepNs (u64 oversleep) p else p in
  let queueAgeNs := Sub (read2 x) (enqueuedAt it) in
  let p := observe_age queueAgeNs p in
  if queueAgeNs >? defaultPacerMaxQueueAge then
    (drop it (add staleDrops 1 p), continue (set_timeline (Cadence.reset (timeline w)) w))
  else
  let pkt := packet_of p it in
  let p := if observed then log_event (Observed pkt (captureTime it) (captureTimeKnown it)) p else p in
  let '(p, ok) := timed_write pkt (mkIo (read2 x) (started x) (ended x) (sent x) (fails x)) p in
  let p := add completedCount 1 (if ok : bool then keep it p else release it p) in
  if plan_primary pl then
    let nowNs := UnixNano (sent x) in
    (spacing nowNs w p, continue (mkWorker (at_ w) (pending w) (forwarder w) (timeline w) nowNs (Some (started x))))
  else (p, continue w).

(** The return of [run], with its deferred calls. *)
Definition exit (p : pacer) (w : worker) : pacer * worker :=
  let p := set_ownedPackets (release_all (ownedPackets p) (owned <$> pending w)) p in
  let p := add completedCount (Z.of_nat (length (pending w))) p in
  let '(c, pl) := Cache.clear (cache p) (ownedPackets p) in
  (set_workerDone true (set_ownedPackets pl (set_cache c p)), goto Exited [] w).

(** [waitUntil], at the head of its loop or in its select, and what [run] does with
    its result. *)
Definition waitUntil (c : choice) (pl : plan) (selecting : bool) (p : pacer) (w : worker) : option (pacer * worker) :=
  match selecting, c with
  | false, Proceed x =>
    if Sub (plan_due pl) (read1 x) <=? 0 then Some (p, goto (Send pl) (pending w) w)
    else Some (p, goto (SleepWait pl) (pending w) w)
  | true, TakeTimer now => if Before now (plan_due pl) then None else Some (p, goto (Send pl) (pending w) w)
  | true, TakeNack now failed => p' ← take_nack now failed p; Some (p', goto (Sleep pl) (pending w) w)
  | true, TakeDone => if doneClosed p then Some (exit (drop (plan_item pl) p) w) else None
  | _, _ => None
  end.

Definition worker_step (c : choice) (p : pacer) (w : worker) : option (pacer * worker) :=
  match at_ w, c with
  | Select, TakeDone | InitialWait _, TakeDone | GapWait _, TakeDone =>
    if doneClosed p then Some (exit p w) else None
  | Select, TakeNack now failed => p' ← take_nack now failed p; Some (p', w)
  | Select, TakeQueue => '(p', w') ← take_item p w; Some (p', goto Drain (pending w') w')
  | Drain, Proceed _ =>
    match room w, take_item p w with
    | true, Some (p', w') => Some (p', w')
    | _, _ => Some (p, goto Initial (sortPacedPacketsByExtendedSequence (pending w)) w)
    end
  | Initial, Proceed x =>
    let deadline := time_Add (first_enqueuedAt w) defaultPacerInitialWait in
    if negb (SequenceForwarder.haveReleased (forwarder w)) && room w && (Sub deadline (read1 x) >? 0)
    then Some (p, goto (InitialWait deadline) (pending w) w)
    else Some (p, goto Gap (pending w) w)
  | InitialWait _, TakeNack now failed => p' ← take_nack now failed p; Some (p', goto Initial (pending w) w)
  | InitialWait _, TakeQueue =>
    '(p', w') ← take_item p w; Some (p', goto Initial (sortPacedPacketsByExtendedSequence (pending w')) w')
  | InitialWait deadline, TakeTimer now => if Before now deadline then None else Some (p, goto Gap (pending w) w)
  | Gap, Proceed x =>
    let deadline := time_Add (first_enqueuedAt w) reorderWait in
    if has_gap w && room w && (Sub deadline (read1 x) >? 0) then Some (p, goto (GapWait deadline) (pending w) w)
    else Some (p, goto Release (pending w) w)
  | GapWait _, TakeNack now failed => p' ← take_nack now failed p; Some (p', goto Gap (pending w) w)
  | GapWait _, TakeQueue =>
    '(p', w') ← take_item p w; Some (p', goto Gap (sortPacedPacketsByExtendedSequence (pending w')) w')
  | GapWait deadline, TakeTimer now =>
    if Before now deadline then None else Some (add gapTimeoutCount 1 p, goto Release (pending w) w)
  | Release, Proceed x =>
    match pending w with
    | [] => None
    | it :: rest => Some (release_item it x p (goto Release rest w))
    end
  | Sleep pl, _ => waitUntil c pl false p w
  | SleepWait pl, _ => waitUntil c pl true p w
  | Send pl, Proceed x => Some (send pl x p w)
  | _, _ => None
  end.

(** ** The whole system *)

Record system := mkSystem {
  pc : pacer;
  wk : worker;
  producers : list producer;
  nackers : list nacker;
  stopper : stopper_state;
  clock : Z }.

Inductive label :=
| LProducer (i : nat) (now : Z)
| LNacker (i : nat)
| LStop
| LSetRTT (rtt : Z)
| LWorker (c : choice).

(** The readings of a step, in order. *)
Definition label_readings (l : label) : list Z :=
  match l with
  | LProducer _ now | LWorker (TakeNack now _) | LWorker (TakeTimer now) => [now]
  | LWorker (Proceed x) => [read1 x; read2 x; started x; ended x; sent x]
  | _ => []
  end.

Fixpoint advance (now : Z) (l : list Z) : option Z :=
  match l with
  | [] => Some now
  | t :: l' => if t <? now then None else advance t l'
  end.

Definition step (s : system) (l : label) : option system :=
  now ← advance (clock s) (label_readings l);
  match l with
  | LProducer i now' =>
    t ← producers s !! i;
    let '(p, t') := producer_step now' (pc s) t in
    Some (mkSystem p (wk s) (<[i := t']> (producers s)) (nackers s) (stopper s) now)
  | LNacker i =>
    t ← nackers s !! i;
    let '(p, t') := nacker_step (pc s) t in
    Some (mkSystem p (wk s) (producers s) (<[i := t']> (nackers s)) (stopper s) now)
  | LStop =>
    let '(p, st) := stopper_step (pc s) (stopper s) in
    Some (mkSystem p (wk s) (producers s) (nackers s) st now)
  | LSetRTT rtt =>
    Some (mkSystem (set_cache (Cache.setRTT (cache (pc s)) rtt) (pc s)) (wk s) (producers s) (nackers s) (stopper s) now)
  | LWorker c =>
    '(p, w) ← worker_step c (pc s) (wk s);
    Some (mkSystem p w (producers s) (nackers s) (stopper s) now)
  end.

Fixpoint run (s : system) (ls : list label) : option system :=
  match ls with
  | [] => Some s
  | l :: ls' => s' ← step s l; run s' ls'
  end.

(** A new pacer, at some time, with the calls its users are going to make. *)
Definition start (enqueues : list (list arguments)) (requests : list (list Z)) (now : Z) : system :=
  mkSystem new new_worker ((λ a, mkProducer PIdle a []) <$> enqueues) ((λ r, mkNacker NIdle r) <$> requests) SIdle now.

(** ** The invariant

    The worker seen as the worker of [Pacer]: what it holds is the pending array
    and the packet it is about to send. *)

Definition holding (w : worker) : list pacedPacket :=
  match at_ w with
  | Sleep pl | SleepWait pl | Send pl => plan_item pl :: pending w
  | _ => pending w
  end.

Definition view_worker (w : worker) : Pacer.worker :=
  Pacer.mkWorker
    (match at_ w with
     | Exited => Pacer.Exited
     | _ => if (length (holding w) =? 0)%nat then Pacer.Select else Pacer.Drain
     end) (holding w) Translator.fresh Unwrapper.fresh (mkOutput false 0 0 0) false 0.

Definition view (s : system) : Pacer.system :=
  Pacer.mkSystem (pc s) (view_worker (wk s)) (producers s) (nackers s) (stopper s).

Lemma view_phase_ok p w : at_ w ≠ Exited → phase_ok p (view_worker w).
Proof.
  intros Hw. unfold phase_ok, view_worker. cbn [Pacer.at_ Pacer.pending].
  destruct (at_ w); try done; by destruct (holding w).
Qed.

Lemma view_exited w : Pacer.at_ (view_worker w) = Pacer.Exited ↔ at_ w = Exited.
Proof. unfold view_worker. cbn. destruct (at_ w); try done; by destruct (_ =? _)%nat. Qed.

(** A step of the worker that completes the packets [out] and takes no other. *)
Lemma view_frame s p' w' now :
  inv (view s) → at_ (wk s) ≠ Exited → at_ w' ≠ Exited →
  (∀ l, owned_by (ownedPackets (pc s))
          ((owned <$> queue (pc s)) ++ (owned <$> holding (wk s)) ++ Cache.cache_owned (cache (pc s)) ++ l) →
        owned_by (ownedPackets p')
          ((owned <$> queue p') ++ (owned <$> holding w') ++ Cache.cache_owned (cache p') ++ l)) →
  sizes_ok p' → (length (queue p') <= defaultPacerCapacity)%nat →
  (length (holding w') <= pendingCapacity)%nat → (length (nacks p') <= defaultPacerCapacity)%nat →
  counters p' enqueuedCount = counters (pc s) enqueuedCount →
  u64 (counters p' completedCount + Z.of_nat (length (queue p') + length (holding w'))) =
    u64 (counters (pc s) completedCount + Z.of_nat (length (queue (pc s)) + length (holding (wk s)))) →
  enqueueState p' = enqueueState (pc s) → doneClosed p' = doneClosed (pc s) → workerDone p' = workerDone (pc s) →
  inv (view (mkSystem p' w' (producers s) (nackers s) (stopper s) now)).
Proof.
  intros Hinv Hat Hat' H1 H2 H3 H4 H5 H6 H7 H8 H9 H10.
  apply (inv_worker_frame (view s) p' (view_worker w')); try done.
  - by intros ?%view_exited.
  - by apply view_phase_ok.
  - rewrite H10, view_exited. split; [done|]. intros Hd. apply (inv_exit _ Hinv), view_exited in Hd. done.
  - by intros ?%view_exited.
Qed.

Lemma view_harmless s p' w' now :
  inv (view s) → at_ (wk s) ≠ Exited → at_ w' ≠ Exited → harmless (pc s) p' → holding w' ≡ₚ holding (wk s) →
  inv (view (mkSystem p' w' (producers s) (nackers s) (stopper s) now)).
Proof.
  intros Hinv Hat Hat' ((K1 & K2 & K3 & K4 & K5 & K6) & H2 & H3 & H4 & H5) Hp.
  pose proof (inv_sizes _ Hinv) as Hsz. pose proof (inv_bounds _ Hinv) as (Hq & Hh & Hn). cbn in Hq, Hh, Hn, Hsz.
  apply view_frame; rewrite ?K1, ?K2, ?K3, ?K4, ?K5, ?K6, ?H2; try done.
  - intros l Hl. rewrite H3, Hp. by apply H5.
  - by apply H4.
  - by rewrite Hp.
  - by rewrite Hp.
Qed.

Lemma view_completes s it p' w' now :
  inv (view s) → at_ (wk s) ≠ Exited → at_ w' ≠ Exited → completes (owned it) (pc s) p' →
  holding (wk s) ≡ₚ it :: holding w' →
  inv (view (mkSystem p' w' (producers s) (nackers s) (stopper s) now)).
Proof.
  intros Hinv Hat Hat' ((K1 & K2 & K3 & K4 & K5 & K6) & H2 & H3 & H4) Hp.
  pose proof (inv_sizes _ Hinv) as Hsz. pose proof (inv_bounds _ Hinv) as (Hq & Hh & Hn). cbn in Hq, Hh, Hn, Hsz.
  apply view_frame; rewrite ?K1, ?K2, ?K3, ?K4, ?K5, ?K6, ?H2; try done.
  - intros l Hl. eapply owned_perm; [|apply (H4 ((owned <$> queue (pc s)) ++ (owned <$> holding w') ++ l) Hsz)].
    + solve_Permutation.
    + eapply owned_perm; [|exact Hl]. rewrite Hp. cbn. solve_Permutation.
  - by apply H3.
  - rewrite Hp in Hh. unfold pendingCapacity, defaultPacerCapacity in *. cbn in Hh. lia.
  - rewrite Hp. cbn [length]. ilia.
Qed.

Lemma view_take s p' w1 w' now :
  inv (view s) → at_ (wk s) ≠ Exited → at_ w' ≠ Exited → holding (wk s) = pending (wk s) → room (wk s) = true →
  take_item (pc s) (wk s) = Some (p', w1) → holding w' ≡ₚ pending w1 →
  inv (view (mkSystem p' w' (producers s) (nackers s) (stopper s) now)).
Proof.
  intros Hinv Hat Hat' Hhold Hroom Htake Hp. apply Nat.ltb_lt in Hroom.
  pose proof (inv_sizes _ Hinv) as Hsz. pose proof (inv_bounds _ Hinv) as (Hq & Hh & Hn). cbn in Hq, Hh, Hn, Hsz.
  unfold take_item in Htake. destruct (queue (pc s)) as [|it rest] eqn:Hqe; [done|].
  destruct (SequenceForwarder.unwrap _ _) as [f ext]. injection Htake as <- <-. cbn in Hp, Hq.
  apply view_frame; cbn [queue set_queue nacks]; try done.
  - intros l Hl. eapply owned_perm; [|exact Hl]. cbn. rewrite Hhold, Hp, Hqe, fmap_app. cbn. solve_Permutation.
  - unfold defaultPacerCapacity in *. lia.
  - rewrite Hp, length_app. unfold pendingCapacity, defaultPacerCapacity in *. cbn. lia.
  - cbn. rewrite Hhold, Hp, Hqe, length_app. cbn [length]. f_equal. lia.
Qed.

Lemma view_nack s t f p' w' now :
  inv (view s) → at_ (wk s) ≠ Exited → at_ w' ≠ Exited → take_nack t f (pc s) = Some p' →
  holding w' = holding (wk s) →
  inv (view (mkSystem p' w' (producers s) (nackers s) (stopper s) now)).
Proof.
  intros Hinv Hat Hat' Htake Hp.
  pose proof (inv_sizes _ Hinv) as Hsz. pose proof (inv_bounds _ Hinv) as (Hq & Hh & Hn). cbn in Hq, Hh, Hn, Hsz.
  unfold take_nack in Htake. destruct (nacks (pc s)) as [|seq rest] eqn:Hnk; [done|]. injection Htake as <-.
  destruct (retransmit_harmless seq t f (set_nacks rest (pc s))) as (Hch & H2 & H3 & H4 & H5). cbv zeta in *.
  destruct Hch as (K1 & K2 & K3 & K4 & K5 & K6). set (p' := retransmit _ _ _ _) in *. clearbody p'.
  cbn in H2, H3, H4, K1, K2, K3, K4, K5, K6, Hn.
  apply view_frame; rewrite ?K1, ?K2, ?K3, ?K4, ?K5, ?K6, ?H2, ?H3, ?H4, ?Hp; try done; [by apply H5|lia].
Qed.

(** The return of the worker, from a state in which it holds its pending array. *)
Lemma view_exit s now :
  inv (view s) → at_ (wk s) ≠ Exited → holding (wk s) = pending (wk s) → doneClosed (pc s) = true →
  inv (view (mkSystem (exit (pc s) (wk s)).1 (exit (pc s) (wk s)).2 (producers s) (nackers s) (stopper s) now)).
Proof.
  intros Hinv Hat Hhold Hd. pose proof (inv_exit_step (view s) Hinv) as H.
  assert (Hne : Pacer.at_ (view_worker (wk s)) ≠ Pacer.Exited) by by rewrite view_exited.
  specialize (H Hne Hd). revert H. unfold exit, Pacer.exit. cbn [view Pacer.pc Pacer.wk view_worker Pacer.pending].
  rewrite Hhold. by destruct (Cache.clear _ _).
Qed.

(** *** One packet *)

#[local] Hint Rewrite core_log core_queueAgeHist core_spacingHist core_writeScratch : pacer_core.
#[local] Hint Rewrite core_add core_store core_max core_add_if using (split; discriminate) : pacer_core.

Lemma harmless_set_packet it pkt p :
  harmless p (set_ownedPackets (set_packet (ownedPackets p) (owned it) pkt) p).
Proof.
  split_and!; try done.
  - unfold sizes_ok. cbn. by rewrite length_set_packet.
  - intros l. apply owned_set_packet.
Qed.

Lemma drop_completes it p q : harmless p q → completes (owned it) p (drop it q).
Proof. intros H. eapply harmless_completes; [exact H|]. apply (release_completes it q). Qed.

Lemma keep_completes it p : completes (owned it) p (add completedCount 1 (keep it p)).
Proof.
  pose proof (sent_completes it Rtp.zero (mkOutput false 0 0 0) p) as H. unfold keep_sent, keep in *.
  by destruct (Cache.storeOwned _ _ _).
Qed.

Lemma continue_ok w : at_ (continue w) = (if (length (pending w) =? 0)%nat then Select else Drain) ∧
  at_ (continue w) ≠ Exited ∧ holding (continue w) = pending w ∧ pending (continue w) = pending w.
Proof. unfold continue, holding. cbn. by destruct (_ =? _)%nat. Qed.

(** The minimum spacing that a plan was made for. *)
Definition planned (pl : plan) (w : worker) : Prop :=
  ∀ m, plan_spacing pl = Some m →
  ∃ last, lastPrimaryWriteStartedAt w = Some last ∧ last + Cadence.minimumCadenceSpacingNs m <= plan_due pl.

Lemma schedule_spec it pkt t p w :
  let '(p', w', pl) := schedule it pkt t p w in
  core p' = core p ∧ pending w' = pending w ∧ lastPrimaryWriteStartedAt w' = lastPrimaryWriteStartedAt w ∧
  plan_item pl = it ∧ planned pl w'.
Proof.
  unfold schedule. destruct (Cadence.dueAt _ _ _) as [[[tl due] rs] adv].
  destruct (lastPrimaryWriteStartedAt w) as [last|] eqn:Hl; [destruct (_ && _)|];
    cbn; (split_and!; [by autorewrite with pacer_core|done..|]); intros m [= <-].
  exists last. split; [done|]. cbn. unfold After, time_Add. case_if; lia.
Qed.

Lemma release_item_spec it x p w :
  let '(p', w') := release_item it x p w in
  lastPrimaryWriteStartedAt w' = lastPrimaryWriteStartedAt w ∧ pending w' = pending w ∧
  (completes (owned it) p p' ∧ (at_ w' = if (length (pending w) =? 0)%nat then Select else Drain) ∨
   ∃ pl, at_ w' = Sleep pl ∧ plan_item pl = it ∧ planned pl w' ∧ harmless p p').
Proof.
  unfold release_item. set (p1 := add_if _ paddingPacketCount p).
  destruct (stripSourceMediaPadding _) as [pkt st]. set (p2 := add_if st _ p1).
  destruct (SequenceForwarder.release _ _ _) as [[f pkt'] dec]. set (p3 := set_ownedPackets _ p2).
  assert (H3 : harmless p p3).
  { eapply harmless_trans; [|apply harmless_set_packet]. apply core_harmless. unfold p2, p1. by autorewrite with pacer_core. }
  clearbody p3. clear p1 p2.
  assert (Hstat : ∀ q, core q = core p3 → harmless p q).
  { intros q Hq. eapply harmless_trans; [exact H3|by apply core_harmless]. }
  destruct dec.
  - case_if.
    + split_and!; [done|done|left]. split; [|done]. apply drop_completes, Hstat. by autorewrite with pacer_core.
    + pose proof (schedule_spec it pkt' (read2 x) p3 (set_forwarder f w)) as Hs.
      destruct (schedule _ _ _ _ _) as [[p4 w4] pl]. destruct Hs as (H4 & H5 & H6 & H7 & H8).
      split_and!; [done|done|right]. exists pl. split_and!; [done|done|exact H8|by apply Hstat].
  - split_and!; [done|done|left]. split; [|done]. by apply drop_completes.
  - split_and!; [done|done|left]. split; [|done]. apply drop_completes, Hstat.
    destruct (Rtp.Padding pkt'); by autorewrite with pacer_core.
Qed.

(** A packet is written, or dropped because it is too old. *)
Lemma send_spec pl x p w :
  let '(p', w') := send pl x p w in
  completes (owned (plan_item pl)) p p' ∧ pending w' = pending w ∧
  (at_ w' = if (length (pending w) =? 0)%nat then Select else Drain) ∧
  (lastPrimaryWriteStartedAt w' = lastPrimaryWriteStartedAt w ∨ lastPrimaryWriteStartedAt w' = Some (started x)) ∧
  (log p' ≠ log p → Sub (read2 x) (enqueuedAt (plan_item pl)) <= defaultPacerMaxQueueAge).
Proof.
  unfold send. set (p1 := if _ >? 0 then _ else p).
  assert (H1 : core p1 = core p) by (unfold p1; case_if; by autorewrite with pacer_core).
  assert (L1 : log p1 = log p) by (unfold p1; case_if; by rewrite ?log_max). clearbody p1.
  set (p2 := observe_age _ p1). assert (H2 : core p2 = core p) by (unfold p2; by rewrite core_age).
  assert (L2 : log p2 = log p) by (unfold p2, observe_age; by rewrite log_max). clearbody p2.
  case_if.
  { split_and!; [|done|done|by left|].
    - apply drop_completes, core_harmless. by autorewrite with pacer_core.
    - intros Hl. exfalso. apply Hl. by rewrite <- L2. }
  set (p3 := if observed then _ else p2). assert (H3 : core p3 = core p) by (unfold p3; by destruct observed).
  clearbody p3. pose proof (core_timed (packet_of p2 (plan_item pl))
    (mkIo (read2 x) (started x) (ended x) (sent x) (fails x)) p3) as H4.
  destruct (timed_write _ _ _) as [p4 ok]. cbn [fst] in H4.
  set (p5 := add completedCount 1 _). assert (H5 : completes (owned (plan_item pl)) p p5).
  { eapply harmless_completes; [by apply core_harmless; rewrite H4|]. unfold p5.
    destruct ok; [apply keep_completes|apply (release_completes _ p4)]. }
  clearbody p5. destruct (plan_primary pl); (split_and!; [|done|done|by (left + right)|lia]); [|done].
  eapply completes_harmless; [exact H5|]. apply core_harmless. unfold spacing. case_if; by autorewrite with pacer_core.
Qed.

(** *** Every step *)

(** What holds of the worker by itself at the time [now]. *)
Definition local_ok (w : worker) (now : Z) : Prop :=
  (∀ last, lastPrimaryWriteStartedAt w = Some last → last <= now) ∧
  match at_ w with
  | Select => pending w = []
  | Drain => pending w ≠ []
  | Initial | Gap | Release => pending w ≠ [] ∧ Sorted by_ext (pending w)
  | InitialWait _ | GapWait _ => pending w ≠ [] ∧ Sorted by_ext (pending w) ∧ room w = true
  | Sleep pl | SleepWait pl => planned pl w
  | Send pl => planned pl w ∧ plan_due pl <= now
  | Exited => pending w = []
  end.

Record cadence_inv (s : system) : Prop := mkCadenceInv {
  cadence_view : inv (view s);
  cadence_local : local_ok (wk s) (clock s) }.

Lemma advance_le now l now' : advance now l = Some now' → now <= now' ∧ Forall (λ t, now <= t <= now') l.
Proof.
  revert now. induction l as [|t l IH]; intros now; cbn [advance]; [intros [= <-]; by split; [lia|constructor]|].
  destruct (Z.ltb_spec t now); [done|]. intros [H1 H2]%IH. split; [lia|]. constructor; [lia|].
  eapply Forall_impl; [exact H2|]. cbn. lia.
Qed.

Lemma local_ok_later w now now' : now <= now' → local_ok w now → local_ok w now'.
Proof.
  intros Hle [H1 H2]. split; [intros last Hl; specialize (H1 last Hl); lia|].
  destruct (at_ w); try done. destruct H2. split; [done|lia].
Qed.

Lemma take_item_facts p w p' w' :
  take_item p w = Some (p', w') →
  pending w' ≠ [] ∧ at_ w' = at_ w ∧ lastPrimaryWriteStartedAt w' = lastPrimaryWriteStartedAt w.
Proof.
  unfold take_item. destruct (queue p); [done|]. destruct (SequenceForwarder.unwrap _ _). intros [= <- <-].
  split_and!; [|done..]. cbn. by destruct (pending w).
Qed.

Lemma sub_due due now : Sub due now <= 0 → due <= now.
Proof. unfold Sub, sat64. unfold_ints. lia. Qed.

(** The kinds of step: only statistics and the place of the worker change; the
    worker returns; a NACK is answered; a packet is received. *)
Lemma idle_step s p' ph pend now :
  inv (view s) → at_ (wk s) ≠ Exited → ph ≠ Exited → core p' = core (pc s) →
  holding (goto ph pend (wk s)) ≡ₚ holding (wk s) → local_ok (goto ph pend (wk s)) now →
  cadence_inv (mkSystem p' (goto ph pend (wk s)) (producers s) (nackers s) (stopper s) now).
Proof. intros ????? Hl. split; [|exact Hl]. apply view_harmless; try done. by apply core_harmless. Qed.

Lemma exit_step s now p' w' :
  inv (view s) → at_ (wk s) ≠ Exited → holding (wk s) = pending (wk s) →
  (∀ last, lastPrimaryWriteStartedAt (wk s) = Some last → last <= now) →
  (if doneClosed (pc s) then Some (exit (pc s) (wk s)) else None) = Some (p', w') →
  cadence_inv (mkSystem p' w' (producers s) (nackers s) (stopper s) now).
Proof.
  intros Hv Hat Hh Hlast Hs. destruct (doneClosed (pc s)) eqn:Hd; [|done]. apply (inj Some) in Hs.
  pose proof (view_exit s now Hv Hat Hh Hd) as He. split; [by rewrite Hs in He|].
  revert Hs. unfold exit. destruct (Cache.clear _ _). by intros [= <- <-].
Qed.

Lemma nack_step s t f ph now p' w' :
  inv (view s) → at_ (wk s) ≠ Exited → ph ≠ Exited → holding (goto ph (pending (wk s)) (wk s)) = holding (wk s) →
  local_ok (goto ph (pending (wk s)) (wk s)) now →
  (q ← take_nack t f (pc s); Some (q, goto ph (pending (wk s)) (wk s))) = Some (p', w') →
  cadence_inv (mkSystem p' w' (producers s) (nackers s) (stopper s) now).
Proof.
  intros Hv Hat Hph Hh Hl Hs. destruct (take_nack t f (pc s)) as [q|] eqn:Hn; [|done]. injection Hs as <- <-.
  split; [|exact Hl]. by eapply view_nack.
Qed.

(** The phases after a packet has been received. *)
Definition receiving (ph : phase) : bool := match ph with Drain | Initial | Gap => true | _ => false end.

Lemma receive_step s p1 w1 ph pend now :
  inv (view s) → at_ (wk s) ≠ Exited → holding (wk s) = pending (wk s) → room (wk s) = true →
  (∀ last, lastPrimaryWriteStartedAt (wk s) = Some last → last <= now) →
  take_item (pc s) (wk s) = Some (p1, w1) →
  (ph = Drain ∧ pend = pending w1 ∨ (ph = Initial ∨ ph = Gap) ∧ pend = sortPacedPacketsByExtendedSequence (pending w1)) →
  cadence_inv (mkSystem p1 (goto ph pend w1) (producers s) (nackers s) (stopper s) now).
Proof.
  intros Hv Hat Hh Hr Hlast Ht Hp. destruct (take_item_facts _ _ _ _ Ht) as (F1 & F2 & F3). split.
  - eapply view_take; [done|done| |done|done|done|].
    + by destruct Hp as [[-> _]|[[->| ->] _]].
    + destruct Hp as [[-> ->]|[[->| ->] ->]]; cbn; [done|apply sort_perm..].
  - split; [cbn; by rewrite F3|]. destruct Hp as [[-> ->]|[[->| ->] ->]]; cbn; [done|..];
      (split; [by apply sort_nonempty|apply sort_sorted]).
Qed.

Lemma release_step s x now p' w' :
  inv (view s) → at_ (wk s) = Release → (∀ last, lastPrimaryWriteStartedAt (wk s) = Some last → last <= now) →
  match pending (wk s) with
  | [] => None
  | it :: rest => Some (release_item it x (pc s) (goto Release rest (wk s)))
  end = Some (p', w') →
  cadence_inv (mkSystem p' w' (producers s) (nackers s) (stopper s) now).
Proof.
  intros Hv Hat Hlast Hstep. assert (Hne : at_ (wk s) ≠ Exited) by (by rewrite Hat).
  assert (Hhold : holding (wk s) = pending (wk s)) by (unfold holding; by rewrite Hat).
  destruct (pending (wk s)) as [|it rest] eqn:Hpend; [done|].
  pose proof (release_item_spec it x (pc s) (goto Release rest (wk s))) as Hr.
  destruct (release_item _ _ _ _) as [q v]. injection Hstep as <- <-. cbn [pending goto lastPrimaryWriteStartedAt] in Hr.
  destruct Hr as (R1 & R2 & [[R3 R4]|(pl & R3 & R4 & R5 & R6)]).
  + split; [eapply view_completes; [done|done| |done|]|].
    * cbn in R4. rewrite R4. by destruct (length rest =? 0)%nat.
    * rewrite Hhold. unfold holding. rewrite R2, R4. by destruct (length rest =? 0)%nat.
    * split; cbn [wk clock]; [by rewrite R1|]. rewrite R2, R4. by destruct rest.
  + split; [apply view_harmless; try done; [by rewrite R3|]|].
    * rewrite Hhold. unfold holding. by rewrite R2, R3, R4.
    * split; cbn [wk clock]; [by rewrite R1|]. by rewrite R3.
Qed.

Lemma sleep_done_step s pl now p' w' :
  inv (view s) → at_ (wk s) = SleepWait pl → (∀ last, lastPrimaryWriteStartedAt (wk s) = Some last → last <= now) →
  (if doneClosed (pc s) then Some (exit (drop (plan_item pl) (pc s)) (wk s)) else None) = Some (p', w') →
  cadence_inv (mkSystem p' w' (producers s) (nackers s) (stopper s) now).
Proof.
  intros Hv Hat Hlast Hstep. assert (Hne : at_ (wk s) ≠ Exited) by (by rewrite Hat).
  assert (Hhold : holding (wk s) = plan_item pl :: pending (wk s)) by (unfold holding; by rewrite Hat).
  destruct (doneClosed (pc s)) eqn:Hd; [|done]. apply (inj Some) in Hstep.
  assert (Hc : completes (owned (plan_item pl)) (pc s) (drop (plan_item pl) (pc s)))
    by (apply drop_completes; by apply core_harmless).
  set (s1 := mkSystem (drop (plan_item pl) (pc s)) (goto Release (pending (wk s)) (wk s)) (producers s) (nackers s)
               (stopper s) now).
  apply (exit_step s1); try done.
  + eapply view_completes; try done. by rewrite Hhold.
  + assert (doneClosed (pc s1) = true) as -> by done. by rewrite <- Hstep.
Qed.

Lemma send_step s pl x now p' w' :
  inv (view s) → at_ (wk s) = Send pl → (∀ last, lastPrimaryWriteStartedAt (wk s) = Some last → last <= now) →
  clock s <= started x <= now → send pl x (pc s) (wk s) = (p', w') →
  cadence_inv (mkSystem p' w' (producers s) (nackers s) (stopper s) now).
Proof.
  intros Hv Hat Hlast Hread Hstep. assert (Hne : at_ (wk s) ≠ Exited) by (by rewrite Hat).
  assert (Hhold : holding (wk s) = plan_item pl :: pending (wk s)) by (unfold holding; by rewrite Hat).
  pose proof (send_spec pl x (pc s) (wk s)) as Hs. rewrite Hstep in Hs.
  destruct Hs as (S1 & S2 & S3 & S4 & _). split.
  + eapply view_completes; try done; [by rewrite S3; destruct (_ =? _)%nat|].
    rewrite Hhold. unfold holding. rewrite S2, S3. by destruct (length (pending (wk s)) =? 0)%nat.
  + split; cbn [wk clock].
    * intros last. destruct S4 as [->| ->]; [exact (Hlast last)|]. intros [= <-]. lia.
    * rewrite S2, S3. by destruct (pending (wk s)).
Qed.

Lemma cadence_worker s c p' w' now :
  cadence_inv s → advance (clock s) (label_readings (LWorker c)) = Some now →
  worker_step c (pc s) (wk s) = Some (p', w') →
  cadence_inv (mkSystem p' w' (producers s) (nackers s) (stopper s) now).
Proof.
  intros [Hv Hl] Hnow Hstep. apply advance_le in Hnow as [Hle Hread].
  apply (local_ok_later _ _ now Hle) in Hl. destruct Hl as [Hlast Hph].
  assert (Hhold : holding (wk s) = match at_ (wk s) with
    | Sleep pl | SleepWait pl | Send pl => plan_item pl :: pending (wk s) | _ => pending (wk s) end) by done.
  unfold worker_step, waitUntil in Hstep.
  destruct (at_ (wk s)) as [| | |d| |d| |pl|pl|pl|] eqn:Hat; destruct c as [|t f| |t|x]; try done;
    assert (Hne : at_ (wk s) ≠ Exited) by (by rewrite Hat).
  - by apply exit_step.
  - apply (nack_step s t f Select now); try done.
    assert (goto Select (pending (wk s)) (wk s) = wk s) as -> by (rewrite <- Hat; by destruct (wk s)). done.
  - destruct (take_item (pc s) (wk s)) as [[q v]|] eqn:Ht; [|done]. injection Hstep as <- <-.
    apply receive_step; try done; [by unfold room; rewrite Hph|by left].
  - assert (Hsort : cadence_inv (mkSystem (pc s) (goto Initial (sortPacedPacketsByExtendedSequence (pending (wk s))) (wk s))
                      (producers s) (nackers s) (stopper s) now)).
    { apply idle_step; try done; [rewrite Hhold; apply sort_perm|].
      split; [done|]. split; [by apply sort_nonempty|apply sort_sorted]. }
    destruct (room (wk s)) eqn:Hr; [|by injection Hstep as <- <-].
    destruct (take_item (pc s) (wk s)) as [[q v]|] eqn:Ht; injection Hstep as <- <-; [|done].
    destruct (take_item_facts _ _ _ _ Ht) as (_ & F2 & _).
    assert (v = goto Drain (pending v) v) as -> by (rewrite <- Hat, <- F2; by destruct v).
    apply receive_step; try done. by left.
  - case_if; injection Hstep as <- <-; apply idle_step; try done; try (by rewrite Hhold).
    split; [done|]. bool_hyps. destruct Hph. cbn [at_ goto pending]. by split_and!.
  - by apply exit_step.
  - apply (nack_step s t f Initial now); try done. split; [done|]. split; apply Hph.
  - destruct (take_item (pc s) (wk s)) as [[q v]|] eqn:Ht; [|done]. injection Hstep as <- <-.
    apply receive_step; try done; [apply Hph|right; auto].
  - destruct (Before t d); [done|]. injection Hstep as <- <-.
    apply idle_step; try done; [by rewrite Hhold|]. split; [done|]. split; apply Hph.
  - case_if; injection Hstep as <- <-; apply idle_step; try done; try (by rewrite Hhold).
    split; [done|]. bool_hyps. destruct Hph. cbn [at_ goto pending]. by split_and!.
  - by apply exit_step.
  - apply (nack_step s t f Gap now); try done. split; [done|]. split; apply Hph.
  - destruct (take_item (pc s) (wk s)) as [[q v]|] eqn:Ht; [|done]. injection Hstep as <- <-.
    apply receive_step; try done; [apply Hph|right; auto].
  - destruct (Before t d); [done|]. injection Hstep as <- <-.
    apply idle_step; try done; [by rewrite Hhold|].
    split; [done|]. split; apply Hph.
  - by eapply release_step.
  - destruct (Z.leb_spec (Sub (plan_due pl) (read1 x)) 0) as [Hd|]; injection Hstep as <- <-.
    + apply idle_step; try done; [by rewrite Hhold|]. split; [done|]. split; [done|].
      apply sub_due in Hd. apply Forall_cons in Hread as [? _]. lia.
    + apply idle_step; try done. by rewrite Hhold.
  - by eapply sleep_done_step.
  - apply (nack_step s t f (Sleep pl) now); try done.
  - unfold Before in Hstep. destruct (Z.ltb_spec t (plan_due pl)) as [|Hd]; [done|]. injection Hstep as <- <-.
    apply idle_step; try done; [by rewrite Hhold|]. split; [done|]. split; [done|].
    apply Forall_cons in Hread as [? _]. lia.
  - eapply send_step; [done..| |by injection Hstep]. rewrite Forall_forall in Hread. apply Hread. cbn. set_solver.
Qed.

Lemma cadence_inv_start enqueues reqs now :
  Z.of_nat (length enqueues) < 2 ^ 63 → cadence_inv (start enqueues reqs now).
Proof. intros Hfew. split; [exact (pacer_inv_start enqueues reqs Hfew)|done]. Qed.

Lemma cadence_inv_step s l s' : cadence_inv s → step s l = Some s' → cadence_inv s'.
Proof.
  intros Hinv. pose proof Hinv as [Hv Hl]. unfold step.
  destruct (advance (clock s) (label_readings l)) as [now|] eqn:Hnow; [|done]. cbn [mbind option_bind].
  pose proof (proj1 (advance_le _ _ _ Hnow)) as Hle. apply (local_ok_later _ _ _ Hle) in Hl.
  destruct l as [i t|i| |rtt|c].
  - pose proof (pacer_inv_step (view s) (Pacer.LProducer i t)) as H. cbn [Pacer.step view Pacer.producers Pacer.pc] in H.
    destruct (producers s !! i); cbn in *; [|done]. destruct (producer_step _ _ _). intros [= <-].
    split; [by apply (H _ Hv)|done].
  - pose proof (pacer_inv_step (view s) (Pacer.LNacker i)) as H. cbn [Pacer.step view Pacer.nackers Pacer.pc] in H.
    destruct (nackers s !! i); cbn in *; [|done]. destruct (nacker_step _ _). intros [= <-].
    split; [by apply (H _ Hv)|done].
  - pose proof (pacer_inv_step (view s) Pacer.LStop) as H. cbn [Pacer.step view Pacer.stopper Pacer.pc] in H.
    destruct (stopper_step _ _). intros [= <-]. split; [by apply (H _ Hv)|done].
  - intros [= <-]. split; [by apply (pacer_inv_step (view s) (Pacer.LSetRTT rtt) _ Hv)|done].
  - destruct (worker_step c (pc s) (wk s)) as [[p w]|] eqn:Hw; cbn; [|done]. intros [= <-]. by eapply cadence_worker.
Qed.

Lemma cadence_inv_run s ls s' : cadence_inv s → run s ls = Some s' → cadence_inv s'.
Proof.
  revert s. induction ls as [|l ls IH]; intros s Hinv; cbn [run]; [by intros [= <-]|].
  destruct (step s l) as [s1|] eqn:Hs; cbn; [|done]. apply IH. by eapply cadence_inv_step.
Qed.

(** ** Properties of every run *)

(** C13: ownership and accounting of the cadence scheduler, under every interleaving of
    enqueuers, NACK handlers, the worker and [Stop]: each slot of the pool is held
    by at most one of the queue, the worker, the retransmission cache and the
    producers between claim and send, and exactly the held slots are claimed; the
    channels and what the worker holds stay within their capacities; the packets
    counted as enqueued are those counted as completed and those still held; and
    when [Stop] has returned, nothing is held and every packet has been counted. *)
Theorem cadence_accounting enqueues reqs t0 ls s :
  Z.of_nat (length enqueues) < 2 ^ 63 → run (start enqueues reqs t0) ls = Some s →
  NoDup (owners (view s)) ∧ (∀ i, is_claimed (ownedPackets (pc s)) i ↔ i ∈ owners (view s)) ∧
  (length (queue (pc s)) <= 32)%nat ∧ (length (holding (wk s)) <= 33)%nat ∧ (length (nacks (pc s)) <= 32)%nat ∧
  u64 (counters (pc s) enqueuedCount + sumZ (counting <$> producers s)) =
    u64 (counters (pc s) completedCount + Z.of_nat (length (queue (pc s)) + length (holding (wk s)))) ∧
  (stopper s = SDone →
   at_ (wk s) = Exited ∧ queue (pc s) = [] ∧
   (∀ i slot, ownedPackets (pc s) !! i = Some slot → claimed slot = false) ∧
   u64 (counters (pc s) enqueuedCount) = u64 (counters (pc s) completedCount)).
Proof.
  intros Hfew Hrun. destruct (cadence_inv_run _ _ _ (cadence_inv_start enqueues reqs t0 Hfew) Hrun) as [Hv Hl].
  pose proof (inv_bounds _ Hv) as (H1 & H2 & H3). destruct (inv_owners _ Hv) as [H4 H5].
  split_and!; [done..|exact (inv_count _ Hv)|]. intros Hs.
  destruct (inv_stopped_released _ Hv Hs) as (_ & G1 & G2 & G3 & G4). split_and!; [by apply view_exited|done..].
Qed.


(** *** Termination *)

Definition rank (ph : phase) : nat :=
  match ph with
  | Select => 11 | Drain => 10 | Initial => 9 | InitialWait _ => 8 | Gap => 7 | GapWait _ => 6 | Release => 5
  | Sleep _ => 4 | SleepWait _ => 3 | Send _ => 2 | Exited => 0
  end%nat.

(** What the worker has left to do, if nothing more arrives. *)
Definition work (p : pacer) (w : worker) : nat :=
  (16 * (length (nacks p) + 2 * length (queue p) + length (holding w)) + rank (at_ w))%nat.

Lemma rank_bound ph : (rank ph <= 11)%nat.
Proof. destruct ph; cbn; lia. Qed.

Lemma work_completes it p p' w w' :
  completes it p p' → length (holding w) = S (length (holding w')) → (work p' w' < work p w)%nat.
Proof.
  intros ((K1 & K2 & _) & _) Hh. unfold work. rewrite K1, K2, Hh. pose proof (rank_bound (at_ w')). cbn. lia.
Qed.

Lemma work_take p w p' w1 w' :
  take_item p w = Some (p', w1) → length (holding w') = length (pending w1) → holding w = pending w →
  (work p' w' < work p w)%nat.
Proof.
  unfold take_item. destruct (queue p) as [|it rest] eqn:Hq; [done|]. destruct (SequenceForwarder.unwrap _ _).
  intros [= <- <-] H1 H2. unfold work. cbn [nacks queue set_queue]. rewrite Hq, H1, H2. cbn [pending goto set_forwarder].
  rewrite length_app. pose proof (rank_bound (at_ w')). cbn. lia.
Qed.

Lemma work_nack t f p w p' w' :
  take_nack t f p = Some p' → holding w' = holding w → (work p' w' < work p w)%nat.
Proof.
  unfold take_nack. destruct (nacks p) as [|seq rest] eqn:Hn; [done|]. intros [= <-] Hh.
  destruct (retransmit_harmless seq t f (set_nacks rest p)) as ((K1 & K2 & _) & _). unfold work.
  rewrite K1, K2, Hn, Hh. cbn [nacks queue set_nacks length]. pose proof (rank_bound (at_ w')). lia.
Qed.

Lemma work_exit p0 p w p' w' :
  at_ w ≠ Exited → queue p0 = queue p → nacks p0 = nacks p → exit p0 w = (p', w') → (work p' w' < work p w)%nat.
Proof.
  intros Hat Hq Hn. unfold exit. destruct (Cache.clear _ _). intros [= <- <-]. unfold work, holding. cbn [at_ goto pending].
  cbn. rewrite Hq, Hn. assert (rank (at_ w) ≠ 0)%nat by (by destruct (at_ w)). lia.
Qed.

Lemma work_idle p p' w ph pend :
  core p' = core p → (rank ph < rank (at_ w))%nat → length (holding (goto ph pend w)) = length (holding w) →
  (work p' (goto ph pend w) < work p w)%nat.
Proof.
  intros (K1 & K2 & _)%core_channels Hr Hh. unfold work. rewrite K1, K2, Hh. cbn [at_ goto]. lia.
Qed.

Lemma worker_decreases c p w p' w' : worker_step c p w = Some (p', w') → (work p' w' < work p w)%nat.
Proof.
  assert (Hhold : holding w = match at_ w with
    | Sleep pl | SleepWait pl | Send pl => plan_item pl :: pending w | _ => pending w end) by done.
  assert (Hsort : ∀ l, length (sortPacedPacketsByExtendedSequence l) = length l) by (intros l; by rewrite sort_perm).
  unfold worker_step, waitUntil. destruct (at_ w) as [| | |d| |d| |pl|pl|pl|] eqn:Hat; destruct c as [|t f| |t|x]; try done.
  all: assert (Hne : at_ w ≠ Exited) by (by rewrite Hat).
  all: try (destruct (doneClosed p); [|done]; intros He%(inj Some); by eapply work_exit).
  all: try (destruct (take_nack t f p) as [q|] eqn:Hn; [|done]; intros [= <- <-]; by eapply work_nack).
  all: try (destruct (take_item p w) as [[q v]|] eqn:Ht; [|done]; intros [= <- <-]; eapply work_take;
            [done|cbn; by rewrite ?Hsort|done]).
  all: try (destruct (Before _ _); [done|]; intros [= <- <-]; apply work_idle;
            [done|rewrite Hat; cbn; lia|by rewrite Hhold]).
  - assert (Hs : (work p (goto Initial (sortPacedPacketsByExtendedSequence (pending w)) w) < work p w)%nat)
      by (apply work_idle; [done|rewrite Hat; cbn; lia|by rewrite Hhold; cbn; rewrite Hsort]).
    destruct (room w); [|by intros [= <- <-]].
    destruct (take_item p w) as [[q v]|] eqn:Ht; intros [= <- <-]; [|done].
    pose proof (take_item_facts _ _ _ _ Ht) as (_ & F2 & _).
    eapply work_take; [done| |done]. unfold holding. by rewrite F2, Hat.
  - case_if; intros [= <- <-]; (apply work_idle; [done|rewrite Hat; cbn; lia|by rewrite Hhold]).
  - case_if; intros [= <- <-]; (apply work_idle; [done|rewrite Hat; cbn; lia|by rewrite Hhold]).
  - destruct (pending w) as [|it rest] eqn:Hpend; [done|].
    pose proof (release_item_spec it x p (goto Release rest w)) as Hr. intros Hs%(inj Some). rewrite Hs in Hr.
    cbn [pending goto] in Hr. destruct Hr as (_ & R2 & [[R3 R4]|(pl & R3 & R4 & R5 & ((K1 & K2 & _) & _))]).
    + eapply work_completes; [exact R3|]. rewrite Hhold. unfold holding. rewrite R2, R4. by destruct rest.
    + unfold work. rewrite K1, K2, Hhold. unfold holding. rewrite R2, R3, Hat. cbn. lia.
  - case_if; intros [= <- <-]; (apply work_idle; [done|rewrite Hat; cbn; lia|by rewrite Hhold]).
  - destruct (doneClosed p); [|done]. intros He%(inj Some). eapply (work_exit _ _ w); [exact Hne| | |exact He]; done.
  - pose proof (send_spec pl x p w) as Hs. intros He%(inj Some). rewrite He in Hs.
    destruct Hs as (S1 & S2 & S3 & _). eapply work_completes; [exact S1|]. rewrite Hhold. unfold holding.
    rewrite S2, S3. by destruct (pending w).
Qed.

Lemma work_bound s : cadence_inv s → (work (pc s) (wk s) <= 2075)%nat.
Proof.
  intros [Hv _]. pose proof (inv_bounds _ Hv) as (H1 & H2 & H3). cbn in H1, H2, H3.
  unfold work, pendingCapacity, defaultPacerCapacity in *. pose proof (rank_bound (at_ (wk s))). lia.
Qed.

Lemma worker_run_decreases s cs s' :
  run s (LWorker <$> cs) = Some s' → (work (pc s') (wk s') + length cs <= work (pc s) (wk s))%nat.
Proof.
  revert s. induction cs as [|c cs IH]; intros s; cbn [fmap list_fmap run]; [intros [= <-]; cbn; lia|].
  destruct (step s (LWorker c)) as [s1|] eqn:Hs; [|done]. cbn. intros H%IH. unfold step in Hs.
  destruct (advance _ _) as [now|]; [|done]. cbn in Hs.
  destruct (worker_step c (pc s) (wk s)) as [[p w]|] eqn:Hw; [|done]. cbn in Hs. injection Hs as <-.
  apply worker_decreases in Hw. cbn in *. lia.
Qed.

Definition readings_at (now : Z) : readings := mkReadings now now now now now false.

(** Where the worker does not wait it can go on, and where it waits the closed
    channel lets it return. *)
Lemma worker_enabled s :
  cadence_inv s → at_ (wk s) ≠ Exited → doneClosed (pc s) = true → ∃ c s', step s (LWorker c) = Some s'.
Proof.
  intros [_ [_ Hl]] Hat Hd.
  assert (Hgo : ∀ c now, advance (clock s) (label_readings (LWorker c)) = Some now →
                is_Some (worker_step c (pc s) (wk s)) → ∃ c s', step s (LWorker c) = Some s').
  { intros c now Hnow [[p w] Hw]. exists c. unfold step. rewrite Hnow. cbn. rewrite Hw. cbn. by eexists. }
  assert (Hp : advance (clock s) (label_readings (LWorker (Proceed (readings_at (clock s))))) = Some (clock s)).
  { cbn. by rewrite !Z.ltb_irrefl. }
  unfold worker_step, waitUntil in Hgo. destruct (at_ (wk s)) as [| | |d| |d| |pl|pl|pl|] eqn:E; try done.
  all: try (apply (Hgo TakeDone (clock s)); [done|]; by rewrite Hd).
  all: apply (Hgo (Proceed (readings_at (clock s))) (clock s)); [exact Hp|].
  - destruct (room _); [|done]. by destruct (take_item _ _) as [[??]|].
  - by case_if.
  - by case_if.
  - by destruct Hl as [Hl _], (pending (wk s)).
  - by case_if.
  - done.
Qed.

(** C14: the worker of the cadence scheduler returns when [Stop] closes its channel: left
    alone, it can take no more than 2075 steps, whichever cases its selects choose
    and whatever the clock and the writer answer, and as long as it has not returned
    there is a step it can take. *)
Theorem cadence_worker_returns enqueues reqs t0 ls s cs s' :
  Z.of_nat (length enqueues) < 2 ^ 63 → run (start enqueues reqs t0) ls = Some s → doneClosed (pc s) = true →
  run s (LWorker <$> cs) = Some s' →
  (length cs <= 2075)%nat ∧ (at_ (wk s') ≠ Exited → ∃ c s'', step s' (LWorker c) = Some s'').
Proof.
  intros Hfew Hrun Hd Hcs. pose proof (cadence_inv_run _ _ _ (cadence_inv_start enqueues reqs t0 Hfew) Hrun) as Hinv.
  pose proof (cadence_inv_run _ _ _ Hinv Hcs) as Hinv'. split.
  - pose proof (work_bound s Hinv). apply worker_run_decreases in Hcs. lia.
  - intros Hat. apply worker_enabled; [done|done|].
    assert (Hst : stopper s' = stopper s).
    { clear -Hcs. revert s Hcs. induction cs as [|c cs IH]; intros s; cbn [fmap list_fmap run]; [by intros [= <-]|].
      unfold step. destruct (advance _ _); [|done]. cbn.
      destruct (worker_step _ _ _) as [[p w]|]; [|done]. cbn. by intros ->%IH. }
    pose proof (inv_done _ (cadence_view _ Hinv)) as D. pose proof (inv_done _ (cadence_view _ Hinv')) as D'.
    cbn in D, D'. by rewrite D', Hst, <- D.
Qed.
End Worker.

(** ** An example: two packets of 20 ms, and a worker that sleeps between them *)

#[local] Existing Instance example_codec.

Definition example_enqueue (now : Z) : list label := replicate 6 (LProducer 0 now).
Definition at_time (now : Z) : label := LWorker (Proceed (readings_at now)).

Definition example_start : system :=
  start [[example_args 10; example_args 11]] [[10]] 0.

(** Up to the sleep of the second packet. *)
Definition example_labels : list label :=
  example_enqueue 1000 ++ [LWorker TakeQueue] ++ replicate 2 (at_time 2000) ++
  [LWorker (TakeTimer 10001000)] ++ replicate 4 (at_time 10001000) ++
  example_enqueue 20000000 ++ [LWorker TakeQueue] ++ replicate 5 (at_time 20000000).

Definition example_sent : list label := example_labels ++ [LWorker (TakeTimer 30001000)].
Definition example_stop : list label := example_labels ++ [LStop; LStop; LStop].

Abbreviation example_run := (run defaultPacerReorderWait false).

Lemma example_sleeps :
  (λ s, at_ (wk s)) <$> example_run example_start example_labels =
  Some (SleepWait (mkPlan (mkItem 2 20000000 11 (Translator.sample_source 1) 0 false) 30001000 true (Some 20000000))).
Proof. vm_compute. reflexivity. Qed.

Lemma cadence_accounting_witness :
  ∃ s, example_run example_start (example_stop ++ [LWorker TakeDone; LStop; LStop]) = Some s ∧ stopper s = SDone ∧
       queue (pc s) = [].
Proof.
  assert (H : stopper <$> example_run example_start (example_stop ++ [LWorker TakeDone; LStop; LStop]) = Some SDone)
    by (vm_compute; reflexivity).
  apply fmap_Some in H as (s & Hrun & Hst). exists s. split; [exact Hrun|]. split; [by symmetry|].
  apply (cadence_accounting defaultPacerReorderWait false [[example_args 10; example_args 11]] [[10]] 0
           (example_stop ++ [LWorker TakeDone; LStop; LStop]) s); [reflexivity|exact Hrun|by symmetry].
Defined.

Definition example_plan : plan :=
  mkPlan (mkItem 2 20000000 11 (Translator.sample_source 1) 0 false) 30001000 true (Some 20000000).
Definition example_step : label := at_time 30002000.


Lemma cadence_worker_returns_witness :
  ∃ s s', example_run example_start example_stop = Some s ∧
    example_run s (LWorker <$> [TakeDone]) = Some s' ∧ at_ (wk s') = Exited ∧ (length [TakeDone] <= 2075)%nat.
Proof.
  assert (H : (λ s, (doneClosed (pc s), (λ s', at_ (wk s')) <$> example_run s (LWorker <$> [TakeDone]))) <$>
              example_run example_start example_stop = Some (true, Some Exited)) by (vm_compute; reflexivity).
  apply fmap_Some in H as (s & Hrun & H). injection H as Hd Hs. symmetry in Hs.
  apply fmap_Some in Hs as (s' & Hs & He). exists s, s'.
  split; [exact Hrun|]. split; [exact Hs|]. split; [by symmetry|].
  apply (cadence_worker_returns defaultPacerReorderWait false [[example_args 10; example_args 11]] [[10]] 0 example_stop
           s [TakeDone] s'); [reflexivity|exact Hrun|by symmetry|exact Hs].
Defined.
End CadencePacer.
