(* ===== verification/PacketLog.v ===== *)
(** * PacketLog: the lock-free packet log of a bus

    Translates [internal/session/packet_log.go].  One forwarding goroutine
    records into a ring of slots, each guarded by a publication generation;
    readers run concurrently.  Every atomic load and store is one step. *)

From S2P Require Export GoTime.

Module PacketLog.

Definition packetLogWindowSize : Z := 1000.

Record PacketLogEntry := mkLogEntry {
  Seq : Z;            (* uint16 *)
  RtpTsSamples : Z;   (* uint32 *)
  PayloadType : Z;    (* uint8 *)
  Ssrc : Z;           (* uint32 *)
  PayloadBytes : Z;   (* uint64 *)
  Padding : bool;
  PaddingBytes : Z;   (* uint8 *)
  RxTsNs : Z;         (* int64 *)
  TxTsNs : Z          (* int64 *) }.

Definition typed_entry (e : PacketLogEntry) : Prop :=
  is_u16 (Seq e) ∧ is_u32 (RtpTsSamples e) ∧ is_u8 (PayloadType e) ∧ is_u32 (Ssrc e) ∧
  is_u64 (PayloadBytes e) ∧ is_u8 (PaddingBytes e) ∧ is_i64 (RxTsNs e) ∧ is_i64 (TxTsNs e).

(** A slot: its generation and its nine words, in the order they are stored. *)
Record packetLogSlot := mkSlot {
  generation : Z;     (* uint64 *)
  slot_words : list Z }.

Definition empty_slot : packetLogSlot := mkSlot 0 (replicate 9 0).

(** The words [record] stores for an entry, and the entry [last] rebuilds. *)
Definition to_words (e : PacketLogEntry) : list Z :=
  [u32 (Seq e); RtpTsSamples e; u32 (PayloadType e); Ssrc e; PayloadBytes e;
   Z.b2z (Padding e); u32 (PaddingBytes e); RxTsNs e; TxTsNs e].

Definition of_words (w : list Z) : option PacketLogEntry :=
  match w with
  | [seq; rtpTs; pt; ssrc; bytes; padding; paddingBytes; rx; tx] =>
    Some (mkLogEntry (u16 seq) rtpTs (u8 pt) ssrc bytes (negb (padding =? 0)) (u8 paddingBytes) rx tx)
  | _ => None
  end.

Record packetLogStore := mkStore {
  entries : list packetLogSlot;
  writeCount : Z }.

Definition newPacketLogStore : packetLogStore :=
  mkStore (replicate (Z.to_nat packetLogWindowSize) empty_slot) 0.

Definition slot_index (position : Z) : nat := Z.to_nat (position mod packetLogWindowSize).

(** [position*2 + 2] *)
Definition publishedGeneration (position : Z) : Z := u64 (position * 2 + 2).

(** *** The writer: the atomic actions of [record], by number

    Action 0 loads [writeCount] and marks the slot; 1 to 9 store the words, 10
    publishes the generation, 11 advances [writeCount]. *)
Definition record_action (k : nat) (position : Z) (e : PacketLogEntry) (st : packetLogStore) : packetLogStore :=
  let at_slot f := mkStore (alter f (slot_index position) (entries st)) (writeCount st) in
  match k with
  | 0%nat => at_slot (λ s, mkSlot (u64 (publishedGeneration position - 1)) (slot_words s))
  | 10%nat => at_slot (λ s, mkSlot (publishedGeneration position) (slot_words s))
  | 11%nat => mkStore (entries st) (u64 (position + 1))
  | S i => at_slot (λ s, mkSlot (generation s) (<[i := nth i (to_words e) 0]> (slot_words s)))
  end.

(** The whole of [record], when nothing runs in between. *)
Definition record (e : PacketLogEntry) (st : packetLogStore) : packetLogStore :=
  foldl (λ st' k, record_action k (writeCount st) e st') st (seq 0 12).

(** *** A reader: [last] *)

(** [limit] clamped to what is retained: [uint64(limit) > count]. *)
Definition clamp_limit (limit count : Z) : Z :=
  if u64 limit >? Z.min count packetLogWindowSize then Z.min count packetLogWindowSize else limit.

Inductive reader :=
| RIdle (limit : Z)
| RCheck (position count : Z) (acc : list (Z * PacketLogEntry))
| RWords (position count : Z) (words : list Z) (acc : list (Z * PacketLogEntry))
| RDone (acc : list (Z * PacketLogEntry)).

(** One atomic action.  Each accepted entry is kept with its ring position,
    which the source does not return; [result_of] drops it. *)
Definition reader_action (st : packetLogStore) (r : reader) : reader :=
  match r with
  | RIdle limit =>
    let count := writeCount st in
    let limit' := clamp_limit limit count in
    if limit' =? 0 then RDone [] else RCheck (count - limit') count []
  | RCheck position count acc =>
    if position <? count then
      match entries st !! slot_index position with
      | Some s =>
        if generation s =? publishedGeneration position then RWords position count [] acc
        else RCheck (position + 1) count acc
      | None => RDone acc
      end
    else RDone acc
  | RWords position count words acc =>
    match entries st !! slot_index position with
    | None => RDone acc
    | Some s =>
      if (length words <? 9)%nat
      then RWords position count (words ++ [nth (length words) (slot_words s) 0]) acc
      else if generation s =? publishedGeneration position
      then RCheck (position + 1) count
             (match of_words words with Some e => acc ++ [(position, e)] | None => acc end)
      else RCheck (position + 1) count acc
    end
  | RDone acc => RDone acc
  end.

Definition result_of (r : reader) : option (list PacketLogEntry) :=
  match r with RDone acc => Some (snd <$> acc) | _ => None end.

(** *** The system: one writer with its entries to record, and readers *)

Record system := mkSystem {
  mem : packetLogStore;
  recorded : list PacketLogEntry;   (* entries whose [record] has begun *)
  wstep : nat;                      (* the next action of the current [record]; 12 when idle *)
  pending : list PacketLogEntry;
  readers : list reader }.

Inductive label := Write | Read (i : nat).

(** The position the current record loaded: [writeCount] only changes with the
    record's last action. *)
Definition sys_step (s : system) (l : label) : system :=
  match l with
  | Write =>
    if (wstep s <? 12)%nat then
      match last (recorded s) with
      | Some e => mkSystem (record_action (wstep s) (writeCount (mem s)) e (mem s)) (recorded s) (S (wstep s))
                    (pending s) (readers s)
      | None => s
      end
    else
      match pending s with
      | [] => s
      | e :: pending' => mkSystem (mem s) (recorded s ++ [e]) 0 pending' (readers s)
      end
  | Read i =>
    match readers s !! i with
    | Some r => mkSystem (mem s) (recorded s) (wstep s) (pending s) (<[i := reader_action (mem s) r]> (readers s))
    | None => s
    end
  end.

Definition sys_run (s : system) (ls : list label) : system := foldl sys_step s ls.

Definition sys_start (to_record : list PacketLogEntry) (limits : list Z) : system :=
  mkSystem newPacketLogStore [] 12 to_record (RIdle <$> limits).

(** *** The invariant *)

Definition slot_at (st : packetLogStore) (p : Z) : packetLogSlot :=
  default empty_slot (entries st !! slot_index p).

Definition entry_at (l : list PacketLogEntry) (p : Z) : option PacketLogEntry :=
  if 0 <=? p then l !! Z.to_nat p else None.

(** Completed records. *)
Definition completed (s : system) : Z :=
  len (recorded s) - (if (wstep s <? 12)%nat then 1 else 0).

(** Where the record in progress stands: [wstep] actions of it are done. *)
Definition writer_ok (s : system) : Prop :=
  let n := completed s in
  let sl := slot_at (mem s) n in
  (wstep s <= 12)%nat ∧
  (∀ p, 0 <= p → generation (slot_at (mem s) p) <= 2 * n ∨
        (0 < wstep s <= 11)%nat ∧ slot_index p = slot_index n) ∧
  ((wstep s < 12)%nat → ∃ e, last (recorded s) = Some e ∧
    ((1 <= wstep s <= 10)%nat → generation sl = 2 * n + 1 ∧
       take (wstep s - 1) (slot_words sl) = take (wstep s - 1) (to_words e)) ∧
    (wstep s = 11%nat → generation sl = 2 * n + 2 ∧ slot_words sl = to_words e)).

(** A published slot holds the entry of its position, whole; the last thousand
    completed records are published. *)
Definition slots_ok (s : system) : Prop :=
  len (entries (mem s)) = packetLogWindowSize ∧
  Forall (λ sl, length (slot_words sl) = 9%nat) (entries (mem s)) ∧
  writeCount (mem s) = completed s ∧
  (∀ p, 0 <= p → generation (slot_at (mem s) p) = 2 * p + 2 →
     ∃ e, entry_at (recorded s) p = Some e ∧ slot_words (slot_at (mem s) p) = to_words e) ∧
  (∀ p, 0 <= p → len (recorded s) - packetLogWindowSize <= p < completed s →
     generation (slot_at (mem s) p) = 2 * p + 2).

(** What a reader has accepted: intact entries at increasing positions. *)
Definition acc_ok (l : list PacketLogEntry) (bound : Z) (acc : list (Z * PacketLogEntry)) : Prop :=
  StronglySorted (λ a b, a.1 < b.1) acc ∧
  Forall (λ a, 0 <= a.1 < bound ∧ entry_at l a.1 = Some a.2) acc.

Definition reader_ok (s : system) (r : reader) : Prop :=
  match r with
  | RIdle limit => is_i64 limit
  | RCheck p c acc => 0 <= p ∧ c <= completed s ∧ acc_ok (recorded s) p acc
  | RWords p c ws acc =>
    0 <= p < c ∧ c <= completed s ∧ acc_ok (recorded s) p acc ∧ (length ws <= 9)%nat ∧
    2 * p + 2 <= generation (slot_at (mem s) p) ∧
    (generation (slot_at (mem s) p) = 2 * p + 2 →
       ws = take (length ws) (slot_words (slot_at (mem s) p)))
  | RDone acc => ∃ c, acc_ok (recorded s) c acc
  end.

(** The 64-bit counters do not wrap for this many packets. *)
Definition in_range (s : system) : Prop := len (recorded s) + len (pending s) < 2 ^ 62.

Definition inv (s : system) : Prop :=
  in_range s ∧ writer_ok s ∧ slots_ok s ∧ Forall (reader_ok s) (readers s).

Lemma log_slot_index_lt p : (slot_index p < 1000)%nat.
Proof. unfold slot_index, packetLogWindowSize. pose proof (Z.mod_pos_bound p 1000). lia. Qed.

Lemma slot_index_eq p q : slot_index p = slot_index q → ∃ k, p = q + packetLogWindowSize * k.
Proof.
  unfold slot_index, packetLogWindowSize. intros E. exists (p / 1000 - q / 1000).
  pose proof (Z.mod_pos_bound p 1000). pose proof (Z.mod_pos_bound q 1000).
  assert (p mod 1000 = q mod 1000) by lia.
  pose proof (Z.div_mod p 1000). pose proof (Z.div_mod q 1000). lia.
Qed.

Lemma slot_lookup st p :
  len (entries st) = packetLogWindowSize → entries st !! slot_index p = Some (slot_at st p).
Proof.
  intros Hl. unfold slot_at. destruct (entries st !! slot_index p) eqn:E; [done|].
  apply lookup_ge_None in E. pose proof (log_slot_index_lt p). unfold len, packetLogWindowSize in Hl. lia.
Qed.

(** An update of one slot, seen at any position. *)
Lemma slot_at_alter st f p q :
  len (entries st) = packetLogWindowSize →
  slot_at (mkStore (alter f (slot_index p) (entries st)) (writeCount st)) q =
  if decide (slot_index q = slot_index p) then f (slot_at st q) else slot_at st q.
Proof.
  intros Hl. unfold slot_at at 1. cbn [entries]. case_decide as E.
  - rewrite E, list_lookup_alter_eq, <- E, slot_lookup by done. done.
  - by rewrite list_lookup_alter_ne by done.
Qed.

Lemma of_to_words e : typed_entry e → of_words (to_words e) = Some e.
Proof.
  destruct e as [sq ts pt ss pb pd pdb rx tx]. unfold typed_entry. cbn. intros (?&?&?&?&?&?&?&?).
  f_equal. f_equal; try ilia. by destruct pd.
Qed.

Lemma publishedGeneration_exact p : 0 <= p < 2 ^ 62 → publishedGeneration p = 2 * p + 2.
Proof. intros. unfold publishedGeneration. rewrite u64_small by ilia. lia. Qed.

Lemma entry_at_app l l' p e : entry_at l p = Some e → entry_at (l ++ l') p = Some e.
Proof. unfold entry_at. case_if; [|done]. apply lookup_app_l_Some. Qed.

Lemma entry_at_last l e : last l = Some e → entry_at l (len l - 1) = Some e.
Proof.
  intros Hl. apply last_Some in Hl as [l' ->]. unfold entry_at, len. rewrite length_app. cbn [length].
  rewrite (proj2 (Z.leb_le _ _)) by lia.
  replace (Z.to_nat (Z.of_nat (length l' + 1) - 1)) with (length l') by lia.
  by rewrite list_lookup_middle.
Qed.

Lemma acc_ok_weaken l l' b b' acc :
  (∀ p e, entry_at l p = Some e → entry_at l' p = Some e) → b <= b' →
  acc_ok l b acc → acc_ok l' b' acc.
Proof.
  intros He Hb [Hs Hf]. split; [done|]. eapply Forall_impl; [done|].
  intros a [Ha1 Ha2]. split; [lia|auto].
Qed.

(** Readers do not notice a step that keeps what is recorded and completed, and
    either leaves a completed position's slot alone or moves its generation on. *)
Lemma reader_ok_stable s s' r :
  (∀ p e, entry_at (recorded s) p = Some e → entry_at (recorded s') p = Some e) →
  completed s <= completed s' →
  (∀ p, 0 <= p < completed s →
     slot_at (mem s') p = slot_at (mem s) p ∨ 2 * p + 2 < generation (slot_at (mem s') p)) →
  reader_ok s r → reader_ok s' r.
Proof.
  intros He Hc Hs. destruct r as [lim|p c acc|p c ws acc|acc]; cbn.
  - done.
  - intros (?&?&?). split_and!; [lia|lia|]. by apply (acc_ok_weaken (recorded s) _ p).
  - intros (Hp&?&?&?&Hg&Hw). split_and!; [lia..| |lia| |].
    + by apply (acc_ok_weaken (recorded s) _ p).
    + destruct (Hs p) as [->|]; lia.
    + intros Hg'. destruct (Hs p) as [E|]; [lia| |lia]. rewrite E in *. auto.
  - intros [c Ha]. exists c. by apply (acc_ok_weaken (recorded s) _ c).
Qed.

Lemma begin_inv s e pending' :
  inv s → wstep s = 12%nat → pending s = e :: pending' →
  inv (mkSystem (mem s) (recorded s ++ [e]) 0 pending' (readers s)).
Proof.
  intros (Hr & (_ & Hg & _) & (Hl & Hw & Hc & Hpub & Hwin) & Hrd) Hk Hp.
  set (s' := mkSystem _ _ _ _ _).
  assert (Hlen : len (recorded s ++ [e]) = len (recorded s) + 1) by (unfold len; rewrite length_app; cbn; lia).
  assert (Hcomp : completed s' = completed s).
  { unfold completed, s'. cbn [wstep recorded]. rewrite Hk, Hlen. cbn. lia. }
  assert (Hn : completed s = len (recorded s)) by (unfold completed; rewrite Hk; cbn; lia).
  split_and!.
  - unfold in_range in *. rewrite Hp in Hr. subst s'. cbn [recorded pending]. rewrite Hlen.
    unfold len in *. cbn [length] in Hr. lia.
  - split_and!; [cbn; lia| |].
    + intros p Hp0. rewrite Hcomp. destruct (Hg p Hp0) as [|[? _]]; [by left|lia].
    + intros _. exists e. cbn [recorded s' wstep]. rewrite last_snoc. split_and!; [done|cbn; lia|done].
  - split_and!; [done|done|by rewrite Hcomp| |].
    + intros p Hp0 Hgp. destruct (Hpub p Hp0 Hgp) as (e' & He' & Hwd).
      exists e'. split; [|done]. by apply entry_at_app.
    + intros p Hp0. rewrite Hcomp. cbn [recorded s']. rewrite Hlen. intros. apply Hwin; lia.
  - eapply Forall_impl; [done|]. intros r. apply reader_ok_stable.
    + intros p e'. apply entry_at_app.
    + by rewrite Hcomp.
    + by left.
Qed.

(** The slot after action [k] of the record at position [n]. *)
Definition slot_action (k : nat) (n : Z) (e : PacketLogEntry) (sl : packetLogSlot) : packetLogSlot :=
  match k with
  | 0%nat => mkSlot (u64 (publishedGeneration n - 1)) (slot_words sl)
  | 10%nat => mkSlot (publishedGeneration n) (slot_words sl)
  | S i => mkSlot (generation sl) (<[i := nth i (to_words e) 0]> (slot_words sl))
  end.

Lemma record_action_slot k n e st :
  (k <= 10)%nat →
  record_action k n e st = mkStore (alter (slot_action k n e) (slot_index n) (entries st)) (writeCount st).
Proof. intros Hk. do 11 (destruct k as [|k]; [done|]). lia. Qed.

Lemma take_S_insert (i : nat) (w v : list Z) :
  (i < length w)%nat → (i < length v)%nat → take i w = take i v →
  take (S i) (<[i := nth i v 0]> w) = take (S i) v.
Proof.
  intros Hw Hv Ht. destruct (lookup_lt_is_Some_2 v i Hv) as [x Hx].
  rewrite (take_S_r v _ x Hx), (take_S_r _ _ x).
  - by rewrite take_insert_ge, Ht by lia.
  - rewrite list_lookup_insert_eq by done. f_equal. by apply nth_lookup_Some.
Qed.

Lemma slot_at_ext st p q : slot_index p = slot_index q → slot_at st p = slot_at st q.
Proof. unfold slot_at. by intros ->. Qed.

Lemma slot_words_length s p : inv s → length (slot_words (slot_at (mem s) p)) = 9%nat.
Proof.
  intros (_ & _ & (Hl & Hw & _) & _). eapply (Forall_lookup_1 (λ sl, length (slot_words sl) = 9%nat)); [done|].
  by apply slot_lookup.
Qed.

Lemma completed_range s : inv s → (wstep s < 12)%nat → 0 <= completed s < 2 ^ 62 - 1.
Proof.
  intros (Hr & (_ & _ & He) & _) Hk. destruct (He Hk) as (e & Hl & _).
  apply last_Some in Hl as [l' Hl]. unfold completed, in_range in *.
  rewrite Hl in *. rewrite (proj2 (Nat.ltb_lt _ _)) by lia. unfold len in *. rewrite length_app in *. cbn in *. lia.
Qed.

Lemma completed_nonneg s : inv s → 0 <= completed s < 2 ^ 62.
Proof.
  intros Hinv. destruct (decide (wstep s < 12)%nat) as [Hk|Hk].
  - pose proof (completed_range s Hinv Hk). lia.
  - destruct Hinv as (Hr & _). unfold completed, in_range, len in *.
    rewrite (proj2 (Nat.ltb_ge _ _)) by lia. lia.
Qed.

(** What the slot in progress holds after action [k]. *)
Lemma slot_progress s e k :
  inv s → wstep s = k → (k <= 10)%nat → last (recorded s) = Some e →
  let sl := slot_action k (completed s) e (slot_at (mem s) (completed s)) in
  generation sl = (if (k =? 10)%nat then 2 * completed s + 2 else 2 * completed s + 1) ∧
  length (slot_words sl) = 9%nat ∧ take k (slot_words sl) = take k (to_words e).
Proof.
  intros Hinv Hk Hle He sl. pose proof (completed_range s Hinv ltac:(lia)) as Hn.
  pose proof (slot_words_length s (completed s) Hinv) as Hlen.
  destruct Hinv as (_ & (_ & _ & Hw) & _). destruct (Hw ltac:(lia)) as (e' & He' & Hmid & _).
  assert (e' = e) as -> by congruence. rewrite Hk in Hmid.
  destruct (decide (k = 0%nat)) as [->|Hk0].
  { subst sl. cbn [slot_action generation slot_words take]. rewrite publishedGeneration_exact by lia.
    rewrite u64_small by ilia. cbn. split_and!; [lia|done|done]. }
  destruct (Hmid ltac:(lia)) as [Hg Ht].
  destruct (decide (k = 10%nat)) as [->|Hk10].
  { subst sl. cbn [slot_action generation slot_words Nat.eqb]. rewrite publishedGeneration_exact by lia.
    split_and!; [lia|done|]. cbn [Nat.sub] in Ht. rewrite (take_ge (slot_words _)) in Ht by (rewrite Hlen; lia).
    rewrite Ht. by rewrite take_take. }
  assert (sl = mkSlot (generation (slot_at (mem s) (completed s)))
                 (<[(k - 1)%nat := nth (k - 1) (to_words e) 0]> (slot_words (slot_at (mem s) (completed s))))) as ->.
  { subst sl. do 10 (destruct k as [|k]; [done || (cbn [slot_action]; by rewrite Nat.sub_1_r)|]). lia. }
  cbn [generation slot_words]. rewrite (proj2 (Nat.eqb_neq _ _)) by done.
  rewrite length_insert. split_and!; [done|done|].
  replace k with (S (k - 1)) at 1 4 by lia. apply take_S_insert; [lia|cbn; lia|done].
Qed.

Lemma action_inv s e :
  inv s → (wstep s <= 10)%nat → last (recorded s) = Some e →
  inv (mkSystem (record_action (wstep s) (writeCount (mem s)) e (mem s)) (recorded s) (S (wstep s))
         (pending s) (readers s)).
Proof.
  intros Hinv Hk He. pose proof (completed_range s Hinv ltac:(lia)) as Hn.
  pose proof (slot_progress s e _ Hinv eq_refl Hk He) as (Hg & Hlen & Ht).
  pose proof Hinv as (Hr & (Hk12 & Hgen & _) & (Hl & Hw & Hc & Hpub & Hwin) & Hrd).
  rewrite Hc, record_action_slot by done. set (n := completed s) in *. set (k := wstep s) in *.
  set (s' := mkSystem _ _ _ _ _). set (sl := slot_action k n e (slot_at (mem s) n)) in *.
  assert (Hcomp : completed s' = n).
  { unfold completed, s', n. cbn [wstep recorded]. unfold completed.
    by rewrite !(proj2 (Nat.ltb_lt _ _)) by (subst k; lia). }
  assert (Hn1 : n = len (recorded s) - 1).
  { unfold n, completed. rewrite (proj2 (Nat.ltb_lt _ _)) by (subst k; lia). done. }
  assert (Hat : ∀ q, slot_at (mem s') q = if decide (slot_index q = slot_index n) then sl else slot_at (mem s) q).
  { intros q. unfold s'. cbn [mem]. rewrite slot_at_alter by done. case_decide as E; [|done].
    by rewrite (slot_at_ext _ _ _ E). }
  assert (Hg' : 2 * n + 1 <= generation sl <= 2 * n + 2) by (rewrite Hg; destruct (_ =? _)%nat; lia).
  split_and!.
  - done.
  - split_and!; [cbn; subst k; lia| |].
    + intros p Hp. rewrite Hcomp, Hat. case_decide as E; [right; split; [cbn; subst k; lia|done]|].
      destruct (Hgen p Hp) as [|[_ ?]]; [by left|done].
    + intros _. exists e. rewrite Hcomp, Hat, decide_True by done. split_and!; [done| |].
      * cbn [wstep s']. intros Hk'. rewrite (proj2 (Nat.eqb_neq _ _)) in Hg by lia.
        split; [done|]. by replace (S k - 1)%nat with k by lia.
      * cbn [wstep s']. intros Hk'. assert (k = 10%nat) as Hk10 by lia. rewrite Hk10 in Hg, Ht. split; [done|].
        rewrite !take_ge in Ht by (rewrite ?Hlen; cbn; lia). done.
  - split_and!.
    + unfold s', len. cbn [mem entries]. by rewrite length_alter.
    + apply Forall_alter; [done|]. intros x Hx _. rewrite slot_lookup in Hx by done. by injection Hx as <-.
    + rewrite Hcomp. done.
    + intros p Hp. rewrite Hat. case_decide as E; [|apply Hpub; done]. intros Hgp.
      assert (p = n ∧ k = 10%nat) as [-> Hk10].
      { rewrite Hg in Hgp. destruct (k =? 10)%nat eqn:Ek; [|lia]. apply Nat.eqb_eq in Ek. split; [lia|done]. }
      exists e. split; [rewrite Hn1; by apply entry_at_last|].
      rewrite Hk10 in Ht. rewrite !take_ge in Ht by (rewrite ?Hlen; cbn; lia). done.
    + intros p Hp. rewrite Hcomp, Hat. cbn [recorded s']. intros Hwp. case_decide as E; [|apply Hwin; lia].
      apply slot_index_eq in E as [j E]. unfold packetLogWindowSize in *. lia.
  - eapply Forall_impl; [done|]. intros r. apply reader_ok_stable; [done|lia|].
    intros p Hp. rewrite Hat. case_decide; [right; fold n in Hp; lia|by left].
Qed.

Lemma publish_inv s e :
  inv s → wstep s = 11%nat → last (recorded s) = Some e →
  inv (mkSystem (record_action 11 (writeCount (mem s)) e (mem s)) (recorded s) 12 (pending s) (readers s)).
Proof.
  intros Hinv Hk He. pose proof (completed_range s Hinv ltac:(lia)) as Hn.
  destruct Hinv as (Hr & (_ & Hgen & Hw) & (Hl & Hws & Hc & Hpub & Hwin) & Hrd).
  destruct (Hw ltac:(lia)) as (e' & _ & _ & Hpubd). destruct (Hpubd Hk) as [Hg Hwd].
  cbn [record_action]. rewrite Hc. set (s' := mkSystem _ _ _ _ _).
  assert (Hcomp : completed s' = completed s + 1).
  { unfold completed, s'. cbn [wstep recorded]. rewrite Hk. cbn. lia. }
  assert (Hn1 : completed s + 1 = len (recorded s)).
  { unfold completed. rewrite Hk. cbn. lia. }
  split_and!; [done| | |].
  - split_and!; [cbn; lia| |cbn; lia]. intros p Hp. left. rewrite Hcomp. unfold s', slot_at. cbn [mem entries].
    fold (slot_at (mem s) p). destruct (Hgen p Hp) as [|[_ E]]; [lia|]. rewrite (slot_at_ext _ _ _ E). lia.
  - split_and!; [exact Hl|exact Hws| |exact Hpub|].
    + rewrite Hcomp. cbn. apply u64_small. ilia.
    + intros p Hp. rewrite Hcomp. cbn [recorded s']. intros Hwp. unfold s', slot_at. cbn [mem entries].
      fold (slot_at (mem s) p). destruct (decide (p = completed s)) as [->|]; [done|apply Hwin; lia].
  - eapply Forall_impl; [done|]. intros r. apply reader_ok_stable; [done|lia|by left].
Qed.

Lemma clamp_limit_range limit count :
  is_i64 limit → 0 <= count → 0 <= clamp_limit limit count <= Z.min count packetLogWindowSize.
Proof. intros Hl Hc. unfold clamp_limit, packetLogWindowSize. case_if; bool_hyps; [lia|]. ilia. Qed.

Lemma acc_ok_snoc l p e acc :
  0 <= p → acc_ok l p acc → entry_at l p = Some e → acc_ok l (p + 1) (acc ++ [(p, e)]).
Proof.
  intros Hp [Hs Hf] He. split.
  - apply StronglySorted_app_2; [|done|by repeat constructor].
    intros a b Ha Hb. apply list_elem_of_singleton in Hb as ->. cbn.
    rewrite Forall_forall in Hf. apply Hf in Ha. lia.
  - apply Forall_app. split; [|repeat constructor; cbn; [lia|lia|done]].
    eapply Forall_impl; [done|]. intros a [? ?]. split; [lia|done].
Qed.

Lemma reader_inv s r :
  inv s → Forall typed_entry (recorded s) → reader_ok s r → reader_ok s (reader_action (mem s) r).
Proof.
  intros Hinv Htyped. pose proof (completed_nonneg s Hinv) as Hn.
  destruct Hinv as (_ & _ & (Hl & Hws & Hc & Hpub & _) & _).
  assert (Hweak : ∀ p acc, acc_ok (recorded s) p acc → acc_ok (recorded s) (p + 1) acc).
  { intros p acc. apply acc_ok_weaken; [done|lia]. }
  destruct r as [limit|p c acc|p c ws acc|acc]; cbn [reader_ok reader_action].
  - intros Hlim. rewrite Hc. case_if; [exists 0; by repeat constructor|]. bool_hyps.
    pose proof (clamp_limit_range limit (completed s) Hlim ltac:(lia)).
    cbn [reader_ok]. split_and!; [lia|lia|]. by repeat constructor.
  - intros (Hp & Hcc & Hacc). case_if; bool_hyps; [|by exists p].
    rewrite slot_lookup by done. case_if; bool_hyps; [|cbn [reader_ok]; split_and!; [lia|lia|auto]].
    rewrite publishedGeneration_exact in * by lia. cbn [reader_ok].
    split_and!; [lia|lia|lia|done|cbn; lia|lia|done].
  - intros (Hp & Hcc & Hacc & Hlen & Hg & Hsame). rewrite slot_lookup by done.
    pose proof (Forall_lookup_1 _ _ _ _ Hws (slot_lookup _ p Hl)) as Hwl. cbn beta in Hwl.
    destruct (Nat.ltb_spec (length ws) 9).
    { cbn [reader_ok]. split_and!; [lia|lia|lia|done| |lia|].
      - rewrite length_app. cbn. lia.
      - intros Hgp. rewrite (Hsame Hgp) at 1. rewrite length_app. cbn [length]. rewrite Nat.add_1_r.
        destruct (lookup_lt_is_Some_2 (slot_words (slot_at (mem s) p)) (length ws) ltac:(lia)) as [x Hx].
        rewrite (take_S_r _ _ x Hx). f_equal. f_equal. by apply nth_lookup_Some. }
    case_if; bool_hyps; [|cbn [reader_ok]; split_and!; [lia|lia|auto]].
    rewrite publishedGeneration_exact in * by lia.
    destruct (Hpub p ltac:(lia) ltac:(done)) as (e & He & Hwe).
    assert (He_typed : typed_entry e).
    { unfold entry_at in He. destruct (0 <=? p); [|done]. by eapply (Forall_lookup_1 typed_entry). }
    rewrite (Hsame ltac:(done)), take_ge by (rewrite Hwl; lia).
    rewrite Hwe, (of_to_words e He_typed).
    cbn [reader_ok]. split_and!; [lia|lia|]. apply acc_ok_snoc; [lia|done|done].
  - done.
Qed.

Lemma sys_step_inv s l :
  inv s → Forall typed_entry (recorded s ++ pending s) →
  inv (sys_step s l) ∧
  recorded (sys_step s l) ++ pending (sys_step s l) = recorded s ++ pending s.
Proof.
  intros Hinv Ht. destruct l as [|i]; cbn [sys_step].
  - destruct (Nat.ltb_spec (wstep s) 12).
    + destruct (last (recorded s)) as [e|] eqn:He; [|done]. split; [|done].
      destruct (decide (wstep s = 11%nat)) as [Hk|Hk]; [rewrite Hk; by apply publish_inv|].
      apply action_inv; [done|lia|done].
    + destruct (pending s) as [|e p'] eqn:Hp; [by rewrite Hp|]. split; [|cbn; by rewrite <- app_assoc].
      apply begin_inv; [done| |done]. destruct Hinv as (_ & (? & _) & _). lia.
  - destruct (readers s !! i) as [r|] eqn:Hi; [|done]. split; [|done].
    destruct Hinv as (Hr & Hw & Hs & Hrd). split_and!; [done..|].
    apply Forall_app in Ht as [Ht _].
    apply Forall_insert; [done|]. apply (reader_inv s r); [by split_and!|done|].
    by eapply (Forall_lookup_1 (reader_ok s)).
Qed.

Lemma sys_run_inv ls s :
  inv s → Forall typed_entry (recorded s ++ pending s) →
  inv (sys_run s ls) ∧
  recorded (sys_run s ls) ++ pending (sys_run s ls) = recorded s ++ pending s.
Proof.
  revert s. induction ls as [|l ls IH]; intros s Hinv Ht; [done|].
  destruct (sys_step_inv s l Hinv Ht) as [Hinv' Heq].
  unfold sys_run in *. cbn [foldl]. rewrite <- Heq. apply IH; [done|by rewrite Heq].
Qed.

Lemma slot_at_new p : slot_at newPacketLogStore p = empty_slot.
Proof.
  unfold slot_at. destruct (_ !! _) as [sl|] eqn:E; [|done].
  apply lookup_replicate_1 in E as [-> _]. done.
Qed.

Lemma sys_start_inv es limits :
  len es < 2 ^ 62 → Forall is_i64 limits → inv (sys_start es limits).
Proof.
  intros Hes Hl. split_and!.
  - unfold in_range, sys_start. cbn. unfold len in *. cbn. lia.
  - split_and!; [done| |cbn; lia]. intros p Hp. left. unfold sys_start. cbn [mem].
    by rewrite slot_at_new.
  - split_and!; [done|by apply Forall_replicate|done| |].
    + intros p Hp. unfold sys_start. cbn [mem]. rewrite slot_at_new. cbn. lia.
    + intros p Hp Hw. change (completed (sys_start es limits)) with 0 in Hw. lia.
  - apply Forall_fmap. eapply Forall_impl; [done|]. done.
Qed.

Lemma positions_sublist (l : list PacketLogEntry) o (acc : list (Z * PacketLogEntry)) :
  StronglySorted (λ a b, a.1 < b.1) acc →
  Forall (λ a, o <= a.1 ∧ entry_at l (a.1 - o) = Some a.2) acc →
  (snd <$> acc) `sublist_of` l.
Proof.
  revert o acc. induction l as [|x l IH]; intros o acc Hs Hf.
  { destruct acc as [|a acc]; [constructor|]. apply Forall_cons in Hf as [[_ Ha] _].
    unfold entry_at in Ha. by destruct (_ <=? _). }
  assert (Hshift : ∀ (b : Z * PacketLogEntry), o < b.1 ∧ entry_at (x :: l) (b.1 - o) = Some b.2 →
            o + 1 <= b.1 ∧ entry_at l (b.1 - (o + 1)) = Some b.2).
  { intros b [Hb Hl]. split; [lia|]. unfold entry_at in *. rewrite !(proj2 (Z.leb_le _ _)) in * by lia.
    replace (Z.to_nat (b.1 - o)) with (S (Z.to_nat (b.1 - (o + 1)))) in Hl by lia. done. }
  destruct acc as [|a acc]; [apply sublist_nil_l|].
  apply StronglySorted_inv in Hs as Hs'. destruct Hs' as [Hs1 Hs2].
  pose proof Hf as Hf0. apply Forall_cons in Hf as [[Ho Ha] Hf].
  destruct (decide (a.1 = o)) as [E|E].
  - rewrite E, Z.sub_diag in Ha. cbn in Ha. injection Ha as ->. cbn. apply sublist_skip.
    apply (IH (o + 1)); [done|]. rewrite Forall_forall in *. intros b Hb. apply Hshift.
    split; [|by apply Hf]. apply Hs2 in Hb. lia.
  - apply sublist_cons, (IH (o + 1)); [done|]. rewrite Forall_forall in *. intros b Hb. apply Hshift.
    split; [|by apply Hf0]. apply elem_of_cons in Hb as [->|Hb]; [lia|]. apply Hs2 in Hb. lia.
Qed.

(** However the log's one writer and its readers interleave, a call of
    [last] returns entries that were recorded, each intact (never the words of
    two different packets), in the order they were recorded. *)
Theorem packet_log_no_torn_read es limits schedule i r result :
  len es < 2 ^ 62 → Forall typed_entry es → Forall is_i64 limits →
  readers (sys_run (sys_start es limits) schedule) !! i = Some r →
  result_of r = Some result →
  result `sublist_of` es.
Proof.
  intros Hes Ht Hl Hi Hr. pose proof (sys_start_inv es limits Hes Hl) as Hinv.
  destruct (sys_run_inv schedule _ Hinv Ht) as [(_ & _ & _ & Hrd) Heq].
  apply (Forall_lookup_1 _ _ _ _ Hrd) in Hi. destruct r as [| | |acc]; [done..|].
  injection Hr as <-. destruct Hi as (c & Hs & Hf).
  assert (Hsub : (snd <$> acc) `sublist_of` recorded (sys_run (sys_start es limits) schedule)).
  { apply (positions_sublist _ 0); [done|]. eapply Forall_impl; [done|].
    intros a [Ha He]. rewrite Z.sub_0_r. split; [lia|done]. }
  change (recorded (sys_start es limits) ++ pending (sys_start es limits)) with es in Heq.
  rewrite <- Heq. etransitivity; [exact Hsub|]. apply sublist_inserts_r. reflexivity.
Qed.

Definition sample_entry (seq : Z) : PacketLogEntry := mkLogEntry seq (seq * 960) 111 7 120 false 0 (seq * 20) (seq * 20 + 1).

Lemma packet_log_no_torn_read_witness :
  [sample_entry 2; sample_entry 3] `sublist_of` (sample_entry <$> [1; 2; 3]).
Proof.
  apply (packet_log_no_torn_read (sample_entry <$> [1; 2; 3]) [2]
           (replicate 20 Write ++ replicate 25 Write ++ replicate 30 (Read 0)) 0
           (RDone [(1, sample_entry 2); (2, sample_entry 3)])).
  - vm_compute. done.
  - repeat constructor; vm_compute; congruence.
  - repeat constructor; vm_compute; congruence.
  - vm_compute. reflexivity.
  - reflexivity.
Defined.

(** *** [last] with no record in progress *)

(** Eleven actions for each of at most a thousand positions, one to begin and
    one to end. *)
Definition last_fuel : nat := Z.to_nat 11002.

Definition last_entries (limit : Z) (st : packetLogStore) : option (list PacketLogEntry) :=
  result_of (Nat.iter last_fuel (reader_action st) (RIdle limit)).

Lemma iter_done n st acc : Nat.iter n (reader_action st) (RDone acc) = RDone acc.
Proof. induction n as [|n IH]; [done|]. by rewrite Nat.iter_succ, IH. Qed.

Lemma read_position st p c acc sl e :
  p < c → entries st !! slot_index p = Some sl → generation sl = publishedGeneration p →
  slot_words sl = to_words e → typed_entry e →
  Nat.iter 11 (reader_action st) (RCheck p c acc) = RCheck (p + 1) c (acc ++ [(p, e)]).
Proof.
  intros Hp Hs Hg Hw Ht.
  assert (Hword : ∀ ws, (length ws < 9)%nat →
    reader_action st (RWords p c ws acc) = RWords p c (ws ++ [nth (length ws) (to_words e) 0]) acc).
  { intros ws Hl. cbn [reader_action]. rewrite Hs, (proj2 (Nat.ltb_lt _ _)), Hw by done. done. }
  assert (Hfirst : reader_action st (RCheck p c acc) = RWords p c [] acc).
  { cbn [reader_action]. rewrite (proj2 (Z.ltb_lt _ _)), Hs, (proj2 (Z.eqb_eq _ _)) by done. done. }
  assert (Hlast : reader_action st (RWords p c (to_words e) acc) = RCheck (p + 1) c (acc ++ [(p, e)])).
  { cbn [reader_action]. rewrite Hs, (proj2 (Z.eqb_eq _ _)), of_to_words by done. done. }
  rewrite !Nat.iter_succ. cbn [Nat.iter nat_rect]. rewrite Hfirst, !Hword by (cbn; lia). exact Hlast.
Qed.

(** The positions of a stretch of the log, with their entries. *)
Lemma read_stretch st c acc (es : list PacketLogEntry) p :
  0 <= p → p + len es = c → Forall typed_entry es →
  (∀ i e, es !! i = Some e → ∃ sl, entries st !! slot_index (p + Z.of_nat i) = Some sl ∧
     generation sl = publishedGeneration (p + Z.of_nat i) ∧ slot_words sl = to_words e) →
  ∃ acc', Nat.iter (11 * length es) (reader_action st) (RCheck p c acc) = RCheck c c acc' ∧
    snd <$> acc' = (snd <$> acc) ++ es.
Proof.
  revert p acc. induction es as [|e es IH]; intros p acc Hp Hc Ht Hs.
  { exists acc. unfold len in Hc. cbn in *. rewrite app_nil_r. replace c with p by lia. done. }
  apply Forall_cons in Ht as [He Ht]. unfold len in *. cbn [length] in *.
  destruct (Hs 0%nat e eq_refl) as (sl & Hl & Hg & Hw). rewrite Z.add_0_r in Hl, Hg.
  destruct (IH (p + 1) (acc ++ [(p, e)])) as (acc' & Hit & Hacc'); [lia|lia|done| |].
  { intros i e' Hi. destruct (Hs (S i) e' Hi) as (sl' & ?). exists sl'.
    by replace (p + 1 + Z.of_nat i) with (p + Z.of_nat (S i)) by lia. }
  exists acc'. split.
  - replace (11 * S (length es))%nat with (11 * length es + 11)%nat by lia. rewrite Nat.iter_add.
    by rewrite (read_position st p c acc sl e) by (done || lia).
  - rewrite Hacc', fmap_app. cbn. by rewrite <- app_assoc.
Qed.

Lemma last_entries_idle s limit :
  inv s → wstep s = 12%nat → Forall typed_entry (recorded s) → is_i64 limit →
  last_entries limit (mem s) =
  Some (drop (Z.to_nat (len (recorded s) - clamp_limit limit (len (recorded s)))) (recorded s)).
Proof.
  intros Hinv Hk Ht Hlim. pose proof (completed_nonneg s Hinv) as Hn.
  destruct Hinv as (_ & _ & (Hl & _ & Hc & Hpub & Hwin) & _).
  assert (Hcl : completed s = len (recorded s)) by (unfold completed; rewrite Hk; cbn; lia).
  rewrite <- Hcl. pose proof (clamp_limit_range limit (completed s) Hlim ltac:(lia)) as Hk'.
  set (k := clamp_limit limit (completed s)) in *.
  unfold last_entries. replace last_fuel with (Z.to_nat 11001 + 1)%nat by (unfold last_fuel; lia).
  rewrite Nat.iter_add. cbn [Nat.iter nat_rect reader_action].
  rewrite Hc. fold k. destruct (Z.eqb_spec k 0) as [E|E].
  { rewrite iter_done, E, Z.sub_0_r, Hcl, drop_ge by (unfold len; lia). done. }
  set (es := drop _ _).
  assert (Hes : len es = k) by (unfold es, len in *; rewrite length_drop; lia).
  destruct (read_stretch (mem s) (completed s) [] es (completed s - k)) as (acc & Hit & Hacc).
  - lia.
  - lia.
  - by apply Forall_drop.
  - intros i e Hi. unfold es in Hi. rewrite lookup_drop in Hi.
    set (p := completed s - k + Z.of_nat i).
    assert (Hi' : entry_at (recorded s) p = Some e).
    { unfold entry_at, p. rewrite (proj2 (Z.leb_le _ _)) by lia. rewrite <- Hi. f_equal. lia. }
    assert (Hp : 0 <= p < completed s).
    { apply lookup_lt_Some in Hi. unfold len, p in *. lia. }
    assert (Hg : generation (slot_at (mem s) p) = 2 * p + 2).
    { apply Hwin; [lia|]. rewrite <- Hcl. unfold p in *. lia. }
    destruct (Hpub p ltac:(lia) Hg) as (e' & He' & Hw). exists (slot_at (mem s) p).
    rewrite slot_lookup, publishedGeneration_exact by (done || lia).
    split_and!; [done|done|]. congruence.
  - replace (Z.to_nat 11001) with (Z.to_nat 11000 - 11 * length es + (1 + 11 * length es))%nat
      by (unfold len, packetLogWindowSize in *; lia).
    rewrite (Nat.iter_add _ (1 + _)), (Nat.iter_add 1), Hit. cbn [Nat.iter nat_rect reader_action].
    rewrite Z.ltb_irrefl, iter_done. cbn [result_of]. by rewrite Hacc.
Qed.

Lemma record_steps_from j k st n l e ps rs :
  (k + j = 12)%nat → writeCount st = n →
  sys_run (mkSystem st (l ++ [e]) k ps rs) (replicate j Write) =
  mkSystem (foldl (λ st' k, record_action k n e st') st (seq k j)) (l ++ [e]) 12 ps rs.
Proof.
  revert k st. induction j as [|j IH]; intros k st Hk Hn; [by replace k with 12%nat by lia|].
  unfold sys_run. cbn [replicate foldl seq]. unfold sys_step at 2. cbn [wstep recorded mem pending readers].
  rewrite (proj2 (Nat.ltb_lt _ _)), last_snoc, Hn by lia.
  destruct (decide (k = 11%nat)) as [->|Hk11]; [by replace j with 0%nat by lia|].
  apply IH; [lia|]. by rewrite record_action_slot by lia.
Qed.

Lemma begin_step st l e ps rs :
  sys_step (mkSystem st l 12 (e :: ps) rs) Write = mkSystem st (l ++ [e]) 0 ps rs.
Proof. reflexivity. Qed.

Lemma sys_run_cons s l ls : sys_run s (l :: ls) = sys_run (sys_step s l) ls.
Proof. reflexivity. Qed.

Lemma record_steps st l e ps rs :
  sys_run (mkSystem st l 12 (e :: ps) rs) (replicate 13 Write) =
  mkSystem (record e st) (l ++ [e]) 12 ps rs.
Proof.
  rewrite (replicate_S 12), sys_run_cons, begin_step.
  unfold record. apply record_steps_from; [lia|done].
Qed.

Lemma sys_run_app s ls ls' : sys_run s (ls ++ ls') = sys_run (sys_run s ls) ls'.
Proof. apply foldl_app. Qed.

Lemma record_all_steps st l es rs :
  sys_run (mkSystem st l 12 es rs) (replicate (13 * length es) Write) =
  mkSystem (foldl (λ st e, record e st) st es) (l ++ es) 12 [] rs.
Proof.
  revert st l. induction es as [|e es IH]; intros st l; [by rewrite app_nil_r|].
  cbn [length]. replace (13 * S (length es))%nat with (13 + 13 * length es)%nat by lia.
  rewrite replicate_add, sys_run_app, record_steps, IH. cbn [foldl]. by rewrite <- app_assoc.
Qed.

(** With no record in progress, [last limit] returns exactly the most recent
    entries, oldest first: as many as were asked for, recorded and retained (a
    negative limit asks for all that are retained). *)
Theorem last_most_recent es limit :
  len es < 2 ^ 62 → Forall typed_entry es → is_i64 limit →
  last_entries limit (foldl (λ st e, record e st) newPacketLogStore es) =
  Some (drop (length es - Z.to_nat (let kept := Z.min (len es) packetLogWindowSize in
                                    if (limit <? 0) || (kept <? limit) then kept else limit)) es).
Proof.
  intros Hes Ht Hlim.
  pose proof (record_all_steps newPacketLogStore [] es []) as Hrun.
  destruct (sys_run_inv (replicate (13 * length es) Write) (sys_start es [])
              (sys_start_inv es [] Hes ltac:(constructor)) Ht) as [Hinv _].
  unfold sys_start in Hinv. cbn [fmap list_fmap] in Hinv. rewrite Hrun in Hinv.
  pose proof (last_entries_idle _ limit Hinv eq_refl) as Hlast. cbn [mem recorded app] in Hlast.
  rewrite Hlast by done. do 2 f_equal.
  assert (Hc : clamp_limit limit (len es) =
    let kept := Z.min (len es) packetLogWindowSize in if (limit <? 0) || (kept <? limit) then kept else limit).
  { unfold clamp_limit. cbv zeta. unfold packetLogWindowSize, len in *.
    destruct (Z.ltb_spec limit 0); cbn [orb].
    - case_if; bool_hyps; [done|]. ilia.
    - rewrite u64_small by ilia. destruct (Z.ltb_spec (Z.min (Z.of_nat (length es)) 1000) limit);
        case_if; bool_hyps; lia. }
  rewrite <- Hc. pose proof (clamp_limit_range limit (len es) Hlim ltac:(unfold len; lia)).
  unfold len in *. lia.
Qed.

Lemma last_most_recent_witness :
  last_entries 2 (foldl (λ st e, record e st) newPacketLogStore (sample_entry <$> [1; 2; 3])) =
  Some [sample_entry 2; sample_entry 3].
Proof.
  rewrite (last_most_recent (sample_entry <$> [1; 2; 3]) 2).
  - vm_compute. reflexivity.
  - vm_compute. done.
  - repeat constructor; vm_compute; congruence.
  - split; vm_compute; congruence.
Defined.

End PacketLog.
