(* ===== verification/AudioBus.v ===== *)
(** * AudioBus: the attachment life cycle of one bus

    Translates [internal/session/bus.go] and [audio_bus.go].  [SetSource], the
    forwarding goroutines it starts, the two timers and [close] run
    concurrently; each label of [step] is one critical section or one action of
    one of them. *)

From S2P Require Export SessionTypes PacketLog ClockLineage.

Module Bus.

Definition BusMix : string := "mix".

Inductive BusRole :=
| BusRoleVoice | BusRoleMusic | BusRoleAgentOutput | BusRoleEvents | BusRoleMonitor
| BusRoleOther (n : Z).   (* any other value of the [uint8] *)

#[export] Instance BusRole_eq_dec : EqDecision BusRole.
Proof. solve_decision. Defined.

Definition LatencyRank (role : BusRole) : Z :=
  match role with
  | BusRoleVoice | BusRoleAgentOutput => 0
  | BusRoleMusic => 1
  | BusRoleEvents => 2
  | _ => 3
  end.

Definition ReliabilityRank (role : BusRole) : Z :=
  match role with
  | BusRoleVoice | BusRoleAgentOutput => 0
  | BusRoleMusic => 1
  | BusRoleEvents => 2
  | _ => 3
  end.

Definition role_String (role : BusRole) : string :=
  match role with
  | BusRoleVoice => "voice"
  | BusRoleMusic => "music"
  | BusRoleAgentOutput => "agent_output"
  | BusRoleEvents => "events"
  | BusRoleMonitor => "monitor"
  | BusRoleOther _ => "unknown"
  end.

End Bus.

Module AudioBus.
Import Bus.

(** Where the goroutine of one attachment is: waiting in [SetSource] for the
    previous loop, in [forwardLoop]'s [ReadRTP] or between it and [deliver], in
    the deferred detach, before the reconnect timer, before [close(loopDone)]. *)
Inductive phase :=
| Waiting | Forwarding | Delivering (pkt : Rtp.Packet) (rxTs : Z)
| Detaching | Arming | Finishing | Finished.

Record attachment := mkAttachment {
  src : nat;                 (* the [SourceSession], a pointer *)
  timeline : option nat;     (* its [ClockLineage()], a pointer *)
  prevDone : option nat;     (* the loop to wait for *)
  generation : Z;            (* uint64 *)
  at_ : phase }.

Definition set_phase (p : phase) (a : attachment) : attachment :=
  mkAttachment (src a) (timeline a) (prevDone a) (generation a) p.

(** The fields [sourceMu] guards, [sourceTimeline], and the sources whose closer
    has been called. *)
Record source_state := mkSource {
  source : option nat;
  sourceCloser : option nat;
  loopDone : option nat;
  sourceTimeline : option nat;
  sourceGeneration : Z;
  closed_sources : list nat }.

(** The fields [timerMu] guards: is each timer armed ([None]: no timer yet); the
    timer goroutines that have fired and not yet called [close]. *)
Record timer_state := mkTimers {
  inactivityTimer : bool;
  reconnectTimer : option bool;
  firing : nat }.

Record counter_state := mkCounters {
  PacketCount : Z;       (* uint64 *)
  ByteCount : Z;         (* uint64 *)
  PacketDropCount : Z;   (* uint64 *)
  lastRTPAtNanos : Z;    (* int64 *)
  packetLog : PacketLog.packetLogStore }.

Record AudioBus := mkBus {
  ID : string;
  Role : BusRole;
  counters : counter_state;
  sources : source_state;
  timers : timer_state;
  sourceEverConnected : bool;
  done : bool;
  loops : list attachment }.

Definition newAudioBus (id : string) (role : BusRole) : AudioBus :=
  mkBus id role (mkCounters 0 0 0 0 PacketLog.newPacketLogStore) (mkSource None None None None 0 [])
    (mkTimers true None 0) false false [].

Definition set_sources (s : source_state) (b : AudioBus) : AudioBus :=
  mkBus (ID b) (Role b) (counters b) s (timers b) (sourceEverConnected b) (done b) (loops b).
Definition set_timers (t : timer_state) (b : AudioBus) : AudioBus :=
  mkBus (ID b) (Role b) (counters b) (sources b) t (sourceEverConnected b) (done b) (loops b).
Definition set_counters (c : counter_state) (b : AudioBus) : AudioBus :=
  mkBus (ID b) (Role b) c (sources b) (timers b) (sourceEverConnected b) (done b) (loops b).
Definition set_loops (l : list attachment) (b : AudioBus) : AudioBus :=
  mkBus (ID b) (Role b) (counters b) (sources b) (timers b) (sourceEverConnected b) (done b) l.

(** Both timers stopped; a timer that already fired is not called back. *)
Definition stop_timers (t : timer_state) : timer_state :=
  mkTimers false ((λ _, false) <$> reconnectTimer t) (firing t).

(** [close], once. *)
Definition close (b : AudioBus) : AudioBus :=
  if done b then b
  else mkBus (ID b) (Role b) (counters b) (sources b) (stop_timers (timers b))
         (sourceEverConnected b) true (loops b).

(** The critical section of [SetSource] and the call of the previous closer. *)
Definition attach (s : nat) (t : option nat) (b : AudioBus) : AudioBus :=
  let g := u64 (sourceGeneration (sources b) + 1) in
  let a := mkAttachment s t (loopDone (sources b)) g Waiting in
  let closed := match sourceCloser (sources b) with
                | Some c => closed_sources (sources b) ++ [c]
                | None => closed_sources (sources b)
                end in
  set_loops (loops b ++ [a])
    (set_sources (mkSource (Some s) (Some s) (Some (length (loops b))) t g closed) b).

Definition is_finished (b : AudioBus) (i : option nat) : bool :=
  match i with
  | None => true
  | Some i => match loops b !! i with
              | Some a => match at_ a with Finished => true | _ => false end
              | None => false
              end
  end.

(** The rest of [SetSource], after [<-prevDone]: the timers are stopped, the
    watchdog clock is seeded and the loop starts. *)
Definition start_loop (i : nat) (now : Z) (b : AudioBus) : AudioBus :=
  let c := counters b in
  mkBus (ID b) (Role b)
    (mkCounters (PacketCount c) (ByteCount c) (PacketDropCount c) (UnixNano now) (packetLog c))
    (sources b) (stop_timers (timers b)) true (done b)
    (alter (set_phase Forwarding) i (loops b)).

(** A packet read by the loop: dropped when the bus is closed, counted otherwise. *)
Definition receive_packet (i : nat) (pkt : Rtp.Packet) (rxTs : Z) (b : AudioBus) : AudioBus :=
  if done b then set_loops (alter (set_phase Detaching) i (loops b)) b
  else
    let c := counters b in
    set_counters
      (mkCounters (u64 (PacketCount c + 1)) (u64 (ByteCount c + len (Rtp.Payload pkt))) (PacketDropCount c)
         rxTs (packetLog c))
      (set_loops (alter (set_phase (Delivering pkt rxTs)) i (loops b)) b).

Definition log_entry (pkt : Rtp.Packet) (rxTs txTs : Z) : PacketLog.PacketLogEntry :=
  PacketLog.mkLogEntry (Rtp.SequenceNumber pkt) (Rtp.Timestamp pkt) (Rtp.PayloadType pkt) (Rtp.SSRC pkt)
    (len (Rtp.Payload pkt)) (Rtp.Padding pkt) (Rtp.PaddingSize pkt) rxTs txTs.

(** One call of [deliver]: the attachment and generation, the packet, and the
    timeline [CaptureTime] consults. *)
Record delivery := mkDelivery {
  from : nat;
  gen : Z;
  packet : Rtp.Packet;
  clock : option nat }.

Definition deliver_packet (i : nat) (pkt : Rtp.Packet) (rxTs txTs : Z) (b : AudioBus) : AudioBus :=
  let c := counters b in
  set_counters
    (mkCounters (PacketCount c) (ByteCount c) (PacketDropCount c) (lastRTPAtNanos c)
       (PacketLog.record (log_entry pkt rxTs txTs) (packetLog c)))
    (set_loops (alter (set_phase Forwarding) i (loops b)) b).

(** The deferred detach: only the bus's current source is cleared. *)
Definition detach (i : nat) (a : attachment) (b : AudioBus) : AudioBus :=
  let s := sources b in
  let s' := if bool_decide (source s = Some (src a))
            then mkSource None None (loopDone s) None (sourceGeneration s) (closed_sources s)
            else s in
  set_loops (alter (set_phase Arming) i (loops b)) (set_sources s' b).

(** The reconnect timer, unless the bus is closed. *)
Definition arm_reconnect (i : nat) (b : AudioBus) : AudioBus :=
  let t := timers b in
  let t' := if done b then t else mkTimers (inactivityTimer t) (Some true) (firing t) in
  set_loops (alter (set_phase Finishing) i (loops b)) (set_timers t' b).

Inductive label :=
| LAttach (s : nat) (t : option nat)
| LStart (i : nat) (now : Z)
| LRead (i : nat) (pkt : Rtp.Packet) (rxTs : Z)
| LDeliver (i : nat) (txTs : Z)
| LReadError (i : nat)
| LDetach (i : nat)
| LArm (i : nat)
| LFinish (i : nat)
| LInactivityFires
| LReconnectFires
| LTimerClose
| LClose
| LDrop.   (* [PacketDropCount.Add(1)], by an ingress source *)

Definition step (b : AudioBus) (l : label) : option (AudioBus * option delivery) :=
  let loop i := loops b !! i in
  let t := timers b in
  match l with
  | LAttach s tl => Some (attach s tl b, None)
  | LStart i now =>
    match loop i with
    | Some (mkAttachment _ _ prev _ Waiting) =>
      if is_finished b prev then Some (start_loop i now b, None) else None
    | _ => None
    end
  | LRead i pkt rxTs =>
    match loop i with
    | Some (mkAttachment _ _ _ _ Forwarding) => Some (receive_packet i pkt rxTs b, None)
    | _ => None
    end
  | LDeliver i txTs =>
    match loop i with
    | Some (mkAttachment _ _ _ g (Delivering pkt rxTs)) =>
      Some (deliver_packet i pkt rxTs txTs b, Some (mkDelivery i g pkt (sourceTimeline (sources b))))
    | _ => None
    end
  | LReadError i =>
    match loop i with
    | Some (mkAttachment _ _ _ _ Forwarding) =>
      Some (set_loops (alter (set_phase Detaching) i (loops b)) b, None)
    | _ => None
    end
  | LDetach i =>
    match loop i with
    | Some (mkAttachment s tl prev g Detaching) =>
      Some (detach i (mkAttachment s tl prev g Detaching) b, None)
    | _ => None
    end
  | LArm i =>
    match loop i with
    | Some (mkAttachment _ _ _ _ Arming) => Some (arm_reconnect i b, None)
    | _ => None
    end
  | LFinish i =>
    match loop i with
    | Some (mkAttachment _ _ _ _ Finishing) =>
      Some (set_loops (alter (set_phase Finished) i (loops b)) b, None)
    | _ => None
    end
  | LInactivityFires =>
    if inactivityTimer t
    then Some (set_timers (mkTimers false (reconnectTimer t) (S (firing t))) b, None) else None
  | LReconnectFires =>
    match reconnectTimer t with
    | Some true => Some (set_timers (mkTimers (inactivityTimer t) (Some false) (S (firing t))) b, None)
    | _ => None
    end
  | LTimerClose =>
    match firing t with
    | S n => Some (close (set_timers (mkTimers (inactivityTimer t) (reconnectTimer t) n) b), None)
    | O => None
    end
  | LClose => Some (close b, None)
  | LDrop =>
    let c := counters b in
    Some (set_counters (mkCounters (PacketCount c) (ByteCount c) (u64 (PacketDropCount c + 1))
                          (lastRTPAtNanos c) (packetLog c)) b, None)
  end.

(** A run, and what it delivers, in order. *)
Fixpoint run (b : AudioBus) (ls : list label) : option (AudioBus * list delivery) :=
  match ls with
  | [] => Some (b, [])
  | l :: ls' =>
    match step b l with
    | None => None
    | Some (b', out) =>
      match run b' ls' with
      | None => None
      | Some (b'', outs) => Some (b'', match out with Some d => d :: outs | None => outs end)
      end
    end
  end.

(** *** Observations *)

Definition SourceActive (b : AudioBus) : bool := bool_decide (source (sources b) ≠ None).
Definition SourceGeneration (b : AudioBus) : Z := sourceGeneration (sources b).

Definition CaptureTime (timelines : list Timeline.Timeline) (b : AudioBus) (rtpTimestamp now : Z) : Z * bool :=
  match sourceTimeline (sources b) with
  | None => (zero_time, false)
  | Some p =>
    match timelines !! p with
    | None => (zero_time, false)
    | Some tl => match Timeline.CaptureTime tl rtpTimestamp now 48000 (10 * Second) with
                 | Some c => (c, true)
                 | None => (zero_time, false)
                 end
    end
  end.

(** [time.Since(time.Unix(0, last))] *)
Definition LastRTPAge (b : AudioBus) (now : Z) : Z :=
  if lastRTPAtNanos (counters b) =? 0 then maxInt64 else Sub now (time_Unix 0 (lastRTPAtNanos (counters b))).

Definition Stalled (b : AudioBus) (now threshold : Z) : bool :=
  SourceActive b && (LastRTPAge b now >? threshold).

Record BusHealth := mkHealth {
  hBusID : string; hRole : string; hSourceActive : bool; hStalled : bool;
  hLastRTPAgeMs : Z; hPacketCount : Z; hByteCount : Z; hDropCount : Z }.

Definition Health (b : AudioBus) (now threshold : Z) : BusHealth :=
  let age := LastRTPAge b now in
  let c := counters b in
  mkHealth (ID b) (role_String (Role b)) (SourceActive b) (Stalled b now threshold)
    (if age =? maxInt64 then -1 else Milliseconds age) (PacketCount c) (ByteCount c) (PacketDropCount c).

(** *** The invariant *)

(** The loop goroutine owns the forwarding path: it has started and has not yet
    rearmed the reconnect timer. *)
Definition running (p : phase) : bool :=
  match p with Forwarding | Delivering _ _ | Detaching | Arming => true | _ => false end.

Definition started (p : phase) : Prop := p ≠ Waiting.

(** Attachments are numbered by generation and each waits for the one before. *)
Definition numbered (l : list attachment) : Prop :=
  ∀ i a, l !! i = Some a →
    generation a = Z.of_nat i + 1 ∧ prevDone a = match i with O => None | S j => Some j end.

(** A loop starts only after every earlier loop has finished. *)
Definition ordered (l : list attachment) : Prop :=
  ∀ i j ai aj, (i < j)%nat → l !! i = Some ai → l !! j = Some aj →
    started (at_ aj) → at_ ai = Finished.

(** No timer is armed while a loop runs. *)
Definition quiet (l : list attachment) (t : timer_state) : Prop :=
  ∀ i a, l !! i = Some a → running (at_ a) = true →
    inactivityTimer t = false ∧ reconnectTimer t ≠ Some true.

Definition sources_ok (l : list attachment) (s : source_state) : Prop :=
  sourceGeneration s = len l ∧
  loopDone s = match length l with O => None | S j => Some j end ∧
  ∀ t, sourceTimeline s = Some t → ∃ a, last l = Some a ∧ timeline a = Some t.

Definition inv (b : AudioBus) : Prop :=
  numbered (loops b) ∧ ordered (loops b) ∧ quiet (loops b) (timers b) ∧ sources_ok (loops b) (sources b).

(** The loops with one of them in another phase. *)
Definition goto (i : nat) (p : phase) (l : list attachment) : list attachment := alter (set_phase p) i l.

Lemma goto_lookup i p l j a :
  goto i p l !! j = Some a →
  ∃ a0, l !! j = Some a0 ∧ (j = i ∧ a = set_phase p a0 ∨ j ≠ i ∧ a = a0).
Proof.
  unfold goto. destruct (decide (j = i)) as [->|Hne].
  - rewrite list_lookup_alter_eq. destruct (l !! i) as [a0|]; [|done]. cbn. intros [= <-]. eauto.
  - rewrite list_lookup_alter_ne by done. eauto.
Qed.

Lemma goto_numbered i p l : numbered l → numbered (goto i p l).
Proof. intros H j a Hj. apply goto_lookup in Hj as (a0 & Hj & [[-> ->]|[_ ->]]); apply (H _ _ Hj). Qed.

Lemma goto_sources_ok i p l s : sources_ok l s → sources_ok (goto i p l) s.
Proof.
  unfold sources_ok, goto, len. rewrite length_alter. intros (? & ? & Ht). split_and!; [done..|].
  intros t E. destruct (Ht t E) as (a & Hl & Ha). rewrite last_lookup, length_alter in *.
  destruct (decide (pred (length l) = i)) as [E'|Hne].
  - rewrite E' in *. rewrite list_lookup_alter_eq, Hl. by exists (set_phase p a).
  - rewrite list_lookup_alter_ne by done. by exists a.
Qed.

(** The running loop moves on. *)
Lemma goto_ordered i p l a :
  ordered l → l !! i = Some a → started (at_ a) → at_ a ≠ Finished → ordered (goto i p l).
Proof.
  intros H Hi Hs Hf j k aj ak Hjk Hj Hk Hst.
  apply goto_lookup in Hj as (aj0 & Hj & Cj), Hk as (ak0 & Hk & Ck).
  destruct Ck as [[-> ->]|[Hk' ->]].
  - destruct Cj as [[-> ->]|[_ ->]]; [lia|]. by apply (H j i aj0 a).
  - destruct Cj as [[-> ->]|[_ ->]]; [|by apply (H j k aj0 ak0)].
    exfalso. apply Hf. apply (H i k a ak0); done.
Qed.

(** The first loop that has not started, starts. *)
Lemma start_ordered i l a :
  numbered l → ordered l → l !! i = Some a → at_ a = Waiting →
  (∀ j, prevDone a = Some j → ∃ aj, l !! j = Some aj ∧ at_ aj = Finished) →
  ordered (goto i Forwarding l).
Proof.
  intros Hn H Hi Hw Hp j k aj ak Hjk Hj Hk Hst.
  apply goto_lookup in Hj as (aj0 & Hj & Cj), Hk as (ak0 & Hk & Ck).
  destruct (Hn i a Hi) as [_ Hprev]. destruct Ck as [[-> ->]|[Hk' ->]].
  - destruct Cj as [[-> ->]|[_ ->]]; [lia|]. destruct i as [|i]; [lia|].
    destruct (Hp i Hprev) as (ai & Hi' & Hfin).
    destruct (decide (j = i)) as [->|]; [congruence|].
    apply (H j i aj0 ai); [lia|done..|]. unfold started. by rewrite Hfin.
  - destruct Cj as [[-> ->]|[_ ->]]; [|by apply (H j k aj0 ak0)].
    exfalso. assert (at_ a = Finished) by (by apply (H i k a ak0)). congruence.
Qed.

Lemma goto_quiet i p l t a :
  quiet l t → l !! i = Some a → (running p = true → running (at_ a) = true) → quiet (goto i p l) t.
Proof.
  intros H Hi Hr j aj Hj. apply goto_lookup in Hj as (a0 & Hj & [[-> ->]|[_ ->]]); cbn.
  - intros Hp. apply (H i a Hi). auto.
  - by apply (H j).
Qed.

Lemma stopped_quiet l t : quiet l (stop_timers t).
Proof. intros i a _ _. cbn. split; [done|]. by destruct (reconnectTimer t). Qed.

Lemma running_started p : running p = true → started p ∧ p ≠ Finished.
Proof. by destruct p. Qed.

Lemma running_unique l i j ai aj :
  ordered l → l !! i = Some ai → l !! j = Some aj →
  running (at_ ai) = true → running (at_ aj) = true → i = j.
Proof.
  intros H Hi Hj Ri Rj. apply running_started in Ri as [Si Fi], Rj as [Sj Fj].
  destruct (lt_eq_lt_dec i j) as [[Hlt|]|Hlt]; [|done|].
  - destruct Fi. by apply (H i j ai aj).
  - destruct Fj. by apply (H j i aj ai).
Qed.

Lemma arm_quiet i l t a :
  ordered l → l !! i = Some a → at_ a = Arming → quiet (goto i Finishing l) t.
Proof.
  intros H Hi Ha j aj Hj Hr. apply goto_lookup in Hj as (a0 & Hj & [[-> ->]|[Hne ->]]); [done|].
  destruct Hne. apply (running_unique l j i a0 a); [done..|by rewrite Ha].
Qed.

Lemma attach_inv s t b : len (loops b) + 1 < 2 ^ 64 → inv b → inv (attach s t b).
Proof.
  intros Hlen (Hn & Ho & Hq & (Hg & Hl & Ht)). unfold inv, attach.
  cbn [loops timers sources set_loops set_sources]. rewrite Hg. set (a := mkAttachment _ _ _ _ Waiting).
  assert (Hu : u64 (len (loops b) + 1) = len (loops b) + 1) by (apply u64_small; unfold len in *; ilia).
  split_and!.
  - intros i x Hx. apply lookup_snoc_Some in Hx as [[Hi Hx]|[-> <-]]; [by apply Hn|].
    subst a. cbn [generation prevDone]. rewrite Hu. by rewrite Hl.
  - intros i j ai aj Hij Hi Hj Hs. apply lookup_snoc_Some in Hj as [[Hj' Hj]|[-> <-]]; [|done].
    apply lookup_snoc_Some in Hi as [[_ Hi]|[-> _]]; [|lia]. by apply (Ho i j ai aj).
  - intros i x Hx Hr. apply lookup_snoc_Some in Hx as [[_ Hx]|[_ <-]]; [by apply (Hq i x)|done].
  - unfold sources_ok, len in *. cbn [sourceGeneration loopDone sourceTimeline].
    rewrite length_app, Nat.add_1_r, Hu. split_and!; [cbn; lia|done|].
    intros t' ->. exists a. by rewrite last_snoc.
Qed.

Lemma close_inv b : inv b → inv (close b).
Proof.
  intros (Hn & Ho & Hq & Hs). unfold close. destruct (done b); [by split_and!|].
  split_and!; [done|done|apply stopped_quiet|done].
Qed.

Lemma set_timers_inv t b : inv b → quiet (loops b) t → inv (set_timers t b).
Proof. intros (Hn & Ho & _ & Hs) Hq. by split_and!. Qed.

(** A running loop moves to phase [p]; sources, timers and loops end as given. *)
Lemma move_inv i p a b b' :
  inv b → loops b !! i = Some a → started (at_ a) → at_ a ≠ Finished →
  (running p = true → running (at_ a) = true) →
  loops b' = goto i p (loops b) → timers b' = timers b → sources b' = sources b → inv b'.
Proof.
  intros (Hn & Ho & Hq & Hs) Hi Hst Hf Hr Hl Ht Hsrc. unfold inv. rewrite Hl, Ht, Hsrc.
  split; [by apply goto_numbered|]. split; [by eapply goto_ordered|].
  split; [by eapply goto_quiet|by apply goto_sources_ok].
Qed.

Lemma detach_inv i a b :
  inv b → loops b !! i = Some a → at_ a = Detaching → inv (detach i a b).
Proof.
  intros (Hn & Ho & Hq & Hs) Hi Ha. unfold detach, inv. cbn [loops timers sources set_loops set_sources].
  fold (goto i Arming (loops b)). split; [by apply goto_numbered|].
  split; [eapply goto_ordered; try done; by rewrite Ha|].
  split; [eapply goto_quiet; try done; by rewrite Ha|].
  apply goto_sources_ok. case_bool_decide; [|done]. destruct Hs as (? & ? & ?). by split_and!.
Qed.

Lemma start_inv i now a b :
  inv b → loops b !! i = Some a → at_ a = Waiting → is_finished b (prevDone a) = true →
  inv (start_loop i now b).
Proof.
  intros (Hn & Ho & Hq & Hs) Hi Ha Hp. unfold start_loop, inv. cbn [loops timers sources].
  fold (goto i Forwarding (loops b)). split; [by apply goto_numbered|].
  split; [|split; [apply stopped_quiet|by apply goto_sources_ok]].
  eapply start_ordered; try done. intros j E. rewrite E in Hp. cbn in Hp.
  destruct (loops b !! j) as [aj|]; [|done]. exists aj. by destruct (at_ aj).
Qed.

Lemma step_inv b l b' out :
  len (loops b) + 1 < 2 ^ 64 → inv b → step b l = Some (b', out) → inv b'.
Proof.
  intros Hlen Hinv Hstep.
  destruct l as [s t|i now|i pkt rx|i tx|i|i|i|i| | | | |]; cbn [step] in Hstep;
    try (destruct (loops b !! i) as [a|] eqn:Hi; [|done];
         destruct a as [as_ at' ap ag ph]; destruct ph; try done).
  - injection Hstep as <- <-. by apply attach_inv.
  - destruct (is_finished b ap) eqn:Hf; [|done]. injection Hstep as <- <-. by eapply start_inv.
  - injection Hstep as <- <-. unfold receive_packet. destruct (done b); by eapply move_inv.
  - injection Hstep as <- <-. by eapply move_inv.
  - injection Hstep as <- <-. by eapply move_inv.
  - injection Hstep as <- <-. by apply detach_inv.
  - injection Hstep as <- <-. pose proof Hinv as (Hn & Ho & Hq & Hs). unfold inv, arm_reconnect.
    cbn [loops timers sources set_loops set_timers]. fold (goto i Finishing (loops b)).
    split; [by apply goto_numbered|]. split; [by eapply goto_ordered|].
    split; [by eapply arm_quiet|by apply goto_sources_ok].
  - injection Hstep as <- <-. by eapply (move_inv i Finished).
  - destruct (inactivityTimer _); [|done]. injection Hstep as <- <-. apply set_timers_inv; [done|].
    destruct Hinv as (_ & _ & Hq & _). intros i a Hi Hr. split; [done|]. by apply (Hq i a).
  - destruct (reconnectTimer _) as [[]|]; [|done..]. injection Hstep as <- <-. apply set_timers_inv; [done|].
    destruct Hinv as (_ & _ & Hq & _). intros i a Hi Hr. split; [|done]. by apply (Hq i a).
  - destruct (firing _); [done|]. injection Hstep as <- <-. apply close_inv, set_timers_inv; [done|].
    by destruct Hinv as (_ & _ & Hq & _).
  - injection Hstep as <- <-. by apply close_inv.
  - by injection Hstep as <- <-.
Qed.

(** *** Runs *)

(** Attachments keep their place, source and timeline, and never stop having started. *)
Definition extends (l l' : list attachment) : Prop :=
  ∀ i a, l !! i = Some a → ∃ a', l' !! i = Some a' ∧ src a' = src a ∧ timeline a' = timeline a ∧
    (started (at_ a) → started (at_ a')).

#[export] Instance extends_preorder : PreOrder extends.
Proof.
  split.
  - intros l i a Hi. by exists a.
  - intros l1 l2 l3 H1 H2 i a Hi. destruct (H1 i a Hi) as (a' & Hi' & Hs' & Ht' & Hst').
    destruct (H2 i a' Hi') as (a'' & Hi'' & Hs'' & Ht'' & Hst''). exists a''. split_and!; [done|congruence..|auto].
Qed.

Lemma goto_extends i p l : started p → extends l (goto i p l).
Proof.
  intros Hp j a Hj. unfold goto. destruct (decide (j = i)) as [->|Hne].
  - rewrite list_lookup_alter_eq, Hj. by exists (set_phase p a).
  - rewrite list_lookup_alter_ne by done. by exists a.
Qed.

Lemma step_extends b l b' out : step b l = Some (b', out) → extends (loops b) (loops b').
Proof.
  intros Hstep. destruct l as [s t|i now|i pkt rx|i tx|i|i|i|i| | | | |]; cbn [step] in Hstep;
    try (destruct (loops b !! i) as [a|] eqn:Hi; [|done];
         destruct a as [as_ at' ap ag ph]; destruct ph; try done);
    repeat case_match; simplify_eq; unfold close, receive_packet; repeat case_match; try reflexivity;
    try by apply goto_extends.
  intros i a Hi. exists a. split; [by apply lookup_app_l_Some|done].
Qed.

Lemma step_length b l b' out : step b l = Some (b', out) → len (loops b') <= len (loops b) + 1.
Proof.
  intros Hstep. destruct l as [s t|i now|i pkt rx|i tx|i|i|i|i| | | | |]; cbn [step] in Hstep;
    try (destruct (loops b !! i) as [a|] eqn:Hi; [|done];
         destruct a as [as_ at' ap ag ph]; destruct ph; try done);
    repeat case_match; simplify_eq; unfold close, receive_packet; repeat case_match; unfold len; cbn;
    rewrite ?length_alter, ?length_app; cbn; lia.
Qed.

(** What a step delivers comes from the running loop, with its own generation,
    and its clock is that of the attachment last made. *)
Lemma step_delivery b l b' d :
  inv b → step b l = Some (b', Some d) →
  ∃ a, loops b !! from d = Some a ∧ running (at_ a) = true ∧ gen d = Z.of_nat (from d) + 1 ∧
    (∀ t, clock d = Some t → ∃ a', last (loops b) = Some a' ∧ timeline a' = Some t).
Proof.
  intros (Hn & _ & _ & (_ & _ & Ht)) Hstep.
  destruct l; cbn [step] in Hstep; repeat case_match; simplify_eq.
  exists (mkAttachment src0 timeline0 prevDone0 generation0 (Delivering pkt rxTs)). cbn [from gen clock].
  split_and!; [done|done| |done]. by apply (Hn i _ H).
Qed.

Lemma last_lookup_ge {A} (l : list A) i x y :
  l !! i = Some x → last l = Some y → ∃ j, (i <= j)%nat ∧ l !! j = Some y.
Proof.
  intros Hi Hl. rewrite last_lookup in Hl. exists (pred (length l)). split; [|done].
  apply lookup_lt_Some in Hi. lia.
Qed.

Record deliveries_ok (b b' : AudioBus) (outs : list delivery) : Prop := {
  ok_inv : inv b';
  ok_extends : extends (loops b) (loops b');
  ok_after : ∀ i a d, loops b !! i = Some a → started (at_ a) → d ∈ outs → (i <= from d)%nat;
  ok_sorted : StronglySorted (λ d d', (from d <= from d')%nat) outs;
  ok_each : ∀ d, d ∈ outs → gen d = Z.of_nat (from d) + 1 ∧
    ∀ t, clock d = Some t → ∃ j a, (from d <= j)%nat ∧ loops b' !! j = Some a ∧ timeline a = Some t }.

Lemma run_deliveries ls b b' outs :
  inv b → len (loops b) + len ls < 2 ^ 64 → run b ls = Some (b', outs) → deliveries_ok b b' outs.
Proof.
  revert b outs. induction ls as [|l ls IH]; intros b outs Hinv Hlen Hrun; cbn [run] in Hrun.
  { simplify_eq. split; [done|reflexivity|set_solver|constructor|set_solver]. }
  destruct (step b l) as [[b1 out]|] eqn:Hstep; [|done].
  destruct (run b1 ls) as [[b2 outs']|] eqn:Hrun'; [|done]. simplify_eq.
  assert (Hl : len (l :: ls) = 1 + len ls) by (unfold len; cbn; lia).
  assert (Hls : 0 <= len ls) by (unfold len; lia).
  pose proof (step_length _ _ _ _ Hstep). pose proof (step_extends _ _ _ _ Hstep) as Hext.
  destruct (IH b1 outs') as [Hi He Ha Hs Hd]; [eapply step_inv; eauto; lia|lia|done|].
  assert (Hafter : ∀ i a d, loops b !! i = Some a → started (at_ a) → d ∈ outs' → (i <= from d)%nat).
  { intros i a d Hia Hst Hd'. destruct (Hext i a Hia) as (a' & Hia' & _ & _ & Hst').
    apply (Ha i a' d); auto. }
  destruct out as [d|]; [|split; [done|by etransitivity|done|done|done]].
  destruct (step_delivery _ _ _ _ Hinv Hstep) as (a & Hfrom & Hrunning & Hgen & Hclock).
  apply running_started in Hrunning as [Hst Hnf].
  split; [done|by etransitivity| | |].
  - intros i ai d' Hia Hsti Hin. apply elem_of_cons in Hin as [->|Hin]; [|by eapply Hafter].
    destruct (decide (from d < i)%nat); [|lia]. destruct Hnf, Hinv as (_ & Ho & _). by apply (Ho (from d) i a ai).
  - constructor; [done|]. apply Forall_forall. intros d' Hin. by apply (Hafter (from d) a).
  - intros d' Hin. apply elem_of_cons in Hin as [->|Hin]; [|by apply Hd]. split; [done|].
    intros t E. destruct (Hclock t E) as (al & Hlast & Htl).
    destruct (last_lookup_ge _ _ _ _ Hfrom Hlast) as (j & Hj & Hjl).
    destruct ((transitivity Hext He : extends _ _) j al Hjl) as (a' & Hj' & _ & Htl' & _).
    exists j, a'. split_and!; [done|done|congruence].
Qed.

Lemma new_inv id role : inv (newAudioBus id role).
Proof. split_and!; [by intros []|by intros []|by intros []|by split_and!]. Qed.

(** At most one forwarding loop of a bus runs at a time, whatever the
    interleaving of attaches, loop actions and timers; and while a loop runs,
    neither the inactivity nor the reconnect timer is armed. *)
Theorem bus_single_loop id role ls b outs :
  len ls < 2 ^ 64 → run (newAudioBus id role) ls = Some (b, outs) →
  (∀ i j ai aj, loops b !! i = Some ai → loops b !! j = Some aj →
     running (at_ ai) = true → running (at_ aj) = true → i = j) ∧
  (∀ i a, loops b !! i = Some a → running (at_ a) = true →
     inactivityTimer (timers b) = false ∧ reconnectTimer (timers b) ≠ Some true).
Proof.
  intros Hls Hrun. destruct (run_deliveries ls _ b outs (new_inv id role) Hls Hrun) as [(Hn & Ho & Hq & _) _ _ _ _].
  split; [|exact Hq]. intros i j ai aj. by apply running_unique.
Qed.

(** C9: Packets reach the subscribers in the order of the attachments they come
    from: the generations a bus delivers never decrease, so no packet of a
    replaced source follows one of its successor.  No packet is mapped onto the
    clock of an earlier attachment than its own. *)
Theorem bus_delivery_order id role ls b outs :
  len ls < 2 ^ 64 → run (newAudioBus id role) ls = Some (b, outs) →
  StronglySorted (λ d d', gen d <= gen d') outs ∧
  ∀ d t, d ∈ outs → clock d = Some t →
    ∃ a, a ∈ loops b ∧ timeline a = Some t ∧ gen d <= generation a.
Proof.
  intros Hls Hrun. destruct (run_deliveries ls _ b outs (new_inv id role) Hls Hrun) as [(Hn & _) _ _ Hs Hd]. split.
  - assert (Hf : Forall (λ d, gen d = Z.of_nat (from d) + 1) outs).
    { apply Forall_forall. intros d Hin. by apply Hd. }
    clear -Hs Hf. induction Hs as [|d outs Hs IH Hall]; [constructor|].
    apply Forall_cons in Hf as [Hg Hf]. constructor; [auto|].
    rewrite Forall_forall in *. intros d' Hin. pose proof (Hall d' Hin). rewrite Hg, (Hf d' Hin). lia.
  - intros d t Hin Ht. destruct (Hd d Hin) as [Hg Hc]. destruct (Hc t Ht) as (j & a & Hj & Ha & Hta).
    exists a. split_and!; [by eapply list_elem_of_lookup_2|done|]. destruct (Hn j a Ha) as [-> _]. lia.
Qed.

(** An ICE restart: the second source is attached while the first still forwards. *)
Definition restart_run : list label :=
  [LAttach 10 (Some 0%nat); LStart 0 5; LRead 0 (Rtp.media 1 960 [7]) 6; LDeliver 0 7;
   LAttach 20 (Some 1%nat); LRead 0 (Rtp.media 2 1920 [8]) 8; LDeliver 0 9; LReadError 0; LDetach 0;
   LArm 0; LFinish 0; LStart 1 10; LRead 1 (Rtp.media 1 960 [9]) 11; LDeliver 1 12].

Definition run_result (id : string) (ls : list label) : AudioBus * list delivery :=
  default (newAudioBus id BusRoleVoice, []) (run (newAudioBus id BusRoleVoice) ls).

Lemma bus_single_loop_witness :
  inactivityTimer (timers (run_result "voice" restart_run).1) = false ∧
  reconnectTimer (timers (run_result "voice" restart_run).1) ≠ Some true.
Proof.
  apply (proj2 (bus_single_loop "voice" BusRoleVoice restart_run (run_result "voice" restart_run).1
                  (run_result "voice" restart_run).2 eq_refl ltac:(vm_compute; reflexivity)) 1%nat
           (mkAttachment 20 (Some 1%nat) (Some 0%nat) 2 Forwarding)); vm_compute; reflexivity.
Defined.

Lemma bus_delivery_order_witness :
  StronglySorted (λ d d', gen d <= gen d') (run_result "voice" restart_run).2 ∧
  map gen (run_result "voice" restart_run).2 = [1; 1; 2] ∧
  map clock (run_result "voice" restart_run).2 = [Some 0%nat; Some 1%nat; Some 1%nat].
Proof.
  split; [|split; vm_compute; reflexivity].
  apply (proj1 (bus_delivery_order "voice" BusRoleVoice restart_run (run_result "voice" restart_run).1
                  (run_result "voice" restart_run).2 eq_refl ltac:(vm_compute; reflexivity))).
Defined.

(** *** A closed bus *)

Definition no_delivery (b : AudioBus) : Prop :=
  done b = true ∧ ∀ i a pkt rx, loops b !! i = Some a → at_ a ≠ Delivering pkt rx.

Lemma goto_no_delivery i p l :
  (∀ pkt rx, p ≠ Delivering pkt rx) →
  (∀ j a pkt rx, l !! j = Some a → at_ a ≠ Delivering pkt rx) →
  ∀ j a pkt rx, goto i p l !! j = Some a → at_ a ≠ Delivering pkt rx.
Proof.
  intros Hp H j a pkt rx Hj. apply goto_lookup in Hj as (a0 & Hj & [[-> ->]|[_ ->]]); [apply Hp|by eapply H].
Qed.

Lemma closed_step b l b' out :
  no_delivery b → step b l = Some (b', out) → no_delivery b' ∧ out = None.
Proof.
  intros [Hd Hn] Hstep. destruct l as [s t|i now|i pkt rx|i tx|i|i|i|i| | | | |]; cbn [step] in Hstep;
    try (destruct (loops b !! i) as [a|] eqn:Hi; [|done];
         destruct a as [as_ at' ap ag ph]; destruct ph; try done);
    repeat case_match; simplify_eq; unfold close, receive_packet; cbn [done set_timers]; rewrite ?Hd;
    try (split; [split; [done|]|done]); try exact Hn; try (by apply goto_no_delivery).
  - intros i a pkt rx Hi. apply lookup_snoc_Some in Hi as [[_ Hi]|[_ <-]]; [by eapply Hn|done].
  - by destruct (Hn _ _ pkt rxTs Hi).
Qed.


(** The reconnect window passes, the bus closes, and a new publisher attaches. *)
Definition lost_publisher : list label :=
  [LAttach 10 None; LStart 0 5; LReadError 0; LDetach 0; LArm 0; LFinish 0; LReconnectFires; LTimerClose].
Definition new_publisher : list label :=
  [LAttach 20 None; LStart 1 9; LRead 1 (Rtp.media 1 960 [9]) 11; LDetach 1; LArm 1; LFinish 1].


End AudioBus.
