(* ===== verification/Session.v ===== *)
(** * Session: fan-out, capacity, expiry and the session registry

    Translates [internal/session]: [subscription.go] (the copy-on-write
    subscription list and the fan-out of one packet), [source.go],
    [relay_session.go], [expiration.go], [observations.go] and [registry.go].
    A session is generic in its subscriptions: any implementation of
    [BusSubscription] with its law. *)

From S2P Require Export AudioBus.

Module Session.
Import Bus AudioBus.

Inductive session_error := ErrRoomFull | ErrBusLimitExceeded.

Definition defaultInactivityTimeout : Z := 30 * Minute.
Definition defaultReconnectWindow : Z := 60 * Second.
Definition defaultMaxBuses : Z := 16.
Definition maxConsecutiveErrors : Z := 5.

(** [subscriptionEntry]: [subscription] points to a shared object. *)
Record subscriptionEntry := mkEntry {
  subscriberID : string;
  busID : string;
  subscription : nat }.

(** Configuration that no operation changes. *)
Record session_config := mkConfig {
  inactivityTimeout : Z;
  reconnectWindow : Z;
  maxSubscriptions : Z;   (* 0: unlimited *)
  maxBuses : Z }.

(** [pendingSlots] (int32), [evictionsTotal] and [controlState.revision] (uint64). *)
Record session_counters := mkSessionCounters {
  pendingSlots : Z;
  evictionsTotal : Z;
  revision : Z }.

Section Session.
Context {S : Type} `{BusSubscription S}.

(** [RelaySession].  [objects] holds the subscription objects by pointer,
    [timelines] the clock timelines, and [errorCounts] the map that each
    attachment's delivery closure owns, by bus and attachment. *)
Record RelaySession := mkSession {
  sessionID : string;
  createdAt : Z;
  Public : bool;
  config : session_config;
  buses : gmap string AudioBus;
  subscriptions : list subscriptionEntry;
  objects : list S;
  stats : session_counters;
  errorCounts : gmap (string * nat) (gmap string Z);
  timelines : list Timeline.Timeline;
  expiryTimer : bool;
  closed : bool }.

Definition set_stats (c : session_counters) (r : RelaySession) : RelaySession :=
  mkSession (sessionID r) (createdAt r) (Public r) (config r) (buses r) (subscriptions r) (objects r) c
    (errorCounts r) (timelines r) (expiryTimer r) (closed r).
Definition set_subscriptions (l : list subscriptionEntry) (r : RelaySession) : RelaySession :=
  mkSession (sessionID r) (createdAt r) (Public r) (config r) (buses r) l (objects r) (stats r)
    (errorCounts r) (timelines r) (expiryTimer r) (closed r).
Definition set_objects (os : list S) (r : RelaySession) : RelaySession :=
  mkSession (sessionID r) (createdAt r) (Public r) (config r) (buses r) (subscriptions r) os (stats r)
    (errorCounts r) (timelines r) (expiryTimer r) (closed r).
Definition set_buses (m : gmap string AudioBus) (r : RelaySession) : RelaySession :=
  mkSession (sessionID r) (createdAt r) (Public r) (config r) m (subscriptions r) (objects r) (stats r)
    (errorCounts r) (timelines r) (expiryTimer r) (closed r).
Definition set_errors (m : gmap (string * nat) (gmap string Z)) (r : RelaySession) : RelaySession :=
  mkSession (sessionID r) (createdAt r) (Public r) (config r) (buses r) (subscriptions r) (objects r) (stats r)
    m (timelines r) (expiryTimer r) (closed r).

(** [newWithTimeouts], and the limits [getOrCreateLocked] sets. *)
Definition newSession (id : string) (now : Z) (c : session_config) : RelaySession :=
  mkSession id now false c ∅ [] [] (mkSessionCounters 0 0 1) ∅ [] true false.

(** [notifyStateChange]: the revision; the observer is the server's. *)
Definition notifyStateChange (r : RelaySession) : RelaySession :=
  let c := stats r in
  set_stats (mkSessionCounters (pendingSlots c) (evictionsTotal c) (u64 (revision c + 1))) r.

(** ** subscription.go *)

Definition AddBusSubscription (id bus : string) (sub : nat) (r : RelaySession)
  : RelaySession * result session_error unit :=
  let current := subscriptions r in
  if (maxSubscriptions (config r) >? 0) && (len current >=? maxSubscriptions (config r))
  then (r, Err ErrRoomFull)
  else (notifyStateChange (set_subscriptions (current ++ [mkEntry id bus sub]) r), Ok tt).

Definition RemoveSubscription (id : string) (r : RelaySession) : RelaySession :=
  let removed := filter (λ e, subscriberID e = id) (subscriptions r) in
  let next := filter (λ e, subscriberID e ≠ id) (subscriptions r) in
  let stopped := foldl (λ os e, alter StopForwarding (subscription e) os) (objects r) removed in
  let r' := set_objects stopped (set_subscriptions next r) in
  if (length removed =? 0)%nat then r' else notifyStateChange r'.

(** [entry.busID == busID || entry.busID == BusMix] *)
Definition selects (bus : string) (e : subscriptionEntry) : bool :=
  bool_decide (busID e = bus) || bool_decide (busID e = BusMix).

(** The arguments of [deliverWithSource] that are passed on. *)
Record fan_args := mkArgs {
  fan_packet : Rtp.Packet;
  captureTime : Z;
  captureTimeKnown : bool;
  fan_source : SourceIdentity }.

(** What the loop changes: the packet the subscriptions share, their objects,
    [errorCounts] and [deadSubscriptions]. *)
Record fan_state := mkFan {
  shared : Rtp.Packet;
  fan_objects : list S;
  counts : gmap string Z;
  dead : list string }.

Definition count_of (m : gmap string Z) (id : string) : Z := default 0 (m !! id).

Definition write (d : fan_args) (pkt : Rtp.Packet) (s : S) : S * Rtp.Packet * bool :=
  WriteRTPWithSource pkt (captureTime d) (captureTimeKnown d) (fan_source d) s.

(** One iteration: a private copy when the subscription asks for it, otherwise
    the shared packet, which keeps what the subscription does to it. *)
Definition deliver_one (d : fan_args) (f : fan_state) (e : subscriptionEntry) : fan_state :=
  match fan_objects f !! subscription e with
  | None => f
  | Some sub =>
    let '(sub', left_, failed) := write d (shared f) sub in
    let shared' := if RequiresPacketCopy sub then shared f else left_ in
    let objects' := <[subscription e := sub']> (fan_objects f) in
    if failed then
      let n := count_of (counts f) (subscriberID e) + 1 in
      mkFan shared' objects' (<[subscriberID e := n]> (counts f))
        (if n >=? maxConsecutiveErrors then dead f ++ [subscriberID e] else dead f)
    else mkFan shared' objects' (delete (subscriberID e) (counts f)) (dead f)
  end.

(** [RemoveSubscription], [delete(errorCounts, id)], [evictionsTotal.Add(1)]. *)
Definition evict (st : RelaySession * gmap string Z) (id : string) : RelaySession * gmap string Z :=
  let r := RemoveSubscription id st.1 in
  let c := stats r in
  (set_stats (mkSessionCounters (pendingSlots c) (u64 (evictionsTotal c + 1)) (revision c)) r,
   delete id st.2).

Definition fan_out (bus : string) (d : fan_args) (m : gmap string Z) (r : RelaySession) : fan_state :=
  foldl (deliver_one d) (mkFan (fan_packet d) (objects r) m [])
    (filter (λ e, selects bus e = true) (subscriptions r)).

Definition deliverWithSource (bus : string) (d : fan_args) (m : gmap string Z) (r : RelaySession)
  : RelaySession * gmap string Z :=
  let f := fan_out bus d m r in
  foldl evict (set_objects (fan_objects f) r, counts f) (dead f).

(** One attempt of the compare-and-swap loop; the caller's [pending] is what it
    loaded, [None] asks for another attempt. *)
Definition reserve_attempt (maximum pending : Z) (r : RelaySession) : RelaySession * option bool :=
  let c := stats r in
  let active := i32 (len (subscriptions r)) in
  if i32 (pending + active) >=? maximum then (r, Some false)
  else if pendingSlots c =? pending
  then (set_stats (mkSessionCounters (i32 (pending + 1)) (evictionsTotal c) (revision c)) r, Some true)
  else (r, None).

Definition TryReserveSlot (maximum : Z) (r : RelaySession) : RelaySession * bool :=
  let c := stats r in
  if maximum <=? 0
  then (set_stats (mkSessionCounters (i32 (pendingSlots c + 1)) (evictionsTotal c) (revision c)) r, true)
  else
    match reserve_attempt maximum (pendingSlots c) r with
    | (r', Some b) => (r', b)
    | (r', None) => (r', false)
    end.

Definition ReleaseSlot (r : RelaySession) : RelaySession :=
  let c := stats r in
  set_stats (mkSessionCounters (i32 (pendingSlots c - 1)) (evictionsTotal c) (revision c)) r.

Definition SubscriptionCount (r : RelaySession) : Z := len (subscriptions r).

(** ** source.go *)

Definition GetOrCreateBus (id : string) (role : BusRole) (r : RelaySession) : RelaySession * option AudioBus :=
  match buses r !! id with
  | Some b => (r, Some b)
  | None =>
    if Z.of_nat (size (buses r)) >=? maxBuses (config r) then (r, None)
    else let b := newAudioBus id role in (set_buses (<[id := b]> (buses r)) r, Some b)
  end.

(** [AttachSource] up to [SetSource]'s wait for the previous loop, which the
    bus's [LStart] completes. *)
Definition AttachSource (id : string) (role : BusRole) (src : nat) (tl : option nat) (r : RelaySession)
  : RelaySession * result session_error Z :=
  match GetOrCreateBus id role r with
  | (r', None) => (r', Err ErrBusLimitExceeded)
  | (r', Some b) =>
    let b' := attach src tl b in
    (notifyStateChange
       (set_errors (<[(id, length (loops b)) := ∅]> (errorCounts r'))
          (set_buses (<[id := b']> (buses r')) r')), Ok (SourceGeneration b'))
  end.

(** The delivery closure of [AttachSource]. *)
Definition deliver_closure (id : string) (now : Z) (out : delivery) (b : AudioBus) (r : RelaySession) : RelaySession :=
  let '(t, known) := CaptureTime (timelines r) b (Rtp.Timestamp (packet out)) now in
  let d := mkArgs (packet out) t known (mkSourceIdentity id (gen out) (Rtp.SSRC (packet out))) in
  let m := default ∅ (errorCounts r !! (id, from out)) in
  let '(r', m') := deliverWithSource id d m r in
  set_errors (<[(id, from out) := m']> (errorCounts r')) r'.

(** One step of bus [id], with the callbacks it makes into the session: the
    delivery closure and, on detach, [notifyStateChange]. *)
Definition bus_step (id : string) (l : label) (now : Z) (r : RelaySession) : option RelaySession :=
  match buses r !! id with
  | None => None
  | Some b =>
    match step b l with
    | None => None
    | Some (b', out) =>
      let r' := set_buses (<[id := b']> (buses r)) r in
      let r'' := match out with Some o => deliver_closure id now o b r' | None => r' end in
      Some (match l with LDetach _ => notifyStateChange r'' | _ => r'' end)
    end
  end.

Definition any_bus (p : AudioBus → bool) (r : RelaySession) : bool :=
  existsb p (map snd (map_to_list (buses r))).

Definition session_SourceActive (r : RelaySession) : bool := any_bus SourceActive r.

Definition BusSourceActive (id : string) (r : RelaySession) : bool :=
  match buses r !! id with Some b => SourceActive b | None => false end.

(** ** observations.go *)

Definition PacketStats (r : RelaySession) : Z * Z * Z :=
  let cs := map (λ kb, counters kb.2) (map_to_list (buses r)) in
  (u64 (sumZ (map PacketCount cs)), u64 (sumZ (map ByteCount cs)), u64 (sumZ (map PacketDropCount cs))).

Definition BusHealthList (now threshold : Z) (r : RelaySession) : list BusHealth :=
  map (λ kb, Health kb.2 now threshold) (map_to_list (buses r)).

Definition AnyBusStalled (now threshold : Z) (r : RelaySession) : bool :=
  any_bus (λ b, Stalled b now threshold) r.

Definition BusPacketLog (id : string) (limit : Z) (r : RelaySession) : option (list PacketLog.PacketLogEntry) :=
  match buses r !! id with
  | None => None
  | Some b => PacketLog.last_entries limit (packetLog (counters b))
  end.

(** ** expiration.go and [Close] *)

Definition hasRecentRTP (now window : Z) (r : RelaySession) : bool :=
  any_bus (λ b, negb (lastRTPAtNanos (counters b) =? 0) && (LastRTPAge b now <? window)) r.

Definition isInactive (now : Z) (r : RelaySession) : bool :=
  if session_SourceActive r || (SubscriptionCount r >? 0) then false
  else negb (hasRecentRTP now (inactivityTimeout (config r)) r).

Definition Close (r : RelaySession) : RelaySession :=
  if closed r then r
  else
    mkSession (sessionID r) (createdAt r) (Public r) (config r) (close <$> buses r) (subscriptions r)
      (foldl (λ os e, alter StopForwarding (subscription e) os) (objects r) (subscriptions r)) (stats r)
      (errorCounts r) (timelines r) false true.

(** The expiry timer's callback: the session is closed or the timer is reset. *)
Definition checkExpiry (now : Z) (r : RelaySession) : RelaySession :=
  if isInactive now r then Close r
  else mkSession (sessionID r) (createdAt r) (Public r) (config r) (buses r) (subscriptions r) (objects r)
         (stats r) (errorCounts r) (timelines r) true (closed r).

(** ** Fan-out *)

Context `{!SubscriptionLaws S}.

(** The outcome of writing the published packet to an entry's object. *)
Definition written (d : fan_args) (s : S) : S := (write d (fan_packet d) s).1.1.

Definition fails (d : fan_args) (os : list S) (e : subscriptionEntry) : bool :=
  match os !! subscription e with Some s => (write d (fan_packet d) s).2 | None => false end.

(** This failure is the fifth in a row. *)
Definition doomed (d : fan_args) (m : gmap string Z) (os : list S) (e : subscriptionEntry) : bool :=
  fails d os e && (count_of m (subscriberID e) + 1 >=? maxConsecutiveErrors).

(** Subscriber identities and subscription objects are not shared. *)
Definition distinct (l : list subscriptionEntry) (os : list S) : Prop :=
  NoDup (subscriberID <$> l) ∧ NoDup (subscription <$> l) ∧ Forall (λ e, (subscription e < length os)%nat) l.

Lemma deliver_one_spec d f e s :
  shared f = fan_packet d → fan_objects f !! subscription e = Some s →
  deliver_one d f e =
  mkFan (fan_packet d) (<[subscription e := written d s]> (fan_objects f))
    (if fails d (fan_objects f) e then <[subscriberID e := count_of (counts f) (subscriberID e) + 1]> (counts f)
     else delete (subscriberID e) (counts f))
    (if doomed d (counts f) (fan_objects f) e then dead f ++ [subscriberID e] else dead f).
Proof.
  intros Hs Ho. unfold deliver_one, doomed, fails, written. rewrite Ho, Hs.
  pose proof (write_borrows s (fan_packet d) (captureTime d) (captureTimeKnown d) (fan_source d)) as Hb.
  fold (write d (fan_packet d) s) in Hb. destruct (write d (fan_packet d) s) as [[s' left_] failed]. cbn in *.
  assert ((if RequiresPacketCopy s then fan_packet d else left_) = fan_packet d) as ->.
  { destruct (RequiresPacketCopy s); [done|by apply Hb]. }
  by destruct failed.
Qed.

Lemma fails_frame d os i s e :
  i ≠ subscription e → fails d (<[i := s]> os) e = fails d os e.
Proof. intros. unfold fails. by rewrite list_lookup_insert_ne. Qed.

Record fan_result (d : fan_args) (es : list subscriptionEntry) (f f' : fan_state) : Prop := {
  fr_shared : shared f' = fan_packet d;
  fr_length : length (fan_objects f') = length (fan_objects f);
  fr_object : ∀ e s, e ∈ es → fan_objects f !! subscription e = Some s →
    fan_objects f' !! subscription e = Some (written d s);
  fr_other : ∀ i, i ∉ (subscription <$> es) → fan_objects f' !! i = fan_objects f !! i;
  fr_count : ∀ e, e ∈ es → counts f' !! subscriberID e =
    if fails d (fan_objects f) e then Some (count_of (counts f) (subscriberID e) + 1) else None;
  fr_count_other : ∀ id, id ∉ (subscriberID <$> es) → counts f' !! id = counts f !! id;
  fr_dead : dead f' = dead f ++ (subscriberID <$> filter (λ e, doomed d (counts f) (fan_objects f) e = true) es) }.

Lemma fan_result_nil d f : shared f = fan_packet d → fan_result d [] f f.
Proof.
  intros Hs. split; try done.
  - intros e s Hin. by apply not_elem_of_nil in Hin.
  - intros e Hin. by apply not_elem_of_nil in Hin.
  - by rewrite app_nil_r.
Qed.

Lemma fan_fold d es f :
  shared f = fan_packet d → distinct es (fan_objects f) →
  fan_result d es f (foldl (deliver_one d) f es).
Proof.
  revert f. induction es as [|e es IH]; intros f Hs (Hid & Hptr & Hlt); [by apply fan_result_nil|].
  rewrite fmap_cons in Hid. rewrite fmap_cons in Hptr.
  apply NoDup_cons in Hid as [Hid1 Hid], Hptr as [Hp1 Hptr].
  apply Forall_cons in Hlt as [Hl1 Hlt]. destruct (lookup_lt_is_Some_2 _ _ Hl1) as [s Ho].
  cbn [foldl]. rewrite (deliver_one_spec d f e s Hs Ho). set (f1 := mkFan _ _ _ _).
  assert (Hfr : ∀ e', e' ∈ es → subscription e' ≠ subscription e ∧ subscriberID e' ≠ subscriberID e).
  { intros e' Hin. split; intros E; [apply Hp1|apply Hid1]; rewrite <- E; by apply list_elem_of_fmap_2. }
  assert (Hcnt : ∀ id, id ≠ subscriberID e → counts f1 !! id = counts f !! id).
  { intros id Hne. subst f1. cbn. destruct (fails d (fan_objects f) e);
      [by rewrite lookup_insert_ne|by rewrite lookup_delete_ne]. }
  assert (Hsame : ∀ e', e' ∈ es → fails d (fan_objects f1) e' = fails d (fan_objects f) e' ∧
            count_of (counts f1) (subscriberID e') = count_of (counts f) (subscriberID e')).
  { intros e' Hin. destruct (Hfr e' Hin) as [Hne1 Hne2]. split; [by apply fails_frame|].
    unfold count_of. by rewrite Hcnt. }
  assert (Hlt1 : Forall (λ e, (subscription e < length (fan_objects f1))%nat) es).
  { subst f1. cbn. by rewrite length_insert. }
  destruct (IH f1 eq_refl ltac:(done)) as [R1 R2 R3 R4 R5 R6 R7].
  assert (He_other : subscription e ∉ subscription <$> es) by done.
  split.
  - done.
  - rewrite R2. subst f1. cbn. by rewrite length_insert.
  - intros e' s' Hin Hs'. apply elem_of_cons in Hin as [->|Hin].
    + rewrite R4 by done. subst f1. cbn. rewrite list_lookup_insert_eq by done. congruence.
    + apply R3; [done|]. subst f1. cbn. rewrite list_lookup_insert_ne; [done|]. destruct (Hfr e' Hin). done.
  - intros i Hi. rewrite fmap_cons in Hi. apply not_elem_of_cons in Hi as [Hi1 Hi2].
    rewrite R4 by done. subst f1. cbn. by rewrite list_lookup_insert_ne.
  - intros e' Hin. apply elem_of_cons in Hin as [->|Hin].
    + rewrite R6 by done. subst f1. cbn. destruct (fails d (fan_objects f) e);
        [by rewrite lookup_insert_eq|by rewrite lookup_delete_eq].
    + rewrite R5 by done. destruct (Hsame e' Hin) as [-> ->]. done.
  - intros id Hi. rewrite fmap_cons in Hi. apply not_elem_of_cons in Hi as [Hi1 Hi2].
    rewrite R6 by done. by apply Hcnt.
  - rewrite R7. rewrite filter_cons.
    assert (filter (λ e', doomed d (counts f1) (fan_objects f1) e' = true) es =
            filter (λ e', doomed d (counts f) (fan_objects f) e' = true) es) as ->.
    { apply filter_ext_in. intros e' Hin. unfold doomed. destruct (Hsame e' Hin) as [-> ->]. done. }
    subst f1. cbn. destruct (doomed d (counts f) (fan_objects f) e) eqn:E; [|done].
    cbn. by rewrite <- app_assoc.
Qed.

(** *** Eviction *)

Definition stop_all (os : list S) (es : list subscriptionEntry) : list S :=
  foldl (λ os e, alter StopForwarding (subscription e) os) os es.

Lemma stop_all_length os es : length (stop_all os es) = length os.
Proof.
  revert os. induction es as [|e es IH]; intros os; [done|].
  unfold stop_all in *. cbn [foldl]. by rewrite IH, length_alter.
Qed.

Lemma stop_all_lookup os es i s :
  NoDup (subscription <$> es) → os !! i = Some s →
  stop_all os es !! i = Some (if decide (i ∈ subscription <$> es) then StopForwarding s else s).
Proof.
  revert os s. induction es as [|e es IH]; intros os s Hnd Hi.
  { cbn. by rewrite decide_False by (by apply not_elem_of_nil). }
  rewrite fmap_cons in Hnd. apply NoDup_cons in Hnd as [Hn Hnd]. unfold stop_all in *. cbn [foldl].
  destruct (decide (i = subscription e)) as [->|Hne].
  - rewrite (IH _ (StopForwarding s)) by (done || by rewrite list_lookup_alter_eq, Hi).
    rewrite decide_False by done. by rewrite decide_True by (rewrite fmap_cons; left).
  - rewrite (IH _ s) by (done || by rewrite list_lookup_alter_ne).
    f_equal. rewrite fmap_cons. by apply decide_ext; rewrite elem_of_cons; naive_solver.
Qed.

Lemma NoDup_fmap_filter {B} (g : subscriptionEntry → B) (P : subscriptionEntry → Prop)
    `{∀ x, Decision (P x)} (l : list subscriptionEntry) :
  NoDup (g <$> l) → NoDup (g <$> filter P l).
Proof. intros Hl. eapply sublist_NoDup; [exact Hl|]. apply fmap_sublist, sublist_filter. Qed.

Lemma same_entry {B} (g : subscriptionEntry → B) (l : list subscriptionEntry) e e' :
  NoDup (g <$> l) → e ∈ l → e' ∈ l → g e = g e' → e = e'.
Proof.
  intros Hnd He He' E. apply list_elem_of_lookup in He as [i Hi], He' as [j Hj].
  assert (i = j) as ->; [|congruence].
  eapply (NoDup_lookup (g <$> l)); [done|by rewrite list_lookup_fmap, Hi|by rewrite list_lookup_fmap, Hj, E].
Qed.

Lemma distinct_filter (P : subscriptionEntry → Prop) `{∀ x, Decision (P x)} l os os' :
  distinct l os → length os' = length os → distinct (filter P l) os'.
Proof.
  intros (H1 & H2 & H3) Hl. split_and!; [by apply NoDup_fmap_filter..|].
  rewrite Hl. rewrite Forall_forall in *. intros e He. apply list_elem_of_filter in He as [_ He]. auto.
Qed.

(** The pointers of the subscriptions with one of these identities. *)
Definition pointers (ids : list string) (l : list subscriptionEntry) : list nat :=
  subscription <$> filter (λ e, subscriberID e ∈ ids) l.

Lemma elem_of_pointers ids l i :
  i ∈ pointers ids l ↔ ∃ e, e ∈ l ∧ subscription e = i ∧ subscriberID e ∈ ids.
Proof.
  unfold pointers. rewrite list_elem_of_fmap. split.
  - intros (e & -> & Hin). apply list_elem_of_filter in Hin as [? ?]. eauto.
  - intros (e & ? & <- & ?). exists e. split; [done|]. by apply list_elem_of_filter.
Qed.

Lemma RemoveSubscription_objects id r i s :
  distinct (subscriptions r) (objects r) → objects r !! i = Some s →
  objects (RemoveSubscription id r) !! i =
  Some (if decide (i ∈ pointers [id] (subscriptions r)) then StopForwarding s else s).
Proof.
  intros (_ & Hptr & _) Hs.
  assert (Ho : objects (RemoveSubscription id r) =
            stop_all (objects r) (filter (λ e, subscriberID e = id) (subscriptions r))).
  { unfold RemoveSubscription. by destruct (_ =? _)%nat. }
  rewrite Ho, (stop_all_lookup _ _ _ s) by (done || by apply NoDup_fmap_filter).
  f_equal. apply decide_ext. unfold pointers.
  by rewrite (filter_ext_in (λ e, subscriberID e = id) (λ e, subscriberID e ∈ [id]))
    by (intros; by rewrite list_elem_of_singleton).
Qed.

Lemma RemoveSubscription_frame id r :
  subscriptions (RemoveSubscription id r) = filter (λ e, subscriberID e ≠ id) (subscriptions r) ∧
  length (objects (RemoveSubscription id r)) = length (objects r) ∧
  config (RemoveSubscription id r) = config r ∧ buses (RemoveSubscription id r) = buses r ∧
  evictionsTotal (stats (RemoveSubscription id r)) = evictionsTotal (stats r) ∧
  sessionID (RemoveSubscription id r) = sessionID r.
Proof. unfold RemoveSubscription. destruct (_ =? _)%nat; cbn; split_and!; try done; apply stop_all_length. Qed.

Record evicted (ids : list string) (r : RelaySession) (m : gmap string Z)
    (r' : RelaySession) (m' : gmap string Z) : Prop := {
  ev_subs : subscriptions r' = filter (λ e, subscriberID e ∉ ids) (subscriptions r);
  ev_objects : ∀ i s, objects r !! i = Some s →
    objects r' !! i = Some (if decide (i ∈ pointers ids (subscriptions r)) then StopForwarding s else s);
  ev_counts : ∀ id, m' !! id = if decide (id ∈ ids) then None else m !! id;
  ev_total : evictionsTotal (stats r') = u64 (evictionsTotal (stats r) + len ids) }.

Lemma evicted_nil r m : is_u64 (evictionsTotal (stats r)) → evicted [] r m r m.
Proof.
  intros Hu. split.
  - symmetry. apply filter_all_in. intros. apply not_elem_of_nil.
  - intros i s Hi. rewrite decide_False; [done|]. rewrite elem_of_pointers.
    intros (e & _ & _ & Hin). by apply not_elem_of_nil in Hin.
  - intros. by rewrite decide_False by apply not_elem_of_nil.
  - unfold len. cbn. rewrite Z.add_0_r. by rewrite u64_small.
Qed.

Lemma evicted_cons id ids r m st r' m' :
  distinct (subscriptions r) (objects r) → st = evict (r, m) id →
  evicted ids st.1 st.2 r' m' → evicted (id :: ids) r m r' m'.
Proof.
  intros Hd -> [E1 E2 E3 E4]. destruct (RemoveSubscription_frame id r) as (Hsub & _ & _ & _ & Hev & _).
  cbn [evict fst snd set_stats subscriptions objects stats evictionsTotal] in *. rewrite Hsub in *. split.
  - rewrite E1, list_filter_filter. apply filter_ext_in. intros e _. rewrite not_elem_of_cons. tauto.
  - intros i s Hs. pose proof (RemoveSubscription_objects id r i s Hd Hs) as Hobj.
    rewrite (E2 i _ Hobj). f_equal. destruct Hd as (_ & Hptr & _).
    destruct (decide (i ∈ pointers [id] (subscriptions r))) as [Hin|Hin].
    + apply elem_of_pointers in Hin as (e & He & Hi & Hide). apply list_elem_of_singleton in Hide.
      rewrite decide_False, decide_True; [done| |].
      * apply elem_of_pointers. exists e. split_and!; [done|done|]. rewrite Hide. left.
      * rewrite elem_of_pointers. intros (e' & He' & Hi' & _). apply list_elem_of_filter in He' as [Hne He'].
        by rewrite (same_entry subscription (subscriptions r) e' e Hptr He' He ltac:(congruence)) in Hne.
    + apply decide_ext. rewrite !elem_of_pointers in *. split.
      * intros (e & He & Hi & Hide). apply list_elem_of_filter in He as [_ He]. exists e.
        split_and!; [done|done|by right].
      * intros (e & He & Hi & Hide). exists e. split_and!; [|done|].
        -- apply list_elem_of_filter. split; [|done]. intros Heq. apply Hin. exists e.
           split_and!; [done|done|by apply list_elem_of_singleton].
        -- apply elem_of_cons in Hide as [Heq|]; [|done]. destruct Hin. exists e.
           split_and!; [done|done|by apply list_elem_of_singleton].
  - intros id'. rewrite E3. destruct (decide (id' = id)) as [->|Hne].
    + rewrite lookup_delete_eq. rewrite (decide_True (P := id ∈ id :: ids)) by left. by case_decide.
    + rewrite lookup_delete_ne by done. apply decide_ext. rewrite elem_of_cons. tauto.
  - rewrite E4, Hev. unfold len. cbn [length]. unfold u64. rewrite Zplus_mod_idemp_l. f_equal. lia.
Qed.

Lemma evict_fold ids r m :
  is_u64 (evictionsTotal (stats r)) → distinct (subscriptions r) (objects r) →
  evicted ids r m (foldl evict (r, m) ids).1 (foldl evict (r, m) ids).2.
Proof.
  revert r m. induction ids as [|id ids IH]; intros r m Hu Hd; [by apply evicted_nil|].
  cbn [foldl]. eapply evicted_cons; [done|done|].
  destruct (RemoveSubscription_frame id r) as (Hsub & Hlen & _ & _ & Hev & _).
  rewrite (surjective_pairing (evict (r, m) id)). apply IH.
  - cbn. ilia.
  - cbn [evict fst set_stats subscriptions objects]. rewrite Hsub. by eapply distinct_filter.
Qed.

(** *** One delivery *)

Definition start_fan (d : fan_args) (m : gmap string Z) (r : RelaySession) : fan_state :=
  mkFan (fan_packet d) (objects r) m [].

(** The entry is evicted by this delivery. *)
Definition evicts (bus : string) (d : fan_args) (m : gmap string Z) (r : RelaySession)
    (e : subscriptionEntry) : bool := selects bus e && doomed d m (objects r) e.

Lemma fan_out_result bus d m r :
  distinct (subscriptions r) (objects r) →
  fan_result d (filter (λ e, selects bus e = true) (subscriptions r)) (start_fan d m r) (fan_out bus d m r).
Proof. intros Hd. apply fan_fold; [done|]. by eapply distinct_filter. Qed.

Lemma dead_iff bus d m r e :
  distinct (subscriptions r) (objects r) → e ∈ subscriptions r →
  subscriberID e ∈ dead (fan_out bus d m r) ↔ evicts bus d m r e = true.
Proof.
  intros Hd He. rewrite (fr_dead _ _ _ _ (fan_out_result bus d m r Hd)). cbn [start_fan dead counts fan_objects app].
  rewrite list_elem_of_fmap. unfold evicts. rewrite andb_true_iff. split.
  - intros (e' & E & Hin). apply list_elem_of_filter in Hin as [Hdm Hin]. apply list_elem_of_filter in Hin as [Hsel Hin].
    destruct Hd as (Hid & _). by rewrite (same_entry subscriberID _ e e' Hid He Hin E).
  - intros [Hsel Hdm]. exists e. split; [done|]. apply list_elem_of_filter. split; [done|].
    by apply list_elem_of_filter.
Qed.

Lemma pointers_iff ids l e :
  NoDup (subscription <$> l) → e ∈ l → subscription e ∈ pointers ids l ↔ subscriberID e ∈ ids.
Proof.
  intros Hnd He. rewrite elem_of_pointers. split; [|by exists e].
  intros (e' & He' & E & Hin). by rewrite <- (same_entry subscription l e' e Hnd He' He E).
Qed.

Lemma deliver_result bus d m r :
  is_u64 (evictionsTotal (stats r)) → distinct (subscriptions r) (objects r) →
  let f := fan_out bus d m r in
  evicted (dead f) (set_objects (fan_objects f) r) (counts f)
    (deliverWithSource bus d m r).1 (deliverWithSource bus d m r).2.
Proof.
  intros Hu Hd f. apply evict_fold; [done|].
  pose proof (fr_length _ _ _ _ (fan_out_result bus d m r Hd)) as Hl.
  destruct Hd as (H1 & H2 & H3). split_and!; [done..|]. cbn. subst f. by rewrite Hl.
Qed.


(** A subscription is evicted exactly when its fifth write in a row fails,
    and nothing else leaves the list.  A success clears its count, a failure
    adds one, an eviction clears it and is counted; other subscriptions keep
    theirs. *)
Theorem eviction_exact bus d m r :
  is_u64 (evictionsTotal (stats r)) → distinct (subscriptions r) (objects r) →
  let r' := (deliverWithSource bus d m r).1 in
  let m' := (deliverWithSource bus d m r).2 in
  subscriptions r' = filter (λ e, evicts bus d m r e = false) (subscriptions r) ∧
  evictionsTotal (stats r') =
    u64 (evictionsTotal (stats r) + len (filter (λ e, evicts bus d m r e = true) (subscriptions r))) ∧
  ∀ e, e ∈ subscriptions r →
    m' !! subscriberID e =
    (if selects bus e then
       if fails d (objects r) e && negb (evicts bus d m r e)
       then Some (count_of m (subscriberID e) + 1) else None
     else m !! subscriberID e).
Proof.
  intros Hu Hd. cbv zeta. pose proof (fan_out_result bus d m r Hd) as Hf.
  pose proof (deliver_result bus d m r Hu Hd) as Hev. split_and!.
  - rewrite (ev_subs _ _ _ _ _ Hev). apply filter_ext_in. intros e He. rewrite dead_iff by done.
    by rewrite not_true_iff_false.
  - rewrite (ev_total _ _ _ _ _ Hev), (fr_dead _ _ _ _ Hf). cbn [set_objects stats start_fan dead counts fan_objects app].
    do 2 f_equal. unfold len. rewrite length_fmap, list_filter_filter. do 2 f_equal.
    apply filter_ext_in. intros e _. unfold evicts. rewrite andb_true_iff. tauto.
  - intros e He. pose proof (dead_iff bus d m r e Hd He) as Hdead. rewrite (ev_counts _ _ _ _ _ Hev).
    destruct (selects bus e) eqn:Hsel.
    + rewrite (fr_count _ _ _ _ Hf) by (by apply list_elem_of_filter). cbn [start_fan fan_objects counts].
      destruct (evicts bus d m r e) eqn:Hevs.
      * rewrite decide_True by (by apply Hdead). by rewrite andb_false_r.
      * rewrite decide_False by (by rewrite Hdead). by rewrite andb_true_r.
    + rewrite decide_False by (rewrite Hdead; unfold evicts; by rewrite Hsel).
      rewrite (fr_count_other _ _ _ _ Hf); [done|]. intros Hin. apply list_elem_of_fmap in Hin as (e' & E & Hin).
      apply list_elem_of_filter in Hin as [Hsel' Hin]. destruct Hd as (Hid & _).
      rewrite (same_entry subscriberID _ e e' Hid He Hin E) in Hsel. congruence.
Qed.

(** ** Capacity *)

Inductive op :=
| OpObject (s : S)                               (* a transport creates a subscription *)
| OpAdd (id bus : string) (sub : nat)
| OpRemove (id : string)
| OpReserve (maximum : Z)
| OpRelease
| OpGetBus (id : string) (role : BusRole)
| OpAttach (id : string) (role : BusRole) (src : nat) (tl : option nat)
| OpBus (id : string) (l : label) (now : Z)
| OpExpiry (now : Z)
| OpClose.

Definition apply_op (r : RelaySession) (o : op) : RelaySession :=
  match o with
  | OpObject s => set_objects (objects r ++ [s]) r
  | OpAdd id bus sub => (AddBusSubscription id bus sub r).1
  | OpRemove id => RemoveSubscription id r
  | OpReserve maximum => (TryReserveSlot maximum r).1
  | OpRelease => ReleaseSlot r
  | OpGetBus id role => (GetOrCreateBus id role r).1
  | OpAttach id role src tl => (AttachSource id role src tl r).1
  | OpBus id l now => default r (bus_step id l now r)
  | OpExpiry now => checkExpiry now r
  | OpClose => Close r
  end.

(** An operation that adds neither a subscription nor a bus. *)
Definition shrinks (r r' : RelaySession) : Prop :=
  sessionID r' = sessionID r ∧ config r' = config r ∧
  len (subscriptions r') <= len (subscriptions r) ∧ size (buses r') = size (buses r).

Definition within_limits (c : session_config) (r : RelaySession) : Prop :=
  config r = c ∧
  (0 < maxSubscriptions c → len (subscriptions r) <= maxSubscriptions c) ∧
  (size (buses r) = 0%nat ∨ Z.of_nat (size (buses r)) <= maxBuses c).

#[export] Instance shrinks_preorder : PreOrder shrinks.
Proof.
  split; [intros r; by split_and!|]. intros r1 r2 r3 (?&?&?&?) (?&?&?&?). split_and!; [congruence|congruence|lia|congruence].
Qed.

Lemma shrinks_within c r r' : shrinks r r' → within_limits c r → within_limits c r'.
Proof. unfold shrinks, within_limits. intros (_ & -> & Hs & ->) (? & ? & ?). split_and!; [done|lia|done]. Qed.

Lemma remove_shrinks id r : shrinks r (RemoveSubscription id r).
Proof.
  destruct (RemoveSubscription_frame id r) as (Hs & _ & Hc & Hb & _ & Hid). unfold shrinks. rewrite Hs, Hc, Hb, Hid.
  split_and!; [done|done| |done]. unfold len. pose proof (length_filter (λ e, subscriberID e ≠ id) (subscriptions r)). lia.
Qed.

Lemma deliver_shrinks bus d m r : shrinks r (deliverWithSource bus d m r).1.
Proof.
  unfold deliverWithSource. generalize (dead (fan_out bus d m r)). intros ids.
  transitivity (set_objects (fan_objects (fan_out bus d m r)) r); [by split_and!|].
  generalize (counts (fan_out bus d m r)), (set_objects (fan_objects (fan_out bus d m r)) r). clear d m r.
  induction ids as [|id ids IH]; intros m r; [reflexivity|]. cbn [foldl].
  transitivity (evict (r, m) id).1; [|rewrite (surjective_pairing (evict (r, m) id)) at 2; apply IH].
  exact (remove_shrinks id r).
Qed.

Lemma bus_step_shrinks id l now r r' : bus_step id l now r = Some r' → shrinks r r'.
Proof.
  unfold bus_step. destruct (buses r !! id) as [b|] eqn:Hb; [|done].
  destruct (step b l) as [[b' out]|]; [|done]. intros [= <-].
  set (r1 := set_buses _ r). set (r2 := match out with Some _ => _ | None => _ end).
  assert (H1 : shrinks r r1).
  { split_and!; [done|done|done|]. subst r1. cbn. rewrite map_size_insert_Some; [done|by rewrite Hb]. }
  assert (H2 : shrinks r1 r2).
  { subst r2. destruct out as [o|]; [|reflexivity]. unfold deliver_closure.
    destruct (CaptureTime _ _ _ _) as [t known]. set (d := mkArgs _ _ _ _).
    pose proof (deliver_shrinks id d (default ∅ (errorCounts r1 !! (id, from o))) r1) as Hd.
    destruct (deliverWithSource _ _ _ _) as [r3 m3]. done. }
  transitivity r1; [done|]. by destruct l.
Qed.

Lemma get_bus_within c id role r : within_limits c r → within_limits c (GetOrCreateBus id role r).1.
Proof.
  unfold GetOrCreateBus, within_limits. intros (Hc & Hs & Hb). destruct (buses r !! id) eqn:E; [done|].
  case_if; bool_hyps; [done|]. cbn. split_and!; [done|done|]. right. rewrite <- Hc. rewrite map_size_insert_None by done. lia.
Qed.

Lemma attach_within c id role src tl r : within_limits c r → within_limits c (AttachSource id role src tl r).1.
Proof.
  intros Hw. apply (get_bus_within c id role) in Hw. unfold AttachSource.
  assert (Hin : ∀ b, (GetOrCreateBus id role r).2 = Some b → is_Some (buses (GetOrCreateBus id role r).1 !! id)).
  { unfold GetOrCreateBus. intros b. destruct (buses r !! id) eqn:E; [cbn; rewrite E; eauto|].
    case_if; [done|]. intros _. cbn. rewrite lookup_insert_eq. eauto. }
  destruct (GetOrCreateBus id role r) as [r1 [b|]]; [|done]. specialize (Hin b eq_refl). cbn in Hin.
  eapply shrinks_within; [|exact Hw]. split_and!; [done|done|done|]. cbn. by rewrite map_size_insert_Some.
Qed.

Lemma apply_within c r o : within_limits c r → within_limits c (apply_op r o).
Proof.
  intros Hw. destruct o; cbn [apply_op].
  - done.
  - unfold AddBusSubscription. case_if; [done|]. destruct Hw as (Hc & Hs & Hb). split_and!; [done| |done]. cbn.
    rewrite Hc in *. unfold len in *. rewrite length_app. cbn. bool_hyps. lia.
  - eapply shrinks_within; [apply remove_shrinks|done].
  - unfold TryReserveSlot, reserve_attempt. repeat case_if; done.
  - done.
  - by apply get_bus_within.
  - by apply attach_within.
  - destruct (bus_step id l now r) as [r'|] eqn:E; [|done]. eapply shrinks_within; [by eapply bus_step_shrinks|done].
  - unfold checkExpiry, Close. repeat case_if; try done. destruct Hw as (?&?&?). split_and!; [done..|]. cbn. by rewrite map_size_fmap.
  - unfold Close. case_if; [done|]. destruct Hw as (?&?&?). split_and!; [done..|]. cbn. by rewrite map_size_fmap.
Qed.

(** Whatever is done to a session and its buses, it never has more
    subscriptions than its limit (when it has one) nor more buses than
    [maxBuses]: joins and publishers beyond the limits are refused. *)
Theorem session_capacity id now c ops :
  0 < maxSubscriptions c → 0 <= maxBuses c →
  let r := foldl apply_op (newSession id now c) ops in
  len (subscriptions r) <= maxSubscriptions c ∧ Z.of_nat (size (buses r)) <= maxBuses c.
Proof.
  intros Hm Hb r.
  assert (Hw : within_limits c r).
  { subst r. induction ops as [|o ops IH] using rev_ind; [split_and!; [done|unfold len; cbn; lia|by left]|].
    rewrite foldl_app. by apply apply_within. }
  destruct Hw as (_ & Hs & Hbs). split; [auto|]. destruct Hbs as [->|]; lia.
Qed.

(** ** Expiry *)

Lemma any_bus_false p r :
  any_bus p r = false ↔ ∀ id b, buses r !! id = Some b → p b = false.
Proof.
  unfold any_bus. rewrite <- not_true_iff_false, existsb_exists. split.
  - intros Hn id b Hb. apply not_true_iff_false. intros Hp. apply Hn. exists b. split; [|done].
    apply in_map_iff. exists (id, b). split; [done|]. by apply list_elem_of_In, elem_of_map_to_list.
  - intros Hall (b & Hin & Hp). apply in_map_iff in Hin as ([id b'] & <- & Hin).
    apply list_elem_of_In, elem_of_map_to_list in Hin. cbn in Hp. specialize (Hall id b' Hin). congruence.
Qed.

(** Nothing keeps the session: no subscription, no attached source, and no
    packet within the inactivity timeout. *)
Definition idle (now : Z) (r : RelaySession) : Prop :=
  subscriptions r = [] ∧
  ∀ id b, buses r !! id = Some b →
    source (sources b) = None ∧
    (lastRTPAtNanos (counters b) = 0 ∨ inactivityTimeout (config r) <= LastRTPAge b now).

Lemma isInactive_iff now r : isInactive now r = true ↔ idle now r.
Proof.
  unfold isInactive, idle, SubscriptionCount, session_SourceActive. split.
  - case_if; [done|]. intros Hn. apply orb_false_iff in E as [Hsrc Hsub]. apply negb_true_iff in Hn.
    unfold hasRecentRTP in Hn. rewrite any_bus_false in Hsrc, Hn. split.
    + destruct (subscriptions r); [done|]. unfold len in Hsub. cbn in Hsub. done.
    + intros id b Hb. specialize (Hsrc id b Hb). specialize (Hn id b Hb). unfold SourceActive in Hsrc.
      apply bool_decide_eq_false in Hsrc. split; [by destruct (source (sources b)); [destruct Hsrc|]|].
      destruct (Z.eqb_spec (lastRTPAtNanos (counters b)) 0); [by left|right]. cbn in Hn. lia.
  - intros [Hsub Hb]. rewrite Hsub. cbn [len length Z.of_nat Z.gtb]. rewrite orb_false_r.
    rewrite (proj2 (any_bus_false SourceActive r)).
    + apply negb_true_iff. unfold hasRecentRTP. apply any_bus_false. intros id b Hin.
      destruct (Hb id b Hin) as [_ [->|Hage]]; [done|]. apply andb_false_intro2. lia.
    + intros id b Hin. unfold SourceActive. destruct (Hb id b Hin) as [-> _]. done.
Qed.

Lemma close_done b : done (close b) = true.
Proof. unfold close. by destruct (done b) eqn:E. Qed.

(** The expiry check closes a session exactly when it is idle: it has no
    subscription, no attached source, and no packet within the inactivity
    timeout.  Closing it closes all its buses and stops all its subscriptions;
    otherwise the only effect is that the timer is armed again. *)
Theorem expiry_exact now r :
  closed r = false →
  let r' := checkExpiry now r in
  (closed r' = true ↔ idle now r) ∧
  (idle now r → expiryTimer r' = false ∧ ∀ id b, buses r' !! id = Some b → done b = true) ∧
  (¬ idle now r → expiryTimer r' = true ∧ buses r' = buses r ∧
     subscriptions r' = subscriptions r ∧ objects r' = objects r).
Proof.
  intros Hc r'. subst r'. unfold checkExpiry. rewrite <- isInactive_iff. destruct (isInactive now r) eqn:E.
  - unfold Close. rewrite Hc. cbn. split_and!; [done| |done]. intros _. split; [done|].
    intros id b Hb. rewrite lookup_fmap in Hb. destruct (buses r !! id); [|done]. cbn in Hb.
    injection Hb as <-. apply close_done.
  - cbn. rewrite Hc. split_and!; [done|done|]. by intros _.
Qed.
End Session.

(** ** Direct subscriptions *)

(** [PacketWriter] borrows the packet for the call: it returns its new state and
    whether it failed. *)
Class PacketWriter (W : Type) := WriteRTP : Rtp.Packet → W → W * bool.

Record directBusSubscription (W : Type) := mkDirect { direct_id : string; inner : W }.
Arguments mkDirect {W} _ _.
Arguments direct_id {W} _.
Arguments inner {W} _.

#[export] Instance direct_subscription {W} `{PacketWriter W} : BusSubscription (directBusSubscription W) := {|
  WriteRTPWithSource pkt _ _ _ s :=
    let '(w, failed) := WriteRTP pkt (inner s) in (mkDirect (direct_id s) w, pkt, failed);
  RequiresPacketCopy _ := false;
  StopForwarding s := s |}.

#[export] Instance direct_laws {W} `{PacketWriter W} : SubscriptionLaws (directBusSubscription W).
Proof. split. intros s pkt c k src _. cbn. by destruct (WriteRTP pkt (inner s)). Qed.

(** ** Instances for the examples *)

(** A subscription that records what it is given; one that asks for a private
    copy rewrites the sequence number of the packet it is handed. *)
Record probe := mkProbe { log : list Rtp.Packet; copies : bool; failing : bool; stopped : bool }.

#[export] Instance probe_subscription : BusSubscription probe := {|
  WriteRTPWithSource pkt _ _ _ s :=
    (mkProbe (log s ++ [pkt]) (copies s) (failing s) (stopped s),
     if copies s then Rtp.set_sequence 0 pkt else pkt, failing s);
  RequiresPacketCopy s := copies s;
  StopForwarding s := mkProbe (log s) (copies s) (failing s) true |}.

#[export] Instance probe_laws : SubscriptionLaws probe.
Proof. split. intros [l c f st] pkt t k src E. cbn in *. by rewrite E. Qed.

Definition example_config : session_config := mkConfig (30 * Minute) (60 * Second) 3 2.

(** A copying mix subscription, a failing one of bus "voice" and one of bus
    "music"; a fourth is refused. *)
Definition example_ops : list (op (S := probe)) :=
    [OpObject (mkProbe [] true false false); OpObject (mkProbe [] false true false);
     OpObject (mkProbe [] false false false);
     OpAdd "a" BusMix 0; OpAdd "b" "voice" 1; OpAdd "c" "music" 2; OpAdd "d" "music" 2].

Definition example_session : RelaySession (S := probe) :=
  foldl apply_op (newSession "s" 0 example_config) example_ops.

Definition example_args : fan_args := mkArgs (Rtp.media 7 960 [1]) 0 false no_source.

Lemma example_distinct : distinct (subscriptions example_session) (objects example_session).
Proof.
  split_and!; [apply (bool_decide_unpack _); vm_compute; done..|].
  repeat constructor; vm_compute; lia.
Qed.


Lemma eviction_exact_witness :
  subscriptions (deliverWithSource "voice" example_args {["b" := 4]} example_session).1 =
    [mkEntry "a" BusMix 0; mkEntry "c" "music" 2] ∧
  subscriptions (deliverWithSource "voice" example_args {["b" := 3]} example_session).1 =
    subscriptions example_session.
Proof.
  assert (Hu : is_u64 (evictionsTotal (stats example_session))) by (split; vm_compute; congruence).
  split.
  - etransitivity; [exact (proj1 (eviction_exact "voice" example_args {["b" := 4]} example_session Hu example_distinct))|].
    vm_compute. reflexivity.
  - etransitivity; [exact (proj1 (eviction_exact "voice" example_args {["b" := 3]} example_session Hu example_distinct))|].
    vm_compute. reflexivity.
Defined.

Lemma session_capacity_witness :
  len (subscriptions example_session) = 3 ∧
  len (subscriptions example_session) <= 3 ∧ Z.of_nat (size (buses example_session)) <= 2.
Proof.
  split; [vm_compute; reflexivity|].
  exact (session_capacity (S := probe) "s" 0 example_config example_ops eq_refl ltac:(vm_compute; congruence)).
Defined.

Lemma expiry_exact_witness :
  closed (checkExpiry 5 example_session) = false ∧
  closed (checkExpiry 5 (newSession (S := probe) "s" 0 example_config)) = true.
Proof.
  split.
  - apply not_true_iff_false. intros Hc.
    apply (proj1 (expiry_exact 5 example_session eq_refl)) in Hc as [Hs _]. discriminate.
  - apply (proj1 (expiry_exact 5 (newSession (S := probe) "s" 0 example_config) eq_refl)).
    split; [done|]. intros id b Hb. cbn in Hb. by rewrite lookup_empty in Hb.
Defined.
End Session.

(** ** The session registry *)
Module SessionRegistry.
Import AudioBus Session.

Section Registry.
Context {S : Type} `{BusSubscription S}.

(** [rooms] maps an identity to a pointer into [sessions]; sessions outlive
    their registration. *)
Record SessionRegistry := mkRegistry {
  rooms : gmap string nat;
  sessions : list (RelaySession (S := S));
  reg_config : session_config }.

(** [NewRegistryWithConfig] *)
Definition NewRegistryWithConfig (inactivity reconnect maxSubs maxBuses : Z) : SessionRegistry :=
  mkRegistry ∅ []
    (mkConfig (if inactivity <=? 0 then defaultInactivityTimeout else inactivity)
       (if reconnect <=? 0 then defaultReconnectWindow else reconnect) maxSubs
       (if maxBuses <=? 0 then defaultMaxBuses else maxBuses)).

Definition session_closed (reg : SessionRegistry) (p : nat) : bool :=
  match sessions reg !! p with Some r => closed r | None => false end.

Definition set_rooms (m : gmap string nat) (reg : SessionRegistry) : SessionRegistry :=
  mkRegistry m (sessions reg) (reg_config reg).

Definition removeClosedLocked (reg : SessionRegistry) : SessionRegistry :=
  set_rooms (filter (λ kp, session_closed reg kp.2 = false) (rooms reg)) reg.

Definition getOrCreateLocked (id : string) (now : Z) (reg : SessionRegistry) : SessionRegistry * nat :=
  match rooms reg !! id with
  | Some p => (reg, p)
  | None =>
    let p := length (sessions reg) in
    (mkRegistry (<[id := p]> (rooms reg)) (sessions reg ++ [newSession id now (reg_config reg)])
       (reg_config reg), p)
  end.

Definition GetOrCreate (id : string) (now : Z) (reg : SessionRegistry) : SessionRegistry * nat :=
  getOrCreateLocked id now (removeClosedLocked reg).

(** The session, whether it was created, and whether the request was accepted. *)
Definition GetOrCreateWithinLimit (id : string) (maxSessions now : Z) (reg : SessionRegistry)
  : SessionRegistry * (option nat * bool * bool) :=
  let reg := removeClosedLocked reg in
  match rooms reg !! id with
  | Some p => (reg, (Some p, false, true))
  | None =>
    if (maxSessions >? 0) && (Z.of_nat (size (rooms reg)) >=? maxSessions)
    then (reg, (None, false, false))
    else let '(reg', p) := getOrCreateLocked id now reg in (reg', (Some p, true, true))
  end.

Definition Get (id : string) (reg : SessionRegistry) : SessionRegistry * option nat :=
  let reg := removeClosedLocked reg in (reg, rooms reg !! id).

Definition All (reg : SessionRegistry) : SessionRegistry * list nat :=
  let reg := removeClosedLocked reg in (reg, map snd (map_to_list (rooms reg))).

Definition set_session (p : nat) (f : RelaySession (S := S) → RelaySession (S := S)) (reg : SessionRegistry) : SessionRegistry :=
  mkRegistry (rooms reg) (alter f p (sessions reg)) (reg_config reg).

Definition Delete (id : string) (reg : SessionRegistry) : SessionRegistry :=
  match rooms reg !! id with
  | Some p => set_rooms (delete id (rooms reg)) (set_session p Close reg)
  | None => reg
  end.

Definition RoomCount (reg : SessionRegistry) : SessionRegistry * Z :=
  let reg := removeClosedLocked reg in (reg, Z.of_nat (size (rooms reg))).

Definition registry_PacketStats (reg : SessionRegistry) : SessionRegistry * (Z * Z) :=
  let reg := removeClosedLocked reg in
  let each := omap (λ kp, sessions reg !! kp.2) (map_to_list (rooms reg)) in
  (reg, (u64 (sumZ (map (λ r, (PacketStats r).1.1) each)), u64 (sumZ (map (λ r, (PacketStats r).2) each)))).

Definition CloseAll (reg : SessionRegistry) : SessionRegistry :=
  set_rooms ∅ (foldl (λ g p, set_session p Close g) reg (map snd (map_to_list (rooms reg)))).

(** *** What a registered identity denotes *)

Definition wf (reg : SessionRegistry) : Prop :=
  ∀ id p, rooms reg !! id = Some p → ∃ r, sessions reg !! p = Some r ∧ sessionID r = id.

(** Everything that happens to a registry and its sessions; sessions expire and
    change on their own. *)
Inductive reg_op :=
| RCreate (id : string) (now : Z)
| RGet (id : string)
| RDelete (id : string)
| RCloseAll
| RSession (p : nat) (o : op (S := S)).

Definition reg_apply (maxSessions : Z) (reg : SessionRegistry) (o : reg_op) : SessionRegistry :=
  match o with
  | RCreate id now => (GetOrCreateWithinLimit id maxSessions now reg).1
  | RGet id => (Get id reg).1
  | RDelete id => Delete id reg
  | RCloseAll => CloseAll reg
  | RSession p o => set_session p (λ r, apply_op r o) reg
  end.

Lemma apply_op_id r o : sessionID (apply_op (S := S) r o) = sessionID r.
Proof.
  destruct o; cbn [apply_op]; try done.
  - unfold AddBusSubscription. by case_if.
  - by apply remove_shrinks.
  - unfold TryReserveSlot, reserve_attempt. by repeat case_if.
  - unfold GetOrCreateBus. repeat case_match; done.
  - unfold AttachSource, GetOrCreateBus. repeat case_match; simplify_eq; done.
  - destruct (bus_step id l now r) as [r'|] eqn:E; [|done]. apply bus_step_shrinks in E as (E & _). exact E.
  - unfold checkExpiry, Close. by repeat case_if.
  - unfold Close. by case_if.
Qed.

Lemma newSession_open id now c : closed (newSession (S := S) id now c) = false.
Proof. done. Qed.

Lemma removeClosed_lookup reg id p :
  rooms (removeClosedLocked reg) !! id = Some p ↔ rooms reg !! id = Some p ∧ session_closed reg p = false.
Proof. cbn. by rewrite map_lookup_filter_Some. Qed.

Lemma removeClosed_size reg : (size (rooms (removeClosedLocked reg)) <= size (rooms reg))%nat.
Proof. cbn. apply map_subseteq_size, map_filter_subseteq. Qed.

Lemma set_session_wf p f reg :
  (∀ r, sessionID (f r) = sessionID r) → wf reg → wf (set_session p f reg).
Proof.
  intros Hf Hwf id q Hq. destruct (Hwf id q Hq) as (r & Hr & Hid). cbn.
  destruct (decide (q = p)) as [->|Hne].
  - rewrite list_lookup_alter_eq, Hr. exists (f r). split; [done|]. by rewrite Hf.
  - rewrite list_lookup_alter_ne by done. by exists r.
Qed.

Lemma create_wf id maxSessions now reg :
  wf reg →
  wf (GetOrCreateWithinLimit id maxSessions now reg).1 ∧
  (0 < maxSessions → Z.of_nat (size (rooms reg)) <= maxSessions →
   Z.of_nat (size (rooms (GetOrCreateWithinLimit id maxSessions now reg).1)) <= maxSessions).
Proof.
  intros Hwf. assert (Hwf' : wf (removeClosedLocked reg)).
  { intros i p Hp. apply removeClosed_lookup in Hp as [Hp _]. by apply Hwf. }
  pose proof (removeClosed_size reg). unfold GetOrCreateWithinLimit, getOrCreateLocked.
  set (reg1 := removeClosedLocked reg) in *.
  destruct (rooms reg1 !! id) as [p|] eqn:Hp; [cbn [fst]; split; [done|lia]|].
  case_if; [cbn [fst]; split; [done|lia]|]. cbn [fst]. split.
  - intros i p. cbn. destruct (decide (i = id)) as [->|Hne].
    + rewrite lookup_insert_eq. intros [= <-]. eexists. split; [by apply list_lookup_middle|done].
    + rewrite lookup_insert_ne by done. intros Hi. destruct (Hwf' i p Hi) as (r & Hr & Hid).
      exists r. split; [by apply lookup_app_l_Some|done].
  - intros Hm Hs. cbn [rooms]. rewrite map_size_insert_None by done. bool_hyps. lia.
Qed.

Lemma reg_apply_wf maxSessions reg o :
  0 < maxSessions →
  wf reg ∧ Z.of_nat (size (rooms reg)) <= maxSessions →
  wf (reg_apply maxSessions reg o) ∧ Z.of_nat (size (rooms (reg_apply maxSessions reg o))) <= maxSessions.
Proof.
  intros Hm [Hwf Hs]. pose proof (removeClosed_size reg). destruct o; cbn [reg_apply].
  - destruct (create_wf id maxSessions now reg Hwf). auto.
  - cbn [Get fst]. split; [|lia]. intros i p Hp. apply removeClosed_lookup in Hp as [Hp _]. by apply Hwf.
  - unfold Delete. destruct (rooms reg !! id) as [p|] eqn:Hp; [|done]. split.
    + intros i q Hq. cbn in Hq. apply lookup_delete_Some in Hq as [_ Hq].
      apply (set_session_wf p Close reg); [|done|done]. intros r. unfold Close. by case_if.
    + cbn. rewrite map_size_delete_Some by (rewrite Hp; eauto). lia.
  - split; [|cbn; rewrite map_size_empty; lia]. intros i p Hp. cbn in Hp. by rewrite lookup_empty in Hp.
  - split; [|done]. apply set_session_wf; [|done]. intros r. apply apply_op_id.
Qed.

(** C25: Sessions are admitted within the limit.  Whatever happened before, the
    registry holds at most [maxSessions] sessions; a request returns the open
    session registered under its identity, or creates one; and it is refused
    only when [maxSessions] sessions are open, none of them under that
    identity. *)
Theorem registry_admission maxSessions reg0 ops id now :
  0 < maxSessions → rooms reg0 = ∅ →
  let reg := foldl (reg_apply maxSessions) reg0 ops in
  let '(reg', (room, created, accepted)) := GetOrCreateWithinLimit id maxSessions now reg in
  Z.of_nat (size (rooms reg')) <= maxSessions ∧
  (accepted = true → ∃ p r, room = Some p ∧ rooms reg' !! id = Some p ∧ sessions reg' !! p = Some r ∧
     closed r = false ∧ sessionID r = id ∧ (created = true ↔ (sessions reg !! p = None))) ∧
  (accepted = false → room = None ∧ Z.of_nat (size (rooms reg')) = maxSessions ∧
     ∀ i p, rooms reg' !! i = Some p → i ≠ id ∧ ∃ r, sessions reg !! p = Some r ∧ closed r = false).
Proof.
  intros Hm H0 reg.
  assert (Hinv : wf reg ∧ Z.of_nat (size (rooms reg)) <= maxSessions).
  { subst reg. induction ops as [|o ops IH] using rev_ind.
    - cbn. rewrite H0, map_size_empty. split; [|lia]. intros i p Hp. rewrite H0 in Hp. by rewrite lookup_empty in Hp.
    - rewrite foldl_app. by apply reg_apply_wf. }
  clearbody reg. destruct Hinv as [Hwf Hs]. destruct (create_wf id maxSessions now reg Hwf) as [Hwf' Hs'].
  specialize (Hs' Hm Hs). pose proof (removeClosed_lookup reg) as Hlk.
  assert (Hopen : ∀ i p, rooms (removeClosedLocked reg) !! i = Some p →
            ∃ r, sessions reg !! p = Some r ∧ closed r = false ∧ sessionID r = i).
  { intros i p Hp. apply Hlk in Hp as [Hp Hc]. destruct (Hwf i p Hp) as (r & Hr & Hid).
    unfold session_closed in Hc. rewrite Hr in Hc. eauto. }
  unfold GetOrCreateWithinLimit, getOrCreateLocked in *. set (reg1 := removeClosedLocked reg) in *.
  change (sessions reg1) with (sessions reg) in *.
  destruct (rooms reg1 !! id) as [p|] eqn:Hp; [|case_if].
  - split_and!; [done| |done]. intros _. destruct (Hopen id p Hp) as (r & Hr & Hc & Hid).
    exists p, r. split_and!; try done. by rewrite Hr.
  - cbn [fst] in *. split_and!; [done|done|]. intros _. split_and!; [done|bool_hyps; lia|].
    intros i p Hi. split; [congruence|]. destruct (Hopen i p Hi) as (r & ? & ? & ?). eauto.
  - cbn [fst rooms sessions] in *. split_and!; [done| |done]. intros _.
    exists (length (sessions reg)), (newSession id now (reg_config reg1)).
    rewrite lookup_insert_eq. split_and!; try done; [by apply list_lookup_middle|].
    split; [|done]. intros _. by apply lookup_ge_None_2.
Qed.
End Registry.

(** Two sessions fit; the first is closed, so a third identity is admitted, and
    a fourth is refused. *)
Definition example_registry : SessionRegistry (S := probe) := NewRegistryWithConfig 0 0 50 0.
Definition example_reg_ops : list (reg_op (S := probe)) :=
  [RCreate "a" 0; RCreate "b" 1; RSession 0 OpClose; RCreate "c" 2].

Lemma registry_admission_witness :
  (GetOrCreateWithinLimit "d" 2 3 (foldl (reg_apply 2) example_registry example_reg_ops)).2 = (None, false, false) ∧
  Z.of_nat (size (rooms (GetOrCreateWithinLimit "d" 2 3
    (foldl (reg_apply 2) example_registry example_reg_ops)).1)) <= 2.
Proof.
  split; [vm_compute; reflexivity|].
  pose proof (registry_admission 2 example_registry example_reg_ops "d" 3 eq_refl eq_refl) as H. cbv zeta in H.
  destruct (GetOrCreateWithinLimit "d" 2 3 _) as [reg' [[room created] accepted]]. apply H.
Defined.
End SessionRegistry.
