(* ===== verification/Token.v ===== *)
(** * Token: capability tokens

    Translates [access/token/token.go].  The JWT library is a parameter, the
    class [Jwt]: the encoded tokens, signing, and parsing with the options
    [VerifyProfile] passes.  Its laws are the library's documented behaviour. *)

From S2P Require Export GoTime.

Module Token.

Definition Issuer : string := "pocketstation-relay".
Definition LegacyIssuer : string := "pocketstation-control-plane".
Definition Audience : string := "pocketstation-relay".
Definition tokenTyp : string := "pks-relay-capability+jwt".
Definition maxBusScopes : Z := 16.
Definition maxIdentifierLength : Z := 128.

Inductive Role := RoleSource | RoleSubscriber | RoleOther (r : string).

#[export] Instance Role_eq_dec : EqDecision Role.
Proof. solve_decision. Defined.

Definition role_string (r : Role) : string :=
  match r with RoleSource => "source" | RoleSubscriber => "subscriber" | RoleOther r => r end.

Inductive token_error := ErrInvalidCapability | ErrRandom.

(** [jwt.RegisteredClaims]; the dates are pointers. *)
Record RegisteredClaims := mkRegistered {
  rIssuer : string;
  rSubject : string;
  rAudience : list string;
  rExpiresAt : option Z;
  rNotBefore : option Z;
  rIssuedAt : option Z;
  rID : string }.

Definition no_registered : RegisteredClaims := mkRegistered "" "" [] None None None "".

Record Claims := mkClaims {
  cSessionID : string;
  cBusID : string;
  cBusIDs : list string;
  cRole : Role;
  cControl : bool;
  cIncarnation : string;
  cRegistered : RegisteredClaims }.

Definition string_len (s : string) : Z := Z.of_nat (String.length s).

Definition identifier_character (c : Ascii.ascii) : bool :=
  let n := Z.of_nat (Ascii.nat_of_ascii c) in
  ((97 <=? n) && (n <=? 122)) || ((65 <=? n) && (n <=? 90)) || ((48 <=? n) && (n <=? 57)) ||
  (n =? 46) || (n =? 95) || (n =? 45).

(** The source ranges over the runes: a byte outside ASCII begins a rune that is
    not accepted, so the test is the same byte by byte. *)
Definition validIdentifier (value : string) (maximum : Z) : bool :=
  if (string_len value =? 0) || (string_len value >? maximum) then false
  else forallb identifier_character (String.list_ascii_of_string value).

Fixpoint invalidIdentifiers_from (seen values : list string) (maximum : Z) : bool :=
  match values with
  | [] => false
  | value :: values' =>
    if negb (validIdentifier value maximum) then true
    else if bool_decide (value ∈ seen) then true
    else invalidIdentifiers_from (value :: seen) values' maximum
  end.

Definition invalidIdentifiers (values : list string) (maximum : Z) : bool :=
  invalidIdentifiers_from [] values maximum.

Definition validateScope (c : Claims) : result token_error unit :=
  match cRole c with
  | RoleSource =>
    if negb (bool_decide (cBusID c = "")) || (len (cBusIDs c) =? 0) || (len (cBusIDs c) >? maxBusScopes) ||
       invalidIdentifiers (cBusIDs c) 64
    then Err ErrInvalidCapability else Ok tt
  | RoleSubscriber =>
    if negb (validIdentifier (cBusID c) 64) || negb (len (cBusIDs c) =? 0) || cControl c
    then Err ErrInvalidCapability else Ok tt
  | RoleOther _ => Err ErrInvalidCapability
  end.

(** [CanControl], [AllowsBus] *)
Definition CanControl (c : Claims) : bool := bool_decide (cRole c = RoleSource) && cControl c.

Definition AllowsBus (c : Claims) (busID : string) : bool :=
  match cRole c with
  | RoleSubscriber => bool_decide (cBusID c = busID)
  | _ => existsb (λ bus, bool_decide (bus = busID)) (cBusIDs c)
  end.

Definition subject (c : Claims) : string :=
  ("relay-session:" +:+ cSessionID c +:+ ":" +:+ role_string (cRole c))%string.

(** [jwt.NewNumericDate] truncates to the second. *)
Definition NumericDate (t : Z) : Z := TruncateSecond t.

(** The time and identity checks [ParseWithClaims] makes for the options
    [WithIssuer], [WithAudience], [WithExpirationRequired], [WithIssuedAt],
    [WithTimeFunc] and [WithLeeway]. *)
Definition library_accepts (issuer audience : string) (now leeway : Z) (r : RegisteredClaims) : bool :=
  match rExpiresAt r with
  | None => false
  | Some e =>
    Before now (time_Add e leeway) &&
    (match rNotBefore r with None => true | Some n => negb (Before now (time_Add n (- leeway))) end) &&
    (match rIssuedAt r with None => true | Some i => negb (Before now (time_Add i (- leeway))) end) &&
    bool_decide (rIssuer r = issuer) && bool_decide (audience ∈ rAudience r)
  end.

(** The JWT library. *)
Class Jwt := {
  encoded : Type;
  encoded_len : encoded → Z;
  SignedString : string → Claims → list Z → encoded;
    (* an HS256 token with this "typ" header *)
  ParseHS256 : list Z → encoded → option (string * Claims)
    (* the "typ" header and claims of a well-signed HS256 token *) }.

Class JwtLaws `{Jwt} : Prop := {
  parse_signed : ∀ typ c secret, ParseHS256 secret (SignedString typ c secret) = Some (typ, c);
  signed_len : ∀ typ c secret, 0 < encoded_len (SignedString typ c secret) }.

Section Token.
Context `{Jwt}.

(** [jwt.ParseWithClaims] with [VerifyProfile]'s key function and options. *)
Definition ParseWithClaims (secret : list Z) (e : encoded) (issuer : string) (now : Z) : option Claims :=
  match ParseHS256 secret e with
  | None => None
  | Some (typ, c) =>
    if bool_decide (typ = tokenTyp) && library_accepts issuer Audience now (5 * Second) (cRegistered c)
    then Some c else None
  end.

(** [jti] is the token identity [randomTokenID] draws, [None] when it fails. *)
Definition SignProfile (secret : list Z) (issuer incarnation : string) (c : Claims) (ttl now : Z)
    (jti : option string) : result token_error encoded :=
  if negb (bool_decide (issuer = Issuer)) && negb (bool_decide (issuer = LegacyIssuer))
  then Err ErrInvalidCapability
  else
    let c := mkClaims (cSessionID c) (cBusID c) (cBusIDs c) (cRole c) (cControl c) incarnation (cRegistered c) in
    match validateScope c with
    | Err e => Err e
    | Ok _ =>
      if (len secret <? 32) || negb (validIdentifier (cSessionID c) maxIdentifierLength) || (ttl <=? 0)
      then Err ErrInvalidCapability
      else
        match jti with
        | None => Err ErrRandom
        | Some id =>
          let registered := mkRegistered issuer (subject c) [Audience]
            (Some (NumericDate (time_Add now ttl))) (Some (NumericDate (time_Add now (-5 * Second))))
            (Some (NumericDate now)) id in
          Ok (SignedString tokenTyp
                (mkClaims (cSessionID c) (cBusID c) (cBusIDs c) (cRole c) (cControl c) (cIncarnation c) registered)
                secret)
        end
    end.

Definition VerifyProfile (secret : list Z) (e : encoded) (issuer : string) (now : Z) : result token_error Claims :=
  if negb (bool_decide (issuer = Issuer)) && negb (bool_decide (issuer = LegacyIssuer))
  then Err ErrInvalidCapability
  else if (len secret <? 32) || (encoded_len e =? 0) || (encoded_len e >? 16384)
  then Err ErrInvalidCapability
  else
    match ParseWithClaims secret e issuer now with
    | None => Err ErrInvalidCapability
    | Some c =>
      let r := cRegistered c in
      match rIssuedAt r, rNotBefore r, rExpiresAt r with
      | Some iat, Some _, Some exp =>
        if negb (validIdentifier (cSessionID c) maxIdentifierLength) || bool_decide (rID r = "") ||
           negb (bool_decide (rSubject r = subject c)) || Before exp iat
        then Err ErrInvalidCapability
        else match validateScope c with Err e => Err e | Ok _ => Ok c end
      | _, _, _ => Err ErrInvalidCapability
      end
    end.

Definition new_claims (sessionID busID : string) (busIDs : list string) (role : Role) (control : bool) : Claims :=
  mkClaims sessionID busID busIDs role control "" no_registered.

Definition SignSource (secret : list Z) (sessionID : string) (busIDs : list string) (ttl now : Z) (jti : option string)
  : result token_error encoded :=
  if (len busIDs =? 0) || (len busIDs >? maxBusScopes) || invalidIdentifiers busIDs 64
  then Err ErrInvalidCapability
  else SignProfile secret Issuer "" (new_claims sessionID "" busIDs RoleSource true) ttl now jti.

Definition SignPublisher (secret : list Z) (sessionID busID : string) (ttl now : Z) (jti : option string)
  : result token_error encoded :=
  if negb (validIdentifier busID 64) then Err ErrInvalidCapability
  else SignProfile secret Issuer "" (new_claims sessionID "" [busID] RoleSource false) ttl now jti.

Definition SignSubscriber (secret : list Z) (sessionID busID : string) (ttl now : Z) (jti : option string)
  : result token_error encoded :=
  if negb (validIdentifier busID 64) then Err ErrInvalidCapability
  else SignProfile secret Issuer "" (new_claims sessionID busID [] RoleSubscriber false) ttl now jti.

(** *** What a verified capability is *)

(** The scope a verified token carries is well formed: a source names one to
    sixteen distinct buses, a subscriber exactly one and no control. *)
Definition well_scoped (c : Claims) : Prop :=
  match cRole c with
  | RoleSource => cBusID c = "" ∧ 0 < len (cBusIDs c) <= 16 ∧ NoDup (cBusIDs c) ∧
                  Forall (λ b, validIdentifier b 64 = true) (cBusIDs c)
  | RoleSubscriber => validIdentifier (cBusID c) 64 = true ∧ cBusIDs c = [] ∧ cControl c = false
  | RoleOther _ => False
  end.

Lemma invalidIdentifiers_from_spec values seen maximum :
  invalidIdentifiers_from seen values maximum = false ↔
  Forall (λ v, validIdentifier v maximum = true) values ∧ NoDup values ∧ ∀ v, v ∈ values → v ∉ seen.
Proof.
  revert seen. induction values as [|v values IH]; intros seen; cbn [invalidIdentifiers_from].
  { split; [|done]. intros _. split_and!; [constructor|constructor|]. intros v Hv. by apply not_elem_of_nil in Hv. }
  destruct (validIdentifier v maximum) eqn:Hv; cbn [negb].
  2: { split; [done|]. intros (Hf & _). apply Forall_cons in Hf as [? _]. congruence. }
  case_bool_decide as Hin.
  { split; [done|]. intros (_ & _ & Hs). by destruct (Hs v ltac:(left)). }
  rewrite IH, Forall_cons, NoDup_cons. split.
  - intros (Hf & Hnd & Hs). split_and!; [done|done|set_solver|done|set_solver].
  - intros ((_ & Hf) & (Hn & Hnd) & Hs). split_and!; [done|done|set_solver].
Qed.

Lemma validateScope_ok c : validateScope c = Ok tt ↔ well_scoped c.
Proof.
  unfold validateScope, well_scoped, invalidIdentifiers, maxBusScopes. destruct (cRole c) as [| |r].
  - destruct (invalidIdentifiers_from [] (cBusIDs c) 64) eqn:Hi.
    + rewrite orb_true_r. split; [done|]. intros (_ & _ & Hnd & Hf).
      assert (invalidIdentifiers_from [] (cBusIDs c) 64 = false); [|congruence].
      apply invalidIdentifiers_from_spec. split_and!; [done|done|intros; apply not_elem_of_nil].
    + apply invalidIdentifiers_from_spec in Hi as (Hf & Hnd & _). rewrite orb_false_r.
      case_bool_decide as Hb; cbn [negb orb]; [|split; [done|by intros (? & _)]].
      case_if; bool_hyps; split; try done.
      * intros (_ & ? & _). exfalso. lia.
      * pose proof (len_nonneg (cBusIDs c)). intros _. split_and!; try done; lia.
  - destruct (validIdentifier (cBusID c) 64); cbn [negb orb]; [|split; [done|by intros (? & _)]].
    destruct (cBusIDs c) as [|b l] eqn:E; [|split; [done|by intros (_ & ? & _)]].
    cbn. destruct (cControl c); split; try done. by intros (_ & _ & ?).
  - done.
Qed.

Lemma NumericDate_le t : NumericDate t <= t.
Proof. unfold NumericDate, TruncateSecond, Second. pose proof (Z.mod_pos_bound t 1000000000). lia. Qed.

Lemma NumericDate_mono t u : t <= u → NumericDate t <= NumericDate u.
Proof. unfold NumericDate, TruncateSecond, Second. ilia. Qed.

Lemma verified secret e issuer now c :
  VerifyProfile secret e issuer now = Ok c →
  ParseHS256 secret e = Some (tokenTyp, c) ∧ 32 <= len secret ∧
  (issuer = Issuer ∨ issuer = LegacyIssuer) ∧
  rIssuer (cRegistered c) = issuer ∧ Audience ∈ rAudience (cRegistered c) ∧
  (∃ exp iat nbf, rExpiresAt (cRegistered c) = Some exp ∧ rIssuedAt (cRegistered c) = Some iat ∧
     rNotBefore (cRegistered c) = Some nbf ∧ iat <= exp ∧
     now < exp + 5 * Second ∧ iat - 5 * Second <= now ∧ nbf - 5 * Second <= now) ∧
  validIdentifier (cSessionID c) maxIdentifierLength = true ∧ rSubject (cRegistered c) = subject c ∧
  well_scoped c.
Proof.
  unfold VerifyProfile, ParseWithClaims. intros Hv.
  case_if; [done|]. rename E into Hiss. case_if; [done|]. rename E into Hlen.
  destruct (ParseHS256 secret e) as [[typ c']|] eqn:Hp; [|done].
  case_if; [|done]. rename E into Hlib. apply andb_true_iff in Hlib as [Htyp Hlib].
  destruct (rIssuedAt (cRegistered c')) as [iat|] eqn:Hiat; [|done].
  destruct (rNotBefore (cRegistered c')) as [nbf|] eqn:Hnbf; [|done].
  destruct (rExpiresAt (cRegistered c')) as [exp|] eqn:Hexp; [|done].
  case_if; [done|]. rename E into Hself. destruct (validateScope c') as [[]|] eqn:Hs; [|done].
  injection Hv as <-. apply validateScope_ok in Hs. unfold library_accepts, Before, time_Add in *.
  rewrite Hexp, Hnbf, Hiat in Hlib. bool_hyps. subst typ.
  split_and!; try done; try lia.
  - destruct Hiss as [Hi|Hi]; bool_hyps; auto.
  - exists exp, iat, nbf. split_and!; try done; lia.
Qed.

(** What [VerifyProfile] accepts: a token signed with the Session secret and
    the capability type, issued by exactly the configured issuer for Relay's
    audience, within its lifetime up to the five second leeway, about the Session
    and role its subject names, with a well-formed scope. *)
Theorem verify_sound secret e issuer now c :
  VerifyProfile secret e issuer now = Ok c →
  ParseHS256 secret e = Some (tokenTyp, c) ∧ 32 <= len secret ∧
  (issuer = Issuer ∨ issuer = LegacyIssuer) ∧
  rIssuer (cRegistered c) = issuer ∧ Audience ∈ rAudience (cRegistered c) ∧
  (∃ exp iat nbf, rExpiresAt (cRegistered c) = Some exp ∧ rIssuedAt (cRegistered c) = Some iat ∧
     rNotBefore (cRegistered c) = Some nbf ∧ iat <= exp ∧
     now < exp + 5 * Second ∧ iat - 5 * Second <= now ∧ nbf - 5 * Second <= now) ∧
  validIdentifier (cSessionID c) maxIdentifierLength = true ∧ rSubject (cRegistered c) = subject c ∧
  well_scoped c.
Proof. apply verified. Qed.

Context `{!JwtLaws}.

Lemma signed_verifies secret issuer incarnation c ttl now jti e now' :
  SignProfile secret issuer incarnation c ttl now (Some jti) = Ok e → jti ≠ "" →
  encoded_len e <= 16384 → now <= now' < NumericDate (now + ttl) + 5 * Second →
  ∃ c', VerifyProfile secret e issuer now' = Ok c' ∧
    cSessionID c' = cSessionID c ∧ cRole c' = cRole c ∧ cControl c' = cControl c ∧
    cIncarnation c' = incarnation ∧ rExpiresAt (cRegistered c') = Some (NumericDate (now + ttl)) ∧
    (∀ bus, AllowsBus c' bus = AllowsBus c bus) ∧ CanControl c' = CanControl c.
Proof.
  unfold SignProfile, time_Add. intros Hsign Hjti Hlen Hnow.
  case_if; [done|]. rename E into Hiss. set (c1 := mkClaims _ _ _ _ _ incarnation _) in *.
  destruct (validateScope c1) as [[]|] eqn:Hs; [|done]. case_if; [done|]. rename E into Hok.
  injection Hsign as He. set (c2 := mkClaims _ _ _ _ _ _ (mkRegistered _ _ _ _ _ _ _)) in He.
  pose proof (signed_len tokenTyp c2 secret) as Hpos. rewrite He in Hpos.
  assert (Hp : ParseHS256 secret e = Some (tokenTyp, c2)) by (rewrite <- He; apply parse_signed).
  unfold VerifyProfile, ParseWithClaims. rewrite Hp, Hiss. assert (Hs2 : validateScope c2 = Ok tt) by exact Hs. exists c2. split; [|by split_and!].
  assert (Hlib : library_accepts issuer Audience now' (5 * Second) (cRegistered c2) = true).
  { subst c2. cbn [library_accepts cRegistered rExpiresAt rNotBefore rIssuedAt rIssuer rAudience].
    unfold Before, time_Add. assert (0 < Second) by done. pose proof (NumericDate_le now). pose proof (NumericDate_le (now + -5 * Second)).
    rewrite !andb_true_iff, !negb_true_iff, !bool_decide_eq_true, Z.ltb_lt, !Z.ltb_ge.
    split_and!; try done; [lia..|]. left. }
  assert (Hlate : Before (NumericDate (now + ttl)) (NumericDate now) = false).
  { bool_hyps. unfold Before. apply Z.ltb_ge. apply NumericDate_mono. lia. }
  apply orb_false_iff in Hok as [Hok _]. apply orb_false_iff in Hok as [Hsec Hid]. rewrite Hsec. cbn [orb].
  case_if; [exfalso; bool_hyps; destruct E as [E|E]; bool_hyps; lia|].
  rewrite bool_decide_true by done. rewrite Hlib. cbn [andb].
  change (rIssuedAt (cRegistered c2)) with (Some (NumericDate now)).
  change (rNotBefore (cRegistered c2)) with (Some (NumericDate (now + -5 * Second))).
  change (rExpiresAt (cRegistered c2)) with (Some (NumericDate (now + ttl))).
  change (cSessionID c2) with (cSessionID c1). rewrite Hid, Hlate, Hs2. cbn [orb].
  rewrite bool_decide_false by done. rewrite bool_decide_true by done. done.
Qed.

(** A signed capability verifies, with exactly the scope and incarnation it
    was signed for, from the moment it is issued until its expiry, and is about
    the Session it names. *)
Theorem sign_verify secret issuer incarnation c ttl now jti e now' :
  SignProfile secret issuer incarnation c ttl now (Some jti) = Ok e → jti ≠ "" →
  encoded_len e <= 16384 → now <= now' < NumericDate (now + ttl) + 5 * Second →
  ∃ c', VerifyProfile secret e issuer now' = Ok c' ∧
    cSessionID c' = cSessionID c ∧ cRole c' = cRole c ∧ cControl c' = cControl c ∧
    cIncarnation c' = incarnation ∧ rExpiresAt (cRegistered c') = Some (NumericDate (now + ttl)) ∧
    (∀ bus, AllowsBus c' bus = AllowsBus c bus) ∧ CanControl c' = CanControl c.
Proof. apply signed_verifies. Qed.
End Token.

(** A codec that keeps the token in the clear. *)
#[local] Instance clear_jwt : Jwt := {|
  encoded := string * Claims * list Z;
  encoded_len _ := 300;
  SignedString typ c secret := (typ, c, secret);
  ParseHS256 secret e := if bool_decide (e.2 = secret) then Some e.1 else None |}.

#[local] Instance clear_jwt_laws : JwtLaws.
Proof. split; [|done]. intros typ c secret. cbn. by rewrite bool_decide_true. Qed.

Definition example_secret : list Z := replicate 32 7.
Definition example_token : encoded :=
  match SignSubscriber example_secret "s-1" "voice" (60 * Second) (1000 * Second) (Some "id") with
  | Ok e => e
  | Err _ => SignedString "" (new_claims "" "" [] RoleSource false) []
  end.

Lemma verify_sound_witness :
  ∃ c, VerifyProfile example_secret example_token Issuer (1030 * Second) = Ok c ∧ well_scoped c.
Proof.
  eexists. split; [vm_compute; reflexivity|].
  refine (proj2 (proj2 (proj2 (proj2 (proj2 (proj2 (proj2 (proj2
    (verify_sound example_secret example_token Issuer (1030 * Second) _ _))))))))).
  vm_compute. reflexivity.
Defined.

Lemma sign_verify_witness :
  ∃ c', VerifyProfile example_secret example_token Issuer (1030 * Second) = Ok c' ∧
    AllowsBus c' "voice" = true ∧ CanControl c' = false.
Proof.
  destruct (sign_verify example_secret Issuer "" (new_claims "s-1" "voice" [] RoleSubscriber false)
              (60 * Second) (1000 * Second) "id" example_token (1030 * Second)) as (c' & Hv & _ & _ & _ & _ & _ & Hb & Hc).
  - vm_compute. reflexivity.
  - done.
  - vm_compute. congruence.
  - vm_compute. split; congruence.
  - exists c'. rewrite Hb, Hc. by split_and!.
Defined.
End Token.
