(* ===== verification/Storage.v ===== *)
(** * Storage: transactional records and the in-memory store

    Translates [access/storage/storage.go] (the records and the transaction
    contract) and [access/storage/memory/memory.go] (the in-memory adapter).  A
    transaction is a program over a private copy of the records.  Its context
    may be cancelled at any point: [ctx] counts the checks of [ctx.Err()] that
    still pass. *)

From S2P Require Export GoTime.

Module Storage.

Definition SchemaVersion : Z := 1.
Definition MaxRecordBytes : Z := 262144.

(** Errors of the storage and of the access service built on it. *)
Inductive error :=
| ErrConflict | ErrReadOnly | ErrClosed | ErrCapacity | ErrContext
| ErrSessionCapacity | ErrInvitationCapacity | ErrSessionNotReady | ErrWriterFenced
| ErrNoRows | ErrNotExist | ErrInvalidRelayState | ErrSchema | ErrRandom | ErrInvalidCapability
| ErrInvalidWordCount | ErrInvalidInvitationVisibility | ErrNameAllocationUnavailable
| ErrRetryConflict | ErrReceiptCapacity | ErrGrammar | ErrNames | ErrConfiguration
| ErrStorage.              (* any other error of a storage engine *)

#[export] Instance error_eq_dec : EqDecision error.
Proof. solve_decision. Defined.

Record Namespace := mkNamespace {
  nsSchemaVersion : Z;
  nsIncarnation : string;
  nsWriterTerm : Z;       (* uint64 *)
  nsWriterID : string;
  nsLeaseExpiresAt : Z }.

Definition no_namespace : Namespace := mkNamespace 0 "" 0 "" zero_time.

Record BusState := mkBusState {
  bsBusID : string; bsRole : string; bsSourceActive : bool; bsSourceGeneration : Z }.

Record SubscriptionState := mkSubscriptionState {
  ssSubscriberID : string; ssBusID : string }.

Record RelayState := mkRelayState {
  rsContractVersion : Z;
  rsSessionID : string;
  rsRelayEpoch : string;
  rsRevision : Z;         (* uint64 *)
  rsWriterTerm : Z;       (* uint64 *)
  rsObservedAt : Z;
  rsBuses : list BusState;
  rsSubscriptions : list SubscriptionState }.

#[export] Instance BusState_eq_dec : EqDecision BusState.
Proof. solve_decision. Defined.
#[export] Instance SubscriptionState_eq_dec : EqDecision SubscriptionState.
Proof. solve_decision. Defined.

Definition no_relay : RelayState := mkRelayState 0 "" "" 0 0 zero_time [] [].

Record SessionRecord := mkSessionRecord {
  seSchemaVersion : Z;
  seID : string;
  seIssuer : string;
  seIncarnation : string;
  seLegacyTokensBefore : Z;
  seRequiredBuses : list string;
  seCodec : string;
  seStateRevision : Z;    (* uint64 *)
  seRelay : RelayState;
  seWriterTerm : Z;       (* uint64 *)
  seMediaTerm : Z;        (* uint64 *)
  seLastActiveAt : Z;
  seExpiresAt : Z }.

Record GrantRecord := mkGrantRecord {
  grSchemaVersion : Z;
  grID : string;
  grJoinCode : string;
  grAlias : string;
  grGrammarName : string;
  grWordCount : Z;
  grVisibility : string;
  grSessionID : string;
  grBusID : string;
  grCreatedAt : Z;
  grExpiresAt : Z }.

Record Receipt := mkReceipt {
  rcSchemaVersion : Z;
  rcKey : string;
  rcOperation : string;
  rcSessionID : string;
  rcRequestDigest : list Z;
  rcCredentialDigest : list Z;
  rcResponse : list Z;
  rcStatusCode : Z;
  rcCreatedAt : Z;
  rcExpiresAt : Z }.

Record Counts := mkCounts { SessionCount : Z; GrantCount : Z; ReceiptCount : Z }.

(** The length of each record's JSON encoding. *)
Class RecordSizes := {
  session_bytes : SessionRecord → Z;
  grant_bytes : GrantRecord → Z;
  receipt_bytes : Receipt → Z;
  namespace_bytes : Namespace → Z }.

(** The records of the in-memory store. *)
Record records := mkRecords {
  sessions : gmap string SessionRecord;
  grants : gmap string GrantRecord;
  locators : gmap string string;
  receipts : gmap string Receipt;
  namespace : Namespace }.

Definition set_sessions (m : gmap string SessionRecord) (d : records) : records :=
  mkRecords m (grants d) (locators d) (receipts d) (namespace d).
Definition set_receipts (m : gmap string Receipt) (d : records) : records :=
  mkRecords (sessions d) (grants d) (locators d) m (namespace d).
Definition set_grants (g : gmap string GrantRecord) (l : gmap string string) (d : records) : records :=
  mkRecords (sessions d) g l (receipts d) (namespace d).
Definition set_namespace (n : Namespace) (d : records) : records :=
  mkRecords (sessions d) (grants d) (locators d) (receipts d) n.

(** ** Transactions *)

Inductive transactionMode := readTransaction | writeTransaction.

#[export] Instance transactionMode_eq_dec : EqDecision transactionMode.
Proof. solve_decision. Defined.

Record env := mkEnv { mode : transactionMode; tx_now : Z }.

(** The private records and the context; [Some n]: the context is cancelled
    after [n] more checks, [None]: it is not cancelled. *)
Record txn := mkTxn { data : records; ctx : option nat }.

Definition tx (A : Type) : Type := env → txn → txn * result error A.

#[export] Instance tx_ret : MRet tx := λ A a e s, (s, Ok a).
#[export] Instance tx_bind : MBind tx := λ A B f m e s,
  match m e s with
  | (s', Ok a) => f a e s'
  | (s', Err err) => (s', Err err)
  end.

Definition fail {A} (err : error) : tx A := λ e s, (s, Err err).

(** The error is discarded, what was done is kept. *)
Definition ignore {A} (m : tx A) : tx unit := λ e s, ((m e s).1, Ok tt).

Definition guard_tx (b : bool) (err : error) : tx unit := if b then mret tt else fail err.

(** [ctx.Err()] *)
Definition ctx_err : tx unit := λ e s,
  match ctx s with
  | None => (s, Ok tt)
  | Some O => (s, Err ErrContext)
  | Some (S n) => (mkTxn (data s) (Some n), Ok tt)
  end.

Definition get : tx records := λ e s, (s, Ok (data s)).
Definition modify (f : records → records) : tx unit := λ e s, (mkTxn (f (data s)) (ctx s), Ok tt).

(** [Now] *)
Definition Now : tx Z := λ e s, (s, Ok (tx_now e)).

(** [t.write()] *)
Definition check_mode : tx unit := λ e s,
  if decide (mode e = writeTransaction) then (s, Ok tt) else (s, Err ErrReadOnly).
Definition write : tx unit := ctx_err ≫= λ _, check_mode.

Definition read {A} (f : records → A) : tx A := get ≫= λ d, ctx_err ≫= λ _, mret (f d).

Section Transaction.
Context `{RecordSizes}.

Definition bounded (bytes : Z) : tx unit := guard_tx (negb (bytes >? MaxRecordBytes)) ErrCapacity.

Definition Session (id : string) : tx (option SessionRecord) := read (λ d, sessions d !! id).

(** [Sessions]: all records in key order. *)
Definition Sessions (limit : Z) : tx (list SessionRecord) :=
  if limit <? 0 then fail ErrCapacity
  else get ≫= λ d,
    if Z.of_nat (size (sessions d)) >? limit then fail ErrCapacity
    else ctx_err ≫= λ _, mret (map snd (sort_keys (map_to_list (sessions d)))).

Definition PutSession (r : SessionRecord) : tx unit :=
  bounded (session_bytes r) ≫= λ _, write ≫= λ _,
  modify (λ d, set_sessions (<[seID r := r]> (sessions d)) d).

(** What [DeleteGrant] does to the records. *)
Definition drop_grant (id : string) (d : records) : records :=
  match grants d !! id with
  | Some r => set_grants (delete id (grants d)) (delete (grAlias r) (delete (grJoinCode r) (locators d))) d
  | None => d
  end.

Definition DeleteGrant (id : string) : tx unit := write ≫= λ _, modify (drop_grant id).

(** A loop over the keys of a map that ignores the errors of its body. *)
Fixpoint for_each (keys : list string) (body : string → tx unit) : tx unit :=
  match keys with
  | [] => mret tt
  | k :: keys' => ignore (body k) ≫= λ _, for_each keys' body
  end.

(** The keys of the entries that satisfy [p]. *)
Definition keys_with {A} (p : A → bool) (m : gmap string A) : list string :=
  omap (λ kv, if p kv.2 then Some kv.1 else None) (map_to_list m).

Definition same_session (id other : string) : bool := bool_decide (other = id).

Definition DeleteSession (id : string) : tx unit :=
  write ≫= λ _,
  modify (λ d, set_sessions (delete id (sessions d)) d) ≫= λ _,
  get ≫= λ d,
  for_each (keys_with (λ g, same_session id (grSessionID g)) (grants d)) DeleteGrant ≫= λ _,
  modify (λ d, set_receipts (filter (λ kr, same_session id (rcSessionID kr.2) = false) (receipts d)) d).

Definition Grant (locator : string) : tx (option GrantRecord) :=
  read (λ d, match locators d !! locator with Some id => grants d !! id | None => None end).

Definition PutGrant (r : GrantRecord) : tx unit :=
  bounded (grant_bytes r) ≫= λ _, write ≫= λ _, get ≫= λ d,
  guard_tx (negb (bool_decide (grID r = "") || bool_decide (grJoinCode r = "") || bool_decide (grAlias r = "") ||
                  bool_decide (grJoinCode r = grAlias r))) ErrConflict ≫= λ _,
  guard_tx (bool_decide (is_Some (sessions d !! grSessionID r))) ErrConflict ≫= λ _,
  guard_tx (bool_decide (grants d !! grID r = None)) ErrConflict ≫= λ _,
  guard_tx (bool_decide (locators d !! grJoinCode r = None)) ErrConflict ≫= λ _,
  guard_tx (bool_decide (locators d !! grAlias r = None)) ErrConflict ≫= λ _,
  modify (λ d, set_grants (<[grID r := r]> (grants d))
                 (<[grAlias r := grID r]> (<[grJoinCode r := grID r]> (locators d))) d).

Definition GetReceipt (key : string) : tx (option Receipt) := read (λ d, receipts d !! key).

Definition PutReceipt (r : Receipt) : tx unit :=
  bounded (receipt_bytes r) ≫= λ _, write ≫= λ _, get ≫= λ d,
  guard_tx (bool_decide (is_Some (sessions d !! rcSessionID r))) ErrConflict ≫= λ _,
  guard_tx (bool_decide (receipts d !! rcKey r = None)) ErrConflict ≫= λ _,
  modify (λ d, set_receipts (<[rcKey r := r]> (receipts d)) d).

Definition GetCounts : tx Counts :=
  read (λ d, mkCounts (Z.of_nat (size (sessions d))) (Z.of_nat (size (grants d))) (Z.of_nat (size (receipts d)))).

Definition expired (now t : Z) : bool := negb (After t now).

Definition PruneExpired : tx unit :=
  write ≫= λ _, Now ≫= λ now,
  get ≫= λ d, for_each (keys_with (λ r, expired now (seExpiresAt r)) (sessions d)) DeleteSession ≫= λ _,
  get ≫= λ d, for_each (keys_with (λ r, expired now (grExpiresAt r)) (grants d)) DeleteGrant ≫= λ _,
  modify (λ d, set_receipts (filter (λ kr, expired now (rcExpiresAt kr.2) = false) (receipts d)) d).

Definition GetNamespace : tx Namespace := read namespace.

Definition PutNamespace (n : Namespace) : tx unit :=
  bounded (namespace_bytes n) ≫= λ _, write ≫= λ _, modify (set_namespace n).

(** ** The store *)

Record Store := mkStore { store_data : records; closed : bool }.

Definition NewStore : Store := mkStore (mkRecords ∅ ∅ ∅ ∅ no_namespace) false.

(** [run]: one transaction at a time holds the gate.  [c] says when its context
    is cancelled. *)
Definition run {A} (m : transactionMode) (c : option nat) (now : Z) (fn : tx A) (s : Store) : Store * result error A :=
  match ctx_err (mkEnv m now) (mkTxn (store_data s) c) with
  | (_, Err e) => (s, Err e)
  | (t, Ok _) =>
    if closed s then (s, Err ErrClosed)
    else
      match fn (mkEnv m now) t with
      | (_, Err e) => (s, Err e)
      | (t', Ok a) =>
        match ctx_err (mkEnv m now) t' with
        | (_, Err e) => (s, Err e)
        | (t'', Ok _) =>
          (if decide (m = writeTransaction) then mkStore (data t'') (closed s) else s, Ok a)
        end
      end
  end.

Definition Update {A} := @run A writeTransaction.
Definition View {A} := @run A readTransaction.
Definition Close (s : Store) : Store := mkStore (store_data s) true.
End Transaction.

(** ** Cancellation

    A program that ends with its context still alive did what it does when the
    context is never cancelled. *)

Definition alive (s : txn) : Prop := ctx s ≠ Some O.
Definition strip (s : txn) : txn := mkTxn (data s) None.

Class CtxFree {A} (m : tx A) : Prop := mkCtxFree {
  ctx_free : ∀ e s, alive (m e s).1 → alive s ∧ m e (strip s) = (strip (m e s).1, (m e s).2);
  ctx_none : ∀ e d, ctx (m e (mkTxn d None)).1 = None }.

#[export] Instance ctx_free_ret {A} (a : A) : CtxFree (mret a).
Proof. split; [by intros e s Ha|done]. Qed.

#[export] Instance ctx_free_fail {A} err : CtxFree (fail (A := A) err).
Proof. split; [by intros e s Ha|done]. Qed.

#[export] Instance ctx_free_get : CtxFree get.
Proof. split; [by intros e s Ha|done]. Qed.

#[export] Instance ctx_free_modify f : CtxFree (modify f).
Proof. split; [by intros e s Ha|done]. Qed.

#[export] Instance ctx_free_Now : CtxFree Now.
Proof. split; [by intros e s Ha|done]. Qed.

#[export] Instance ctx_free_check_mode : CtxFree check_mode.
Proof. split; intros e; unfold check_mode; case_decide; done. Qed.

#[export] Instance ctx_free_ctx_err : CtxFree ctx_err.
Proof. split; [|done]. intros e [d [[|n]|]]; unfold ctx_err, alive; cbn; [done|by destruct n|done]. Qed.

#[export] Instance ctx_free_bind {A B} (m : tx A) (f : A → tx B) :
  CtxFree m → (∀ a, CtxFree (f a)) → CtxFree (m ≫= f).
Proof.
  intros Hm Hf. split.
  - intros e s Ha. unfold mbind, tx_bind in *. destruct (m e s) as [s1 [a|err]] eqn:E; cbn [fst snd] in *.
    + destruct (ctx_free e s1 Ha) as [H1 H2]. destruct (ctx_free (m := m) e s) as [H3 H4]; [by rewrite E|].
      split; [done|]. rewrite H4, E. cbn [fst snd]. exact H2.
    + destruct (ctx_free (m := m) e s) as [H3 H4]; [by rewrite E|]. split; [done|]. by rewrite H4, E.
  - intros e d. unfold mbind, tx_bind. pose proof (ctx_none (m := m) e d) as Hn.
    destruct (m e (mkTxn d None)) as [[d1 c1] [a|err]]; cbn in *; subst; [apply ctx_none|done].
Qed.

#[export] Instance ctx_free_ignore {A} (m : tx A) : CtxFree m → CtxFree (ignore m).
Proof.
  intros Hm. split; unfold ignore.
  - intros e s Ha. cbn [fst snd] in *. destruct (ctx_free e s Ha) as [H1 H2]. split; [done|]. by rewrite H2.
  - intros e d. cbn. apply ctx_none.
Qed.

#[export] Instance ctx_free_guard b err : CtxFree (guard_tx b err).
Proof. unfold guard_tx. destruct b; apply _. Qed.

#[export] Instance ctx_free_write : CtxFree write.
Proof. unfold write. apply _. Qed.

#[export] Instance ctx_free_read {A} (f : records → A) : CtxFree (read f).
Proof. unfold read. apply _. Qed.

#[export] Instance ctx_free_for_each keys body : (∀ k, CtxFree (body k)) → CtxFree (for_each keys body).
Proof. intros Hb. induction keys; cbn; apply _. Qed.

#[export] Instance ctx_free_if {A} (b : bool) (m1 m2 : tx A) : CtxFree m1 → CtxFree m2 → CtxFree (if b then m1 else m2).
Proof. by destruct b. Qed.

#[export] Instance ctx_free_option {A B} (o : option B) (f : B → tx A) (m : tx A) :
  (∀ b, CtxFree (f b)) → CtxFree m → CtxFree (match o with Some b => f b | None => m end).
Proof. by destruct o. Qed.

(** ** Execution without cancellation *)

Definition exec {A} (m : tx A) (e : env) (d : records) : records * result error A :=
  (data (m e (mkTxn d None)).1, (m e (mkTxn d None)).2).

Lemma exec_state {A} (m : tx A) `{!CtxFree m} e d :
  m e (mkTxn d None) = (mkTxn (exec m e d).1 None, (exec m e d).2).
Proof.
  unfold exec. pose proof (ctx_none (m := m) e d). destruct (m e (mkTxn d None)) as [[d' c'] r]. cbn in *. by subst.
Qed.

Lemma exec_bind {A B} (m : tx A) (f : A → tx B) `{!CtxFree m} e d :
  exec (m ≫= f) e d =
  match (exec m e d).2 with Ok a => exec (f a) e (exec m e d).1 | Err err => ((exec m e d).1, Err err) end.
Proof.
  unfold exec at 1. unfold mbind, tx_bind. rewrite (exec_state m). by destruct (exec m e d) as [d' [a|err]].
Qed.

Lemma exec_ret {A} (a : A) e d : exec (mret a) e d = (d, Ok a).
Proof. done. Qed.
Lemma exec_fail {A} err e d : exec (fail (A := A) err) e d = (d, Err err).
Proof. done. Qed.
Lemma exec_get e d : exec get e d = (d, Ok d).
Proof. done. Qed.
Lemma exec_modify f e d : exec (modify f) e d = (f d, Ok tt).
Proof. done. Qed.
Lemma exec_Now e d : exec Now e d = (d, Ok (tx_now e)).
Proof. done. Qed.
Lemma exec_read {A} (f : records → A) e d : exec (read f) e d = (d, Ok (f d)).
Proof. done. Qed.
Lemma exec_guard b err e d : exec (guard_tx b err) e d = (d, if b then Ok tt else Err err).
Proof. by destruct b. Qed.
Lemma exec_write now d : exec write (mkEnv writeTransaction now) d = (d, Ok tt).
Proof. done. Qed.
Lemma exec_write_read now d : exec write (mkEnv readTransaction now) d = (d, Err ErrReadOnly).
Proof. done. Qed.

(** One bind step, with the program's own result computed. *)
Ltac exec_step :=
  rewrite exec_bind by apply _;
  rewrite ?exec_ret, ?exec_fail, ?exec_get, ?exec_modify, ?exec_Now, ?exec_read, ?exec_guard, ?exec_write,
    ?exec_write_read; cbn [fst snd tx_now].

Lemma exec_for_each keys body e d :
  (∀ k, CtxFree (body k)) →
  exec (for_each keys body) e d = (foldl (λ d k, (exec (body k) e d).1) d keys, Ok tt).
Proof.
  intros Hb. revert d. induction keys as [|k keys IH]; intros d; [done|].
  cbn [for_each]. rewrite exec_bind by apply _. unfold exec at 1 2 3, ignore. cbn [fst snd]. apply IH.
Qed.

Lemma run_commits {A} m c now (fn : tx A) `{!CtxFree fn} s s' a :
  run m c now fn s = (s', Ok a) →
  closed s = false ∧ (exec fn (mkEnv m now) (store_data s)).2 = Ok a ∧
  s' = (if decide (m = writeTransaction)
        then mkStore (exec fn (mkEnv m now) (store_data s)).1 (closed s) else s).
Proof.
  unfold run. destruct (ctx_err _ _) as [t [[]|err]] eqn:Et; [|done].
  assert (Hd : data t = store_data s).
  { unfold ctx_err in Et. cbn in Et. destruct c as [[|n]|]; simplify_eq; done. }
  destruct (closed s) eqn:Hc; [done|]. destruct (fn _ t) as [t' [a'|err]] eqn:Ef; [|done].
  destruct (ctx_err _ t') as [t'' [[]|err]] eqn:Et'; [|done]. intros [= <- <-].
  assert (alive t' ∧ data t'' = data t') as [Ha Hd''].
  { unfold ctx_err in Et'. unfold alive. destruct (ctx t') as [[|n]|] eqn:Ec; simplify_eq; done. }
  destruct (ctx_free (m := fn) (mkEnv m now) t) as [_ Hs]; [by rewrite Ef|].
  unfold strip in Hs. rewrite Ef, Hd in Hs. cbn [fst snd] in Hs. unfold exec. rewrite Hs. cbn. by rewrite Hd''.
Qed.

Lemma run_rolls_back {A} m c now (fn : tx A) s s' e : run m c now fn s = (s', Err e) → s' = s.
Proof. unfold run. intros Hr. repeat case_match; simplify_eq; done. Qed.

Section Operations.
Context `{RecordSizes}.

#[export] Instance ctx_free_Session id : CtxFree (Session id).
Proof. unfold Session. apply _. Qed.
#[export] Instance ctx_free_Sessions limit : CtxFree (Sessions limit).
Proof. unfold Sessions. apply _. Qed.
#[export] Instance ctx_free_PutSession r : CtxFree (PutSession r).
Proof. unfold PutSession, bounded. apply _. Qed.
#[export] Instance ctx_free_DeleteGrant id : CtxFree (DeleteGrant id).
Proof. unfold DeleteGrant. apply _. Qed.
#[export] Instance ctx_free_DeleteSession id : CtxFree (DeleteSession id).
Proof. unfold DeleteSession. apply _. Qed.
#[export] Instance ctx_free_Grant l : CtxFree (Grant l).
Proof. unfold Grant. apply _. Qed.
#[export] Instance ctx_free_PutGrant r : CtxFree (PutGrant r).
Proof. unfold PutGrant, bounded. apply _. Qed.
#[export] Instance ctx_free_GetReceipt k : CtxFree (GetReceipt k).
Proof. unfold GetReceipt. apply _. Qed.
#[export] Instance ctx_free_PutReceipt r : CtxFree (PutReceipt r).
Proof. unfold PutReceipt, bounded. apply _. Qed.
#[export] Instance ctx_free_GetCounts : CtxFree GetCounts.
Proof. unfold GetCounts. apply _. Qed.
#[export] Instance ctx_free_PruneExpired : CtxFree PruneExpired.
Proof. unfold PruneExpired. apply _. Qed.
#[export] Instance ctx_free_GetNamespace : CtxFree GetNamespace.
Proof. unfold GetNamespace. apply _. Qed.
#[export] Instance ctx_free_PutNamespace n : CtxFree (PutNamespace n).
Proof. unfold PutNamespace, bounded. apply _. Qed.

(** ** The invariant of the records *)

(** The locators are exactly the two locators of the retained grants. *)
Definition indexed (d : records) : Prop :=
  (∀ k g, grants d !! k = Some g →
     grID g = k ∧ grJoinCode g ≠ grAlias g ∧
     locators d !! grJoinCode g = Some k ∧ locators d !! grAlias g = Some k) ∧
  (∀ l k, locators d !! l = Some k → ∃ g, grants d !! k = Some g ∧ (l = grJoinCode g ∨ l = grAlias g)).

(** Records are stored under their identity; grants and receipts belong to a
    retained Session. *)
Definition anchored (d : records) : Prop :=
  (∀ k r, sessions d !! k = Some r → seID r = k) ∧
  (∀ k g, grants d !! k = Some g → is_Some (sessions d !! grSessionID g)) ∧
  (∀ k r, receipts d !! k = Some r → rcKey r = k ∧ is_Some (sessions d !! rcSessionID r)).

Definition wf (d : records) : Prop := indexed d ∧ anchored d.

Lemma elem_of_keys_with {A} (p : A → bool) (m : gmap string A) k :
  k ∈ keys_with p m ↔ ∃ v, m !! k = Some v ∧ p v = true.
Proof.
  unfold keys_with. rewrite list_elem_of_omap. split.
  - intros ([k' v] & Hin & Hp). apply elem_of_map_to_list in Hin. cbn in Hp.
    destruct (p v) eqn:E; [|done]. injection Hp as ->. eauto.
  - intros (v & Hk & Hp). exists (k, v). cbn. rewrite Hp. split; [by apply elem_of_map_to_list|done].
Qed.

Lemma drop_grant_grants id d : grants (drop_grant id d) = delete id (grants d).
Proof. unfold drop_grant. destruct (grants d !! id) eqn:E; [done|]. by rewrite delete_id. Qed.

Lemma drop_grant_frame id d :
  sessions (drop_grant id d) = sessions d ∧ receipts (drop_grant id d) = receipts d ∧
  namespace (drop_grant id d) = namespace d.
Proof. unfold drop_grant. by destruct (grants d !! id). Qed.

Lemma drop_grant_indexed id d : indexed d → indexed (drop_grant id d).
Proof.
  intros [Hg Hl]. unfold drop_grant. destruct (grants d !! id) as [r|] eqn:E; [|done].
  destruct (Hg id r E) as (_ & _ & Hc & Ha). split; cbn [grants locators set_grants].
  - intros k g Hk. apply lookup_delete_Some in Hk as [Hne Hk]. destruct (Hg k g Hk) as (H1 & H2 & H3 & H4).
    split_and!; [done|done| |]; apply lookup_delete_Some; (split; [congruence|]);
      apply lookup_delete_Some; (split; [congruence|done]).
  - intros l k Hk. apply lookup_delete_Some in Hk as [Hl1 Hk]. apply lookup_delete_Some in Hk as [Hl2 Hk].
    destruct (Hl l k Hk) as (g & Hgk & Hor). exists g. split; [|done]. apply lookup_delete_Some. split; [|done].
    intros <-. rewrite E in Hgk. injection Hgk as ->. destruct Hor; congruence.
Qed.

Lemma fold_drop_grant keys d :
  let d' := foldl (λ d k, drop_grant k d) d keys in
  (∀ k, grants d' !! k = if decide (k ∈ keys) then None else grants d !! k) ∧
  sessions d' = sessions d ∧ receipts d' = receipts d ∧ namespace d' = namespace d ∧
  (indexed d → indexed d').
Proof.
  revert d. induction keys as [|k keys IH]; intros d; cbn [foldl].
  { by split_and!. }
  destruct (IH (drop_grant k d)) as (H1 & H2 & H3 & H4 & H5). destruct (drop_grant_frame k d) as (F1 & F2 & F3).
  split_and!; [|congruence..|].
  - intros k'. rewrite H1, drop_grant_grants. destruct (decide (k' = k)) as [->|Hne].
    + rewrite lookup_delete_eq, (decide_True (P := k ∈ k :: keys)) by left. by case_decide.
    + rewrite lookup_delete_ne by done. apply decide_ext. rewrite elem_of_cons. tauto.
  - intros Hi. by apply H5, drop_grant_indexed.
Qed.

(** What [DeleteSession] does to the records. *)
Definition drop_session (id : string) (d : records) : records :=
  let d1 := set_sessions (delete id (sessions d)) d in
  let d2 := foldl (λ d k, drop_grant k d) d1 (keys_with (λ g, same_session id (grSessionID g)) (grants d1)) in
  set_receipts (filter (λ kr, same_session id (rcSessionID kr.2) = false) (receipts d2)) d2.

Lemma exec_DeleteGrant now id d :
  exec (DeleteGrant id) (mkEnv writeTransaction now) d = (drop_grant id d, Ok tt).
Proof. done. Qed.

Lemma exec_DeleteSession now id d :
  exec (DeleteSession id) (mkEnv writeTransaction now) d = (drop_session id d, Ok tt).
Proof.
  unfold DeleteSession. do 3 exec_step. rewrite exec_bind by apply _. rewrite exec_for_each by apply _.
  cbn [fst snd]. rewrite exec_modify. done.
Qed.

Lemma same_session_true id other : same_session id other = true ↔ other = id.
Proof. apply bool_decide_eq_true. Qed.
Lemma same_session_false id other : same_session id other = false ↔ other ≠ id.
Proof. apply bool_decide_eq_false. Qed.

(** [DeleteSession] removes the Session, its grants and its receipts, and
    nothing else. *)
Lemma drop_session_spec id d :
  let d' := drop_session id d in
  sessions d' = delete id (sessions d) ∧
  (∀ k g, grants d' !! k = Some g ↔ grants d !! k = Some g ∧ grSessionID g ≠ id) ∧
  (∀ k r, receipts d' !! k = Some r ↔ receipts d !! k = Some r ∧ rcSessionID r ≠ id) ∧
  namespace d' = namespace d ∧ (indexed d → indexed d').
Proof.
  unfold drop_session. cbv zeta. set (d1 := set_sessions _ d). set (keys := keys_with _ _).
  destruct (fold_drop_grant keys d1) as (H1 & H2 & H3 & H4 & H5).
  cbn [set_receipts sessions grants receipts namespace]. split_and!; [done| | |done|].
  - intros k g. rewrite H1. change (grants d1) with (grants d).
    assert (Hk : k ∈ keys ↔ ∃ v, grants d !! k = Some v ∧ grSessionID v = id).
    { unfold keys. rewrite elem_of_keys_with. change (grants d1) with (grants d).
      split; intros (v & ? & Hv); exists v; (split; [done|]); by apply same_session_true. }
    case_decide as Hin; rewrite Hk in Hin.
    + split; [done|]. intros [Hg Hne]. destruct Hin as (v & Hv & E). congruence.
    + split; [|by intros [? _]]. intros Hg. split; [done|]. intros E. apply Hin. eauto.
  - intros k r. rewrite map_lookup_filter_Some, H3. cbn [snd]. by rewrite same_session_false.
  - intros Hi. destruct (H5 Hi) as [? ?]. by split.
Qed.

Lemma drop_session_wf id d : wf d → wf (drop_session id d).
Proof.
  intros [Hi (Ha1 & Ha2 & Ha3)]. destruct (drop_session_spec id d) as (H1 & H2 & H3 & _ & H5).
  split; [auto|]. split_and!.
  - intros k r Hk. rewrite H1 in Hk. apply lookup_delete_Some in Hk as [_ Hk]. auto.
  - intros k g Hk. apply H2 in Hk as [Hk Hne]. rewrite H1, lookup_delete_ne by done. by eapply Ha2.
  - intros k r Hk. apply H3 in Hk as [Hk Hne]. rewrite H1, lookup_delete_ne by done. by apply Ha3.
Qed.

Lemma fold_drop_session keys d :
  let d' := foldl (λ d k, drop_session k d) d keys in
  (∀ k, sessions d' !! k = if decide (k ∈ keys) then None else sessions d !! k) ∧
  (∀ k g, grants d' !! k = Some g ↔ grants d !! k = Some g ∧ grSessionID g ∉ keys) ∧
  (∀ k r, receipts d' !! k = Some r ↔ receipts d !! k = Some r ∧ rcSessionID r ∉ keys) ∧
  namespace d' = namespace d ∧ (wf d → wf d').
Proof.
  revert d. induction keys as [|k keys IH]; intros d; cbn [foldl].
  { split_and!; try done; intros k x; (split; [|by intros [? _]]); intros Hk; (split; [done|apply not_elem_of_nil]). }
  destruct (IH (drop_session k d)) as (H1 & H2 & H3 & H4 & H5).
  destruct (drop_session_spec k d) as (F1 & F2 & F3 & F4 & _). split_and!.
  - intros k'. rewrite H1, F1. destruct (decide (k' = k)) as [->|Hne].
    + rewrite lookup_delete_eq, (decide_True (P := k ∈ k :: keys)) by left. by case_decide.
    + rewrite lookup_delete_ne by done. apply decide_ext. rewrite elem_of_cons. tauto.
  - intros k' g. rewrite H2, F2, not_elem_of_cons. tauto.
  - intros k' r. rewrite H3, F3, not_elem_of_cons. tauto.
  - congruence.
  - intros Hw. by apply H5, drop_session_wf.
Qed.

(** What [PruneExpired] does to the records at time [now]. *)
Definition prune (now : Z) (d : records) : records :=
  let d1 := foldl (λ d k, drop_session k d) d (keys_with (λ r, expired now (seExpiresAt r)) (sessions d)) in
  let d2 := foldl (λ d k, drop_grant k d) d1 (keys_with (λ r, expired now (grExpiresAt r)) (grants d1)) in
  set_receipts (filter (λ kr, expired now (rcExpiresAt kr.2) = false) (receipts d2)) d2.

Lemma foldl_ext {A B} (f g : A → B → A) (a : A) (l : list B) :
  (∀ a b, f a b = g a b) → foldl f a l = foldl g a l.
Proof. intros E. revert a. induction l as [|b l IH]; intros a; [done|]. cbn. by rewrite E, IH. Qed.

Lemma exec_PruneExpired now d :
  exec PruneExpired (mkEnv writeTransaction now) d = (prune now d, Ok tt).
Proof.
  unfold PruneExpired. do 3 exec_step. rewrite exec_bind by apply _. rewrite exec_for_each by apply _. cbn [fst snd].
  rewrite (foldl_ext _ (λ d k, drop_session k d)) by (intros; by rewrite exec_DeleteSession).
  exec_step. rewrite exec_bind by apply _. rewrite exec_for_each by apply _. cbn [fst snd]. by rewrite exec_modify.
Qed.

Lemma expired_true now t : expired now t = true ↔ t <= now.
Proof. unfold expired, After. rewrite negb_true_iff, Z.ltb_ge. done. Qed.
Lemma expired_false now t : expired now t = false ↔ now < t.
Proof. unfold expired, After. rewrite negb_false_iff, Z.ltb_lt. done. Qed.

(** Removing the keys of the entries that satisfy [p] keeps the others. *)
Lemma keys_with_kept {A} (p : A → bool) (m : gmap string A) k v :
  (if decide (k ∈ keys_with p m) then None else m !! k) = Some v ↔ m !! k = Some v ∧ p v = false.
Proof.
  case_decide as Hin; rewrite elem_of_keys_with in Hin.
  - split; [done|]. intros [Hk Hp]. destruct Hin as (v' & ? & ?). congruence.
  - split; [|by intros [? _]]. intros Hk. split; [done|]. apply not_true_iff_false. intros Hp. apply Hin. eauto.
Qed.

(** [PruneExpired] keeps exactly the unexpired Sessions, and the unexpired
    grants and receipts of the Sessions it keeps. *)
Lemma prune_spec now d :
  wf d →
  let d' := prune now d in
  (∀ k r, sessions d' !! k = Some r ↔ sessions d !! k = Some r ∧ now < seExpiresAt r) ∧
  (∀ k g, grants d' !! k = Some g ↔
     grants d !! k = Some g ∧ now < grExpiresAt g ∧ is_Some (sessions d' !! grSessionID g)) ∧
  (∀ k r, receipts d' !! k = Some r ↔
     receipts d !! k = Some r ∧ now < rcExpiresAt r ∧ is_Some (sessions d' !! rcSessionID r)) ∧
  namespace d' = namespace d ∧ wf d'.
Proof.
  intros Hwf. unfold prune. cbv zeta. set (keys := keys_with _ (sessions d)).
  destruct (fold_drop_session keys d) as (S1 & S2 & S3 & S4 & S5). set (d1 := foldl _ d keys) in *.
  set (gkeys := keys_with _ (grants d1)). destruct (fold_drop_grant gkeys d1) as (G1 & G2 & G3 & G4 & G5).
  set (d2 := foldl _ d1 gkeys) in *. cbn [set_receipts sessions grants receipts namespace].
  assert (Hses : ∀ k r, sessions d1 !! k = Some r ↔ sessions d !! k = Some r ∧ now < seExpiresAt r).
  { intros k r. rewrite S1. unfold keys. by rewrite keys_with_kept, expired_false. }
  assert (Hanch : ∀ id, is_Some (sessions d !! id) → id ∉ keys ↔ is_Some (sessions d1 !! id)).
  { intros id [r Hr]. rewrite S1. case_decide; [|by rewrite Hr]. by split; [|intros []]. }
  destruct (S5 Hwf) as [Hi1 (An1 & An2 & An3)]. destruct Hwf as [_ (Aw1 & Aw2 & Aw3)].
  assert (Hgr : ∀ k g, grants d2 !! k = Some g ↔ grants d1 !! k = Some g ∧ now < grExpiresAt g).
  { intros k g. rewrite G1. unfold gkeys. by rewrite keys_with_kept, expired_false. }
  rewrite G2, G3, G4. split_and!; [done| | |done|].
  - intros k g. rewrite Hgr, S2. split.
    + intros [[Hk Hn] Hlt]. split_and!; [done|done|]. apply Hanch; [by eapply Aw2|done].
    + intros (Hk & Hlt & Hs). split_and!; [done| |done]. apply Hanch; [by eapply Aw2|done].
  - intros k r. rewrite map_lookup_filter_Some, S3, expired_false. cbn [snd]. split.
    + intros [[Hk Hn] Hlt]. split_and!; [done|done|]. apply Hanch; [by eapply Aw3|done].
    + intros (Hk & Hlt & Hs). split_and!; [done| |done]. apply Hanch; [by eapply Aw3|done].
  - split; [by apply G5|]. split_and!.
    + cbn. rewrite G2. done.
    + cbn. intros k g Hk. rewrite G2. apply Hgr in Hk as [Hk _]. by eapply An2.
    + cbn. intros k r Hk. rewrite G2. apply map_lookup_filter_Some in Hk as [Hk _]. by apply An3.
Qed.

(** ** What the writes do *)

Lemma exec_PutSession now r d :
  exec (PutSession r) (mkEnv writeTransaction now) d =
  if session_bytes r >? MaxRecordBytes then (d, Err ErrCapacity)
  else (set_sessions (<[seID r := r]> (sessions d)) d, Ok tt).
Proof. unfold PutSession, bounded. exec_step. by destruct (session_bytes r >? MaxRecordBytes). Qed.

Lemma exec_PutNamespace now n d :
  exec (PutNamespace n) (mkEnv writeTransaction now) d =
  if namespace_bytes n >? MaxRecordBytes then (d, Err ErrCapacity) else (set_namespace n d, Ok tt).
Proof. unfold PutNamespace, bounded. exec_step. by destruct (namespace_bytes n >? MaxRecordBytes). Qed.

(** A grant that can be inserted: named, under an existing Session, with fresh
    identity and locators. *)
Definition insertable (r : GrantRecord) (d : records) : Prop :=
  grant_bytes r <= MaxRecordBytes ∧ grID r ≠ "" ∧ grJoinCode r ≠ "" ∧ grAlias r ≠ "" ∧ grJoinCode r ≠ grAlias r ∧
  is_Some (sessions d !! grSessionID r) ∧ grants d !! grID r = None ∧
  locators d !! grJoinCode r = None ∧ locators d !! grAlias r = None.

Definition add_grant (r : GrantRecord) (d : records) : records :=
  set_grants (<[grID r := r]> (grants d)) (<[grAlias r := grID r]> (<[grJoinCode r := grID r]> (locators d))) d.

Lemma exec_PutGrant now r d :
  (insertable r d ∧ exec (PutGrant r) (mkEnv writeTransaction now) d = (add_grant r d, Ok tt)) ∨
  (¬ insertable r d ∧ ∃ err, exec (PutGrant r) (mkEnv writeTransaction now) d = (d, Err err) ∧
     (err = ErrCapacity ∧ MaxRecordBytes < grant_bytes r ∨ err = ErrConflict)).
Proof.
  unfold PutGrant, bounded, insertable. exec_step.
  destruct (grant_bytes r >? MaxRecordBytes) eqn:E1; cbn [negb].
  { right. bool_hyps. split; [intros (? & _); lia|]. eexists. split; [done|left; split; [done|lia]]. }
  do 2 exec_step. bool_hyps. exec_step. case_bool_decide as E2; cbn [orb negb].
  { right. split; [tauto|]. eexists. split; [done|by right]. }
  case_bool_decide as E3; cbn [orb negb]. { right. split; [tauto|]. eexists. split; [done|by right]. }
  case_bool_decide as E4; cbn [orb negb]. { right. split; [tauto|]. eexists. split; [done|by right]. }
  case_bool_decide as E5; cbn [orb negb]. { right. split; [tauto|]. eexists. split; [done|by right]. }
  exec_step. case_bool_decide as E6; cbn [negb]. 2: { right. split; [tauto|]. eexists. split; [done|by right]. }
  exec_step. case_bool_decide as E7; cbn [negb]. 2: { right. split; [tauto|]. eexists. split; [done|by right]. }
  exec_step. case_bool_decide as E8; cbn [negb]. 2: { right. split; [tauto|]. eexists. split; [done|by right]. }
  exec_step. case_bool_decide as E9; cbn [negb]. 2: { right. split; [tauto|]. eexists. split; [done|by right]. }
  left. split; [|done]. split_and!; try done.
Qed.

Definition receivable (r : Receipt) (d : records) : Prop :=
  receipt_bytes r <= MaxRecordBytes ∧ is_Some (sessions d !! rcSessionID r) ∧ receipts d !! rcKey r = None.

Lemma exec_PutReceipt now r d :
  (receivable r d ∧
   exec (PutReceipt r) (mkEnv writeTransaction now) d = (set_receipts (<[rcKey r := r]> (receipts d)) d, Ok tt)) ∨
  (¬ receivable r d ∧ ∃ err, exec (PutReceipt r) (mkEnv writeTransaction now) d = (d, Err err) ∧
     (err = ErrCapacity ∧ MaxRecordBytes < receipt_bytes r ∨ err = ErrConflict)).
Proof.
  unfold PutReceipt, bounded, receivable. exec_step.
  destruct (receipt_bytes r >? MaxRecordBytes) eqn:E1; cbn [negb].
  { right. bool_hyps. split; [intros (? & _); lia|]. eexists. split; [done|left; split; [done|lia]]. }
  do 2 exec_step. bool_hyps. exec_step. case_bool_decide as E2; cbn [negb]; [|right; split; [tauto|eauto 6]].
  exec_step. case_bool_decide as E3; cbn [negb]; [|right; split; [tauto|eauto 6]]. left. by split_and!.
Qed.

(** *** Programs that keep the records well formed *)

Class Preserves {A} (m : tx A) : Prop :=
  preserves : ∀ now d d' a, wf d → exec m (mkEnv writeTransaction now) d = (d', Ok a) → wf d'.

#[export] Instance preserves_ret {A} (a : A) : Preserves (mret a).
Proof. intros now d d' a' Hw. rewrite exec_ret. by intros [= <- _]. Qed.
#[export] Instance preserves_fail {A} err : Preserves (fail (A := A) err).
Proof. intros now d d' a' Hw. by rewrite exec_fail. Qed.
#[export] Instance preserves_get : Preserves get.
Proof. intros now d d' a' Hw. rewrite exec_get. by intros [= <- _]. Qed.
#[export] Instance preserves_Now : Preserves Now.
Proof. intros now d d' a' Hw. rewrite exec_Now. by intros [= <- _]. Qed.
#[export] Instance preserves_read {A} (f : records → A) : Preserves (read f).
Proof. intros now d d' a' Hw. rewrite exec_read. by intros [= <- _]. Qed.
#[export] Instance preserves_guard b err : Preserves (guard_tx b err).
Proof. intros now d d' a' Hw. rewrite exec_guard. by destruct b; intros [= <- _]. Qed.
#[export] Instance preserves_bind {A B} (m : tx A) (f : A → tx B) :
  CtxFree m → Preserves m → (∀ a, Preserves (f a)) → Preserves (m ≫= f).
Proof.
  intros Hc Hm Hf now d d' b Hw. rewrite exec_bind by done.
  destruct (exec m _ d) as [d1 [a|err]] eqn:E; [|done]. cbn [fst snd]. apply Hf. by eapply Hm.
Qed.
#[export] Instance preserves_if {A} (b : bool) (m1 m2 : tx A) :
  Preserves m1 → Preserves m2 → Preserves (if b then m1 else m2).
Proof. by destruct b. Qed.
#[export] Instance preserves_option {A B} (o : option B) (f : B → tx A) (m : tx A) :
  (∀ b, Preserves (f b)) → Preserves m → Preserves (match o with Some b => f b | None => m end).
Proof. by destruct o. Qed.

#[export] Instance preserves_Session id : Preserves (Session id).
Proof. unfold Session. apply _. Qed.
#[export] Instance preserves_Grant l : Preserves (Grant l).
Proof. unfold Grant. apply _. Qed.
#[export] Instance preserves_GetReceipt k : Preserves (GetReceipt k).
Proof. unfold GetReceipt. apply _. Qed.
#[export] Instance preserves_GetCounts : Preserves GetCounts.
Proof. unfold GetCounts. apply _. Qed.
#[export] Instance preserves_GetNamespace : Preserves GetNamespace.
Proof. unfold GetNamespace. apply _. Qed.

Lemma put_session_wf r d : wf d → wf (set_sessions (<[seID r := r]> (sessions d)) d).
Proof.
  intros [Hi (A1 & A2 & A3)].
  assert (Hs : ∀ k, is_Some (sessions d !! k) → is_Some (<[seID r := r]> (sessions d) !! k)).
  { intros k Hk. destruct (decide (seID r = k)) as [->|]; [by rewrite lookup_insert_eq|by rewrite lookup_insert_ne]. }
  split; [exact Hi|]. split_and!; cbn.
  - intros k r' Hk. apply lookup_insert_Some in Hk as [[? <-]|[_ ?]]; auto.
  - intros k g Hk. apply Hs. by eapply A2.
  - intros k rc Hk. destruct (A3 k rc Hk). auto.
Qed.

#[export] Instance preserves_PutSession r : Preserves (PutSession r).
Proof.
  intros now d d' a Hw. rewrite exec_PutSession. case_if; [done|]. intros [= <- _]. by apply put_session_wf.
Qed.

#[export] Instance preserves_DeleteSession id : Preserves (DeleteSession id).
Proof. intros now d d' a Hw. rewrite exec_DeleteSession. intros [= <- _]. by apply drop_session_wf. Qed.

#[export] Instance preserves_DeleteGrant id : Preserves (DeleteGrant id).
Proof.
  intros now d d' a [Hi (A1 & A2 & A3)]. rewrite exec_DeleteGrant. intros [= <- _].
  destruct (drop_grant_frame id d) as (F1 & F2 & _). split; [by apply drop_grant_indexed|].
  unfold anchored. rewrite F1, F2, drop_grant_grants. split_and!; [done| |done].
  intros k g Hk. apply lookup_delete_Some in Hk as [_ Hk]. by eapply A2.
Qed.

#[export] Instance preserves_PutGrant r : Preserves (PutGrant r).
Proof.
  intros now d d' a [[I1 I2] (A1 & A2 & A3)] Hex.
  destruct (exec_PutGrant now r d) as [[(_ & _ & _ & _ & Hne & Hs & Hg & Hc & Ha) E]|[_ (err & E & _)]];
    rewrite E in Hex; [|done]. injection Hex as <- _. unfold add_grant. split; [split|split_and!]; cbn.
  - intros k g Hk. apply lookup_insert_Some in Hk as [[<- <-]|[Hk1 Hk]].
    + split_and!; [done|done| |by rewrite lookup_insert_eq].
      rewrite lookup_insert_ne by done. by rewrite lookup_insert_eq.
    + destruct (I1 k g Hk) as (? & ? & L1 & L2). split_and!; [done|done| |];
        rewrite !lookup_insert_ne by congruence; done.
  - intros l k Hl. apply lookup_insert_Some in Hl as [[<- <-]|[Hl1 Hl]].
    { exists r. rewrite lookup_insert_eq. auto. }
    apply lookup_insert_Some in Hl as [[<- <-]|[Hl2 Hl]]; [exists r; rewrite lookup_insert_eq; auto|].
    destruct (I2 l k Hl) as (g & Hg' & ?). exists g. split; [|done]. rewrite lookup_insert_ne by congruence. done.
  - done.
  - intros k g Hk. apply lookup_insert_Some in Hk as [[<- <-]|[_ Hk]]; [done|]. by eapply A2.
  - done.
Qed.

#[export] Instance preserves_PutReceipt r : Preserves (PutReceipt r).
Proof.
  intros now d d' a [Hi (A1 & A2 & A3)] Hex.
  destruct (exec_PutReceipt now r d) as [[(_ & Hs & _) E]|[_ (err & E & _)]]; rewrite E in Hex; [|done].
  injection Hex as <- _. split; [exact Hi|]. split_and!; [done|done|]. cbn.
  intros k rc Hk. apply lookup_insert_Some in Hk as [[<- <-]|[_ Hk]]; [done|]. by apply A3.
Qed.

#[export] Instance preserves_PruneExpired : Preserves PruneExpired.
Proof. intros now d d' a Hw. rewrite exec_PruneExpired. intros [= <- _]. by apply prune_spec. Qed.

#[export] Instance preserves_PutNamespace n : Preserves (PutNamespace n).
Proof. intros now d d' a Hw. rewrite exec_PutNamespace. case_if; [done|]. by intros [= <- _]. Qed.

End Operations.

(** Records of a constant size, for the examples. *)
#[local] Instance small_records : RecordSizes := {|
  session_bytes _ := 500; grant_bytes _ := 300; receipt_bytes _ := 900; namespace_bytes _ := 200 |}.

Definition example_record : SessionRecord :=
  mkSessionRecord 1 "s-1" "pocketstation-relay" "inc" zero_time ["voice"] "opus" 1 no_relay 1 0 (10 * Second) (100 * Second).


End Storage.
