(* ===== verification/Lexicon.v ===== *)
(** The word tables of the readable names: access/names/words.go, lexicon.go,
    legacy.go and the palettes of composed.go, as the source lists them. *)

From S2P Require Export Prelude.

Module Lexicon.

(** ** strings.Fields *)

(** The white space of the tables is ASCII. *)
Definition is_space (c : Ascii.ascii) : bool :=
  let n := Ascii.nat_of_ascii c in ((9 <=? n) && (n <=? 13) || (n =? 32))%nat.

(** [word] is the field being read, reversed. *)
Fixpoint fields_from (word : list Ascii.ascii) (s : string) : list string :=
  let flush := match word with [] => [] | _ => [String.string_of_list_ascii (rev word)] end in
  match s with
  | EmptyString => flush
  | String c s' => if is_space c then flush ++ fields_from [] s' else fields_from (c :: word) s'
  end.
Definition Fields (s : string) : list string := fields_from [] s.

(** ** lexicon.go *)

(** [family] is a uint16 bit mask. *)
Definition nature : Z := 1.
Definition place : Z := 2.
Definition animal : Z := 4.
Definition plant : Z := 8.
Definition food : Z := 16.
Definition material : Z := 32.
Definition object : Z := 64.
Definition music : Z := 128.
Definition idea : Z := 256.
Definition mask (families : list Z) : Z := foldr Z.lor 0 families.
Definition allFamilies : Z := mask [nature; place; animal; plant; food; material; object; music; idea].

Record lexicalGroup := mkGroup { family : Z; group_words : string }.
Record phrasePalette := mkPalette { modifiers : string; subjects : string }.

(** The tables a grammar is built from. *)
Record lexicon := mkLexicon {
  words : list string;
  nounGroups : list lexicalGroup;
  adjectiveGroups : list lexicalGroup;
  modifierGroups : list lexicalGroup;
  qualifierPairs : list string;
  confusableGroups : list string;
  disallowedPairs : list string;
  specificAdjectiveHeads : list (string * string);  (* a Go map *)
  tripleHeads : string;
  tripleAdjectives : string;
  composedPalettes : list phrasePalette }.

(** ** words.go *)

Definition english_words : list string := Fields
  "acorn agate alder aloe amber anise apple arch aspen aster azure bamboo bank basalt basin bay beach beech
   bend berry birch bloom blue bluff bold bough briar bridge bright brisk brook bud cacao calm canyon cape
   cavern cedar cherry chime cinder circle clay clean clear cliff clover coast comet cool coral corpus cosmos
   court crane creek crest crisp daisy dawn deep dell delta dove dune dusky eagle elm ember even faint fair
   falcon falls fawn field finch fine fir firm fjord flint flora flower flute forest fox fresh frost garden
   gentle geode glad glade glass glen golden gorge grain grass green grove gull harbor haven hazel heath heron
   hidden high hill hollow holly honey inlet iris isle ivory jade jasper junco kelp kind knoll lagoon lake lane
   larch lark laurel leaf ledge lemon light lilac linen little lively loch lotus lucid lunar maple marble marsh
   meadow mellow mesa mica mild mint misty moon moor mossy moth mound mountain muted myrtle navy neat nectar
   nest noble oak oasis oats ocean ochre olive onyx opal open orchid otter owl pale palm panda park pass pastel
   path peak pearl pearly pebble petal pine plain plum pond pool poppy port quartz quiet quill rain rare raven
   ravine reed reef rice ridge river road robin rose rosy round royal rue rush rustic sage sand sandy seal
   serene sheer shell shore silent silk silly silver slate sleek slope slow small smooth snow snowy soft solar
   spring spruce square star steady steel still stork stream summit sun sunny swan swift tawny tender thyme
   tidal tiger trail true tulip vale valley velvet vine violet vista vivid warm wharf wide wild willow windy
   winter wise wisp wood wren yard yarn yarrow yew young zinnia able accent agile air alley alloy almond alto
   amble ample anchor angle anthem apricot apron arcade ardent aria aroma arrow art atlas autumn avenue awning
   azalea badger bagel balance ballad ballet balm banana band banjo bard barley barn basil basket bass bath
   baton bayou beacon bead bean beat beaver beet bell belt bench bike bison blanket bliss block blues board
   boat bobcat bongo bonsai book bottle bounce bowl box brass brave bread breeze brief brine broad bronze broom
   brush bucket buckle bugle bulb bun bunny butter button cabin cable cactus camel camp candid candle canoe
   canto canvas card care cargo carol carpet carrot carry cashew castle cat cave celery cello chair chalet
   chalk chant chapel charm chart cheese chick chili chive choice choir chord chorus cider citrus city clef
   clever click climb clock cloth cloud clove clue coat cobra cocoa code coffee coil color comb comic cone
   cookie copper cork corn corner cotton cougar cove cozy cradle craft crate cream crepe cricket crocus crow
   cruise cube cumin cup curry curve cycle cymbal daffodil dahlia dance dash date debut deck deer depot depth
   design desk dew dial diary dish dock dog dome donkey door dot dough drama draw drawer dream dress drift
   drizzle drum duck duet dust duvet eager early earth ease easel easy echo edge egg egret elegant elk emu epic
   essay estate fable fall fancy farm feast felt fence fennel fern ferret ferry fiddle fig figure film finale
   fish flag flannel flask flax float floor flour flow fog foil folder font form fort forum foyer frame fresco
   fringe frog frond fruit fudge fugue future gala gale game garage garlic garnet gate gecko gem genre gift
   ginger glide globe glove glyph goat gold gong goose grace grand granite grape gravel gravy grid groove guava
   guide guitar gust hail hall halo hamlet hammer handle hangar happy hare harp hawk haze heart hedge herb
   hexagon hike hinge hook hoop hope horse hotel hound house hover hum humor hymn ice icing icon idea ideal
   image indigo ink island ivy jaguar jar jasmine jazz jelly jetty jingle jog jug juice jump kale kettle key
   kit kiwi koala lace lamb lamp large latch laugh leap leather legacy lemur lens lentil lesson letter lichen
   lid lift lily lime line lion llama loaf locket lodge loft logic loom loop luck lynx lyric macaw magic magnet
   magpie mallet mango map march market mask mat melody melon merry metal milk mill millet mink mirror mist
   mitten mocha model mole moose mosaic motif mouse move movie mural muse museum music napkin needle net newt
   nimble noodle note number nut oar office onion opera orange orbit orca osprey oval oven pace paddle page
   paint pair palace pan panel papaya paper parade parrot patio peace peach peanut pear pecan pedal pencil
   penguin peony pepper pet photo phrase piano pickle piece pier pigeon pillow pin pita pitch pivot pizza plank
   plate plaza plush pocket poem poetry poise polar polka pollen pony porch poster pot pouch prime prism propel
   prose prune pulp pulse puma puzzle quail quilt quince rabbit race rack radio radish raisin ramen ranch range
   ready recipe relish rhino rhyme rhythm ribbon ride riff ring rink ripe rise roam roast robe rock roll rondo
   roof room root rope route ruby rug ruler rumba sable saddle saffron sail salad salmon salsa satin sauce
   saucer scarf school scoot score screen script seat seed sesame shape sheep sheet shelf shift shoe shoot shop
   shovel shower sieve simple skate sketch skill sleet sleeve slide sloth smile snail snare snug soap soar solo
   sonata song sonnet soup space spark sphere spice spin spiral spirit spool spoon squash stage stamp stanza
   starch steer stem step stew stitch stone store storm story strap straw street stride string stroll studio
   style sugar summer sunset sushi sway sweep sweet swim swing switch symbol syntax syrup table taco tale tango
   tap teapot tempo tenor tent tern thaw theme thorn thread thunder tidy tile tilt timber tin toad toast toffee
   tomato tone topaz towel tower town train travel tray trek trifle trio trout trunk trust tube tumble tune
   tunnel turn turnip turtle twist unity vanilla vapor vase vault vector veil verse vessel vest view villa
   village vinyl viola violin visual voice volume waffle wagon wake walk wall walnut waltz wander water wave
   wax weave wedge whale wheat wheel whim whirl whisk white window wing wire witty wolf wonder wool word wrap
   yeast yogurt zeal zebra zero zest zip zipper zoo zoom".

(** ** The tables of lexicon.go *)

Definition english_nounGroups : list lexicalGroup := [
  mkGroup nature
    "air arch autumn cinder crest stream wisp breeze circle cloud comet cosmos dawn delta dew drizzle dust earth
     echo ember fall fog frost gale globe gust hail halo haze hill ice island light line mist moon mountain ocean
     orbit rain ridge river rock sleet slope snow space spark sphere spring star stone storm summer sun sunset
     thunder vapor water wave winter";
  mkGroup place
    "alley arcade avenue bank barn basin bath bay bayou beach bend bluff bridge brook cabin camp canyon cape
     castle cave cavern chalet chapel city cliff coast corner court cove creek deck dell depot dock dome dune
     edge estate farm fence ferry field fjord floor forest fort forum foyer garage garden gate glade glen gorge
     grove hall hamlet hangar harbor haven heath hedge hollow hotel house inlet isle jetty knoll lagoon lake lane
     ledge loch lodge loft market marsh meadow mesa mill moor mound museum nest oasis office palace park pass
     path patio peak pier plain plaza pond pool porch port ranch range ravine reef rink road roof room route
     school seat shelf shore shop stage store street studio summit town trail tunnel vale valley vault view villa
     village vista wall wharf window yard zoo";
  mkGroup animal
    "badger beaver bison bobcat bunny camel cat chick cobra cougar crane cricket crow deer dog donkey dove duck
     eagle egret elk emu falcon fawn ferret finch fish fox frog gecko goat goose gull hare hawk heron horse hound
     jaguar junco kiwi koala lamb lark lemur lion llama lynx macaw magpie mink mole moose moth mouse newt orca
     osprey otter owl panda parrot penguin pet pigeon pony puma quail rabbit raven rhino robin salmon seal sheep
     sloth snail stork swan tern tiger toad trout turtle whale wolf wren zebra";
  mkGroup plant
    "acorn alder aloe aspen aster azalea bamboo beech birch bloom bonsai bough briar bud bulb cactus cedar cherry
     clover crocus daffodil dahlia daisy elm fennel fern fir flax flora flower frond fruit grass grove hazel
     holly iris ivy jasmine kelp larch laurel leaf lichen lilac lily lotus maple myrtle oak orchid palm peony
     petal pine pollen poppy reed root rose rue sage seed spruce stem straw thorn thyme timber tulip vine violet
     walnut wheat willow wood yarrow yew zinnia";
  mkGroup food
    "almond anise apple apricot aroma bagel balm banana barley basil bean beet berry brine bread bun butter cacao
     carrot cashew celery cheese chili chive cider citrus clove cocoa coffee cookie corn cream crepe cumin cup
     curry date dough egg feast fig flour fudge garlic ginger grain grape gravy guava herb honey icing jelly
     juice kale lemon lentil lime loaf mango melon milk millet mint mocha nectar noodle nut oats olive onion
     orange papaya peach peanut pear pecan pepper pickle pita pizza plum prune pulp quince radish raisin ramen
     recipe relish rice roast saffron salad salsa sauce sesame soup spice squash starch stew sugar sushi syrup
     taco toast toffee tomato trifle turnip vanilla waffle yeast yogurt zest";
  mkGroup material
    "agate alloy amber azure basalt brass bronze chalk clay cloth copper coral cork cotton felt flannel flint
     foil garnet gem geode glass gold granite gravel indigo ink ivory jade jasper lace leather linen marble metal
     mica navy ochre onyx opal paper pearl pebble quartz ruby sable sand satin shell silk silver slate steel tin
     topaz velvet vinyl wax white wool yarn";
  mkGroup object
    "anchor quill angle apron arrow atlas awning basket baton beacon bead bell belt bench bike blanket block
     board boat book bottle bowl box broom brush bucket buckle button cable candle canoe canvas card cargo carpet
     chair chart clef clock coat coil comb cone cradle craft crate cube cymbal desk dial diary dish door dot
     drawer dress drum duvet easel fiddle figure film flag flask float folder font form frame fresco fringe game
     gift glove glyph gong grid guitar guide hammer handle harp hexagon hinge hook hoop icon image jar jug kettle
     key kit lamp latch lens letter lid lift locket loom loop magnet mallet map mask mat mirror mitten model
     mosaic mural napkin needle net note number oar oven paddle page paint pair pan panel parade pencil photo
     piano piece pillow pin plank plate pocket poster pot pouch prism puzzle quilt rack radio ribbon ring robe
     rope rug ruler saddle sail saucer scarf score screen script sheet shoe shovel sieve skate sketch sleeve
     slide soap snare spool spoon stamp stitch strap string switch symbol table teapot tent thread tile towel
     tower train tray trunk tube vase vector veil vessel vest viola violin wagon weave wedge wheel whisk wing
     wire word wrap zipper";
  mkGroup music
    "accent chime flute alto anthem aria art ballad ballet band banjo bard bass beat bliss blues bongo bugle
     canto carol chant charm choir chord chorus code color comic corpus dance debut design drama dream duet epic
     essay fable fancy finale fugue gala genre groove hum humor hymn idea jazz jingle lesson lyric magic melody
     motif movie muse music opera pace phrase pitch poem poetry polka prose pulse rhyme rhythm riff rondo rumba
     solo sonata song sonnet stanza story style syntax tale tango tempo tenor theme tone trio tune verse visual
     voice volume waltz";
  mkGroup idea
    "amble balance bounce care choice climb clue cruise curve cycle dash depth draw drift ease flow future glide
     grace heart hike hope hover ideal jog jump laugh leap legacy logic luck march move peace pedal pivot poise
     race ride rise roll shape shift shoot skill smile soar spin spiral spirit step stride stroll sway sweep swim
     swing tap thaw tilt travel trek trust tumble turn twist unity wake walk wander whim whirl wonder zeal zero
     zip zoom"].

Definition english_adjectiveGroups : list lexicalGroup := [
  mkGroup allFamilies
    "blue bright clear cool deep faint fine golden green high light little mellow mild muted pale plain quiet
     round serene silent small smooth soft steady still warm white wide";
  mkGroup (mask [nature; place; material; object; music; idea])
    "amber azure bold calm clean crisp dusky even fresh hidden lunar misty navy noble ochre open pastel pearly
     polar rosy royal rustic sandy sheer sleek snowy solar sunny tidal vivid windy";
  mkGroup (mask [nature; place; plant; food; material; object; music; idea])
    "brisk elegant gentle ivory lively lucid neat rare simple sweet tawny tender tidy velvet";
  mkGroup animal
    "agile brave clever eager glad happy kind nimble swift wise young";
  mkGroup (mask [place; object; music; idea])
    "ample broad cozy firm grand large noble snug";
  mkGroup (mask [nature; place; animal; music])
    "silly wild merry fair"].

Definition english_modifierGroups : list lexicalGroup := [
  mkGroup (mask [nature; place; animal; object; music])
    "agate alloy amber basalt brass bronze chalk clay copper coral cork cotton felt flannel flint glass gold
     granite ivory jade jasper lace leather linen marble metal mica onyx opal paper pearl quartz ruby sable sand
     satin shell silk silver slate steel tin topaz velvet wax wool yarn";
  mkGroup (mask [nature; place; object; music])
    "almond anise apple apricot barley basil berry cacao cherry cider cocoa coffee cumin fig ginger grape guava
     hazel honey jasmine lemon lilac lime lotus mango melon mint olive orange peach pear pepper plum rice rose
     saffron sage sesame sugar thyme vanilla violet walnut";
  mkGroup (mask [place; animal; plant; object; music])
    "autumn breeze cloud dawn dew drizzle earth ember fog frost gale hail haze ice mist moon ocean rain river
     snow spring star storm summer sun sunset thunder vapor water wave winter";
  mkGroup (mask [nature; place; object; music])
    "acorn alder aloe aspen aster bamboo beech birch cedar clover daisy elm fern fir flax iris ivy kelp larch
     laurel leaf lily maple myrtle oak orchid palm peony petal pine poppy reed spruce straw tulip vine willow
     wood yarrow yew"].

Definition english_qualifierPairs : list string :=
  ["quiet little"; "bright little"; "soft golden"; "pale blue"; "deep blue"; "clear blue"; "warm golden"; "soft green"; "quiet green"; "small golden"; "mellow little"; "gentle little"; "cozy little"; "crisp white"; "pale green"; "soft white"; "warm little"; "still blue"; "wild little"].

Definition english_confusableGroups : list string :=
  ["pear pearly"; "sun sunny"; "snow snowy"; "sand sandy"; "rose rosy"; "gold golden"; "mist misty"; "beach beech"; "flour flower"; "rice rise"; "pear pair"; "mist mint"].

Definition english_disallowedPairs : list string :=
  ["silly goose"; "wild goose"].

Definition english_specificAdjectiveHeads : list (string * string) :=
  [("candid", "essay story verse");
   ("witty", "comic essay poem story verse");
   ("brief", "echo note poem tale verse");
   ("early", "dawn spring summer winter");
   ("easy", "flow pace rhythm tune");
   ("ready", "kit")].

Definition english_tripleHeads : string :=
  "arch bay beach bell bloom boat book breeze bridge brook cabin canyon cape castle cave cedar chime choir
   cliff cloud coast comet corpus cove crane creek dawn delta dove dream drum dune earth echo elm ember fern
   field finch fjord flute forest fox garden glade glen globe grove gull harbor haven heron hill hollow island
   isle lake lark leaf lily lotus maple meadow moon mountain nest oak ocean orbit owl palm path peak pine poem
   pond pool quill rain raven reef ridge river robin rose shore song spring star stone stream summit sun swan
   tale trail tulip vale valley verse vine vista wave willow wood wren".

Definition english_tripleAdjectives : string :=
  "amber azure blue bright calm clear cool cozy crisp deep dusky faint fresh gentle golden green hidden ivory
   light little lively lucid lunar mellow mild misty muted navy ochre pale pastel pearly plain polar quiet rosy
   round royal sandy serene silent silver sleek small smooth snowy soft solar still sunny sweet tawny tender
   tidal velvet vivid warm white windy".

(** ** The palettes of composed.go *)

Definition english_composedPalettes : list phrasePalette := [
  mkPalette
    "quiet soft bright calm blue green warm gentle lunar amber rice lemon velvet silver cedar maple willow pine
     oak birch aspen fir elm acorn"
    "arch bay bell bloom boat book breeze bridge brook cabin canyon cape castle cave chime choir cliff cloud
     coast comet corpus cove crane creek dawn delta dove dream drum dune earth echo ember fern field finch fjord
     flute forest fox garden glade glen globe grove gull harbor haven heron hill hollow island isle lake lark
     leaf lily lotus meadow moon mountain nest ocean orbit owl palm path peak poem pond pool quill rain raven
     reef ridge river robin rose shore song spring star stone stream summit swan tale trail tulip vale valley
     verse vine vista wave wood wren";
  mkPalette
    "clear cool deep faint light little mellow mild muted pale plain round serene silent small smooth steady
     still wide golden coral shell silk linen"
    "alley arcade avenue barn basin bath bayou bend bluff camp cavern chalet chapel city corner court deck dell
     depot dock dome edge estate farm fence ferry floor fort forum foyer garage gate hall hamlet hangar heath
     hedge hotel house inlet jetty knoll lagoon lane ledge loch lodge loft market marsh mesa mill moor mound
     museum oasis office palace park pass patio pier plaza porch port ranch range ravine rink road roof room
     route school seat shelf shop stage store street studio town tunnel vault view villa village wharf window
     yard zoo";
  mkPalette
    "fresh crisp dusky even hidden navy noble ochre open pastel polar royal rustic sandy sheer sleek snowy solar
     sunny tidal vivid windy azure ivory"
    "anchor angle apron arrow atlas awning basket baton beacon bead belt bench bike blanket block board bottle
     bowl box broom brush bucket buckle button cable candle canoe canvas card cargo carpet chair chart clef clock
     coat coil comb cone cradle craft crate cube cymbal desk dial diary dish door dot drawer dress duvet easel
     figure film flag flask float folder font form frame fresco fringe game gift glove glyph gong grid guitar
     guide hammer handle";
  mkPalette
    "elegant lively lucid neat rare simple sweet tawny tender tidy ample broad cozy firm grand large snug agate
     alloy basalt brass bronze chalk clay"
    "accent alto anthem aria art ballad ballet band banjo bard bass beat bliss blues bongo bugle canto carol
     chant charm chord chorus code color comic dance debut design drama duet epic essay fable fancy finale fugue
     gala genre groove hum humor hymn idea jazz jingle lesson lyric magic melody motif movie muse music opera
     pace phrase pitch poetry polka prose";
  mkPalette
    "copper cork cotton felt flannel flint glass granite jade jasper lace leather marble metal mica onyx opal
     paper pearl quartz ruby sable satin slate"
    "badger beaver bison bobcat bunny camel cat chick cobra cougar cricket crow deer dog donkey duck eagle egret
     elk emu falcon fawn ferret fish frog gecko goat goose hare hawk horse hound jaguar junco kiwi koala lamb
     lemur lion llama lynx macaw magpie mink mole moose moth mouse newt orca osprey otter panda parrot penguin
     pet pigeon pony puma quail rabbit rhino salmon seal sheep sloth snail stork tern tiger toad trout turtle
     whale wolf zebra";
  mkPalette
    "steel tin topaz wax wool yarn almond anise apple apricot barley basil berry cacao cherry cider cocoa coffee
     cumin fig ginger grape guava hazel"
    "harp hexagon hinge hook hoop icon image jar jug kettle key kit lamp latch lens letter lid lift locket loom
     loop magnet mallet map mask mat mirror mitten model mosaic mural napkin needle net note number oar oven
     paddle page paint pan panel parade pencil photo piano piece pillow pin plank plate pocket poster pot pouch
     prism puzzle quilt rack radio ribbon ring robe rope rug ruler saddle sail saucer";
  mkPalette
    "honey lime mango melon olive orange peach pear pepper plum saffron sesame sugar vanilla autumn dew drizzle
     fog frost gale hail haze ice mist"
    "scarf score screen script sheet shoe shovel sieve skate sketch sleeve slide soap snare spool spoon stamp
     stitch strap string switch symbol table teapot tent thread tile towel tower train tray trunk tube vase
     vector veil vessel vest viola violin wagon weave wedge wheel whisk wing wire word wrap zipper pulse rhyme
     rhythm riff rondo rumba solo sonata sonnet stanza story style syntax tango tempo tenor theme tone trio tune
     visual voice volume waltz"].

Definition english : lexicon :=
  mkLexicon english_words english_nounGroups english_adjectiveGroups english_modifierGroups english_qualifierPairs
    english_confusableGroups english_disallowedPairs english_specificAdjectiveHeads english_tripleHeads
    english_tripleAdjectives english_composedPalettes.

(** ** legacy.go *)

Definition legacyModifierRoots : list string := Fields
  "amber ancient autumn bright calm clear cool crystal dawn deep evening gentle golden green happy hidden kind
   light little lively lucky lunar misty morning mossy noble open peaceful quiet radiant rapid rare rising
   round royal silver small soft solar spring still summer sunny swift tender tranquil true velvet warm wild
   winter wise young brisk cloudy coral glowing graceful lucid natural serene vivid wandering zen".

Definition legacyModifierTails : list string := Fields
  "aura bloom breath cadence charm chorus dream ember gleam glow grace hush light lore melody mist murmur pulse
   quiet radiance rhythm shimmer song spark spirit touch verse whisper wonder warmth wisp zen".

Definition legacySubjectRoots : list string := Fields
  "amber apple autumn bamboo blue bright cedar cloud coral crystal dawn deep dove dream ember evening fern
   forest gentle golden green harbor hidden jade kind lake lantern light little lotus lucky lunar maple meadow
   misty moon moss morning ocean orchard pearl quiet rain river sage silver sky soft solar spring star stone
   summer sun tender tranquil valley velvet violet warm wild willow winter zen".

Definition legacySubjectTails : list string := Fields
  "badger beacon birch crane dahlia dove eagle finch fox heron lark lotus maple otter owl pine reed robin
   sparrow swan wren clover fern orchid willow lantern comet moon pebble shell star tide".

Definition legacyPlaceRoots : list string := Fields
  "amber ancient apple autumn bamboo bright cedar cloud coral crystal dawn deep dream ember evening fern forest
   gentle golden green harbor hidden jade kind lake lantern light little lotus lucky lunar maple meadow mist
   moon morning moss ocean orchard pearl quiet rain river sage silver sky soft solar spring star stone summer
   sun tranquil valley velvet violet warm wild willow winter wise young zen".

Definition legacyPlaceTails : list string := Fields
  "arch bay bridge cape cave circle coast cove dell falls gate glade glen haven hollow isle lagoon lane mesa
   nest pass path peak pond prairie ridge road shore stream summit vale vista".

End Lexicon.
