(* ===== verification/WordSet.v ===== *)
(** The word bitset of access/names/phrases.go ([wordSet]), the [math/bits] and
    [sort] functions it is used with, and their reference meanings: a set is the
    increasing list of its members, [count] its length, [at] its indexing. *)

From S2P Require Export Prelude.

Module WordSet.

(** ** math/bits and sort *)

(** The positions of the ones of a 64-bit word, in increasing order. *)
Definition ones (w : Z) : list nat := filter (λ i, Z.testbit w (Z.of_nat i)) (seq 0 64).

Definition OnesCount64 (w : Z) : Z := len (ones w).
Definition TrailingZeros64 (w : Z) : Z := Z.of_nat (default 64%nat (head (ones w))).

(** [sort.Search]'s loop over the interval [i, j); every round halves it. *)
Fixpoint search_loop (fuel : nat) (f : nat → bool) (i j : nat) : nat :=
  match fuel with
  | O => i
  | S fuel' =>
    if (i <? j)%nat
    then let h := ((i + j) / 2)%nat in
         if negb (f h) then search_loop fuel' f (h + 1) j else search_loop fuel' f i h
    else i
  end.
Definition Search (n : nat) (f : nat → bool) : nat := search_loop (S n) f 0 n.

(** ** wordSet *)

Definition bitsetWords : nat := (1023 + 63) / 64.

(** [[bitsetWords]uint64] *)
Abbreviation wordSet := (list Z).
Definition no_words : wordSet := replicate bitsetWords 0.

Definition add (i : nat) (s : wordSet) : wordSet :=
  alter (λ w, Z.lor w (Z.shiftl 1 (Z.of_nat (i mod 64)))) (i / 64)%nat s.

Definition word_at (s : wordSet) (slot : nat) : Z := nth slot s 0.

Definition has (s : wordSet) (i : nat) : bool :=
  negb (Z.land (word_at s (i / 64)) (Z.shiftl 1 (Z.of_nat (i mod 64))) =? 0).

Definition count (s : wordSet) : Z := foldl (λ n w, u64 (n + OnesCount64 w)) 0 s.

(** [for rank > 0 { w &= w - 1; rank-- }] *)
Fixpoint clear_lowest (rank : nat) (w : Z) : Z :=
  match rank with
  | O => w
  | S rank' => clear_lowest rank' (Z.land w (u64 (w - 1)))
  end.

Fixpoint at_from (slot : Z) (s : wordSet) (rank : Z) : Z :=
  match s with
  | [] => -1
  | w :: s' =>
    let n := OnesCount64 w in
    if rank >=? n then at_from (slot + 1) s' (u64 (rank - n))
    else slot * 64 + TrailingZeros64 (clear_lowest (Z.to_nat rank) w)
  end.
(** [at] *)
Definition set_at (s : wordSet) (rank : Z) : Z := at_from 0 s rank.

(** Word-wise combination of two arrays. *)
Definition pointwise (f : Z → Z → Z) (s t : wordSet) : wordSet :=
  (λ i, f (word_at s i) (word_at t i)) <$> seq 0 bitsetWords.
Definition set_or : wordSet → wordSet → wordSet := pointwise Z.lor.
Definition set_and : wordSet → wordSet → wordSet := pointwise Z.land.

(** ** Reference meaning *)

Definition wf (s : wordSet) : Prop := length s = bitsetWords ∧ Forall is_u64 s.

Fixpoint members_from (slot : nat) (s : wordSet) : list nat :=
  match s with
  | [] => []
  | w :: s' => ((λ i, slot * 64 + i)%nat <$> ones w) ++ members_from (S slot) s'
  end.
Definition members (s : wordSet) : list nat := members_from 0 s.

(** *** [sort.Search] *)

Lemma search_loop_spec f n fuel i j :
  (∀ a b, (a <= b < n)%nat → f a = true → f b = true) →
  (i <= j <= n)%nat → (j - i < fuel)%nat →
  (∀ k, (k < i)%nat → f k = false) → (∀ k, (j <= k < n)%nat → f k = true) →
  (search_loop fuel f i j <= n)%nat ∧
  (∀ k, (k < search_loop fuel f i j)%nat → f k = false) ∧
  (∀ k, (search_loop fuel f i j <= k < n)%nat → f k = true).
Proof.
  intros Hmono. revert i j. induction fuel as [|fuel IH]; intros i j Hij Hfuel Hlo Hhi; [lia|].
  cbn [search_loop]. destruct (Nat.ltb_spec i j) as [Hlt|Hge].
  - set (h := ((i + j) / 2)%nat).
    assert (Hh : (i <= h < j)%nat).
    { subst h. split; [apply Nat.div_le_lower_bound; lia|apply Nat.Div0.div_lt_upper_bound; lia]. }
    destruct (f h) eqn:Hf; cbn [negb].
    + apply IH; [lia|lia|done|]. intros k Hk. apply (Hmono h k); [lia|done].
    + apply IH; [lia|lia| |].
      * intros k Hk. destruct (f k) eqn:Hfk; [|done]. rewrite <- Hf. symmetry. apply (Hmono k h); [lia|done].
      * intros k Hk. apply Hhi. lia.
  - split_and!; [lia|done|]. intros k Hk. apply Hhi. lia.
Qed.

(** [Search] returns the least index at which a monotone predicate holds. *)
Lemma Search_spec n f :
  (∀ a b, (a <= b < n)%nat → f a = true → f b = true) →
  (Search n f <= n)%nat ∧ (∀ k, (k < Search n f)%nat → f k = false) ∧
  (∀ k, (Search n f <= k < n)%nat → f k = true).
Proof. intros Hmono. apply search_loop_spec; [done|lia|lia|intros; lia|intros; lia]. Qed.

(** *** Words *)

Lemma elem_of_ones w i : i ∈ ones w ↔ (i < 64)%nat ∧ Z.testbit w (Z.of_nat i) = true.
Proof. unfold ones. rewrite list_elem_of_filter, elem_of_seq, Is_true_true. naive_solver lia. Qed.

Lemma ones_bound w : (length (ones w) <= 64)%nat.
Proof. unfold ones. etransitivity; [apply length_filter|]. by rewrite length_seq. Qed.

Lemma testbit_u64 w i : is_u64 w → 64 <= i → Z.testbit w i = false.
Proof.
  intros Hw Hi. destruct (Z.eq_dec w 0) as [->|]; [apply Z.bits_0|]. apply Z.bits_above_log2; [ilia|].
  assert (Z.log2 w < 64); [|lia]. apply Z.log2_lt_pow2; ilia.
Qed.

Lemma ones_nil w : is_u64 w → ones w = [] → w = 0.
Proof.
  intros Hw H0. apply Z.bits_inj. intros i. rewrite Z.bits_0.
  destruct (Z.ltb_spec i 0) as [Hn|Hn]; [by apply Z.testbit_neg_r|].
  destruct (Z.ltb_spec i 64) as [Hi|Hi]; [|by apply testbit_u64].
  destruct (Z.testbit w i) eqn:E; [|done]. exfalso.
  assert (Hin : Z.to_nat i ∈ ones w). { rewrite elem_of_ones, Z2Nat.id by lia. split; [lia|done]. }
  rewrite H0 in Hin. by apply not_elem_of_nil in Hin.
Qed.

Lemma filter_none {A} (P : A → Prop) `{∀ x, Decision (P x)} (l : list A) : Forall (λ x, ¬ P x) l → filter P l = [].
Proof. induction 1 as [|x l Hx Hl IH]; [done|]. by rewrite filter_cons_False. Qed.

(** The first member of a filtered interval: nothing below it passes. *)
Lemma filter_seq_head (P : nat → Prop) `{∀ x, Decision (P x)} a n i l :
  filter P (seq a n) = i :: l →
  (a <= i < a + n)%nat ∧ P i ∧ (∀ k, (a <= k < i)%nat → ¬ P k) ∧ l = filter P (seq (S i) (a + n - S i)).
Proof.
  revert a. induction n as [|n IH]; intros a; [done|]. cbn [seq]. rewrite filter_cons. destruct (decide (P a)) as [Ha|Ha].
  - intros [= -> <-]. split_and!; [lia|lia|done|lia|]. f_equal. f_equal. lia.
  - intros (Hi & HP & Hlo & ->)%IH. split_and!; [lia|lia|done| |].
    + intros k Hk. destruct (Nat.eq_dec k a) as [->|]; [done|]. apply Hlo. lia.
    + f_equal. f_equal. lia.
Qed.

(** [w & (w - 1)] clears exactly the lowest one. *)
Lemma testbit_clear w t i :
  0 <= t → Z.testbit w t = true → (∀ k, 0 <= k < t → Z.testbit w k = false) → 0 <= i →
  Z.testbit (Z.land w (w - 1)) i = Z.testbit w i && negb (i =? t).
Proof.
  intros Ht Hone Hlow Hi. rewrite Z.land_spec.
  assert (Hmod : w mod 2 ^ t = 0).
  { apply Z.bits_inj. intros k. rewrite Z.bits_0. destruct (Z.ltb_spec k 0); [by apply Z.testbit_neg_r|].
    destruct (Z.ltb_spec k t); [rewrite Z.mod_pow2_bits_low by lia; apply Hlow; lia|]. apply Z.mod_pow2_bits_high. lia. }
  assert (Hsplit : w = 2 ^ t * (2 * (w / 2 ^ (t + 1)) + 1)).
  { rewrite (Z.div_mod w (2 ^ t)) at 1 by lia. rewrite Hmod, Z.add_0_r. f_equal.
    rewrite (Z.div_mod (w / 2 ^ t) 2) at 1 by lia. rewrite Z.div_div by lia. rewrite Z.pow_add_r by lia.
    change (2 ^ 1) with 2. f_equal. by rewrite Z.testbit_true in Hone by lia. }
  set (q := w / 2 ^ (t + 1)) in *.
  destruct (Z.ltb_spec i t) as [Hit|Hit].
  { rewrite Hlow by lia. done. }
  assert (Hpt : 0 < 2 ^ t) by lia.
  destruct (Z.eqb_spec i t) as [->|Hne]; cbn [negb]; rewrite ?andb_false_r, ?andb_true_r.
  - rewrite Hone. cbn [andb]. apply Z.testbit_false; [lia|].
    replace ((w - 1) / 2 ^ t) with (2 * q); [rewrite Z.mul_comm; apply Z.mod_mul; lia|].
    apply Z.div_unique with (r := 2 ^ t - 1); [lia|]. rewrite Hsplit at 1. nia.
  - assert (Z.testbit (w - 1) i = Z.testbit w i) as ->; [|by destruct (Z.testbit w i)].
    rewrite !Z.testbit_eqb by lia. f_equal. f_equal.
    assert (Hp : 2 ^ i = 2 ^ (t + 1) * 2 ^ (i - (t + 1))) by (rewrite <- Z.pow_add_r by lia; f_equal; lia).
    rewrite Hp, <- !Z.div_div by lia. f_equal. fold q.
    symmetry. apply Z.div_unique with (r := 2 ^ t - 1).
    + left. rewrite Z.pow_add_r by lia. lia.
    + rewrite Hsplit at 1. rewrite Z.pow_add_r by lia. change (2 ^ 1) with 2. ring.
Qed.

(** A non-negative integer without ones from position 64 on is a [uint64]. *)
Lemma u64_of_bits w : 0 <= w → (∀ i, 64 <= i → Z.testbit w i = false) → is_u64 w.
Proof.
  intros Hw Hbits. assert (w = w mod 2 ^ 64) as ->; [|ilia].
  apply Z.bits_inj'. intros i Hi. destruct (Z.ltb_spec i 64).
  - by rewrite Z.mod_pow2_bits_low by lia.
  - rewrite Z.mod_pow2_bits_high by lia. by apply Hbits.
Qed.

Lemma land_u64 a b : is_u64 a → is_u64 b → is_u64 (Z.land a b).
Proof.
  intros Ha Hb. apply u64_of_bits; [apply Z.land_nonneg; ilia|]. intros i Hi. by rewrite Z.land_spec, testbit_u64.
Qed.

Lemma lor_u64 a b : is_u64 a → is_u64 b → is_u64 (Z.lor a b).
Proof.
  intros Ha Hb. apply u64_of_bits; [apply Z.lor_nonneg; ilia|]. intros i Hi. by rewrite Z.lor_spec, !testbit_u64.
Qed.

Lemma shiftl_1 i k : 0 <= i → 0 <= k → Z.testbit (Z.shiftl 1 i) k = (k =? i).
Proof.
  intros Hi Hk. rewrite Z.shiftl_1_l. destruct (Z.eqb_spec k i) as [->|Hne].
  - by apply Z.pow2_bits_true.
  - by apply Z.pow2_bits_false.
Qed.

Lemma bit_u64 i : (i < 64)%nat → is_u64 (Z.shiftl 1 (Z.of_nat i)).
Proof.
  intros Hi. apply u64_of_bits; [apply Z.shiftl_nonneg; lia|]. intros k Hk. rewrite shiftl_1 by lia.
  apply Z.eqb_neq. lia.
Qed.

Lemma ones_clear w t l : is_u64 w → ones w = t :: l → ones (Z.land w (u64 (w - 1))) = l ∧ is_u64 (Z.land w (u64 (w - 1))).
Proof.
  intros Hw Ho. unfold ones in Ho. apply filter_seq_head in Ho as (Ht & Hone & Hlow & ->).
  rewrite Is_true_true in Hone. assert (Hne : w ≠ 0) by (intros ->; by rewrite Z.bits_0 in Hone).
  rewrite u64_small by ilia. split; [|apply land_u64; ilia].
  assert (Hbit : ∀ k, (k < 64)%nat →
    Z.testbit (Z.land w (w - 1)) (Z.of_nat k) = Z.testbit w (Z.of_nat k) && negb (k =? t)%nat).
  { intros k Hk. rewrite (testbit_clear w (Z.of_nat t)); [|lia|done| |lia].
    - f_equal. f_equal. destruct (Nat.eqb_spec k t); [subst; apply Z.eqb_refl|apply Z.eqb_neq; lia].
    - intros j Hj. specialize (Hlow (Z.to_nat j) ltac:(lia)). rewrite Z2Nat.id in Hlow by lia.
      destruct (Z.testbit w j); [by destruct Hlow|done]. }
  unfold ones. replace (seq 0 64) with (seq 0 t ++ [t] ++ seq (S t) (0 + 64 - S t)).
  2:{ replace 64%nat with (t + (1 + (64 - S t)))%nat at 2 by lia. rewrite !seq_app. cbn [seq app].
      do 3 f_equal; lia. }
  rewrite !filter_app. rewrite (filter_none _ (seq 0 t)), (filter_none _ [t]); cbn [app].
  - apply filter_ext_in. intros k Hk%elem_of_seq. rewrite Hbit by lia.
    rewrite (proj2 (Nat.eqb_neq k t)) by lia. cbn [negb]. by rewrite andb_true_r.
  - apply Forall_singleton. rewrite Hbit by lia. rewrite Nat.eqb_refl. cbn [negb]. rewrite andb_false_r. by intros [].
  - apply Forall_seq. intros k Hk. rewrite Hbit by lia. intros Hb%Is_true_true. apply andb_true_iff in Hb as [Hb _].
    apply (Hlow k); [lia|by rewrite Is_true_true].
Qed.

Lemma clear_lowest_spec rank w : is_u64 w → (rank < length (ones w))%nat →
  ones (clear_lowest rank w) = drop rank (ones w).
Proof.
  revert w. induction rank as [|rank IH]; intros w Hw Hr; cbn [clear_lowest]; [done|].
  destruct (ones w) as [|t l] eqn:Ho; cbn in Hr; [lia|].
  destruct (ones_clear w t l Hw Ho) as [Hl Hu]. rewrite IH by (done || rewrite Hl; lia). by rewrite Hl.
Qed.

(** *** Sets *)

Lemma wf_no_words : wf no_words.
Proof. split; [done|]. apply Forall_replicate. ilia. Qed.

Lemma wf_add i s : wf s → wf (add i s).
Proof.
  intros [Hl Hs]. split; [unfold add; by rewrite length_alter|]. apply Forall_alter; [done|].
  intros w Hw Hu. apply lor_u64; [done|]. apply bit_u64, Nat.mod_upper_bound. lia.
Qed.

Lemma wf_word s i : wf s → is_u64 (word_at s i).
Proof.
  intros [_ Hs]. unfold word_at. destruct (nth_in_or_default i s 0) as [Hin| ->]; [|ilia].
  apply list_elem_of_In in Hin. by eapply Forall_forall in Hs.
Qed.

Lemma wf_pointwise f s t :
  (∀ a b, is_u64 a → is_u64 b → is_u64 (f a b)) → wf s → wf t → wf (pointwise f s t).
Proof.
  intros Hf Hs Ht. split; [unfold pointwise; by rewrite length_fmap, length_seq|].
  apply Forall_fmap, Forall_forall. intros i _. cbn. apply Hf; by apply wf_word.
Qed.

Lemma wf_or s t : wf s → wf t → wf (set_or s t).
Proof. apply wf_pointwise, lor_u64. Qed.
Lemma wf_and s t : wf s → wf t → wf (set_and s t).
Proof. apply wf_pointwise, land_u64. Qed.

#[export] Hint Resolve wf_no_words wf_add wf_or wf_and : relay.

Lemma has_testbit s i : has s i = Z.testbit (word_at s (i / 64)) (Z.of_nat (i mod 64)).
Proof.
  unfold has. set (w := word_at s (i / 64)). set (k := (i mod 64)%nat).
  assert (Hbits : ∀ j, 0 <= j → Z.testbit (Z.land w (Z.shiftl 1 (Z.of_nat k))) j =
    Z.testbit w (Z.of_nat k) && (j =? Z.of_nat k)).
  { intros j Hj. rewrite Z.land_spec, shiftl_1 by lia. destruct (Z.eqb_spec j (Z.of_nat k)); [by subst|].
    by rewrite !andb_false_r. }
  destruct (Z.eqb_spec (Z.land w (Z.shiftl 1 (Z.of_nat k))) 0) as [E|E]; cbn [negb].
  - specialize (Hbits (Z.of_nat k) ltac:(lia)). rewrite E, Z.bits_0, Z.eqb_refl, andb_true_r in Hbits. done.
  - destruct (Z.testbit w (Z.of_nat k)) eqn:Hw; [done|]. exfalso. apply E, Z.bits_inj'. intros j Hj.
    by rewrite Hbits, Z.bits_0.
Qed.

Lemma has_none i : has no_words i = false.
Proof.
  rewrite has_testbit. unfold word_at, no_words.
  assert (nth (i / 64)%nat (replicate bitsetWords 0) 0 = 0) as ->; [|apply Z.bits_0].
  destruct (nth_in_or_default (i / 64)%nat (replicate bitsetWords 0) 0) as [Hin| ->]; [|done].
  apply list_elem_of_In, elem_of_replicate in Hin. by destruct Hin.
Qed.

Lemma word_at_pointwise f s t i : (i < bitsetWords)%nat → word_at (pointwise f s t) i = f (word_at s i) (word_at t i).
Proof.
  intros Hi. unfold word_at at 1, pointwise. apply nth_lookup_Some. rewrite list_lookup_fmap, lookup_seq_lt by done. done.
Qed.

Lemma slot_lt i : (i < 1024)%nat → (i / 64 < bitsetWords)%nat.
Proof. intros Hi. apply Nat.Div0.div_lt_upper_bound. cbn. lia. Qed.

Lemma has_or s t i : (i < 1024)%nat → has (set_or s t) i = has s i || has t i.
Proof. intros Hi. rewrite !has_testbit. unfold set_or. by rewrite word_at_pointwise, Z.lor_spec by by apply slot_lt. Qed.
Lemma has_and s t i : (i < 1024)%nat → has (set_and s t) i = has s i && has t i.
Proof. intros Hi. rewrite !has_testbit. unfold set_and. by rewrite word_at_pointwise, Z.land_spec by by apply slot_lt. Qed.

Lemma has_add s i j : wf s → (i < 1024)%nat → has (add i s) j = (j =? i)%nat || has s j.
Proof.
  intros [Hl _] Hi. rewrite !has_testbit. unfold add, word_at.
  destruct (Nat.eq_dec (j / 64)%nat (i / 64)%nat) as [E|E].
  - rewrite E. destruct (lookup_lt_is_Some_2 s (i / 64)%nat) as [w Hw]; [rewrite Hl; by apply slot_lt|].
    rewrite (nth_lookup_Some _ _ _ w Hw). erewrite nth_lookup_Some by (by rewrite list_lookup_alter_eq, Hw).
    rewrite Z.lor_spec, shiftl_1 by lia. rewrite orb_comm. f_equal.
    destruct (Nat.eqb_spec j i) as [->|Hne]; [apply Z.eqb_refl|]. apply Z.eqb_neq.
    pose proof (Nat.div_mod_eq j 64). pose proof (Nat.div_mod_eq i 64). lia.
  - rewrite !nth_lookup, list_lookup_alter_ne by done.
    assert (j ≠ i) as Hne%Nat.eqb_neq by congruence. by rewrite Hne.
Qed.

(** *** Members *)

Lemma elem_of_members_from slot s i :
  i ∈ members_from slot s ↔ (slot * 64 <= i)%nat ∧ Z.testbit (word_at s (i / 64 - slot)) (Z.of_nat (i mod 64)) = true.
Proof.
  revert slot. induction s as [|w s IH]; intros slot; cbn [members_from].
  { rewrite elem_of_nil. unfold word_at. destruct (i / 64 - slot)%nat; cbn; rewrite Z.bits_0; naive_solver. }
  rewrite elem_of_app, list_elem_of_fmap, IH. setoid_rewrite elem_of_ones.
  pose proof (Nat.div_mod_eq i 64). pose proof (Nat.mod_upper_bound i 64 ltac:(lia)).
  split.
  - intros [(k & -> & Hk & Hb)|(Hle & Hb)].
    + assert ((slot * 64 + k) / 64 = slot)%nat as ->.
      { symmetry. apply Nat.div_unique with (r := k); lia. }
      assert ((slot * 64 + k) mod 64 = k)%nat as ->.
      { symmetry. apply Nat.mod_unique with (q := slot); lia. }
      rewrite Nat.sub_diag. cbn. split; [lia|done].
    + split; [lia|]. destruct (i / 64 - slot)%nat as [|k] eqn:E; [lia|].
      replace (i / 64 - S slot)%nat with k in Hb by lia. done.
  - intros [Hle Hb]. destruct (i / 64 - slot)%nat as [|k] eqn:E.
    + left. exists (i mod 64)%nat. split; [lia|]. split; [lia|done].
    + right. split; [lia|]. by replace (i / 64 - S slot)%nat with k by lia.
Qed.

Lemma elem_of_members s i : i ∈ members s ↔ has s i = true.
Proof. unfold members. rewrite elem_of_members_from, has_testbit, Nat.sub_0_r. naive_solver lia. Qed.

Lemma members_lt s i : wf s → i ∈ members s → (i < 1024)%nat.
Proof.
  intros [Hl _] Hi%elem_of_members. rewrite has_testbit in Hi. unfold word_at in Hi.
  destruct (Nat.ltb_spec i 1024) as [|Hge]; [done|]. rewrite nth_overflow, Z.bits_0 in Hi; [done|].
  rewrite Hl. apply Nat.div_le_lower_bound; [lia|]. cbn. lia.
Qed.

Lemma NoDup_members s : NoDup (members s).
Proof.
  unfold members. generalize 0%nat. induction s as [|w s IH]; intros slot; cbn [members_from]; [constructor|].
  apply NoDup_app. split_and!.
  - apply NoDup_fmap; [intros a b Hab; lia|]. apply NoDup_filter, NoDup_seq.
  - intros i (k & -> & Hk)%list_elem_of_fmap Hin. apply elem_of_ones in Hk as [Hk _].
    apply elem_of_members_from in Hin as [Hle _]. lia.
  - apply IH.
Qed.

(** [count] is the number of members. *)
Lemma count_members s : wf s → count s = len (members s).
Proof.
  intros [Hl Hs]. unfold count, members.
  assert (Hgen : ∀ n slot, 0 <= n → n + 64 * len s < 2 ^ 64 →
    foldl (λ n w, u64 (n + OnesCount64 w)) n s = n + len (members_from slot s)).
  { clear Hl Hs. induction s as [|w s IH]; intros n slot Hn Hb; cbn [foldl members_from]; [unfold len; cbn; lia|].
    assert (Hc : len (w :: s) = 1 + len s) by (unfold len; cbn; lia). rewrite Hc in Hb.
    pose proof (len_nonneg s). pose proof (ones_bound w).
    assert (Ho : 0 <= OnesCount64 w <= 64) by (unfold OnesCount64, len; lia).
    rewrite u64_small by ilia. rewrite (IH _ (S slot)) by lia. rewrite len_app. unfold OnesCount64, len.
    rewrite length_fmap. lia. }
  rewrite (Hgen 0 0%nat); [lia|lia|]. unfold len. rewrite Hl. cbn. lia.
Qed.

(** [at] returns the members in increasing order, by rank. *)
Lemma set_at_members s rank i : wf s → is_u64 rank → members s !! Z.to_nat rank = Some i → set_at s rank = Z.of_nat i.
Proof.
  intros [_ Hs] Hr. unfold set_at, members. change 0 with (Z.of_nat 0) at 1. generalize 0%nat.
  revert rank Hr. induction Hs as [|w s Hw Hs IH]; intros rank Hr slot; cbn [members_from at_from]; [done|].
  pose proof (ones_bound w). intros Hi. unfold OnesCount64.
  destruct (Z.geb_spec rank (len (ones w))) as [Hge|Hlt]; unfold len in *.
  - rewrite lookup_app_r, length_fmap in Hi by (rewrite length_fmap; lia).
    replace (Z.of_nat slot + 1) with (Z.of_nat (S slot)) by lia.
    rewrite u64_small by ilia. apply IH; [ilia|]. by rewrite Z2Nat.inj_sub, Nat2Z.id by lia.
  - rewrite lookup_app_l in Hi by (rewrite length_fmap; ilia).
    rewrite list_lookup_fmap in Hi. destruct (ones w !! Z.to_nat rank) as [k|] eqn:Hk; [|done]. injection Hi as <-.
    unfold TrailingZeros64. rewrite clear_lowest_spec by (done || ilia).
    rewrite (drop_S _ k) by done. cbn. lia.
Qed.
End WordSet.
