(* ===== verification/Names.v ===== *)
(** Readable names: the phrase grammar of access/names/phrases.go, the composed
    names of composed.go and the entry points of names.go, over the tables of
    [Lexicon].  A name is an index into an enumeration and back: indexing and
    parsing are inverse, and two indices never give the same name. *)

From S2P Require Export Lexicon WordSet.

Module Names.
Export Lexicon WordSet.

Definition GrammarName : string := "natural-phrases-1".
Definition previousGrammarName : string := "natural-words-1".
Definition legacyGrammarName : string := "en-scene-v1".
Definition ComposedGrammarName : string := "composed-phrases-1".
Definition MaxPhraseBytes : nat := 24.
Definition MinWordCount : Z := 2.
Definition MaxWordCount : Z := 15.
Definition MaxNameBytes : Z := MaxWordCount * 8 + MaxWordCount - 1.

Inductive name_error := ErrWordCount | ErrCapacityOverflow | ErrName | ErrIndex | ErrRandomSource | ErrRead.

Record Name := mkName { nText : string; nGrammar : string; nWordCount : Z }.

Record lexicalRole := mkRole { noun : Z; adjective : Z; modifier : Z }.
Definition add_noun (f : Z) (r : lexicalRole) : lexicalRole := mkRole (Z.lor (noun r) f) (adjective r) (modifier r).
Definition add_adjective (f : Z) (r : lexicalRole) : lexicalRole := mkRole (noun r) (Z.lor (adjective r) f) (modifier r).
Definition add_modifier (f : Z) (r : lexicalRole) : lexicalRole := mkRole (noun r) (adjective r) (Z.lor (modifier r) f).
Record phraseBlock := mkBlock { first : nat; second : nat; block_heads : wordSet; block_end : Z }.
Record phraseGrammar := mkGrammar {
  roles : list lexicalRole;
  compatible : list wordSet;
  adjectiveHeads : list wordSet;
  modifierHeads : list wordSet;
  qualifiers : gset (nat * nat);
  tripleHeadSet : wordSet;
  tripleAdjectiveSet : wordSet;
  pairs : list phraseBlock;
  triples : list phraseBlock;
  lengthMasks : list wordSet }.

Section Names.
Context (L : lexicon).

(** ** The vocabulary *)

(** A later occurrence of a word would win. *)
Definition wordIndex : gmap string nat :=
  foldl (λ m '(i, w), <[w := i]> m) ∅ (imap pair (words L)).

(** [wordIndex[w]]: the zero value for a word that is not there. *)
Definition index_of (idx : gmap string nat) (w : string) : nat := default O (idx !! w).
Definition word (i : nat) : string := nth i (words L) "".
Definition size : nat := length (words L).

(** ** buildPhraseGrammar *)

Section Build.
Context (idx : gmap string nat).

Definition assign (set : Z → lexicalRole → lexicalRole) (groups : list lexicalGroup) (rs : list lexicalRole)
  : list lexicalRole :=
  foldl (λ rs g, foldl (λ rs w, alter (set (family g)) (index_of idx w) rs) rs (Fields (group_words g))) rs groups.

Definition initial_roles : list lexicalRole :=
  let rs := replicate size (mkRole 0 0 0) in
  let rs := assign add_noun (nounGroups L) rs in
  let rs := assign add_adjective (adjectiveGroups L) rs in
  assign add_modifier (modifierGroups L) rs.

Definition role (rs : list lexicalRole) (i : nat) : lexicalRole := nth i rs (mkRole 0 0 0).

(** The pair of a two-word entry. *)
Definition entry_pair (entry : string) : nat * nat :=
  (index_of idx (nth 0 (Fields entry) ""), index_of idx (nth 1 (Fields entry) "")).

Definition confusable_pairs (group : string) : list (nat * nat) :=
  let l := index_of idx <$> Fields group in a ← l; b ← l; [(a, b)].

(** The keys of the map [blocked]. *)
Definition blocked : list (nat * nat) :=
  (confusableGroups L ≫= confusable_pairs) ++
  (disallowedPairs L ≫= λ e, let '(a, b) := entry_pair e in [(a, b); (b, a)]).

Definition row (p : nat → bool) : wordSet :=
  foldl (λ s b, if p b then add b s else s) no_words (seq 0 size).

(** The [continue] of the pair loop, for the row of [a]. *)
Definition skips (bl : list (nat * nat)) (a : nat) : nat → bool :=
  let partners := omap (λ p, if (p.1 =? a)%nat then Some p.2 else None) bl in
  λ b, (a =? b)%nat || existsb (Nat.eqb b) partners.

Definition add_all (text : string) (s : wordSet) : wordSet :=
  foldl (λ s w, add (index_of idx w) s) s (Fields text).

(** One entry of [specificAdjectiveHeads]. *)
Definition specific_role (rs : list lexicalRole) (e : string * string) : list lexicalRole :=
  alter (λ r, mkRole (noun r) allFamilies (modifier r)) (index_of idx e.1) rs.
Definition specific_heads (hs : list wordSet) (e : string * string) : list wordSet :=
  alter (add_all e.2) (index_of idx e.1) hs.

(** The grammar before its blocks are enumerated. *)
Definition base : phraseGrammar :=
  let rs := initial_roles in
  let bl := blocked in
  let ids := seq 0 size in
  mkGrammar
    (foldl specific_role rs (specificAdjectiveHeads L))
    ((λ a, let skip := skips bl a in row (λ b, negb (skip b))) <$> ids)
    (foldl specific_heads
       ((λ a, let skip := skips bl a in let adj := adjective (role rs a) in
              row (λ b, negb (skip b) && negb (Z.land adj (noun (role rs b)) =? 0))) <$> ids)
       (specificAdjectiveHeads L))
    ((λ a, let skip := skips bl a in let mod_ := modifier (role rs a) in
           row (λ b, negb (skip b) && negb (Z.land mod_ (noun (role rs b)) =? 0))) <$> ids)
    (list_to_set (entry_pair <$> qualifierPairs L))
    (add_all (tripleHeads L) no_words) (add_all (tripleAdjectives L) no_words) [] []
    ((λ limit, row (λ i, (String.length (word i) <=? limit)%nat)) <$> seq 0 (S MaxPhraseBytes)).
End Build.

Definition set_nth (l : list wordSet) (i : nat) : wordSet := nth i l no_words.

(** [heads]; no second word is -1 in the source. *)
Definition heads (g : phraseGrammar) (a : nat) (b : option nat) : wordSet :=
  let mask (out : wordSet) (prefix : nat) : wordSet :=
    if (MaxPhraseBytes <? prefix)%nat then no_words
    else set_and out (set_nth (lengthMasks g) (MaxPhraseBytes - prefix)) in
  let adj := set_nth (adjectiveHeads g) in
  let mod_ := set_nth (modifierHeads g) in
  let compat := set_nth (compatible g) in
  match b with
  | None =>
    mask (set_and (set_or (adj a) (mod_ a)) (compat a)) (String.length (word a) + 1)%nat
  | Some b =>
    if (adjective (role (roles g) a) =? 0) || negb (has (compat a) b) then no_words
    else
      let out := if has (tripleAdjectiveSet g) a then set_and (adj a) (mod_ b) else no_words in
      let out := if bool_decide ((a, b) ∈ qualifiers g) then set_or out (set_and (adj a) (adj b)) else out in
      let out := set_and out (set_and (set_and (compat a) (compat b)) (tripleHeadSet g)) in
      mask out (String.length (word a) + 1 + (String.length (word b) + 1))%nat
  end.

(** Appending the block of one prefix, when it has heads. *)
Definition push_block (a b : nat) (s : wordSet) (blocks : list phraseBlock) (end_ : Z) : list phraseBlock * Z :=
  let n := count s in
  if n >? 0 then (blocks ++ [mkBlock a b s (u64 (end_ + n))], u64 (end_ + n)) else (blocks, end_).

Definition pair_blocks (g : phraseGrammar) : list phraseBlock * Z :=
  foldl (λ '(bs, e) a, push_block a 0 (heads g a None) bs e) ([], 0) (seq 0 size).

Definition triple_blocks (g : phraseGrammar) : list phraseBlock * Z :=
  foldl (λ acc a, if adjective (role (roles g) a) =? 0 then acc
                  else foldl (λ '(bs, e) b, push_block a b (heads g a (Some b)) bs e) acc (seq 0 size))
        ([], 0) (seq 0 size).

(** [phrases] *)
Definition phrases : phraseGrammar :=
  let g := base wordIndex in
  mkGrammar (roles g) (compatible g) (adjectiveHeads g) (modifierHeads g) (qualifiers g) (tripleHeadSet g)
    (tripleAdjectiveSet g) (pair_blocks g).1 (triple_blocks g).1 (lengthMasks g).

(** [admits]; the callers pass two or three words. *)
Definition admits (parts : list string) : bool :=
  match mapM (λ p, wordIndex !! p) parts with
  | Some [a; c] => has (heads phrases a None) c
  | Some [a; b; c] => has (heads phrases a (Some b)) c
  | _ => false
  end.

Definition blocks_of (count : Z) : list phraseBlock :=
  if count =? 2 then pairs phrases else if count =? 3 then triples phrases else [].

Definition phraseCapacity (count : Z) : Z :=
  match last (blocks_of count) with Some b => block_end b | None => 0 end.

Definition block_at (bs : list phraseBlock) (i : nat) : phraseBlock := nth i bs (mkBlock 0 0 no_words 0).

Definition phraseAt (index count : Z) : result name_error Name :=
  let capacity := phraseCapacity count in
  if capacity =? 0 then Err ErrWordCount
  else if index >=? capacity then Err ErrIndex
  else
    let blocks := blocks_of count in
    let i := Search (length blocks) (λ i, block_end (block_at blocks i) >? index) in
    let prior := if (0 <? i)%nat then block_end (block_at blocks (i - 1)) else 0 in
    let block := block_at blocks i in
    let head := Z.to_nat (set_at (block_heads block) (u64 (index - prior))) in
    let text := (word (first block) +:+ "-")%string in
    let text := if count =? 3 then (text +:+ word (second block) +:+ "-")%string else text in
    Ok (mkName (text +:+ word head)%string GrammarName count).

(** ** composed.go *)

Record composedGroup := mkComposed {
  group_pairs : list string;
  pairRanks : gmap string nat;
  group_triples : list string;
  tripleRanks : gmap string nat }.

Definition Join (parts : list string) : string := String.concat "-" parts.

(** [ranks[text] = len(pool); pool = append(pool, text)] for the admitted phrases. *)
Definition pool_step (acc : list string * gmap string nat) (parts : list string) : list string * gmap string nat :=
  if admits parts then (acc.1 ++ [Join parts], <[Join parts := length acc.1]> acc.2) else acc.
Definition pool (candidates : list (list string)) : list string * gmap string nat :=
  foldl pool_step ([], ∅) candidates.

Definition pair_candidates (p : phrasePalette) : list (list string) :=
  a ← Fields (modifiers p); b ← Fields (subjects p); [[a; b]].
Definition triple_candidates (p : phrasePalette) : list (list string) :=
  a ← Fields (modifiers p); b ← Fields (modifiers p); c ← Fields (subjects p); [[a; b; c]].

Definition build_group (i : nat) (p : phrasePalette) : composedGroup :=
  let ps := pool (pair_candidates p) in
  let ts := if (i =? 0)%nat then pool (triple_candidates p) else ([], ∅) in
  mkComposed ps.1 ps.2 ts.1 ts.2.
Definition composedGroups : list composedGroup := imap build_group (composedPalettes L).

Definition group_at (i : nat) : composedGroup := nth i composedGroups (mkComposed [] ∅ [] ∅).

(** The phrases a group contributes to a name of [count] words, and their ranks. *)
Definition group_pool (count : Z) (i : nat) : list string :=
  if (i =? 0)%nat && (count mod 2 =? 1) then group_triples (group_at i) else group_pairs (group_at i).
Definition group_lookup (count : Z) (i : nat) : gmap string nat :=
  if (i =? 0)%nat && (count mod 2 =? 1) then tripleRanks (group_at i) else pairRanks (group_at i).
Definition group_width (count : Z) (i : nat) : nat :=
  if (i =? 0)%nat && (count mod 2 =? 1) then 3 else 2.

Definition group_ids (count : Z) : list nat := seq 0 (Z.to_nat (count / 2)).

Definition CapacityBig (count : Z) : Z :=
  if (count <? MinWordCount) || (count >? MaxWordCount) then 0
  else if count <=? 3 then phraseCapacity count
  else foldl (λ capacity i, capacity * len (group_pool count i)) 1 (group_ids count).

Definition CapacityUint64 (count : Z) : result name_error Z :=
  if (count <? MinWordCount) || (count >? MaxWordCount) then Err ErrWordCount
  else let n := CapacityBig count in
       if negb ((0 <=? n) && (n <? 2 ^ 64)) then Err ErrCapacityOverflow else Ok n.

(** The loop of [AtBig] from the last group to the first, with the ids reversed. *)
Fixpoint select (count : Z) (ids : list nat) (rank : Z) (texts : list string) : list string :=
  match ids with
  | [] => texts
  | i :: ids' =>
    let p := group_pool count i in
    select count ids' (rank ÷ len p) (nth (Z.to_nat (Z.rem rank (len p))) p "" :: texts)
  end.

(** [AtBig]; a nil index is [None]. *)
Definition AtBig (index : option Z) (count : Z) : result name_error Name :=
  let capacity := CapacityBig count in
  if capacity =? 0 then Err ErrWordCount
  else match index with
       | None => Err ErrIndex
       | Some index =>
         if (index <? 0) || (index >=? capacity) then Err ErrIndex
         else if count <=? 3 then phraseAt index count
         else Ok (mkName (Join (select count (rev (group_ids count)) index [])) ComposedGrammarName count)
       end.

(** The loop of [parseComposed]: the offset reached, or [None] on a phrase that is
    not in its group. *)
Fixpoint composed_offset (parts : list string) (ids : list nat) (offset : nat) : option nat :=
  match ids with
  | [] => Some offset
  | i :: ids' =>
    let width := group_width (len parts) i in
    match group_lookup (len parts) i !! Join (slice parts offset (offset + width)) with
    | None => None
    | Some _ => composed_offset parts ids' (offset + width)
    end
  end.

Definition parseComposed (parts : list string) : bool :=
  if (len parts <? 4) || (len parts >? MaxWordCount) then false
  else match composed_offset parts (group_ids (len parts)) 0 with
       | None => false
       | Some offset => Z.of_nat offset =? len parts
       end.

(** ** names.go *)

Definition Capacity (wordCount : Z) : Z :=
  match CapacityUint64 wordCount with Ok n => n | Err _ => 0 end.

(** [crypto/rand.Int]: chunks of the reader's bytes, their excess bits cleared,
    until one is below [max].  [None] is a read past the end. *)
Fixpoint rand_Int (fuel : nat) (random : list Z) (max : Z) : option (Z * list Z) :=
  match fuel with
  | O => None
  | S fuel' =>
    let bitLen := if max =? 1 then 0 else Z.log2 (max - 1) + 1 in
    if bitLen =? 0 then Some (0, random)
    else
      let k := Z.to_nat ((bitLen + 7) / 8) in
      let b := if bitLen mod 8 =? 0 then 8 else bitLen mod 8 in
      if (length random <? k)%nat then None
      else
        let bytes := take k random in
        let rest := drop k random in
        let n := be_combine (alter (λ z, Z.land z (2 ^ b - 1)) O bytes) in
        if n <? max then Some (n, rest) else rand_Int fuel' rest max
  end.

(** [Generate], for a reader with the bytes [random]; every chunk takes at least
    one of them, so they bound the rounds. *)
Definition Generate (random : option (list Z)) (wordCount : Z) : result name_error (Name * list Z) :=
  let capacity := CapacityBig wordCount in
  if capacity =? 0 then Err ErrWordCount
  else match random with
       | None => Err ErrRandomSource
       | Some random =>
         match rand_Int (S (length random)) random capacity with
         | None => Err ErrRead
         | Some (index, rest) =>
           match AtBig (Some index) wordCount with Ok n => Ok (n, rest) | Err e => Err e end
         end
       end.

Definition At (index wordCount : Z) : result name_error Name := AtBig (Some index) wordCount.
End Names.

(** *** Text, as ASCII bytes *)

Definition code (c : Ascii.ascii) : nat := Ascii.nat_of_ascii c.
Definition is_lower (c : Ascii.ascii) : bool := ((97 <=? code c) && (code c <=? 122))%nat.
Definition to_lower (c : Ascii.ascii) : Ascii.ascii :=
  if ((65 <=? code c) && (code c <=? 90))%nat then Ascii.ascii_of_nat (code c + 32) else c.

Definition chars (s : string) : list Ascii.ascii := String.list_ascii_of_string s.
Definition of_chars (l : list Ascii.ascii) : string := String.string_of_list_ascii l.

Fixpoint drop_spaces (l : list Ascii.ascii) : list Ascii.ascii :=
  match l with
  | c :: l' => if is_space c then drop_spaces l' else l
  | [] => []
  end.
Definition TrimSpace (s : string) : string := of_chars (rev (drop_spaces (rev (drop_spaces (chars s))))).
Definition ToLower (s : string) : string := of_chars (to_lower <$> chars s).

Definition hyphen : Ascii.ascii := Ascii.ascii_of_nat 45.

(** [strings.Split(s, "-")] *)
Fixpoint split_from (part : list Ascii.ascii) (s : list Ascii.ascii) : list string :=
  match s with
  | [] => [of_chars (rev part)]
  | c :: s' => if Ascii.eqb c hyphen then of_chars (rev part) :: split_from [] s' else split_from (c :: part) s'
  end.
Definition Split (s : string) : list string := split_from [] (chars s).

Definition word_ok (w : string) : bool :=
  negb ((String.length w <? 3)%nat || (24 <? String.length w)%nat) && forallb is_lower (chars w).

Definition Normalize (text : string) : result name_error string :=
  if Z.of_nat (String.length text) >? MaxNameBytes then Err ErrName
  else
    let value := ToLower (TrimSpace text) in
    let parts := Split value in
    if (len parts <? MinWordCount) || (len parts >? MaxWordCount) then Err ErrName
    else if forallb word_ok parts then Ok value else Err ErrName.

Definition contains_word (values : list string) (target : string) : bool :=
  existsb (String.eqb target) values.

(** [HasPrefix(word, root) && contains(tails, TrimPrefix(word, root))] *)
Definition legacyWord (w : string) (roots tails : list string) : bool :=
  existsb (λ root, String.prefix root w &&
                   contains_word tails (String.substring (String.length root) (String.length w - String.length root) w))
    roots.

(** The loop of the previous grammar: known words, none repeated. *)
Fixpoint known_distinct (L : lexicon) (seen parts : list string) : bool :=
  match parts with
  | [] => true
  | w :: parts' =>
    bool_decide (is_Some (wordIndex L !! w)) && negb (contains_word seen w) && known_distinct L (seen ++ [w]) parts'
  end.

Definition short (parts : list string) : bool := (len parts =? 2) || (len parts =? 3).

Definition valid_parts (L : lexicon) (grammar : string) (parts : list string) : bool :=
  if bool_decide (grammar = GrammarName) then short parts && admits L parts
  else if bool_decide (grammar = ComposedGrammarName) then parseComposed L parts
  else if bool_decide (grammar = previousGrammarName) then short parts && known_distinct L [] parts
  else if bool_decide (grammar = legacyGrammarName)
  then short parts && legacyWord (nth 0 parts "") legacyModifierRoots legacyModifierTails &&
       legacyWord (nth 1 parts "") legacySubjectRoots legacySubjectTails &&
       ((len parts =? 2) || legacyWord (nth 2 parts "") legacyPlaceRoots legacyPlaceTails)
  else false.

Definition ParseStored (L : lexicon) (grammar text : string) : result name_error Name :=
  match Normalize text with
  | Err e => Err e
  | Ok value =>
    let parts := Split value in
    if valid_parts L grammar parts then Ok (mkName value grammar (len parts)) else Err ErrName
  end.

Definition Parse (L : lexicon) (text : string) : result name_error Name :=
  foldr (λ grammar r, match ParseStored L grammar text with Ok n => Ok n | Err _ => r end) (Err ErrName)
    [GrammarName; ComposedGrammarName; previousGrammarName; legacyGrammarName].

(** ** Text *)

Definition hyphen_free (w : string) : Prop := hyphen ∉ chars w.

Lemma chars_of_chars l : chars (of_chars l) = l.
Proof. apply String.list_ascii_of_string_of_list_ascii. Qed.
Lemma of_chars_chars s : of_chars (chars s) = s.
Proof. apply String.string_of_list_ascii_of_string. Qed.
Lemma chars_app a b : chars (a +:+ b) = chars a ++ chars b.
Proof. unfold chars. induction a as [|c a IH]; cbn; [done|]. by rewrite <- IH. Qed.
Lemma length_chars s : length (chars s) = String.length s.
Proof. unfold chars. induction s as [|c s IH]; cbn; [done|]. by rewrite IH. Qed.
Lemma chars_inj a b : chars a = chars b → a = b.
Proof. intros E. by rewrite <- (of_chars_chars a), E, of_chars_chars. Qed.

Lemma Join_cons p ps : ps ≠ [] → Join (p :: ps) = (p +:+ "-" +:+ Join ps)%string.
Proof. by destruct ps. Qed.

Lemma Join_app ps qs : ps ≠ [] → qs ≠ [] → Join (ps ++ qs) = (Join ps +:+ "-" +:+ Join qs)%string.
Proof.
  intros Hp Hq. induction ps as [|p ps IH]; [done|]. destruct ps as [|p' ps]; [by apply Join_cons|].
  cbn [app]. rewrite !(Join_cons p) by done. change (p' :: ps ++ qs) with ((p' :: ps) ++ qs). rewrite IH by done.
  apply chars_inj. rewrite !chars_app. by rewrite <- !app_assoc.
Qed.

(** Joining phrases that are themselves joined words. *)
Lemma Join_concat pss : Forall (λ ps, ps ≠ []) pss → Join (Join <$> pss) = Join (concat pss).
Proof.
  induction 1 as [|ps pss Hne Hall IH]; [done|]. cbn [fmap list_fmap concat].
  destruct pss as [|qs pss]; [cbn [concat]; by rewrite app_nil_r|].
  rewrite Join_cons by done. change (Join qs :: list_fmap _ _ Join pss) with (Join <$> qs :: pss). rewrite IH.
  apply Forall_cons in Hall as [Hq _]. rewrite Join_app; [done|done|]. cbn. by destruct qs.
Qed.

Lemma split_from_app part l s :
  hyphen ∉ l → split_from part (l ++ hyphen :: s) = of_chars (rev part ++ l) :: split_from [] s.
Proof.
  revert part. induction l as [|c l IH]; intros part Hl; cbn [split_from app].
  - by rewrite app_nil_r.
  - apply not_elem_of_cons in Hl as [Hc Hl]. destruct (Ascii.eqb_spec c hyphen) as [->|_]; [done|].
    rewrite IH by done. cbn [rev]. by rewrite <- app_assoc.
Qed.

Lemma split_from_last part l : hyphen ∉ l → split_from part l = [of_chars (rev part ++ l)].
Proof.
  revert part. induction l as [|c l IH]; intros part Hl; cbn [split_from].
  - by rewrite app_nil_r.
  - apply not_elem_of_cons in Hl as [Hc Hl]. destruct (Ascii.eqb_spec c hyphen) as [->|_]; [done|].
    rewrite IH by done. cbn [rev]. by rewrite <- app_assoc.
Qed.

(** Splitting undoes joining, and joining undoes splitting. *)
Lemma Split_Join ps : ps ≠ [] → Forall hyphen_free ps → Split (Join ps) = ps.
Proof.
  intros Hne. induction 1 as [|p ps Hp Hps IH]; [done|]. unfold Split. destruct ps as [|q ps].
  - cbn [Join String.concat]. rewrite split_from_last by done. cbn [rev app]. by rewrite of_chars_chars.
  - rewrite Join_cons by done. rewrite !chars_app. change (chars "-" ++ ?l) with (hyphen :: l).
    rewrite split_from_app by done. cbn [rev app]. rewrite of_chars_chars. f_equal. by apply IH.
Qed.

Lemma Split_ne s : Split s ≠ [].
Proof. unfold Split. generalize ([] : list Ascii.ascii). induction (chars s) as [|c l IH]; intros part; cbn; [done|by case_if]. Qed.

Lemma Join_Split s : Join (Split s) = s.
Proof.
  assert (Hgen : ∀ l part, chars (Join (split_from part l)) = rev part ++ l ∧ split_from part l ≠ []).
  { induction l as [|c l IH]; intros part; cbn [split_from].
    - split; [|done]. cbn. rewrite chars_of_chars. by rewrite app_nil_r.
    - destruct (Ascii.eqb_spec c hyphen) as [->|_].
      + destruct (IH []) as [E Hne]. split; [|done]. rewrite Join_cons by done. rewrite !chars_app, chars_of_chars, E. done.
      + destruct (IH (c :: part)) as [E Hne]. split; [|done]. rewrite E. cbn [rev]. by rewrite <- app_assoc. }
  apply chars_inj. unfold Split. by destruct (Hgen (chars s) []) as [-> _].
Qed.

Lemma elem_of_rev {A} (x : A) l : x ∈ rev l ↔ x ∈ l.
Proof. rewrite !list_elem_of_In. symmetry. apply in_rev. Qed.

Lemma Split_hyphen_free s : Forall hyphen_free (Split s).
Proof.
  assert (Hgen : ∀ l part, hyphen ∉ part → Forall hyphen_free (split_from part l)).
  { induction l as [|c l IH]; intros part Hp; cbn [split_from].
    - apply Forall_singleton. unfold hyphen_free. rewrite chars_of_chars, elem_of_rev. done.
    - destruct (Ascii.eqb_spec c hyphen) as [->|Hc].
      + constructor; [unfold hyphen_free; by rewrite chars_of_chars, elem_of_rev|]. apply IH, not_elem_of_nil.
      + apply IH. apply not_elem_of_cons. split; [congruence|done]. }
  apply Hgen, not_elem_of_nil.
Qed.

Lemma Join_inj ps qs :
  ps ≠ [] → qs ≠ [] → Forall hyphen_free ps → Forall hyphen_free qs → Join ps = Join qs → ps = qs.
Proof. intros Hp Hq Hfp Hfq E. by rewrite <- (Split_Join ps), <- (Split_Join qs), E. Qed.

(** *** Lower-case words *)

Lemma is_lower_facts c : is_lower c = true → is_space c = false ∧ to_lower c = c ∧ c ≠ hyphen.
Proof.
  unfold is_lower, is_space, to_lower. change (Ascii.nat_of_ascii c) with (code c). intros Hc.
  assert (H97 : (97 <= code c <= 122)%nat) by (apply andb_true_iff in Hc as [?%Nat.leb_le ?%Nat.leb_le]; lia).
  split_and!.
  - rewrite (proj2 (Nat.leb_gt _ 13)), (proj2 (Nat.eqb_neq _ 32)) by lia. by rewrite andb_false_r.
  - rewrite (proj2 (Nat.leb_gt _ 90)) by lia. by rewrite andb_false_r.
  - intros ->. vm_compute in H97. lia.
Qed.

Lemma hyphen_facts : is_space hyphen = false ∧ to_lower hyphen = hyphen.
Proof. done. Qed.

Lemma drop_spaces_id l : Forall (λ c, is_space c = false) l → drop_spaces l = l.
Proof. destruct 1 as [|c l Hc _]; cbn; [done|]. by rewrite Hc. Qed.

(** The bytes of lower-case words joined by hyphens. *)
Definition plain (c : Ascii.ascii) : Prop := is_space c = false ∧ to_lower c = c.

Lemma Join_plain ps : Forall (λ w, forallb is_lower (chars w) = true) ps → Forall plain (chars (Join ps)).
Proof.
  assert (Hw : ∀ w, forallb is_lower (chars w) = true → Forall plain (chars w)).
  { intros w Hw. rewrite forallb_forall in Hw. apply Forall_forall. intros c Hc%list_elem_of_In.
    by destruct (is_lower_facts c (Hw c Hc)) as (? & ? & _). }
  induction 1 as [|p ps Hp Hps IH]; [constructor|]. destruct ps as [|q ps]; [by apply Hw|].
  rewrite Join_cons by done. rewrite !chars_app. apply Forall_app. split; [by apply Hw|].
  apply Forall_app. split; [|done]. by repeat constructor.
Qed.

Lemma ToLower_plain s : Forall plain (chars s) → ToLower s = s.
Proof.
  intros H. unfold ToLower. rewrite <- (of_chars_chars s) at 2. f_equal. rewrite <- (list_fmap_id (chars s)) at 2.
  apply list_fmap_ext. intros i c Hi. by apply (Forall_lookup_1 _ _ _ _ H) in Hi as [_ ?].
Qed.

Lemma TrimSpace_plain s : Forall plain (chars s) → TrimSpace s = s.
Proof.
  intros H. assert (Hs : Forall (λ c, is_space c = false) (chars s)) by (eapply Forall_impl; [exact H|]; by intros c [? _]).
  unfold TrimSpace. rewrite (drop_spaces_id (chars s)) by done. rewrite drop_spaces_id by (by apply Forall_rev).
  by rewrite rev_involutive, of_chars_chars.
Qed.

Lemma length_Join ps : Forall (λ w, (String.length w <= 8)%nat) ps → (String.length (Join ps) <= 9 * length ps - 1)%nat.
Proof.
  induction 1 as [|p ps Hp Hps IH]; [cbn; lia|]. destruct ps as [|q ps]; [cbn; lia|].
  rewrite Join_cons by done. rewrite <- length_chars, !chars_app, !length_app, !length_chars. cbn [length] in *.
  change (String.length "-") with 1%nat. lia.
Qed.

(** A name of vocabulary words is its own normal form. *)
Lemma Normalize_Join ps :
  Forall (λ w, (3 <= String.length w <= 8)%nat ∧ forallb is_lower (chars w) = true) ps → 2 <= len ps <= 15 →
  Normalize (Join ps) = Ok (Join ps) ∧ Split (Join ps) = ps.
Proof.
  intros Hps Hlen. assert (Hne : ps ≠ []) by (intros ->; unfold len in Hlen; cbn in Hlen; lia).
  assert (Hlow : Forall (λ w, forallb is_lower (chars w) = true) ps) by (eapply Forall_impl; [exact Hps|]; by intros w [_ ?]).
  assert (Hsp : Split (Join ps) = ps).
  { apply Split_Join; [done|]. eapply Forall_impl; [exact Hlow|]. intros w Hw Hin. rewrite forallb_forall in Hw.
    apply list_elem_of_In, Hw in Hin. vm_compute in Hin. done. }
  split; [|done]. unfold Normalize.
  assert (Hl : (String.length (Join ps) <= 9 * length ps - 1)%nat).
  { apply length_Join. eapply Forall_impl; [exact Hps|]. intros w [? _]. cbn. lia. }
  destruct (Z.gtb_spec (Z.of_nat (String.length (Join ps))) MaxNameBytes) as [Hgt|_].
  { unfold MaxNameBytes, MaxWordCount, len in *. lia. }
  rewrite TrimSpace_plain, ToLower_plain, Hsp by by apply Join_plain.
  unfold MinWordCount, MaxWordCount. destruct (Z.ltb_spec (len ps) 2); [lia|]. destruct (Z.gtb_spec (len ps) 15); [lia|].
  cbn [orb]. assert (forallb word_ok ps = true) as ->; [|done]. apply forallb_forall. intros w Hw%list_elem_of_In.
  rewrite Forall_forall in Hps. destruct (Hps w Hw) as [Hb Hlo]. unfold word_ok. rewrite Hlo.
  rewrite (proj2 (Nat.ltb_ge _ 3)), (proj2 (Nat.ltb_ge 24 _)) by lia. done.
Qed.

(** ** Well-formed tables *)

Definition shaped (w : string) : Prop := (3 <= String.length w <= 8)%nat ∧ forallb is_lower (chars w) = true.

Record lex_ok (L : lexicon) : Prop := {
  ok_index : ∀ i w, words L !! i = Some w → wordIndex L !! w = Some i;
  ok_shape : Forall shaped (words L);
  ok_size : (size L <= 1023)%nat;
  ok_palettes : Forall (λ p, NoDup (Fields (modifiers p)) ∧ NoDup (Fields (subjects p))) (composedPalettes L) }.

Lemma wordIndex_word L w i : wordIndex L !! w = Some i → words L !! i = Some w.
Proof.
  intros Hw. assert (Hin : (i, w) ∈ imap pair (words L)); [|by apply elem_of_lookup_imap in Hin as (j & v & [= -> ->] & ?)].
  revert Hw. unfold wordIndex. induction (imap pair (words L)) as [|[j v] l IH] using rev_ind; [cbn [foldl]; by rewrite lookup_empty|].
  rewrite foldl_snoc. rewrite lookup_insert_Some. rewrite elem_of_app, list_elem_of_singleton. naive_solver.
Qed.

Lemma word_lookup L i w : words L !! i = Some w → word L i = w.
Proof. apply nth_lookup_Some. Qed.

Section Theory.
Context (L : lexicon) (HL : lex_ok L).

Lemma wordIndex_of i : (i < size L)%nat → wordIndex L !! word L i = Some i.
Proof.
  intros Hi. destruct (lookup_lt_is_Some_2 (words L) i Hi) as [w Hw]. rewrite (word_lookup L i w Hw). by apply (ok_index _ HL).
Qed.

Lemma word_shape i : (i < size L)%nat → shaped (word L i).
Proof.
  intros Hi. destruct (lookup_lt_is_Some_2 (words L) i Hi) as [w Hw]. rewrite (word_lookup L i w Hw).
  by apply (Forall_lookup_1 _ _ _ _ (ok_shape _ HL) Hw).
Qed.

Lemma shaped_hyphen_free w : shaped w → hyphen_free w.
Proof. intros [_ Hw] Hin. rewrite forallb_forall in Hw. apply list_elem_of_In, Hw in Hin. by vm_compute in Hin. Qed.

Lemma word_inj i j : (i < size L)%nat → (j < size L)%nat → word L i = word L j → i = j.
Proof. intros Hi%wordIndex_of Hj%wordIndex_of E. rewrite E in Hi. congruence. Qed.

(** ** The sets of the grammar *)

Lemma row_spec (p : nat → bool) (s : wordSet) (l : list nat) :
  wf s → Forall (λ b, (b < 1024)%nat) l →
  wf (foldl (λ s b, if p b then add b s else s) s l) ∧
  ∀ i, has (foldl (λ s b, if p b then add b s else s) s l) i = has s i || (bool_decide (i ∈ l) && p i).
Proof.
  intros Hs Hl. revert s Hs. induction Hl as [|b l Hb Hl IH]; intros s Hs; cbn [foldl].
  - split; [done|]. intros i. rewrite bool_decide_false by apply not_elem_of_nil. by rewrite orb_false_r.
  - destruct (p b) eqn:Hp.
    + destruct (IH (add b s)) as [Hw Hh]; [by apply wf_add|]. split; [done|]. intros i. rewrite Hh, has_add by done.
      destruct (Nat.eqb_spec i b) as [->|Hne].
      * rewrite Hp, andb_true_r, (bool_decide_true (b ∈ b :: l)) by apply list_elem_of_here. by destruct (has s b).
      * rewrite (bool_decide_ext (i ∈ b :: l) (i ∈ l)) by (rewrite elem_of_cons; naive_solver). done.
    + destruct (IH s Hs) as [Hw Hh]. split; [done|]. intros i. rewrite Hh. f_equal.
      destruct (decide (i = b)) as [->|Hne]; [by rewrite Hp, !andb_false_r|].
      rewrite (bool_decide_ext (i ∈ b :: l) (i ∈ l)) by (rewrite elem_of_cons; naive_solver). done.
Qed.

Lemma size_1024 : Forall (λ b, (b < 1024)%nat) (seq 0 (size L)).
Proof. apply Forall_seq. intros b Hb. pose proof (ok_size _ HL). lia. Qed.

Lemma wf_row p : wf (row L p).
Proof. apply row_spec; [exact wf_no_words|exact size_1024]. Qed.

Lemma has_row p i : has (row L p) i = true ↔ (i < size L)%nat ∧ p i = true.
Proof.
  unfold row. destruct (row_spec p no_words (seq 0 (size L)) wf_no_words size_1024) as [_ ->].
  rewrite has_none. cbn [orb]. rewrite andb_true_iff, bool_decide_eq_true, elem_of_seq. naive_solver lia.
Qed.

Lemma wf_set_nth l i : Forall wf l → wf (set_nth l i).
Proof.
  intros Hl. unfold set_nth. destruct (nth_in_or_default i l no_words) as [Hin| ->]; [|exact wf_no_words].
  apply list_elem_of_In in Hin. by eapply Forall_forall in Hl.
Qed.

Lemma wf_add_all idx text s : wf s → wf (add_all idx text s).
Proof. unfold add_all. revert s. induction (Fields text) as [|w l IH]; intros s Hs; cbn; [done|]. apply IH. by apply wf_add. Qed.

Lemma wf_rows (f : nat → wordSet) l : (∀ a, wf (f a)) → Forall wf (f <$> l).
Proof. intros Hf. apply Forall_fmap, Forall_forall. intros a _. apply Hf. Qed.

Lemma wf_specific idx hs es : Forall wf hs → Forall wf (foldl (specific_heads idx) hs es).
Proof.
  revert hs. induction es as [|e es IH]; intros hs Hs; cbn [foldl]; [done|]. apply IH. unfold specific_heads.
  apply Forall_alter; [done|]. intros s _ Hw. by apply wf_add_all.
Qed.

Record sets_ok (g : phraseGrammar) : Prop := {
  wf_compatible : Forall wf (compatible g);
  wf_adjectiveHeads : Forall wf (adjectiveHeads g);
  wf_modifierHeads : Forall wf (modifierHeads g);
  wf_tripleHeads : wf (tripleHeadSet g);
  wf_masks : Forall wf (lengthMasks g) }.

Lemma phrases_sets : sets_ok (phrases L).
Proof.
  split; unfold phrases, base; cbn [compatible adjectiveHeads modifierHeads tripleHeadSet lengthMasks].
  - apply wf_rows. intros a. apply wf_row.
  - apply wf_specific, wf_rows. intros a. apply wf_row.
  - apply wf_rows. intros a. apply wf_row.
  - apply wf_add_all, wf_no_words.
  - apply wf_rows. intros a. apply wf_row.
Qed.

Lemma wf_heads a b : wf (heads L (phrases L) a b).
Proof.
  destruct phrases_sets as [Hc Ha Hm Ht Hl].
  assert (Hset : ∀ l i, Forall wf l → wf (set_nth l i)) by apply wf_set_nth.
  unfold heads. destruct b as [b|]; repeat case_if; auto 8 with relay.
Qed.

(** The heads of a prefix are words, the phrase fits and its words go together. *)
Lemma heads_mask out prefix c :
  (c < 1024)%nat →
  has (if (MaxPhraseBytes <? prefix)%nat then no_words
       else set_and out (set_nth (lengthMasks (phrases L)) (MaxPhraseBytes - prefix))) c = true →
  has out c = true ∧ (c < size L)%nat ∧ (prefix + String.length (word L c) <= MaxPhraseBytes)%nat.
Proof.
  intros Hc. destruct (Nat.ltb_spec MaxPhraseBytes prefix) as [|Hle]; [by rewrite has_none|].
  rewrite has_and by done. intros [Ho Hm]%andb_true_iff. split; [done|].
  unfold phrases, base, set_nth in Hm. cbn [lengthMasks] in Hm.
  rewrite (nth_lookup_Some _ _ _ (row L (λ i, (String.length (word L i) <=? MaxPhraseBytes - prefix)%nat))) in Hm.
  - apply has_row in Hm as [Hs Hm%Nat.leb_le]. lia.
  - rewrite list_lookup_fmap, lookup_seq_lt by lia. done.
Qed.

Lemma has_heads_lt a b c : has (heads L (phrases L) a b) c = true → (c < size L)%nat.
Proof.
  intros Hh. assert (Hc : (c < 1024)%nat) by (apply elem_of_members in Hh; by apply (members_lt _ _ (wf_heads a b))).
  unfold heads in Hh. destruct b as [b|].
  - destruct ((adjective _ =? 0) || _); [by rewrite has_none in Hh|]. by apply heads_mask in Hh as (_ & ? & _).
  - by apply heads_mask in Hh as (_ & ? & _).
Qed.

(** ** The enumeration *)

(** The phrases of a list of blocks, in order: two word ids and a head. *)
Definition block_phrases (b : phraseBlock) : list (nat * nat * nat) :=
  (λ c, (first b, second b, c)) <$> members (block_heads b).
Definition enumerated (bs : list phraseBlock) : list (nat * nat * nat) := bs ≫= block_phrases.

(** The phrases of the prefixes the blocks are built from. *)
Definition prefix_phrases (e : nat * nat * wordSet) : list (nat * nat * nat) :=
  (λ c, (e.1.1, e.1.2, c)) <$> members e.2.
Definition push (acc : list phraseBlock * Z) (e : nat * nat * wordSet) : list phraseBlock * Z :=
  push_block e.1.1 e.1.2 e.2 acc.1 acc.2.

Record blocks_ok (bs : list phraseBlock) (e : Z) : Prop := {
  bo_wf : Forall (λ b, wf (block_heads b)) bs;
  bo_end : e = len (enumerated bs);
  bo_ends : ∀ i b, bs !! i = Some b → block_end b = len (enumerated (take (S i) bs)) }.

Lemma enumerated_snoc bs b : enumerated (bs ++ [b]) = enumerated bs ++ block_phrases b.
Proof. unfold enumerated. rewrite bind_app. f_equal. apply app_nil_r. Qed.

Lemma len_prefix_phrases e : wf e.2 → count e.2 = len (prefix_phrases e).
Proof. intros Hw. rewrite count_members by done. unfold prefix_phrases, len. by rewrite length_fmap. Qed.

Lemma push_ok bs n e :
  wf e.2 → blocks_ok bs n → n + 1024 < 2 ^ 64 →
  blocks_ok (push (bs, n) e).1 (push (bs, n) e).2 ∧
  enumerated (push (bs, n) e).1 = enumerated bs ++ prefix_phrases e ∧ n <= (push (bs, n) e).2 <= n + 1024.
Proof.
  intros Hw [Hwf Hend Hends] Hsmall. destruct e as [[a b] s]. cbn [snd] in Hw.
  pose proof (len_prefix_phrases (a, b, s) Hw) as Hc. cbn [snd] in Hc.
  assert (Hb : count s <= 1024).
  { rewrite count_members by done. unfold len.
    assert (length (members s) <= length (seq 0 1024))%nat; [|by rewrite length_seq in *; lia].
    apply submseteq_length, NoDup_submseteq; [apply NoDup_members|]. intros i Hi%members_lt; [|done]. apply elem_of_seq. lia. }
  pose proof (len_nonneg (prefix_phrases (a, b, s))). pose proof (len_nonneg (enumerated bs)).
  unfold push, push_block. cbn [fst snd]. destruct (Z.gtb_spec (count s) 0) as [Hpos|Hzero]; cbn [fst snd].
  - rewrite u64_small by ilia. assert (Hen : enumerated (bs ++ [mkBlock a b s (n + count s)]) = enumerated bs ++ prefix_phrases (a, b, s)).
    { by rewrite enumerated_snoc. }
    split_and!; [|done|lia|lia]. split.
    + apply Forall_app. split; [done|]. by apply Forall_singleton.
    + rewrite Hen, len_app, <- Hc, Hend. done.
    + intros i bl Hi. apply lookup_app_Some in Hi as [Hi|[Hlen Hi]].
      * rewrite take_app_le by (apply lookup_lt_Some in Hi; lia). by apply Hends.
      * apply list_lookup_singleton_Some in Hi as [Hi <-]. cbn [block_end].
        rewrite take_ge by (rewrite length_app; cbn; lia). rewrite Hen, len_app, <- Hc, Hend. done.
  - assert (Hnil : prefix_phrases (a, b, s) = []) by (apply len_nil_iff; lia). rewrite Hnil, app_nil_r.
    split_and!; [done|done|lia|lia].
Qed.

Lemma pushes_ok es bs n :
  Forall (λ e, wf e.2) es → blocks_ok bs n → n + 1024 * len es < 2 ^ 64 →
  blocks_ok (foldl push (bs, n) es).1 (foldl push (bs, n) es).2 ∧
  enumerated (foldl push (bs, n) es).1 = enumerated bs ++ (es ≫= prefix_phrases) ∧
  (foldl push (bs, n) es).2 <= n + 1024 * len es.
Proof.
  intros Hes. revert bs n. induction Hes as [|e es He Hes IH]; intros bs n Hok Hn; cbn [foldl].
  - split_and!; [done| |unfold len; cbn; lia]. cbn. by rewrite app_nil_r.
  - assert (Hl : len (e :: es) = 1 + len es) by (unfold len; cbn; lia). pose proof (len_nonneg es).
    destruct (push_ok bs n e He Hok ltac:(lia)) as (Hok' & Hen & Hle).
    destruct (push (bs, n) e) as [bs' n'] eqn:Hp. cbn [fst snd] in *.
    destruct (IH bs' n' Hok' ltac:(lia)) as (Hok2 & Hen2 & Hle2). split_and!; [done| |lia].
    rewrite Hen2, Hen, <- app_assoc. done.
Qed.

(** A rank is found in the block [Search] selects. *)
Lemma search_block bs n index :
  blocks_ok bs n → 0 <= index < n → n < 2 ^ 64 →
  let i := Search (length bs) (λ i, block_end (block_at bs i) >? index) in
  let prior := if (0 <? i)%nat then block_end (block_at bs (i - 1)) else 0 in
  ∃ c, enumerated bs !! Z.to_nat index = Some (first (block_at bs i), second (block_at bs i), c) ∧
       set_at (block_heads (block_at bs i)) (u64 (index - prior)) = Z.of_nat c.
Proof.
  intros [Hwf Hend Hends] Hidx Hn i prior.
  assert (Hat : ∀ k, (k < length bs)%nat → ∃ b, bs !! k = Some b ∧ block_at bs k = b).
  { intros k Hk. destruct (lookup_lt_is_Some_2 bs k Hk) as [b Hb]. exists b. split; [done|]. by apply nth_lookup_Some. }
  assert (Hmono : ∀ j k, (j <= k)%nat → len (enumerated (take j bs)) <= len (enumerated (take k bs))).
  { intros j k Hjk. unfold len. apply inj_le. replace (take j bs) with (take j (take k bs)) by (rewrite take_take; f_equal; lia).
    rewrite <- (take_drop j (take k bs)) at 2. unfold enumerated. rewrite bind_app, length_app. lia. }
  assert (Hf : ∀ k, (k < length bs)%nat → block_end (block_at bs k) = len (enumerated (take (S k) bs))).
  { intros k Hk. destruct (Hat k Hk) as (b & Hb & ->). by apply Hends. }
  destruct (Search_spec (length bs) (λ i, block_end (block_at bs i) >? index)) as (Hi & Hlo & Hhi).
  { intros a b Hab. rewrite !Hf by lia. pose proof (Hmono (S a) (S b) ltac:(lia)). rewrite !Z.gtb_lt. lia. }
  fold i in Hi, Hlo, Hhi. subst prior. clearbody i.
  set (prior := if (0 <? i)%nat then block_end (block_at bs (i - 1)) else 0).
  assert (Hlt : (i < length bs)%nat).
  { destruct (Nat.lt_ge_cases i (length bs)) as [|Hge]; [done|]. exfalso.
    destruct (length bs) as [|m] eqn:Hl; [apply nil_length_inv in Hl; subst bs; cbn in Hend; unfold len in *; cbn in *; lia|].
    specialize (Hlo m ltac:(lia)). rewrite Hf in Hlo by lia. rewrite take_ge in Hlo by lia. rewrite <- Hend in Hlo.
    destruct (Z.gtb_spec n index); [done|lia]. }
  destruct (Hat i Hlt) as (b & Hb & Hba). rewrite Hba.
  assert (Hprior : prior = len (enumerated (take i bs)) ∧ prior <= index).
  { subst prior. destruct i as [|j]; cbn [Nat.ltb Nat.leb]; [split; [done|lia]|].
    replace (S j - 1)%nat with j by lia. specialize (Hlo j ltac:(lia)). rewrite Hf in Hlo by lia. rewrite Hf by lia. split; [done|].
    destruct (Z.gtb_spec (len (enumerated (take (S j) bs))) index); [done|lia]. }
  destruct Hprior as [Hprior Hle]. pose proof (len_nonneg (enumerated (take i bs))).
  specialize (Hhi i ltac:(lia)). rewrite Hf in Hhi by lia. apply Z.gtb_lt in Hhi.
  rewrite (take_S_r _ _ b Hb), enumerated_snoc, len_app, <- Hprior in Hhi.
  assert (Hsplit : enumerated bs = enumerated (take i bs) ++ block_phrases b ++ enumerated (drop (S i) bs)).
  { rewrite <- (take_drop_middle bs i b Hb) at 1. unfold enumerated. by rewrite bind_app. }
  unfold len in Hprior, Hhi. assert (Hin : (Z.to_nat (index - prior) < length (members (block_heads b)))%nat).
  { unfold block_phrases in Hhi. rewrite length_fmap in Hhi. lia. }
  destruct (lookup_lt_is_Some_2 _ _ Hin) as [c Hc]. exists c. split.
  - rewrite Hsplit, lookup_app_r by lia. rewrite lookup_app_l by (unfold block_phrases; rewrite length_fmap; lia).
    unfold block_phrases. rewrite list_lookup_fmap. replace (Z.to_nat index - length (enumerated (take i bs)))%nat
      with (Z.to_nat (index - prior)) by lia. by rewrite Hc.
  - rewrite u64_small by ilia. apply set_at_members; [|ilia|done]. by apply (Forall_lookup_1 _ _ _ _ Hwf Hb).
Qed.

(** The prefixes of the phrases of [count] words, and all their phrases. *)
Definition heads_of (count : Z) (ab : nat * nat) : wordSet :=
  heads L (phrases L) ab.1 (if count =? 3 then Some ab.2 else None).
Definition described (a : nat) : bool := negb (adjective (role (roles (phrases L)) a) =? 0).
Definition prefix_ids (count : Z) : list (nat * nat) :=
  if count =? 3 then filter (λ a, described a) (seq 0 (size L)) ≫= λ a, (a,.) <$> seq 0 (size L)
  else (., 0%nat) <$> seq 0 (size L).
Definition prefixes (count : Z) : list (nat * nat * wordSet) := (λ ab, (ab, heads_of count ab)) <$> prefix_ids count.
Definition listing (count : Z) : list (nat * nat * nat) := prefixes count ≫= prefix_phrases.

Definition phrase_ids (count : Z) (p : nat * nat * nat) : list nat :=
  if count =? 3 then [p.1.1; p.1.2; p.2] else [p.1.1; p.2].
Definition phrase_text (count : Z) (p : nat * nat * nat) : string := Join (word L <$> phrase_ids count p).

Lemma push_triples ids acc a :
  foldl (λ '(bs, e) b, push_block a b (heads L (phrases L) a (Some b)) bs e) acc ids =
  foldl push acc ((λ ab, (ab, heads_of 3 ab)) <$> ((a,.) <$> ids)).
Proof. revert acc. induction ids as [|b ids IH]; intros [bs e]; cbn [foldl fmap list_fmap]; [done|]. by rewrite IH. Qed.

Lemma push_all_triples ids l acc :
  foldl (λ acc a, if adjective (role (roles (phrases L)) a) =? 0 then acc
                  else foldl (λ '(bs, e) b, push_block a b (heads L (phrases L) a (Some b)) bs e) acc ids) acc l =
  foldl push acc ((λ ab, (ab, heads_of 3 ab)) <$> (filter (λ a, described a) l ≫= λ a, (a,.) <$> ids)).
Proof.
  revert acc. induction l as [|a l IH]; intros acc; cbn [foldl]; [done|]. rewrite IH, filter_cons.
  destruct (decide (described a)) as [Hd|Hd]; unfold described in Hd; destruct (adjective _ =? 0); try done.
  cbn [mbind list_bind]. rewrite fmap_app, foldl_app. by rewrite push_triples.
Qed.

Lemma blocks_of_prefixes count :
  count = 2 ∨ count = 3 → blocks_of L count = (foldl push ([], 0) (prefixes count)).1.
Proof.
  intros [-> | ->]; unfold blocks_of, prefixes, prefix_ids; cbn [Z.eqb Pos.eqb].
  - unfold phrases at 1. cbn [pairs]. unfold pair_blocks. f_equal.
    generalize (([], 0) : list phraseBlock * Z).
    induction (seq 0 (size L)) as [|a l IH]; intros [bs e]; cbn [foldl fmap list_fmap]; [done|]. by rewrite IH.
  - unfold phrases at 1. cbn [triples]. f_equal. apply push_all_triples.
Qed.

Lemma length_bind_le {A B} (f : A → list B) l k :
  (∀ x, (length (f x) <= k)%nat) → (length (l ≫= f) <= length l * k)%nat.
Proof. intros Hf. induction l as [|x l IH]; cbn; [lia|]. rewrite length_app. specialize (Hf x). lia. Qed.

Lemma prefixes_bound count : 1024 * len (prefixes count) < 2 ^ 64.
Proof.
  assert (Hl : (length (prefix_ids count) <= size L * 1023)%nat).
  { pose proof (ok_size _ HL). unfold prefix_ids. case_if.
    - etransitivity; [apply (length_bind_le _ _ 1023)|].
      + intros a. rewrite length_fmap, length_seq. done.
      + apply Nat.mul_le_mono_r. etransitivity; [apply length_filter|]. by rewrite length_seq.
    - rewrite length_fmap, length_seq. lia. }
  pose proof (ok_size _ HL). unfold prefixes, len. rewrite length_fmap. nia.
Qed.

(** The blocks enumerate the listing. *)
Lemma blocks_listing count :
  count = 2 ∨ count = 3 → ∃ n, blocks_ok (blocks_of L count) n ∧ n < 2 ^ 64 ∧ enumerated (blocks_of L count) = listing count.
Proof.
  intros Hc. rewrite blocks_of_prefixes by done. pose proof (prefixes_bound count) as Hb.
  destruct (pushes_ok (prefixes count) [] 0) as (Hok & Hen & Hle).
  - apply Forall_fmap, Forall_forall. intros ab _. apply wf_heads.
  - split; [done|done|]. intros i b Hi. by rewrite lookup_nil in Hi.
  - lia.
  - exists (foldl push ([], 0) (prefixes count)).2. split_and!; [done|lia|done].
Qed.

Lemma phraseCapacity_listing count : count = 2 ∨ count = 3 → phraseCapacity L count = len (listing count).
Proof.
  intros Hc. destruct (blocks_listing count Hc) as (n & Hok & _ & Hen). unfold phraseCapacity. rewrite <- Hen.
  destruct (blocks_of L count) as [|b bs] using rev_ind; [done|]. rewrite last_snoc.
  rewrite (bo_ends _ _ Hok (length bs) b); [|by rewrite lookup_app_r, Nat.sub_diag].
  rewrite take_ge; [done|]. rewrite length_app. cbn. lia.
Qed.

(** [phraseAt] is indexing into the listing. *)
Lemma phraseAt_listing count index :
  count = 2 ∨ count = 3 → 0 <= index →
  phraseAt L index count =
    if len (listing count) =? 0 then Err ErrWordCount
    else match listing count !! Z.to_nat index with
         | Some p => Ok (mkName (phrase_text count p) GrammarName count)
         | None => Err ErrIndex
         end.
Proof.
  intros Hc Hidx. unfold phraseAt. rewrite phraseCapacity_listing by done. case_if; [done|].
  destruct (Z.geb_spec index (len (listing count))) as [Hge|Hlt].
  { rewrite lookup_ge_None_2; [done|]. unfold len in Hge. lia. }
  destruct (blocks_listing count Hc) as (n & Hok & Hn & Hen).
  pose proof (bo_end _ _ Hok) as Hend. rewrite Hen in Hend.
  destruct (search_block (blocks_of L count) n index Hok ltac:(lia) Hn) as (c & Hl & Hat). rewrite Hen in Hl.
  rewrite Hl, Hat, Nat2Z.id. f_equal. f_equal. unfold phrase_text, phrase_ids. cbn [fst snd].
  destruct Hc as [-> | ->]; cbn [Z.eqb Pos.eqb fmap list_fmap]; unfold Join; cbn [String.concat].
  - apply chars_inj. rewrite !chars_app. by rewrite <- !app_assoc.
  - apply chars_inj. rewrite !chars_app. by rewrite <- !app_assoc.
Qed.

Lemma elem_of_prefix_ids count a b :
  (a, b) ∈ prefix_ids count ↔
  (a < size L)%nat ∧ (if count =? 3 then described a = true ∧ (b < size L)%nat else b = 0%nat).
Proof.
  unfold prefix_ids. case_if.
  - rewrite list_elem_of_bind. setoid_rewrite list_elem_of_filter. setoid_rewrite list_elem_of_fmap.
    setoid_rewrite elem_of_seq. setoid_rewrite Is_true_true. split.
    + intros (a' & (b' & [= -> ->] & Hb) & Hd & Ha). naive_solver lia.
    + intros (Ha & Hd & Hb). exists a. split; [exists b; split; [done|lia]|split; [done|lia]].
  - rewrite list_elem_of_fmap. setoid_rewrite elem_of_seq. naive_solver lia.
Qed.

Lemma elem_of_listing count a b c :
  (a, b, c) ∈ listing count ↔ (a, b) ∈ prefix_ids count ∧ has (heads_of count (a, b)) c = true.
Proof.
  unfold listing, prefixes, prefix_phrases. rewrite list_elem_of_bind. setoid_rewrite list_elem_of_fmap.
  setoid_rewrite elem_of_members. split.
  - intros (e & (c' & [= -> -> ->] & Hc) & (ab & -> & Hab)). by destruct ab.
  - intros [Hab Hc]. exists ((a, b), heads_of count (a, b)). split; [by exists c|]. by exists (a, b).
Qed.

Lemma NoDup_listing count : NoDup (listing count).
Proof.
  unfold listing. apply NoDup_bind.
  - intros [[a b] s] [[a' b'] s'] y (ab & [= <- ->] & _)%list_elem_of_fmap (ab' & [= <- ->] & _)%list_elem_of_fmap.
    intros (c & -> & _)%list_elem_of_fmap (c' & [= -> -> _] & _)%list_elem_of_fmap. done.
  - intros e _. apply NoDup_fmap; [|apply NoDup_members]. by intros c c' [= ->].
  - apply NoDup_fmap; [by intros ab ab' [= -> _]|]. unfold prefix_ids. case_if.
    + apply NoDup_bind.
      * intros a a' y _ _ (b & -> & _)%list_elem_of_fmap (b' & [= -> _] & _)%list_elem_of_fmap. done.
      * intros a _. apply NoDup_fmap; [by intros b b' [= ->]|apply NoDup_seq].
      * apply NoDup_filter, NoDup_seq.
    + apply NoDup_fmap; [by intros a a' [= ->]|apply NoDup_seq].
Qed.

Lemma phrase_ids_lt count p : p ∈ listing count → Forall (λ i, (i < size L)%nat) (phrase_ids count p).
Proof.
  destruct p as [[a b] c]. intros [Hab Hc]%elem_of_listing. apply elem_of_prefix_ids in Hab as [Ha Hb].
  apply has_heads_lt in Hc. unfold phrase_ids. cbn [fst snd]. case_if; repeat constructor; naive_solver.
Qed.

Lemma words_shaped ids : Forall (λ i, (i < size L)%nat) ids → Forall shaped (word L <$> ids).
Proof. intros H. apply Forall_fmap. eapply Forall_impl; [exact H|]. intros i Hi. by apply word_shape. Qed.

Lemma shaped_all_hyphen_free ps : Forall shaped ps → Forall hyphen_free ps.
Proof. intros H. eapply Forall_impl; [exact H|]. apply shaped_hyphen_free. Qed.

Lemma words_inj ids ids' :
  Forall (λ i, (i < size L)%nat) ids → Forall (λ i, (i < size L)%nat) ids' → word L <$> ids = word L <$> ids' → ids = ids'.
Proof.
  intros H. revert ids'. induction H as [|i ids Hi Hids IH]; intros [|j ids'] H' E; try done.
  apply Forall_cons in H' as [Hj H']. injection E as E1 E2. f_equal; [by apply word_inj|by apply IH].
Qed.

(** Distinct entries of the listing are distinct texts. *)
Lemma phrase_text_inj count p p' :
  count = 2 ∨ count = 3 → p ∈ listing count → p' ∈ listing count → phrase_text count p = phrase_text count p' → p = p'.
Proof.
  intros Hc Hp Hp' E. pose proof (phrase_ids_lt _ _ Hp) as Hi. pose proof (phrase_ids_lt _ _ Hp') as Hi'.
  assert (Hne : ∀ q, word L <$> phrase_ids count q ≠ []) by (intros q; unfold phrase_ids; by case_if).
  apply Join_inj in E; [|done|done|by apply shaped_all_hyphen_free, words_shaped..].
  apply words_inj in E; [|done..]. destruct p as [[a b] c], p' as [[a' b'] c'].
  apply elem_of_listing in Hp as [Hp%elem_of_prefix_ids _]. apply elem_of_listing in Hp' as [Hp'%elem_of_prefix_ids _].
  unfold phrase_ids in E. cbn [fst snd] in E. destruct Hc as [-> | ->]; cbn in *; [|congruence].
  destruct Hp as [_ ->], Hp' as [_ ->]. congruence.
Qed.

Lemma mapM_wordIndex ids : Forall (λ i, (i < size L)%nat) ids → mapM (λ p, wordIndex L !! p) (word L <$> ids) = Some ids.
Proof. intros H. apply mapM_Some_2. apply Forall2_fmap_l, Forall_Forall2_diag. eapply Forall_impl; [exact H|]. intros i Hi. by apply wordIndex_of. Qed.

(** [admits] accepts the phrases of the listing and no others. *)
Lemma admits_listing parts :
  short parts = true →
  admits L parts = true ↔ ∃ p, p ∈ listing (len parts) ∧ parts = word L <$> phrase_ids (len parts) p.
Proof.
  intros Hs. unfold short in Hs. split.
  - unfold admits. destruct (mapM _ parts) as [ids|] eqn:Hm; [|done]. apply mapM_Some_1 in Hm.
    assert (Hlt : parts = word L <$> ids ∧ Forall (λ i, (i < size L)%nat) ids).
    { clear Hs. induction Hm as [|w i ws ids Hw Hall [-> IH]]; [done|]. apply wordIndex_word in Hw. split.
      - cbn. by rewrite (word_lookup L i w Hw).
      - constructor; [by apply lookup_lt_Some in Hw|done]. }
    destruct Hlt as [-> Hlt]. unfold len in *. rewrite length_fmap in *.
    destruct ids as [|a [|b [|c [|d ids]]]]; cbn in Hs; try done; intros Hh; cbn [length Z.of_nat].
    + exists (a, 0%nat, b). split; [|done]. apply elem_of_listing. rewrite elem_of_prefix_ids.
      split; [|exact Hh]. split; [|done]. by apply Forall_cons in Hlt as [? _].
    + exists (a, b, c). split; [|done]. apply elem_of_listing. rewrite elem_of_prefix_ids.
      apply Forall_cons in Hlt as [Ha Hlt]. apply Forall_cons in Hlt as [Hb _]. split; [|exact Hh].
      split; [done|]. split; [|done]. unfold described. destruct (adjective _ =? 0) eqn:E; [|done].
      unfold heads in Hh. rewrite E in Hh. cbn [orb] in Hh. by rewrite has_none in Hh.
  - intros ([[a b] c] & Hp & Hparts). pose proof (phrase_ids_lt _ _ Hp) as Hlt. unfold admits. rewrite Hparts at 1.
    rewrite mapM_wordIndex by done. apply elem_of_listing in Hp as [_ Hh]. unfold heads_of, phrase_ids in *. cbn [fst snd] in *.
    by destruct (len parts =? 3).
Qed.

(** ** Composed names *)

Lemma admits_shaped parts : admits L parts = true → Forall shaped parts.
Proof.
  unfold admits. destruct (mapM _ parts) as [ids|] eqn:Hm; [|done]. intros _. apply mapM_Some_1 in Hm.
  induction Hm as [|w i ws ids Hw Hall IH]; constructor; [|done]. apply wordIndex_word in Hw.
  by apply (Forall_lookup_1 _ _ _ _ (ok_shape _ HL) Hw).
Qed.

Lemma pool_spec cands :
  (pool L cands).1 = Join <$> filter (λ ps, admits L ps) cands ∧
  ∀ t, is_Some ((pool L cands).2 !! t) ↔ t ∈ (pool L cands).1.
Proof.
  unfold pool. induction cands as [|ps cands [IH1 IH2]] using rev_ind.
  { cbn. split; [done|]. intros t. rewrite lookup_empty, elem_of_nil. split; [by intros []|done]. }
  rewrite foldl_snoc, filter_app, fmap_app. unfold pool_step at 1 3 5. destruct (admits L ps) eqn:Ha; cbn [fst snd].
  - rewrite filter_cons_True by (by rewrite Ha). cbn. split; [by rewrite IH1|]. intros t.
    rewrite elem_of_app, list_elem_of_singleton, <- IH2. destruct (decide (Join ps = t)) as [<-|Hne].
    + rewrite lookup_insert_eq. naive_solver.
    + rewrite lookup_insert_ne by done. naive_solver.
  - rewrite filter_cons_False by (rewrite Ha; by intros []). cbn. by rewrite app_nil_r.
Qed.

(** The word lists a group of a name of [count] words may hold. *)
Definition candidates (count : Z) (i : nat) : list (list string) :=
  match composedPalettes L !! i with
  | None => []
  | Some p => if (i =? 0)%nat && (count mod 2 =? 1) then triple_candidates p else pair_candidates p
  end.
Definition group_parts (count : Z) (i : nat) : list (list string) := filter (λ ps, admits L ps) (candidates count i).

Lemma group_spec count i :
  group_pool L count i = Join <$> group_parts count i ∧
  ∀ t, is_Some (group_lookup L count i !! t) ↔ t ∈ group_pool L count i.
Proof.
  unfold group_pool, group_lookup, group_parts, candidates, group_at, composedGroups.
  destruct (composedPalettes L !! i) as [p|] eqn:Hp.
  - rewrite (nth_lookup_Some _ _ _ (build_group L i p)) by (by rewrite list_lookup_imap, Hp).
    unfold build_group. destruct (i =? 0)%nat; cbn [andb group_triples group_pairs tripleRanks pairRanks]; [|apply pool_spec].
    destruct (count mod 2 =? 1); apply pool_spec.
  - rewrite nth_overflow by (rewrite length_imap; by apply lookup_ge_None).
    case_if; cbn; split; try done; intros t; rewrite lookup_empty, elem_of_nil; (split; [by intros []|done]).
Qed.

Lemma group_parts_ok count i ps :
  ps ∈ group_parts count i → length ps = group_width count i ∧ Forall shaped ps ∧ ps ≠ [].
Proof.
  unfold group_parts, candidates, group_width. rewrite list_elem_of_filter, Is_true_true. intros [Ha%admits_shaped Hin].
  destruct (composedPalettes L !! i) as [p|]; [|by apply not_elem_of_nil in Hin].
  case_if; unfold triple_candidates, pair_candidates in Hin; repeat setoid_rewrite list_elem_of_bind in Hin.
  - destruct Hin as (a & (b & (c & ->%list_elem_of_singleton & _) & _) & _). done.
  - destruct Hin as (a & (b & ->%list_elem_of_singleton & _) & _). done.
Qed.

Lemma NoDup_group_parts count i : NoDup (group_parts count i).
Proof.
  unfold group_parts. apply NoDup_filter. unfold candidates. destruct (composedPalettes L !! i) as [p|] eqn:Hp; [|constructor].
  destruct (Forall_lookup_1 _ _ _ _ (ok_palettes _ HL) Hp) as [Hm Hs].
  assert (Hpairs : ∀ (f : string → list string) (l : list string), NoDup l → (∀ b b', f b = f b' → b = b') →
    NoDup (l ≫= λ b, [f b])).
  { intros f l Hl Hf. apply NoDup_bind; [|intros; apply NoDup_singleton|done].
    intros b b' y _ _ ->%list_elem_of_singleton E%list_elem_of_singleton. by apply Hf. }
  case_if; unfold triple_candidates, pair_candidates.
  - apply NoDup_bind; [|intros a _|done].
    + intros a a' y _ _. repeat setoid_rewrite list_elem_of_bind.
      intros (b & (c & ->%list_elem_of_singleton & _) & _) (b' & (c' & [= -> _ _]%list_elem_of_singleton & _) & _). done.
    + apply NoDup_bind; [|intros b _|done].
      * intros b b' y _ _. repeat setoid_rewrite list_elem_of_bind.
        intros (c & ->%list_elem_of_singleton & _) (c' & [= -> _]%list_elem_of_singleton & _). done.
      * apply (Hpairs (λ c, [a; b; c])); [done|]. by intros c c' [= ->].
  - apply NoDup_bind; [|intros a _|done].
    + intros a a' y _ _. repeat setoid_rewrite list_elem_of_bind.
      intros (b & ->%list_elem_of_singleton & _) (b' & [= -> _]%list_elem_of_singleton & _). done.
    + apply (Hpairs (λ b, [a; b])); [done|]. by intros b b' [= ->].
Qed.

Lemma Join_parts_inj count i ps qs :
  ps ∈ group_parts count i → qs ∈ group_parts count i → Join ps = Join qs → ps = qs.
Proof.
  intros (_ & Hp & Hpn)%group_parts_ok (_ & Hq & Hqn)%group_parts_ok.
  apply Join_inj; [done|done|by apply shaped_all_hyphen_free..].
Qed.

(** *** Mixed radix *)

Definition weight (count : Z) (ids : list nat) : Z := foldr (λ i w, len (group_pool L count i) * w) 1 ids.

Lemma weight_nonneg count ids : 0 <= weight count ids.
Proof. induction ids as [|i ids IH]; cbn; [lia|]. pose proof (len_nonneg (group_pool L count i)). fold (weight count ids). nia. Qed.

Lemma weight_rev count ids : weight count (rev ids) = foldl (λ c i, c * len (group_pool L count i)) 1 ids.
Proof.
  induction ids as [|i ids IH] using rev_ind; [done|]. rewrite rev_app_distr, foldl_snoc, <- IH. cbn. fold (weight count (rev ids)). lia.
Qed.

(** The selected phrases are one of each group. *)
Lemma select_spec count ids rank acc :
  0 <= rank < weight count ids →
  ∃ pss, select L count ids rank acc = (Join <$> rev pss) ++ acc ∧ Forall2 (λ i ps, ps ∈ group_parts count i) ids pss.
Proof.
  revert rank acc. induction ids as [|i ids IH]; intros rank acc Hr; cbn [select].
  { by exists []. }
  cbn [weight foldr] in Hr. fold (weight count ids) in Hr. set (n := len (group_pool L count i)) in *.
  assert (Hn : 0 < n).
  { pose proof (len_nonneg (group_pool L count i)) as Hnn. fold n in Hnn. destruct (Z.eq_dec n 0) as [En|]; [rewrite En in Hr; lia|lia]. }
  pose proof (weight_nonneg count ids). rewrite Z.quot_div_nonneg, Z.rem_mod_nonneg by lia.
  destruct (group_spec count i) as [Hpool _].
  assert (Hk : (Z.to_nat (rank mod n) < length (group_pool L count i))%nat).
  { pose proof (Z.mod_pos_bound rank n Hn). unfold n, len in *. lia. }
  destruct (lookup_lt_is_Some_2 _ _ Hk) as [t Ht]. rewrite (nth_lookup_Some _ _ _ t Ht).
  rewrite Hpool, list_lookup_fmap in Ht. destruct (group_parts count i !! _) as [ps|] eqn:Hps; [|done]. injection Ht as <-.
  apply list_elem_of_lookup_2 in Hps.
  destruct (IH (rank / n) (Join ps :: acc)) as (pss & Hsel & Hall).
  { split; [apply Z.div_pos; lia|]. apply Z.div_lt_upper_bound; lia. }
  exists (ps :: pss). split; [|by constructor]. rewrite Hsel. cbn [rev]. rewrite fmap_app, <- app_assoc. done.
Qed.

Lemma select_inj count ids r r' acc acc' :
  length acc = length acc' → 0 <= r < weight count ids → 0 <= r' < weight count ids →
  select L count ids r acc = select L count ids r' acc' → r = r' ∧ acc = acc'.
Proof.
  revert r r' acc acc'. induction ids as [|i ids IH]; intros r r' acc acc' Hl Hr Hr'; cbn [select].
  { cbn in Hr, Hr'. intros ->. split; [lia|done]. }
  cbn [weight foldr] in Hr, Hr'. fold (weight count ids) in Hr, Hr'. set (n := len (group_pool L count i)) in *.
  assert (Hn : 0 < n).
  { pose proof (len_nonneg (group_pool L count i)) as Hnn. fold n in Hnn. destruct (Z.eq_dec n 0) as [En|]; [rewrite En in Hr; lia|lia]. }
  pose proof (weight_nonneg count ids). rewrite !Z.quot_div_nonneg, !Z.rem_mod_nonneg by lia.
  intros E. apply IH in E as [Hq [= Ht Hacc]].
  - split; [|done]. pose proof (Z.mod_pos_bound r n Hn). pose proof (Z.mod_pos_bound r' n Hn).
    rewrite (Z.div_mod r n), (Z.div_mod r' n) by lia. rewrite Hq. f_equal.
    apply Z2Nat.inj; [lia|lia|]. eapply NoDup_nth; [| | |exact Ht]; [|unfold n, len in *; lia..].
    apply NoDup_ListNoDup. rewrite (proj1 (group_spec count i)). apply NoDup_fmap_2_strong; [|apply NoDup_group_parts].
    intros ps qs. apply Join_parts_inj.
  - cbn. by rewrite Hl.
  - split; [apply Z.div_pos; lia|]. apply Z.div_lt_upper_bound; lia.
  - split; [apply Z.div_pos; lia|]. apply Z.div_lt_upper_bound; lia.
Qed.

Lemma select_surj count ids pss acc :
  Forall2 (λ i ps, ps ∈ group_parts count i) ids pss →
  ∃ r, 0 <= r < weight count ids ∧ select L count ids r acc = (Join <$> rev pss) ++ acc.
Proof.
  intros H. revert acc. induction H as [|i ps ids pss Hps Hall IH]; intros acc; cbn [select].
  { exists 0. by split; [cbn; lia|]. }
  destruct (IH (Join ps :: acc)) as (r & Hr & Hsel). apply list_elem_of_lookup_1 in Hps as [k Hk].
  destruct (group_spec count i) as [Hpool _].
  assert (Hkt : group_pool L count i !! k = Some (Join ps)) by (by rewrite Hpool, list_lookup_fmap, Hk).
  pose proof (lookup_lt_Some _ _ _ Hkt) as Hkl. set (n := len (group_pool L count i)).
  assert (Hkn : 0 <= Z.of_nat k < n) by (unfold n, len; lia).
  exists (r * n + Z.of_nat k). cbn [weight foldr]. fold (weight count ids). fold n. split; [nia|].
  rewrite Z.quot_div_nonneg, Z.rem_mod_nonneg by nia.
  replace ((r * n + Z.of_nat k) / n) with r by (apply Z.div_unique with (r := Z.of_nat k); lia).
  replace ((r * n + Z.of_nat k) mod n) with (Z.of_nat k) by (apply Z.mod_unique with (q := r); lia).
  rewrite Nat2Z.id, (nth_lookup_Some _ _ _ (Join ps)) by done. rewrite Hsel. cbn [rev]. rewrite fmap_app, <- app_assoc. done.
Qed.

(** *** The groups of a name *)

Definition widths (count : Z) (ids : list nat) : nat := foldr (λ i n, group_width count i + n)%nat O ids.

Lemma widths_ids count : 2 <= count → widths count (group_ids count) = Z.to_nat count.
Proof.
  intros Hc. unfold group_ids.
  assert (Hpairs : ∀ n a, widths count (seq (S a) n) = (2 * n)%nat).
  { induction n as [|n IH]; intros a; cbn [seq widths foldr]; [lia|]. fold (widths count (seq (S (S a)) n)). rewrite IH.
    unfold group_width. cbn [Nat.eqb andb]. lia. }
  destruct (Z.to_nat (count / 2)) as [|k] eqn:Ek; [ilia|]. cbn [seq widths foldr]. fold (widths count (seq 1 k)).
  rewrite Hpairs. unfold group_width. cbn [Nat.eqb andb]. destruct (Z.eqb_spec (count mod 2) 1); ilia.
Qed.

Lemma length_groups count ids pss :
  Forall2 (λ i ps, ps ∈ group_parts count i) ids pss → length (concat pss) = widths count ids.
Proof.
  induction 1 as [|i ps ids pss Hps Hall IH]; cbn; [done|]. rewrite length_app, IH.
  by destruct (group_parts_ok _ _ _ Hps) as [-> _].
Qed.

Lemma groups_shaped count ids pss :
  Forall2 (λ i ps, ps ∈ group_parts count i) ids pss → Forall shaped (concat pss) ∧ Forall (λ ps, ps ≠ []) pss.
Proof.
  induction 1 as [|i ps ids pss Hps Hall [IH1 IH2]]; cbn; [done|].
  destruct (group_parts_ok _ _ _ Hps) as (_ & Hs & Hne). split; [by apply Forall_app|by constructor].
Qed.

(** The parser's loop accepts the concatenated groups... *)
Lemma composed_offset_groups parts ids pss offset :
  Forall2 (λ i ps, ps ∈ group_parts (len parts) i) ids pss → drop offset parts = concat pss →
  composed_offset L parts ids offset = Some (offset + length (concat pss))%nat.
Proof.
  intros H. revert offset. induction H as [|i ps ids pss Hps Hall IH]; intros offset Hd; cbn [composed_offset concat].
  { cbn. by rewrite Nat.add_0_r. }
  destruct (group_parts_ok _ _ _ Hps) as (Hw & _ & _). cbn [concat] in Hd.
  assert (Hs : slice parts offset (offset + group_width (len parts) i) = ps).
  { unfold slice. rewrite Hd, <- Hw. replace (offset + length ps - offset)%nat with (length ps) by lia. apply take_app_length. }
  rewrite Hs. destruct (group_spec (len parts) i) as [Hpool Hlook].
  destruct (proj2 (Hlook (Join ps))) as [r ->].
  { rewrite Hpool. by apply list_elem_of_fmap_2. }
  rewrite IH; [rewrite length_app, Hw; f_equal; lia|]. rewrite <- drop_drop, Hd, <- Hw. apply drop_app_length.
Qed.

(** ... and only them. *)
Lemma groups_of_offset parts ids offset e :
  Forall hyphen_free parts → length parts = (offset + widths (len parts) ids)%nat →
  composed_offset L parts ids offset = Some e →
  ∃ pss, Forall2 (λ i ps, ps ∈ group_parts (len parts) i) ids pss ∧ drop offset parts = concat pss.
Proof.
  intros Hfree. revert offset. induction ids as [|i ids IH]; intros offset Hl; cbn [composed_offset widths foldr] in *.
  { intros _. exists []. split; [constructor|]. cbn. apply drop_ge. lia. }
  fold (widths (len parts) ids) in Hl. set (w := group_width (len parts) i) in *.
  destruct (group_lookup L (len parts) i !! _) eqn:Hlk; [|done]. intros Hrest.
  destruct (IH (offset + w)%nat ltac:(lia) Hrest) as (pss & Hall & Hd).
  destruct (group_spec (len parts) i) as [Hpool Hlook]. pose proof (proj1 (Hlook _) (mk_is_Some _ _ Hlk)) as Hin.
  rewrite Hpool in Hin. apply list_elem_of_fmap in Hin as (ps & Hj & Hps).
  destruct (group_parts_ok _ _ _ Hps) as (Hw & Hsh & Hne).
  assert (Hslice : length (slice parts offset (offset + w)) = w) by (rewrite length_slice; lia).
  assert (Hw0 : (0 < w)%nat) by (unfold w, group_width; case_if; lia).
  apply Join_inj in Hj; [|by intros E; rewrite E in Hslice; cbn in Hslice; lia|done|by apply Forall_slice|by apply shaped_all_hyphen_free].
  exists (ps :: pss). split; [by constructor|]. cbn [concat]. rewrite <- Hj, <- Hd. rewrite (drop_slice parts offset (offset + w)) by lia. done.
Qed.

(** ** Indexing and parsing *)

Lemma Forall2_rev {A B} (P : A → B → Prop) l k : Forall2 P l k → Forall2 P (rev l) (rev k).
Proof. induction 1; cbn; [constructor|]. apply Forall2_app; [done|by repeat constructor]. Qed.

Lemma capacity_cases count :
  CapacityBig L count =
    if (count =? 2) || (count =? 3) then len (listing count)
    else if (4 <=? count) && (count <=? 15) then weight count (rev (group_ids count)) else 0.
Proof.
  unfold CapacityBig, MinWordCount, MaxWordCount. rewrite weight_rev.
  destruct (Z.ltb_spec count 2), (Z.gtb_spec count 15); cbn [orb];
    destruct (Z.eqb_spec count 2), (Z.eqb_spec count 3), (Z.leb_spec 4 count), (Z.leb_spec count 15), (Z.leb_spec count 3);
    cbn [orb andb]; try lia; try done; apply phraseCapacity_listing; lia.
Qed.

(** The name at an index in range: the words of one phrase of the listing, or of
    one phrase of each group. *)
Lemma at_big_cases index count n :
  AtBig L (Some index) count = Ok n →
  2 <= count <= 15 ∧ 0 <= index < CapacityBig L count ∧ nWordCount n = count ∧
  ∃ parts, nText n = Join parts ∧ len parts = count ∧ Forall shaped parts ∧
    valid_parts L (nGrammar n) parts = true ∧ nGrammar n = if count <=? 3 then GrammarName else ComposedGrammarName.
Proof.
  unfold AtBig. pose proof (capacity_cases count) as Hcap. case_if; [done|].
  destruct ((index <? 0) || (index >=? CapacityBig L count)) eqn:Hr; [done|].
  apply orb_false_iff in Hr as [Hr1%Z.ltb_ge Hr2]. rewrite Z.geb_leb in Hr2. apply Z.leb_gt in Hr2. apply Z.eqb_neq in E.
  destruct (Z.leb_spec count 3) as [Hle|Hgt].
  - destruct ((count =? 2) || (count =? 3)) eqn:Hc; [|destruct (Z.leb_spec 4 count); [lia|by rewrite Hcap in E]].
    assert (Hc' : count = 2 ∨ count = 3) by (apply orb_true_iff in Hc as [?%Z.eqb_eq|?%Z.eqb_eq]; lia).
    rewrite phraseAt_listing by done. rewrite Hcap in *. rewrite (proj2 (Z.eqb_neq _ _)) by done.
    destruct (listing count !! Z.to_nat index) as [p|] eqn:Hp; [|done]. intros [= <-]. cbn [nWordCount nText nGrammar].
    apply list_elem_of_lookup_2 in Hp. pose proof (phrase_ids_lt _ _ Hp) as Hids.
    split_and!; [lia..|done|]. exists (word L <$> phrase_ids count p).
    assert (Hlen : len (word L <$> phrase_ids count p) = count).
    { unfold len. rewrite length_fmap. unfold phrase_ids. destruct Hc' as [-> | ->]; done. }
    split_and!; [done|done|by apply words_shaped| |done].
    assert (Hs : short (word L <$> phrase_ids count p) = true) by (unfold short; by rewrite Hlen).
    unfold valid_parts. rewrite bool_decide_true by done. rewrite Hs. cbn [andb].
    apply admits_listing; [done|]. rewrite Hlen. by exists p.
  - rewrite (proj2 (Z.eqb_neq _ 2)), (proj2 (Z.eqb_neq _ 3)) in Hcap by lia. cbn [orb] in Hcap.
    destruct ((4 <=? count) && (count <=? 15)) eqn:Hc; [|by rewrite Hcap in E].
    apply andb_true_iff in Hc as [_ H15%Z.leb_le]. intros [= <-]. cbn [nWordCount nText nGrammar]. split_and!; [lia..|done|].
    destruct (select_spec count (rev (group_ids count)) index []) as (pss & Hsel & Hall); [lia|].
    rewrite Hsel, app_nil_r. apply Forall2_rev in Hall. rewrite rev_involutive in Hall.
    destruct (groups_shaped _ _ _ Hall) as [Hsh Hne]. pose proof (length_groups _ _ _ Hall) as Hlen.
    rewrite widths_ids in Hlen by lia. rewrite Join_concat by done.
    assert (Hl : len (concat (rev pss)) = count) by (unfold len; lia).
    exists (concat (rev pss)). split_and!; [done|done|done| |done].
    unfold valid_parts. rewrite bool_decide_false, bool_decide_true by done. unfold parseComposed. rewrite Hl.
    destruct (Z.ltb_spec count 4); [lia|]. unfold MaxWordCount. destruct (Z.gtb_spec count 15); [lia|]. cbn [orb].
    rewrite (composed_offset_groups _ _ (rev pss)); [|by rewrite Hl|done]. rewrite Nat.add_0_l. apply Z.eqb_eq. exact Hl.
Qed.

Lemma at_big_parses index count n :
  AtBig L (Some index) count = Ok n → ParseStored L (nGrammar n) (nText n) = Ok n.
Proof.
  intros (Hc & _ & Hn & parts & Ht & Hl & Hs & Hv & _)%at_big_cases. unfold ParseStored. rewrite Ht.
  destruct (Normalize_Join parts Hs ltac:(lia)) as [-> ->]. rewrite Hv, Hl, <- Ht, <- Hn. by destruct n.
Qed.

Lemma at_big_eq index count :
  0 <= index < CapacityBig L count →
  AtBig L (Some index) count =
    if count <=? 3 then phraseAt L index count
    else Ok (mkName (Join (select L count (rev (group_ids count)) index [])) ComposedGrammarName count).
Proof.
  intros Hi. unfold AtBig. rewrite (proj2 (Z.eqb_neq _ 0)) by lia. rewrite (proj2 (Z.ltb_ge index 0)) by lia.
  by rewrite Z.geb_leb, (proj2 (Z.leb_gt _ index)) by lia.
Qed.

Lemma at_big_in_range index count :
  0 <= index < CapacityBig L count → ∃ n, AtBig L (Some index) count = Ok n.
Proof.
  intros Hi. rewrite at_big_eq by done. destruct (Z.leb_spec count 3); [|by eexists].
  pose proof (capacity_cases count) as Hcap. destruct ((count =? 2) || (count =? 3)) eqn:Hc.
  - rewrite phraseAt_listing by (apply orb_true_iff in Hc as [?%Z.eqb_eq|?%Z.eqb_eq]; lia).
    rewrite (proj2 (Z.eqb_neq _ 0)) by lia. destruct (lookup_lt_is_Some_2 (listing count) (Z.to_nat index)) as [p ->]; [|by eexists].
    unfold len in Hcap. lia.
  - destruct (Z.leb_spec 4 count); [lia|]. cbn [andb] in Hcap. lia.
Qed.

Lemma at_big_inj i j count n n' :
  AtBig L (Some i) count = Ok n → AtBig L (Some j) count = Ok n' → nText n = nText n' → i = j.
Proof.
  intros Hi Hj E. pose proof (at_big_cases _ _ _ Hi) as (Hc & Hri & _). pose proof (at_big_cases _ _ _ Hj) as (_ & Hrj & _).
  pose proof (capacity_cases count) as Hcap. rewrite at_big_eq in Hi by done. rewrite at_big_eq in Hj by done.
  destruct (Z.leb_spec count 3) as [Hle|Hgt].
  - assert (Hc' : count = 2 ∨ count = 3) by lia.
    assert (Hor : (count =? 2) || (count =? 3) = true) by (destruct Hc' as [-> | ->]; done). rewrite Hor in Hcap.
    rewrite phraseAt_listing in Hi by (done || lia). rewrite phraseAt_listing in Hj by (done || lia).
    rewrite (proj2 (Z.eqb_neq _ 0)) in Hi, Hj by lia.
    destruct (listing count !! Z.to_nat i) as [p|] eqn:Hp; [|done]. destruct (listing count !! Z.to_nat j) as [q|] eqn:Hq; [|done].
    injection Hi as <-. injection Hj as <-. cbn [nText] in E.
    apply phrase_text_inj in E; [|done|by eapply list_elem_of_lookup_2..]. subst q.
    pose proof (NoDup_lookup _ _ _ _ (NoDup_listing count) Hp Hq). lia.
  - rewrite (proj2 (Z.eqb_neq _ 2)), (proj2 (Z.eqb_neq _ 3)), (proj2 (Z.leb_le 4 _)), (proj2 (Z.leb_le _ 15)) in Hcap by lia.
    cbn [orb andb] in Hcap. injection Hi as <-. injection Hj as <-. cbn [nText] in E.
    destruct (select_spec count (rev (group_ids count)) i []) as (pss & Hs & Hall); [lia|].
    destruct (select_spec count (rev (group_ids count)) j []) as (qss & Hs' & Hall'); [lia|].
    apply (select_inj count (rev (group_ids count)) i j [] []); [done|lia|lia|].
    rewrite Hs, Hs' in E |- *. rewrite !app_nil_r in *. f_equal.
    apply Forall2_rev in Hall, Hall'. rewrite rev_involutive in Hall, Hall'.
    destruct (groups_shaped _ _ _ Hall) as [Hsh Hne]. destruct (groups_shaped _ _ _ Hall') as [Hsh' Hne'].
    rewrite !Join_concat in E by done.
    pose proof (length_groups _ _ _ Hall) as Hl. pose proof (length_groups _ _ _ Hall') as Hl'. rewrite widths_ids in Hl, Hl' by lia.
    apply Join_inj in E; [|by intros E0; rewrite E0 in *; cbn in *; lia..|by apply shaped_all_hyphen_free|by apply shaped_all_hyphen_free].
    revert E Hall Hall'. generalize (group_ids count) (rev pss) (rev qss). clear -HL.
    intros ids pss qss E Hall. revert qss E. induction Hall as [|k ps ids pss Hps Hall IH]; intros qss E Hall'.
    + by inversion Hall'.
    + inversion Hall' as [|k' qs ids' qss' Hqs Hrest]; subst. cbn in E.
      destruct (group_parts_ok _ _ _ Hps) as (Hw & _). destruct (group_parts_ok _ _ _ Hqs) as (Hw' & _).
      apply app_inj_1 in E as [-> E]; [|congruence]. f_equal. by apply IH.
Qed.

(** Every name the current grammars accept has an index. *)
Lemma parse_has_index grammar text n :
  grammar = GrammarName ∨ grammar = ComposedGrammarName → ParseStored L grammar text = Ok n →
  ∃ index, AtBig L (Some index) (nWordCount n) = Ok n.
Proof.
  unfold ParseStored. intros Hg. destruct (Normalize text) as [value|] eqn:Hnorm; [|done].
  destruct (valid_parts L grammar (Split value)) eqn:Hv; [|done]. intros [= <-]. cbn [nWordCount].
  set (parts := Split value) in *. pose proof (Join_Split value) as Hval. fold parts in Hval. rewrite <- Hval.
  destruct Hg as [-> | ->]; unfold valid_parts in Hv.
  - rewrite bool_decide_true in Hv by done. apply andb_true_iff in Hv as [Hs Ha].
    pose proof Hs as Hc. unfold short in Hc. assert (Hc' : len parts = 2 ∨ len parts = 3).
    { apply orb_true_iff in Hc as [?%Z.eqb_eq|?%Z.eqb_eq]; lia. }
    apply admits_listing in Ha as (p & Hp & Hparts); [|done]. apply list_elem_of_lookup_1 in Hp as [k Hk].
    pose proof (lookup_lt_Some _ _ _ Hk) as Hlt. pose proof (capacity_cases (len parts)) as Hcap. rewrite Hc in Hcap.
    assert (Hkl : Z.of_nat k < len (listing (len parts))).
    { change (Z.of_nat k < Z.of_nat (length (listing (len parts)))). lia. }
    exists (Z.of_nat k). rewrite at_big_eq by lia.
    rewrite (proj2 (Z.leb_le _ 3)), phraseAt_listing by (done || lia). rewrite Nat2Z.id, Hk.
    rewrite (proj2 (Z.eqb_neq _ 0)) by lia. unfold phrase_text. by rewrite <- Hparts.
  - rewrite bool_decide_false, bool_decide_true in Hv by done. unfold parseComposed, MaxWordCount in Hv.
    destruct (Z.ltb_spec (len parts) 4) as [|H4]; [done|]. destruct (Z.gtb_spec (len parts) 15) as [|H15]; [done|]. cbn [orb] in Hv.
    destruct (composed_offset L parts (group_ids (len parts)) 0) as [e|] eqn:Hoff; [|done].
    destruct (groups_of_offset parts (group_ids (len parts)) 0 e) as (pss & Hall & Hd); [apply Split_hyphen_free| |done|].
    { rewrite widths_ids by lia. unfold len. lia. }
    rewrite drop_0 in Hd. pose proof (Forall2_rev _ _ _ Hall) as Hrev.
    destruct (select_surj _ _ _ [] Hrev) as (r & Hr & Hsel). rewrite rev_involutive, app_nil_r in Hsel.
    pose proof (capacity_cases (len parts)) as Hcap.
    rewrite (proj2 (Z.eqb_neq _ 2)), (proj2 (Z.eqb_neq _ 3)), (proj2 (Z.leb_le 4 _)), (proj2 (Z.leb_le _ 15)) in Hcap by lia.
    cbn [orb andb] in Hcap. exists r. rewrite at_big_eq by lia. rewrite (proj2 (Z.leb_gt _ 3)) by lia. rewrite Hsel.
    destruct (groups_shaped _ _ _ Hall) as [_ Hne]. by rewrite Join_concat, Hd by done.
Qed.
End Theory.

(** ** The English tables *)

(** No two words of a list are equal. *)
Fixpoint distinct (l : list string) : bool :=
  match l with
  | [] => true
  | w :: l' => negb (existsb (String.eqb w) l') && distinct l'
  end.

Lemma distinct_NoDup l : distinct l = true → NoDup l.
Proof.
  induction l as [|w l IH]; cbn; [constructor|]. intros [Hw Hl]%andb_true_iff. constructor; [|by apply IH].
  intros Hin%list_elem_of_In. apply negb_true_iff in Hw. rewrite <- not_true_iff_false, existsb_exists in Hw. apply Hw.
  exists w. split; [done|]. apply String.eqb_refl.
Qed.

Lemma NoDup_wordIndex L : NoDup (words L) → ∀ i w, words L !! i = Some w → wordIndex L !! w = Some i.
Proof.
  intros Hnd i w Hi. destruct (wordIndex L !! w) as [j|] eqn:Hj.
  - apply wordIndex_word in Hj. f_equal. by eapply NoDup_lookup.
  - exfalso. revert Hj. assert (Hin : (i, w) ∈ imap pair (words L)) by (apply elem_of_lookup_imap; eauto). revert Hin.
    unfold wordIndex. induction (imap pair (words L)) as [|[j v] l IH] using rev_ind; [by intros ?%not_elem_of_nil|].
    rewrite foldl_snoc, lookup_insert_None, elem_of_app, list_elem_of_singleton. naive_solver.
Qed.

Definition shape_check (w : string) : bool :=
  (3 <=? String.length w)%nat && (String.length w <=? 8)%nat && forallb is_lower (chars w).

Definition lex_check (L : lexicon) : bool :=
  distinct (words L) && forallb shape_check (words L) && (length (words L) <=? 1023)%nat &&
  forallb (λ p, distinct (Fields (modifiers p)) && distinct (Fields (subjects p))) (composedPalettes L).

Lemma lex_check_ok L : lex_check L = true → lex_ok L.
Proof.
  intros H. apply andb_true_iff in H as [H Hpal]. apply andb_true_iff in H as [H Hsize].
  apply andb_true_iff in H as [Hd Hshape]. split.
  - apply NoDup_wordIndex. by apply distinct_NoDup.
  - apply Forall_forall. intros w Hw%list_elem_of_In. rewrite forallb_forall in Hshape. apply Hshape in Hw.
    unfold shape_check in Hw. apply andb_true_iff in Hw as [Hw ?]. apply andb_true_iff in Hw as [?%Nat.leb_le ?%Nat.leb_le]. done.
  - by apply Nat.leb_le.
  - apply Forall_forall. intros p Hp%list_elem_of_In. rewrite forallb_forall in Hpal. apply Hpal in Hp.
    apply andb_true_iff in Hp as [??]. split; by apply distinct_NoDup.
Qed.

Lemma english_ok : lex_ok english.
Proof. apply lex_check_ok. vm_compute. reflexivity. Qed.

(** C7: Indexing and parsing the readable names are inverse.  For 2 to 15 words,
    an index below the capacity gives a name of that many words which the parser
    of its grammar accepts and leaves unchanged; any other index is refused. *)
Theorem names_roundtrip index count :
  match AtBig english (Some index) count with
  | Ok n => 2 <= count <= 15 ∧ 0 <= index < CapacityBig english count ∧ nWordCount n = count ∧
            ParseStored english (nGrammar n) (nText n) = Ok n
  | Err e => ¬ 0 <= index < CapacityBig english count
  end.
Proof.
  destruct (AtBig english (Some index) count) as [n|e] eqn:E.
  - pose proof (at_big_cases _ english_ok _ _ _ E) as (Hc & Hr & Hw & _).
    split_and!; [lia..|exact Hw|exact (at_big_parses _ english_ok _ _ _ E)].
  - intros Hr. destruct (at_big_in_range _ english_ok _ _ Hr) as [n En]. congruence.
Qed.

(** The readable names are an enumeration.  Two indices never give the same
    text, and every text the two current grammars accept is the name at some
    index. *)
Theorem names_bijection :
  (∀ i j count n n', AtBig english (Some i) count = Ok n → AtBig english (Some j) count = Ok n' →
     nText n = nText n' → i = j) ∧
  (∀ grammar text n, grammar = GrammarName ∨ grammar = ComposedGrammarName →
     ParseStored english grammar text = Ok n → ∃ index, AtBig english (Some index) (nWordCount n) = Ok n).
Proof.
  split.
  - intros i j count n n'. apply (at_big_inj _ english_ok).
  - intros grammar text n. apply (parse_has_index _ english_ok).
Qed.
End Names.
