(* ===== verification/PhraseRule.v ===== *)
(** The editorial rule of the readable names.  [Names.admits] tests bitsets built
    once from the tables of [Lexicon]; here the same decision is written on the
    words themselves, and the two are proved equal. *)

From S2P Require Export Names.

Module PhraseRule.
Export Names.

Section Rule.
Context (L : lexicon).

Definition listed (w : string) (text : string) : bool := contains_word (Fields text) w.

(** The families a word has in a table. *)
Definition families (groups : list lexicalGroup) (w : string) : Z :=
  foldl (λ f g, if listed w (group_words g) then Z.lor f (family g) else f) 0 groups.

Definition is_entry (entry u v : string) : bool :=
  String.eqb (nth 0 (Fields entry) "") u && String.eqb (nth 1 (Fields entry) "") v.

(** Two words that must not meet in one name. *)
Definition confusable (u v : string) : bool :=
  existsb (λ g, listed u g && listed v g) (confusableGroups L) ||
  existsb (λ e, is_entry e u v || is_entry e v u) (disallowedPairs L).
Definition agree (u v : string) : bool := negb (String.eqb u v) && negb (confusable u v).

Definition specific (u v : string) : bool :=
  existsb (λ e, String.eqb e.1 u && listed v e.2) (specificAdjectiveHeads L).
Definition overlap (f g : Z) : bool := negb (Z.land f g =? 0).
Definition adjective_head (u v : string) : bool :=
  agree u v && overlap (families (adjectiveGroups L) u) (families (nounGroups L) v) || specific u v.
Definition modifier_head (u v : string) : bool :=
  agree u v && overlap (families (modifierGroups L) u) (families (nounGroups L) v).
Definition adjectival (u : string) : bool :=
  negb (families (adjectiveGroups L) u =? 0) || existsb (λ e, String.eqb e.1 u) (specificAdjectiveHeads L).
Definition qualifies (u v : string) : bool := existsb (λ e, is_entry e u v) (qualifierPairs L).
Definition known (w : string) : bool := contains_word (words L) w.

(** The rule: a head described by an adjective or a noun modifier, in at most 24
    bytes; with three words the adjective is one of the reviewed palette before a
    modifier, or the first two words are a reviewed pair of adjectives. *)
Definition phrase_rule (parts : list string) : bool :=
  forallb known parts && (String.length (Join parts) <=? MaxPhraseBytes)%nat &&
  match parts with
  | [u; v] => agree u v && (adjective_head u v || modifier_head u v)
  | [u; v; w] =>
    agree u v && agree u w && agree v w && adjectival u && listed w (tripleHeads L) &&
    (listed u (tripleAdjectives L) && adjective_head u w && modifier_head v w ||
     qualifies u v && adjective_head u w && adjective_head v w)
  | _ => false
  end.

(** Every word the tables mention is in the vocabulary, and every pair has two. *)
Definition mentioned : list string :=
  (nounGroups L ≫= λ g, Fields (group_words g)) ++ (adjectiveGroups L ≫= λ g, Fields (group_words g)) ++
  (modifierGroups L ≫= λ g, Fields (group_words g)) ++ (confusableGroups L ≫= Fields) ++
  (disallowedPairs L ≫= λ e, [nth 0 (Fields e) ""; nth 1 (Fields e) ""]) ++
  (qualifierPairs L ≫= λ e, [nth 0 (Fields e) ""; nth 1 (Fields e) ""]) ++
  (specificAdjectiveHeads L ≫= λ e, e.1 :: Fields e.2) ++ Fields (tripleHeads L) ++ Fields (tripleAdjectives L).
Definition closed_tables : bool := forallb known mentioned.
End Rule.

Section Equivalence.
Context (L : lexicon) (HL : lex_ok L) (Hclosed : closed_tables L = true).
Abbreviation idx := (wordIndex L).

Lemma contains_word_spec l w : contains_word l w = true ↔ w ∈ l.
Proof.
  unfold contains_word. rewrite existsb_exists, list_elem_of_In. split.
  - intros (v & Hv & E%String.eqb_eq). by subst.
  - intros Hw. exists w. split; [done|]. apply String.eqb_refl.
Qed.

Lemma mentioned_known w : w ∈ mentioned L → known L w = true.
Proof. intros Hw. unfold closed_tables in Hclosed. rewrite forallb_forall in Hclosed. by apply Hclosed, list_elem_of_In. Qed.

Lemma index_known w : known L w = true → (index_of idx w < size L)%nat ∧ word L (index_of idx w) = w.
Proof.
  intros Hk%contains_word_spec. apply list_elem_of_lookup in Hk as [i Hi]. unfold index_of.
  rewrite (ok_index _ HL i w Hi). cbn. split; [by apply lookup_lt_Some in Hi|by apply word_lookup].
Qed.

Lemma known_word i : (i < size L)%nat → known L (word L i) = true.
Proof.
  intros Hi. apply contains_word_spec. destruct (lookup_lt_is_Some_2 (words L) i Hi) as [w Hw].
  rewrite (word_lookup L i w Hw). by apply list_elem_of_lookup_2 in Hw.
Qed.

(** A known word has the index of [word i] exactly when it is that word. *)
Lemma index_eq w i : known L w = true → (i < size L)%nat → index_of idx w = i ↔ w = word L i.
Proof.
  intros [Hlt Hw]%index_known Hi. split.
  - by intros <-.
  - intros ->. by apply (word_inj L HL).
Qed.

Lemma index_in ws i :
  Forall (λ w, known L w = true) ws → (i < size L)%nat → i ∈ (index_of idx <$> ws) ↔ contains_word ws (word L i) = true.
Proof.
  intros Hws Hi. rewrite contains_word_spec, list_elem_of_fmap. rewrite Forall_forall in Hws. split.
  - intros (w & E & Hin). symmetry in E. apply index_eq in E; [by subst|by apply Hws|done].
  - intros Hin. exists (word L i). split; [|done]. symmetry. apply index_eq; [by apply Hws|done|done].
Qed.

(** *** Roles *)

Lemma role_foldl (f : lexicalRole → lexicalRole) ws rs i :
  (∀ r, f (f r) = f r) → Forall (λ w, known L w = true) ws → length rs = size L → (i < size L)%nat →
  let rs' := foldl (λ rs w, alter f (index_of idx w) rs) rs ws in
  length rs' = size L ∧ role rs' i = if contains_word ws (word L i) then f (role rs i) else role rs i.
Proof.
  intros Hf Hws Hlen Hi. revert rs Hlen. induction Hws as [|w ws Hw Hws IH]; intros rs Hlen; cbn [foldl]; [done|].
  destruct (IH (alter f (index_of idx w) rs)) as [IHl IHr]; [by rewrite length_alter|]. split; [done|]. rewrite IHr.
  assert (Hr : role (alter f (index_of idx w) rs) i = if String.eqb (word L i) w then f (role rs i) else role rs i).
  { unfold role. destruct (lookup_lt_is_Some_2 rs i ltac:(lia)) as [r Hri]. rewrite (nth_lookup_Some rs _ _ r Hri).
    destruct (String.eqb_spec (word L i) w) as [E|E].
    - apply nth_lookup_Some. symmetry in E. apply index_eq in E; [|done|done]. rewrite E. by rewrite list_lookup_alter_eq, Hri.
    - apply nth_lookup_Some. rewrite list_lookup_alter_ne; [done|]. intros E'. apply E. symmetry. by apply index_eq. }
  rewrite Hr. unfold contains_word. cbn [existsb]. destruct (String.eqb (word L i) w); cbn [orb]; [|done].
  rewrite Hf. by case_if.
Qed.

Lemma role_assign (set : Z → lexicalRole → lexicalRole) groups rs i :
  (∀ f r, set f (set f r) = set f r) → (∀ g, g ∈ groups → Forall (λ w, known L w = true) (Fields (group_words g))) →
  length rs = size L → (i < size L)%nat →
  length (assign idx set groups rs) = size L ∧
  role (assign idx set groups rs) i =
    foldl (λ r g, if listed (word L i) (group_words g) then set (family g) r else r) (role rs i) groups.
Proof.
  intros Hset. unfold assign. revert rs. induction groups as [|g groups IH]; intros rs Hg Hlen Hi; cbn [foldl]; [done|].
  destruct (role_foldl (set (family g)) (Fields (group_words g)) rs i) as [Hl Hr];
    [intros r; apply Hset|apply Hg, list_elem_of_here|done|done|].
  destruct (IH (foldl (λ rs w, alter (set (family g)) (index_of idx w) rs) rs (Fields (group_words g)))) as [Hl' Hr'];
    [intros g' Hg'; by apply Hg, list_elem_of_further|exact Hl|done|]. split; [exact Hl'|]. rewrite Hr', Hr. done.
Qed.

Lemma group_words_known groups :
  (groups ≫= λ g, Fields (group_words g)) ⊆ mentioned L →
  ∀ g, g ∈ groups → Forall (λ w, known L w = true) (Fields (group_words g)).
Proof.
  intros Hsub g Hg. apply Forall_forall. intros w Hw. apply mentioned_known, Hsub, list_elem_of_bind. by exists g.
Qed.

Lemma foldl_component {A} (get : lexicalRole → Z) (set : Z → lexicalRole → lexicalRole) (p : A → bool) (fam : A → Z) l r :
  (∀ f r, get (set f r) = Z.lor (get r) f) →
  get (foldl (λ r g, if p g then set (fam g) r else r) r l) = foldl (λ f g, if p g then Z.lor f (fam g) else f) (get r) l.
Proof. intros Hget. revert r. induction l as [|g l IH]; intros r; cbn [foldl]; [done|]. rewrite IH. case_if; [by rewrite Hget|done]. Qed.

Lemma foldl_other {A} (get : lexicalRole → Z) (set : Z → lexicalRole → lexicalRole) (p : A → bool) (fam : A → Z) l r :
  (∀ f r, get (set f r) = get r) → get (foldl (λ r g, if p g then set (fam g) r else r) r l) = get r.
Proof. intros Hget. revert r. induction l as [|g l IH]; intros r; cbn [foldl]; [done|]. rewrite IH. case_if; [by rewrite Hget|done]. Qed.

Lemma roles_families i :
  (i < size L)%nat →
  role (initial_roles L idx) i =
    mkRole (families (nounGroups L) (word L i)) (families (adjectiveGroups L) (word L i)) (families (modifierGroups L) (word L i)) ∧
  length (initial_roles L idx) = size L.
Proof.
  intros Hi. unfold initial_roles. set (rs1 := assign idx _ (nounGroups L) _). set (rs2 := assign idx _ (adjectiveGroups L) rs1).
  assert (Hsub : ∀ groups, (groups = nounGroups L ∨ groups = adjectiveGroups L ∨ groups = modifierGroups L) →
    ∀ g, g ∈ groups → Forall (λ w, known L w = true) (Fields (group_words g))).
  { intros groups Hor. apply group_words_known. unfold mentioned. intros w Hw. rewrite !elem_of_app.
    destruct Hor as [-> | [-> | ->]]; auto. }
  assert (Hlor : ∀ a b, Z.lor (Z.lor a b) b = Z.lor a b) by (intros a b; by rewrite <- Z.lor_assoc, Z.lor_diag).
  destruct (role_assign add_noun (nounGroups L)
    (replicate (size L) (mkRole 0 0 0)) i) as [Hl1 Hr1]; [by intros f r; unfold add_noun, add_adjective, add_modifier; cbn; rewrite Hlor|by apply Hsub; auto|apply length_replicate|done|].
  destruct (role_assign add_adjective (adjectiveGroups L) rs1 i)
    as [Hl2 Hr2]; [by intros f r; unfold add_noun, add_adjective, add_modifier; cbn; rewrite Hlor|by apply Hsub; auto|exact Hl1|done|].
  destruct (role_assign add_modifier (modifierGroups L) rs2 i)
    as [Hl3 Hr3]; [by intros f r; unfold add_noun, add_adjective, add_modifier; cbn; rewrite Hlor|by apply Hsub; auto|exact Hl2|done|].
  split; [|exact Hl3]. fold rs1 in Hr1. fold rs2 in Hr2. rewrite Hr3, Hr2, Hr1.
  assert (H0 : role (replicate (size L) (mkRole 0 0 0)) i = mkRole 0 0 0).
  { unfold role. apply nth_lookup_Some. by apply lookup_replicate. }
  rewrite H0. set (r := foldl _ _ (modifierGroups L)).
  assert (Heta : ∀ r, r = mkRole (noun r) (adjective r) (modifier r)) by (by intros []).
  rewrite (Heta r). subst r. unfold families. f_equal.
  - rewrite (foldl_other noun add_modifier), (foldl_other noun add_adjective) by done. by rewrite (foldl_component noun add_noun).
  - rewrite (foldl_other adjective add_modifier), (foldl_component adjective add_adjective) by done.
    by rewrite (foldl_other adjective add_noun).
  - rewrite (foldl_component modifier add_modifier), (foldl_other modifier add_adjective) by done.
    by rewrite (foldl_other modifier add_noun).
Qed.

(** *** Pairs *)

Lemma entry_pair_spec e u v :
  known L (nth 0 (Fields e) "") = true → known L (nth 1 (Fields e) "") = true → (u < size L)%nat → (v < size L)%nat →
  entry_pair idx e = (u, v) ↔ is_entry e (word L u) (word L v) = true.
Proof.
  intros H0 H1 Hu Hv. unfold entry_pair, is_entry. rewrite andb_true_iff, !String.eqb_eq, <- !index_eq by done. naive_solver.
Qed.

Lemma entries_known es e :
  (es ≫= λ e, [nth 0 (Fields e) ""; nth 1 (Fields e) ""]) ⊆ mentioned L → e ∈ es →
  known L (nth 0 (Fields e) "") = true ∧ known L (nth 1 (Fields e) "") = true.
Proof.
  intros Hsub He. split; apply mentioned_known, Hsub, list_elem_of_bind; exists e; (split; [|done]);
    rewrite !elem_of_cons; auto.
Qed.

Lemma confusable_pairs_spec g a c :
  g ∈ confusableGroups L → (a < size L)%nat → (c < size L)%nat →
  (a, c) ∈ confusable_pairs idx g ↔ listed (word L a) g && listed (word L c) g = true.
Proof.
  intros Hg Ha Hc. assert (Hk : Forall (λ w, known L w = true) (Fields g)).
  { apply Forall_forall. intros w Hw. apply mentioned_known. unfold mentioned. rewrite !elem_of_app. do 3 right. left.
    apply list_elem_of_bind. by exists g. }
  unfold confusable_pairs. rewrite andb_true_iff. unfold listed. rewrite <- !index_in by done.
  rewrite list_elem_of_bind. setoid_rewrite list_elem_of_bind. setoid_rewrite list_elem_of_singleton. naive_solver.
Qed.

Lemma disallowed_spec e a c :
  e ∈ disallowedPairs L → (a < size L)%nat → (c < size L)%nat →
  (a, c) ∈ (let '(x, y) := entry_pair idx e in [(x, y); (y, x)]) ↔
  is_entry e (word L a) (word L c) || is_entry e (word L c) (word L a) = true.
Proof.
  intros He Ha Hc. destruct (entries_known (disallowedPairs L) e) as [H0 H1]; [|done|].
  { unfold mentioned. intros w Hw. rewrite !elem_of_app. do 4 right. by left. }
  rewrite orb_true_iff, <- !entry_pair_spec by done. destruct (entry_pair idx e) as [x y].
  rewrite !elem_of_cons, elem_of_nil. naive_solver.
Qed.

Lemma blocked_spec a c :
  (a < size L)%nat → (c < size L)%nat → (a, c) ∈ blocked L idx ↔ confusable L (word L a) (word L c) = true.
Proof.
  intros Ha Hc. unfold blocked, confusable. rewrite elem_of_app, orb_true_iff, !list_elem_of_bind, !existsb_exists.
  setoid_rewrite <- list_elem_of_In. split.
  - intros [(g & Hp & Hg)|(e & Hp & He)].
    + left. exists g. split; [done|]. by apply confusable_pairs_spec.
    + right. exists e. split; [done|]. by apply disallowed_spec.
  - intros [(g & Hg & Hp)|(e & He & Hp)].
    + left. exists g. split; [|done]. by apply confusable_pairs_spec.
    + right. exists e. split; [|done]. by apply disallowed_spec.
Qed.

Lemma skips_spec a c :
  (a < size L)%nat → (c < size L)%nat → skips (blocked L idx) a c = negb (agree L (word L a) (word L c)).
Proof.
  intros Ha Hc. unfold skips, agree. rewrite negb_andb, !negb_involutive. f_equal.
  - apply eq_iff_eq_true. rewrite Nat.eqb_eq, String.eqb_eq. split; [by intros ->|]. by apply (word_inj L HL).
  - apply eq_iff_eq_true. rewrite <- blocked_spec by done. rewrite existsb_exists. setoid_rewrite Nat.eqb_eq. split.
    + intros (c' & Hin%list_elem_of_In & <-). apply list_elem_of_omap in Hin as ([x y] & Hxy & E). cbn in E.
      destruct (Nat.eqb_spec x a) as [->|]; [|done]. injection E as ->. done.
    + intros Hin. exists c. split; [|done]. apply list_elem_of_In, list_elem_of_omap. exists (a, c). split; [done|].
      cbn. by rewrite Nat.eqb_refl.
Qed.

(** *** Sets of words *)

Lemma add_all_spec text s i :
  wf s → Forall (λ w, known L w = true) (Fields text) → (i < size L)%nat →
  has (add_all idx text s) i = has s i || listed (word L i) text.
Proof.
  intros Hs Hk Hi. unfold add_all, listed, contains_word. revert s Hs. induction Hk as [|w ws Hw Hws IH]; intros s Hs; cbn [foldl existsb].
  { by rewrite orb_false_r. }
  destruct (index_known w Hw) as [Hlt Hword]. pose proof (ok_size _ HL).
  rewrite IH by (by apply wf_add). rewrite has_add by (done || lia).
  assert ((i =? index_of idx w)%nat = String.eqb (word L i) w) as ->.
  { apply eq_iff_eq_true. rewrite Nat.eqb_eq, String.eqb_eq. split; [by intros ->|]. intros <-. symmetry. by apply index_eq. }
  by destruct (has s i), (String.eqb (word L i) w).
Qed.

Definition entry_known (e : string * string) : Prop := known L e.1 = true ∧ Forall (λ w, known L w = true) (Fields e.2).

Lemma specifics_known : Forall entry_known (specificAdjectiveHeads L).
Proof.
  apply Forall_forall. intros e He.
  assert (Hin : ∀ w, w ∈ e.1 :: Fields e.2 → known L w = true).
  { intros w Hw. apply mentioned_known. unfold mentioned. rewrite !elem_of_app. do 6 right. left. apply list_elem_of_bind. by exists e. }
  split; [apply Hin, list_elem_of_here|]. apply Forall_forall. intros w Hw. by apply Hin, list_elem_of_further.
Qed.

Lemma specific_heads_spec es hs a c :
  Forall entry_known es → Forall wf hs → length hs = size L → (a < size L)%nat → (c < size L)%nat →
  has (set_nth (foldl (specific_heads idx) hs es) a) c =
    has (set_nth hs a) c || existsb (λ e, String.eqb e.1 (word L a) && listed (word L c) e.2) es.
Proof.
  intros Hes. revert hs. induction Hes as [|e es [Hk Hks] Hes IH]; intros hs Hwf Hlen Ha Hc; cbn [foldl existsb].
  { by rewrite orb_false_r. }
  rewrite IH; [|unfold specific_heads; apply Forall_alter; [done|intros s _ Hs; by apply wf_add_all]|
                by unfold specific_heads; rewrite length_alter|done|done].
  rewrite orb_assoc. f_equal. unfold set_nth, specific_heads.
  destruct (lookup_lt_is_Some_2 hs a ltac:(lia)) as [s Hs]. rewrite (nth_lookup_Some hs _ _ s Hs).
  destruct (String.eqb_spec e.1 (word L a)) as [E|E]; cbn [andb].
  - apply index_eq in E; [|done|done]. rewrite E. rewrite (nth_lookup_Some _ _ _ (add_all idx e.2 s)) by (by rewrite list_lookup_alter_eq, Hs).
    apply add_all_spec; [by apply (Forall_lookup_1 _ _ _ _ Hwf Hs)|done|done].
  - rewrite (nth_lookup_Some _ _ _ s); [by rewrite orb_false_r|]. rewrite list_lookup_alter_ne; [done|]. intros E'. apply E. by apply index_eq.
Qed.

Lemma specific_roles_spec es rs a :
  Forall entry_known es → length rs = size L → (a < size L)%nat →
  (adjective (role (foldl (specific_role idx) rs es) a) =? 0) =
    (adjective (role rs a) =? 0) && negb (existsb (λ e, String.eqb e.1 (word L a)) es).
Proof.
  intros Hes. revert rs. induction Hes as [|e es [Hk _] Hes IH]; intros rs Hlen Ha; cbn [foldl existsb].
  { by rewrite andb_true_r. }
  rewrite IH by (done || by unfold specific_role; rewrite length_alter).
  rewrite negb_orb, andb_assoc. f_equal. unfold role, specific_role.
  destruct (lookup_lt_is_Some_2 rs a ltac:(lia)) as [r Hr]. rewrite (nth_lookup_Some rs _ _ r Hr).
  destruct (String.eqb_spec e.1 (word L a)) as [E|E]; cbn [negb]; rewrite ?andb_false_r, ?andb_true_r.
  - apply index_eq in E; [|done|done]. rewrite E.
    rewrite (nth_lookup_Some _ _ _ (mkRole (noun r) allFamilies (modifier r))) by (by rewrite list_lookup_alter_eq, Hr). done.
  - rewrite (nth_lookup_Some _ _ _ r); [done|]. rewrite list_lookup_alter_ne; [done|]. intros E'. apply E. by apply index_eq.
Qed.

(** *** The fields of the grammar *)

Lemma set_nth_rows (f : nat → wordSet) a : (a < size L)%nat → set_nth (f <$> seq 0 (size L)) a = f a.
Proof. intros Ha. unfold set_nth. apply nth_lookup_Some. by rewrite list_lookup_fmap, lookup_seq_lt. Qed.

Lemma has_row_bool p i : (i < size L)%nat → has (row L p) i = p i.
Proof. intros Hi. apply eq_iff_eq_true. rewrite has_row by done. naive_solver. Qed.

Lemma compatible_spec a c :
  (a < size L)%nat → (c < size L)%nat → has (set_nth (compatible (phrases L)) a) c = agree L (word L a) (word L c).
Proof.
  intros Ha Hc. unfold phrases, base. cbn [compatible]. rewrite set_nth_rows, has_row_bool by done.
  by rewrite skips_spec, negb_involutive.
Qed.

Lemma modifierHeads_spec a c :
  (a < size L)%nat → (c < size L)%nat → has (set_nth (modifierHeads (phrases L)) a) c = modifier_head L (word L a) (word L c).
Proof.
  intros Ha Hc. unfold phrases, base. cbn [modifierHeads]. rewrite set_nth_rows, has_row_bool by done.
  rewrite skips_spec, negb_involutive by done. destruct (roles_families a Ha) as [-> _]. by destruct (roles_families c Hc) as [-> _].
Qed.

Lemma adjectiveHeads_spec a c :
  (a < size L)%nat → (c < size L)%nat → has (set_nth (adjectiveHeads (phrases L)) a) c = adjective_head L (word L a) (word L c).
Proof.
  intros Ha Hc. unfold phrases, base. cbn [adjectiveHeads].
  rewrite specific_heads_spec; [|exact specifics_known| |by rewrite length_fmap, length_seq|done|done].
  - rewrite set_nth_rows, has_row_bool by done. rewrite skips_spec, negb_involutive by done.
    destruct (roles_families a Ha) as [-> _]. by destruct (roles_families c Hc) as [-> _].
  - apply wf_rows. intros x. by apply wf_row.
Qed.

Lemma adjectival_spec a : (a < size L)%nat → (adjective (role (roles (phrases L)) a) =? 0) = negb (adjectival L (word L a)).
Proof.
  intros Ha. unfold phrases, base. cbn [roles]. destruct (roles_families a Ha) as [Hr Hl].
  rewrite specific_roles_spec by (exact specifics_known || done). rewrite Hr. cbn [adjective]. unfold adjectival.
  by rewrite negb_orb, negb_involutive.
Qed.

Lemma tripleHeads_spec c : (c < size L)%nat → has (tripleHeadSet (phrases L)) c = listed (word L c) (tripleHeads L).
Proof.
  intros Hc. unfold phrases, base. cbn [tripleHeadSet]. rewrite add_all_spec; [by rewrite has_none|exact wf_no_words| |done].
  apply Forall_forall. intros w Hw. apply mentioned_known. unfold mentioned. rewrite !elem_of_app. do 7 right. by left.
Qed.

Lemma tripleAdjectives_spec c : (c < size L)%nat → has (tripleAdjectiveSet (phrases L)) c = listed (word L c) (tripleAdjectives L).
Proof.
  intros Hc. unfold phrases, base. cbn [tripleAdjectiveSet]. rewrite add_all_spec; [by rewrite has_none|exact wf_no_words| |done].
  apply Forall_forall. intros w Hw. apply mentioned_known. unfold mentioned. rewrite !elem_of_app. do 7 right. by right.
Qed.

Lemma qualifiers_spec a b :
  (a < size L)%nat → (b < size L)%nat → bool_decide ((a, b) ∈ qualifiers (phrases L)) = qualifies L (word L a) (word L b).
Proof.
  intros Ha Hb. apply eq_iff_eq_true. rewrite bool_decide_eq_true. unfold phrases, base. cbn [qualifiers].
  rewrite elem_of_list_to_set, list_elem_of_fmap. unfold qualifies. rewrite existsb_exists. setoid_rewrite <- list_elem_of_In.
  assert (Hk : ∀ e, e ∈ qualifierPairs L → entry_pair idx e = (a, b) ↔ is_entry e (word L a) (word L b) = true).
  { intros e He. destruct (entries_known (qualifierPairs L) e) as [H0 H1]; [|done|by apply entry_pair_spec].
    unfold mentioned. intros w Hw. rewrite !elem_of_app. do 5 right. by left. }
  split.
  - intros (e & E & He). exists e. split; [done|]. by apply Hk.
  - intros (e & He & E). exists e. split; [|done]. symmetry. by apply Hk.
Qed.

Lemma mask_spec out prefix c :
  (c < size L)%nat →
  has (if (MaxPhraseBytes <? prefix)%nat then no_words
       else set_and out (set_nth (lengthMasks (phrases L)) (MaxPhraseBytes - prefix))) c =
  has out c && (prefix + String.length (word L c) <=? MaxPhraseBytes)%nat.
Proof.
  intros Hc. pose proof (ok_size _ HL). destruct (Nat.ltb_spec MaxPhraseBytes prefix).
  { rewrite has_none, (proj2 (Nat.leb_gt _ _)) by lia. by rewrite andb_false_r. }
  rewrite has_and by lia. f_equal. unfold phrases, base, set_nth. cbn [lengthMasks].
  rewrite (nth_lookup_Some _ _ _ (row L (λ i, (String.length (word L i) <=? MaxPhraseBytes - prefix)%nat))).
  - rewrite has_row_bool by done. apply eq_iff_eq_true. rewrite !Nat.leb_le. lia.
  - rewrite list_lookup_fmap, lookup_seq_lt by lia. done.
Qed.

(** *** The rule *)

Lemma length_Join_pair u v : String.length (Join [u; v]) = (String.length u + 1 + String.length v)%nat.
Proof. rewrite <- length_chars. unfold Join. cbn [String.concat]. rewrite !chars_app, !length_app, !length_chars. cbn. lia. Qed.

Lemma length_Join_triple u v w :
  String.length (Join [u; v; w]) = (String.length u + 1 + (String.length v + 1) + String.length w)%nat.
Proof. rewrite <- length_chars. unfold Join. cbn [String.concat]. rewrite !chars_app, !length_app, !length_chars. cbn. lia. Qed.

Lemma heads_pair a c :
  (a < size L)%nat → (c < size L)%nat → has (heads L (phrases L) a None) c = phrase_rule L [word L a; word L c].
Proof.
  intros Ha Hc. pose proof (ok_size _ HL). unfold heads. rewrite mask_spec by done. rewrite has_and, has_or by lia.
  rewrite adjectiveHeads_spec, modifierHeads_spec, compatible_spec by done. unfold phrase_rule. cbn [forallb].
  rewrite !known_word, length_Join_pair by done. cbn [andb].
  destruct (_ <=? _)%nat; rewrite ?andb_false_r, ?andb_true_r; [|done]. cbn [andb]. apply andb_comm.
Qed.

Lemma heads_triple a b c :
  (a < size L)%nat → (b < size L)%nat → (c < size L)%nat →
  has (heads L (phrases L) a (Some b)) c = phrase_rule L [word L a; word L b; word L c].
Proof.
  intros Ha Hb Hc. pose proof (ok_size _ HL). unfold heads. rewrite adjectival_spec, compatible_spec by done.
  unfold phrase_rule. cbn [forallb]. rewrite !known_word, length_Join_triple by done. cbn [andb].
  destruct (agree L (word L a) (word L b)); cbn [negb orb andb]; rewrite ?orb_true_r, ?andb_false_r; [|by rewrite has_none].
  rewrite orb_false_r. destruct (adjectival L (word L a)); cbn [negb]; [|rewrite has_none, ?andb_false_r; cbn [andb]; by rewrite ?andb_false_r].
  rewrite mask_spec by done. rewrite !has_and by lia. rewrite !compatible_spec, tripleHeads_spec by done.
  rewrite tripleAdjectives_spec, qualifiers_spec by done.
  assert (Hout : has (if qualifies L (word L a) (word L b)
      then set_or (if listed (word L a) (tripleAdjectives L)
                   then set_and (set_nth (adjectiveHeads (phrases L)) a) (set_nth (modifierHeads (phrases L)) b) else no_words)
             (set_and (set_nth (adjectiveHeads (phrases L)) a) (set_nth (adjectiveHeads (phrases L)) b))
      else if listed (word L a) (tripleAdjectives L)
           then set_and (set_nth (adjectiveHeads (phrases L)) a) (set_nth (modifierHeads (phrases L)) b) else no_words) c =
    listed (word L a) (tripleAdjectives L) && adjective_head L (word L a) (word L c) && modifier_head L (word L b) (word L c) ||
    qualifies L (word L a) (word L b) && adjective_head L (word L a) (word L c) && adjective_head L (word L b) (word L c)).
  { destruct (qualifies L (word L a) (word L b)), (listed (word L a) (tripleAdjectives L));
      rewrite ?has_or, ?has_and, ?has_none, ?adjectiveHeads_spec, ?modifierHeads_spec by (done || lia); cbn [andb orb];
      by rewrite ?orb_false_r. }
  rewrite Hout. set (x := _ || _). destruct (_ <=? _)%nat; rewrite ?andb_false_r, ?andb_true_r; [|done]. cbn [andb].
  destruct x, (agree L (word L a) (word L c)), (agree L (word L b) (word L c)), (listed (word L c) (tripleHeads L)); done.
Qed.

Lemma admits_phrase_rule parts : admits L parts = phrase_rule L parts.
Proof.
  unfold admits. destruct (mapM _ parts) as [ids|] eqn:Hm.
  - apply mapM_Some_1 in Hm. assert (Hids : parts = word L <$> ids ∧ Forall (λ i, (i < size L)%nat) ids).
    { induction Hm as [|w i ws ids Hw Hall [-> IH]]; [done|]. apply wordIndex_word in Hw. split.
      - cbn. by rewrite (word_lookup L i w Hw).
      - constructor; [by apply lookup_lt_Some in Hw|done]. }
    destruct Hids as [-> Hids]. clear Hm. rewrite !Forall_forall in Hids || idtac.
    destruct ids as [|a [|b [|c [|d ids]]]]; cbn [fmap list_fmap].
    + done.
    + unfold phrase_rule. by rewrite andb_false_r.
    + apply heads_pair; apply Hids; rewrite !elem_of_cons; auto.
    + apply heads_triple; apply Hids; rewrite !elem_of_cons; auto.
    + unfold phrase_rule. by rewrite andb_false_r.
  - apply mapM_None_1 in Hm. unfold phrase_rule. assert (forallb (known L) parts = false) as ->; [|done].
    apply not_true_iff_false. rewrite forallb_forall. intros Hall. apply Exists_exists in Hm as (w & Hw & Hnone).
    apply list_elem_of_In, Hall, contains_word_spec, list_elem_of_lookup in Hw as [i Hi].
    rewrite (ok_index _ HL i w Hi) in Hnone. done.
Qed.

(** Names the rule allows have an index. *)
Lemma pair_has_index u v :
  phrase_rule L [u; v] = true → ∃ index, AtBig L (Some index) 2 = Ok (mkName (Join [u; v]) GrammarName 2).
Proof.
  intros Hr. assert (Ha : admits L [u; v] = true) by (by rewrite admits_phrase_rule).
  destruct (Normalize_Join [u; v]) as [Hn Hs]; [by apply (admits_shaped L HL)|done|].
  apply (parse_has_index L HL GrammarName (Join [u; v]) (mkName (Join [u; v]) GrammarName 2)); [by left|].
  unfold ParseStored. rewrite Hn, Hs. unfold valid_parts. rewrite bool_decide_true by done. by rewrite Ha.
Qed.

Lemma pair_in_group count i u v p :
  i ≠ 0%nat ∨ count mod 2 = 0 → composedPalettes L !! i = Some p → contains_word (Fields (modifiers p)) u = true →
  contains_word (Fields (subjects p)) v = true → phrase_rule L [u; v] = true → [u; v] ∈ group_parts L count i.
Proof.
  intros Hi Hp Hu Hv Hr. unfold group_parts, candidates. rewrite Hp.
  assert ((i =? 0)%nat && (count mod 2 =? 1) = false) as ->.
  { destruct Hi as [Hi| ->]; [|by rewrite andb_false_r]. by rewrite (proj2 (Nat.eqb_neq i 0)). }
  apply list_elem_of_filter. split; [by rewrite Is_true_true, admits_phrase_rule|]. unfold pair_candidates.
  apply list_elem_of_bind. exists u. split; [|by apply contains_word_spec]. apply list_elem_of_bind. exists v.
  split; [apply list_elem_of_here|by apply contains_word_spec].
Qed.

Lemma composed_has_index count pss :
  4 <= count <= 15 → Forall2 (λ i ps, ps ∈ group_parts L count i) (group_ids count) pss →
  ∃ index, AtBig L (Some index) count = Ok (mkName (Join (concat pss)) ComposedGrammarName count).
Proof.
  intros Hc Hall. pose proof (Forall2_rev _ _ _ Hall) as Hrev.
  destruct (select_surj L count _ _ [] Hrev) as (r & Hr & Hsel). rewrite rev_involutive, app_nil_r in Hsel.
  exists r. pose proof (capacity_cases L HL count) as Hcap.
  rewrite (proj2 (Z.eqb_neq _ 2)), (proj2 (Z.eqb_neq _ 3)), (proj2 (Z.leb_le 4 _)), (proj2 (Z.leb_le _ 15)) in Hcap by lia.
  cbn [orb andb] in Hcap. rewrite (at_big_eq L) by lia. rewrite (proj2 (Z.leb_gt _ 3)) by lia. rewrite Hsel.
  destruct (groups_shaped L HL _ _ _ Hall) as [_ Hne]. by rewrite Join_concat.
Qed.
End Equivalence.

Lemma english_closed : closed_tables english = true.
Proof. vm_compute. reflexivity. Qed.

(** C16: The bitset test of the phrase grammar is the editorial rule on words: for
    every list of words, [admits] over the English tables accepts it exactly when
    the words are known, agree pairwise, describe a head of a fitting family and
    take at most 24 bytes. *)
Theorem admits_rule parts : admits english parts = phrase_rule english parts.
Proof. apply (admits_phrase_rule english english_ok english_closed). Qed.

(** A phrase of two words and a composed name of four have an index. *)
Example quiet_river : ∃ index, AtBig english (Some index) 2 = Ok (mkName (Join ["quiet"; "river"]) GrammarName 2).
Proof. apply (pair_has_index english english_ok english_closed). vm_compute. reflexivity. Qed.

Example four_words :
  ∃ index, AtBig english (Some index) 4 =
    Ok (mkName (Join (concat [["quiet"; "river"]; ["clear"; "alley"]])) ComposedGrammarName 4).
Proof.
  apply (composed_has_index english english_ok); [lia|].
  change (group_ids 4) with [0%nat; 1%nat]. refine (List.Forall2_cons _ _ _ (List.Forall2_cons _ _ _ (List.Forall2_nil _))).
  - eapply (pair_in_group english english_ok english_closed); [by right|reflexivity|vm_compute; reflexivity..].
  - eapply (pair_in_group english english_ok english_closed); [by left|reflexivity|vm_compute; reflexivity..].
Qed.
End PhraseRule.
