(* ===== verification/NamePolicy.v ===== *)
(** How many words a new invitation's name has: access/name_policy.go, with the
    [strconv] functions it uses. *)

From stdpp Require Import pretty.
From S2P Require Export Names.

Module NamePolicy.

Inductive policy_error := ErrInvalidWordCount | ErrNamePolicy.

(** ** strconv *)

Definition digit (c : Ascii.ascii) : option Z :=
  let n := Z.of_nat (Ascii.nat_of_ascii c) in
  if (48 <=? n) && (n <=? 57) then Some (n - 48) else None.

Fixpoint decimal (acc : Z) (l : list Ascii.ascii) : option Z :=
  match l with
  | [] => Some acc
  | c :: l' => match digit c with Some d => decimal (10 * acc + d) l' | None => None end
  end.

(** [Atoi]: an optional sign and decimal digits, within the range of [int]. *)
Definition Atoi (s : string) : option Z :=
  let signed (negative : bool) (digits : list Ascii.ascii) :=
    match digits with
    | [] => None
    | _ => match decimal 0 digits with
           | Some n => let n := if negative then - n else n in
                       if (minInt64 <=? n) && (n <=? maxInt64) then Some n else None
           | None => None
           end
    end in
  match Names.chars s with
  | [] => None
  | c :: rest =>
    if (Ascii.nat_of_ascii c =? 45)%nat then signed true rest
    else if (Ascii.nat_of_ascii c =? 43)%nat then signed false rest
    else signed false (c :: rest)
  end.

Definition Itoa (z : Z) : string := pretty z.

(** ** The policies *)

Definition AutoTwoThenThree : string := "auto".
Definition FixedTwo : string := "2".
Definition FixedThree : string := "3".

Definition in_range (count : Z) : bool := (Names.MinWordCount <=? count) && (count <=? Names.MaxWordCount).

Definition fixedCount (policy : string) : option Z :=
  match Atoi policy with
  | Some count => if in_range count && bool_decide (Itoa count = policy) then Some count else None
  | None => None
  end.

Definition FixedNamePolicy (count : Z) : result policy_error string :=
  if negb (in_range count) then Err ErrInvalidWordCount else Ok (Itoa count).

Definition ParseNameAllocationPolicy (value : string) : result policy_error string :=
  if bool_decide (value = "") then Ok AutoTwoThenThree
  else if bool_decide (value = AutoTwoThenThree) then Ok value
  else match fixedCount value with
       | Some _ => Ok value
       | None => Err ErrNamePolicy
       end.

(** A configured policy is the automatic one or a count. *)
Definition valid (policy : string) : bool :=
  bool_decide (policy = AutoTwoThenThree) || bool_decide (is_Some (fixedCount policy)).

(** ** Facts *)

Lemma range_list count : in_range count = true → count ∈ seqZ 2 14.
Proof. unfold in_range, Names.MinWordCount, Names.MaxWordCount. rewrite elem_of_seqZ. intros [?%Z.leb_le ?%Z.leb_le]%andb_true_iff. lia. Qed.

(** A fixed policy asks for exactly its count, and [auto] for none. *)
Lemma fixedCount_fixed count : in_range count = true → fixedCount (Itoa count) = Some count.
Proof.
  intros H%range_list. apply list_elem_of_In in H. change (seqZ 2 14) with [2; 3; 4; 5; 6; 7; 8; 9; 10; 11; 12; 13; 14; 15] in H.
  repeat (destruct H as [<-|H]; [vm_compute; reflexivity|]). destruct H.
Qed.

Lemma fixedCount_range policy count : fixedCount policy = Some count → in_range count = true ∧ policy = Itoa count.
Proof.
  unfold fixedCount. destruct (Atoi policy) as [n|]; [|done]. destruct (in_range n) eqn:E; [|done]. cbn [andb].
  case_bool_decide; [|done]. by intros [= <-].
Qed.

Lemma fixedCount_auto : fixedCount AutoTwoThenThree = None.
Proof. reflexivity. Qed.

(** The accepted configurations are the valid policies. *)
Lemma parse_policy_valid value policy :
  ParseNameAllocationPolicy value = Ok policy → valid policy = true ∧ (value = "" ∨ policy = value).
Proof.
  unfold ParseNameAllocationPolicy, valid. case_bool_decide as E1; [intros [= <-]; by split; [|left]|].
  case_bool_decide as E2; [intros [= <-]; by split; [rewrite bool_decide_true|right]|].
  destruct (fixedCount value) eqn:E; [|done]. intros [= <-]. split; [|by right].
  rewrite E, (bool_decide_true (is_Some _)) by eauto. by rewrite orb_true_r.
Qed.
End NamePolicy.
