(* ===== verification/Access.v ===== *)
(** * Access: the Session access service

    Translates [access/state.go], [access/service.go], [access/authority.go] and
    the service half of [access/renewal.go]: Session records, their capability
    tokens, the writer fence of a store and the media fence of a Session.  The
    random identities a call draws are its arguments, [None] when the system's
    random source fails. *)

From S2P Require Export NamePolicy Storage Token.

Module Access.
Import Storage Token.

(** ** state.go *)

Definition RelayStateContractVersion : Z := 1.
Definition maxBusCount : Z := 16.
Definition maxBusIdentifierSize : Z := 64.
Definition maxRelayEpochSize : Z := 128.
Definition maxSubscriberIDSize : Z := 128.

(** The duplicate and identifier test of the loop over the sorted list. *)
Fixpoint buses_ok (previous : option string) (values : list string) : bool :=
  match values with
  | [] => true
  | value :: values' =>
    if negb (validIdentifier value maxBusIdentifierSize) || bool_decide (previous = Some value) then false
    else buses_ok (Some value) values'
  end.

Definition validateRequiredBuses (values : list string) : result error (list string) :=
  if (len values =? 0) || (len values >? maxBusCount) then Err ErrInvalidRelayState
  else
    let result := merge_sort string_le values in
    if buses_ok None result then Ok result else Err ErrInvalidRelayState.

(** The loop over the buses: the identities seen, or [None] on an invalid one. *)
Fixpoint snapshot_buses (seen : list string) (buses : list BusState) : option (list string) :=
  match buses with
  | [] => Some seen
  | b :: buses' =>
    if negb (validIdentifier (bsBusID b) maxBusIdentifierSize) || negb (validIdentifier (bsRole b) maxBusIdentifierSize)
    then None
    else if bool_decide (bsBusID b ∈ seen) then None
    else snapshot_buses (bsBusID b :: seen) buses'
  end.

Fixpoint snapshot_subscriptions (busIDs seen : list string) (subs : list SubscriptionState) : bool :=
  match subs with
  | [] => true
  | s :: subs' =>
    if negb (validIdentifier (ssSubscriberID s) maxSubscriberIDSize) ||
       negb (validIdentifier (ssBusID s) maxBusIdentifierSize) then false
    else if negb (bool_decide (ssBusID s = "mix")) && negb (bool_decide (ssBusID s ∈ busIDs)) then false
    else if bool_decide (ssSubscriberID s ∈ seen) then false
    else snapshot_subscriptions busIDs (ssSubscriberID s :: seen) subs'
  end.

Definition validateRelaySnapshot (snapshot : RelayState) : bool :=
  if negb (rsContractVersion snapshot =? RelayStateContractVersion) || bool_decide (rsSessionID snapshot = "") ||
     negb (validIdentifier (rsRelayEpoch snapshot) maxRelayEpochSize) || (rsRevision snapshot =? 0) ||
     IsZero (rsObservedAt snapshot) || (len (rsBuses snapshot) >? maxBusCount) ||
     (len (rsSubscriptions snapshot) >? 1024)
  then false
  else match snapshot_buses [] (rsBuses snapshot) with
       | None => false
       | Some busIDs => snapshot_subscriptions busIDs [] (rsSubscriptions snapshot)
       end.

(** The keys are distinct after validation, so the order is determined. *)
Definition normalizeRelaySnapshot (snapshot : RelayState) : RelayState :=
  mkRelayState (rsContractVersion snapshot) (rsSessionID snapshot) (rsRelayEpoch snapshot) (rsRevision snapshot)
    (rsWriterTerm snapshot) (rsObservedAt snapshot)
    (merge_sort (λ a b, string_le (bsBusID a) (bsBusID b)) (rsBuses snapshot))
    (merge_sort (λ a b, string_le (ssSubscriberID a) (ssSubscriberID b)) (rsSubscriptions snapshot)).

(** ** service.go *)

Record Config := mkConfig {
  MaxSessions : Z; MaxInvitations : Z; MaxReceipts : Z; MaxSSEPerSession : Z;
  SessionTTL : Z; OwnerTokenTTL : Z; PublisherTokenTTL : Z; SubscriberTokenTTL : Z;
  ReceiptTTL : Z; ObservationTTL : Z; WriterLeaseDuration : Z; WriterID : string; OperationTimeout : Z;
  NamePolicy : string }.

Definition or_default (v d : Z) : Z := if v <=? 0 then d else v.

(** The defaults of [NewService]. *)
Definition with_defaults (c : Config) : Config :=
  let ttl := or_default (SessionTTL c) (2 * Hour) in
  let owner := or_default (OwnerTokenTTL c) (15 * Minute) in
  mkConfig (or_default (MaxSessions c) 1000) (or_default (MaxInvitations c) 4000) (or_default (MaxReceipts c) 4000)
    (or_default (MaxSSEPerSession c) 16) ttl (if owner >? ttl then ttl else owner)
    (or_default (PublisherTokenTTL c) (15 * Minute)) (or_default (SubscriberTokenTTL c) (2 * Hour))
    (or_default (ReceiptTTL c) (2 * Minute)) (or_default (ObservationTTL c) (15 * Second))
    (or_default (WriterLeaseDuration c) (30 * Second))
    (if bool_decide (WriterID c = "") then "default" else WriterID c)
    (if (OperationTimeout c <=? 0) || (OperationTimeout c >? 30 * Second) then 5 * Second else OperationTimeout c)
    (if bool_decide (NamePolicy c = "") then NamePolicy.AutoTwoThenThree else NamePolicy c).

(** [ParseSessionExpiryDuration], of the value of POCKETSTATION_SESSION_TTL_SECONDS. *)
Definition ParseSessionExpiryDuration (raw : string) : result error Z :=
  if bool_decide (raw = "") then Ok (2 * Hour)
  else match NamePolicy.Atoi raw with
       | Some seconds =>
         if (seconds <=? 0) || (seconds >? maxInt64 / Second) then Err ErrConfiguration else Ok (seconds * Second)
       | None => Err ErrConfiguration
       end.

Record Service := mkService {
  secret : list Z;
  config : Config;
  term : Z;              (* uint64 *)
  incarnation : string }.

(** [State] *)
Record State := mkState {
  stSessionID : string; stStateRevision : Z; stRelayEpoch : string; stRelayRevision : Z;
  stRequiredBuses : list string; stBuses : list BusState; stSubscriptions : list SubscriptionState;
  stReady : bool; stSubscriptionCount : Z; stCodec : string }.

Definition contains (values : list string) (target : string) : bool :=
  existsb (λ v, bool_decide (v = target)) values.

Definition session_state (r : SessionRecord) : State :=
  let relay := seRelay r in
  mkState (seID r) (seStateRevision r) (rsRelayEpoch relay) (rsRevision relay) (seRequiredBuses r)
    (rsBuses relay) (rsSubscriptions relay)
    (forallb (λ required, existsb (λ b, bool_decide (bsBusID b = required) && bsSourceActive b) (rsBuses relay))
       (seRequiredBuses r))
    (len (rsSubscriptions relay)) (seCodec r).

(** Field updates of a Session record. *)
Definition set_relay (relay : RelayState) (r : SessionRecord) : SessionRecord :=
  mkSessionRecord (seSchemaVersion r) (seID r) (seIssuer r) (seIncarnation r) (seLegacyTokensBefore r)
    (seRequiredBuses r) (seCodec r) (seStateRevision r) relay (seWriterTerm r) (seMediaTerm r)
    (seLastActiveAt r) (seExpiresAt r).
Definition bump_revision (r : SessionRecord) : SessionRecord :=
  mkSessionRecord (seSchemaVersion r) (seID r) (seIssuer r) (seIncarnation r) (seLegacyTokensBefore r)
    (seRequiredBuses r) (seCodec r) (u64 (seStateRevision r + 1)) (seRelay r) (seWriterTerm r) (seMediaTerm r)
    (seLastActiveAt r) (seExpiresAt r).
Definition set_terms (writer media : Z) (r : SessionRecord) : SessionRecord :=
  mkSessionRecord (seSchemaVersion r) (seID r) (seIssuer r) (seIncarnation r) (seLegacyTokensBefore r)
    (seRequiredBuses r) (seCodec r) (seStateRevision r) (seRelay r) writer media
    (seLastActiveAt r) (seExpiresAt r).
Definition touch (now ttl : Z) (r : SessionRecord) : SessionRecord :=
  mkSessionRecord (seSchemaVersion r) (seID r) (seIssuer r) (seIncarnation r) (seLegacyTokensBefore r)
    (seRequiredBuses r) (seCodec r) (seStateRevision r) (seRelay r) (seWriterTerm r) (seMediaTerm r)
    now (time_Add now ttl).

(** [r.Relay.Buses = nil; r.Relay.Subscriptions = nil; r.StateRevision++] *)
Definition clear_observation (r : SessionRecord) : SessionRecord :=
  let relay := seRelay r in
  bump_revision
    (set_relay (mkRelayState (rsContractVersion relay) (rsSessionID relay) (rsRelayEpoch relay) (rsRevision relay)
                  (rsWriterTerm relay) (rsObservedAt relay) [] []) r).

Definition observed (r : SessionRecord) : bool :=
  (len (rsBuses (seRelay r)) >? 0) || (len (rsSubscriptions (seRelay r)) >? 0).

Section Access.
Context `{RecordSizes} `{Jwt}.

(** *** The transaction of [NewService] *)

(** The namespace after an instance of writer group [writer] opens it. *)
Definition open_namespace (writer : string) (now lease : Z) (fresh : option string) (ns : Namespace)
  : result error Namespace :=
  if nsSchemaVersion ns >? SchemaVersion then Err ErrSchema
  else
    match (if bool_decide (nsIncarnation ns = "")
           then match fresh with
                | None => Err Storage.ErrRandom
                | Some id => Ok (mkNamespace SchemaVersion id 1 writer zero_time)
                end
           else Ok ns) with
    | Err e => Err e
    | Ok ns =>
      let ns := if bool_decide (nsWriterID ns = "")
                then mkNamespace (nsSchemaVersion ns) (nsIncarnation ns)
                       (if nsWriterTerm ns =? 0 then 1 else nsWriterTerm ns) writer (nsLeaseExpiresAt ns)
                else ns in
      if bool_decide (nsWriterID ns = writer)
      then Ok (mkNamespace (nsSchemaVersion ns) (nsIncarnation ns) (nsWriterTerm ns) writer (time_Add now lease))
      else if After (nsLeaseExpiresAt ns) now then Err ErrWriterFenced
      else Ok (mkNamespace (nsSchemaVersion ns) (nsIncarnation ns) (u64 (nsWriterTerm ns + 1)) writer
                 (time_Add now lease))
    end.

Fixpoint reset_rows (rows : list SessionRecord) : tx unit :=
  match rows with
  | [] => mret tt
  | r :: rows' =>
    (if observed r then PutSession (clear_observation r) else mret tt) ≫= λ _, reset_rows rows'
  end.

Definition lift {A} (r : result error A) : tx A :=
  match r with Ok a => mret a | Err e => fail e end.

Definition open_tx (c : Config) (fresh : option string) : tx Namespace :=
  GetNamespace ≫= λ ns, Now ≫= λ now,
  lift (open_namespace (WriterID c) now (WriterLeaseDuration c) fresh ns) ≫= λ ns',
  PutNamespace ns' ≫= λ _, Sessions (MaxSessions c) ≫= λ rows, reset_rows rows ≫= λ _, mret ns'.

(** [NewService], for a backend that is present. *)
Definition NewService (key : list Z) (c : Config) (cancel : option nat) (now : Z) (fresh : option string) (st : Store)
  : Store * result error Service :=
  if len key <? 32 then (st, Err ErrConfiguration)
  else if negb (NamePolicy.valid (NamePolicy (with_defaults c))) then (st, Err ErrConfiguration)
  else
    let c := with_defaults c in
    match Update cancel now (open_tx c fresh) st with
    | (st', Ok ns) => (st', Ok (mkService key c (nsWriterTerm ns) (nsIncarnation ns)))
    | (st', Err e) => (st', Err e)
    end.

(** *** Fenced transactions *)

Definition writes (s : Service) (ns : Namespace) : bool :=
  (nsWriterTerm ns =? term s) && bool_decide (nsWriterID ns = WriterID (config s)) &&
  bool_decide (nsIncarnation ns = incarnation s).

Definition checkWriter (s : Service) : tx unit :=
  GetNamespace ≫= λ ns, guard_tx (writes s ns) ErrWriterFenced.

Definition renew_lease (s : Service) (now : Z) (ns : Namespace) : Namespace :=
  mkNamespace (nsSchemaVersion ns) (nsIncarnation ns) (nsWriterTerm ns) (nsWriterID ns)
    (time_Add now (WriterLeaseDuration (config s))).

Definition update_tx {A} (s : Service) (fn : tx A) : tx A :=
  checkWriter s ≫= λ _, GetNamespace ≫= λ ns, Now ≫= λ now,
  PutNamespace (renew_lease s now ns) ≫= λ _, PruneExpired ≫= λ _, fn.

(** [update], [view] *)
Definition update {A} (s : Service) (cancel : option nat) (now : Z) (fn : tx A) (st : Store) : Store * result error A :=
  Update cancel now (update_tx s fn) st.
Definition view {A} (s : Service) (cancel : option nat) (now : Z) (fn : tx A) (st : Store) : result error A :=
  (View cancel now fn st).2.

Definition active (s : Service) (id : string) : tx SessionRecord :=
  Session id ≫= λ o, Now ≫= λ now,
  match o with
  | Some r => if negb (After (seExpiresAt r) now) || negb (bool_decide (seIncarnation r = incarnation s))
              then fail ErrNoRows else mret r
  | None => fail ErrNoRows
  end.

(** [errors.Is(err, sql.ErrNoRows)] becomes [err']. *)
Definition on_no_rows {A} (err' : error) (m : tx A) : tx A := λ e s,
  match m e s with
  | (s', Err ErrNoRows) => (s', Err err')
  | r => r
  end.

Definition sign_tx (s : Service) (r : SessionRecord) (c : Claims) (ttl now : Z) (jti : option string) : tx encoded :=
  match SignProfile (secret s) (seIssuer r) (seIncarnation r) c ttl now jti with
  | Ok e => mret e
  | Err ErrRandom => fail Storage.ErrRandom
  | Err _ => fail Storage.ErrInvalidCapability
  end.

(** *** Operations *)

Definition create_tx (s : Service) (required : list string) (id jti : option string) : tx (SessionRecord * encoded) :=
  GetCounts ≫= λ counts, Now ≫= λ now,
  guard_tx (negb (SessionCount counts >=? MaxSessions (config s))) ErrSessionCapacity ≫= λ _,
  match id with
  | None => fail Storage.ErrRandom
  | Some id =>
    let r := mkSessionRecord SchemaVersion id Issuer (incarnation s) zero_time required "opus" 1 no_relay (term s) 0
               now (time_Add now (SessionTTL (config s))) in
    sign_tx s r (new_claims id "" required RoleSource true) (OwnerTokenTTL (config s)) now jti ≫= λ credential,
    PutSession r ≫= λ _, mret (r, credential)
  end.

Definition CreateContext (s : Service) (required : list string) (cancel : option nat) (now : Z) (id jti : option string)
    (st : Store) : Store * result error (SessionRecord * encoded) :=
  let required := if len required =? 0 then ["application"; "microphone"] else required in
  match validateRequiredBuses required with
  | Err e => (st, Err e)
  | Ok required => update s cancel now (create_tx s required id jti) st
  end.

(** The observation is too old, or of another writer. *)
Definition stale (s : Service) (now : Z) (r : SessionRecord) : bool :=
  negb (seWriterTerm r =? term s) || (Sub now (rsObservedAt (seRelay r)) >? ObservationTTL (config s)).

Definition get_tx (s : Service) (id : string) : tx SessionRecord :=
  active s id ≫= λ r, Now ≫= λ now,
  if stale s now r && observed r
  then PutSession (clear_observation r) ≫= λ _, mret (clear_observation r)
  else mret r.

Definition GetContext (s : Service) (id : string) (cancel : option nat) (now : Z) (st : Store)
  : Store * result error SessionRecord := update s cancel now (get_tx s id) st.

(** [DeleteContext]'s callback: whether the Session was there. *)
Definition delete_tx (s : Service) (id : string) : tx bool :=
  Session id ≫= λ o, Now ≫= λ now,
  match o with
  | Some r => if negb (After (seExpiresAt r) now) || negb (bool_decide (seIncarnation r = incarnation s))
              then mret false else DeleteSession id ≫= λ _, mret true
  | None => mret false
  end.

Definition DeleteContext (s : Service) (id : string) (cancel : option nat) (now : Z) (st : Store)
  : Store * result error bool := update s cancel now (delete_tx s id) st.

Definition issue_tx (s : Service) (id bus : string) (role : Role) (jti : option string) : tx encoded :=
  active s id ≫= λ r, Now ≫= λ now,
  guard_tx (bool_decide (bus = "mix") || contains (seRequiredBuses r) bus) ErrInvalidRelayState ≫= λ _,
  guard_tx (negb (bool_decide (role = RoleSource) && bool_decide (bus = "mix"))) ErrInvalidRelayState ≫= λ _,
  (if bool_decide (role = RoleSource)
   then sign_tx s r (new_claims id "" [bus] role false) (PublisherTokenTTL (config s)) now jti
   else sign_tx s r (new_claims id bus [] role false) (SubscriberTokenTTL (config s)) now jti) ≫= λ result,
  PutSession (touch now (SessionTTL (config s)) r) ≫= λ _, mret result.

Definition IssuePublisherTokenContext (s : Service) (id bus : string) (cancel : option nat) (now : Z)
    (jti : option string) (st : Store) : Store * result error encoded :=
  update s cancel now (issue_tx s id bus RoleSource jti) st.
Definition IssueSubscriberTokenContext (s : Service) (id bus : string) (cancel : option nat) (now : Z)
    (jti : option string) (st : Store) : Store * result error encoded :=
  update s cancel now (issue_tx s id bus RoleSubscriber jti) st.

(** What an accepted snapshot makes of the record, and whether it changed it. *)
Definition snapshot_changed (snapshot : RelayState) (r : SessionRecord) : bool :=
  negb (rsRevision snapshot =? rsRevision (seRelay r)) ||
  negb (bool_decide (rsBuses snapshot = rsBuses (seRelay r))) ||
  negb (bool_decide (rsSubscriptions snapshot = rsSubscriptions (seRelay r))).

Definition snapshot_active (snapshot : RelayState) : bool :=
  (len (rsSubscriptions snapshot) >? 0) || existsb bsSourceActive (rsBuses snapshot).

Definition apply_snapshot (s : Service) (now : Z) (snapshot : RelayState) (r : SessionRecord) : SessionRecord :=
  let relay := mkRelayState (rsContractVersion snapshot) (rsSessionID snapshot) (rsRelayEpoch snapshot)
                 (rsRevision snapshot) (rsWriterTerm snapshot) now (rsBuses snapshot) (rsSubscriptions snapshot) in
  let r1 := set_terms (term s) (seMediaTerm r) (set_relay relay r) in
  let r2 := if snapshot_changed snapshot r then bump_revision r1 else r1 in
  if snapshot_active snapshot then touch now (SessionTTL (config s)) r2 else r2.

Definition apply_tx (s : Service) (id : string) (snapshot : RelayState) : tx (State * bool) :=
  on_no_rows ErrNotExist (active s id) ≫= λ r, Now ≫= λ now,
  guard_tx (negb (negb (rsWriterTerm snapshot =? seMediaTerm r) || (seMediaTerm r =? 0) ||
                  negb (bool_decide (rsRelayEpoch snapshot = rsRelayEpoch (seRelay r))))) ErrWriterFenced ≫= λ _,
  if rsRevision snapshot <? rsRevision (seRelay r) then mret (session_state r, false)
  else
    guard_tx (forallb (λ b, contains (seRequiredBuses r) (bsBusID b)) (rsBuses snapshot)) ErrInvalidRelayState ≫= λ _,
    PutSession (apply_snapshot s now snapshot r) ≫= λ _,
    mret (session_state (apply_snapshot s now snapshot r), snapshot_changed snapshot r).

Definition ApplyRelayStateContext (s : Service) (id : string) (snapshot : RelayState) (cancel : option nat) (now : Z)
    (st : Store) : Store * result error (State * bool) :=
  if negb (bool_decide (rsSessionID snapshot = id)) then (st, Err ErrInvalidRelayState)
  else if negb (validateRelaySnapshot snapshot) then (st, Err ErrInvalidRelayState)
  else update s cancel now (apply_tx s id (normalizeRelaySnapshot snapshot)) st.

Definition authorizeRecord (s : Service) (r : SessionRecord) (e : encoded) (now : Z) : result error Claims :=
  match VerifyProfile (secret s) e (seIssuer r) now with
  | Err _ => Err Storage.ErrInvalidCapability
  | Ok c =>
    if negb (bool_decide (cSessionID c = seID r)) then Err Storage.ErrInvalidCapability
    else if negb (bool_decide (cIncarnation c = seIncarnation r)) &&
            (negb (bool_decide (cIncarnation c = "")) || negb (bool_decide (seIssuer r = LegacyIssuer)) ||
             IsZero (seLegacyTokensBefore r) ||
             After (default 0 (rIssuedAt (cRegistered c))) (seLegacyTokensBefore r))
    then Err Storage.ErrInvalidCapability
    else Ok c
  end.

Definition authorize_tx (s : Service) (id : string) (e : encoded) : tx Claims :=
  checkWriter s ≫= λ _, active s id ≫= λ r, Now ≫= λ now, lift (authorizeRecord s r e now).

Definition Authorize (s : Service) (id : string) (e : encoded) (cancel : option nat) (now : Z) (st : Store)
  : result error Claims := view s cancel now (authorize_tx s id e) st.

(** ** authority.go *)

Definition Ready (s : Service) (cancel : option nat) (now : Z) (st : Store) : result error unit :=
  view s cancel now
    (GetNamespace ≫= λ ns, guard_tx (nsSchemaVersion ns =? SchemaVersion) ErrWriterFenced ≫= λ _, checkWriter s) st.

Record AuthorityMetadata := mkMetadata {
  amSessionID : string; amIssuer : string; amIncarnation : string; amLegacyTokensBefore : Z;
  amMediaTerm : Z; amRelayEpoch : string; amRequiredBuses : list string }.

Definition Metadata (s : Service) (id : string) (cancel : option nat) (now : Z) (st : Store)
  : result error AuthorityMetadata :=
  view s cancel now
    (checkWriter s ≫= λ _, active s id ≫= λ r,
     mret (mkMetadata (seID r) (seIssuer r) (seIncarnation r) (seLegacyTokensBefore r) (seMediaTerm r)
             (rsRelayEpoch (seRelay r)) (seRequiredBuses r))) st.

(** The record after a media process acquires it. *)
Definition acquired (s : Service) (id epoch : string) (now : Z) (r : SessionRecord) : SessionRecord :=
  let media := u64 (seMediaTerm r + 1) in
  set_terms (term s) media
    (bump_revision (set_relay (mkRelayState 0 id epoch 0 media now [] []) r)).

Definition acquire_tx (s : Service) (id epoch : string) (expected : Z) : tx Z :=
  active s id ≫= λ r, Now ≫= λ now,
  if bool_decide (rsRelayEpoch (seRelay r) = epoch) && negb (seMediaTerm r =? 0) then mret (seMediaTerm r)
  else
    guard_tx (seMediaTerm r =? expected) ErrWriterFenced ≫= λ _,
    PutSession (acquired s id epoch now r) ≫= λ _, mret (seMediaTerm (acquired s id epoch now r)).

Definition AcquireRelayWriter (s : Service) (id epoch : string) (expected : Z) (cancel : option nat) (now : Z)
    (st : Store) : Store * result error Z :=
  if negb (validIdentifier epoch 128) then (st, Err ErrInvalidRelayState)
  else update s cancel now (acquire_tx s id epoch expected) st.

(** ** renewal.go *)

Definition renew_tx (s : Service) (id : string) (credential : encoded) (jti : option string) : tx (encoded * Z) :=
  active s id ≫= λ r, Now ≫= λ now,
  lift (authorizeRecord s r credential now) ≫= λ c,
  guard_tx (CanControl c) Storage.ErrInvalidCapability ≫= λ _,
  sign_tx s r (new_claims id "" (seRequiredBuses r) RoleSource true) (OwnerTokenTTL (config s)) now jti ≫= λ result,
  PutSession (touch now (SessionTTL (config s)) r) ≫= λ _,
  mret (result, TruncateSecond (time_Add now (OwnerTokenTTL (config s)))).

Definition RenewOwner (s : Service) (id : string) (credential : encoded) (cancel : option nat) (now : Z)
    (jti : option string) (st : Store) : Store * result error (encoded * Z) :=
  update s cancel now (renew_tx s id credential jti) st.

(** [ResetRestoredStore] *)
Fixpoint delete_rows (rows : list SessionRecord) : tx unit :=
  match rows with
  | [] => mret tt
  | r :: rows' => DeleteSession (seID r) ≫= λ _, delete_rows rows'
  end.

Definition reset_tx (maxSessions : Z) (fresh : option string) : tx unit :=
  Sessions maxSessions ≫= λ rows, delete_rows rows ≫= λ _,
  match fresh with
  | None => fail Storage.ErrRandom
  | Some id => PutNamespace (mkNamespace SchemaVersion id 0 "" zero_time)
  end.

Definition ResetRestoredStore (maxSessions : Z) (cancel : option nat) (now : Z) (fresh : option string) (st : Store)
  : Store * result error unit := Update cancel now (reset_tx maxSessions fresh) st.

(** ** Executions *)

#[export] Instance ctx_free_lift {A} (r : result error A) : CtxFree (lift r).
Proof. destruct r; apply _. Qed.
#[export] Instance ctx_free_reset_rows rows : CtxFree (reset_rows rows).
Proof. induction rows; cbn; apply _. Qed.
#[export] Instance ctx_free_delete_rows rows : CtxFree (delete_rows rows).
Proof. induction rows; cbn; apply _. Qed.
#[export] Instance ctx_free_open_tx c fresh : CtxFree (open_tx c fresh).
Proof. unfold open_tx. apply _. Qed.
#[export] Instance ctx_free_reset_tx n fresh : CtxFree (reset_tx n fresh).
Proof. unfold reset_tx. apply _. Qed.
#[export] Instance ctx_free_checkWriter s : CtxFree (checkWriter s).
Proof. unfold checkWriter. apply _. Qed.
#[export] Instance ctx_free_update_tx {A} s (fn : tx A) : CtxFree fn → CtxFree (update_tx s fn).
Proof. intros. unfold update_tx. apply _. Qed.
#[export] Instance ctx_free_active s id : CtxFree (active s id).
Proof. unfold active. apply _. Qed.
#[export] Instance ctx_free_on_no_rows {A} err (m : tx A) : CtxFree m → CtxFree (on_no_rows err m).
Proof.
  intros Hm. split; unfold on_no_rows.
  - intros e s Ha. assert (Ha' : alive (m e s).1) by (destruct (m e s) as [? [|[]]]; done).
    destruct (ctx_free e s Ha') as [H1 H2]. split; [done|]. rewrite H2. destruct (m e s) as [? [|[]]]; done.
  - intros e d. pose proof (ctx_none (m := m) e d). destruct (m e (mkTxn d None)) as [? [|[]]]; done.
Qed.
#[export] Instance ctx_free_sign_tx s r c ttl now jti : CtxFree (sign_tx s r c ttl now jti).
Proof. unfold sign_tx. destruct (SignProfile _ _ _ _ _ _ _) as [|[]]; apply _. Qed.
#[export] Instance ctx_free_create_tx s req id jti : CtxFree (create_tx s req id jti).
Proof. unfold create_tx. apply _. Qed.
#[export] Instance ctx_free_get_tx s id : CtxFree (get_tx s id).
Proof. unfold get_tx. apply _. Qed.
#[export] Instance ctx_free_delete_tx s id : CtxFree (delete_tx s id).
Proof. unfold delete_tx. apply _. Qed.
#[export] Instance ctx_free_issue_tx s id bus role jti : CtxFree (issue_tx s id bus role jti).
Proof. unfold issue_tx. apply _. Qed.
#[export] Instance ctx_free_apply_tx s id sn : CtxFree (apply_tx s id sn).
Proof. unfold apply_tx. apply _. Qed.
#[export] Instance ctx_free_authorize_tx s id e : CtxFree (authorize_tx s id e).
Proof. unfold authorize_tx. apply _. Qed.
#[export] Instance ctx_free_acquire_tx s id epoch n : CtxFree (acquire_tx s id epoch n).
Proof. unfold acquire_tx. apply _. Qed.
#[export] Instance ctx_free_renew_tx s id e jti : CtxFree (renew_tx s id e jti).
Proof. unfold renew_tx. apply _. Qed.

Abbreviation W := (mkEnv writeTransaction).

(** The live Session record under [id]: unexpired and of this incarnation. *)
Definition live (s : Service) (now : Z) (d : records) (id : string) : option SessionRecord :=
  match sessions d !! id with
  | Some r => if After (seExpiresAt r) now && bool_decide (seIncarnation r = incarnation s) then Some r else None
  | None => None
  end.

Lemma exec_active s id e d :
  exec (active s id) e d = (d, match live s (tx_now e) d id with Some r => Ok r | None => Err ErrNoRows end).
Proof.
  unfold active, Session, live. do 2 exec_step. destruct (sessions d !! id) as [r|]; [|done].
  destruct (After _ _); [|done]. by case_bool_decide.
Qed.

Lemma exec_on_no_rows {A} err (m : tx A) e d :
  exec (on_no_rows err m) e d =
  ((exec m e d).1, match (exec m e d).2 with Err ErrNoRows => Err err | r => r end).
Proof. unfold exec, on_no_rows. by destruct (m e (mkTxn d None)) as [? [|[]]]. Qed.

Lemma exec_lift {A} (r : result error A) e d : exec (lift r) e d = (d, r).
Proof. by destruct r. Qed.

Lemma exec_checkWriter s e d :
  exec (checkWriter s) e d = (d, if writes s (namespace d) then Ok tt else Err ErrWriterFenced).
Proof. unfold checkWriter, GetNamespace. exec_step. by rewrite exec_guard. Qed.

Lemma exec_sign_tx s r c ttl now jti e d :
  exec (sign_tx s r c ttl now jti) e d =
  (d, match SignProfile (secret s) (seIssuer r) (seIncarnation r) c ttl now jti with
      | Ok e => Ok e | Err ErrRandom => Err Storage.ErrRandom | Err _ => Err Storage.ErrInvalidCapability end).
Proof. unfold sign_tx. by destruct (SignProfile _ _ _ _ _ _ _) as [|[]]. Qed.

(** The records an update's callback starts from. *)
Definition prepared (s : Service) (now : Z) (d : records) : records :=
  prune now (set_namespace (renew_lease s now (namespace d)) d).

Lemma exec_update_tx {A} s (fn : tx A) `{!CtxFree fn} now d :
  exec (update_tx s fn) (W now) d =
  if writes s (namespace d) then
    if namespace_bytes (renew_lease s now (namespace d)) >? MaxRecordBytes then (d, Err ErrCapacity)
    else exec fn (W now) (prepared s now d)
  else (d, Err ErrWriterFenced).
Proof.
  unfold update_tx. rewrite exec_bind by apply _. rewrite exec_checkWriter. cbn [fst snd].
  destruct (writes s (namespace d)); [|done]. unfold GetNamespace. do 2 exec_step.
  rewrite exec_bind by apply _. rewrite exec_PutNamespace. destruct (_ >? _); [done|]. cbn [fst snd].
  rewrite exec_bind by apply _. rewrite exec_PruneExpired. done.
Qed.

(** An update that succeeds: the instance is the current writer, and the store
    holds what the callback makes of the pruned records. *)
Lemma update_ok {A} s (fn : tx A) `{!CtxFree fn} cancel now st st' a :
  update s cancel now fn st = (st', Ok a) →
  closed st = false ∧ closed st' = false ∧ writes s (namespace (store_data st)) = true ∧
  exec fn (W now) (prepared s now (store_data st)) = (store_data st', Ok a).
Proof.
  intros Hu. apply run_commits in Hu as (Hc & Hr & ->); [|apply _]. rewrite decide_True by done.
  cbn [store_data closed]. rewrite exec_update_tx in * by apply _. destruct (writes _ _); [|done]. destruct (_ >? _); [done|].
  split_and!; [done..|]. destruct (exec fn _ _) as [d' r']. cbn in *. by subst.
Qed.

Lemma update_err {A} s (fn : tx A) cancel now st st' e : update s cancel now fn st = (st', Err e) → st' = st.
Proof. apply run_rolls_back. Qed.

Lemma prepared_spec s now d :
  wf d →
  (∀ k r, sessions (prepared s now d) !! k = Some r ↔ sessions d !! k = Some r ∧ now < seExpiresAt r) ∧
  namespace (prepared s now d) = renew_lease s now (namespace d) ∧ wf (prepared s now d).
Proof.
  intros Hw. destruct (prune_spec now (set_namespace (renew_lease s now (namespace d)) d) Hw) as (H1 & _ & _ & H2 & H3).
  split_and!; [exact H1|exact H2|exact H3].
Qed.

Lemma live_prepared s now d id : wf d → live s now (prepared s now d) id = live s now d id.
Proof.
  intros Hw. destruct (prepared_spec s now d Hw) as (Hp & _ & _). unfold live.
  destruct (sessions d !! id) as [r|] eqn:Hr.
  - destruct (sessions (prepared s now d) !! id) as [r'|] eqn:Hr'.
    + apply Hp in Hr' as [Hr' _]. assert (r' = r) by congruence. by subst.
    + unfold After. destruct (Z.ltb_spec now (seExpiresAt r)); [|done].
      assert (sessions (prepared s now d) !! id = Some r) by (by apply Hp). congruence.
  - destruct (sessions (prepared s now d) !! id) as [r'|] eqn:Hr'; [|done]. apply Hp in Hr' as [Hr' _]. congruence.
Qed.

Lemma live_some s now d id r :
  live s now d id = Some r →
  sessions d !! id = Some r ∧ now < seExpiresAt r ∧ seIncarnation r = incarnation s.
Proof.
  unfold live, After. destruct (sessions d !! id) as [r'|]; [|done].
  destruct (Z.ltb_spec now (seExpiresAt r')); [|done]. cbn [andb]. case_bool_decide; [|done]. intros [= <-]. done.
Qed.

(** *** What each operation does when it succeeds *)

Definition put (r : SessionRecord) (d : records) : records := set_sessions (<[seID r := r]> (sessions d)) d.

Lemma exec_put {A} r now d (m : tx A) d' a :
  exec (PutSession r ≫= λ _, m) (W now) d = (d', Ok a) → exec m (W now) (put r d) = (d', Ok a).
Proof. rewrite exec_bind by apply _. rewrite exec_PutSession. by destruct (_ >? _). Qed.

Lemma sign_ok {A} s r c ttl now0 jti (f : encoded → tx A) e d d' a :
  (∀ t, CtxFree (f t)) →
  exec (sign_tx s r c ttl now0 jti ≫= f) e d = (d', Ok a) →
  ∃ t, SignProfile (secret s) (seIssuer r) (seIncarnation r) c ttl now0 jti = Ok t ∧ exec (f t) e d = (d', Ok a).
Proof.
  intros Hf. rewrite exec_bind by apply _. rewrite exec_sign_tx. cbn [fst snd].
  destruct (SignProfile _ _ _ _ _ _ _) as [t|[]]; [eauto|done..].
Qed.

Lemma active_ok {A} s id (f : SessionRecord → tx A) e d d' a :
  (∀ r, CtxFree (f r)) →
  exec (active s id ≫= f) e d = (d', Ok a) →
  ∃ r, live s (tx_now e) d id = Some r ∧ exec (f r) e d = (d', Ok a).
Proof.
  intros Hf. rewrite exec_bind by apply _. rewrite exec_active. cbn [fst snd].
  destruct (live _ _ _ _) as [r|]; [eauto|done].
Qed.

Lemma guard_ok {A} b err (m : tx A) e d d' a :
  exec (guard_tx b err ≫= λ _, m) e d = (d', Ok a) → b = true ∧ exec m e d = (d', Ok a).
Proof. rewrite exec_bind by apply _. rewrite exec_guard. by destruct b. Qed.

Lemma Now_ok {A} (f : Z → tx A) e d : exec (Now ≫= f) e d = exec (f (tx_now e)) e d.
Proof. rewrite exec_bind by apply _. done. Qed.

Lemma read_ok {A B} (g : records → B) (f : B → tx A) e d : exec (read g ≫= f) e d = exec (f (g d)) e d.
Proof. rewrite exec_bind by apply _. done. Qed.

Definition new_record (s : Service) (id : string) (required : list string) (now : Z) : SessionRecord :=
  mkSessionRecord SchemaVersion id Issuer (incarnation s) zero_time required "opus" 1 no_relay (term s) 0
    now (time_Add now (SessionTTL (config s))).

Lemma create_ok s required id jti now d d' r e :
  exec (create_tx s required id jti) (W now) d = (d', Ok (r, e)) →
  ∃ id', id = Some id' ∧ Z.of_nat (size (sessions d)) < MaxSessions (config s) ∧
    r = new_record s id' required now ∧
    SignProfile (secret s) Issuer (incarnation s) (new_claims id' "" required RoleSource true)
      (OwnerTokenTTL (config s)) now jti = Ok e ∧
    d' = put r d.
Proof.
  unfold create_tx, GetCounts. rewrite read_ok, Now_ok. intros Hex. apply guard_ok in Hex as [Hg Hex].
  destruct id as [id'|]; [|done]. cbv zeta in Hex. fold (new_record s id' required now) in Hex.
  apply sign_ok in Hex as (t & Ht & Hex); [|apply _]. apply exec_put in Hex. rewrite exec_ret in Hex.
  injection Hex as <- <- <-. cbn [SessionCount] in Hg. bool_hyps. exists id'. split_and!; [done|lia|done|done|done].
Qed.

Lemma get_ok s id now d d' r' :
  exec (get_tx s id) (W now) d = (d', Ok r') →
  ∃ r, live s now d id = Some r ∧
    (r' = r ∧ d' = d ∨ r' = clear_observation r ∧ d' = put r' d).
Proof.
  unfold get_tx. intros Hex. apply active_ok in Hex as (r & Hr & Hex); [|apply _]. rewrite Now_ok in Hex.
  exists r. split; [done|]. case_if.
  - apply exec_put in Hex. rewrite exec_ret in Hex. injection Hex as <- <-. by right.
  - rewrite exec_ret in Hex. injection Hex as <- <-. by left.
Qed.

Lemma delete_ok s id now d d' b :
  exec (delete_tx s id) (W now) d = (d', Ok b) →
  (∃ r, b = true ∧ live s now d id = Some r ∧ d' = drop_session id d) ∨
  (b = false ∧ live s now d id = None ∧ d' = d).
Proof.
  unfold delete_tx, Session, live. rewrite read_ok, Now_ok. cbn [tx_now]. destruct (sessions d !! id) as [r|].
  - destruct (After (seExpiresAt r) now); [|intros [= <- <-]; by right].
    case_bool_decide; cbn [negb orb andb]; [|intros [= <- <-]; by right].
    rewrite exec_bind by apply _. rewrite exec_DeleteSession. intros [= <- <-]. left. eauto.
  - intros [= <- <-]. by right.
Qed.

(** The claims of an issued capability and its lifetime. *)
Definition issued_claims (id bus : string) (role : Role) : Claims :=
  if bool_decide (role = RoleSource) then new_claims id "" [bus] role false else new_claims id bus [] role false.
Definition issued_ttl (s : Service) (role : Role) : Z :=
  if bool_decide (role = RoleSource) then PublisherTokenTTL (config s) else SubscriberTokenTTL (config s).

Lemma issue_ok s id bus role jti now d d' e :
  exec (issue_tx s id bus role jti) (W now) d = (d', Ok e) →
  ∃ r, live s now d id = Some r ∧ (bus = "mix" ∨ contains (seRequiredBuses r) bus = true) ∧
    (role = RoleSource → bus ≠ "mix") ∧
    SignProfile (secret s) (seIssuer r) (seIncarnation r) (issued_claims id bus role) (issued_ttl s role) now jti = Ok e ∧
    d' = put (touch now (SessionTTL (config s)) r) d.
Proof.
  unfold issue_tx, issued_claims, issued_ttl. intros Hex. apply active_ok in Hex as (r & Hr & Hex); [|apply _].
  rewrite Now_ok in Hex. apply guard_ok in Hex as [Hg1 Hex]. apply guard_ok in Hex as [Hg2 Hex]. exists r.
  assert (Hm : bus = "mix" ∨ contains (seRequiredBuses r) bus = true).
  { apply orb_true_iff in Hg1 as [Hb|Hb]; [left; by apply bool_decide_eq_true in Hb|by right]. }
  assert (Hs : role = RoleSource → bus ≠ "mix").
  { intros ->. rewrite bool_decide_true in Hg2 by done. cbn in Hg2. by case_bool_decide. }
  case_bool_decide as Hrole; apply sign_ok in Hex as (t & Ht & Hex); try apply _;
    apply exec_put in Hex; rewrite exec_ret in Hex; injection Hex as <- <-; done.
Qed.

Lemma apply_ok s id sn now d d' st changed :
  exec (apply_tx s id sn) (W now) d = (d', Ok (st, changed)) →
  ∃ r, live s now d id = Some r ∧ rsWriterTerm sn = seMediaTerm r ∧ seMediaTerm r ≠ 0 ∧
    rsRelayEpoch sn = rsRelayEpoch (seRelay r) ∧
    ((rsRevision sn < rsRevision (seRelay r) ∧ d' = d ∧ st = session_state r ∧ changed = false) ∨
     (rsRevision (seRelay r) <= rsRevision sn ∧
      Forall (λ b, contains (seRequiredBuses r) (bsBusID b) = true) (rsBuses sn) ∧
      d' = put (apply_snapshot s now sn r) d ∧
      st = session_state (apply_snapshot s now sn r) ∧ changed = snapshot_changed sn r)).
Proof.
  unfold apply_tx. rewrite exec_bind by apply _. rewrite exec_on_no_rows, exec_active. cbn [fst snd tx_now].
  destruct (live s now d id) as [r|] eqn:Hr; [|done]. rewrite Now_ok. intros Hex.
  apply guard_ok in Hex as [Hg Hex]. exists r. bool_hyps. split_and!; try done.
  destruct (Z.ltb_spec (rsRevision sn) (rsRevision (seRelay r))) as [Hlt|Hge].
  - rewrite exec_ret in Hex. injection Hex as <- <- <-. by left.
  - right. apply guard_ok in Hex as [Hb Hex]. apply exec_put in Hex. rewrite exec_ret in Hex.
    injection Hex as <- <- <-. split_and!; try done. apply Forall_forall. intros b Hin.
    rewrite forallb_forall in Hb. by apply Hb, list_elem_of_In.
Qed.

Lemma acquire_ok s id epoch expected now d d' t :
  exec (acquire_tx s id epoch expected) (W now) d = (d', Ok t) →
  ∃ r, live s now d id = Some r ∧
    ((rsRelayEpoch (seRelay r) = epoch ∧ seMediaTerm r ≠ 0 ∧ t = seMediaTerm r ∧ d' = d) ∨
     (seMediaTerm r = expected ∧ (rsRelayEpoch (seRelay r) ≠ epoch ∨ seMediaTerm r = 0) ∧
      t = u64 (seMediaTerm r + 1) ∧ d' = put (acquired s id epoch now r) d)).
Proof.
  unfold acquire_tx. intros Hex. apply active_ok in Hex as (r & Hr & Hex); [|apply _]. rewrite Now_ok in Hex.
  exists r. split; [done|]. case_bool_decide as He; cbn [andb] in Hex.
  - destruct (Z.eqb_spec (seMediaTerm r) 0) as [Hz|Hz]; cbn [negb] in Hex.
    + apply guard_ok in Hex as [Hg Hex]. apply exec_put in Hex. rewrite exec_ret in Hex.
      injection Hex as <- <-. bool_hyps. right. split_and!; try done. by right.
    + rewrite exec_ret in Hex. injection Hex as <- <-. by left.
  - apply guard_ok in Hex as [Hg Hex]. apply exec_put in Hex. rewrite exec_ret in Hex.
    injection Hex as <- <-. bool_hyps. right. split_and!; try done. by left.
Qed.

Lemma renew_ok s id credential jti now d d' e expires :
  exec (renew_tx s id credential jti) (W now) d = (d', Ok (e, expires)) →
  ∃ r c, live s now d id = Some r ∧ authorizeRecord s r credential now = Ok c ∧ CanControl c = true ∧
    SignProfile (secret s) (seIssuer r) (seIncarnation r) (new_claims id "" (seRequiredBuses r) RoleSource true)
      (OwnerTokenTTL (config s)) now jti = Ok e ∧
    expires = TruncateSecond (now + OwnerTokenTTL (config s)) ∧
    d' = put (touch now (SessionTTL (config s)) r) d.
Proof.
  unfold renew_tx. intros Hex. apply active_ok in Hex as (r & Hr & Hex); [|apply _]. rewrite Now_ok in Hex.
  rewrite exec_bind in Hex by apply _. rewrite exec_lift in Hex. cbn [fst snd tx_now] in Hex.
  destruct (authorizeRecord s r credential now) as [c|] eqn:Hc; [|done].
  apply guard_ok in Hex as [Hg Hex]. apply sign_ok in Hex as (t & Ht & Hex); [|apply _].
  apply exec_put in Hex. rewrite exec_ret in Hex. injection Hex as <- <- <-. exists r, c. by split_and!.
Qed.

(** ** Sequences of operations *)

(** Everything the instances of the service do to a store. *)
Inductive access_op :=
| AOpen (key : list Z) (c : Config) (cancel : option nat) (now : Z) (fresh : option string)
| AReset (maxSessions : Z) (cancel : option nat) (now : Z) (fresh : option string)
| ACreate (s : Service) (required : list string) (cancel : option nat) (now : Z) (id jti : option string)
| AGet (s : Service) (id : string) (cancel : option nat) (now : Z)
| ADelete (s : Service) (id : string) (cancel : option nat) (now : Z)
| AIssue (s : Service) (id bus : string) (role : Role) (cancel : option nat) (now : Z) (jti : option string)
| AApply (s : Service) (id : string) (snapshot : RelayState) (cancel : option nat) (now : Z)
| AAcquire (s : Service) (id epoch : string) (expected : Z) (cancel : option nat) (now : Z)
| ARenew (s : Service) (id : string) (credential : encoded) (cancel : option nat) (now : Z) (jti : option string).

Definition access_apply (st : Store) (o : access_op) : Store :=
  match o with
  | AOpen key c cancel now fresh => (NewService key c cancel now fresh st).1
  | AReset n cancel now fresh => (ResetRestoredStore n cancel now fresh st).1
  | ACreate s required cancel now id jti => (CreateContext s required cancel now id jti st).1
  | AGet s id cancel now => (GetContext s id cancel now st).1
  | ADelete s id cancel now => (DeleteContext s id cancel now st).1
  | AIssue s id bus role cancel now jti => (update s cancel now (issue_tx s id bus role jti) st).1
  | AApply s id sn cancel now => (ApplyRelayStateContext s id sn cancel now st).1
  | AAcquire s id epoch expected cancel now => (AcquireRelayWriter s id epoch expected cancel now st).1
  | ARenew s id credential cancel now jti => (RenewOwner s id credential cancel now jti st).1
  end.

(** The Session an operation creates, and the instance that runs it. *)
Definition creates (o : access_op) : option string :=
  match o with ACreate _ _ _ _ id _ => id | _ => None end.
Definition runs (o : access_op) : option Service :=
  match o with
  | AOpen _ _ _ _ _ | AReset _ _ _ _ => None
  | ACreate s _ _ _ _ _ | AGet s _ _ _ | ADelete s _ _ _ | AIssue s _ _ _ _ _ _ | AApply s _ _ _ _
  | AAcquire s _ _ _ _ _ | ARenew s _ _ _ _ _ => Some s
  end.

(** The epoch an operation places a Session in, and its instant. *)
Definition places (o : access_op) : option string :=
  match o with AAcquire _ _ epoch _ _ _ => Some epoch | _ => None end.
Definition instant (o : access_op) : Z :=
  match o with
  | AOpen _ _ _ now _ | AReset _ _ now _ | ACreate _ _ _ now _ _ | AGet _ _ _ now | ADelete _ _ _ now
  | AIssue _ _ _ _ _ now _ | AApply _ _ _ _ now | AAcquire _ _ _ _ _ now | ARenew _ _ _ _ now _ => now
  end.

(** The media fence of a record: its placement term and the epoch that holds it. *)
Definition fence (r : SessionRecord) : Z * string := (seMediaTerm r, rsRelayEpoch (seRelay r)).

(** How one operation at [now] moves a record: only a live record gets a longer
    life, and the fence is kept or advanced by one into the epoch placed. *)
Record moved (now : Z) (epoch : option string) (r r' : SessionRecord) : Prop := {
  mv_incarnation : seIncarnation r' = seIncarnation r;
  mv_expiry : seExpiresAt r' = seExpiresAt r ∨ now < seExpiresAt r;
  mv_fence : fence r' = fence r ∨
             seMediaTerm r' = u64 (seMediaTerm r + 1) ∧ epoch = Some (rsRelayEpoch (seRelay r')) }.

Lemma moved_refl now epoch r : moved now epoch r r.
Proof. split; auto. Qed.
#[local] Hint Resolve moved_refl : core.

(** How the record of a Session moves, unless it is new. *)
Definition media_step (now : Z) (epoch created : option string) (d d' : records) : Prop :=
  ∀ k r', sessions d' !! k = Some r' → (∃ r, sessions d !! k = Some r ∧ moved now epoch r r') ∨ created = Some k.

(** No invitation grant and no retry receipt appears. *)
Definition no_new (d d' : records) : Prop := grants d' ⊆ grants d ∧ receipts d' ⊆ receipts d.

Lemma no_new_refl d : no_new d d.
Proof. done. Qed.
Lemma no_new_trans d1 d2 d3 : no_new d1 d2 → no_new d2 d3 → no_new d1 d3.
Proof. intros [G1 R1] [G2 R2]. split; by etransitivity. Qed.

Lemma drop_session_no_new id d : no_new d (drop_session id d).
Proof.
  destruct (drop_session_spec id d) as (_ & H2 & H3 & _).
  split; apply map_subseteq_spec; intros k x Hk; [by apply H2 in Hk as [Hk _]|by apply H3 in Hk as [Hk _]].
Qed.

Lemma prepared_no_new s now d : wf d → no_new d (prepared s now d).
Proof.
  intros Hw. destruct (prune_spec now (set_namespace (renew_lease s now (namespace d)) d) Hw) as (_ & H2 & H3 & _).
  split; apply map_subseteq_spec; intros k x Hk; [by apply H2 in Hk as [Hk _]|by apply H3 in Hk as [Hk _]].
Qed.

#[local] Hint Resolve no_new_refl drop_session_no_new : core.

(** What a callback does to the records, as far as the fences and the capacity
    are concerned; [n] bounds the Sessions if the callback may add one. *)
Record effect (n : option Z) (now : Z) (epoch created : option string) (d d' : records) : Prop := {
  eff_wf : wf d';
  eff_ns : namespace d' = namespace d;
  eff_size : Z.of_nat (size (sessions d')) <= Z.of_nat (size (sessions d)) ∨
             ∃ m, n = Some m ∧ Z.of_nat (size (sessions d')) <= m;
  eff_media : media_step now epoch created d d';
  eff_new : no_new d d' }.

Lemma effect_refl n now epoch created d : wf d → effect n now epoch created d d.
Proof. intros Hw. split; [done|done|by left| |done]. intros k r' Hk. left. eauto. Qed.

(** A record replaced by another of the same identity. *)
Lemma put_effect n now epoch created r r' d :
  wf d → sessions d !! seID r' = Some r → moved now epoch r r' → effect n now epoch created d (put r' d).
Proof.
  intros Hw Hr Hm. split; [by apply put_session_wf|done| | |done].
  - left. unfold put. cbn [sessions set_sessions]. rewrite map_size_insert_Some by (rewrite Hr; eauto). lia.
  - intros k x Hk. cbn in Hk. apply lookup_insert_Some in Hk as [[<- <-]|[_ Hk]]; left; eauto.
Qed.

Lemma create_effect s required id jti now d d' x :
  wf d → exec (create_tx s required id jti) (W now) d = (d', Ok x) →
  effect (Some (MaxSessions (config s))) now None id d d'.
Proof.
  intros Hw Hex. destruct x as [r e]. apply create_ok in Hex as (id' & -> & Hn & -> & _ & ->).
  split; [by apply put_session_wf|done| | |done].
  - right. eexists. split; [done|]. unfold put. cbn [sessions set_sessions seID new_record].
    rewrite map_size_insert. case_match; cbv [id]; lia.
  - intros k x Hk. cbn in Hk. apply lookup_insert_Some in Hk as [[<- _]|[_ Hk]]; [by right|left; eauto].
Qed.

Lemma drop_session_effect n now epoch created id d : wf d → effect n now epoch created d (drop_session id d).
Proof.
  intros Hw. destruct (drop_session_spec id d) as (H1 & _ & _ & H4 & _). split.
  - by apply drop_session_wf.
  - done.
  - left. rewrite H1. pose proof (map_subseteq_size (delete id (sessions d)) (sessions d) (delete_subseteq _ _)). lia.
  - intros k r' Hk. rewrite H1 in Hk. apply lookup_delete_Some in Hk as [_ Hk]. left. eauto.
  - auto.
Qed.

Lemma live_lookup s now d id r :
  wf d → live s now d id = Some r → sessions d !! seID r = Some r.
Proof.
  intros [_ (Hid & _)] Hl. apply live_some in Hl as (Hr & _). by rewrite (Hid id r Hr).
Qed.

Lemma apply_snapshot_keeps s now sn r :
  seID (apply_snapshot s now sn r) = seID r ∧ seMediaTerm (apply_snapshot s now sn r) = seMediaTerm r.
Proof. unfold apply_snapshot. by repeat case_if. Qed.

Lemma apply_snapshot_moved s now epoch sn r :
  rsRelayEpoch sn = rsRelayEpoch (seRelay r) → now < seExpiresAt r → moved now epoch r (apply_snapshot s now sn r).
Proof. intros He Hl. unfold apply_snapshot. repeat case_if; (split; [done|by auto|left; unfold fence; cbn; by rewrite He]). Qed.

Lemma touch_moved now epoch ttl r : now < seExpiresAt r → moved now epoch r (touch now ttl r).
Proof. intros Hl. split; auto. Qed.

(** Every operation of an instance either leaves the store alone or is such an
    effect on the prepared records. *)
Lemma service_step st o s :
  wf (store_data st) → runs o = Some s →
  access_apply st o = st ∨
  writes s (namespace (store_data st)) = true ∧
    effect (Some (MaxSessions (config s))) (instant o) (places o) (creates o) (prepared s (instant o) (store_data st))
      (store_data (access_apply st o)).
Proof.
  intros Hw Ho. destruct o; cbn in Ho; simplify_eq; cbn [access_apply creates places instant];
    unfold CreateContext, GetContext, DeleteContext, ApplyRelayStateContext, AcquireRelayWriter, RenewOwner.
  1: destruct (validateRequiredBuses _); [|by left].
  5: case_if; [by left|]; case_if; [by left|].
  6: case_if; [by left|].
  all: destruct (update _ _ _ _ st) as [st' [x|err]] eqn:Hu; [|left; by apply update_err in Hu].
  all: cbn [fst]; right; apply update_ok in Hu as (_ & _ & Hwr & Hex); [|apply _]; split; [done|].
  all: destruct (prepared_spec s now (store_data st) Hw) as (_ & _ & Hwp).
  - by eapply create_effect.
  - apply get_ok in Hex as (r & Hr & [[-> ->]|[-> ->]]); [by apply effect_refl|].
    apply (put_effect _ _ _ _ r); [done|exact (live_lookup s now _ id r Hwp Hr)|split; auto].
  - apply delete_ok in Hex as [(r & _ & _ & ->)|(_ & _ & ->)]; [by apply drop_session_effect|by apply effect_refl].
  - apply issue_ok in Hex as (r & Hr & _ & _ & _ & ->). pose proof (live_some _ _ _ _ _ Hr) as (_ & Hl & _).
    apply (put_effect _ _ _ _ r); [done|exact (live_lookup s now _ id r Hwp Hr)|by apply touch_moved].
  - destruct x as [x c]. apply apply_ok in Hex as (r & Hr & _ & _ & He & [(_ & -> & _)|(_ & _ & -> & _)]); [by apply effect_refl|].
    destruct (apply_snapshot_keeps s now (normalizeRelaySnapshot snapshot) r) as [Hid _].
    pose proof (live_some _ _ _ _ _ Hr) as (_ & Hl & _).
    apply (put_effect _ _ _ _ r); [done|rewrite Hid; exact (live_lookup s now _ id r Hwp Hr)|by apply apply_snapshot_moved].
  - apply acquire_ok in Hex as (r & Hr & [(_ & _ & _ & ->)|(_ & _ & _ & ->)]); [by apply effect_refl|].
    apply (put_effect _ _ _ _ r); [done|exact (live_lookup s now _ id r Hwp Hr)|split; auto].
  - destruct x as [x c]. apply renew_ok in Hex as (r & c' & Hr & _ & _ & _ & _ & ->).
    pose proof (live_some _ _ _ _ _ Hr) as (_ & Hl & _).
    apply (put_effect _ _ _ _ r); [done|exact (live_lookup s now _ id r Hwp Hr)|by apply touch_moved].
Qed.

(** *** Opening and resetting a store *)

(** No Session is added, and no media fence moves. *)
Definition kept (r r' : SessionRecord) : Prop :=
  seIncarnation r' = seIncarnation r ∧ seExpiresAt r' = seExpiresAt r ∧ fence r' = fence r.

Lemma kept_refl r : kept r r.
Proof. done. Qed.
Lemma kept_moved now epoch r r' : kept r r' → moved now epoch r r'.
Proof. intros (? & ? & ?). split; auto. Qed.
#[local] Hint Resolve kept_refl kept_moved : core.

Record quiet (d d' : records) : Prop := {
  q_wf : wf d';
  q_ns : namespace d' = namespace d;
  q_size : (size (sessions d') <= size (sessions d))%nat;
  q_media : ∀ k r', sessions d' !! k = Some r' → ∃ r, sessions d !! k = Some r ∧ kept r r';
  q_new : no_new d d' }.

Lemma quiet_refl d : wf d → quiet d d.
Proof. intros Hw. split; [done|done|done|eauto|done]. Qed.

Lemma quiet_trans d1 d2 d3 : quiet d1 d2 → quiet d2 d3 → quiet d1 d3.
Proof.
  intros [W1 N1 S1 M1 K1] [W2 N2 S2 M2 K2]. split; [done|congruence|lia| |by eapply no_new_trans].
  intros k r3 Hk. destruct (M2 k r3 Hk) as (r2 & Hk2 & E2). destruct (M1 k r2 Hk2) as (r1 & Hk1 & E1).
  exists r1. split; [done|]. destruct E1 as (? & ? & ?), E2 as (? & ? & ?). split_and!; congruence.
Qed.

Lemma put_quiet r r' d :
  wf d → sessions d !! seID r' = Some r → kept r r' → quiet d (put r' d).
Proof.
  intros Hw Hr Hm. split; [by apply put_session_wf|done| | |done].
  - unfold put. cbn [sessions set_sessions]. rewrite map_size_insert_Some by (rewrite Hr; eauto). lia.
  - intros k x Hk. cbn in Hk. apply lookup_insert_Some in Hk as [[<- <-]|[_ Hk]]; eauto.
Qed.

Lemma drop_session_quiet id d : wf d → quiet d (drop_session id d).
Proof.
  intros Hw. destruct (drop_session_spec id d) as (H1 & _ & _ & H4 & _). split; [by apply drop_session_wf|done| | |auto].
  - rewrite H1. apply map_subseteq_size, delete_subseteq.
  - intros k r' Hk. rewrite H1 in Hk. apply lookup_delete_Some in Hk as [_ Hk]. eauto.
Qed.

Lemma exec_Sessions limit e d :
  (exec (Sessions limit) e d).1 = d ∧
  ∀ rows, (exec (Sessions limit) e d).2 = Ok rows → rows = map snd (sort_keys (map_to_list (sessions d))).
Proof.
  unfold Sessions. case_if; [done|]. exec_step. case_if; [done|]. split; [done|]. by intros rows [= <-].
Qed.

Lemma reset_rows_quiet rows now d d' :
  wf d → Forall (λ r, ∃ r0, sessions d !! seID r = Some r0 ∧ kept r0 r) rows →
  exec (reset_rows rows) (W now) d = (d', Ok tt) → quiet d d'.
Proof.
  revert d. induction rows as [|r rows IH]; intros d Hw Hrows Hex.
  { cbn in Hex. injection Hex as <-. by apply quiet_refl. }
  apply Forall_cons in Hrows as [(r0 & Hr0 & Hm0) Hrows]. cbn [reset_rows] in Hex.
  rewrite exec_bind in Hex by apply _. destruct (observed r).
  - rewrite exec_PutSession in Hex. destruct (_ >? _); [done|]. cbn [fst snd] in Hex.
    assert (Hq : quiet d (put (clear_observation r) d)) by (by apply (put_quiet r0)).
    apply (quiet_trans _ _ _ Hq). apply IH; [apply Hq| |exact Hex].
    eapply Forall_impl; [exact Hrows|]. intros r1 (r2 & Hr2 & Hm2). cbn [put set_sessions sessions].
    destruct (decide (seID (clear_observation r) = seID r1)) as [E|E].
    + rewrite E, lookup_insert_eq. exists (clear_observation r). split; [done|].
      cbn in E. rewrite E in Hr0. assert (r2 = r0) by congruence. subst r2.
      destruct Hm0 as (? & ? & Hf0), Hm2 as (? & ? & Hf2). unfold kept, fence in *. cbn. split_and!; congruence.
    + rewrite lookup_insert_ne by done. eauto.
  - rewrite exec_ret in Hex. by apply IH.
Qed.

Lemma delete_rows_quiet rows now d d' :
  wf d → exec (delete_rows rows) (W now) d = (d', Ok tt) → quiet d d'.
Proof.
  revert d. induction rows as [|r rows IH]; intros d Hw Hex.
  { cbn in Hex. injection Hex as <-. by apply quiet_refl. }
  cbn [delete_rows] in Hex. rewrite exec_bind in Hex by apply _. rewrite exec_DeleteSession in Hex. cbn [fst snd] in Hex.
  eapply quiet_trans; [by apply drop_session_quiet|]. apply IH; [by apply drop_session_wf|done].
Qed.

Lemma open_ok c fresh now d d' ns :
  wf d → exec (open_tx c fresh) (W now) d = (d', Ok ns) →
  open_namespace (WriterID c) now (WriterLeaseDuration c) fresh (namespace d) = Ok ns ∧ quiet (set_namespace ns d) d'.
Proof.
  intros Hw. unfold open_tx, GetNamespace. rewrite read_ok, Now_ok. rewrite exec_bind by apply _. rewrite exec_lift.
  cbn [fst snd tx_now]. destruct (open_namespace _ _ _ _ _) as [ns'|]; [|done].
  rewrite exec_bind by apply _. rewrite exec_PutNamespace. destruct (_ >? _); [done|]. cbn [fst snd].
  rewrite exec_bind by apply _. destruct (exec_Sessions (MaxSessions c) (W now) (set_namespace ns' d)) as [Hs Hrows].
  rewrite Hs. destruct (exec (Sessions _) _ _).2 as [rows|]; [|done]. specialize (Hrows rows eq_refl).
  rewrite exec_bind by apply _. destruct (exec (reset_rows rows) _ _) as [d1 [[]|]] eqn:Hex; [|done]. cbn [fst snd].
  rewrite exec_ret. intros [= <- <-]. split; [done|]. eapply reset_rows_quiet; [exact Hw| |exact Hex].
  subst rows. apply Forall_forall. intros r Hin. apply list_elem_of_In, in_map_iff in Hin as ([k r'] & <- & Hin).
  apply list_elem_of_In, elem_of_sort_keys, elem_of_map_to_list in Hin. destruct Hw as [_ (Hid & _)]. cbn in Hin |- *.
  rewrite (Hid k r' Hin). eauto.
Qed.

(** What a start makes of a stored Session: nobody is connected to it. *)
Definition reopened (r : SessionRecord) : SessionRecord := if observed r then clear_observation r else r.

Lemma reset_rows_exact rows now d d' :
  NoDup (seID <$> rows) → Forall (λ r, sessions d !! seID r = Some r) rows →
  exec (reset_rows rows) (W now) d = (d', Ok tt) →
  ∃ m, d' = set_sessions m d ∧
       ∀ k, m !! k = if bool_decide (k ∈ (seID <$> rows)) then reopened <$> sessions d !! k else sessions d !! k.
Proof.
  revert d. induction rows as [|r rows IH]; intros d Hnd Hrows Hex.
  { cbn in Hex. injection Hex as <-. exists (sessions d). split; [by destruct d|done]. }
  rewrite fmap_cons in Hnd. apply NoDup_cons in Hnd as [Hni Hnd]. apply Forall_cons in Hrows as [Hr Hrows].
  cbn [reset_rows] in Hex. rewrite exec_bind in Hex by apply _.
  assert (Hput : ∃ d1, d1 = set_sessions (<[seID r := reopened r]> (sessions d)) d ∧
                       exec (reset_rows rows) (W now) d1 = (d', Ok tt)).
  { unfold reopened. destruct (observed r).
    - rewrite exec_PutSession in Hex. destruct (_ >? _); [done|]. by eexists.
    - rewrite exec_ret in Hex. cbn [fst snd] in Hex. exists d. split; [|done]. rewrite insert_id by done. by destruct d. }
  destruct Hput as (d1 & -> & Hex1). apply IH in Hex1 as (m & -> & Hm); [|done|].
  - exists m. split; [done|]. intros k. rewrite Hm. cbn [set_sessions sessions]. rewrite fmap_cons.
    destruct (decide (k = seID r)) as [->|Hk].
    + rewrite bool_decide_false, lookup_insert_eq, bool_decide_true, Hr by (done || left). done.
    + rewrite lookup_insert_ne by done.
      rewrite (bool_decide_ext (k ∈ seID r :: (seID <$> rows)) (k ∈ (seID <$> rows))); [done|].
      rewrite elem_of_cons. naive_solver.
  - apply Forall_forall. intros r1 Hin. rewrite Forall_forall in Hrows. cbn [set_sessions sessions].
    rewrite lookup_insert_ne; [by apply Hrows|]. intros E. apply Hni. rewrite E. by apply list_elem_of_fmap_2.
Qed.

Lemma open_exact c fresh now d d' ns :
  wf d → exec (open_tx c fresh) (W now) d = (d', Ok ns) →
  d' = set_sessions (reopened <$> sessions d) (set_namespace ns d).
Proof.
  intros Hw. unfold open_tx, GetNamespace. rewrite read_ok, Now_ok. rewrite exec_bind by apply _. rewrite exec_lift.
  cbn [fst snd tx_now]. destruct (open_namespace _ _ _ _ _) as [ns'|]; [|done].
  rewrite exec_bind by apply _. rewrite exec_PutNamespace. destruct (_ >? _); [done|]. cbn [fst snd].
  rewrite exec_bind by apply _. destruct (exec_Sessions (MaxSessions c) (W now) (set_namespace ns' d)) as [Hs Hrows].
  rewrite Hs. destruct (exec (Sessions _) _ _).2 as [rows|]; [|done]. specialize (Hrows rows eq_refl).
  rewrite exec_bind by apply _. destruct (exec (reset_rows rows) _ _) as [d1 [[]|]] eqn:Hex; [|done]. cbn [fst snd].
  rewrite exec_ret. intros [= <- <-]. destruct Hw as [_ (Hid & _)]. cbn [set_namespace sessions] in Hrows.
  set (l := sort_keys (map_to_list (sessions d))) in *. change (map snd l) with (snd <$> l) in Hrows. subst rows.
  assert (Hl : Forall (λ kv, sessions d !! kv.1 = Some kv.2) l).
  { apply Forall_forall. intros [k r] Hin. by apply elem_of_sort_keys, elem_of_map_to_list in Hin. }
  assert (Hperm : l ≡ₚ map_to_list (sessions d)) by (unfold l, sort_keys; by rewrite merge_sort_Permutation).
  assert (Hkeys : seID <$> (snd <$> l) = fst <$> l).
  { rewrite <- list_fmap_compose. apply map_ext_Forall.
    eapply Forall_impl; [exact Hl|]. intros [k r] Hk. by apply Hid. }
  apply reset_rows_exact in Hex as (m & -> & Hm).
  - f_equal. apply map_eq. intros k. rewrite Hm, lookup_fmap, Hkeys. cbn [set_namespace sessions].
    case_bool_decide as Hk; [done|]. destruct (sessions d !! k) as [r|] eqn:Hr; [|done]. exfalso. apply Hk.
    rewrite Hperm. apply list_elem_of_fmap. exists (k, r). split; [done|]. by apply elem_of_map_to_list.
  - rewrite Hkeys, Hperm. apply NoDup_fst_map_to_list.
  - apply Forall_fmap. eapply Forall_impl; [exact Hl|]. intros [k r] Hk. cbn in *. by rewrite (Hid k r Hk).
Qed.

Lemma reset_ok n fresh now d d' :
  wf d → exec (reset_tx n fresh) (W now) d = (d', Ok tt) →
  ∃ id d1, fresh = Some id ∧ quiet d d1 ∧ d' = set_namespace (mkNamespace SchemaVersion id 0 "" zero_time) d1.
Proof.
  intros Hw. unfold reset_tx. rewrite exec_bind by apply _. destruct (exec_Sessions n (W now) d) as [Hs _]. rewrite Hs.
  destruct (exec (Sessions _) _ _).2 as [rows|]; [|done]. rewrite exec_bind by apply _.
  destruct (exec (delete_rows rows) _ _) as [d1 [[]|]] eqn:Hex; [|done]. cbn [fst snd].
  destruct fresh as [id|]; [|done]. rewrite exec_PutNamespace. destruct (_ >? _); [done|]. intros [= <-].
  exists id, d1. split_and!; [done| |done]. by eapply delete_rows_quiet.
Qed.

(** One operation of any kind, on consistent records. *)
Definition open_result (c : Config) (now : Z) (fresh : option string) (d : records) : result error Namespace :=
  open_namespace (WriterID (with_defaults c)) now (WriterLeaseDuration (with_defaults c)) fresh (namespace d).

Lemma open_step key c cancel now fresh st :
  wf (store_data st) →
  let st' := access_apply st (AOpen key c cancel now fresh) in
  st' = st ∨ ∃ ns, open_result c now fresh (store_data st) = Ok ns ∧
                   quiet (set_namespace ns (store_data st)) (store_data st').
Proof.
  intros Hw. cbn [access_apply]. unfold NewService. case_if; [by left|]. case_if; [by left|].
  destruct (Update _ _ _ st) as [st' [ns|err]] eqn:Hu; cbn [fst]; [|left; by apply run_rolls_back in Hu].
  right. apply run_commits in Hu as (_ & Hr & ->); [|apply _]. rewrite decide_True by done. cbn [store_data].
  exists ns. apply (open_ok _ _ _ _ _ ns Hw). rewrite <- Hr. apply surjective_pairing.
Qed.

Lemma reset_step n cancel now fresh st :
  wf (store_data st) →
  let st' := access_apply st (AReset n cancel now fresh) in
  st' = st ∨ ∃ id d1, fresh = Some id ∧ quiet (store_data st) d1 ∧
                      store_data st' = set_namespace (mkNamespace SchemaVersion id 0 "" zero_time) d1.
Proof.
  intros Hw. cbn [access_apply]. unfold ResetRestoredStore.
  destruct (Update _ _ _ st) as [st' [[]|err]] eqn:Hu; cbn [fst]; [|left; by apply run_rolls_back in Hu].
  right. apply run_commits in Hu as (_ & Hr & ->); [|apply _]. rewrite decide_True by done. cbn [store_data].
  apply (reset_ok n fresh now); [done|]. rewrite <- Hr. apply surjective_pairing.
Qed.

(** ** Consistency and capacity *)

Lemma prepared_size s now d : wf d → (size (sessions (prepared s now d)) <= size (sessions d))%nat.
Proof.
  intros Hw. destruct (prepared_spec s now d Hw) as (Hp & _). apply map_subseteq_size.
  apply map_subseteq_spec. intros k r Hk. by apply Hp in Hk as [Hk _].
Qed.

(** The largest number of Sessions an operation's instance allows. *)
Definition allows (n : Z) (o : access_op) : Prop :=
  match runs o with Some s => MaxSessions (config s) <= n | None => True end.

Lemma access_step_ok n st o :
  allows n o → wf (store_data st) ∧ Z.of_nat (size (sessions (store_data st))) <= n →
  wf (store_data (access_apply st o)) ∧ Z.of_nat (size (sessions (store_data (access_apply st o)))) <= n.
Proof.
  unfold allows. intros Hn [Hw Hs]. destruct (runs o) as [s|] eqn:Ho.
  - destruct (service_step st o s Hw Ho) as [->|(_ & [Ew _ Es _])]; [done|]. split; [done|].
    pose proof (prepared_size s (instant o) _ Hw). destruct Es as [Es|(m & Em & Es)]; [lia|]. injection Em as <-. lia.
  - destruct o; try done.
    + destruct (open_step key c cancel now fresh st Hw) as [->|(ns & _ & [Qw _ Qs _])]; [done|].
      cbn [sessions set_namespace] in Qs. split; [done|lia].
    + destruct (reset_step maxSessions cancel now fresh st Hw) as [->|(id & d1 & _ & [Qw _ Qs _] & ->)]; [done|].
      split; [exact Qw|]. cbn [sessions set_namespace]. lia.
Qed.

Lemma empty_wf : wf (store_data NewStore).
Proof. split; [split|split_and!]; cbn; intros ? ?; by rewrite lookup_empty. Qed.


(** ** The writer fence *)

(** [s] has been displaced: the store has another incarnation, or a later term. *)
Definition displaced (s : Service) (ns : Namespace) : Prop :=
  nsIncarnation ns ≠ incarnation s ∨ term s < nsWriterTerm ns.

Lemma displaced_not_writer s ns : displaced s ns → writes s ns = false.
Proof.
  unfold writes. intros [Hd|Hd]; [|by rewrite (proj2 (Z.eqb_neq _ _)) by lia].
  rewrite (bool_decide_false (nsIncarnation ns = incarnation s)) by done. by rewrite andb_false_r.
Qed.

Definition fresh_of (o : access_op) : option string :=
  match o with AOpen _ _ _ _ fresh | AReset _ _ _ fresh => fresh | _ => None end.

(** Opening keeps the incarnation, or draws the fresh one for a new namespace;
    the term grows by at most one and never shrinks. *)
Lemma open_namespace_ok writer now lease fresh ns ns' :
  open_namespace writer now lease fresh ns = Ok ns' → 0 <= nsWriterTerm ns < 2 ^ 64 - 1 →
  nsWriterID ns' = writer ∧
  (nsIncarnation ns = "" ∧ Some (nsIncarnation ns') = fresh ∧ nsWriterTerm ns' = 1 ∨
   nsIncarnation ns' = nsIncarnation ns ∧ nsWriterTerm ns <= nsWriterTerm ns' <= nsWriterTerm ns + 1).
Proof.
  unfold open_namespace. intros Ho Ht. assert (Hu : u64 (nsWriterTerm ns + 1) = nsWriterTerm ns + 1) by (apply u64_small; ilia).
  case_if; [done|]. case_bool_decide as Hinc.
  - destruct fresh as [id|]; [|done]. cbn [nsWriterID nsIncarnation nsWriterTerm nsSchemaVersion nsLeaseExpiresAt] in Ho.
    destruct (bool_decide (writer = "")); cbn [nsWriterID] in Ho; rewrite bool_decide_true in Ho by done;
      injection Ho as <-; cbn; (split; [done|]); by left.
  - destruct (bool_decide (nsWriterID ns = "")); cbn [nsWriterID nsIncarnation nsWriterTerm nsSchemaVersion nsLeaseExpiresAt] in Ho.
    + rewrite bool_decide_true in Ho by done. injection Ho as <-. cbn. split; [done|]. right. split; [done|].
      case_if; bool_hyps; lia.
    + case_bool_decide as Hw'.
      * injection Ho as <-. cbn. split; [done|]. right. split; [done|lia].
      * case_if; [done|]. injection Ho as <-. cbn. rewrite Hu. split; [done|]. right. split; [done|lia].
Qed.

(** The namespace after one operation. *)
Lemma namespace_step st o :
  wf (store_data st) → 0 <= nsWriterTerm (namespace (store_data st)) < 2 ^ 64 - 1 →
  let ns := namespace (store_data st) in
  let ns' := namespace (store_data (access_apply st o)) in
  nsIncarnation ns' = nsIncarnation ns ∧ nsWriterTerm ns <= nsWriterTerm ns' <= nsWriterTerm ns + 1 ∨
  (∃ id, fresh_of o = Some id ∧ nsIncarnation ns' = id ∧ 0 <= nsWriterTerm ns' <= 1).
Proof.
  intros Hw Ht ns ns'. subst ns ns'. destruct (runs o) as [s|] eqn:Ho.
  - left. destruct (service_step st o s Hw Ho) as [->|(_ & [_ En _ _])]; [split; [done|lia]|].
    destruct (prepared_spec s (instant o) _ Hw) as (_ & Hp & _). rewrite En, Hp. cbn. split; [done|lia].
  - destruct o; try done.
    + destruct (open_step key c cancel now fresh st Hw) as [->|(ns & Hns & [_ Qn _ _])]; [left; split; [done|lia]|].
      cbn [namespace set_namespace] in Qn. rewrite Qn. apply open_namespace_ok in Hns as [_ [(_ & Hf & ->)|[-> Hr]]]; [| |done].
      * right. exists (nsIncarnation ns). split_and!; [done|done|lia|lia].
      * left. split; [done|lia].
    + destruct (reset_step maxSessions cancel now fresh st Hw) as [->|(id & d1 & Hf & _ & ->)]; [left; split; [done|lia]|].
      right. exists id. cbn. split_and!; [done|done|lia|lia].
Qed.


(** While the lease lasts, no other writer group takes over: after a
    successful transaction of an instance, opening the store with another writer
    identity fails and changes nothing until the lease of that transaction has
    passed. *)
Theorem takeover_waits_for_lease {A} s (fn : tx A) st cancel now st1 a key c cancel' now' fresh :
  CtxFree fn → (∀ d d' x, exec fn (W now) d = (d', Ok x) → namespace d' = namespace d) →
  wf (store_data st) → incarnation s ≠ "" → WriterID (config s) ≠ "" →
  update s cancel now fn st = (st1, Ok a) →
  WriterID (with_defaults c) ≠ WriterID (config s) →
  now' < now + WriterLeaseDuration (config s) →
  ∃ e, NewService key c cancel' now' fresh st1 = (st1, Err e).
Proof.
  intros Hc Hns Hw Hinc Hwid Hu Hother Hnow.
  assert (Hw1 : namespace (store_data st1) = renew_lease s now (namespace (store_data st)) ∧
            writes s (namespace (store_data st)) = true).
  { apply update_ok in Hu as (_ & _ & Hwr & Hex); [|done]. apply Hns in Hex as ->.
    split; [|done]. by apply prepared_spec. }
  destruct Hw1 as [Hn1 Hwr]. unfold writes in Hwr. bool_hyps.
  assert (Hopen : ∃ e, open_namespace (WriterID (with_defaults c)) now' (WriterLeaseDuration (with_defaults c)) fresh
                         (namespace (store_data st1)) = Err e).
  { rewrite Hn1. unfold open_namespace, renew_lease. cbn [nsSchemaVersion nsIncarnation nsWriterID nsWriterTerm nsLeaseExpiresAt].
    case_if; [eauto|]. rewrite (bool_decide_false (nsIncarnation (namespace (store_data st)) = "")) by congruence.
    cbn [nsWriterID]. rewrite (bool_decide_false (nsWriterID (namespace (store_data st)) = "")) by congruence.
    cbn [nsWriterID nsLeaseExpiresAt]. rewrite bool_decide_false by congruence.
    unfold After, time_Add. rewrite (proj2 (Z.ltb_lt _ _)) by lia. eauto. }
  destruct Hopen as [e He]. unfold NewService. case_if; [eauto|]. case_if; [eauto|].
  destruct (Update cancel' now' _ st1) as [st2 [ns|err]] eqn:Hu2.
  - apply run_commits in Hu2 as (_ & Hr & _); [|apply _]. exfalso. revert Hr.
    unfold open_tx, GetNamespace. rewrite read_ok, Now_ok. rewrite exec_bind by apply _. rewrite exec_lift. cbn [fst snd tx_now].
    by rewrite He.
  - exists err. by rewrite (run_rolls_back _ _ _ _ _ _ _ Hu2).
Qed.

(** ** The media fence *)

Lemma access_step_wf st o : wf (store_data st) → wf (store_data (access_apply st o)).
Proof.
  intros Hw. eapply (access_step_ok (Z.max (Z.of_nat (size (sessions (store_data st))))
                        (match runs o with Some s => MaxSessions (config s) | None => 0 end))).
  - unfold allows. destruct (runs o); [lia|done].
  - split; [done|lia].
Qed.

(** The record of a Session after one operation. *)
Lemma record_step st o id r' :
  wf (store_data st) → creates o ≠ Some id → sessions (store_data (access_apply st o)) !! id = Some r' →
  ∃ r, sessions (store_data st) !! id = Some r ∧ moved (instant o) (places o) r r'.
Proof.
  intros Hw Hne Hr'. destruct (runs o) as [s|] eqn:Ho.
  - destruct (service_step st o s Hw Ho) as [E|(_ & [_ _ _ Em])]; [rewrite E in Hr'; eauto|].
    destruct (Em id r' Hr') as [(r & Hr & ?)|]; [|done]. apply prepared_spec in Hr as [Hr _]; [eauto|done].
  - destruct o; try done.
    + destruct (open_step key c cancel now fresh st Hw) as [E|(ns & _ & [_ _ _ Qm])]; [rewrite E in Hr'; eauto|].
      destruct (Qm id r' Hr') as (r & Hr & ?). eauto.
    + destruct (reset_step maxSessions cancel now fresh st Hw) as [E|(id0 & d1 & _ & [_ _ _ Qm] & E)];
        rewrite E in Hr'; [eauto|]. destruct (Qm id r' Hr') as (r & Hr & ?). eauto.
Qed.

(** The media fence of a Session after one operation. *)
Lemma media_fence_step st o id r' :
  wf (store_data st) → creates o ≠ Some id → sessions (store_data (access_apply st o)) !! id = Some r' →
  ∃ r, sessions (store_data st) !! id = Some r ∧
    (seMediaTerm r' = seMediaTerm r ∨ seMediaTerm r' = u64 (seMediaTerm r + 1)).
Proof.
  intros Hw Hne Hr'. destruct (record_step st o id r' Hw Hne Hr') as (r & Hr & [_ _ [Hf|[Hf _]]]); exists r; split; auto.
  left. by injection Hf.
Qed.

(** A replaced media process cannot publish again.  Once a process has
    acquired a Session with term [t'], a snapshot that carries an earlier term
    is refused without effect, whatever happens to the Session in between, as
    long as its identity is not drawn again for a new Session. *)
Theorem replaced_relay_fenced s0 s id epoch expected st0 cancel0 now0 st t' ops sn cancel now :
  wf (store_data st0) → AcquireRelayWriter s0 id epoch expected cancel0 now0 st0 = (st, Ok t') →
  0 <= t' → t' + len ops < 2 ^ 64 → rsWriterTerm sn < t' →
  Forall (λ o, creates o ≠ Some id) ops →
  let st' := foldl access_apply st ops in
  ∃ e, ApplyRelayStateContext s id sn cancel now st' = (st', Err e).
Proof.
  intros Hw0 Hacq Ht0 Hmax Hsn Hops st'.
  assert (Hst : wf (store_data st) ∧ ∀ r, sessions (store_data st) !! id = Some r → seMediaTerm r = t').
  { split.
    - pose proof (access_step_wf st0 (AAcquire s0 id epoch expected cancel0 now0) Hw0) as Hw. cbn in Hw. by rewrite Hacq in Hw.
    - unfold AcquireRelayWriter in Hacq. case_if; [done|]. apply update_ok in Hacq as (_ & _ & _ & Hex); [|apply _].
      destruct (prepared_spec s0 now0 _ Hw0) as (_ & _ & [_ (Hid & _)]).
      apply acquire_ok in Hex as (r & Hr & Hor). apply live_some in Hr as (Hr & _). pose proof (Hid id r Hr) as Hrid.
      destruct Hor as [(_ & _ & -> & Ed)|(_ & _ & -> & Ed)]; intros r1 Hr1; rewrite Ed in Hr1; [congruence|].
      cbn in Hr1. rewrite Hrid, lookup_insert_eq in Hr1. by injection Hr1 as <-. }
  assert (Hinv : wf (store_data st') ∧
            ∀ r, sessions (store_data st') !! id = Some r → t' <= seMediaTerm r <= t' + len ops).
  { subst st'. destruct Hst as [Hw Hm]. induction ops as [|o ops IH] using rev_ind.
    { split; [done|]. intros r Hr. rewrite (Hm r Hr). unfold len. cbn. lia. }
    assert (Hl : len (ops ++ [o]) = len ops + 1) by (unfold len; rewrite length_app; cbn; lia). rewrite Hl in *.
    apply Forall_app in Hops as [Hops Ho]. apply Forall_cons in Ho as [Ho _].
    pose proof (len_nonneg ops). destruct IH as [IHw IHm]; [lia|done|]. rewrite foldl_app. cbn [foldl].
    split; [by apply access_step_wf|]. intros r' Hr'.
    destruct (media_fence_step _ o id r' IHw Ho Hr') as (r & Hr & Hor). specialize (IHm r Hr).
    destruct Hor as [-> | ->]; [lia|]. rewrite u64_small by ilia. lia. }
  destruct Hinv as [Hw' Hm']. unfold ApplyRelayStateContext. case_if; [eauto|]. case_if; [eauto|].
  destruct (update _ _ _ _ st') as [st2 [[state changed]|e]] eqn:Hu; [|exists e; by rewrite (update_err _ _ _ _ _ _ _ Hu)].
  exfalso. apply update_ok in Hu as (_ & _ & _ & Hex); [|apply _].
  apply apply_ok in Hex as (r & Hr & Hterm & _). rewrite live_prepared in Hr by done. apply live_some in Hr as (Hr & _).
  specialize (Hm' r Hr). cbn in Hterm. lia.
Qed.

(** ** Relay state *)

(** An accepted snapshot.  Within an epoch the relay revision never goes
    back: an older snapshot is ignored.  Otherwise the Session takes the
    snapshot's revision, buses and subscriptions; when the call reports a change
    the state revision is one higher, and when it reports none the public state
    is the same as before. *)
Theorem relay_state_revisions s id sn cancel now st st' state changed :
  wf (store_data st) → ApplyRelayStateContext s id sn cancel now st = (st', Ok (state, changed)) →
  ∃ r r', sessions (store_data st) !! id = Some r ∧ sessions (store_data st') !! id = Some r' ∧
    state = session_state r' ∧
    rsRelayEpoch sn = rsRelayEpoch (seRelay r) ∧ rsWriterTerm sn = seMediaTerm r ∧
    (rsRevision sn < rsRevision (seRelay r) → r' = r ∧ changed = false) ∧
    (rsRevision (seRelay r) <= rsRevision sn →
       rsRevision (seRelay r') = rsRevision sn ∧ rsRelayEpoch (seRelay r') = rsRelayEpoch sn ∧
       rsBuses (seRelay r') ≡ₚ rsBuses sn ∧ rsSubscriptions (seRelay r') ≡ₚ rsSubscriptions sn ∧
       Forall (λ b, contains (seRequiredBuses r) (bsBusID b) = true) (rsBuses sn) ∧
       (changed = true → stStateRevision state = u64 (seStateRevision r + 1)) ∧
       (changed = false → session_state r' = session_state r)).
Proof.
  intros Hw. unfold ApplyRelayStateContext. case_if; [done|]. case_if; [done|]. intros Hu.
  apply update_ok in Hu as (_ & _ & _ & Hex); [|apply _].
  destruct (prepared_spec s now _ Hw) as (Hp & _ & [_ (Hid & _)]).
  apply apply_ok in Hex as (r & Hr & Hterm & _ & Hepoch & Hor). apply live_some in Hr as (Hr & _).
  pose proof (Hid id r Hr) as Hrid. pose proof (proj1 (Hp id r) Hr) as [Hr0 _].
  set (sn' := normalizeRelaySnapshot sn) in *.
  change (rsRelayEpoch sn') with (rsRelayEpoch sn) in *. change (rsWriterTerm sn') with (rsWriterTerm sn) in *.
  change (rsRevision sn') with (rsRevision sn) in *.
  destruct Hor as [(Hlt & Ed & -> & ->)|(Hge & Hb & Ed & -> & ->)].
  - exists r, r. rewrite Ed. split_and!; try done. lia.
  - exists r, (apply_snapshot s now sn' r). destruct (apply_snapshot_keeps s now sn' r) as [Hkid _].
    assert (Hst' : sessions (store_data st') !! id = Some (apply_snapshot s now sn' r)).
    { rewrite Ed. cbn [put set_sessions sessions]. by rewrite Hkid, Hrid, lookup_insert_eq. }
    split_and!; try done; [lia|]. intros _.
    assert (Hrel : seRelay (apply_snapshot s now sn' r) =
              mkRelayState (rsContractVersion sn') (rsSessionID sn') (rsRelayEpoch sn) (rsRevision sn) (rsWriterTerm sn)
                now (rsBuses sn') (rsSubscriptions sn')).
    { unfold apply_snapshot. by repeat case_if. }
    rewrite Hrel. cbn [rsRevision rsRelayEpoch rsBuses rsSubscriptions]. split_and!; try done.
    + apply merge_sort_Permutation.
    + apply merge_sort_Permutation.
    + rewrite <- (merge_sort_Permutation (λ a b, string_le (bsBusID a) (bsBusID b)) (rsBuses sn)). exact Hb.
    + intros Hch. unfold session_state, apply_snapshot. rewrite Hch. by case_if.
    + intros Hch. pose proof Hch as Hch'. unfold snapshot_changed in Hch'.
      rewrite !orb_false_iff, !negb_false_iff, Z.eqb_eq, !bool_decide_eq_true in Hch'.
      destruct Hch' as [[Hrev Hbus] Hsub]. change (rsRevision sn') with (rsRevision sn) in Hrev.
      unfold session_state. rewrite Hrel. cbn [rsRevision rsRelayEpoch rsBuses rsSubscriptions].
      assert (seStateRevision (apply_snapshot s now sn' r) = seStateRevision r ∧
              seRequiredBuses (apply_snapshot s now sn' r) = seRequiredBuses r ∧
              seCodec (apply_snapshot s now sn' r) = seCodec r) as (-> & -> & ->).
      { unfold apply_snapshot. rewrite Hch. by case_if. }
      by rewrite Hkid, Hrev, Hbus, Hsub, Hepoch.
Qed.

(** ** Issued capabilities *)

Context `{!JwtLaws}.

Lemma view_ok {A} s cancel now (fn : tx A) `{!CtxFree fn} st a :
  closed st = false → cancel = None → exec fn (mkEnv readTransaction now) (store_data st) = (store_data st, Ok a) →
  view s cancel now fn st = Ok a.
Proof.
  intros Hc -> Hex. unfold view, View, run. cbn [ctx_err ctx]. rewrite Hc.
  rewrite (exec_state fn). rewrite Hex. done.
Qed.

Lemma issued_scope id bus role b :
  role = RoleSource ∨ role = RoleSubscriber → AllowsBus (issued_claims id bus role) b = bool_decide (bus = b).
Proof.
  intros [-> | ->]; unfold issued_claims.
  - rewrite bool_decide_true by done. cbn. by rewrite orb_false_r.
  - by rewrite bool_decide_false by done.
Qed.

(** A capability issued for one bus of a Session is accepted by [Authorize]
    for that Session until the token or the Session expires, and grants exactly
    that bus: no other bus and no control of the Session. *)
Theorem issued_token_authorizes s id bus role jti cancel now st st' e now' :
  role = RoleSource ∨ role = RoleSubscriber → jti ≠ "" → wf (store_data st) →
  update s cancel now (issue_tx s id bus role (Some jti)) st = (st', Ok e) →
  encoded_len e <= 16384 → now <= now' < NumericDate (now + issued_ttl s role) + 5 * Second →
  now' < now + SessionTTL (config s) →
  ∃ c, Authorize s id e None now' st' = Ok c ∧ cSessionID c = id ∧ cRole c = role ∧
    (∀ b, AllowsBus c b = bool_decide (bus = b)) ∧ CanControl c = false.
Proof.
  intros Hrole Hjti Hw Hu Hlen Hnow Hses. apply update_ok in Hu as (_ & Hcl & Hwr & Hex); [|apply _].
  destruct (prepared_spec s now _ Hw) as (_ & Hns & [_ (Hid & _)]).
  apply issue_ok in Hex as (r & Hr & _ & _ & Hsign & Ed). apply live_some in Hr as (Hr & _ & Hinc).
  pose proof (Hid id r Hr) as Hrid.
  destruct (signed_verifies _ _ _ _ _ _ _ _ now' Hsign Hjti Hlen Hnow) as (c & Hv & Hcs & Hcr & Hcc & Hci & _ & Hcb & Hck).
  assert (Hcid : cSessionID c = id) by (rewrite Hcs; unfold issued_claims; by case_if).
  exists c. split_and!.
  - unfold Authorize. apply view_ok; [apply _|done|done|]. unfold authorize_tx.
    rewrite exec_bind by apply _. rewrite exec_checkWriter. cbn [fst snd].
    assert (Hwr' : writes s (namespace (store_data st')) = true).
    { rewrite Ed. cbn [put set_sessions namespace]. rewrite Hns. exact Hwr. }
    rewrite Hwr'. rewrite exec_bind by apply _. rewrite exec_active. cbn [fst snd tx_now].
    assert (Hlive : live s now' (store_data st') id = Some (touch now (SessionTTL (config s)) r)).
    { unfold live. rewrite Ed. cbn [put set_sessions sessions].
      change (seID (touch now (SessionTTL (config s)) r)) with (seID r). rewrite Hrid, lookup_insert_eq.
      cbn [touch seExpiresAt seIncarnation]. unfold After, time_Add. rewrite (proj2 (Z.ltb_lt _ _)) by lia.
      by rewrite bool_decide_true. }
    rewrite Hlive, Now_ok, exec_lift. cbn [tx_now]. unfold authorizeRecord. cbn [touch seIssuer seID seIncarnation].
    rewrite Hv, Hrid, Hci, bool_decide_true by done. cbn [negb]. by rewrite bool_decide_true by done.
  - done.
  - rewrite Hcr. unfold issued_claims. by case_if.
  - intros b. rewrite Hcb. by apply issued_scope.
  - rewrite Hck. unfold issued_claims, CanControl. case_if; cbn; by rewrite andb_false_r.
Qed.
End Access.

(** ** Examples *)

#[local] Existing Instances Storage.small_records Token.clear_jwt Token.clear_jwt_laws.
Definition example_config : Config := mkConfig 2 0 0 0 0 0 0 0 0 0 0 "a" 0 "".
Definition example_key : list Z := replicate 32 7.

(** Instance "a" opens a new store, creates a Session and a media process
    acquires it twice, the second time with another epoch. *)
Definition service_a : Service := mkService example_key (with_defaults example_config) 1 "inc-1".
Definition service_b : Service :=
  mkService example_key (with_defaults (mkConfig 2 0 0 0 0 0 0 0 0 0 0 "b" 0 "")) 2 "inc-1".

Definition opened : list access_op :=
  [AOpen example_key example_config None (1 * Second) (Some "inc-1");
   ACreate service_a ["voice"] None (2 * Second) (Some "s-1") (Some "t-1");
   AAcquire service_a "s-1" "epoch-1" 0 None (3 * Second)].
Definition example_store : Store := foldl access_apply NewStore opened.


Lemma example_wf : wf (store_data example_store).
Proof.
  apply (access_step_ok 2 _ (AAcquire service_a "s-1" "epoch-1" 0 None (3 * Second))); [vm_compute; congruence|].
  apply (access_step_ok 2 _ (ACreate service_a ["voice"] None (2 * Second) (Some "s-1") (Some "t-1"))); [vm_compute; congruence|].
  apply (access_step_ok 2 NewStore (AOpen example_key example_config None (1 * Second) (Some "inc-1"))); [done|].
  split; [exact empty_wf|vm_compute; congruence].
Qed.

(** Writer group "b" takes over after the lease; "a" is fenced from then on. *)
Definition taken_over : Store :=
  access_apply example_store (AOpen example_key (mkConfig 2 0 0 0 0 0 0 0 0 0 0 "b" 0 "") None (100 * Second) None).


Lemma takeover_waits_for_lease_witness :
  ∃ e, NewService example_key (mkConfig 2 0 0 0 0 0 0 0 0 0 0 "b" 0 "") None (20 * Second) None
         (update service_a None (4 * Second) (delete_tx service_a "s-2") example_store).1 =
       ((update service_a None (4 * Second) (delete_tx service_a "s-2") example_store).1, Err e).
Proof.
  apply (takeover_waits_for_lease service_a (delete_tx service_a "s-2") example_store None (4 * Second) _ false).
  - apply _.
  - intros d d' x Hex. apply delete_ok in Hex as [(r & _ & _ & ->)|(_ & _ & ->)]; [|done]. by apply drop_session_spec.
  - exact example_wf.
  - discriminate.
  - discriminate.
  - vm_compute. reflexivity.
  - vm_compute. discriminate.
  - vm_compute. reflexivity.
Defined.

Definition example_snapshot (epoch : string) (term rev : Z) : RelayState :=
  mkRelayState 1 "s-1" epoch rev term (5 * Second) [mkBusState "voice" "voice" true 1] [mkSubscriptionState "u" "mix"].

Definition replaced : Store := access_apply example_store (AAcquire service_a "s-1" "epoch-2" 1 None (4 * Second)).

Lemma replaced_relay_fenced_witness :
  ∃ e, ApplyRelayStateContext service_a "s-1" (example_snapshot "epoch-1" 1 7) None (6 * Second)
         (foldl access_apply replaced [AGet service_a "s-1" None (5 * Second)]) =
       (foldl access_apply replaced [AGet service_a "s-1" None (5 * Second)], Err e).
Proof.
  apply (replaced_relay_fenced service_a service_a "s-1" "epoch-2" 1 example_store None (4 * Second) replaced 2
           [AGet service_a "s-1" None (5 * Second)]).
  - exact example_wf.
  - vm_compute. reflexivity.
  - lia.
  - vm_compute. reflexivity.
  - vm_compute. reflexivity.
  - repeat constructor. discriminate.
Defined.

Definition applied : Store * result error (State * bool) :=
  ApplyRelayStateContext service_a "s-1" (example_snapshot "epoch-1" 1 7) None (6 * Second) example_store.
Definition applied_state : State :=
  mkState "s-1" 3 "epoch-1" 7 ["voice"] [mkBusState "voice" "voice" true 1] [mkSubscriptionState "u" "mix"] true 1 "opus".

Lemma relay_state_revisions_witness :
  applied.2 = Ok (applied_state, true) ∧
  ∃ r, sessions (store_data applied.1) !! "s-1" = Some r ∧ applied_state = session_state r.
Proof.
  assert (Hok : applied.2 = Ok (applied_state, true)) by (vm_compute; reflexivity).
  split; [exact Hok|].
  destruct (relay_state_revisions service_a "s-1" (example_snapshot "epoch-1" 1 7) None (6 * Second) example_store
              applied.1 applied_state true example_wf) as (r & r' & _ & Hr' & Hst & _).
  - rewrite <- Hok. fold applied. by destruct applied.
  - exists r'. split; [exact Hr'|exact Hst].
Defined.

Definition issued : Store * result error encoded :=
  update service_a None (6 * Second) (issue_tx service_a "s-1" "voice" RoleSubscriber (Some "t-2")) example_store.

Lemma issued_token_authorizes_witness :
  ∃ e c, issued.2 = Ok e ∧ Authorize service_a "s-1" e None (60 * Second) issued.1 = Ok c ∧
    AllowsBus c "voice" = true ∧ AllowsBus c "music" = false.
Proof.
  destruct issued as [st' [e|err]] eqn:Hi; [|vm_compute in Hi; discriminate].
  destruct (issued_token_authorizes service_a "s-1" "voice" RoleSubscriber "t-2" None (6 * Second) example_store
              st' e (60 * Second)) as (c & Ha & _ & _ & Hb & _).
  - by right.
  - discriminate.
  - exact example_wf.
  - exact Hi.
  - cbn. lia.
  - vm_compute. split; congruence.
  - vm_compute. congruence.
  - exists e, c. rewrite !Hb. split_and!; [done|exact Ha|done|done].
Defined.
End Access.
