(* ===== verification/Invitation.v ===== *)
(** * Invitations

    Translates [access/invitation.go]: allocating a readable name and a join code
    for a bus of a Session, inspecting an invitation, and redeeming it once for a
    subscriber capability, with retry receipts.  The bytes of the system's random
    source are arguments; the digests and the UUID parser are interfaces. *)

From S2P Require Export Access.

Module Invitation.
Import Storage Token Access.

(** SHA-256 and HMAC-SHA-256 of [crypto]. *)
Class Digests := {
  sha256 : string → list Z;
  hmac_sha256 : list Z → string → list Z }.

(** [uuid.Parse], whether it accepts. *)
Class Uuid := uuid_parse : string → bool.

Definition invitationTTL : Z := 15 * Minute.
Definition InvitationVisibilityPublic : string := "public".
Definition InvitationVisibilityPrivate : string := "private".

Record Invitation := mkInvitation {
  iWordCount : Z; iCode : string; iAlias : string; iVisibility : string; iExpiresAt : Z }.
Record InvitationMetadata := mkInvitationMetadata {
  imWordCount : Z; imAlias : string; imVisibility : string; imExpiresAt : Z }.

(** ** Identifiers *)

Definition hex_digit (n : Z) : Ascii.ascii :=
  Ascii.ascii_of_nat (Z.to_nat (if n <? 10 then 48 + n else 87 + n)).

(** [hex.EncodeToString] *)
Definition EncodeToString (bytes : list Z) : string :=
  Names.of_chars (bytes ≫= λ b, [hex_digit (b / 16); hex_digit (b mod 16)]).

(** The sub-string of [s] from [lo] up to [hi]. *)
Definition cut (s : string) (lo hi : nat) : string := Names.of_chars (slice (Names.chars s) lo hi).

(** [randomSessionID], from the bytes of the random source. *)
Definition randomSessionID (random : list Z) : option (string * list Z) :=
  if (length random <? 16)%nat then None
  else
    let value := take 16 random in
    let value := alter (λ b, Z.lor (Z.land b 15) 64) 6%nat value in
    let value := alter (λ b, Z.lor (Z.land b 63) 128) 8%nat value in
    let e := EncodeToString value in
    Some (Names.Join [cut e 0 8; cut e 8 12; cut e 12 16; cut e 16 20; cut e 20 32], drop 16 random).

(** The standard form of a UUID: groups of 8, 4, 4, 4 and 12 hexadecimal digits. *)
Definition is_hex (c : Ascii.ascii) : Prop := ∃ n, 0 <= n < 16 ∧ c = hex_digit n.
Definition uuid_form (s : string) : Prop :=
  ∃ a b c d e, s = Names.Join (Names.of_chars <$> [a; b; c; d; e]) ∧
    length a = 8%nat ∧ length b = 4%nat ∧ length c = 4%nat ∧ length d = 4%nat ∧ length e = 12%nat ∧
    Forall is_hex (a ++ b ++ c ++ d ++ e).

(** [uuid.Parse] accepts the standard form. *)
Class UuidLaws `{Uuid} : Prop := uuid_standard : ∀ s, uuid_form s → uuid_parse s = true.

Definition is_byte (b : Z) : Prop := 0 <= b < 256.

Lemma encode_hex bytes :
  Forall is_byte bytes →
  length (Names.chars (EncodeToString bytes)) = (2 * length bytes)%nat ∧ Forall is_hex (Names.chars (EncodeToString bytes)).
Proof.
  unfold EncodeToString. rewrite Names.chars_of_chars. induction 1 as [|b bytes Hb _ [IH1 IH2]]; [done|]. cbn. unfold is_byte in Hb.
  split; [lia|]. repeat constructor; [exists (b / 16)|exists (b mod 16)|exact IH2]; (split; [|done]).
  - split; [apply Z.div_pos; lia|]. apply Z.div_lt_upper_bound; lia.
  - apply Z.mod_pos_bound. lia.
Qed.

Lemma Forall_alter_byte f i (l : list Z) : (∀ b, is_byte b → is_byte (f b)) → Forall is_byte l → Forall is_byte (alter f i l).
Proof.
  intros Hf Hl. apply Forall_alter; [done|]. intros x Hx Hb. by apply Hf.
Qed.

Lemma land_lor_byte n v b : 0 <= n <= 6 → v = 64 ∨ v = 128 → is_byte (Z.lor (Z.land b (Z.ones n)) v).
Proof.
  unfold is_byte. intros Hm Hv. rewrite Z.land_ones by lia. set (x := b mod 2 ^ n).
  assert (Hl : 0 <= x < 2 ^ 6).
  { pose proof (Z.mod_pos_bound b (2 ^ n) ltac:(apply Z.pow_pos_nonneg; lia)).
    pose proof (Z.pow_le_mono_r 2 n 6 ltac:(lia) ltac:(lia)). subst x. lia. }
  assert (0 <= Z.lor x v) by (apply Z.lor_nonneg; lia). split; [done|].
  change 256 with (2 ^ 8). apply Z.log2_lt_cancel. rewrite Z.log2_lor by lia. change (Z.log2 (2 ^ 8)) with 8.
  apply Z.max_lub_lt; [|by destruct Hv as [-> | ->]]. destruct (Z.eq_dec x 0) as [->|Hne]; [done|].
  apply Z.log2_lt_pow2; lia.
Qed.

Lemma randomSessionID_form random id rest :
  Forall is_byte random → randomSessionID random = Some (id, rest) → uuid_form id ∧ Forall is_byte rest.
Proof.
  unfold randomSessionID. intros Hb. destruct (Nat.ltb_spec (length random) 16) as [|Hl]; [done|]. intros [= <- <-].
  split; [|by apply Forall_drop]. set (value := alter _ 8%nat _).
  assert (Hv : Forall is_byte value ∧ length value = 16%nat).
  { subst value. split; [|rewrite !length_alter, length_take; lia].
    apply Forall_alter_byte; [intros b _; apply (land_lor_byte 6); [lia|by right]|].
    apply Forall_alter_byte; [intros b _; apply (land_lor_byte 4); [lia|by left]|]. by apply Forall_take. }
  destruct Hv as [Hv1 Hv2]. destruct (encode_hex value Hv1) as [Hlen Hhex]. rewrite Hv2 in Hlen.
  set (cs := Names.chars (EncodeToString value)) in *.
  exists (slice cs 0 8), (slice cs 8 12), (slice cs 12 16), (slice cs 16 20), (slice cs 20 32).
  split; [done|]. unfold slice. rewrite !length_take, !length_drop, Hlen.
  split_and!; [lia..|]. repeat apply Forall_app_2; by apply Forall_take, Forall_drop.
Qed.

Definition count_hyphens (s : string) : nat := length (filter (λ c, c = Names.hyphen) (Names.chars s)).

Lemma hex_not_hyphen c : is_hex c → c ≠ Names.hyphen.
Proof.
  intros (n & Hn & ->) E. apply (f_equal Ascii.nat_of_ascii) in E. unfold hex_digit, Names.hyphen in E.
  rewrite !Ascii.nat_ascii_embedding in E by (case_if; lia). case_if; lia.
Qed.

Lemma uuid_form_counts s : uuid_form s → String.length s = 36%nat ∧ count_hyphens s = 4%nat.
Proof.
  intros (a & b & c & d & e & -> & Ha & Hb & Hc & Hd & He & Hhex). cbn [fmap list_fmap].
  assert (Hnone : ∀ l, Forall is_hex l → filter (λ x, x = Names.hyphen) l = []).
  { intros l Hl. apply WordSet.filter_none. eapply Forall_impl; [exact Hl|]. apply hex_not_hyphen. }
  rewrite !Forall_app in Hhex. destruct Hhex as (Fa & Fb & Fc & Fd & Fe).
  set (s := Names.Join _).
  assert (Hs : Names.chars s = a ++ Names.hyphen :: b ++ Names.hyphen :: c ++ Names.hyphen :: d ++ Names.hyphen :: e).
  { subst s. unfold Names.Join. cbn [String.concat]. rewrite !Names.chars_app, !Names.chars_of_chars. done. }
  unfold count_hyphens. rewrite <- Names.length_chars, Hs.
  rewrite !filter_app, !filter_cons_True, !filter_app, !filter_cons_True, !filter_app, !filter_cons_True, !filter_app,
    !filter_cons_True, !Hnone by done.
  split; [|done]. repeat (rewrite length_app || cbn [length]). lia.
Qed.

Section Invitation.
Context `{RecordSizes} `{Jwt} `{Digests} `{Uuid} (tables : Lexicon.lexicon).

Definition validOpaqueInvitationCode (value : string) : bool :=
  (string_len value =? 36) && uuid_parse value && (count_hyphens value =? 4)%nat.

Record ResolvedInvitation := mkResolved {
  rvSessionID : string; rvBusID : string; rvSubscriberToken : encoded }.

(** ** Creating an invitation *)

Definition busReady (s : Service) (r : SessionRecord) (bus : string) (now : Z) : bool :=
  if negb (seWriterTerm r =? term s) || (Sub now (rsObservedAt (seRelay r)) >? ObservationTTL (config s)) then false
  else if bool_decide (bus = "mix") then stReady (session_state r)
  else if negb (contains (seRequiredBuses r) bus) then false
  else match List.find (λ b, bool_decide (bsBusID b = bus)) (rsBuses (seRelay r)) with
       | Some b => bsSourceActive b
       | None => false
       end.

(** The words an attempt asks for, after [shortCollisions] occupied short names. *)
Definition attempt_words (policy : string) (shortCollisions : Z) : Z :=
  match NamePolicy.fixedCount policy with
  | Some fixed => fixed
  | None => if shortCollisions >=? 8 then 3 else 2
  end.
Definition attempt_visibility (words : Z) : string :=
  if words >=? 3 then InvitationVisibilityPrivate else InvitationVisibilityPublic.

(** Whether the program succeeds: [false] on [storage.ErrConflict]. *)
Definition try_conflict (m : tx unit) : tx bool := λ e s,
  match m e s with
  | (s', Ok _) => (s', Ok true)
  | (s', Err ErrConflict) => (s', Ok false)
  | (s', Err err) => (s', Err err)
  end.

Definition earlier (a b : Z) : Z := if Before a b then a else b.

(** The allocation loop, for a Session record [r] at [now]. *)
Fixpoint allocate (attempts : nat) (r : SessionRecord) (id bus policy : string) (now shortCollisions : Z)
    (random : list Z) : tx Invitation :=
  match attempts with
  | O => fail ErrNameAllocationUnavailable
  | S attempts' =>
    let words := attempt_words policy shortCollisions in
    let collided := if words =? 2 then shortCollisions + 1 else shortCollisions in
    match Names.Generate tables (Some random) words with
    | Err _ => fail ErrNames
    | Ok (name, random) =>
      Grant (Names.nText name) ≫= λ occupied,
      match occupied with
      | Some _ => allocate attempts' r id bus policy now collided random
      | None =>
        match randomSessionID random with
        | None => fail Storage.ErrRandom
        | Some (code, random) =>
          match randomSessionID random with
          | None => fail Storage.ErrRandom
          | Some (grantID, random) =>
            let expires := earlier (seExpiresAt r) (time_Add now invitationTTL) in
            try_conflict (PutGrant (mkGrantRecord SchemaVersion grantID code (Names.nText name) (Names.nGrammar name)
                                      words (attempt_visibility words) id bus now expires)) ≫= λ stored : bool,
            if stored
            then mret (mkInvitation words code (Names.nText name) (attempt_visibility words) expires)
            else
              Grant (Names.nText name) ≫= λ occupied,
              allocate attempts' r id bus policy now
                (match occupied with Some _ => collided | None => shortCollisions end) random
          end
        end
      end
    end
  end.

Definition invite_tx (s : Service) (id bus policy : string) (random : list Z) : tx Invitation :=
  on_no_rows ErrNotExist (active s id) ≫= λ r, Now ≫= λ now,
  guard_tx (busReady s r bus now) ErrSessionNotReady ≫= λ _,
  GetCounts ≫= λ counts,
  guard_tx (negb (GrantCount counts >=? MaxInvitations (config s))) ErrInvitationCapacity ≫= λ _,
  allocate 32 r id bus policy now 0 random.

(** The naming policy of a request: [visibility] and [count] are its options. *)
Definition request_policy (s : Service) (visibility : string) (count : Z) : result error string :=
  let selected :=
    if bool_decide (visibility = "") then Ok 0
    else if bool_decide (visibility = InvitationVisibilityPublic) then Ok 2
    else if bool_decide (visibility = InvitationVisibilityPrivate) then Ok 3
    else Err ErrInvalidInvitationVisibility in
  match selected with
  | Err e => Err e
  | Ok words =>
    if negb (count =? 0) && ((count <? Names.MinWordCount) || (count >? Names.MaxWordCount) || negb (words =? 0))
    then Err ErrInvalidWordCount
    else
      let words := if negb (count =? 0) then count else words in
      if negb (words =? 0)
      then Ok (match NamePolicy.FixedNamePolicy words with Ok policy => policy | Err _ => "" end)
      else Ok (NamePolicy (config s))
  end.

Definition CreateInvitationWithOptionsContext (s : Service) (id bus visibility : string) (count : Z)
    (random : list Z) (cancel : option nat) (now : Z) (st : Store) : Store * result error Invitation :=
  match request_policy s visibility count with
  | Err e => (st, Err e)
  | Ok policy => update s cancel now (invite_tx s id bus policy random) st
  end.

(** ** Inspecting an invitation *)

Definition name_ok (g : GrantRecord) : bool := is_ok (Names.ParseStored tables (grGrammarName g) (grAlias g)).

Definition inspect_tx (s : Service) (locator : string) : tx InvitationMetadata :=
  checkWriter s ≫= λ _, Grant locator ≫= λ o, Now ≫= λ now,
  match o with
  | None => fail ErrNotExist
  | Some g =>
    guard_tx (After (grExpiresAt g) now) ErrNotExist ≫= λ _,
    on_no_rows ErrNotExist (active s (grSessionID g)) ≫= λ _,
    guard_tx (name_ok g) ErrGrammar ≫= λ _,
    mret (mkInvitationMetadata (grWordCount g) (grAlias g) (grVisibility g) (grExpiresAt g))
  end.

Definition InspectInvitationContext (s : Service) (locator : string) (cancel : option nat) (now : Z) (st : Store)
  : result error InvitationMetadata :=
  if bool_decide (locator = "") || (string_len locator >? Names.MaxNameBytes) then Err ErrNotExist
  else view s cancel now (inspect_tx s locator) st.

(** ** Redeeming an invitation *)

Definition nul (prefix rest : string) : string := (prefix +:+ String Ascii.zero rest)%string.
Definition requestDigest (locator : string) : list Z := sha256 (nul "redeem" locator).
Definition credentialDigest (s : Service) (code : string) : list Z := hmac_sha256 (secret s) (nul "join" code).
Definition receiptKey (key : string) : string := EncodeToString (sha256 (nul "redeem" key)).

(** The answer of an earlier redemption with the same retry key. *)
Definition replay (s : Service) (locator code : string) (receipt : Receipt) : tx (list Z) :=
  Now ≫= λ now,
  guard_tx (bool_decide (rcOperation receipt = "redeem") &&
            bool_decide (rcRequestDigest receipt = requestDigest locator) &&
            bool_decide (rcCredentialDigest receipt = credentialDigest s code)) ErrRetryConflict ≫= λ _,
  guard_tx (After (rcExpiresAt receipt) now) ErrNotExist ≫= λ _,
  on_no_rows ErrNotExist (active s (rcSessionID receipt)) ≫= λ _, mret (rcResponse receipt).

(** The expiry of a receipt: no later than the grant, the Session or the
    capability. *)
Definition receipt_expiry (s : Service) (now : Z) (g : GrantRecord) (r : SessionRecord) : Z :=
  foldl (λ expires bound, earlier bound expires) (time_Add now (ReceiptTTL (config s)))
    [grExpiresAt g; seExpiresAt r; TruncateSecond (time_Add now (SubscriberTokenTTL (config s)))].

Definition consume (s : Service) (locator code key : string) (encode : ResolvedInvitation → result error (list Z))
    (jti : option string) : tx (list Z * ResolvedInvitation) :=
  Grant locator ≫= λ o, Now ≫= λ now,
  match o with
  | None => fail ErrNotExist
  | Some g =>
    guard_tx (After (grExpiresAt g) now && bool_decide (grJoinCode g = code)) ErrNotExist ≫= λ _,
    guard_tx (name_ok g) ErrGrammar ≫= λ _,
    on_no_rows ErrNotExist (active s (grSessionID g)) ≫= λ r,
    (if bool_decide (key = "") then mret tt
     else GetCounts ≫= λ counts, guard_tx (negb (ReceiptCount counts >=? MaxReceipts (config s))) ErrReceiptCapacity)
      ≫= λ _,
    sign_tx s r (new_claims (grSessionID g) (grBusID g) [] RoleSubscriber false) (SubscriberTokenTTL (config s)) now jti
      ≫= λ credential,
    let resolved := mkResolved (grSessionID g) (grBusID g) credential in
    lift (encode resolved) ≫= λ response,
    guard_tx (negb (len response >? 16384)) ErrCapacity ≫= λ _,
    (if bool_decide (key = "") then mret tt
     else PutReceipt (mkReceipt SchemaVersion (receiptKey key) "redeem" (grSessionID g) (requestDigest locator)
                        (credentialDigest s code) response 200 now (receipt_expiry s now g r))) ≫= λ _,
    DeleteGrant (grID g) ≫= λ _, mret (response, resolved)
  end.

(** The response, and what was encoded when it is not an earlier one. *)
Definition redeem_tx (s : Service) (locator code key : string) (encode : ResolvedInvitation → result error (list Z))
    (jti : option string) : tx (list Z * option ResolvedInvitation) :=
  (if bool_decide (key = "") then mret None else GetReceipt (receiptKey key)) ≫= λ o,
  match o with
  | Some receipt => replay s locator code receipt ≫= λ response, mret (response, None)
  | None => consume s locator code key encode jti ≫= λ '(response, resolved), mret (response, Some resolved)
  end.

Definition effective_code (locator code : string) : string :=
  if bool_decide (code = "") && validOpaqueInvitationCode locator then locator else code.

Definition key_ok (key : string) : bool :=
  negb ((string_len key <? 16) || (string_len key >? 128) || negb (validIdentifier key 128)).

Definition redeem (s : Service) (locator code key : string) (encode : ResolvedInvitation → result error (list Z))
    (jti : option string) (cancel : option nat) (now : Z) (st : Store)
  : Store * result error (list Z * option ResolvedInvitation) :=
  let code := effective_code locator code in
  if negb (validOpaqueInvitationCode code) || (string_len locator >? Names.MaxNameBytes) || bool_decide (locator = "")
  then (st, Err ErrNotExist)
  else if negb (bool_decide (key = "")) && negb (key_ok key) then (st, Err ErrRetryConflict)
  else update s cancel now (redeem_tx s locator code key encode jti) st.

Definition ResolveInvitationContext (s : Service) (locator code : string)
    (marshal : ResolvedInvitation → result error (list Z)) (jti : option string) (cancel : option nat) (now : Z)
    (st : Store) : Store * result error ResolvedInvitation :=
  match redeem s locator code "" marshal jti cancel now st with
  | (st', Ok (_, Some resolved)) => (st', Ok resolved)
  | (st', Ok (_, None)) => (st', Err ErrNotExist)  (* never: no key, no receipt *)
  | (st', Err e) => (st', Err e)
  end.

(** ** Executions *)

#[export] Instance ctx_free_try_conflict (m : tx unit) : CtxFree m → CtxFree (try_conflict m).
Proof.
  intros Hm. split; unfold try_conflict.
  - intros e s Ha. assert (Ha' : alive (m e s).1) by (destruct (m e s) as [? [|[]]]; done).
    destruct (ctx_free e s Ha') as [Ha1 Ha2]. split; [done|]. rewrite Ha2. destruct (m e s) as [? [|[]]]; done.
  - intros e d. pose proof (ctx_none (m := m) e d). destruct (m e (mkTxn d None)) as [? [|[]]]; done.
Qed.
#[export] Instance ctx_free_allocate n r id bus policy now collisions random :
  CtxFree (allocate n r id bus policy now collisions random).
Proof.
  revert collisions random. induction n as [|n IH]; intros collisions random; cbn [allocate]; [apply _|].
  destruct (Names.Generate _ _ _) as [[name rest]|]; [|apply _]. apply ctx_free_bind; [apply _|].
  intros [g|]; [apply IH|]. destruct (randomSessionID rest) as [[code rest1]|]; [|apply _].
  destruct (randomSessionID rest1) as [[grantID rest2]|]; apply _.
Qed.
#[export] Instance ctx_free_invite_tx s id bus policy random : CtxFree (invite_tx s id bus policy random).
Proof. unfold invite_tx. apply _. Qed.
#[export] Instance ctx_free_inspect_tx s locator : CtxFree (inspect_tx s locator).
Proof. unfold inspect_tx. apply _. Qed.
#[export] Instance ctx_free_replay s locator code receipt : CtxFree (replay s locator code receipt).
Proof. unfold replay. apply _. Qed.
#[export] Instance ctx_free_consume s locator code key encode jti : CtxFree (consume s locator code key encode jti).
Proof. unfold consume. apply _. Qed.
#[export] Instance ctx_free_redeem_tx s locator code key encode jti : CtxFree (redeem_tx s locator code key encode jti).
Proof.
  unfold redeem_tx. apply ctx_free_bind; [apply _|]. intros [receipt|]; [apply _|].
  apply ctx_free_bind; [apply _|]. intros [response resolved]. apply _.
Qed.

Lemma exec_try_conflict (m : tx unit) e d :
  exec (try_conflict m) e d =
  ((exec m e d).1, match (exec m e d).2 with Ok _ => Ok true | Err ErrConflict => Ok false | Err err => Err err end).
Proof. unfold exec, try_conflict. by destruct (m e (mkTxn d None)) as [? [|[]]]. Qed.

Abbreviation W := (mkEnv writeTransaction).

(** The Session a program needs, when a missing one is reported as [err]. *)
Lemma on_active_ok {A} s id err (f : SessionRecord → tx A) e d d' a :
  exec (on_no_rows err (active s id) ≫= f) e d = (d', Ok a) →
  ∃ r, live s (tx_now e) d id = Some r ∧ exec (f r) e d = (d', Ok a).
Proof.
  rewrite exec_bind by apply _. rewrite exec_on_no_rows, exec_active. cbn [fst snd].
  destruct (live _ _ _ _) as [r|]; [eauto|done].
Qed.

(** The grant an attempt stores. *)
Definition new_grant (grantID code : string) (name : Names.Name) (id bus : string) (words now : Z) (r : SessionRecord)
  : GrantRecord :=
  mkGrantRecord SchemaVersion grantID code (Names.nText name) (Names.nGrammar name) words (attempt_visibility words)
    id bus now (earlier (seExpiresAt r) (time_Add now invitationTTL)).
Definition invitation_of (g : GrantRecord) : Invitation :=
  mkInvitation (grWordCount g) (grJoinCode g) (grAlias g) (grVisibility g) (grExpiresAt g).

(** The names and codes an allocation can return. *)
Definition allocated (policy : string) (random : list Z) (words : Z) (name : Names.Name) (code : string) : Prop :=
  (∃ collisions, words = attempt_words policy collisions) ∧ (∃ index, Names.AtBig tables (Some index) words = Ok name) ∧
  (Forall is_byte random → uuid_form code).

Lemma rand_Int_rest (P : Z → Prop) fuel random max n rest :
  Names.rand_Int fuel random max = Some (n, rest) → Forall P random → Forall P rest.
Proof.
  revert random. induction fuel as [|fuel IH]; intros random; cbn [Names.rand_Int]; [done|].
  destruct (_ =? 0); [by intros [= _ <-]|]. case_if; [done|]. case_if; intros E1 HP.
  - injection E1 as _ <-. by apply Forall_drop.
  - eapply IH; [done|by apply Forall_drop].
Qed.

Lemma Generate_ok random words name rest :
  Names.Generate tables (Some random) words = Ok (name, rest) →
  (∃ index, Names.AtBig tables (Some index) words = Ok name) ∧ (Forall is_byte random → Forall is_byte rest).
Proof.
  unfold Names.Generate. case_if; [done|]. destruct (Names.rand_Int _ _ _) as [[index rest']|] eqn:Hr; [|done].
  destruct (Names.AtBig _ _ _) as [n|] eqn:Ha; [|done]. intros [= <- <-]. split; [eauto|]. by eapply rand_Int_rest.
Qed.

Lemma allocate_ok n r id bus policy now collisions random d d' inv :
  exec (allocate n r id bus policy now collisions random) (W now) d = (d', Ok inv) →
  ∃ grantID code name words, allocated policy random words name code ∧
    let g := new_grant grantID code name id bus words now r in
    insertable g d ∧ d' = add_grant g d ∧ inv = invitation_of g.
Proof.
  revert collisions random. induction n as [|n IH]; intros collisions random; cbn [allocate]; [done|].
  set (words := attempt_words policy collisions).
  destruct (Names.Generate _ _ _) as [[name rest]|] eqn:Hgen; [|done]. unfold Grant. rewrite read_ok.
  apply Generate_ok in Hgen as [Hname Hrest].
  assert (Hmono : ∀ random' w nm c, (Forall is_byte random → Forall is_byte random') →
            allocated policy random' w nm c → allocated policy random w nm c).
  { intros random' w nm c Hr (A1 & A2 & A3). split_and!; auto. }
  assert (Hnext : ∀ random' collisions', (Forall is_byte random → Forall is_byte random') →
            exec (allocate n r id bus policy now collisions' random') (W now) d = (d', Ok inv) → ∃ grantID code name words,
            allocated policy random words name code ∧ let g := new_grant grantID code name id bus words now r in
            insertable g d ∧ d' = add_grant g d ∧ inv = invitation_of g).
  { intros random' collisions' Hr Hex. apply IH in Hex as (grantID & code & name' & words' & Hal & Hex).
    exists grantID, code, name', words'. split; [by apply (Hmono random')|exact Hex]. }
  destruct (match locators d !! _ with Some _ => _ | None => _ end) as [g|]; [by apply Hnext|].
  destruct (randomSessionID rest) as [[code rest1]|] eqn:Hcode; [|done].
  destruct (randomSessionID rest1) as [[grantID rest2]|] eqn:Hid; [|done].
  fold (new_grant grantID code name id bus words now r). set (g := new_grant _ _ _ _ _ _ _ _).
  rewrite exec_bind by apply _. rewrite exec_try_conflict.
  destruct (exec_PutGrant now g d) as [[Hins ->]|[_ (err & -> & [[-> _] | ->])]]; cbn [fst snd]; [|done|].
  - rewrite exec_ret. intros [= <- <-]. exists grantID, code, name, words. split; [|by split_and!].
    split_and!; [by eexists|done|]. intros Hb. by apply (randomSessionID_form rest code rest1 (Hrest Hb)).
  - rewrite read_ok. apply Hnext. intros Hb.
    by apply (randomSessionID_form rest1 grantID rest2), Hid; apply (randomSessionID_form rest code rest1 (Hrest Hb)).
Qed.

Lemma invite_ok s id bus policy random now d d' inv :
  exec (invite_tx s id bus policy random) (W now) d = (d', Ok inv) →
  ∃ r grantID code name words, live s now d id = Some r ∧ busReady s r bus now = true ∧
    Z.of_nat (size (grants d)) < MaxInvitations (config s) ∧ allocated policy random words name code ∧
    let g := new_grant grantID code name id bus words now r in
    insertable g d ∧ d' = add_grant g d ∧ inv = invitation_of g.
Proof.
  unfold invite_tx. intros Hex. apply on_active_ok in Hex as (r & Hr & Hex). rewrite Now_ok in Hex.
  apply guard_ok in Hex as [Hready Hex]. unfold GetCounts in Hex. rewrite read_ok in Hex.
  apply guard_ok in Hex as [Hcap Hex]. cbn [GrantCount] in Hcap. bool_hyps.
  apply allocate_ok in Hex as (grantID & code & name & words & Hal & Hex). exists r, grantID, code, name, words.
  exact (conj Hr (conj Hready (conj Hcap (conj Hal Hex)))).
Qed.

(** The receipt of a redemption. *)
Definition new_receipt (s : Service) (locator code key : string) (now : Z) (g : GrantRecord) (r : SessionRecord)
    (response : list Z) : Receipt :=
  mkReceipt SchemaVersion (receiptKey key) "redeem" (grSessionID g) (requestDigest locator) (credentialDigest s code)
    response 200 now (receipt_expiry s now g r).

Definition matches (s : Service) (locator code : string) (receipt : Receipt) : Prop :=
  rcOperation receipt = "redeem" ∧ rcRequestDigest receipt = requestDigest locator ∧
  rcCredentialDigest receipt = credentialDigest s code.

Lemma replay_ok s locator code receipt now d d' response :
  exec (replay s locator code receipt) (W now) d = (d', Ok response) →
  matches s locator code receipt ∧ now < rcExpiresAt receipt ∧
  is_Some (live s now d (rcSessionID receipt)) ∧ d' = d ∧ response = rcResponse receipt.
Proof.
  unfold replay. rewrite Now_ok. intros Hex. apply guard_ok in Hex as [Hm Hex]. apply guard_ok in Hex as [He Hex].
  apply on_active_ok in Hex as (r & Hr & Hex). rewrite exec_ret in Hex. injection Hex as <- <-.
  unfold After in He. cbn [tx_now] in *. bool_hyps. split_and!; try done; eauto.
Qed.

(** The grant a redemption consumes, and its effect on the records. *)
Record consumed_by (s : Service) (locator code key : string) (now : Z) (jti : option string) (d : records)
    (g : GrantRecord) (r : SessionRecord) (credential : encoded) : Prop := {
  cons_grant : ∃ k, locators d !! locator = Some k ∧ grants d !! k = Some g;
  cons_time : now < grExpiresAt g;
  cons_code : grJoinCode g = code;
  cons_name : name_ok g = true;
  cons_session : live s now d (grSessionID g) = Some r;
  cons_room : key ≠ "" → Z.of_nat (size (receipts d)) < MaxReceipts (config s);
  cons_sign : SignProfile (secret s) (seIssuer r) (seIncarnation r)
                (new_claims (grSessionID g) (grBusID g) [] RoleSubscriber false) (SubscriberTokenTTL (config s)) now jti =
              Ok credential }.

Definition resolved_of (g : GrantRecord) (credential : encoded) : ResolvedInvitation :=
  mkResolved (grSessionID g) (grBusID g) credential.

Definition with_receipt (key : string) (receipt : Receipt) (d : records) : records :=
  if bool_decide (key = "") then d else set_receipts (<[rcKey receipt := receipt]> (receipts d)) d.

Lemma consume_ok s locator code key encode jti now d d' response resolved :
  exec (consume s locator code key encode jti) (W now) d = (d', Ok (response, resolved)) →
  ∃ g r credential, consumed_by s locator code key now jti d g r credential ∧
    resolved = resolved_of g credential ∧ encode resolved = Ok response ∧ len response <= 16384 ∧
    (key ≠ "" → receivable (new_receipt s locator code key now g r response) d) ∧
    d' = drop_grant (grID g) (with_receipt key (new_receipt s locator code key now g r response) d).
Proof.
  unfold consume, Grant. rewrite read_ok, Now_ok. cbn [tx_now].
  destruct (locators d !! locator) as [k|] eqn:Hl; [|done]. destruct (grants d !! k) as [g|] eqn:Hg; [|done].
  intros Hex. apply guard_ok in Hex as [Hc Hex]. apply guard_ok in Hex as [Hn Hex].
  apply on_active_ok in Hex as (r & Hr & Hex). rewrite exec_bind in Hex by apply _.
  assert (Hroom : (exec (if bool_decide (key = "") then mret tt
     else GetCounts ≫= λ counts, guard_tx (negb (ReceiptCount counts >=? MaxReceipts (config s))) ErrReceiptCapacity)
     (W now) d) = (d, if bool_decide (key = "") then Ok tt
                      else if negb (Z.of_nat (size (receipts d)) >=? MaxReceipts (config s)) then Ok tt
                      else Err ErrReceiptCapacity)).
  { case_bool_decide; [done|]. unfold GetCounts. by rewrite read_ok, exec_guard. }
  rewrite Hroom in Hex. cbn [fst snd] in Hex. clear Hroom.
  assert (Hroom : key ≠ "" → Z.of_nat (size (receipts d)) < MaxReceipts (config s)).
  { intros Hk. rewrite bool_decide_false in Hex by done. destruct (Z.geb_spec (Z.of_nat (size (receipts d))) (MaxReceipts (config s))); [done|lia]. }
  destruct (if bool_decide (key = "") then _ else _) as [[]|]; [|done].
  apply sign_ok in Hex as (t & Ht & Hex); [|apply _]. cbv zeta in Hex. rewrite exec_bind in Hex by apply _.
  rewrite exec_lift in Hex. cbn [fst snd] in Hex. fold (resolved_of g t) in Hex.
  destruct (encode (resolved_of g t)) as [response'|] eqn:He; [|done]. apply guard_ok in Hex as [Hlen Hex].
  fold (new_receipt s locator code key now g r response') in Hex. set (receipt := new_receipt _ _ _ _ _ _ _ _) in *.
  rewrite exec_bind in Hex by apply _.
  assert (Hput : ∀ x, exec (if bool_decide (key = "") then mret tt else PutReceipt receipt) (W now) d = x → x.2 = Ok tt →
            x.1 = with_receipt key receipt d ∧ (key ≠ "" → receivable receipt d)).
  { intros x <-. unfold with_receipt. case_bool_decide; [done|].
    destruct (exec_PutReceipt now receipt d) as [[Hrec ->]|[_ (err & -> & _)]]; done. }
  destruct (exec (if bool_decide (key = "") then _ else _) (W now) d) as [d1 [[]|]] eqn:Hx; [|done].
  destruct (Hput _ eq_refl eq_refl) as [Hd1 Hrec]. cbn [fst snd] in Hd1, Hex. subst d1.
  rewrite exec_bind in Hex by apply _. rewrite exec_DeleteGrant in Hex. cbn [fst snd] in Hex. rewrite exec_ret in Hex.
  injection Hex as <- <- <-. unfold After in Hc. bool_hyps. exists g, r, t.
  split; [split; try done; eauto|]. split_and!; try done.
Qed.

Lemma redeem_tx_ok s locator code key encode jti now d d' response resolved :
  exec (redeem_tx s locator code key encode jti) (W now) d = (d', Ok (response, resolved)) →
  (∃ receipt, key ≠ "" ∧ receipts d !! receiptKey key = Some receipt ∧ matches s locator code receipt ∧
     now < rcExpiresAt receipt ∧ is_Some (live s now d (rcSessionID receipt)) ∧
     d' = d ∧ response = rcResponse receipt ∧ resolved = None) ∨
  (∃ x, (key = "" ∨ receipts d !! receiptKey key = None) ∧ resolved = Some x ∧
     exec (consume s locator code key encode jti) (W now) d = (d', Ok (response, x))).
Proof.
  unfold redeem_tx. rewrite exec_bind by apply _.
  assert (Hget : exec (if bool_decide (key = "") then mret None else GetReceipt (receiptKey key)) (W now) d =
            (d, Ok (if bool_decide (key = "") then None else receipts d !! receiptKey key))).
  { by case_bool_decide. }
  rewrite Hget. cbn [fst snd]. case_bool_decide as Hk; [|destruct (receipts d !! receiptKey key) as [receipt|] eqn:Hrc].
  2: { rewrite exec_bind by apply _. destruct (exec (replay _ _ _ _) _ d) as [d1 [resp|]] eqn:Hex; [|done].
       cbn [fst snd]. rewrite exec_ret. intros [= <- <- <-]. apply replay_ok in Hex as (Hm & He & Hl & -> & ->).
       left. exists receipt. by split_and!. }
  all: rewrite exec_bind by apply _; destruct (exec (consume _ _ _ _ _ _) _ d) as [d1 [[resp x]|]] eqn:Hex; [|done];
    cbn [fst snd]; rewrite exec_ret; intros [= <- <- <-]; right; exists x; split_and!; try done; auto.
Qed.

(** ** Sequences of operations *)

(** Everything that changes the records of a store, over any instances. *)
Inductive invite_op :=
| IAccess (o : access_op)
| IInvite (s : Service) (id bus visibility : string) (count : Z) (random : list Z) (cancel : option nat) (now : Z)
| IRedeem (s : Service) (locator code key : string) (encode : ResolvedInvitation → result error (list Z))
    (jti : option string) (cancel : option nat) (now : Z).

(** What a call reported: an invitation, a redemption of a grant, or the response
    of an earlier redemption. *)
Inductive event :=
| Other
| Issued (inv : Invitation)
| Consumed (s : Service) (locator code key : string) (response : list Z) (resolved : ResolvedInvitation)
| Replayed (s : Service) (locator code key : string) (response : list Z).

Definition invite_apply (st : Store) (o : invite_op) : Store * event :=
  match o with
  | IAccess o => (access_apply st o, Other)
  | IInvite s id bus visibility count random cancel now =>
    match CreateInvitationWithOptionsContext s id bus visibility count random cancel now st with
    | (st', Ok inv) => (st', Issued inv)
    | (st', Err _) => (st', Other)
    end
  | IRedeem s locator code key encode jti cancel now =>
    match redeem s locator code key encode jti cancel now st with
    | (st', Ok (response, Some resolved)) => (st', Consumed s locator (effective_code locator code) key response resolved)
    | (st', Ok (response, None)) => (st', Replayed s locator (effective_code locator code) key response)
    | (st', Err _) => (st', Other)
    end
  end.

Definition invite_step (acc : Store * list event) (o : invite_op) : Store * list event :=
  let '(st, ev) := invite_apply acc.1 o in (st, acc.2 ++ [ev]).
Definition run_ops (ops : list invite_op) : Store * list event := foldl invite_step (NewStore, []) ops.

(** The records a callback starts from: no new grants, receipts or Sessions. *)
Definition settled (d d1 : records) : Prop := wf d1 ∧ no_new d d1 ∧ sessions d1 ⊆ sessions d.

Inductive outcome (d d' : records) : invite_op → event → Prop :=
| out_none o : d' = d → outcome d d' o Other
| out_access st o : d = store_data st → d' = store_data (access_apply st o) → outcome d d' (IAccess o) Other
| out_issued s id bus visibility count random cancel now d1 g :
    settled d d1 → insertable g d1 → Z.of_nat (size (grants d1)) < MaxInvitations (config s) → d' = add_grant g d1 →
    outcome d d' (IInvite s id bus visibility count random cancel now) (Issued (invitation_of g))
| out_consumed s locator code key encode jti cancel now d1 g r credential response :
    settled d d1 → consumed_by s locator (effective_code locator code) key now jti d1 g r credential →
    (key ≠ "" → receivable (new_receipt s locator (effective_code locator code) key now g r response) d1) →
    d' = drop_grant (grID g) (with_receipt key (new_receipt s locator (effective_code locator code) key now g r response) d1) →
    outcome d d' (IRedeem s locator code key encode jti cancel now)
      (Consumed s locator (effective_code locator code) key response (resolved_of g credential))
| out_replayed s locator code key encode jti cancel now receipt :
    settled d d' → receipts d' !! receiptKey key = Some receipt → matches s locator (effective_code locator code) receipt →
    outcome d d' (IRedeem s locator code key encode jti cancel now)
      (Replayed s locator (effective_code locator code) key (rcResponse receipt)).

Lemma prepared_settled s now d : wf d → settled d (prepared s now d).
Proof.
  intros Hw. destruct (prepared_spec s now d Hw) as (Hp & _ & Hwp). split_and!; [exact Hwp|by apply prepared_no_new|].
  apply map_subseteq_spec. intros k r Hk. by apply Hp in Hk as [Hk _].
Qed.

Lemma invite_outcome st o :
  wf (store_data st) → outcome (store_data st) (store_data (invite_apply st o).1) o (invite_apply st o).2.
Proof.
  intros Hw. destruct o as [o|s id bus visibility count random cancel now|s locator code key encode jti cancel now];
    cbn [invite_apply].
  - by apply (out_access _ _ st).
  - unfold CreateInvitationWithOptionsContext. destruct (request_policy _ _ _) as [policy|]; [|by apply out_none].
    destruct (update _ _ _ _ st) as [st' [inv|err]] eqn:Hu; cbn [fst snd];
      [|apply out_none; by rewrite (update_err _ _ _ _ _ _ _ Hu)].
    apply update_ok in Hu as (_ & _ & _ & Hex); [|apply _].
    apply invite_ok in Hex as (r & grantID & code & name & words & Hr & _ & Hcap & _ & Hins & Hd & ->).
    eapply out_issued; [by apply (prepared_settled s now)|exact Hins|exact Hcap|exact Hd].
  - unfold redeem. case_if; [by apply out_none|]. case_if; [by apply out_none|].
    destruct (update _ _ _ _ st) as [st' [[response resolved]|err]] eqn:Hu; cbn [fst snd];
      [|apply out_none; by rewrite (update_err _ _ _ _ _ _ _ Hu)].
    apply update_ok in Hu as (_ & _ & _ & Hex); [|apply _].
    apply redeem_tx_ok in Hex as [(receipt & _ & Hrc & Hm & _ & _ & Hd & -> & ->)|(x & _ & -> & Hex)]; cbn [fst snd].
    + rewrite Hd. eapply out_replayed; [by apply prepared_settled|exact Hrc|exact Hm].
    + apply consume_ok in Hex as (g & r & credential & Hc & -> & _ & _ & Hrec & Hd).
      eapply out_consumed; [by apply (prepared_settled s now)|exact Hc|exact Hrec|exact Hd].
Qed.

(** *** Consistency and capacity *)

Lemma access_no_new st o : wf (store_data st) → no_new (store_data st) (store_data (access_apply st o)).
Proof.
  intros Hw. destruct (runs o) as [s|] eqn:Ho.
  - destruct (service_step st o s Hw Ho) as [->|(_ & E)]; [apply no_new_refl|].
    eapply no_new_trans; [by apply prepared_no_new|apply (eff_new _ _ _ _ _ _ E)].
  - destruct o; try done.
    + destruct (open_step key c cancel now fresh st Hw) as [->|(ns & _ & Q)]; [apply no_new_refl|exact (q_new _ _ Q)].
    + destruct (reset_step maxSessions cancel now fresh st Hw) as [->|(id & d1 & _ & Q & ->)];
        [apply no_new_refl|exact (q_new _ _ Q)].
Qed.

Lemma add_grant_wf g d : wf d → insertable g d → wf (add_grant g d).
Proof.
  intros Hw Hins. destruct (exec_PutGrant 0 g d) as [[_ Hex]|[Hn _]]; [|done]. by eapply preserves_PutGrant.
Qed.

Lemma with_receipt_wf key receipt d : wf d → (key ≠ "" → receivable receipt d) → wf (with_receipt key receipt d).
Proof.
  intros Hw Hrec. unfold with_receipt. case_bool_decide as Hk; [done|].
  destruct (exec_PutReceipt 0 receipt d) as [[_ Hex]|[Hn _]]; [|by destruct Hn; auto]. by eapply preserves_PutReceipt.
Qed.

Lemma drop_grant_wf id d : wf d → wf (drop_grant id d).
Proof. intros Hw. eapply (preserves_DeleteGrant id 0 d); [done|apply exec_DeleteGrant]. Qed.

Lemma outcome_wf d d' o ev : wf d → outcome d d' o ev → wf d'.
Proof.
  intros Hw. destruct 1 as [|st o -> ->|? ? ? ? ? ? ? ? d1 g (Hw1 & _) Hins _ ->|
                            ? ? ? ? ? ? ? ? d1 g r cred resp (Hw1 & _) _ Hrec ->|? ? ? ? ? ? ? ? receipt (Hw1 & _)].
  - by subst.
  - by apply access_step_wf.
  - by apply add_grant_wf.
  - by apply drop_grant_wf, with_receipt_wf.
  - done.
Qed.

Lemma create_invitation_wf s id bus visibility count random cancel now st st' inv :
  wf (store_data st) →
  CreateInvitationWithOptionsContext s id bus visibility count random cancel now st = (st', Ok inv) → wf (store_data st').
Proof.
  intros Hw Hc. pose proof (invite_outcome st (IInvite s id bus visibility count random cancel now) Hw) as Ho.
  cbn [invite_apply] in Ho. rewrite Hc in Ho. by eapply outcome_wf.
Qed.

Record limits := mkLimits { lSessions : Z; lInvitations : Z; lReceipts : Z }.

(** The instance of the operation is configured within the limits. *)
Definition within (l : limits) (o : invite_op) : Prop :=
  match o with
  | IAccess o => allows (lSessions l) o
  | IInvite s _ _ _ _ _ _ _ | IRedeem s _ _ _ _ _ _ _ =>
    MaxInvitations (config s) <= lInvitations l ∧ MaxReceipts (config s) <= lReceipts l
  end.

Definition held (l : limits) (d : records) : Prop :=
  Z.of_nat (size (sessions d)) <= lSessions l ∧ Z.of_nat (size (grants d)) <= lInvitations l ∧
  Z.of_nat (size (receipts d)) <= lReceipts l.

Lemma settled_held l d d1 : settled d d1 → held l d → held l d1.
Proof.
  intros (_ & [Hg Hr] & Hs) (B1 & B2 & B3). apply map_subseteq_size in Hg, Hr, Hs. unfold held. lia.
Qed.

Lemma outcome_held l d d' o ev : wf d → within l o → outcome d d' o ev → held l d → held l d'.
Proof.
  intros Hw Hl Ho Hh. destruct Ho as [|st o -> ->|s ? ? ? ? ? ? ? d1 g Hset Hins Hcap ->|
                            s ? ? key ? ? ? ? d1 g r cred resp Hset Hc Hrec ->|? ? ? ? ? ? ? ? receipt Hset].
  - by subst.
  - destruct (access_no_new st o Hw) as [Hg Hr]. apply map_subseteq_size in Hg, Hr. destruct Hh as (B1 & B2 & B3).
    destruct (access_step_ok (lSessions l) st o Hl (conj Hw B1)) as [_ Hs]. unfold held. lia.
  - destruct (settled_held l _ _ Hset Hh) as (B1 & B2 & B3). destruct Hl as [Hl _]. unfold held, add_grant.
    cbn [sessions grants receipts set_grants]. rewrite map_size_insert. split_and!; [done| |done].
    destruct (grants d1 !! grID g); cbv [Datatypes.id]; lia.
  - destruct (settled_held l _ _ Hset Hh) as (B1 & B2 & B3). destruct Hl as [_ Hl]. unfold held.
    destruct (drop_grant_frame (grID g) (with_receipt key
      (new_receipt s locator (effective_code locator code) key now g r resp) d1)) as (-> & -> & _).
    rewrite drop_grant_grants.
    assert (Hdel : (size (delete (grID g) (grants d1)) <= size (grants d1))%nat) by apply map_subseteq_size, delete_subseteq.
    unfold with_receipt. case_bool_decide as Hk; cbn [sessions grants receipts set_receipts]; [split_and!; lia|].
    split_and!; [lia|lia|]. rewrite map_size_insert.
    pose proof (cons_room _ _ _ _ _ _ _ _ _ _ Hc Hk). case_match; cbv [Datatypes.id]; lia.
  - by apply (settled_held l d).
Qed.

Lemma run_ops_snoc ops o :
  run_ops (ops ++ [o]) = ((invite_apply (run_ops ops).1 o).1, (run_ops ops).2 ++ [(invite_apply (run_ops ops).1 o).2]).
Proof. unfold run_ops. rewrite foldl_snoc. unfold invite_step at 1. by destruct (invite_apply _ o). Qed.

Lemma run_ops_wf ops : wf (store_data (run_ops ops).1).
Proof.
  induction ops as [|o ops IH] using rev_ind; [exact empty_wf|]. rewrite run_ops_snoc. cbn [fst].
  by eapply outcome_wf, invite_outcome.
Qed.

(** Invitations keep the store consistent and within its limits.  Whatever the
    instances sharing a store do, create Sessions, invite, redeem with or without
    retry keys, and wherever the calls are cancelled, the store stays consistent
    and holds at most the configured numbers of Sessions, invitations and
    receipts. *)
Theorem invitation_store_bounded l ops :
  0 <= lSessions l → 0 <= lInvitations l → 0 <= lReceipts l → Forall (within l) ops →
  wf (store_data (run_ops ops).1) ∧ held l (store_data (run_ops ops).1).
Proof.
  intros Hs Hi Hr Hops. split; [apply run_ops_wf|]. induction ops as [|o ops IH] using rev_ind.
  { unfold held. cbn. rewrite !map_size_empty. lia. }
  apply Forall_app in Hops as [Hops Ho]. apply Forall_cons in Ho as [Ho _]. rewrite run_ops_snoc. cbn [fst].
  eapply outcome_held; [apply run_ops_wf|exact Ho|apply invite_outcome, run_ops_wf|by apply IH].
Qed.

(** *** One redemption per invitation *)

Definition issued_codes (evs : list event) : list string :=
  omap (λ ev, match ev with Issued inv => Some (iCode inv) | _ => None end) evs.
Definition consumed_codes (evs : list event) : list string :=
  omap (λ ev, match ev with Consumed _ _ code _ _ _ => Some code | _ => None end) evs.

(** The codes of the stored grants are issued and not consumed. *)
Definition outstanding (d : records) (evs : list event) : Prop :=
  ∀ k g, grants d !! k = Some g → grJoinCode g ∈ issued_codes evs ∧ grJoinCode g ∉ consumed_codes evs.

Lemma outstanding_subset d d1 evs : grants d1 ⊆ grants d → outstanding d evs → outstanding d1 evs.
Proof. intros Hsub Hout k g Hk. apply (Hout k). by apply (lookup_weaken (grants d1)). Qed.

(** No two grants have the same join code. *)
Lemma join_code_inj d k k' g g' :
  wf d → grants d !! k = Some g → grants d !! k' = Some g' → grJoinCode g = grJoinCode g' → k = k'.
Proof.
  intros [[Hi _] _] Hk Hk' E. destruct (Hi k g Hk) as (_ & _ & Hl & _). destruct (Hi k' g' Hk') as (_ & _ & Hl' & _). congruence.
Qed.

Lemma codes_snoc evs ev :
  issued_codes (evs ++ [ev]) = issued_codes evs ++ issued_codes [ev] ∧
  consumed_codes (evs ++ [ev]) = consumed_codes evs ++ consumed_codes [ev].
Proof. unfold issued_codes, consumed_codes. by rewrite !omap_app. Qed.

(** The state of the codes after a sequence of operations. *)
Record codes_ok (d : records) (evs : list event) : Prop := {
  co_out : outstanding d evs;
  co_once : NoDup (consumed_codes evs);
  co_issued : consumed_codes evs ⊆ issued_codes evs }.

Lemma codes_quiet d d' evs ev :
  issued_codes [ev] = [] → consumed_codes [ev] = [] → grants d' ⊆ grants d → codes_ok d evs → codes_ok d' (evs ++ [ev]).
Proof.
  intros Hi Hc Hsub [Ho Hn Hs]. destruct (codes_snoc evs ev) as [Ei Ec]. rewrite Hi, app_nil_r in Ei.
  rewrite Hc, app_nil_r in Ec. split.
  - unfold outstanding. rewrite Ei, Ec. by apply (outstanding_subset d).
  - by rewrite Ec.
  - by rewrite Ei, Ec.
Qed.

Lemma codes_issue d g evs :
  NoDup (issued_codes evs ++ [grJoinCode g]) → codes_ok d evs → codes_ok (add_grant g d) (evs ++ [Issued (invitation_of g)]).
Proof.
  intros Hnd [Ho Hn Hs]. destruct (codes_snoc evs (Issued (invitation_of g))) as [Ei Ec].
  cbn in Ei, Ec. rewrite app_nil_r in Ec. apply NoDup_app in Hnd as (_ & Hdis & _).
  assert (Hfresh : grJoinCode g ∉ issued_codes evs). { intros Hin. by apply (Hdis _ Hin), list_elem_of_singleton. }
  split.
  - intros k g' Hk. rewrite Ei, Ec, elem_of_app. cbn in Hk. apply lookup_insert_Some in Hk as [[_ <-]|[_ Hk]].
    + split; [right; by apply list_elem_of_singleton|]. intros Hin. by apply Hfresh, Hs.
    + destruct (Ho k g' Hk). auto.
  - by rewrite Ec.
  - rewrite Ei, Ec. set_solver.
Qed.

Lemma codes_consume d s locator code key now jti g r credential receipt response evs :
  wf d → consumed_by s locator code key now jti d g r credential → codes_ok d evs →
  codes_ok (drop_grant (grID g) (with_receipt key receipt d)) (evs ++ [Consumed s locator code key response (resolved_of g credential)]).
Proof.
  intros Hw Hc [Ho Hn Hs]. destruct (codes_snoc evs (Consumed s locator code key response (resolved_of g credential))) as [Ei Ec].
  cbn in Ei, Ec. rewrite app_nil_r in Ei. destruct (cons_grant _ _ _ _ _ _ _ _ _ _ Hc) as (k & _ & Hg).
  pose proof (cons_code _ _ _ _ _ _ _ _ _ _ Hc) as Hcode. destruct (Ho k g Hg) as [Hin Hnin]. rewrite Hcode in Hin, Hnin.
  assert (Hid : grID g = k) by (destruct Hw as [[Hi _] _]; by apply Hi). split.
  - intros k' g' Hk'. rewrite drop_grant_grants in Hk'. apply lookup_delete_Some in Hk' as [Hne Hk'].
    assert (Hk'' : grants d !! k' = Some g') by (unfold with_receipt in Hk'; by case_bool_decide).
    rewrite Ei, Ec, not_elem_of_app, list_elem_of_singleton. destruct (Ho k' g' Hk''). split_and!; try done.
    intros E. apply Hne. rewrite Hid. eapply join_code_inj; [exact Hw|exact Hg|exact Hk''|congruence].
  - rewrite Ec. apply NoDup_app. split_and!; [done| |apply NoDup_singleton].
    intros x Hx ->%list_elem_of_singleton. done.
  - rewrite Ei, Ec. set_solver.
Qed.

Lemma run_codes ops : NoDup (issued_codes (run_ops ops).2) → codes_ok (store_data (run_ops ops).1) (run_ops ops).2.
Proof.
  induction ops as [|o ops IH] using rev_ind; intros Hnd.
  { split; [|constructor|done]. intros k g Hk. cbn in Hk. by rewrite lookup_empty in Hk. }
  rewrite run_ops_snoc in *. cbn [fst snd] in *. pose proof (run_ops_wf ops) as Hw.
  pose proof (invite_outcome (run_ops ops).1 o Hw) as Hout. revert Hnd Hout.
  generalize (invite_apply (run_ops ops).1 o). intros [st' ev] Hnd Hout. cbn [fst snd] in *.
  destruct (codes_snoc (run_ops ops).2 ev) as [Ei _]. rewrite Ei in Hnd.
  pose proof (proj1 (proj1 (NoDup_app _ _) Hnd)) as Hnd0. specialize (IH Hnd0).
  assert (Hd' : ∃ d', store_data st' = d') by eauto. destruct Hd' as [d' Hd']. rewrite Hd' in *.
  assert (Hd : ∃ d, store_data (run_ops ops).1 = d) by eauto. destruct Hd as [d Hd]. rewrite Hd in *.
  destruct Hout as [|st o -> ->|? ? ? ? ? ? ? ? d1 g (Hw1 & [Hg _] & _) Hins _ ->|
                    ? ? ? ? ? ? ? ? d1 g r cred resp (Hw1 & [Hg _] & _) Hc Hrec ->|? ? ? ? ? ? ? ? receipt (Hw1 & [Hg _] & _)].
  - apply (codes_quiet d); [done|done|by subst|done].
  - apply (codes_quiet (store_data st)); [done|done|by apply access_no_new|done].
  - apply codes_issue; [exact Hnd|]. destruct IH as [Ho Hn Hs]. split; [by apply (outstanding_subset d)|done|done].
  - eapply codes_consume; [done|exact Hc|]. destruct IH as [Ho Hn Hs]. split; [by apply (outstanding_subset d)|done|done].
  - by apply (codes_quiet d).
Qed.

(** C4: Each invitation is redeemed at most once.  In any sequence of operations of
    any instances on a store, cancelled anywhere, in which no join code is drawn
    twice, no join code is consumed twice, and only issued codes are consumed. *)
Theorem invitations_redeemed_once ops :
  NoDup (issued_codes (run_ops ops).2) →
  NoDup (consumed_codes (run_ops ops).2) ∧ consumed_codes (run_ops ops).2 ⊆ issued_codes (run_ops ops).2.
Proof. intros Hnd. destruct (run_codes ops Hnd) as [_ Hn Hs]. by split. Qed.

(** *** Retries *)

(** Every stored receipt is that of an earlier redemption. *)
Definition receipted (d : records) (evs : list event) : Prop :=
  ∀ k rc, receipts d !! k = Some rc →
    ∃ s locator code key resolved, Consumed s locator code key (rcResponse rc) resolved ∈ evs ∧
      k = receiptKey key ∧ matches s locator code rc.

Lemma receipted_subset d d1 evs ev : receipts d1 ⊆ receipts d → receipted d evs → receipted d1 (evs ++ [ev]).
Proof.
  intros Hsub Hr k rc Hk. destruct (Hr k rc) as (s & l & c & key & x & Hin & Hkey & Hm); [by apply (lookup_weaken (receipts d1))|].
  exists s, l, c, key, x. split_and!; try done. apply elem_of_app. by left.
Qed.

Lemma outcome_receipted d d' o ev evs :
  wf d → outcome d d' o ev → receipted d evs → receipted d' (evs ++ [ev]).
Proof.
  intros Hw Hout Hr.
  destruct Hout as [|st o -> ->|? ? ? ? ? ? ? ? d1 g (_ & [_ Hsub] & _) Hins _ ->|
                    s locator code key ? ? ? ? d1 g r cred resp (_ & [_ Hsub] & _) Hc Hrec ->|? ? ? ? ? ? ? ? receipt (_ & [_ Hsub] & _)].
  - apply (receipted_subset d); [by subst|done].
  - apply (receipted_subset (store_data st)); [by apply access_no_new|done].
  - by apply (receipted_subset d).
  - set (rc := new_receipt _ _ _ _ _ _ _ _) in *. intros k rc' Hk. destruct (drop_grant_frame (grID g) (with_receipt key rc d1)) as (_ & E & _).
    rewrite E in Hk. unfold with_receipt in Hk. case_bool_decide as Hkey; [by apply (receipted_subset d d1)|].
    cbn in Hk. apply lookup_insert_Some in Hk as [[<- <-]|[_ Hk]]; [|by apply (receipted_subset d d1)].
    exists s, locator, (effective_code locator code), key, (resolved_of g cred). split_and!; try done.
    apply elem_of_app. right. apply list_elem_of_singleton. done.
  - by apply (receipted_subset d).
Qed.

Lemma run_receipted ops : receipted (store_data (run_ops ops).1) (run_ops ops).2.
Proof.
  induction ops as [|o ops IH] using rev_ind; [intros k rc Hk; cbn in Hk; by rewrite lookup_empty in Hk|].
  rewrite run_ops_snoc. cbn [fst snd]. eapply outcome_receipted; [apply run_ops_wf|apply invite_outcome, run_ops_wf|done].
Qed.

(** A replayed response is never invented.  A redemption that answers from a
    receipt returns, byte for byte, the response of an earlier redemption that
    consumed a grant with the same digests of retry key, locator and join code,
    and it consumes nothing. *)
Theorem replay_returns_first_response ops o s locator code key response :
  (invite_apply (run_ops ops).1 o).2 = Replayed s locator code key response →
  ∃ s' locator' code' key' resolved,
    Consumed s' locator' code' key' response resolved ∈ (run_ops ops).2 ∧
    receiptKey key' = receiptKey key ∧ requestDigest locator' = requestDigest locator ∧
    credentialDigest s' code' = credentialDigest s code ∧
    grants (store_data (invite_apply (run_ops ops).1 o).1) ⊆ grants (store_data (run_ops ops).1).
Proof.
  pose proof (run_ops_wf ops) as Hw. pose proof (invite_outcome (run_ops ops).1 o Hw) as Hout.
  pose proof (run_receipted ops) as Hr. intros Hev. rewrite Hev in Hout.
  inversion Hout as [| | | |s0 l0 c0 key0 ? ? ? ? receipt (_ & [Hg Hsub] & _) Hrc (_ & Hm1 & Hm2)]; subst.
  destruct (Hr (receiptKey key) receipt) as (s' & l' & c' & key' & x & Hin & Hk & (_ & E1 & E2)); [by apply (lookup_weaken _ _ _ _ Hrc)|].
  exists s', l', c', key', x. split; [exact Hin|]. split; [done|]. split; [congruence|]. split; [congruence|exact Hg].
Qed.

(** ** What an invitation is *)

(** The number of words a request asks for. *)
Definition asked_words (s : Service) (visibility : string) (count words : Z) : Prop :=
  (count ≠ 0 → words = count) ∧ (visibility = InvitationVisibilityPublic → words = 2) ∧
  (visibility = InvitationVisibilityPrivate → words = 3) ∧
  (count = 0 → visibility = "" →
     match NamePolicy.fixedCount (NamePolicy (config s)) with Some n => words = n | None => words = 2 ∨ words = 3 end).

Lemma fixed_policy_words n collisions :
  NamePolicy.in_range n = true →
  attempt_words (match NamePolicy.FixedNamePolicy n with Ok policy => policy | Err _ => "" end) collisions = n.
Proof.
  intros Hn. unfold NamePolicy.FixedNamePolicy, attempt_words. rewrite Hn. cbn [negb].
  by rewrite NamePolicy.fixedCount_fixed.
Qed.

Lemma request_policy_words s visibility count policy collisions :
  request_policy s visibility count = Ok policy → asked_words s visibility count (attempt_words policy collisions).
Proof.
  unfold request_policy, asked_words. intros Hp.
  assert (Hauto : ∀ p, match NamePolicy.fixedCount p with Some n => attempt_words p collisions = n
                       | None => attempt_words p collisions = 2 ∨ attempt_words p collisions = 3 end).
  { intros p. unfold attempt_words. destruct (NamePolicy.fixedCount p); [done|]. case_if; auto. }
  destruct (Z.eqb_spec count 0) as [->|Hc]; cbn [negb andb] in Hp.
  - case_bool_decide as E1; [|case_bool_decide as E2; [|case_bool_decide as E3; [|done]]]; cbn in Hp; injection Hp as <-.
    + subst. split_and!; try done. intros _ _. apply Hauto.
    + subst. split_and!; try done; intros _; by apply fixed_policy_words.
    + subst. split_and!; try done; intros _; by apply fixed_policy_words.
  - case_bool_decide as E1; [|case_bool_decide as E2; [by rewrite orb_true_r in Hp|
      case_bool_decide as E3; [by rewrite orb_true_r in Hp|done]]].
    cbn in Hp. rewrite orb_false_r in Hp. destruct ((count <? Names.MinWordCount) || (count >? Names.MaxWordCount)) eqn:Er; [done|].
    rewrite (proj2 (Z.eqb_neq count 0)) in Hp by done. injection Hp as <-. subst. split_and!; try done. intros _. apply fixed_policy_words. unfold NamePolicy.in_range.
    apply orb_false_iff in Er as [?%Z.ltb_ge E4]. rewrite Z.gtb_ltb in E4. apply Z.ltb_ge in E4.
    apply andb_true_iff. split; by apply Z.leb_le.
Qed.

Lemma earlier_min a b : earlier a b = Z.min a b.
Proof. unfold earlier, Before. destruct (Z.ltb_spec a b); lia. Qed.

(** The stored name of a grant is one of its grammar's names, of [words] words. *)
Definition named (g : GrantRecord) : Prop :=
  Names.ParseStored tables (grGrammarName g) (grAlias g) =
  Ok (Names.mkName (grAlias g) (grGrammarName g) (grWordCount g)) ∧ 2 <= grWordCount g <= 15.

Lemma create_invitation_ok s id bus visibility count random cancel now st st' inv :
  CreateInvitationWithOptionsContext s id bus visibility count random cancel now st = (st', Ok inv) →
  Names.lex_ok tables →
  closed st' = false ∧ writes s (namespace (store_data st)) = true ∧
  ∃ g r, live s now (prepared s now (store_data st)) id = Some r ∧ busReady s r bus now = true ∧
    insertable g (prepared s now (store_data st)) ∧ store_data st' = add_grant g (prepared s now (store_data st)) ∧
    inv = invitation_of g ∧ grSessionID g = id ∧ grBusID g = bus ∧ named g ∧
    asked_words s visibility count (grWordCount g) ∧
    grVisibility g = attempt_visibility (grWordCount g) ∧
    grExpiresAt g = Z.min (seExpiresAt r) (now + invitationTTL) ∧
    (Forall is_byte random → uuid_form (grJoinCode g)).
Proof.
  unfold CreateInvitationWithOptionsContext. destruct (request_policy _ _ _) as [policy|] eqn:Hpol; [|done].
  intros Hu HL. apply update_ok in Hu as (_ & Hcl & Hwr & Hex); [|apply _]. split_and!; [done|done|].
  apply invite_ok in Hex as (r & grantID & code & name & words & Hr & Hready & Hcap & ([c ->] & [index Hi] & Hform) & Hins & Hd & ->).
  exists (new_grant grantID code name id bus (attempt_words policy c) now r), r.
  pose proof (Names.at_big_cases _ HL _ _ _ Hi) as (Hwords & _ & Hn & _).
  pose proof (Names.at_big_parses _ HL _ _ _ Hi) as Hparse.
  split; [done|]. split; [done|]. split; [exact Hins|]. split; [exact Hd|]. split; [done|]. split; [done|]. split; [done|].
  cbn [new_grant grWordCount grGrammarName grAlias grVisibility grExpiresAt grJoinCode named].
  split; [|split; [by apply request_policy_words|split; [done|split; [by rewrite earlier_min|done]]]].
  split; [|exact Hwords]. cbn [new_grant grWordCount grGrammarName grAlias]. rewrite Hparse. rewrite <- Hn. by destruct name.
Qed.

(** A created invitation.  It is stored as one new grant for the requested bus
    of a live, ready Session, and nothing else changes but what has expired; its
    name is one of its grammar's names with the number of words asked for or
    configured, neither name nor code leads to another grant, and it expires
    after fifteen minutes or with the Session. *)
Theorem invitation_created s id bus visibility count random cancel now st st' inv :
  wf (store_data st) → Names.lex_ok tables →
  CreateInvitationWithOptionsContext s id bus visibility count random cancel now st = (st', Ok inv) →
  ∃ g r, sessions (store_data st) !! id = Some r ∧ busReady s r bus now = true ∧
    store_data st' = add_grant g (prepared s now (store_data st)) ∧ inv = invitation_of g ∧
    grSessionID g = id ∧ grBusID g = bus ∧ named g ∧ asked_words s visibility count (iWordCount inv) ∧
    locators (prepared s now (store_data st)) !! iAlias inv = None ∧
    locators (prepared s now (store_data st)) !! iCode inv = None ∧
    now < iExpiresAt inv ∧ iExpiresAt inv = Z.min (seExpiresAt r) (now + invitationTTL).
Proof.
  intros Hw HL Hc. apply create_invitation_ok in Hc
    as (_ & _ & g & r & Hr & Hready & (_ & _ & _ & _ & _ & _ & _ & Hl1 & Hl2) & Hd & -> & Hs & Hb & Hn & Ha & _ & He & _); [|done].
  rewrite live_prepared in Hr by done. apply live_some in Hr as (Hr & Hlt & _). exists g, r. cbn [invitation_of iAlias iCode iExpiresAt iWordCount].
  assert (0 < invitationTTL) by done.
  split; [done|]. split; [done|]. split; [done|]. split; [done|]. split; [done|]. split; [done|]. split; [done|]. split; [done|].
  split; [done|]. split; [done|]. split; [lia|done].
Qed.

(** ** Redeeming a created invitation *)

(** An uncancelled update by the current writer does what its callback does. *)
Lemma update_runs {A} s (fn : tx A) `{!CtxFree fn} now st :
  closed st = false → writes s (namespace (store_data st)) = true →
  namespace_bytes (renew_lease s now (namespace (store_data st))) <= MaxRecordBytes →
  update s None now fn st =
  match exec fn (W now) (prepared s now (store_data st)) with
  | (d', Ok a) => (mkStore d' false, Ok a)
  | (_, Err e) => (st, Err e)
  end.
Proof.
  intros Hc Hw Hn. unfold update, Update, run. cbn [ctx_err ctx]. rewrite Hc.
  rewrite (exec_state (update_tx s fn)), exec_update_tx, Hw by apply _. rewrite Z.gtb_ltb, (proj2 (Z.ltb_ge _ _)) by done.
  destruct (exec fn _ _) as [d' [a|e]]; cbn [fst snd ctx_err ctx]; [|done]. by rewrite decide_True.
Qed.

(** What an update keeps: unexpired records of unexpired Sessions. *)
Lemma prepared_keeps s now d id r :
  wf d → sessions d !! id = Some r → now < seExpiresAt r →
  sessions (prepared s now d) !! id = Some r ∧
  (∀ k g, grants d !! k = Some g → grSessionID g = id → now < grExpiresAt g → grants (prepared s now d) !! k = Some g) ∧
  (∀ k rc, receipts d !! k = Some rc → rcSessionID rc = id → now < rcExpiresAt rc → receipts (prepared s now d) !! k = Some rc).
Proof.
  intros Hw Hr Hlt.
  destruct (prune_spec now (set_namespace (renew_lease s now (namespace d)) d) Hw) as (P1 & P2 & P3 & _).
  assert (Hs : sessions (prepared s now d) !! id = Some r) by (by apply P1). split_and!; [done| |].
  - intros k g Hk Hid Hg. apply P2. rewrite Hid. by split_and!.
  - intros k rc Hk Hid Hrc. apply P3. rewrite Hid. by split_and!.
Qed.

Lemma live_intro s now d id r :
  sessions d !! id = Some r → now < seExpiresAt r → seIncarnation r = incarnation s → live s now d id = Some r.
Proof.
  intros Hr Hlt Hi. unfold live, After. rewrite Hr, (proj2 (Z.ltb_lt _ _)) by done. by rewrite bool_decide_true.
Qed.

Lemma exec_on_active {A} s id err (f : SessionRecord → tx A) e d r :
  live s (tx_now e) d id = Some r → exec (on_no_rows err (active s id) ≫= f) e d = exec (f r) e d.
Proof. intros Hr. rewrite exec_bind by apply _. rewrite exec_on_no_rows, exec_active. cbn [fst snd]. by rewrite Hr. Qed.

Lemma exec_guard_true {A} err (m : tx A) b e d : b = true → exec (guard_tx b err ≫= λ _, m) e d = exec m e d.
Proof. intros ->. by rewrite exec_bind by apply _. Qed.

(** A capability for the bus of an invitation can be signed. *)
Record signable (s : Service) (r : SessionRecord) (id bus : string) : Prop := {
  sg_secret : 32 <= len (secret s);
  sg_ttl : 0 < SubscriberTokenTTL (config s);
  sg_issuer : seIssuer r = Issuer ∨ seIssuer r = LegacyIssuer;
  sg_session : validIdentifier id maxIdentifierLength = true;
  sg_bus : validIdentifier bus 64 = true }.

Lemma sign_runs s r id bus now jti :
  signable s r id bus →
  ∃ t, SignProfile (secret s) (seIssuer r) (seIncarnation r) (new_claims id bus [] RoleSubscriber false)
         (SubscriberTokenTTL (config s)) now (Some jti) = Ok t.
Proof.
  intros [S1 S2 S3 S4 S5]. unfold SignProfile.
  assert (E : negb (bool_decide (seIssuer r = Issuer)) && negb (bool_decide (seIssuer r = LegacyIssuer)) = false).
  { destruct S3 as [-> | ->]; [by rewrite bool_decide_true|]. by rewrite (bool_decide_true (LegacyIssuer = LegacyIssuer)), andb_false_r. }
  rewrite E. set (c := mkClaims _ _ _ _ _ _ _). assert (Hsc : validateScope c = Ok tt) by (by apply validateScope_ok).
  rewrite Hsc. rewrite (proj2 (Z.ltb_ge _ _)) by done. change (cSessionID c) with id. rewrite S4.
  rewrite (proj2 (Z.leb_gt _ _)) by lia. cbn [negb orb]. eauto.
Qed.

Lemma consume_runs s locator code encode jti now d k g r t response :
  locators d !! locator = Some k → grants d !! k = Some g → now < grExpiresAt g → grJoinCode g = code → name_ok g = true →
  live s now d (grSessionID g) = Some r →
  SignProfile (secret s) (seIssuer r) (seIncarnation r) (new_claims (grSessionID g) (grBusID g) [] RoleSubscriber false)
    (SubscriberTokenTTL (config s)) now jti = Ok t →
  encode (resolved_of g t) = Ok response → len response <= 16384 →
  exec (consume s locator code "" encode jti) (W now) d = (drop_grant (grID g) d, Ok (response, resolved_of g t)).
Proof.
  intros Hl Hg Ht Hc Hn Hr Hs He Hlen. unfold consume, Grant. rewrite read_ok, Now_ok, Hl, Hg. cbn [tx_now].
  rewrite exec_guard_true by (unfold After; rewrite (proj2 (Z.ltb_lt _ _)), bool_decide_true by done; done).
  rewrite exec_guard_true by done. rewrite (exec_on_active _ _ _ _ _ _ r) by done.
  rewrite exec_bind by apply _. rewrite bool_decide_true by done. rewrite exec_ret. cbn [fst snd].
  rewrite exec_bind by apply _. rewrite exec_sign_tx, Hs. cbn [fst snd]. rewrite exec_bind by apply _. rewrite exec_lift.
  fold (resolved_of g t). rewrite He. cbn [fst snd].
  rewrite exec_guard_true by (rewrite Z.gtb_ltb, (proj2 (Z.ltb_ge _ _)) by done; done).
  rewrite exec_bind by apply _. rewrite exec_ret. cbn [fst snd]. rewrite exec_bind by apply _. by rewrite exec_DeleteGrant.
Qed.

(** A request that reaches the store. *)
Definition admissible (locator code key : string) : Prop :=
  validOpaqueInvitationCode (effective_code locator code) = true ∧ string_len locator <= Names.MaxNameBytes ∧
  locator ≠ "" ∧ (key = "" ∨ key_ok key = true).

Lemma redeem_admissible s locator code key encode jti cancel now st :
  admissible locator code key →
  redeem s locator code key encode jti cancel now st =
  update s cancel now (redeem_tx s locator (effective_code locator code) key encode jti) st.
Proof.
  intros (Ho & Hl & Hne & Hk). unfold redeem. rewrite Ho, Z.gtb_ltb, (proj2 (Z.ltb_ge _ _)), bool_decide_false by done.
  cbn [negb orb]. destruct Hk as [-> | ->]; [done|]. by rewrite andb_false_r.
Qed.

Lemma redeem_inv s locator code key encode jti cancel now st st' x :
  redeem s locator code key encode jti cancel now st = (st', Ok x) → admissible locator code key.
Proof.
  unfold redeem. destruct (validOpaqueInvitationCode _) eqn:Ho; [|done].
  destruct (Z.gtb_spec (string_len locator) Names.MaxNameBytes); [done|]. case_bool_decide; [done|]. cbn [negb orb].
  case_bool_decide; [|destruct (key_ok key) eqn:Hk; [|done]]; intros _; split_and!; auto.
Qed.

(** *** Retries *)

Lemma receipt_expiry_bounds s now g r :
  receipt_expiry s now g r <= now + ReceiptTTL (config s) ∧ receipt_expiry s now g r <= grExpiresAt g ∧
  receipt_expiry s now g r <= seExpiresAt r.
Proof. unfold receipt_expiry, time_Add. cbn [foldl]. rewrite !earlier_min. lia. Qed.

Lemma replay_runs s locator code key encode jti now d receipt :
  key ≠ "" → receipts d !! receiptKey key = Some receipt →
  exec (redeem_tx s locator code key encode jti) (W now) d =
  (d, if bool_decide (rcOperation receipt = "redeem") && bool_decide (rcRequestDigest receipt = requestDigest locator) &&
         bool_decide (rcCredentialDigest receipt = credentialDigest s code)
      then if After (rcExpiresAt receipt) now
           then match live s now d (rcSessionID receipt) with Some _ => Ok (rcResponse receipt, None) | None => Err ErrNotExist end
           else Err ErrNotExist
      else Err ErrRetryConflict).
Proof.
  intros Hk Hr. unfold redeem_tx. rewrite exec_bind by apply _. rewrite bool_decide_false by done.
  unfold GetReceipt. rewrite exec_read. cbn [fst snd]. rewrite Hr. rewrite exec_bind by apply _. unfold replay.
  rewrite Now_ok. rewrite exec_bind by apply _. rewrite exec_guard. cbn [fst snd tx_now].
  destruct (_ && _ && _); [|done]. rewrite exec_bind by apply _. rewrite exec_guard. cbn [fst snd].
  destruct (After _ _); [|done]. rewrite exec_bind by apply _. rewrite exec_on_no_rows, exec_active. cbn [fst snd tx_now].
  by destruct (live _ _ _ _).
Qed.

(** The receipt a redemption with a retry key leaves. *)
Lemma redeem_leaves_receipt s locator code key encode jti cancel now st st1 response resolved :
  wf (store_data st) → key ≠ "" →
  redeem s locator code key encode jti cancel now st = (st1, Ok (response, Some resolved)) →
  closed st1 = false ∧ writes s (namespace (store_data st)) = true ∧ wf (store_data st1) ∧
  namespace (store_data st1) = renew_lease s now (namespace (store_data st)) ∧
  ∃ g r, let rc := new_receipt s locator (effective_code locator code) key now g r response in
    receipts (store_data st1) !! receiptKey key = Some rc ∧ sessions (store_data st1) !! rcSessionID rc = Some r ∧
    seIncarnation r = incarnation s.
Proof.
  intros Hw Hk Hre. pose proof (redeem_inv _ _ _ _ _ _ _ _ _ _ _ Hre) as Hadm. rewrite redeem_admissible in Hre by done.
  apply update_ok in Hre as (_ & Hcl & Hwr & Hex); [|apply _]. destruct (prepared_spec s now _ Hw) as (_ & Hns & Hwp).
  apply redeem_tx_ok in Hex as [(receipt & _ & _ & _ & _ & _ & _ & _ & E)|(x & _ & E & Hex)]; [done|]. injection E as <-.
  apply consume_ok in Hex as (g & r & t & Hc & _ & _ & _ & Hrec & Hd). specialize (Hrec Hk).
  set (rc := new_receipt _ _ _ _ _ _ _ _) in *. destruct (drop_grant_frame (grID g) (with_receipt key rc (prepared s now (store_data st)))) as (F1 & F2 & F3).
  rewrite Hd. split; [done|]. split; [done|]. split; [by apply drop_grant_wf, with_receipt_wf|].
  rewrite F1, F2, F3. unfold with_receipt. rewrite bool_decide_false by done. cbn [set_receipts namespace receipts sessions].
  split; [done|]. exists g, r. cbv zeta. fold rc. pose proof (cons_session _ _ _ _ _ _ _ _ _ _ Hc) as (Hr & _ & Hi)%live_some.
  split_and!; [by rewrite lookup_insert_eq|exact Hr|done].
Qed.

(** Retrying a redemption.  A redemption with a retry key leaves a receipt that
    lasts no longer than configured; while it lasts, repeating the request with
    that key returns the same bytes and signs nothing, and using the key for
    another locator or another join code is refused without effect. *)
Theorem redeem_retry s locator code key encode jti cancel now st st1 response resolved :
  wf (store_data st) → key ≠ "" →
  (∀ t, namespace_bytes (renew_lease s t (namespace (store_data st))) <= MaxRecordBytes) →
  redeem s locator code key encode jti cancel now st = (st1, Ok (response, Some resolved)) →
  ∃ rc, receipts (store_data st1) !! receiptKey key = Some rc ∧ rcExpiresAt rc <= now + ReceiptTTL (config s) ∧
    ∀ now' encode' jti', now' < rcExpiresAt rc →
      redeem s locator code key encode' jti' None now' st1 =
        (mkStore (prepared s now' (store_data st1)) false, Ok (response, None)) ∧
      ∀ locator' code', admissible locator' code' key →
        requestDigest locator' ≠ requestDigest locator ∨
        credentialDigest s (effective_code locator' code') ≠ credentialDigest s (effective_code locator code) →
        redeem s locator' code' key encode' jti' None now' st1 = (st1, Err ErrRetryConflict).
Proof.
  intros Hw Hk Hns Hre. pose proof (redeem_inv _ _ _ _ _ _ _ _ _ _ _ Hre) as Hadm.
  apply redeem_leaves_receipt in Hre as (Hcl & Hwr & Hw1 & Hn1 & g & r & Hrc & Hr & Hi); [|done..].
  set (rc := new_receipt _ _ _ _ _ _ _ _) in *. exists rc. pose proof (receipt_expiry_bounds s now g r) as (B1 & B2 & B3).
  split; [done|]. split; [exact B1|]. intros now' encode' jti' Hnow. change (rcExpiresAt rc) with (receipt_expiry s now g r) in Hnow.
  destruct (prepared_keeps s now' (store_data st1) (rcSessionID rc) r Hw1 Hr ltac:(lia)) as (Hr' & _ & Hrc').
  specialize (Hrc' _ _ Hrc eq_refl Hnow).
  assert (Hupd : ∀ l c, admissible l c key →
            redeem s l c key encode' jti' None now' st1 =
            match exec (redeem_tx s l (effective_code l c) key encode' jti') (W now') (prepared s now' (store_data st1)) with
            | (d', Ok a) => (mkStore d' false, Ok a) | (_, Err e) => (st1, Err e) end).
  { intros l c Ha. rewrite redeem_admissible by done. apply update_runs; [apply _|done|rewrite Hn1; exact Hwr|rewrite Hn1; apply Hns]. }
  split.
  - rewrite Hupd by done. rewrite (replay_runs _ _ _ _ _ _ _ _ rc) by done. rewrite !bool_decide_true by done. cbn [andb].
    unfold After. rewrite (proj2 (Z.ltb_lt _ _)) by exact Hnow. rewrite (live_intro _ _ _ _ r) by (done || lia). done.
  - intros l c Ha Hdiff. rewrite Hupd by done. rewrite (replay_runs _ _ _ _ _ _ _ _ rc) by done.
    cbn [rc new_receipt rcOperation rcRequestDigest rcCredentialDigest]. rewrite (bool_decide_true ("redeem" = "redeem")) by done.
    destruct Hdiff as [Hd|Hd]; [rewrite (bool_decide_false (requestDigest locator = _)) by congruence|
      rewrite (bool_decide_false (credentialDigest s _ = _)) by congruence; rewrite andb_false_r]; done.
Qed.

Context `{!JwtLaws} `{!UuidLaws}.

Lemma uuid_form_opaque code : uuid_form code → validOpaqueInvitationCode code = true.
Proof.
  intros Hf. destruct (uuid_form_counts code Hf) as [Hl Hh]. unfold validOpaqueInvitationCode, string_len.
  rewrite Hl, Hh, (uuid_standard code Hf). done.
Qed.

(** The ways to name a created grant. *)
Lemma created_admissible g locator code name :
  uuid_form (grJoinCode g) → Names.ParseStored tables (grGrammarName g) (grAlias g) = Ok name →
  grJoinCode g ≠ "" → grAlias g ≠ "" →
  locator = grAlias g ∧ code = grJoinCode g ∨ locator = grJoinCode g ∧ code = "" →
  admissible locator code "" ∧ effective_code locator code = grJoinCode g.
Proof.
  intros Hform Hn Hc Ha Hloc. pose proof (uuid_form_opaque _ Hform) as Hop.
  pose proof (proj1 (uuid_form_counts _ Hform)) as Hlen36.
  assert (Heff : effective_code locator code = grJoinCode g).
  { unfold effective_code. destruct Hloc as [[-> ->]|[-> ->]]; [by rewrite bool_decide_false|].
    by rewrite bool_decide_true, Hop. }
  split; [|done]. unfold admissible. rewrite Heff. unfold string_len. split; [done|].
  destruct Hloc as [[-> _]|[-> _]]; (split; [|split; [done|by left]]).
  - unfold Names.ParseStored, Names.Normalize in Hn.
    destruct (Z.gtb_spec (Z.of_nat (String.length (grAlias g))) Names.MaxNameBytes); [done|lia].
  - by rewrite Hlen36.
Qed.

(** A signed capability of a live Session authorizes what it names. *)
Lemma signed_authorizes s r id c ttl now jti t now' st :
  closed st = false → writes s (namespace (store_data st)) = true → live s now' (store_data st) id = Some r → seID r = id →
  cSessionID c = id → SignProfile (secret s) (seIssuer r) (seIncarnation r) c ttl now (Some jti) = Ok t → jti ≠ "" →
  encoded_len t <= 16384 → now <= now' < NumericDate (now + ttl) + 5 * Second →
  ∃ c', Authorize s id t None now' st = Ok c' ∧ cSessionID c' = id ∧ cRole c' = cRole c ∧
    (∀ b, AllowsBus c' b = AllowsBus c b) ∧ CanControl c' = CanControl c.
Proof.
  intros Hc Hw Hr Hid Hcid Hsign Hjti Hlen Hnow.
  destruct (signed_verifies _ _ _ _ _ _ _ _ now' Hsign Hjti Hlen Hnow) as (c' & Hv & Hcs & Hcr & _ & Hci & _ & Hcb & Hck).
  exists c'. split; [|split_and!; congruence]. unfold Authorize. apply view_ok; [apply _|done|done|]. unfold authorize_tx.
  rewrite exec_bind by apply _. rewrite exec_checkWriter, Hw. cbn [fst snd]. rewrite exec_bind by apply _.
  rewrite exec_active. cbn [fst snd tx_now]. rewrite Hr, Now_ok, exec_lift. unfold authorizeRecord. cbn [tx_now].
  rewrite Hv, Hcs, Hcid, Hid, Hci, bool_decide_true by done. cbn [negb]. by rewrite bool_decide_true by done.
Qed.

End Invitation.

(** ** Examples *)

#[local] Existing Instances Storage.small_records Token.clear_jwt Token.clear_jwt_laws.
(** Digests that keep the message, and a parser that looks at the shape. *)
#[local] Instance plain_digests : Digests := {|
  sha256 m := Z.of_nat ∘ Ascii.nat_of_ascii <$> Names.chars m;
  hmac_sha256 _ m := Z.of_nat ∘ Ascii.nat_of_ascii <$> Names.chars m |}.
#[local] Instance shape_uuid : Uuid := λ s, (String.length s =? 36)%nat && (count_hyphens s =? 4)%nat.
#[local] Instance shape_uuid_laws : UuidLaws.
Proof. intros s Hs. unfold uuid_parse, shape_uuid. by destruct (uuid_form_counts s Hs) as [-> ->]. Qed.

(** A vocabulary of two adjectives and two nouns: four names of two words. *)
Definition small_tables : Lexicon.lexicon :=
  Lexicon.mkLexicon ["quiet"; "gentle"; "river"; "stone"] [Lexicon.mkGroup Lexicon.nature "river stone"]
    [Lexicon.mkGroup Lexicon.nature "quiet gentle"] [] [] [] [] [] "" "" [].

Lemma small_tables_ok : Names.lex_ok small_tables.
Proof. apply Names.lex_check_ok. vm_compute. reflexivity. Qed.

Definition example_bytes : list Z := 2 :: seqZ 16 32.
Definition example_encode (x : ResolvedInvitation) : result error (list Z) := Ok (Z.of_nat ∘ Ascii.nat_of_ascii <$> Names.chars (rvBusID x)).

(** The Session of the access examples, observed with an active bus, gets an
    invitation, which is redeemed with a retry key, retried, and tried again
    without the key. *)
Definition ready_ops : list invite_op :=
  (IAccess <$> opened) ++ [IAccess (AApply service_a "s-1" (example_snapshot "epoch-1" 1 7) None (6 * Second))].
Definition example_code : string := "10111213-1415-4617-9819-1a1b1c1d1e1f".
Definition redeem_with (locator code key : string) (now : Z) : invite_op :=
  IRedeem service_a locator code key example_encode (Some "t-9") None now.
Definition invitation_ops : list invite_op :=
  ready_ops ++
  [IInvite service_a "s-1" "voice" "" 0 example_bytes None (7 * Second);
   redeem_with "gentle-river" example_code "retry-key-0123456789" (8 * Second);
   redeem_with "gentle-river" example_code "retry-key-0123456789" (9 * Second);
   redeem_with "gentle-river" example_code "" (10 * Second)].

Lemma invitation_store_bounded_witness :
  let d := store_data (run_ops small_tables invitation_ops).1 in
  wf d ∧ held (mkLimits 2 4000 4000) d ∧ size (receipts d) = 1%nat.
Proof.
  assert (Hin : Forall (within (mkLimits 2 4000 4000)) invitation_ops) by (repeat constructor; vm_compute; congruence).
  pose proof (invitation_store_bounded small_tables (mkLimits 2 4000 4000) invitation_ops ltac:(done) ltac:(done) ltac:(done) Hin) as [Hw Hh].
  split; [exact Hw|]. split; [exact Hh|]. vm_compute. reflexivity.
Defined.

Lemma invitations_redeemed_once_witness :
  consumed_codes (run_ops small_tables invitation_ops).2 = [example_code] ∧
  NoDup (consumed_codes (run_ops small_tables invitation_ops).2).
Proof.
  assert (Hi : issued_codes (run_ops small_tables invitation_ops).2 = [example_code]) by (vm_compute; reflexivity).
  split; [vm_compute; reflexivity|]. apply (invitations_redeemed_once small_tables invitation_ops).
  rewrite Hi. apply NoDup_singleton.
Defined.

(** The third call of the example answers from the receipt of the second. *)
Definition first_redeemed : list invite_op := take 6 invitation_ops.

Lemma replay_returns_first_response_witness :
  ∃ s' locator' code' key' resolved,
    Consumed s' locator' code' key' [118; 111; 105; 99; 101] resolved ∈ (run_ops small_tables first_redeemed).2.
Proof.
  destruct (replay_returns_first_response small_tables first_redeemed
              (redeem_with "gentle-river" example_code "retry-key-0123456789" (9 * Second))
              service_a "gentle-river" example_code "retry-key-0123456789" [118; 111; 105; 99; 101])
    as (s' & l' & c' & k' & x & Hin & _).
  - vm_compute. reflexivity.
  - exists s', l', c', k', x. exact Hin.
Defined.

(** The store with the observed Session. *)
Definition ready_store : Store := (run_ops small_tables ready_ops).1.
Lemma ready_wf : wf (store_data ready_store).
Proof. apply run_ops_wf. Qed.

Definition example_invitation : Invitation := mkInvitation 2 example_code "gentle-river" "public" (907 * Second).
Definition invited : Store * result error Invitation :=
  CreateInvitationWithOptionsContext small_tables service_a "s-1" "voice" "" 0 example_bytes None (7 * Second) ready_store.

Lemma invited_ok :
  CreateInvitationWithOptionsContext small_tables service_a "s-1" "voice" "" 0 example_bytes None (7 * Second) ready_store =
  (invited.1, Ok example_invitation).
Proof. vm_compute. reflexivity. Qed.

Lemma invited_wf : wf (store_data invited.1).
Proof.
  apply (create_invitation_wf small_tables service_a "s-1" "voice" "" 0 example_bytes None (7 * Second) ready_store
           invited.1 example_invitation).
  - exact ready_wf.
  - exact invited_ok.
Qed.

Lemma invitation_created_witness :
  ∃ g r, sessions (store_data ready_store) !! "s-1" = Some r ∧ grBusID g = "voice" ∧ named small_tables g.
Proof.
  destruct (invitation_created small_tables service_a "s-1" "voice" "" 0 example_bytes None (7 * Second) ready_store
              invited.1 example_invitation) as (g & r & Hr & _ & _ & _ & _ & Hb & Hn & _).
  - exact ready_wf.
  - exact small_tables_ok.
  - exact invited_ok.
  - exists g, r. split; [exact Hr|]. split; [exact Hb|exact Hn].
Defined.


Definition redeemed : Store * result error (list Z * option ResolvedInvitation) :=
  redeem small_tables service_a "gentle-river" example_code "retry-key-0123456789" example_encode (Some "t-9") None
    (8 * Second) invited.1.

Definition redeemed_invitation : ResolvedInvitation :=
  match redeemed.2 with Ok (_, Some x) => x | _ => mkResolved "" "" example_token end.

Lemma redeemed_ok :
  redeem small_tables service_a "gentle-river" example_code "retry-key-0123456789" example_encode (Some "t-9") None
    (8 * Second) invited.1 = (redeemed.1, Ok ([118; 111; 105; 99; 101], Some redeemed_invitation)).
Proof. vm_compute. reflexivity. Qed.

Lemma redeem_retry_witness :
  ∃ rc, receipts (store_data redeemed.1) !! receiptKey "retry-key-0123456789" = Some rc ∧
    rcExpiresAt rc <= 8 * Second + ReceiptTTL (config service_a).
Proof.
  destruct (redeem_retry small_tables service_a "gentle-river" example_code "retry-key-0123456789" example_encode (Some "t-9") None
              (8 * Second) invited.1 redeemed.1 [118; 111; 105; 99; 101] redeemed_invitation) as (rc & Hrc & Hexp & _).
  - exact invited_wf.
  - discriminate.
  - intros t. vm_compute. discriminate.
  - exact redeemed_ok.
  - exists rc. split; [exact Hrc|exact Hexp].
Defined.
End Invitation.
