(* ===== verification/Events.v ===== *)
(** * Session events

    Translates [access/event_bus.go] and [access/events.go]: the bus that keeps at
    most one pending state per consumer, and the table of buses of a service with
    the goroutines that poll the store for them.  A channel is a cell of the
    bus's store, so that a subscription and its reader share it; [taken] is the
    sequence its reader has received, and [since] the revision it started from. *)

From S2P Require Export Storage.

Module EventBus.

(** Go's panics, and the errors of the bus. *)
Inductive bus_error := ErrSSECapacity | ErrRandom.
Inductive panic := SendOnClosed | CloseOfClosed.

Record Event := mkEvent { Revision : Z; (* uint64 *) Payload : string }.

Record channel := mkChannel {
  buffer : option Event; ch_closed : bool; taken : list Event; since : Z }.

Record eventSubscription := mkSubscription { channel_ref : nat; revision : Z }.

Record EventBus := mkBus {
  subscribers : gmap string eventSubscription;
  channels : list channel;
  latest : Event;
  closed : bool;
  done : bool }.

Definition newEventBus : EventBus := mkBus ∅ [] (mkEvent 0 "") false false.

Definition set_channels (cs : list channel) (b : EventBus) : EventBus :=
  mkBus (subscribers b) cs (latest b) (closed b) (done b).
Definition set_subscribers (m : gmap string eventSubscription) (b : EventBus) : EventBus :=
  mkBus m (channels b) (latest b) (closed b) (done b).

(** [id] is what [randomSubscriptionID] draws, [None] when it fails. *)
Definition subscribeAfter (limit rev : Z) (id : option string) (b : EventBus)
  : EventBus * result bus_error (string * nat) :=
  if closed b || (Z.of_nat (size (subscribers b)) >=? limit) then (b, Err ErrSSECapacity)
  else match id with
       | None => (b, Err ErrRandom)
       | Some id =>
         let ref := length (channels b) in
         let sub := if Revision (latest b) >? rev
                    then (mkChannel (Some (latest b)) false [] rev, mkSubscription ref (Revision (latest b)))
                    else (mkChannel None false [] rev, mkSubscription ref rev) in
         (mkBus (<[id := sub.2]> (subscribers b)) (channels b ++ [sub.1]) (latest b) (closed b) (done b), Ok (id, ref))
       end.

Definition Subscribe (limit : Z) (id : option string) (b : EventBus) := subscribeAfter limit 0 id b.

(** [close(ch)] *)
Definition close_channel (c : channel) : result panic channel :=
  if ch_closed c then Err CloseOfClosed else Ok (mkChannel (buffer c) true (taken c) (since c)).

(** An update of the channel [ref]. *)
Definition with_channel (ref : nat) (f : channel → result panic channel) (b : EventBus) : result panic EventBus :=
  match channels b !! ref with
  | None => Ok b
  | Some c => match f c with Ok c' => Ok (set_channels (<[ref := c']> (channels b)) b) | Err e => Err e end
  end.

Definition Unsubscribe (id : string) (b : EventBus) : result panic EventBus :=
  match subscribers b !! id with
  | Some sub => with_channel (channel_ref sub) close_channel (set_subscribers (delete id (subscribers b)) b)
  | None => Ok b
  end.

Definition HasSubscriber (id : string) (b : EventBus) : bool := bool_decide (is_Some (subscribers b !! id)).
Definition subscriberCount (b : EventBus) : Z := Z.of_nat (size (subscribers b)).

(** Sending with the two selects of [Publish].  [took]: the reader receives the
    pending event after the first select found the channel full, before the
    second one drains it. *)
Definition deliver (event : Event) (took : bool) (c : channel) : result panic channel :=
  if ch_closed c then Err SendOnClosed
  else match buffer c with
       | None => Ok (mkChannel (Some event) false (taken c) (since c))
       | Some old => Ok (mkChannel (Some event) false (if took then taken c ++ [old] else taken c) (since c))
       end.

Definition publish_to (event : Event) (took : nat → bool) (entry : string * eventSubscription) (b : EventBus)
  : result panic EventBus :=
  let '(id, sub) := entry in
  if Revision event <=? revision sub then Ok b
  else with_channel (channel_ref sub) (deliver event (took (channel_ref sub)))
         (set_subscribers (<[id := mkSubscription (channel_ref sub) (Revision event)]> (subscribers b)) b).

Definition each (f : string * eventSubscription → EventBus → result panic EventBus)
    (entries : list (string * eventSubscription)) (b : EventBus) : result panic EventBus :=
  foldl (λ r entry, match r with Ok b => f entry b | Err e => Err e end) (Ok b) entries.

Definition Publish (event : Event) (took : nat → bool) (b : EventBus) : result panic EventBus :=
  if closed b || (Revision event <=? Revision (latest b)) then Ok b
  else
    each (publish_to event took) (map_to_list (subscribers b))
      (mkBus (subscribers b) (channels b) event (closed b) (done b)).

Definition close_sub (entry : string * eventSubscription) (b : EventBus) : result panic EventBus :=
  with_channel (channel_ref entry.2) close_channel (set_subscribers (delete entry.1 (subscribers b)) b).

Definition Close (b : EventBus) : result panic EventBus :=
  if closed b then Ok b
  else if done b then Err CloseOfClosed
  else each close_sub (map_to_list (subscribers b)) (mkBus (subscribers b) (channels b) (latest b) true true).

(** The reader's receive on its channel: the pending event, if any. *)
Definition receive (ref : nat) (b : EventBus) : EventBus * option Event :=
  match channels b !! ref with
  | Some (mkChannel (Some event) cl tk si) =>
    (set_channels (<[ref := mkChannel None cl (tk ++ [event]) si]> (channels b)) b, Some event)
  | _ => (b, None)
  end.

(** ** Executions *)

Inductive bus_op :=
| OSubscribe (limit rev : Z) (id : option string)
| OUnsubscribe (id : string)
| OPublish (event : Event) (took : nat → bool)
| OReceive (ref : nat)
| OClose.

Definition bus_apply (b : EventBus) (o : bus_op) : result panic EventBus :=
  match o with
  | OSubscribe limit rev id => Ok (subscribeAfter limit rev id b).1
  | OUnsubscribe id => Unsubscribe id b
  | OPublish event took => Publish event took b
  | OReceive ref => Ok (receive ref b).1
  | OClose => Close b
  end.

(** A drawn subscription identity is not one in use. *)
Definition fresh_id (b : EventBus) (o : bus_op) : Prop :=
  match o with OSubscribe _ _ (Some id) => subscribers b !! id = None | _ => True end.

Inductive reachable : EventBus → Prop :=
| reach_new : reachable newEventBus
| reach_step b o b' : reachable b → fresh_id b o → bus_apply b o = Ok b' → reachable b'.

(** ** What readers see *)

(** What a reader has received and what is pending for it. *)
Definition pending (o : option Event) : list Event := match o with Some e => [e] | None => [] end.
Definition seen (c : channel) : list Event := taken c ++ pending (buffer c).

(** Revisions increase strictly, from above [lo]. *)
Fixpoint ascending (lo : Z) (l : list Event) : Prop :=
  match l with
  | [] => True
  | e :: l' => lo < Revision e ∧ ascending (Revision e) l'
  end.
Definition top (lo : Z) (l : list Event) : Z := match last l with Some e => Revision e | None => lo end.

Lemma top_snoc lo l e : top lo (l ++ [e]) = Revision e.
Proof. unfold top. by rewrite last_snoc. Qed.

Lemma top_cons lo e l : top lo (e :: l) = top (Revision e) l.
Proof. unfold top. rewrite last_cons. by destruct (last l). Qed.

Lemma ascending_snoc lo l e : ascending lo (l ++ [e]) ↔ ascending lo l ∧ top lo l < Revision e.
Proof.
  revert lo. induction l as [|x l IH]; intros lo; cbn [app ascending]; [unfold top; cbn; tauto|].
  rewrite IH, top_cons. tauto.
Qed.

Lemma ascending_top lo l : ascending lo l → lo <= top lo l.
Proof.
  revert lo. induction l as [|x l IH]; intros lo; [unfold top; cbn; lia|]. cbn [ascending]. intros [Hx Hl].
  rewrite top_cons. apply IH in Hl. lia.
Qed.

(** A subscription has been sent everything newer than its starting state. *)
Definition caught_up (newest : Event) (sub : eventSubscription) (c : channel) : Prop :=
  revision sub = top (since c) (seen c) ∧
  (seen c = [] ∧ Revision newest <= since c ∨ last (seen c) = Some newest).

Lemma caught_up_latest newest sub c : caught_up newest sub c → Revision newest <= revision sub.
Proof. intros [-> [[-> Hle]|Hl]]; unfold top; [done|]. by rewrite Hl. Qed.

Lemma deliver_ok event took c c' newest sub :
  deliver event took c = Ok c' → ascending (since c) (seen c) → revision sub < Revision event → caught_up newest sub c →
  ascending (since c') (seen c') ∧ ch_closed c' = false ∧ caught_up event (mkSubscription (channel_ref sub) (Revision event)) c'.
Proof.
  unfold deliver. destruct (ch_closed c); [done|]. intros Hd Hasc Hlt [Hrev _]. unfold caught_up, seen in *. cbn [revision].
  destruct (buffer c) as [old|]; cbn [pending] in *.
  - injection Hd as <-. cbn [buffer taken since ch_closed pending]. rewrite ascending_snoc, top_snoc, last_snoc.
    pose proof (proj1 (ascending_snoc _ _ _) Hasc) as [Ha Ht]. rewrite top_snoc in Hrev.
    split_and!; try done; [|..|by right]; destruct took; rewrite ?top_snoc; try done; try lia.
  - injection Hd as <-. cbn [buffer taken since ch_closed pending]. rewrite app_nil_r in *.
    rewrite ascending_snoc, top_snoc, last_snoc. split_and!; try done; [lia|by right].
Qed.

(** ** The invariant *)

(** Parametrised by the newest event each subscription has been served. *)
Record served (newest : string → Event) (b : EventBus) : Prop := {
  sv_ref : ∀ id sub, subscribers b !! id = Some sub →
    ∃ c, channels b !! channel_ref sub = Some c ∧ ch_closed c = false ∧ caught_up (newest id) sub c;
  sv_inj : ∀ id id' sub sub', subscribers b !! id = Some sub → subscribers b !! id' = Some sub' →
    channel_ref sub = channel_ref sub' → id = id';
  sv_asc : ∀ ref c, channels b !! ref = Some c → ascending (since c) (seen c);
  sv_open : ∀ ref c, channels b !! ref = Some c → ch_closed c = false →
    ∃ id sub, subscribers b !! id = Some sub ∧ channel_ref sub = ref }.

Record bus_ok (b : EventBus) : Prop := {
  ok_served : served (λ _, latest b) b;
  ok_done : done b = closed b;
  ok_closed : closed b = true → subscribers b = ∅ }.

Lemma bus_ok_new : bus_ok newEventBus.
Proof. split; [split|done|done]; cbn; intros *; rewrite ?lookup_empty, ?lookup_nil; done. Qed.

Lemma subscribe_ok limit rev id b : bus_ok b → fresh_id b (OSubscribe limit rev id) → bus_ok (subscribeAfter limit rev id b).1.
Proof.
  intros Hb Hf. unfold subscribeAfter. destruct (closed b) eqn:Hcl; [exact Hb|].
  destruct (_ >=? _); [exact Hb|]. destruct id as [id|]; [|exact Hb]. cbn [orb fst]. cbn in Hf.
  destruct Hb as [[Href Hinj Hasc Hopen] Hd Hc].
  set (x := if Revision (latest b) >? rev then _ else _).
  assert (Hx : ch_closed x.1 = false ∧ channel_ref x.2 = length (channels b) ∧ ascending (since x.1) (seen x.1) ∧
            caught_up (latest b) x.2 x.1).
  { subst x. unfold caught_up, seen, top. destruct (Z.gtb_spec (Revision (latest b)) rev); cbn; split_and!; try done; try lia; auto. }
  destruct Hx as (X1 & X2 & X3 & X4). split; [|cbn; congruence|done].
  split; cbn [subscribers channels latest].
  - intros id' sub Hs. apply lookup_insert_Some in Hs as [[-> <-]|[Hne Hs]].
    + exists x.1. rewrite X2. split_and!; [by apply list_lookup_middle|done|done].
    + destruct (Href id' sub Hs) as (c & Hcc & ? & ?). exists c. split_and!; [by apply lookup_app_l_Some|done|done].
  - intros id1 id2 s1 s2 H1 H2 E. apply lookup_insert_Some in H1 as [[-> <-]|[Hn1 H1]];
      apply lookup_insert_Some in H2 as [[-> <-]|[Hn2 H2]]; [done| | |by eapply Hinj].
    + destruct (Href _ _ H2) as (c & Hcc & _). apply lookup_lt_Some in Hcc. lia.
    + destruct (Href _ _ H1) as (c & Hcc & _). apply lookup_lt_Some in Hcc. lia.
  - intros ref c Hcc. apply lookup_app_Some in Hcc as [Hcc|[_ Hcc]]; [by eapply Hasc|].
    apply list_lookup_singleton_Some in Hcc as [_ <-]. done.
  - intros ref c Hcc Ho. apply lookup_app_Some in Hcc as [Hcc|[Hl Hcc]].
    + destruct (Hopen ref c Hcc Ho) as (id' & sub & Hs & Hr). exists id', sub. split; [|done].
      rewrite lookup_insert_ne; [done|]. congruence.
    + apply list_lookup_singleton_Some in Hcc as [Hz <-]. exists id, x.2. rewrite lookup_insert_eq. split; [done|]. lia.
Qed.

(** The reader takes the pending event; what it has seen is the same. *)
Lemma receive_ok ref b : bus_ok b → bus_ok (receive ref b).1.
Proof.
  intros Hb. unfold receive. destruct (channels b !! ref) as [[[event|] cl tk si]|] eqn:Hc; [|exact Hb..].
  destruct Hb as [[Href Hinj Hasc Hopen] Hd Hcl]. set (c0 := mkChannel _ cl tk si) in *. set (c1 := mkChannel None cl _ si).
  assert (Hsame : seen c1 = seen c0) by (unfold seen; cbn; by rewrite app_nil_r).
  assert (Hlook : ∀ r c, <[ref := c1]> (channels b) !! r = Some c →
            ∃ c', channels b !! r = Some c' ∧ seen c = seen c' ∧ since c = since c' ∧ ch_closed c = ch_closed c').
  { intros r c Hr. apply list_lookup_insert_Some in Hr as [(-> & <- & _)|[_ Hr]]; [by exists c0|by exists c]. }
  split; [|done|done]. split; cbn [subscribers channels latest set_channels fst].
  - intros id sub Hs. destruct (Href id sub Hs) as (c & Hcc & Ho & Hup). destruct (decide (channel_ref sub = ref)) as [E|E].
    + rewrite E in *. assert (c = c0) as -> by congruence. exists c1. split_and!; [|done|].
      * apply list_lookup_insert_eq. by eapply lookup_lt_Some.
      * unfold caught_up in *. by rewrite Hsame.
    + exists c. by rewrite list_lookup_insert_ne.
  - exact Hinj.
  - intros r c Hr. destruct (Hlook r c Hr) as (c' & Hc' & -> & -> & _). by eapply Hasc.
  - intros r c Hr Ho. destruct (Hlook r c Hr) as (c' & Hc' & _ & _ & E). apply (Hopen r c'); [done|congruence].
Qed.

(** Ending one subscription closes its channel and nothing else. *)
Lemma close_sub_ok newest id sub b :
  served newest b → subscribers b !! id = Some sub →
  ∃ b', close_sub (id, sub) b = Ok b' ∧ served newest b' ∧ subscribers b' = delete id (subscribers b) ∧
    latest b' = latest b ∧ closed b' = closed b ∧ done b' = done b.
Proof.
  intros [Href Hinj Hasc Hopen] Hs. destruct (Href id sub Hs) as (c & Hc & Ho & Hup).
  unfold close_sub, with_channel. cbn [fst snd channels set_subscribers]. rewrite Hc. unfold close_channel. rewrite Ho.
  eexists. split; [done|]. set (c1 := mkChannel _ true _ _). cbn [subscribers latest closed done set_channels set_subscribers].
  split; [|done]. split; cbn [subscribers channels set_channels set_subscribers].
  - intros id' sub' [Hne Hs']%lookup_delete_Some. destruct (Href id' sub' Hs') as (c' & Hc' & ? & ?).
    exists c'. rewrite list_lookup_insert_ne; [done|]. intros E. apply Hne. by eapply Hinj.
  - intros i i' s s' [_ Hi]%lookup_delete_Some [_ Hi']%lookup_delete_Some. by apply Hinj.
  - intros r c' Hr. apply list_lookup_insert_Some in Hr as [(<- & <- & _)|[_ Hr]]; [|by eapply Hasc].
    exact (Hasc _ _ Hc).
  - intros r c' Hr Ho'. apply list_lookup_insert_Some in Hr as [(<- & <- & _)|[Hne Hr]]; [done|].
    destruct (Hopen r c' Hr Ho') as (id' & sub' & Hs' & E). exists id', sub'. split; [|done]. apply lookup_delete_Some. split; [|done].
    intros ->. congruence.
Qed.

Lemma unsubscribe_ok id b : bus_ok b → ∃ b', Unsubscribe id b = Ok b' ∧ bus_ok b'.
Proof.
  intros Hb. unfold Unsubscribe. destruct (subscribers b !! id) as [sub|] eqn:Hs; [|by exists b].
  destruct Hb as [Hsv Hd Hc]. destruct (close_sub_ok _ id sub b Hsv Hs) as (b' & Hb' & Hsv' & Hsub & Hl & Hcl & Hdn).
  exists b'. split; [exact Hb'|]. split; [by rewrite Hl|congruence|]. rewrite Hcl, Hsub. intros E. rewrite (Hc E). apply delete_empty.
Qed.

(** The loop of [Close]. *)
Lemma close_all_ok newest entries b :
  served newest b → subscribers b = list_to_map entries → NoDup entries.*1 →
  ∃ b', each close_sub entries b = Ok b' ∧ served newest b' ∧ subscribers b' = ∅ ∧
    latest b' = latest b ∧ closed b' = closed b ∧ done b' = done b.
Proof.
  revert b. induction entries as [|[id sub] entries IH]; intros b Hsv Hsub Hnd; [by exists b|].
  cbn in Hsub, Hnd. apply NoDup_cons in Hnd as [Hn Hnd].
  destruct (close_sub_ok newest id sub b Hsv) as (b1 & Hb1 & Hsv1 & Hsub1 & Hl1 & Hc1 & Hd1); [by rewrite Hsub, lookup_insert_eq|].
  unfold each. cbn [foldl]. rewrite Hb1. fold (each close_sub entries b1).
  destruct (IH b1 Hsv1) as (b' & Hb' & Hsv' & Hsub' & Hl & Hc & Hd); [|done|].
  - rewrite Hsub1, Hsub. apply delete_insert_id. by apply not_elem_of_list_to_map.
  - exists b'. split_and!; try done; congruence.
Qed.

Lemma close_ok b : bus_ok b → ∃ b', Close b = Ok b' ∧ bus_ok b' ∧ closed b' = true.
Proof.
  intros Hb. unfold Close. destruct (closed b) eqn:Hcl; [by exists b|]. destruct Hb as [[Href Hinj Hasc Hopen] Hd Hc].
  rewrite Hd, Hcl. destruct (close_all_ok (λ _, latest b) (map_to_list (subscribers b))
    (mkBus (subscribers b) (channels b) (latest b) true true)) as (b' & Hb' & Hsv & Hsub & Hl & Hcl' & Hdn).
  - by split.
  - cbn. by rewrite list_to_map_to_list.
  - apply NoDup_fst_map_to_list.
  - exists b'. split_and!; [exact Hb'| |by rewrite Hcl']. split; [by rewrite Hl|by rewrite Hcl', Hdn|done].
Qed.

(** One subscription served by [Publish]. *)
Lemma publish_to_ok newest event took id sub b :
  served newest b → subscribers b !! id = Some sub → Revision (newest id) < Revision event →
  ∃ b', publish_to event took (id, sub) b = Ok b' ∧ served (λ i, if decide (i = id) then event else newest i) b' ∧
    (∀ i, i ≠ id → subscribers b' !! i = subscribers b !! i) ∧
    size (subscribers b') = size (subscribers b) ∧
    latest b' = latest b ∧ closed b' = closed b ∧ done b' = done b.
Proof.
  intros [Href Hinj Hasc Hopen] Hs Hnew. destruct (Href id sub Hs) as (c & Hc & Ho & Hup). unfold publish_to.
  destruct (Z.leb_spec (Revision event) (revision sub)) as [Hle|Hlt].
  { exists b. split; [done|]. split; [|done]. split; [|done..]. intros i s Hi. case_decide as E; [|by apply Href].
    subst i. assert (s = sub) as -> by congruence. exists c. split_and!; try done. destruct Hup as [Hrev [[Hn Hl]|Hl]].
    - split; [done|]. left. split; [done|]. rewrite Hn in Hrev. unfold top in Hrev. cbn in Hrev. lia.
    - unfold top in Hrev. rewrite Hl in Hrev. lia. }
  unfold with_channel. cbn [channels set_subscribers]. rewrite Hc.
  destruct (deliver event (took (channel_ref sub)) c) as [c1|] eqn:Hdl; [|unfold deliver in Hdl; rewrite Ho in Hdl; by destruct (buffer c)].
  destruct (deliver_ok _ _ _ _ _ _ Hdl (Hasc _ _ Hc) Hlt Hup) as (Ha1 & Ho1 & Hup1).
  eexists. split; [done|]. set (sub1 := mkSubscription (channel_ref sub) (Revision event)) in *.
  cbn [subscribers latest closed done set_channels set_subscribers].
  split; [|split_and!; try done; [by intros i Hi; rewrite lookup_insert_ne|by rewrite map_size_insert_Some by eauto]].
  assert (Hlook : ∀ i s, <[id := sub1]> (subscribers b) !! i = Some s →
            ∃ s0, subscribers b !! i = Some s0 ∧ channel_ref s = channel_ref s0).
  { intros i s Hi. apply lookup_insert_Some in Hi as [[<- <-]|[_ Hi]]; eauto. }
  split; cbn [subscribers channels set_channels set_subscribers].
  - intros i s Hi. destruct (decide (i = id)) as [->|Hne].
    + rewrite lookup_insert_eq in Hi. injection Hi as <-. exists c1. split_and!; [|done|done].
      apply list_lookup_insert_eq. by eapply lookup_lt_Some.
    + rewrite lookup_insert_ne in Hi by done. destruct (Href i s Hi) as (c' & Hc' & ? & ?). exists c'.
      rewrite list_lookup_insert_ne; [done|]. intros E. apply Hne. by eapply Hinj.
  - intros i i' s s' Hi Hi' E. destruct (Hlook i s Hi) as (s0 & ? & E0). destruct (Hlook i' s' Hi') as (s0' & ? & E0').
    eapply Hinj; [done|done|congruence].
  - intros r c' Hr. apply list_lookup_insert_Some in Hr as [(<- & <- & _)|[_ Hr]]; [done|by eapply Hasc].
  - intros r c' Hr Ho'. destruct (decide (r = channel_ref sub)) as [->|Hne].
    + exists id, sub1. by rewrite lookup_insert_eq.
    + rewrite list_lookup_insert_ne in Hr by done. destruct (Hopen r c' Hr Ho') as (i & s & Hi & E).
      exists i, s. split; [|done]. rewrite lookup_insert_ne; [done|]. intros ->. congruence.
Qed.

(** The loop of [Publish]: [entries] are the subscriptions still to serve. *)
Lemma publish_all_ok newest event took entries b :
  served newest b → (∀ id sub, (id, sub) ∈ entries → subscribers b !! id = Some sub) → NoDup entries.*1 →
  (∀ id, Revision (newest id) < Revision event ∨ newest id = event) →
  (∀ id, id ∈ entries.*1 → Revision (newest id) < Revision event) →
  (∀ id, is_Some (subscribers b !! id) → id ∈ entries.*1 ∨ newest id = event) →
  ∃ b', each (publish_to event took) entries b = Ok b' ∧ served (λ _, event) b' ∧
    size (subscribers b') = size (subscribers b) ∧ latest b' = latest b ∧ closed b' = closed b ∧ done b' = done b.
Proof.
  revert b newest. induction entries as [|[id sub] entries IH]; intros b newest Hsv Hin Hnd Hor Hlt Hall.
  { exists b. split; [done|]. split; [|done]. destruct Hsv as [Href Hinj Hasc Hopen]. split; [|done..].
    intros i s Hi. destruct (Hall i ltac:(eauto)) as [E|E]; [by apply not_elem_of_nil in E|]. rewrite <- E. by apply Href. }
  cbn in Hnd. apply NoDup_cons in Hnd as [Hn Hnd].
  destruct (publish_to_ok newest event took id sub b Hsv) as (b1 & Hb1 & Hsv1 & Hsub1 & Hz1 & Hl1 & Hc1 & Hd1);
    [apply Hin; left|apply Hlt; left|]. unfold each. cbn [foldl]. rewrite Hb1. fold (each (publish_to event took) entries b1).
  destruct (IH b1 _ Hsv1) as (b' & Hb' & Hsv' & Hz & Hl & Hc & Hd); [|done|..].
  - intros i s Hi. rewrite Hsub1; [apply Hin; by right|]. intros ->. apply Hn. apply (list_elem_of_fmap_2 fst _ _ Hi).
  - intros i. case_decide; [by right|apply Hor].
  - intros i Hi. rewrite decide_False; [apply Hlt; by right|]. by intros ->.
  - intros i Hi. case_decide as E; [by right|]. rewrite Hsub1 in Hi by done. destruct (Hall i Hi) as [[->|?]%elem_of_cons|?]; auto. done.
  - exists b'. split_and!; try done; congruence.
Qed.

Lemma publish_ok event took b :
  bus_ok b → ∃ b', Publish event took b = Ok b' ∧ bus_ok b' ∧
    latest b' = (if closed b || (Revision event <=? Revision (latest b)) then latest b else event).
Proof.
  intros Hb. unfold Publish. destruct (closed b) eqn:Hcl; [by exists b|]. cbn [orb].
  destruct (Z.leb_spec (Revision event) (Revision (latest b))) as [Hle|Hlt]; [by exists b|]. destruct Hb as [[Href Hinj Hasc Hopen] Hd Hc].
  destruct (publish_all_ok (λ _, latest b) event took (map_to_list (subscribers b))
    (mkBus (subscribers b) (channels b) event false (done b))) as (b' & Hb' & Hsv & Hz & Hl & Hcl' & Hdn); cbn [subscribers].
  - by split.
  - intros id sub. by rewrite elem_of_map_to_list.
  - apply NoDup_fst_map_to_list.
  - auto.
  - done.
  - intros id [sub Hs]. left. apply (list_elem_of_fmap_2 fst _ (id, sub)). by apply elem_of_map_to_list.
  - exists b'. split_and!; [exact Hb'| |exact Hl]. cbn in *. split; [by rewrite Hl|congruence|]. by rewrite Hcl'.
Qed.

Lemma bus_apply_ok b o : bus_ok b → fresh_id b o → ∃ b', bus_apply b o = Ok b' ∧ bus_ok b'.
Proof.
  intros Hb Hf. destruct o as [limit rev id|id|event took|ref|]; cbn [bus_apply].
  - eexists. split; [done|]. by apply subscribe_ok.
  - by apply unsubscribe_ok.
  - destruct (publish_ok event took b Hb) as (b' & ? & ? & _). eauto.
  - eexists. split; [done|]. by apply receive_ok.
  - destruct (close_ok b Hb) as (b' & ? & ? & _). eauto.
Qed.

Lemma reachable_ok b : reachable b → bus_ok b.
Proof.
  induction 1 as [|b o b' _ IH Hf Ha]; [exact bus_ok_new|].
  destruct (bus_apply_ok b o IH Hf) as (b1 & Hb1 & Hok). congruence.
Qed.

(** Only [Close] closes the bus. *)
Lemma with_channel_closed ref f b b' : with_channel ref f b = Ok b' → closed b' = closed b.
Proof. unfold with_channel. repeat case_match; intros; simplify_eq; done. Qed.

Lemma apply_closed b o b' : o ≠ OClose → bus_apply b o = Ok b' → closed b' = closed b.
Proof.
  intros Ho. destruct o as [limit rev id|id|event took|ref|]; cbn [bus_apply]; [..|done].
  - intros [= <-]. unfold subscribeAfter. repeat case_match; simplify_eq; done.
  - unfold Unsubscribe. destruct (subscribers b !! id); [|by intros [= <-]]. intros E. by apply with_channel_closed in E.
  - unfold Publish. destruct (_ || _); [by intros [= <-]|].
    assert (Heach : ∀ entries b0 b1, each (publish_to event took) entries b0 = Ok b1 → closed b1 = closed b0).
    { induction entries as [|[id sub] entries IH]; intros b0 b1; unfold each; cbn [foldl]; [by intros [= <-]|].
      destruct (publish_to event took (id, sub) b0) as [b2|] eqn:E.
      - intros Hf. rewrite (IH b2 b1 Hf). unfold publish_to in E. case_if; [by injection E as <-|]. by apply with_channel_closed in E.
      - intros Hf. exfalso. clear -Hf. by induction entries. }
    intros Hp. apply Heach in Hp. exact Hp.
  - intros [= <-]. unfold receive. by repeat case_match.
Qed.

(** C33: Readers of a Session's events never see an old state after a newer one, and
    never miss the newest.  On every channel the revisions received and pending
    increase strictly from the snapshot the reader started with; while the
    subscription lasts, a reader that has emptied its channel holds the newest
    state published, unless its snapshot was already as new; and when the bus
    closes, every channel is closed. *)
Theorem event_delivery b ref c :
  reachable b → channels b !! ref = Some c →
  ascending (since c) (seen c) ∧
  (ch_closed c = false →
     seen c = [] ∧ Revision (latest b) <= since c ∨ last (seen c) = Some (latest b)) ∧
  (buffer c = None → ch_closed c = false → Revision (latest b) <= top (since c) (taken c)) ∧
  (closed b = true → ch_closed c = true).
Proof.
  intros [[Href Hinj Hasc Hopen] Hd Hcl]%reachable_ok Hc.
  assert (Hup : ch_closed c = false → ∃ sub, caught_up (latest b) sub c).
  { intros Ho. destruct (Hopen ref c Hc Ho) as (id & sub & Hs & Hr). destruct (Href id sub Hs) as (c' & Hc' & _ & ?).
    exists sub. assert (c' = c) as -> by congruence. done. }
  split_and!; [by eapply Hasc| | |].
  - intros Ho. destruct (Hup Ho) as (sub & _ & Hcu). exact Hcu.
  - intros Hb Ho. destruct (Hup Ho) as (sub & Hcu). pose proof (caught_up_latest _ _ _ Hcu) as Hle. destruct Hcu as [Hrev _].
    unfold seen in Hrev. rewrite Hb in Hrev. cbn in Hrev. rewrite app_nil_r in Hrev. lia.
  - intros Hclosed. destruct (ch_closed c) eqn:Ho; [done|]. destruct (Hopen ref c Hc Ho) as (id & sub & Hs & _).
    rewrite (Hcl Hclosed), lookup_empty in Hs. done.
Qed.

(** No operation of the bus sends on a closed channel, closes a channel twice or
    blocks while it holds the lock, whatever its readers do meanwhile. *)
Theorem event_bus_never_panics b o : reachable b → fresh_id b o → ∃ b', bus_apply b o = Ok b' ∧ reachable b'.
Proof.
  intros Hr Hf. destruct (bus_apply_ok b o (reachable_ok b Hr) Hf) as (b' & Ha & _). exists b'. split; [done|]. by eapply reach_step.
Qed.

(** *** Examples *)

#[export] Instance fresh_id_dec b o : Decision (fresh_id b o).
Proof. destruct o as [? ? [?|]|?|? ?|?|]; cbn; apply _. Defined.

Fixpoint run_bus (ops : list bus_op) (b : EventBus) : option EventBus :=
  match ops with
  | [] => Some b
  | o :: ops' =>
    if decide (fresh_id b o) then match bus_apply b o with Ok b' => run_bus ops' b' | Err _ => None end else None
  end.

Lemma run_bus_reachable ops b b' : reachable b → run_bus ops b = Some b' → reachable b'.
Proof.
  revert b. induction ops as [|o ops IH]; intros b Hb; cbn; [by intros [= <-]|]. case_decide; [|done].
  destruct (bus_apply b o) as [b1|] eqn:E; [|done]. apply IH. by eapply reach_step.
Qed.

(** Two readers; the first takes revision 2 while 3 is being published, the
    second, with a snapshot of revision 2, sleeps through 3 and gets 4. *)
Definition example_ops : list bus_op :=
  [OSubscribe 2 1 (Some "a"); OPublish (mkEvent 2 "two") (λ _, false); OSubscribe 2 2 (Some "b");
   OPublish (mkEvent 3 "three") (λ ref, (ref =? 0)%nat); OPublish (mkEvent 4 "four") (λ _, false); OReceive 1].
Definition example_bus : EventBus := default newEventBus (run_bus example_ops newEventBus).

Lemma example_bus_reachable : reachable example_bus.
Proof. apply (run_bus_reachable example_ops newEventBus); [constructor|vm_compute; reflexivity]. Qed.

Lemma event_delivery_witness :
  ∃ c, channels example_bus !! 0%nat = Some c ∧ map Revision (seen c) = [2; 4] ∧ ascending (since c) (seen c).
Proof.
  eexists. split; [vm_compute; reflexivity|]. split; [vm_compute; reflexivity|].
  refine (proj1 (event_delivery example_bus 0%nat _ example_bus_reachable _)). vm_compute. reflexivity.
Defined.

Lemma event_bus_never_panics_witness : ∃ b', bus_apply example_bus OClose = Ok b' ∧ reachable b'.
Proof. apply (event_bus_never_panics example_bus OClose); [exact example_bus_reachable|exact I]. Defined.
End EventBus.

(** ** The buses of a service *)
Module Events.
Import EventBus.

(** Where a polling goroutine is: before the locked check, before the query of
    the store, in the final select, or gone. *)
Inductive poll_state := PCheck | PQuery | PWait | PExit.
Record poller := mkPoller { poll_id : string; poll_bus : nat; poll_pc : poll_state }.

#[export] Instance poll_state_eq_dec : EqDecision poll_state.
Proof. solve_decision. Defined.

(** [sessionBuses] refers to the buses created so far by their position. *)
Record table := mkTable {
  sessionBuses : gmap string nat;
  buses : list EventBus;
  pollers : list poller }.

Definition set_bus (k : nat) (b : EventBus) (t : table) : table :=
  mkTable (sessionBuses t) (<[k := b]> (buses t)) (pollers t).
Definition set_pc (i : nat) (p : poller) (pc : poll_state) (t : table) : table :=
  mkTable (sessionBuses t) (buses t) (<[i := mkPoller (poll_id p) (poll_bus p) pc]> (pollers t)).
Definition forget (id : string) (t : table) : table := mkTable (delete id (sessionBuses t)) (buses t) (pollers t).

(** An operation on the bus [k]. *)
Definition on_bus (k : nat) (o : bus_op) (t : table) : result panic table :=
  match buses t !! k with
  | None => Ok t
  | Some b => match bus_apply b o with Ok b' => Ok (set_bus k b' t) | Err e => Err e end
  end.

(** The locked section of [SubscribeEventsContext], after the Session was read
    with state revision [rev]; a created bus gets a poller if it is kept. *)
Definition SubscribeEvents (limit : Z) (id : string) (rev : Z) (subID : option string) (t : table) : result panic table :=
  match sessionBuses t !! id with
  | Some k => on_bus k (OSubscribe limit rev subID) t
  | None =>
    let k := length (buses t) in
    match subscribeAfter limit rev subID newEventBus with
    | (b, Ok _) => Ok (mkTable (<[id := k]> (sessionBuses t)) (buses t ++ [b]) (pollers t ++ [mkPoller id k PCheck]))
    | (b, Err _) =>
      match Close b with
      | Ok b' => Ok (mkTable (sessionBuses t) (buses t ++ [b']) (pollers t))
      | Err e => Err e
      end
    end
  end.

Definition bind_table (r : result panic table) (f : table → result panic table) : result panic table :=
  match r with Ok t => f t | Err e => Err e end.

Definition closeEventBus (id : string) (k : nat) (t : table) : result panic table :=
  if bool_decide (sessionBuses t !! id = Some k) then on_bus k OClose (forget id t) else Ok t.

Definition closeLocalEventBus (id : string) (t : table) : result panic table :=
  match sessionBuses t !! id with
  | Some k => on_bus k OClose (forget id t)
  | None => Ok t
  end.

(** The deferred cleanup of [StartMaintenance]. *)
Definition closeAll (t : table) : result panic table :=
  foldl (λ r entry, bind_table r (λ t, bind_table (on_bus entry.2 OClose t) (λ t, Ok (forget entry.1 t))))
    (Ok t) (map_to_list (sessionBuses t)).

(** One step of the goroutine [i]: [answer] is the outcome of its query, [stop]
    whether its select takes the closed [done]. *)
Definition pollEvents (i : nat) (answer : option Event) (took : nat → bool) (stop : bool) (t : table) : result panic table :=
  match pollers t !! i with
  | None => Ok t
  | Some p =>
    let id := poll_id p in
    let k := poll_bus p in
    match poll_pc p with
    | PCheck =>
      if negb (bool_decide (sessionBuses t !! id = Some k)) then Ok (set_pc i p PExit t)
      else match buses t !! k with
           | None => Ok t
           | Some b =>
             if subscriberCount b =? 0
             then bind_table (on_bus k OClose (forget id t)) (λ t, Ok (set_pc i p PExit t))
             else Ok (set_pc i p PQuery t)
           end
    | PQuery =>
      match answer with
      | None => bind_table (closeEventBus id k t) (λ t, Ok (set_pc i p PExit t))
      | Some event => bind_table (on_bus k (OPublish event took) t) (λ t, Ok (set_pc i p PWait t))
      end
    | PWait =>
      match buses t !! k with
      | None => Ok t
      | Some b => Ok (set_pc i p (if done b && stop then PExit else PCheck) t)
      end
    | PExit => Ok t
    end
  end.

Inductive table_op :=
| TSubscribe (limit : Z) (id : string) (rev : Z) (subID : option string)
| TUnsubscribe (k : nat) (subID : string)
| TReceive (k ref : nat)
| TPoll (i : nat) (answer : option Event) (took : nat → bool) (stop : bool)
| TCloseLocal (id : string)
| TShutdown.

Definition table_apply (t : table) (o : table_op) : result panic table :=
  match o with
  | TSubscribe limit id rev subID => SubscribeEvents limit id rev subID t
  | TUnsubscribe k subID => on_bus k (OUnsubscribe subID) t
  | TReceive k ref => on_bus k (OReceive ref) t
  | TPoll i answer took stop => pollEvents i answer took stop t
  | TCloseLocal id => closeLocalEventBus id t
  | TShutdown => closeAll t
  end.

Definition fresh_sub (t : table) (o : table_op) : Prop :=
  match o with
  | TSubscribe limit id rev (Some subID) =>
    ∀ k b, sessionBuses t !! id = Some k → buses t !! k = Some b → subscribers b !! subID = None
  | _ => True
  end.

Inductive table_reachable : table → Prop :=
| table_new : table_reachable (mkTable ∅ [] [])
| table_step t o t' : table_reachable t → fresh_sub t o → table_apply t o = Ok t' → table_reachable t'.
(** *** The invariant *)

Record table_ok (t : table) : Prop := {
  to_bus : ∀ k b, buses t !! k = Some b → bus_ok b;
  to_mapped : ∀ id k, sessionBuses t !! id = Some k → ∃ b, buses t !! k = Some b ∧ closed b = false;
  to_polled : ∀ id k, sessionBuses t !! id = Some k →
    ∃ i p, pollers t !! i = Some p ∧ poll_bus p = k ∧ poll_pc p ≠ PExit;
  to_inj : ∀ id id' k, sessionBuses t !! id = Some k → sessionBuses t !! id' = Some k → id = id';
  to_open : ∀ k b, buses t !! k = Some b → closed b = false → ∃ id, sessionBuses t !! id = Some k;
  to_one : ∀ i j p q, pollers t !! i = Some p → pollers t !! j = Some q → poll_bus p = poll_bus q → i = j;
  to_owner : ∀ i p id, pollers t !! i = Some p → sessionBuses t !! id = Some (poll_bus p) → id = poll_id p;
  to_ref : ∀ i p, pollers t !! i = Some p → (poll_bus p < length (buses t))%nat }.

Lemma on_bus_ok k o t :
  table_ok t → o ≠ OClose → (∀ b, buses t !! k = Some b → fresh_id b o) → ∃ t', on_bus k o t = Ok t' ∧ table_ok t'.
Proof.
  intros [Hb Hm Hp Hi Ho H1 Hw Hr] Hne Hf. unfold on_bus. destruct (buses t !! k) as [b|] eqn:Hk; [|by exists t].
  destruct (bus_apply_ok b o (Hb k b Hk) (Hf b eq_refl)) as (b' & Ha & Hok). rewrite Ha. eexists. split; [done|].
  pose proof (apply_closed b o b' Hne Ha) as Hcl. split; cbn [set_bus buses sessionBuses pollers]; try done.
  - intros k' b1 Hk'. apply list_lookup_insert_Some in Hk' as [(_ & <- & _)|[_ Hk']]; [done|by eapply Hb].
  - intros id k' Hid. destruct (Hm id k' Hid) as (b1 & Hb1 & Hc1). destruct (decide (k = k')) as [->|Hk'].
    + exists b'. split; [apply list_lookup_insert_eq; by eapply lookup_lt_Some|congruence].
    + exists b1. by rewrite list_lookup_insert_ne.
  - intros k' b1 Hk' Hc1. apply list_lookup_insert_Some in Hk' as [(<- & <- & _)|[_ Hk']]; [apply (Ho k b Hk); congruence|by eapply Ho].
  - intros i p Hip. rewrite length_insert. by eapply Hr.
Qed.

(** Removing a Session's bus and closing it. *)
Lemma remove_bus_ok id k t :
  table_ok t → sessionBuses t !! id = Some k →
  ∃ t', on_bus k OClose (forget id t) = Ok t' ∧ table_ok t' ∧ sessionBuses t' = delete id (sessionBuses t) ∧
    pollers t' = pollers t.
Proof.
  intros [Hb Hm Hp Hi Ho H1 Hw Hr] Hid. destruct (Hm id k Hid) as (b & Hk & Hc). unfold on_bus. cbn [forget buses]. rewrite Hk.
  destruct (close_ok b (Hb k b Hk)) as (b' & Ha & Hok & Hcl). cbn [bus_apply]. rewrite Ha. eexists. split; [done|].
  cbn [set_bus forget sessionBuses pollers]. split; [|done].
  split; cbn [set_bus forget buses sessionBuses pollers].
  - intros k' b1 Hk'. apply list_lookup_insert_Some in Hk' as [(_ & <- & _)|[_ Hk']]; [done|by eapply Hb].
  - intros id' k' [Hne Hid']%lookup_delete_Some. destruct (Hm id' k' Hid') as (b1 & ? & ?). exists b1.
    rewrite list_lookup_insert_ne; [done|]. intros <-. apply Hne. by eapply Hi.
  - intros id' k' [_ Hid']%lookup_delete_Some. by eapply Hp.
  - intros i j k' [_ ?]%lookup_delete_Some [_ ?]%lookup_delete_Some. by eapply Hi.
  - intros k' b1 Hk' Hc1. apply list_lookup_insert_Some in Hk' as [(<- & <- & _)|[Hne Hk']]; [congruence|].
    destruct (Ho k' b1 Hk' Hc1) as [id' Hid']. exists id'. apply lookup_delete_Some. split; [|done]. intros <-. congruence.
  - done.
  - intros i p id' Hip [_ Hid']%lookup_delete_Some. by eapply Hw.
  - intros i p Hip. rewrite length_insert. by eapply Hr.
Qed.

(** A goroutine moves on; it may end only when its bus is no longer listed. *)
Lemma set_pc_ok i p pc t :
  table_ok t → pollers t !! i = Some p → (pc = PExit → ∀ id, sessionBuses t !! id ≠ Some (poll_bus p)) →
  table_ok (set_pc i p pc t).
Proof.
  intros [Hb Hm Hp Hi Ho H1 Hw Hr] Hip Hpc. set (p' := mkPoller (poll_id p) (poll_bus p) pc).
  assert (Hlook : ∀ j q, <[i := p']> (pollers t) !! j = Some q →
            ∃ q0, pollers t !! j = Some q0 ∧ poll_bus q = poll_bus q0 ∧ poll_id q = poll_id q0).
  { intros j q Hj. apply list_lookup_insert_Some in Hj as [(<- & <- & _)|[_ Hj]]; [by exists p|by exists q]. }
  split; cbn [set_pc buses sessionBuses pollers]; try done.
  - intros id k Hid. destruct (Hp id k Hid) as (j & q & Hj & Hk & Hq). destruct (decide (i = j)) as [->|Hne].
    + exists j, p'. assert (q = p) as -> by congruence. split_and!; [apply list_lookup_insert_eq; by eapply lookup_lt_Some|done|].
      intros E. apply (Hpc E id). congruence.
    + exists j, q. by rewrite list_lookup_insert_ne.
  - intros j j' q q' Hj Hj' E. destruct (Hlook j q Hj) as (q0 & ? & ? & _). destruct (Hlook j' q' Hj') as (q1 & ? & ? & _).
    eapply H1; [done|done|congruence].
  - intros j q id Hj Hid. destruct (Hlook j q Hj) as (q0 & Hq0 & E & ->). eapply Hw; [done|congruence].
  - intros j q Hj. destruct (Hlook j q Hj) as (q0 & Hq0 & -> & _). by eapply Hr.
Qed.

Lemma subscribe_new_ok limit rev subID :
  bus_ok (subscribeAfter limit rev subID newEventBus).1 ∧ closed (subscribeAfter limit rev subID newEventBus).1 = false.
Proof.
  split; [|unfold subscribeAfter; by repeat case_match]. apply subscribe_ok; [exact bus_ok_new|].
  destruct subID; [apply lookup_empty|done].
Qed.

(** A table with one more bus. *)
Lemma add_bus_ok b t :
  table_ok t → bus_ok b → closed b = true → table_ok (mkTable (sessionBuses t) (buses t ++ [b]) (pollers t)).
Proof.
  intros [Hb Hm Hp Hi Ho H1 Hw Hr] Hok Hc. split; cbn [buses sessionBuses pollers]; try done.
  - intros k b1 Hk. apply lookup_app_Some in Hk as [Hk|[_ Hk]]; [by eapply Hb|].
    apply list_lookup_singleton_Some in Hk as [_ <-]. done.
  - intros id k Hid. destruct (Hm id k Hid) as (b1 & ? & ?). exists b1. split; [by apply lookup_app_l_Some|done].
  - intros k b1 Hk Hc1. apply lookup_app_Some in Hk as [Hk|[_ Hk]]; [by eapply Ho|].
    apply list_lookup_singleton_Some in Hk as [_ <-]. congruence.
  - intros i p Hip. apply Hr in Hip. rewrite length_app. lia.
Qed.

Lemma list_bus_ok id b t :
  table_ok t → sessionBuses t !! id = None → bus_ok b → closed b = false →
  table_ok (mkTable (<[id := length (buses t)]> (sessionBuses t)) (buses t ++ [b])
              (pollers t ++ [mkPoller id (length (buses t)) PCheck])).
Proof.
  intros [Hb Hm Hp Hi Ho H1 Hw Hr] Hid Hok Hc.
  assert (Hlt : ∀ id' k, sessionBuses t !! id' = Some k → (k < length (buses t))%nat).
  { intros id' k Hk. destruct (Hm id' k Hk) as (b1 & Hk1 & _). by eapply lookup_lt_Some. }
  assert (Hpl : ∀ i p, (pollers t ++ [mkPoller id (length (buses t)) PCheck]) !! i = Some p →
            pollers t !! i = Some p ∨ i = length (pollers t) ∧ p = mkPoller id (length (buses t)) PCheck).
  { intros i p Hip. apply lookup_app_Some in Hip as [Hip|[Hl Hip]]; [by left|].
    apply list_lookup_singleton_Some in Hip as [Hz <-]. right. split; [lia|done]. }
  split; cbn [buses sessionBuses pollers].
  - intros k b1 Hk. apply lookup_app_Some in Hk as [Hk|[_ Hk]]; [by eapply Hb|].
    apply list_lookup_singleton_Some in Hk as [_ <-]. done.
  - intros id' k [[<- <-]|[_ Hk]]%lookup_insert_Some; [exists b; split; [by apply list_lookup_middle|done]|].
    destruct (Hm id' k Hk) as (b1 & ? & ?). exists b1. split; [by apply lookup_app_l_Some|done].
  - intros id' k [[<- <-]|[_ Hk]]%lookup_insert_Some.
    + exists (length (pollers t)), (mkPoller id (length (buses t)) PCheck). split_and!; [by apply list_lookup_middle|done|done].
    + destruct (Hp id' k Hk) as (i & p & ? & ? & ?). exists i, p. split; [by apply lookup_app_l_Some|done].
  - intros i j k [[<- <-]|[_ Hk]]%lookup_insert_Some [[<- E]|[_ Hk']]%lookup_insert_Some; try done.
    + apply Hlt in Hk'. lia.
    + subst k. apply Hlt in Hk. lia.
    + by eapply Hi.
  - intros k b1 Hk Hc1. apply lookup_app_Some in Hk as [Hk|[Hl Hk]].
    + destruct (Ho k b1 Hk Hc1) as [id' Hid']. exists id'. rewrite lookup_insert_ne; [done|]. congruence.
    + apply list_lookup_singleton_Some in Hk as [Hz _]. exists id. rewrite lookup_insert_eq. f_equal. lia.
  - intros i j p q [Hi1|[-> ->]]%Hpl [Hj|[-> ->]]%Hpl E; cbn in E; [by eapply H1| | |done].
    + apply Hr in Hi1. lia.
    + apply Hr in Hj. lia.
  - intros i p id' [Hi1|[-> ->]]%Hpl [[<- E]|[_ Hk]]%lookup_insert_Some; cbn in *; [|by eapply Hw|done|].
    + apply Hr in Hi1. lia.
    + apply Hlt in Hk. lia.
  - intros i p [Hi1|[-> ->]]%Hpl; rewrite length_app; cbn; [apply Hr in Hi1|]; lia.
Qed.

Lemma subscribe_events_ok limit id rev subID t :
  table_ok t → fresh_sub t (TSubscribe limit id rev subID) →
  ∃ t', SubscribeEvents limit id rev subID t = Ok t' ∧ table_ok t'.
Proof.
  intros Ht Hf. unfold SubscribeEvents. destruct (sessionBuses t !! id) as [k|] eqn:Hid.
  - apply on_bus_ok; [done|done|]. intros b Hb. destruct subID; [|done]. cbn in Hf. by eapply Hf.
  - destruct (subscribe_new_ok limit rev subID) as [Hok Hc].
    destruct (subscribeAfter limit rev subID newEventBus) as [b [x|e]]; cbn [fst] in *.
    + eexists. split; [done|]. by apply list_bus_ok.
    + destruct (close_ok b Hok) as (b' & -> & Hok' & Hc'). eexists. split; [done|]. by apply add_bus_ok.
Qed.

Lemma not_listed i p t :
  table_ok t → pollers t !! i = Some p → sessionBuses t !! poll_id p ≠ Some (poll_bus p) →
  ∀ id, sessionBuses t !! id ≠ Some (poll_bus p).
Proof. intros Ht Hip Hn id Hid. pose proof (to_owner t Ht i p id Hip Hid) as ->. done. Qed.

Lemma remove_and_exit i p t :
  table_ok t → pollers t !! i = Some p → sessionBuses t !! poll_id p = Some (poll_bus p) →
  ∃ t', bind_table (on_bus (poll_bus p) OClose (forget (poll_id p) t)) (λ t, Ok (set_pc i p PExit t)) = Ok t' ∧ table_ok t'.
Proof.
  intros Ht Hip Hid. destruct (remove_bus_ok _ _ t Ht Hid) as (t1 & -> & Ht1 & Hs & Hp). cbn [bind_table].
  eexists. split; [done|]. apply set_pc_ok; [done|by rewrite Hp|]. intros _ id. rewrite Hs. intros [Hne Hk]%lookup_delete_Some.
  apply Hne. symmetry. by eapply (to_inj t Ht).
Qed.

Lemma poll_events_ok i answer took stop t :
  table_ok t → ∃ t', pollEvents i answer took stop t = Ok t' ∧ table_ok t'.
Proof.
  intros Ht. unfold pollEvents. destruct (pollers t !! i) as [p|] eqn:Hip; [|by exists t].
  destruct (poll_pc p) eqn:Hpc; [| | |by exists t].
  - case_bool_decide as Hid; cbn [negb]; [|eexists; split; [done|]; apply set_pc_ok; [done|done|]; intros _; by eapply not_listed].
    destruct (buses t !! poll_bus p) as [b|]; [|by exists t]. destruct (subscriberCount b =? 0).
    + by apply remove_and_exit.
    + eexists. split; [done|]. by apply set_pc_ok.
  - destruct answer as [event|].
    + destruct (on_bus_ok (poll_bus p) (OPublish event took) t Ht) as (t1 & Ht1 & Hok); [done|done|]. rewrite Ht1. cbn [bind_table].
      eexists. split; [done|]. apply set_pc_ok; [done| |done]. unfold on_bus in Ht1. repeat case_match; by simplify_eq.
    + unfold closeEventBus. case_bool_decide as Hid; [by apply remove_and_exit|]. cbn [bind_table].
      eexists. split; [done|]. apply set_pc_ok; [done|done|]. intros _. by eapply not_listed.
  - destruct (buses t !! poll_bus p) as [b|] eqn:Hb; [|by exists t]. eexists. split; [done|]. apply set_pc_ok; [done|done|].
    destruct (done b) eqn:Hd; [|done]. intros _ id Hid. destruct (to_mapped t Ht id _ Hid) as (b' & Hb' & Hc).
    pose proof (ok_done b (to_bus t Ht _ _ Hb)). congruence.
Qed.

Lemma close_all_loop entries t :
  table_ok t → NoDup entries.*1 → (∀ id k, (id, k) ∈ entries → sessionBuses t !! id = Some k) →
  ∃ t', foldl (λ r entry, bind_table r (λ t, bind_table (on_bus entry.2 OClose t) (λ t, Ok (forget entry.1 t))))
          (Ok t) entries = Ok t' ∧ table_ok t' ∧
    ∀ id, sessionBuses t' !! id = if decide (id ∈ entries.*1) then None else sessionBuses t !! id.
Proof.
  revert t. induction entries as [|[id k] entries IH]; intros t Ht Hnd Hin; [exists t; by split_and!|].
  cbn in Hnd. apply NoDup_cons in Hnd as [Hn Hnd].
  destruct (remove_bus_ok id k t Ht) as (t1 & Ht1 & Hok1 & Hs1 & _); [apply Hin; left|].
  assert (E : bind_table (on_bus k OClose t) (λ t, Ok (forget id t)) = Ok t1).
  { revert Ht1. unfold on_bus, forget, bind_table, set_bus. cbn [buses sessionBuses pollers].
    destruct (buses t !! k); [|done]. by destruct (bus_apply _ _). }
  cbn [foldl fst snd]. change (bind_table (Ok t) ?f) with (f t). cbv beta. rewrite E.
  destruct (IH t1 Hok1 Hnd) as (t' & Ht' & Hok' & Hs').
  - intros id' k' Hi. rewrite Hs1, lookup_delete_ne; [apply Hin; by right|]. intros <-. apply Hn.
    apply (list_elem_of_fmap_2 fst _ _ Hi).
  - exists t'. split_and!; [exact Ht'|done|]. intros id'. rewrite Hs', Hs1. cbn [fmap list_fmap].
    destruct (decide (id' = id)) as [->|Hne].
    + rewrite lookup_delete_eq, (decide_True (P := id ∈ id :: entries.*1)) by left. by case_decide.
    + rewrite lookup_delete_ne by done. apply decide_ext. rewrite elem_of_cons. tauto.
Qed.

Lemma close_all_tables_ok t : table_ok t → ∃ t', closeAll t = Ok t' ∧ table_ok t' ∧ sessionBuses t' = ∅.
Proof.
  intros Ht. destruct (close_all_loop (map_to_list (sessionBuses t)) t Ht) as (t' & Ht' & Hok & Hs).
  - apply NoDup_fst_map_to_list.
  - intros id k. by rewrite elem_of_map_to_list.
  - exists t'. split_and!; [exact Ht'|done|]. apply map_empty. intros id. rewrite Hs. case_decide as Hin; [done|].
    destruct (sessionBuses t !! id) as [k|] eqn:Hid; [|done]. exfalso. apply Hin.
    apply (list_elem_of_fmap_2 fst _ (id, k)). by apply elem_of_map_to_list.
Qed.

Lemma table_apply_ok t o : table_ok t → fresh_sub t o → ∃ t', table_apply t o = Ok t' ∧ table_ok t'.
Proof.
  intros Ht Hf. destruct o as [limit id rev subID|k subID|k ref|i answer took stop|id|]; cbn [table_apply].
  - by apply subscribe_events_ok.
  - by apply on_bus_ok.
  - by apply on_bus_ok.
  - by apply poll_events_ok.
  - unfold closeLocalEventBus. destruct (sessionBuses t !! id) as [k|] eqn:Hid; [|by exists t].
    destruct (remove_bus_ok id k t Ht Hid) as (t' & ? & ? & _). eauto.
  - destruct (close_all_tables_ok t Ht) as (t' & ? & ? & _). eauto.
Qed.

Lemma table_reachable_ok t : table_reachable t → table_ok t.
Proof.
  induction 1 as [|t o t' _ IH Hf Ha].
  - split; cbn; intros *; rewrite ?lookup_empty, ?lookup_nil; done.
  - destruct (table_apply_ok t o IH Hf) as (t1 & Ht1 & ?). congruence.
Qed.

(** One poller per Session with readers.  In every interleaving of readers,
    pollers, deletions and the shutdown, each listed bus is open and has exactly
    one goroutine polling for it; a bus that is no longer listed is closed, with
    all its channels; and no step panics. *)
Theorem one_poller_per_session t :
  table_reachable t →
  (∀ id k, sessionBuses t !! id = Some k →
     (∃ b, buses t !! k = Some b ∧ closed b = false) ∧
     ∃ i p, pollers t !! i = Some p ∧ poll_bus p = k ∧ poll_id p = id ∧ poll_pc p ≠ PExit ∧
       ∀ j q, pollers t !! j = Some q → poll_bus q = k → j = i) ∧
  (∀ k b, buses t !! k = Some b → (∀ id, sessionBuses t !! id ≠ Some k) →
     closed b = true ∧ Forall (λ c, ch_closed c = true) (channels b)) ∧
  (∀ o, fresh_sub t o → ∃ t', table_apply t o = Ok t').
Proof.
  intros Ht%table_reachable_ok. split_and!.
  - intros id k Hid. split; [by eapply (to_mapped t Ht)|]. destruct (to_polled t Ht id k Hid) as (i & p & Hip & Hk & Hpc).
    exists i, p. split_and!; try done.
    + symmetry. eapply (to_owner t Ht); [done|congruence].
    + intros j q Hj Hq. eapply (to_one t Ht); [done|done|congruence].
  - intros k b Hk Hn. assert (Hc : closed b = true).
    { destruct (closed b) eqn:Hc; [done|]. destruct (to_open t Ht k b Hk Hc) as [id Hid]. by destruct (Hn id). }
    split; [done|]. pose proof (to_bus t Ht k b Hk) as [[_ _ _ Hopen] _ Hcl]. apply Forall_lookup. intros ref c Hc'.
    destruct (ch_closed c) eqn:Ho; [done|]. destruct (Hopen ref c Hc' Ho) as (id & sub & Hs & _). by rewrite (Hcl Hc), lookup_empty in Hs.
  - intros o Hf. destruct (table_apply_ok t o Ht Hf) as (t' & ? & _). eauto.
Qed.

(** *** Examples *)

(** A Session gets a reader and its poller; the reader leaves, the poller notices
    and ends; a second reader makes a new bus. *)
Definition step_of (o : table_op) (t : table) : table := match table_apply t o with Ok t' => t' | Err _ => t end.
Definition example_table : table :=
  step_of (TSubscribe 16 "s-1" 3 (Some "b"))
    (step_of (TPoll 0 None (λ _, false) false)
       (step_of (TUnsubscribe 0 "a") (step_of (TSubscribe 16 "s-1" 1 (Some "a")) (mkTable ∅ [] [])))).

Lemma step_of_reachable o t : table_reachable t → fresh_sub t o → table_reachable (step_of o t).
Proof.
  intros Ht Hf. unfold step_of. destruct (table_apply t o) as [t'|] eqn:E; [|done]. by eapply table_step.
Qed.

Lemma example_table_reachable : table_reachable example_table.
Proof.
  unfold example_table. repeat apply step_of_reachable; try exact I; [constructor| |];
    intros k b Hk; vm_compute in Hk; discriminate.
Qed.

Lemma one_poller_per_session_witness :
  sessionBuses example_table !! "s-1" = Some 1%nat ∧
  (∃ b, buses example_table !! 0%nat = Some b ∧ closed b = true) ∧
  ∃ i p, pollers example_table !! i = Some p ∧ poll_bus p = 1%nat ∧ poll_pc p ≠ PExit.
Proof.
  destruct (one_poller_per_session example_table example_table_reachable) as (Hm & Hu & _).
  split; [vm_compute; reflexivity|]. split.
  - eexists. split; [vm_compute; reflexivity|]. vm_compute. reflexivity.
  - destruct (Hm "s-1" 1%nat) as [_ (i & p & H1 & H2 & _ & H3 & _)]; [vm_compute; reflexivity|]. exists i, p.
    split; [exact H1|]. split; [exact H2|exact H3].
Defined.
End Events.
