(* ===== verification/Admission.v ===== *)
(** * Admission control

    Translates [access/admission/limiter.go] (a fixed-window limiter with a finite
    identity table), [internal/admission/ratelimit.go] (a fixed-window limiter
    whose stale entries a goroutine sweeps) and [internal/admission/gate.go] (a
    lock-free bound on concurrent work).  The current time is an argument. *)

From S2P Require Export GoTime.

(** ** Fixed windows

    What a fixed-window limiter guarantees for one identity.  [gs] are its windows,
    newest first, each with its start and the instants admitted in it. *)
Module Windows.
Lemma len_nil {A} : len (@nil A) = 0.
Proof. done. Qed.
Lemma len_cons {A} (x : A) l : len (x :: l) = len l + 1.
Proof. unfold len. cbn. lia. Qed.

Section Windows.
Context (w limit : Z).

Definition window_ok (g : Z * list Z) : Prop := Forall (λ t, g.1 <= t < g.1 + w) g.2 ∧ len g.2 <= limit.

(** Every window starts after the older ones have ended. *)
Fixpoint spaced (gs : list (Z * list Z)) : Prop :=
  match gs with
  | [] => True
  | g :: gs' => Forall (λ g', g'.1 + w <= g.1) gs' ∧ spaced gs'
  end.

Definition admitted (gs : list (Z * list Z)) : list Z := gs ≫= snd.

(** The instants of [l] from [a] up to one window later. *)
Definition within (a : Z) (l : list Z) : list Z := filter (λ t, a <= t < a + w) l.

Lemma within_le a l : len (within a l) <= len l.
Proof. unfold within, len. pose proof (length_filter (λ t, a <= t < a + w) l). lia. Qed.

Lemma within_none a l : Forall (λ t, ¬ (a <= t < a + w)) l → within a l = [].
Proof. unfold within. induction 1 as [|t l Ht _ IH]; [done|]. by rewrite filter_cons_False. Qed.

(** A window that old admits nothing in the interval. *)
Lemma old_windows_empty a s gs :
  Forall window_ok gs → Forall (λ g, g.1 + w <= s) gs → s <= a → within a (admitted gs) = [].
Proof.
  intros Hok Hs Ha. apply within_none. unfold admitted. rewrite Forall_bind.
  induction Hok as [|g gs [Hg _] _ IH]; [constructor|]. apply Forall_cons in Hs as [Hs1 Hs2]. constructor; [|by apply IH].
  eapply Forall_impl; [exact Hg|]. cbn. intros t Ht. lia.
Qed.

Lemma windows_bound gs a :
  0 <= w → 0 <= limit → Forall window_ok gs → spaced gs → len (within a (admitted gs)) <= 2 * limit.
Proof.
  intros Hw Hl Hok. induction Hok as [|g gs [Hg Hn] Hok IH]; intros Hsp; [unfold len; cbn; lia|]. cbn [spaced] in Hsp.
  destruct Hsp as [Hg' Hsp]. unfold admitted, within in *. cbn [mbind list_bind]. rewrite filter_app, len_app.
  fold (within a g.2). fold (within a (gs ≫= snd)). fold (admitted gs).
  destruct (within a g.2) as [|x l] eqn:Ex; [rewrite len_nil; specialize (IH Hsp); unfold admitted, within in *; lia|].
  assert (Hx : x ∈ within a g.2) by (rewrite Ex; left). unfold within in Hx. apply list_elem_of_filter in Hx as [Hxa Hxg].
  rewrite Forall_forall in Hg. specialize (Hg x Hxg). rewrite <- Ex. pose proof (within_le a g.2).
  destruct Hok as [|g2 gs [Hg2 Hn2] Hok]; [unfold admitted, len at 2; cbn; lia|].
  unfold admitted. cbn [mbind list_bind]. unfold within at 2. rewrite filter_app, len_app. fold (within a g2.2).
  fold (within a (gs ≫= snd)). fold (admitted gs). pose proof (within_le a g2.2).
  apply Forall_cons in Hg' as [Hd _]. cbn [spaced] in Hsp. destruct Hsp as [Hold _].
  rewrite (old_windows_empty a g2.1 gs Hok Hold) by lia. rewrite len_nil. lia.
Qed.

(** The window an identity is in, if it has not been dropped; a dropped one is
    over at [now]. *)
Definition tracks (now : Z) (entry : option (Z * Z)) (times : list Z) : Prop :=
  ∃ gs, times = admitted gs ∧ Forall window_ok gs ∧ spaced gs ∧ Forall (λ g, g.1 <= now) gs ∧
    match entry with
    | Some (start, count) => ∃ ts rest, gs = (start, ts) :: rest ∧ len ts = count
    | None => Forall (λ g, g.1 + w <= now) gs
    end.

Lemma tracks_bound now entry times a :
  0 <= w → 0 <= limit → tracks now entry times → len (within a times) <= 2 * limit.
Proof. intros Hw Hl (gs & -> & Hok & Hsp & _). by apply windows_bound. Qed.

Lemma tracks_later now now' entry times : now <= now' → tracks now entry times → tracks now' entry times.
Proof.
  intros Hle (gs & E & Hok & Hsp & Hnow & He). exists gs. split_and!; try done.
  - eapply Forall_impl; [exact Hnow|]. cbn. lia.
  - destruct entry as [[start count]|]; [done|]. eapply Forall_impl; [exact He|]. cbn. lia.
Qed.

(** An entry whose window is over may be dropped. *)
Lemma tracks_drop now start count times :
  0 <= w → start + w <= now → tracks now (Some (start, count)) times → tracks now None times.
Proof.
  intros Hw Hle (gs & E & Hok & Hsp & Hnow & ts & rest & -> & _). exists ((start, ts) :: rest). split_and!; try done.
  constructor; [done|]. cbn [spaced] in Hsp. destruct Hsp as [Hold _]. eapply Forall_impl; [exact Hold|]. cbn. lia.
Qed.

(** A new window with its first admission. *)
Lemma tracks_open now times :
  0 < w → 1 <= limit → tracks now None times → tracks now (Some (now, 1)) (now :: times).
Proof.
  intros Hw Hl (gs & -> & Hok & Hsp & Hnow & Hold). exists ((now, [now]) :: gs). split_and!; try done.
  - constructor; [|done]. split; [|done]. constructor; [cbn; lia|constructor].
  - constructor; [cbn; lia|done].
  - by exists [now], gs.
Qed.

(** An admission in the current window. *)
Lemma tracks_admit now start count times :
  start <= now < start + w → count < limit → tracks now (Some (start, count)) times →
  tracks now (Some (start, count + 1)) (now :: times).
Proof.
  intros Hin Hc (gs & -> & Hok & Hsp & Hnow & ts & rest & -> & Hts). exists ((start, now :: ts) :: rest).
  apply Forall_cons in Hok as [[Hg Hn] Hok]. apply Forall_cons in Hnow as [Hs Hnow]. cbn in *.
  split; [done|]. split; [|split; [exact Hsp|split]].
  - constructor; [|done]. split; [by constructor|]. cbn. rewrite len_cons. lia.
  - by constructor.
  - exists (now :: ts), rest. split; [done|]. rewrite len_cons. lia.
Qed.

Lemma tracks_start now start count times : tracks now (Some (start, count)) times → start <= now.
Proof. intros (gs & _ & _ & _ & Hnow & ts & rest & -> & _). by apply Forall_cons in Hnow as [? _]. Qed.

Lemma tracks_empty now : tracks now None [].
Proof. exists []. by split_and!. Qed.
End Windows.
End Windows.

(** ** access/admission/limiter.go *)
Module AccessLimiter.
Import Windows.

(** *** net.SplitHostPort: the host, when the address is well formed *)

Definition char (n : nat) : Ascii.ascii := Ascii.ascii_of_nat n.
Definition colon : Ascii.ascii := char 58.
Definition open_bracket : Ascii.ascii := char 91.
Definition close_bracket : Ascii.ascii := char 93.

Definition has_char (c : Ascii.ascii) (l : list Ascii.ascii) : bool := existsb (λ x, bool_decide (x = c)) l.
Fixpoint index_char (c : Ascii.ascii) (l : list Ascii.ascii) : option nat :=
  match l with
  | [] => None
  | x :: l' => if bool_decide (x = c) then Some O else option_map S (index_char c l')
  end.
Fixpoint last_index_char (c : Ascii.ascii) (l : list Ascii.ascii) : option nat :=
  match l with
  | [] => None
  | x :: l' => match last_index_char c l' with
               | Some i => Some (S i)
               | None => if bool_decide (x = c) then Some O else None
               end
  end.

Definition split_host (l : list Ascii.ascii) : option (list Ascii.ascii) :=
  match last_index_char colon l with
  | None => None
  | Some i =>
    match l with
    | [] => None
    | first :: _ =>
      if bool_decide (first = open_bracket)
      then match index_char close_bracket l with
           | None => None
           | Some end_ =>
             if (S end_ =? length l)%nat then None
             else if negb (S end_ =? i)%nat then None
             else if has_char open_bracket (drop 1 l) || has_char close_bracket (drop (S end_) l) then None
             else Some (slice l 1 end_)
           end
      else
        let host := take i l in
        if has_char colon host then None
        else if has_char open_bracket l || has_char close_bracket l then None
        else Some host
    end
  end.

Definition SplitHostPort (hostport : string) : option string :=
  option_map String.string_of_list_ascii (split_host (String.list_ascii_of_string hostport)).

(** *** The limiter *)

Record entry := mkEntry { windowStart : Z; count : Z }.

Definition defaultMaxIdentities : Z := 4096.

Record IPLimiter := mkLimiter {
  entries : gmap string entry; limit : Z; window : Z; maxEntries : Z }.

Definition NewIPLimiter (limit window maxEntries : Z) : IPLimiter :=
  mkLimiter ∅ limit (if window <=? 0 then Minute else window)
    (if maxEntries <=? 0 then defaultMaxIdentities else maxEntries).

Definition set_entries (m : gmap string entry) (l : IPLimiter) : IPLimiter :=
  mkLimiter m (limit l) (window l) (maxEntries l).

Definition over (l : IPLimiter) (now : Z) (e : entry) : bool := Sub now (windowStart e) >=? window l.

Definition prune (now : Z) (l : IPLimiter) : IPLimiter :=
  set_entries (filter (λ ke, over l now ke.2 = false) (entries l)) l.

(** The identity of an address. *)
Definition identity (remoteAddress : string) : string :=
  let host := default remoteAddress (SplitHostPort remoteAddress) in
  if bool_decide (host = "") then "unknown" else host.

Definition full (l : IPLimiter) : bool := Z.of_nat (size (entries l)) >=? maxEntries l.

(** [Allow] of a limiter that is present. *)
Definition Allow (remoteAddress : string) (now : Z) (l : IPLimiter) : IPLimiter * (bool * Z) :=
  if limit l <=? 0 then (l, (true, 0))
  else
    let host := identity remoteAddress in
    let found := entries l !! host in
    let expired := match found with Some e => over l now e | None => false end in
    let l := if expired then set_entries (delete host (entries l)) l else l in
    match (if expired then None else found) with
    | None =>
      let l := if full l then prune now l else l in
      if full l then (l, (false, window l))
      else (set_entries (<[host := mkEntry now 1]> (entries l)) l, (true, 0))
    | Some current =>
      if count current >=? limit l
      then
        let remaining := window l - Sub now (windowStart current) in
        (l, (false, if remaining <? Second then Second else remaining))
      else (set_entries (<[host := mkEntry (windowStart current) (count current + 1)]> (entries l)) l, (true, 0))
    end.

(** A sequence of calls; the log has the admitted ones, newest first. *)
Definition step (acc : IPLimiter * list (string * Z)) (call : string * Z) : IPLimiter * list (string * Z) :=
  let '(l, (ok, _)) := Allow call.1 call.2 acc.1 in
  (l, if ok then (identity call.1, call.2) :: acc.2 else acc.2).
Definition run (calls : list (string * Z)) (l : IPLimiter) : IPLimiter * list (string * Z) := foldl step (l, []) calls.

(** The instants at which an identity was admitted. *)
Definition times (host : string) (log : list (string * Z)) : list Z :=
  omap (λ e, if bool_decide (e.1 = host) then Some e.2 else None) log.

(** *** Correctness *)

Definition well_configured (l : IPLimiter) : Prop := 0 < limit l ∧ 0 < window l <= maxInt64 ∧ 0 < maxEntries l.

Definition pair_of (e : entry) : Z * Z := (windowStart e, count e).

Record limiter_ok (now : Z) (l : IPLimiter) (log : list (string * Z)) : Prop := {
  lo_config : well_configured l;
  lo_size : Z.of_nat (size (entries l)) <= maxEntries l;
  lo_tracks : ∀ host, tracks (window l) (limit l) now (pair_of <$> entries l !! host) (times host log) }.

Lemma over_iff l now e : 0 < window l <= maxInt64 → over l now e = true ↔ windowStart e + window l <= now.
Proof. intros Hw. unfold over, Sub, sat64. rewrite Z.geb_leb, Z.leb_le. unfold_ints. lia. Qed.

Lemma times_cons host h t log : times host ((h, t) :: log) = if bool_decide (h = host) then t :: times host log else times host log.
Proof. unfold times. cbn. by case_bool_decide. Qed.

(** Dropping entries whose window is over. *)
Lemma ok_drop now l log m :
  limiter_ok now l log → m ⊆ entries l →
  (∀ host e, entries l !! host = Some e → m !! host = None → over l now e = true) →
  limiter_ok now (set_entries m l) log.
Proof.
  intros [Hc Hs Ht] Hsub Hover. split; cbn [set_entries entries limit window maxEntries]; [done| |].
  - apply map_subseteq_size in Hsub. lia.
  - intros host. specialize (Ht host). destruct (m !! host) as [e|] eqn:Hm.
    + rewrite (lookup_weaken _ _ _ _ Hm Hsub) in Ht. exact Ht.
    + destruct (entries l !! host) as [e|] eqn:He; [|exact Ht]. cbn in Ht |- *.
      specialize (Hover host e He Hm). destruct Hc as (_ & Hw & _). apply over_iff in Hover; [|done].
      eapply tracks_drop; [lia|exact Hover|exact Ht].
Qed.

Lemma ok_prune now l log : limiter_ok now l log → limiter_ok now (prune now l) log.
Proof.
  intros Hok. apply ok_drop; [done|apply map_filter_subseteq|]. intros host e He Hm.
  apply map_lookup_filter_None in Hm as [Hm|Hm]; [congruence|]. specialize (Hm e He). cbn in Hm. by destruct (over l now e).
Qed.

(** An admission sets the entry of its identity. *)
Lemma ok_admit now l log host e :
  limiter_ok now l log → (entries l !! host = None → Z.of_nat (size (entries l)) < maxEntries l) →
  tracks (window l) (limit l) now (Some (pair_of e)) (now :: times host log) →
  limiter_ok now (set_entries (<[host := e]> (entries l)) l) ((host, now) :: log).
Proof.
  intros [Hc Hs Ht] Hroom He. split; cbn [set_entries entries limit window maxEntries]; [done| |].
  - rewrite map_size_insert. destruct (entries l !! host); cbv [Datatypes.id]; [lia|]. specialize (Hroom eq_refl). lia.
  - intros host'. rewrite times_cons. case_bool_decide as E.
    + subst. rewrite lookup_insert_eq. exact He.
    + rewrite lookup_insert_ne by done. apply Ht.
Qed.

Lemma step_ok now now' addr l log :
  now <= now' → limiter_ok now l log → limiter_ok now' (step (l, log) (addr, now')).1 (step (l, log) (addr, now')).2.
Proof.
  intros Hle [Hc Hs Ht]. assert (Hok : limiter_ok now' l log).
  { split; [done|done|]. intros host. eapply tracks_later; [exact Hle|apply Ht]. }
  clear Hs Ht. pose proof Hc as (Hl & Hw & Hm). unfold step. cbn [fst snd]. unfold Allow.
  rewrite (proj2 (Z.leb_gt (limit l) 0)) by lia. set (host := identity addr). cbv zeta.
  assert (Hnew : ∀ l1, limiter_ok now' l1 log → entries l1 !! host = None → window l1 = window l → limit l1 = limit l →
            limiter_ok now'
              (let '(l2, (ok, _)) := (let l1 := if full l1 then prune now' l1 else l1 in
                 if full l1 then (l1, (false, window l1))
                 else (set_entries (<[host := mkEntry now' 1]> (entries l1)) l1, (true, 0))) in
               (l2, if ok then (host, now') :: log else log)).1
              (let '(l2, (ok, _)) := (let l1 := if full l1 then prune now' l1 else l1 in
                 if full l1 then (l1, (false, window l1))
                 else (set_entries (<[host := mkEntry now' 1]> (entries l1)) l1, (true, 0))) in
               (l2, if ok then (host, now') :: log else log)).2).
  { intros l1 Hok1 Hnone Hw1 Hl1. cbv zeta. set (l2 := if full l1 then _ else l1).
    assert (Hok2 : limiter_ok now' l2 log ∧ entries l2 !! host = None).
    { subst l2. destruct (full l1); [|done]. split; [by apply ok_prune|]. cbn. apply map_lookup_filter_None. by left. }
    destruct Hok2 as [Hok2 Hnone2]. destruct (full l2) eqn:Hf; [exact Hok2|]. unfold full in Hf. bool_hyps.
    apply ok_admit; [done|lia|]. pose proof (lo_tracks _ _ _ Hok2 host) as Ht2. rewrite Hnone2 in Ht2. cbn in Ht2.
    pose proof (lo_config _ _ _ Hok2) as (? & ? & _). apply tracks_open; [lia|lia|exact Ht2]. }
  destruct (entries l !! host) as [e|] eqn:He; [destruct (over l now' e) eqn:Ho|].
  - apply Hnew; [|cbn; by rewrite lookup_delete_eq|done|done]. apply ok_drop; [done|apply delete_subseteq|].
    intros host' e' He' Hd. apply lookup_delete_None in Hd as [<-|Hd]; congruence.
  - pose proof (lo_tracks _ _ _ Hok host) as Ht. rewrite He in Ht. cbn in Ht. unfold pair_of in Ht.
    destruct (Z.geb_spec (count e) (limit l)); [exact Hok|]. apply ok_admit; [done|congruence|]. unfold pair_of. cbn.
    apply tracks_admit; [|lia|exact Ht]. pose proof (tracks_start _ _ _ _ _ _ Ht).
    assert (¬ windowStart e + window l <= now') by (rewrite <- over_iff by done; rewrite Ho; by intros [=]). lia.
  - by apply Hnew.
Qed.

(** The calls come in the order of a clock that starts at [now]. *)
Fixpoint ordered (now : Z) (calls : list (string * Z)) : Prop :=
  match calls with
  | [] => True
  | (_, t) :: calls' => now <= t ∧ ordered t calls'
  end.

Definition clock (now : Z) (calls : list (string * Z)) : Z := foldl (λ _ call, call.2) now calls.

Lemma run_ok calls now l log :
  limiter_ok now l log → ordered now calls →
  limiter_ok (clock now calls) (foldl step (l, log) calls).1 (foldl step (l, log) calls).2.
Proof.
  revert now l log. induction calls as [|[addr t] calls IH]; intros now l log Hok Hord; [done|].
  cbn in Hord. destruct Hord as [Hle Hord]. cbn [foldl clock snd]. pose proof (step_ok now t addr l log Hle Hok) as Hok'.
  destruct (step (l, log) (addr, t)) as [l1 log1]. cbn [fst snd] in Hok'. by apply IH.
Qed.

Lemma new_ok limit window maxEntries now :
  0 < limit → window <= maxInt64 → limiter_ok now (NewIPLimiter limit window maxEntries) [].
Proof.
  intros Hl Hw. unfold NewIPLimiter. split; cbn.
  - unfold well_configured, defaultMaxIdentities, Minute, Second. cbn. split; [done|].
    split; case_if; bool_hyps; unfold_ints; lia.
  - rewrite map_size_empty. unfold defaultMaxIdentities. case_if; bool_hyps; lia.
  - intros host. rewrite lookup_empty. apply tracks_empty.
Qed.

(** What the public limiter guarantees.  In any sequence of calls, whatever the
    addresses, no identity is admitted more than twice the limit in any interval
    of one window, and the table never holds more identities than configured. *)
Theorem access_limiter_bounds limit window maxEntries now calls host a :
  0 < limit → window <= maxInt64 → ordered now calls →
  let l := NewIPLimiter limit window maxEntries in
  let '(l', log) := run calls l in
  len (within (AccessLimiter.window l) a (times host log)) <= 2 * limit ∧
  Z.of_nat (size (entries l')) <= AccessLimiter.maxEntries l.
Proof.
  intros Hl Hw Hord. cbv zeta. unfold run. set (l := NewIPLimiter limit window maxEntries).
  assert (Hkeep : ∀ cs acc, AccessLimiter.window (foldl step acc cs).1 = AccessLimiter.window acc.1 ∧
            AccessLimiter.limit (foldl step acc cs).1 = AccessLimiter.limit acc.1 ∧
            AccessLimiter.maxEntries (foldl step acc cs).1 = AccessLimiter.maxEntries acc.1).
  { induction cs as [|c cs IH]; intros acc; [done|]. cbn [foldl]. destruct (IH (step acc c)) as (-> & -> & ->).
    unfold step, Allow. by repeat case_match; simplify_eq. }
  pose proof (run_ok calls now l [] (new_ok limit window maxEntries now Hl Hw) Hord) as Hok.
  destruct (Hkeep calls (l, [])) as (Kw & Kl & Km). destruct (foldl step (l, []) calls) as [l' log]. cbn [fst snd] in *.
  pose proof (lo_tracks _ _ _ Hok host) as Ht. pose proof (lo_config _ _ _ Hok) as (? & ? & _). rewrite <- Kw.
  split; [|rewrite <- Km; apply Hok]. change limit with (AccessLimiter.limit l). rewrite <- Kl.
  eapply tracks_bound; [lia|lia|exact Ht].
Qed.

Lemma admit_expired t l addr e :
  well_configured l → Z.of_nat (size (entries l)) <= maxEntries l → entries l !! identity addr = Some e →
  over l t e = true → (Allow addr t l).2 = (true, 0).
Proof.
  intros (Hl & _) Hs He Ho. unfold Allow. rewrite (proj2 (Z.leb_gt _ _)) by lia. cbv zeta. rewrite He, Ho.
  set (l1 := set_entries _ l). assert (Hf : full l1 = false).
  { unfold full. cbn. rewrite map_size_delete, He, Z.geb_leb. apply Z.leb_gt.
    assert (size (entries l) ≠ 0)%nat by (intros E%map_size_empty_inv; rewrite E, lookup_empty in He; done). lia. }
  by rewrite !Hf.
Qed.

Lemma admit_pruned t l addr :
  well_configured l → entries l !! identity addr = None → (∀ h e, entries l !! h = Some e → over l t e = true) →
  (Allow addr t l).2 = (true, 0).
Proof.
  intros (Hl & _ & Hm) Hn Hall. unfold Allow. rewrite (proj2 (Z.leb_gt _ _)) by lia. cbv zeta. rewrite Hn.
  destruct (full l) eqn:Hf; [|by rewrite Hf]. assert (E : entries (prune t l) = ∅).
  { cbn. apply map_empty. intros h. apply map_lookup_filter_None. right. intros e He. cbn. by rewrite (Hall h e He). }
  unfold full. rewrite E, map_size_empty. cbn [maxEntries prune set_entries]. by rewrite Z.geb_leb, (proj2 (Z.leb_gt _ _)) by lia.
Qed.

(** A refused caller that waits as long as it is told is admitted: the advice is
    positive, at most one window or one second, and the same address is admitted
    when it comes back then, if nobody else called in between. *)
Theorem retry_after_admits now l log addr l' d :
  limiter_ok now l log → Allow addr now l = (l', (false, d)) →
  0 < d <= Z.max (window l) Second ∧ (Allow addr (now + d) l').2 = (true, 0).
Proof.
  intros Hok Ha. pose proof (lo_config _ _ _ Hok) as (Hl & Hw & Hm).
  assert (Hstart : ∀ h e, entries l !! h = Some e → windowStart e <= now).
  { intros h e He. pose proof (lo_tracks _ _ _ Hok h) as Ht. rewrite He in Ht. cbn in Ht. exact (tracks_start _ _ _ _ _ _ Ht). }
  assert (Hfull : ∀ m, m ⊆ entries l → m !! identity addr = None →
            (let l1 := set_entries m l in let l1 := if full l1 then prune now l1 else l1 in
             if full l1 then (l1, (false, window l1))
             else (set_entries (<[identity addr := mkEntry now 1]> (entries l1)) l1, (true, 0))) = (l', (false, d)) →
            0 < d <= Z.max (window l) Second ∧ (Allow addr (now + d) l').2 = (true, 0)).
  { intros m Hsub Hn. cbv zeta. set (l2 := if full (set_entries m l) then _ else _).
    assert (H2 : entries l2 ⊆ entries l ∧ entries l2 !! identity addr = None ∧ well_configured l2 ∧ window l2 = window l).
    { subst l2. destruct (full _); [|by split_and!]. cbn. split_and!; try done.
      - etransitivity; [apply map_filter_subseteq|done].
      - apply map_lookup_filter_None. by left. }
    destruct H2 as (Hs2 & Hn2 & Hc2 & Hw2). destruct (full l2); [|done]. intros [= <- <-]. rewrite Hw2. split; [lia|].
    apply admit_pruned; [done|done|]. intros h e He. apply over_iff; [by rewrite Hw2|].
    pose proof (Hstart h e (lookup_weaken _ _ _ _ He Hs2)). lia. }
  unfold Allow in Ha. rewrite (proj2 (Z.leb_gt _ _)) in Ha by lia. cbv zeta in Ha.
  destruct (entries l !! identity addr) as [e|] eqn:He; [destruct (over l now e) eqn:Ho|].
  - apply (Hfull (delete (identity addr) (entries l))); [apply delete_subseteq|by rewrite lookup_delete_eq|exact Ha].
  - destruct (Z.geb_spec (count e) (limit l)) as [Hc|Hc]; [|done]. injection Ha as <- <-. pose proof (Hstart _ _ He) as Hs.
    assert (Hno : ¬ windowStart e + window l <= now) by (rewrite <- over_iff by done; rewrite Ho; by intros [=]).
    assert (Hsub : Sub now (windowStart e) = now - windowStart e) by (apply Sub_exact; unfold_ints; lia). rewrite Hsub.
    assert (0 < Second) by done. split; [destruct (Z.ltb_spec (window l - (now - windowStart e)) Second); lia|].
    apply (admit_expired _ _ _ e); [done|apply Hok|done|]. apply over_iff; [done|].
    destruct (Z.ltb_spec (window l - (now - windowStart e)) Second); lia.
  - apply (Hfull (entries l)); [done|done|]. destruct l. exact Ha.
Qed.

(** Three calls of one address with a limit of two; the third is told to wait. *)
Definition example_calls : list (string * Z) :=
  [("10.0.0.1:40000", 10 * Second); ("10.0.0.1:40001", 11 * Second); ("[::1]:5", 12 * Second)].

Lemma access_limiter_bounds_witness :
  times "10.0.0.1" (run example_calls (NewIPLimiter 2 Minute 8)).2 = [11 * Second; 10 * Second] ∧
  len (within Minute (10 * Second) (times "10.0.0.1" (run example_calls (NewIPLimiter 2 Minute 8)).2)) <= 2 * 2.
Proof.
  split; [vm_compute; reflexivity|].
  pose proof (access_limiter_bounds 2 Minute 8 0 example_calls "10.0.0.1" (10 * Second)) as H. cbv zeta in H.
  destruct (run example_calls (NewIPLimiter 2 Minute 8)) as [l' log]. apply H; [done|vm_compute; congruence|vm_compute; repeat split; congruence].
Defined.

Definition example_limiter : IPLimiter := (run example_calls (NewIPLimiter 2 Minute 8)).1.

Lemma example_limiter_ok :
  limiter_ok (12 * Second) example_limiter (run example_calls (NewIPLimiter 2 Minute 8)).2.
Proof.
  apply (run_ok example_calls 0 (NewIPLimiter 2 Minute 8) []).
  - apply new_ok; [done|vm_compute; congruence].
  - vm_compute. repeat split; congruence.
Qed.

Lemma retry_after_admits_witness :
  (Allow "10.0.0.1:7" (12 * Second) example_limiter).2 = (false, 58 * Second) ∧
  (Allow "10.0.0.1:7" (12 * Second + 58 * Second) (Allow "10.0.0.1:7" (12 * Second) example_limiter).1).2 = (true, 0).
Proof.
  split; [vm_compute; reflexivity|].
  refine (proj2 (retry_after_admits (12 * Second) example_limiter _ "10.0.0.1:7" _ (58 * Second) example_limiter_ok _)).
  vm_compute. reflexivity.
Defined.
End AccessLimiter.

(** ** internal/admission/ratelimit.go *)
Module RateLimit.
Import Windows.

Record ipState := mkState { windowStart : Z; count : Z; lastSeen : Z (* Unix nanoseconds *) }.
Record IPLimiter := mkLimiter { maxCount : Z; window : Z; entries : gmap string ipState }.

Definition New (maxCount window : Z) : IPLimiter := mkLimiter maxCount window ∅.

Definition set_entries (m : gmap string ipState) (l : IPLimiter) : IPLimiter := mkLimiter (maxCount l) (window l) m.

(** [Allow]: the state of [ip] is held under its lock. *)
Definition Allow (ip : string) (now : Z) (l : IPLimiter) : IPLimiter * bool :=
  let st := default (mkState now 0 0) (entries l !! ip) in
  let st := if Sub now (windowStart st) >=? window l then mkState now 0 (lastSeen st) else st in
  let st := mkState (windowStart st) (count st) (UnixNano now) in
  if count st >=? maxCount l then (set_entries (<[ip := st]> (entries l)) l, false)
  else (set_entries (<[ip := mkState (windowStart st) (count st + 1) (lastSeen st)]> (entries l)) l, true).

(** One sweep of [cleanup]. *)
Definition stale (l : IPLimiter) (now : Z) (st : ipState) : bool :=
  negb (lastSeen st =? 0) && (Sub now (time_Unix 0 (lastSeen st)) >=? window l).
Definition cleanup (now : Z) (l : IPLimiter) : IPLimiter :=
  set_entries (filter (λ ks, stale l now ks.2 = false) (entries l)) l.

Inductive op := CAllow (ip : string) (now : Z) | CSweep (now : Z).
Definition op_now (o : op) : Z := match o with CAllow _ now | CSweep now => now end.

(** The answers of a sequence of calls and sweeps, newest first. *)
Definition step (acc : IPLimiter * list (string * Z * bool)) (o : op) : IPLimiter * list (string * Z * bool) :=
  match o with
  | CAllow ip now => let '(l, ok) := Allow ip now acc.1 in (l, (ip, now, ok) :: acc.2)
  | CSweep now => (cleanup now acc.1, acc.2)
  end.
Definition run (ops : list op) (l : IPLimiter) : IPLimiter * list (string * Z * bool) := foldl step (l, []) ops.

Definition is_call (o : op) : bool := match o with CAllow _ _ => true | CSweep _ => false end.
Definition without_sweeps (ops : list op) : list op := filter (λ o, is_call o = true) ops.

(** The operations come in the order of a clock that starts at [now], within the
    range of [UnixNano]. *)
Fixpoint ordered (now : Z) (ops : list op) : Prop :=
  match ops with
  | [] => True
  | o :: ops' => now <= op_now o ∧ is_i64 (op_now o) ∧ ordered (op_now o) ops'
  end.

(** *** Correctness *)

Definition well_configured (l : IPLimiter) : Prop := 0 < maxCount l ∧ 0 < window l <= maxInt64.

Lemma rate_over_iff w now start : 0 < w <= maxInt64 → (Sub now start >=? w) = true ↔ start + w <= now.
Proof. intros Hw. unfold Sub, sat64. rewrite Z.geb_leb, Z.leb_le. unfold_ints. lia. Qed.

(** An entry was seen after its window started, and not in the future. *)
Definition seen_ok (now : Z) (st : ipState) : Prop := windowStart st <= lastSeen st <= now.

Lemma stale_over l now st : 0 < window l <= maxInt64 → seen_ok now st → stale l now st = true → windowStart st + window l <= now.
Proof.
  intros Hw [H1 H2]. unfold stale. intros [_ H]%andb_true_iff. apply rate_over_iff in H; [|done]. unfold time_Unix in H. lia.
Qed.

(** What a call does, without the entry's history. *)
Definition current (l : IPLimiter) (ip : string) (now : Z) : Z * Z :=
  match entries l !! ip with
  | Some st => if Sub now (windowStart st) >=? window l then (now, 0) else (windowStart st, count st)
  | None => (now, 0)
  end.

Lemma allow_current l ip now :
  0 < window l → is_i64 now →
  Allow ip now l =
  (set_entries (<[ip := mkState (current l ip now).1
                          ((current l ip now).2 + if (current l ip now).2 >=? maxCount l then 0 else 1) now]> (entries l)) l,
   negb ((current l ip now).2 >=? maxCount l)).
Proof.
  intros Hw Hnow. unfold Allow, current, UnixNano. rewrite (i64_small now) by done. destruct (entries l !! ip) as [st|]; cbn [default from_option]; unfold id.
  - destruct (Sub now (windowStart st) >=? window l); cbn [windowStart count lastSeen fst snd]; destruct (_ >=? maxCount l);
      cbn [negb]; by rewrite ?Z.add_0_r.
  - cbn [windowStart count lastSeen fst snd].
    assert (E : (Sub now now >=? window l) = false) by (rewrite Sub_exact, Z.sub_diag, Z.geb_leb by (unfold_ints; lia); by apply Z.leb_gt).
    rewrite E. cbn [windowStart count lastSeen fst snd]. destruct (_ >=? maxCount l); cbn [negb]; by rewrite ?Z.add_0_r.
Qed.

(** A limiter whose dropped entries are those whose window is over. *)
Record similar (now : Z) (l l' : IPLimiter) : Prop := {
  si_max : maxCount l = maxCount l';
  si_window : window l = window l';
  si_entries : ∀ ip, entries l !! ip = entries l' !! ip ∨
    entries l !! ip = None ∧ ∃ st, entries l' !! ip = Some st ∧ windowStart st + window l' <= now }.

Lemma similar_current now l l' ip now' :
  0 < window l' <= maxInt64 → now <= now' → similar now l l' → current l ip now' = current l' ip now'.
Proof.
  intros Hw Hle [Hm Hwi He]. unfold current. rewrite Hwi. destruct (He ip) as [->|[-> (st & -> & Hover)]]; [done|].
  rewrite (proj2 (rate_over_iff (window l') now' (windowStart st) Hw)) by lia. done.
Qed.

Definition all_seen (now : Z) (l : IPLimiter) : Prop := ∀ ip st, entries l !! ip = Some st → seen_ok now st.

Lemma current_start l ip now : all_seen now l → (current l ip now).1 <= now.
Proof.
  intros Hs. unfold current. destruct (entries l !! ip) as [st|] eqn:He; [|done]. case_if; [done|].
  destruct (Hs ip st He). cbn. lia.
Qed.

Lemma all_seen_later now now' l : now <= now' → all_seen now l → all_seen now' l.
Proof. intros Hle Hs ip st He. destruct (Hs ip st He). split; lia. Qed.

Lemma all_seen_insert now l ip start c :
  start <= now → all_seen now l → all_seen now (set_entries (<[ip := mkState start c now]> (entries l)) l).
Proof.
  intros Hs Ha ip' st Hst. cbn in Hst. apply lookup_insert_Some in Hst as [[<- <-]|[_ He]]; [split; cbn; lia|by eapply Ha].
Qed.

Lemma similar_allow now l l' ip now' :
  0 < window l' <= maxInt64 → is_i64 now' → now <= now' → similar now l l' →
  similar now' (Allow ip now' l).1 (Allow ip now' l').1 ∧ (Allow ip now' l).2 = (Allow ip now' l').2.
Proof.
  intros Hw Hi Hle Hsim. pose proof (similar_current now l l' ip now' Hw Hle Hsim) as Hcur. destruct Hsim as [Hm Hwi He].
  rewrite (allow_current l) by (rewrite ?Hwi; (done || lia)). rewrite (allow_current l') by (done || lia).
  rewrite Hcur, Hm. cbn [fst snd]. split; [|done]. split; cbn [set_entries maxCount window entries]; try done.
  intros ip'. destruct (decide (ip = ip')) as [->|Hne]; [left; by rewrite !lookup_insert_eq|].
  rewrite !lookup_insert_ne by done. destruct (He ip') as [?|[? (st & ? & ?)]]; [by left|]. right. split; [done|]. exists st. split; [done|lia].
Qed.

Lemma similar_sweep now l l' now' :
  0 < window l' <= maxInt64 → now <= now' → all_seen now l' → similar now l l' → similar now' (cleanup now' l) l'.
Proof.
  intros Hw Hle Hs [Hm Hwi He]. split; cbn [cleanup set_entries maxCount window entries]; [done|done|]. intros ip.
  destruct (filter _ (entries l) !! ip) as [st|] eqn:Hf.
  - apply map_lookup_filter_Some in Hf as [Hst _]. left. destruct (He ip) as [E|[E _]]; congruence.
  - destruct (He ip) as [E|[E (st & Hst & Hov)]].
    + apply map_lookup_filter_None in Hf as [Hn|Hn]; [left; congruence|]. destruct (entries l !! ip) as [st|] eqn:Hst; [|left; congruence].
      specialize (Hn st eq_refl). cbn in Hn. destruct (stale l now' st) eqn:Hst'; [|done]. right. split; [done|]. exists st.
      split; [congruence|]. rewrite <- Hwi. apply (stale_over l now' st); [by rewrite Hwi| |done].
      assert (Hl : entries l' !! ip = Some st) by congruence. destruct (Hs ip st Hl). split; lia.
    + right. split; [done|]. exists st. split; [done|lia].
Qed.

Lemma run_similar ops now l l' answers :
  well_configured l' → all_seen now l' → similar now l l' → ordered now ops →
  (foldl step (l, answers) ops).2 = (foldl step (l', answers) (without_sweeps ops)).2.
Proof.
  intros Hc. revert now l l' answers Hc. induction ops as [|o ops IH]; intros now l l' answers Hc Hs Hsim Hord; [done|].
  cbn in Hord. destruct Hord as (Hle & Hi & Hord). pose proof Hc as (_ & Hw). unfold without_sweeps. destruct o as [ip now'|now'];
    cbn [op_now] in *; cbn [foldl step fst snd].
  - rewrite filter_cons_True by done. cbn [foldl step fst snd]. destruct (similar_allow now l l' ip now' Hw Hi Hle Hsim) as [Hsim' Hans].
    rewrite (surjective_pairing (Allow ip now' l)), (surjective_pairing (Allow ip now' l')), Hans.
    apply (IH now'); [..|done|done].
    + rewrite allow_current by (done || lia). exact Hc.
    + rewrite allow_current by (done || lia). cbn [fst]. apply all_seen_insert; [|by eapply all_seen_later].
      apply current_start. by eapply all_seen_later.
  - rewrite filter_cons_False by done. apply (IH now'); [done|by eapply all_seen_later|by apply (similar_sweep now)|done].
Qed.

(** Sweeping is invisible.  The answers of the limiter to any sequence of calls
    are the same with the sweeps of its cleanup goroutine at any moments as
    without them. *)
Theorem sweeps_invisible maxCount window now ops :
  0 < maxCount → 0 < window <= maxInt64 → ordered now ops →
  (run ops (New maxCount window)).2 = (run (without_sweeps ops) (New maxCount window)).2.
Proof.
  intros Hm Hw Hord. apply (run_similar ops now); [done| | |done].
  - intros ip st He. cbn in He. by rewrite lookup_empty in He.
  - split; [done|done|]. intros ip. by left.
Qed.

(** The instants at which an address was admitted. *)
Definition times (ip : string) (answers : list (string * Z * bool)) : list Z :=
  omap (λ a, if bool_decide (a.1.1 = ip) && a.2 then Some a.1.2 else None) answers.

Definition pair_of (st : ipState) : Z * Z := (windowStart st, count st).

Record limiter_ok (now : Z) (l : IPLimiter) (answers : list (string * Z * bool)) : Prop := {
  lo_config : well_configured l;
  lo_seen : all_seen now l;
  lo_tracks : ∀ ip, tracks (window l) (maxCount l) now (pair_of <$> entries l !! ip) (times ip answers) }.

Lemma rate_times_cons ip a t (ok : bool) answers :
  times ip ((a, t, ok) :: answers) = if bool_decide (a = ip) && ok then t :: times ip answers else times ip answers.
Proof. unfold times. cbn. case_bool_decide; cbn; [by destruct ok|done]. Qed.

(** The window a call is in, as tracked. *)
Lemma current_tracks now l ip answers :
  limiter_ok now l answers →
  (current l ip now).1 <= now < (current l ip now).1 + window l ∧
  (tracks (window l) (maxCount l) now (Some (current l ip now)) (times ip answers) ∨
   current l ip now = (now, 0) ∧ tracks (window l) (maxCount l) now None (times ip answers)).
Proof.
  intros [Hc Hs Ht]. pose proof Hc as (_ & Hw). pose proof (Ht ip) as Hip. unfold current.
  destruct (entries l !! ip) as [st|] eqn:He; cbn in Hip; [|split; [cbn; lia|by right]].
  destruct (Sub now (windowStart st) >=? window l) eqn:Ho.
  - split; [cbn; lia|]. right. split; [done|]. apply rate_over_iff in Ho; [|done]. eapply tracks_drop; [lia|exact Ho|exact Hip].
  - split; [|by left]. pose proof (tracks_start _ _ _ _ _ _ Hip). cbn.
    assert (¬ windowStart st + window l <= now) by (rewrite <- rate_over_iff by done; rewrite Ho; by intros [=]). lia.
Qed.

Lemma rate_step_ok now o l answers :
  now <= op_now o → is_i64 (op_now o) → limiter_ok now l answers →
  limiter_ok (op_now o) (step (l, answers) o).1 (step (l, answers) o).2.
Proof.
  intros Hle Hi [Hc Hs Ht]. assert (Hok : limiter_ok (op_now o) l answers).
  { split; [done|by eapply all_seen_later|]. intros ip. eapply tracks_later; [exact Hle|apply Ht]. }
  clear Hs Ht. pose proof Hc as (Hm & Hw). destruct o as [ip now'|now']; cbn [op_now step fst snd] in *.
  - rewrite (allow_current l) by (done || lia). cbn [fst snd]. destruct (current_tracks now' l ip answers Hok) as [Hin Hcase].
    pose proof Hok as [_ Hs Ht]. split; [done| |].
    + apply all_seen_insert; [|done]. by apply current_start.
    + intros ip'. rewrite rate_times_cons. cbn [set_entries entries window maxCount]. case_bool_decide as E.
      * subst ip'. rewrite lookup_insert_eq. cbn [fmap option_fmap option_map]. unfold pair_of. cbn [windowStart count].
        destruct (Z.geb_spec (current l ip now').2 (maxCount l)) as [Hge|Hlt]; cbn [negb andb].
        -- rewrite Z.add_0_r. destruct Hcase as [Hcase|[E _]]; [|rewrite E in Hge; cbn in Hge; lia].
           by rewrite <- surjective_pairing.
        -- destruct Hcase as [Hcase|[E Hcase]]; [|rewrite E; cbn; by apply tracks_open; try lia].
           apply tracks_admit; [done|done|]. by rewrite <- surjective_pairing.
      * rewrite lookup_insert_ne by done. apply Ht.
  - pose proof Hok as [_ Hs Ht]. split; [done| |].
    + intros ip st He. cbn in He. apply map_lookup_filter_Some in He as [He _]. by eapply Hs.
    + intros ip. cbn [cleanup set_entries entries window maxCount]. specialize (Ht ip).
      destruct (filter _ (entries l) !! ip) as [st|] eqn:Hf.
      * apply map_lookup_filter_Some in Hf as [He _]. rewrite He in Ht. exact Ht.
      * destruct (entries l !! ip) as [st|] eqn:He; [|exact Ht].
        apply map_lookup_filter_None in Hf as [Hn|Hn]; [congruence|]. specialize (Hn st He). cbn in Hn, Ht.
        destruct (stale l now' st) eqn:Hst; [|done]. apply stale_over in Hst; [|done|by eapply Hs].
        eapply tracks_drop; [lia|exact Hst|exact Ht].
Qed.

(** What the media-side limiter guarantees: with sweeps at any moments, no
    address is admitted more than twice the limit in any interval of one window. *)
Theorem rate_limit_bounds maxCount window now ops ip a :
  0 < maxCount → 0 < window <= maxInt64 → ordered now ops →
  len (within window a (times ip (run ops (New maxCount window)).2)) <= 2 * maxCount.
Proof.
  intros Hm Hw Hord. unfold run.
  assert (Hgen : ∀ ops now l answers, RateLimit.window l = window → RateLimit.maxCount l = maxCount →
            limiter_ok now l answers → ordered now ops →
            len (within window a (times ip (foldl step (l, answers) ops).2)) <= 2 * maxCount).
  { clear now ops Hord. induction ops as [|o ops IH]; intros now l answers Hwl Hml Hok Hord.
    - pose proof (lo_tracks _ _ _ Hok ip) as Ht. rewrite Hwl, Hml in Ht. eapply tracks_bound; [lia|lia|exact Ht].
    - cbn in Hord. destruct Hord as (Hle & Hi & Hord). cbn [foldl]. pose proof (rate_step_ok now o l answers Hle Hi Hok) as Hok'.
      assert (Hk : RateLimit.window (step (l, answers) o).1 = window ∧ RateLimit.maxCount (step (l, answers) o).1 = maxCount).
      { destruct o; cbn [step fst snd]; [|done]. unfold Allow. by repeat case_if. }
      destruct (step (l, answers) o) as [l1 answers1]. apply (IH (op_now o)); tauto. }
  apply (Hgen ops now); [done|done| |done]. split; [done| |].
  - intros ip' st He. cbn in He. by rewrite lookup_empty in He.
  - intros ip'. cbn. rewrite lookup_empty. apply tracks_empty.
Qed.

Definition example_ops : list op :=
  [CAllow "10.0.0.1" (1 * Second); CAllow "10.0.0.1" (2 * Second); CAllow "10.0.0.1" (3 * Second);
   CSweep (300 * Second); CAllow "10.0.0.1" (301 * Second)].

Lemma sweeps_invisible_witness :
  map snd (run example_ops (New 2 Minute)).2 = [true; false; true; true] ∧
  (run example_ops (New 2 Minute)).2 = (run (without_sweeps example_ops) (New 2 Minute)).2.
Proof.
  split; [vm_compute; reflexivity|]. apply (sweeps_invisible 2 Minute 0 example_ops); vm_compute; repeat split; congruence.
Defined.

Lemma rate_limit_bounds_witness :
  len (within Minute 0 (times "10.0.0.1" (run example_ops (New 2 Minute)).2)) <= 2 * 2.
Proof. apply (rate_limit_bounds 2 Minute 0 example_ops "10.0.0.1" 0); vm_compute; repeat split; congruence. Defined.
End RateLimit.

(** ** internal/admission/gate.go

    The loads and compare-and-swaps of any number of goroutines interleave. *)
Module Gate.

(** Where a goroutine is in [TryAcquire] or [Release]; a loaded value is the
    operand of its next compare-and-swap. *)
Inductive pc := Idle | Acquire (loaded : option Z) | Release (loaded : option Z).

(** [held]: the acquisitions of the goroutine that it has not released yet. *)
Record thread := mkThread { at_pc : pc; held : Z }.
Record state := mkState { limit : Z; active : Z; threads : list thread }.

Definition NewGate (limit : Z) : state := mkState limit 0 [].

Definition set_thread (i : nat) (t : thread) (a : Z) (s : state) : state :=
  mkState (limit s) a (<[i := t]> (threads s)).

Inductive action := Spawn | CallAcquire | CallRelease | Run.

(** One atomic action of goroutine [i].  A call of [Release] is made by a holder. *)
Definition step (i : nat) (a : action) (s : state) : state :=
  match a with
  | Spawn => mkState (limit s) (active s) (threads s ++ [mkThread Idle 0])
  | _ =>
    match threads s !! i with
    | None => s
    | Some t =>
      match a, at_pc t with
      | CallAcquire, Idle => set_thread i (mkThread (Acquire None) (held t)) (active s) s
      | CallRelease, Idle => if held t >? 0 then set_thread i (mkThread (Release None) (held t)) (active s) s else s
      | Run, Acquire None =>
        if active s >=? limit s then set_thread i (mkThread Idle (held t)) (active s) s
        else set_thread i (mkThread (Acquire (Some (active s))) (held t)) (active s) s
      | Run, Acquire (Some loaded) =>
        if active s =? loaded then set_thread i (mkThread Idle (held t + 1)) (loaded + 1) s
        else set_thread i (mkThread (Acquire None) (held t)) (active s) s
      | Run, Release None =>
        if active s =? 0 then set_thread i (mkThread Idle (held t)) (active s) s
        else set_thread i (mkThread (Release (Some (active s))) (held t)) (active s) s
      | Run, Release (Some loaded) =>
        if active s =? loaded then set_thread i (mkThread Idle (held t - 1)) (loaded - 1) s
        else set_thread i (mkThread (Release None) (held t)) (active s) s
      | _, _ => s
      end
    end
  end.

Definition run (schedule : list (nat * action)) (s : state) : state := foldl (λ s ia, step ia.1 ia.2 s) s schedule.

Definition holds (s : state) : Z := foldr (λ t n, held t + n) 0 (threads s).

Definition thread_ok (limit : Z) (t : thread) : Prop :=
  0 <= held t ∧
  match at_pc t with
  | Idle => True
  | Acquire None => True
  | Acquire (Some loaded) => loaded < limit
  | Release _ => 0 < held t
  end.

Record gate_ok (s : state) : Prop := {
  go_threads : Forall (thread_ok (limit s)) (threads s);
  go_active : active s = holds s;
  go_limit : active s <= Z.max 0 (limit s) }.

Lemma sum_insert (l : list thread) i t t' :
  l !! i = Some t →
  foldr (λ t n, held t + n) 0 (<[i := t']> l) = foldr (λ t n, held t + n) 0 l + held t' - held t.
Proof.
  revert i. induction l as [|x l IH]; intros [|i] Hi; [done|done| |].
  - cbn in Hi. injection Hi as ->. cbn. lia.
  - change (<[S i := t']> (x :: l)) with (x :: <[i := t']> l). cbn [foldr]. rewrite (IH i Hi). lia.
Qed.

Lemma sum_nonneg l : Forall (λ t, 0 <= held t) l → 0 <= foldr (λ t n, held t + n) 0 l.
Proof. induction 1; cbn; lia. Qed.

Lemma sum_ge l i t : Forall (λ t, 0 <= held t) l → l !! i = Some t → held t <= foldr (λ t n, held t + n) 0 l.
Proof.
  intros Hl. revert i. induction Hl as [|x l Hx Hl IH]; intros [|i] Hi; cbn in *; [done|done| |].
  - injection Hi as ->. pose proof (sum_nonneg l Hl). lia.
  - specialize (IH i Hi). lia.
Qed.

(** Replacing a thread keeps the invariant when the counter follows what it holds. *)
Lemma ok_set i t t' a s :
  gate_ok s → threads s !! i = Some t → thread_ok (limit s) t' → a = active s + held t' - held t →
  a <= Z.max 0 (limit s) → gate_ok (set_thread i t' a s).
Proof.
  intros [Ht Ha Hl] Hi Hok Hd Hmax. split; cbn [set_thread limit active threads]; [|unfold holds; cbn [threads set_thread]|done].
  - apply Forall_insert; [done|done].
  - rewrite (sum_insert _ _ t) by done. rewrite Hd, Ha. done.
Qed.

Lemma gate_step_ok i a s : gate_ok s → gate_ok (step i a s).
Proof.
  intros Hok. pose proof Hok as [Ht Ha Hl]. assert (Hnn : Forall (λ t, 0 <= held t) (threads s)).
  { eapply Forall_impl; [exact Ht|]. by intros t [? _]. }
  destruct a; cbn [step].
  - split; cbn [limit active threads]; [|unfold holds in *; cbn [threads]|done].
    + apply Forall_app_2; [done|]. by repeat constructor.
    + rewrite foldr_app. exact Ha.
  - destruct (threads s !! i) as [t|] eqn:Hi; [|done]. pose proof (proj1 (Forall_lookup _ _) Ht i t Hi) as [Hh _].
    destruct (at_pc t); [|done..]. apply (ok_set i t); [done|done|done|cbn; lia|lia].
  - destruct (threads s !! i) as [t|] eqn:Hi; [|done]. pose proof (proj1 (Forall_lookup _ _) Ht i t Hi) as [Hh _].
    destruct (at_pc t); [|done..]. destruct (Z.gtb_spec (held t) 0); [|done].
    apply (ok_set i t); [done|done|split; cbn; lia|cbn; lia|lia].
  - destruct (threads s !! i) as [t|] eqn:Hi; [|done]. pose proof (proj1 (Forall_lookup _ _) Ht i t Hi) as [Hh Hpc].
    pose proof (sum_ge _ i t Hnn Hi) as Hge. unfold holds in Ha. destruct (at_pc t) as [|[loaded|]|[loaded|]]; [done|..].
    + destruct (Z.eqb_spec (active s) loaded) as [E|E]; apply (ok_set i t); try done; try (cbn; lia); split; cbn; (lia || done).
    + destruct (Z.geb_spec (active s) (limit s)); apply (ok_set i t); try done; try (cbn; lia).
    + destruct (Z.eqb_spec (active s) loaded) as [E|E]; apply (ok_set i t); try done; try (cbn; lia); split; cbn; (lia || done).
    + destruct (Z.eqb_spec (active s) 0) as [E|E]; apply (ok_set i t); try done; try (cbn; lia).
Qed.

Lemma gate_run_ok schedule s : gate_ok s → gate_ok (run schedule s).
Proof. revert s. induction schedule as [|[i a] l IH]; intros s Hs; [done|]. cbn. by apply IH, gate_step_ok. Qed.

Lemma gate_new_ok limit : gate_ok (NewGate limit).
Proof. split; cbn; [constructor|done|lia]. Qed.

(** The gate bounds concurrent work.  However the goroutines' loads and
    compare-and-swaps interleave, the counter is exactly the number of
    acquisitions not yet released, it is never negative and never above the
    limit; and a goroutine that runs its next two actions undisturbed acquires
    exactly when the gate is not full. *)
Theorem gate_bounds limit schedule :
  let s := run schedule (NewGate limit) in
  active s = holds s ∧ 0 <= active s <= Z.max 0 limit ∧
  (∀ i t, threads s !! i = Some t → at_pc t = Acquire None →
     let s' := step i Run (step i Run s) in
     if active s <? limit then active s' = active s + 1 ∧ threads s' !! i = Some (mkThread Idle (held t + 1))
     else active s' = active s ∧ threads s' !! i = Some (mkThread Idle (held t))).
Proof.
  intros s. pose proof (gate_run_ok schedule _ (gate_new_ok limit)) as Hok. fold s in Hok.
  assert (Hlim : Gate.limit s = limit).
  { unfold s. clear. generalize (eq_refl : Gate.limit (NewGate limit) = limit). generalize (NewGate limit).
    induction schedule as [|[i a] l IH]; intros s Hs; [done|]. cbn. apply IH. rewrite <- Hs. unfold step. by repeat case_match. }
  destruct Hok as [Ht Ha Hl]. rewrite Hlim in Hl. assert (Hnn : 0 <= active s).
  { rewrite Ha. apply sum_nonneg. eapply Forall_impl; [exact Ht|]. by intros t [? _]. }
  split_and!; [done|done|done|]. intros i t Hi Hpc. pose proof (lookup_lt_Some _ _ _ Hi) as Hlt. cbv zeta.
  assert (Hlook : ∀ t' a, threads (set_thread i t' a s) !! i = Some t').
  { intros t' a. cbn. by apply list_lookup_insert_eq. }
  destruct (Z.ltb_spec (active s) limit) as [H|H].
  - assert (E1 : step i Run s = set_thread i (mkThread (Acquire (Some (active s))) (held t)) (active s) s).
    { unfold step. rewrite Hi, Hpc, Hlim, Z.geb_leb, (proj2 (Z.leb_gt _ _)) by done. done. }
    rewrite E1. unfold step. rewrite Hlook. cbn [at_pc active set_thread held]. rewrite Z.eqb_refl. cbn [active threads set_thread].
    split; [done|]. apply list_lookup_insert_eq. by rewrite length_insert.
  - assert (E1 : step i Run s = set_thread i (mkThread Idle (held t)) (active s) s).
    { unfold step. rewrite Hi, Hpc, Hlim, Z.geb_leb, (proj2 (Z.leb_le _ _)) by lia. done. }
    rewrite E1. unfold step. rewrite Hlook. cbn [at_pc]. split; [done|apply Hlook].
Qed.
End Gate.
