(* ===== verification/ServerPolicy.v ===== *)
(** * Server policies

    Translates the decisions of [internal/server] that need no WebRTC state:
    which bus a publisher's track attaches to ([publish_buses.go]), the encoder
    hints and ICE restarts that packet loss triggers ([codec_hint.go],
    [ice_restart.go]) and TURN credentials ([internal/turn/auth.go],
    [access/turn/auth.go]). *)

From stdpp Require Import pretty.
From S2P Require Export NamePolicy Access.

(** ** publish_buses.go *)
Module PublishBuses.
Import Token.

Definition maxPublishBusBindings : Z := 16.
Definition maxPublishIdentifier : Z := 64.

Inductive plan_error :=
| errAmbiguousPublishBus | errPublishBusCount | errPublishBusIdentity | errPublishBusDuplicate
| errPublishBusScope | errPublishTrackUnknown | errPublishTrackClaimed.

Record PublishBusBinding := mkBinding { StreamID : string; BusID : string }.

(** The fields of a [ClientMessage] that matter; an absent list is [None]. *)
Record ClientMessage := mkMessage { mBusID : string; mPublishBuses : option (list PublishBusBinding) }.

Record publishBusPlan := mkPlan {
  legacyBusID : string;
  byStreamID : gmap string string;
  claimed : gset string }.

Definition validPublishIdentifier (value : string) : bool :=
  if (string_len value =? 0) || (string_len value >? maxPublishIdentifier) then false
  else forallb identifier_character (String.list_ascii_of_string value).

(** The loop over the bindings; [busIDs] are the buses bound so far. *)
Fixpoint bind_streams (claims : Claims) (bindings : list PublishBusBinding) (byStreamID : gmap string string)
    (busIDs : gset string) : result plan_error (gmap string string) :=
  match bindings with
  | [] => Ok byStreamID
  | b :: bindings' =>
    if negb (validPublishIdentifier (StreamID b)) || negb (validPublishIdentifier (BusID b)) then Err errPublishBusIdentity
    else if negb (AllowsBus claims (BusID b)) then Err errPublishBusScope
    else if bool_decide (is_Some (byStreamID !! StreamID b)) then Err errPublishBusDuplicate
    else if bool_decide (BusID b ∈ busIDs) then Err errPublishBusDuplicate
    else bind_streams claims bindings' (<[StreamID b := BusID b]> byStreamID) ({[BusID b]} ∪ busIDs)
  end.

Definition newPublishBusPlan (message : ClientMessage) (claims : Claims) : result plan_error publishBusPlan :=
  match mPublishBuses message with
  | None =>
    let busID := if bool_decide (mBusID message = "")
                 then match cBusIDs claims with [b] => b | _ => "" end
                 else mBusID message in
    if bool_decide (busID = "") || negb (AllowsBus claims busID) then Err errPublishBusScope
    else Ok (mkPlan busID ∅ ∅)
  | Some bindings =>
    if negb (bool_decide (mBusID message = "")) then Err errAmbiguousPublishBus
    else if (len bindings =? 0) || (len bindings >? maxPublishBusBindings) then Err errPublishBusCount
    else match bind_streams claims bindings ∅ ∅ with
         | Ok byStreamID => Ok (mkPlan "" byStreamID ∅)
         | Err e => Err e
         end
  end.

Definition primaryBusID (plan : publishBusPlan) : string := legacyBusID plan.

Definition claim (streamID : string) (plan : publishBusPlan) : publishBusPlan * result plan_error string :=
  let mark := mkPlan (legacyBusID plan) (byStreamID plan) ({[streamID]} ∪ claimed plan) in
  if negb (bool_decide (legacyBusID plan = ""))
  then if bool_decide (claimed plan = ∅) then (mark, Ok (legacyBusID plan)) else (plan, Err errPublishTrackClaimed)
  else match byStreamID plan !! streamID with
       | None => (plan, Err errPublishTrackUnknown)
       | Some busID => if bool_decide (streamID ∈ claimed plan) then (plan, Err errPublishTrackClaimed) else (mark, Ok busID)
       end.

(** The tracks of a publisher arrive in some order; the log has the attached
    ones. *)
Definition track (acc : publishBusPlan * list (string * string)) (streamID : string)
  : publishBusPlan * list (string * string) :=
  match claim streamID acc.1 with
  | (plan, Ok busID) => (plan, (streamID, busID) :: acc.2)
  | (plan, Err _) => (plan, acc.2)
  end.

(** *** Correctness *)

Record bindings_ok (claims : Claims) (m : gmap string string) (busIDs : gset string) : Prop := {
  bo_scope : ∀ s b, m !! s = Some b → AllowsBus claims b = true ∧ b ∈ busIDs;
  bo_inj : ∀ s s' b, m !! s = Some b → m !! s' = Some b → s = s' }.

Lemma bind_streams_ok claims bindings m busIDs m' :
  bindings_ok claims m busIDs → bind_streams claims bindings m busIDs = Ok m' →
  Z.of_nat (size m') = Z.of_nat (size m) + len bindings ∧ ∃ busIDs', bindings_ok claims m' busIDs'.
Proof.
  revert m busIDs. induction bindings as [|b bindings IH]; intros m busIDs Hok; cbn [bind_streams].
  { intros [= <-]. unfold len. cbn. split; [lia|eauto]. }
  case_if; [done|]. destruct (AllowsBus claims (BusID b)) eqn:Ha; [|done]. cbn [negb].
  case_bool_decide as Hs; [done|]. case_bool_decide as Hb; [done|]. intros Hm. apply IH in Hm as [Hsize Hex].
  - split; [|exact Hex]. rewrite Hsize, map_size_insert_None by (by apply eq_None_not_Some). unfold len. cbn. lia.
  - destruct Hok as [Hsc Hinj]. split.
    + intros s x [[<- <-]|[_ Hx]]%lookup_insert_Some; [split; [done|set_solver]|]. destruct (Hsc s x Hx). split; [done|set_solver].
    + intros s s' x [[<- <-]|[_ Hx]]%lookup_insert_Some [[<- Ex]|[_ Hx']]%lookup_insert_Some; [done| | |by eapply Hinj].
      * destruct (Hsc _ _ Hx') as [_ ?]. done.
      * subst x. destruct (Hsc _ _ Hx) as [_ ?]. done.
Qed.

(** The bus a stream is meant for. *)
Definition binds (plan : publishBusPlan) (s b : string) : Prop :=
  if bool_decide (legacyBusID plan = "") then byStreamID plan !! s = Some b else b = legacyBusID plan.

Record plan_ok (claims : Claims) (plan : publishBusPlan) (log : list (string * string)) : Prop := {
  po_scope : ∀ s b, binds plan s b → AllowsBus claims b = true;
  po_inj : legacyBusID plan = "" → ∀ s s' b, byStreamID plan !! s = Some b → byStreamID plan !! s' = Some b → s = s';
  po_size : Z.of_nat (size (byStreamID plan)) <= maxPublishBusBindings;
  po_log : Forall (λ e, binds plan e.1 e.2) log;
  po_claimed : ∀ s, s ∈ claimed plan ↔ s ∈ log.*1;
  po_once : NoDup log.*1;
  po_legacy : legacyBusID plan ≠ "" → len log <= 1 }.

Lemma empty_log_ok claims legacy m :
  (∀ s b, binds (mkPlan legacy m ∅) s b → AllowsBus claims b = true) →
  (legacy = "" → ∀ s s' b, m !! s = Some b → m !! s' = Some b → s = s') →
  Z.of_nat (size m) <= maxPublishBusBindings → plan_ok claims (mkPlan legacy m ∅) [].
Proof.
  intros Hsc Hinj Hsize. split; cbn; [done|done|done|constructor| |constructor|done].
  intros s. rewrite elem_of_nil. split; [|done]. apply not_elem_of_empty.
Qed.

Lemma new_plan_ok message claims plan : newPublishBusPlan message claims = Ok plan → plan_ok claims plan [].
Proof.
  unfold newPublishBusPlan. destruct (mPublishBuses message) as [bindings|].
  - case_if; [done|]. case_if; [done|]. rename E0 into Hlen.
    destruct (bind_streams claims bindings ∅ ∅) as [m|] eqn:Hm; [|done]. intros [= <-].
    destruct (bind_streams_ok claims bindings ∅ ∅ m) as [Hsize [busIDs [Hsc Hinj]]]; [split; intros *; by rewrite lookup_empty|done|].
    rewrite map_size_empty in Hsize. bool_hyps. apply empty_log_ok; cbn; [|intros _; exact Hinj|lia].
    intros s b Hb. by apply (Hsc s b).
  - cbv zeta. generalize (if bool_decide (mBusID message = "") then match cBusIDs claims with [b] => b | _ => "" end else mBusID message).
    intros busID. destruct (bool_decide (busID = "")) eqn:Hb; [done|]. cbn [orb].
    destruct (AllowsBus claims busID) eqn:Ha; [|done]. intros [= <-]. apply bool_decide_eq_false in Hb.
    apply empty_log_ok; cbn; [|done|rewrite map_size_empty; unfold maxPublishBusBindings; lia].
    intros s b. unfold binds. cbn. rewrite bool_decide_false by done. by intros ->.
Qed.

Lemma track_ok claims plan log s : plan_ok claims plan log → plan_ok claims (track (plan, log) s).1 (track (plan, log) s).2.
Proof.
  intros Hok. pose proof Hok as [Hsc Hinj Hsize Hlog Hcl Honce Hleg]. unfold track, claim. cbn [fst snd].
  set (mark := mkPlan _ _ _).
  assert (Hmark : ∀ b, binds plan s b → s ∉ log.*1 → (legacyBusID plan ≠ "" → log = []) → plan_ok claims mark ((s, b) :: log)).
  { intros b Hb Hn Hl. split; cbn; try done.
    - by constructor.
    - intros s'. rewrite elem_of_union, elem_of_singleton, elem_of_cons. by rewrite Hcl.
    - by constructor.
    - intros Hne. rewrite (Hl Hne). unfold len. cbn. lia. }
  assert (Hnil : claimed plan = ∅ → log = []).
  { intros E. destruct log as [|e log]; [done|]. assert (He : e.1 ∈ claimed plan) by (apply Hcl; left). rewrite E in He. set_solver. }
  case_bool_decide as Hl; cbn [negb].
  - destruct (byStreamID plan !! s) as [b|] eqn:Hs; [|exact Hok]. case_bool_decide as Hin; [exact Hok|]. cbn [fst snd].
    apply Hmark; [unfold binds; by rewrite bool_decide_true|by rewrite <- Hcl|done].
  - case_bool_decide as Hc; [|exact Hok]. cbn [fst snd]. apply Hmark; [unfold binds; by rewrite bool_decide_false| |auto].
    rewrite (Hnil Hc). apply not_elem_of_nil.
Qed.

Lemma NoDup_snd {A B} (l : list (A * B)) :
  NoDup l.*1 → (∀ e e', e ∈ l → e' ∈ l → e.2 = e'.2 → e.1 = e'.1) → NoDup l.*2.
Proof.
  induction l as [|e l IH]; cbn; intros Hnd Hinj; [constructor|]. apply NoDup_cons in Hnd as [Hn Hnd]. constructor.
  - intros (e' & He' & Hin)%list_elem_of_fmap. apply Hn. apply list_elem_of_fmap. exists e'. split; [|done].
    apply Hinj; [left|by right|done].
  - apply IH; [done|]. intros e1 e2 H1 H2. apply Hinj; by right.
Qed.

Lemma NoDup_in_dom (l : list string) (m : gmap string string) :
  NoDup l → (∀ s, s ∈ l → is_Some (m !! s)) → len l <= Z.of_nat (size m).
Proof.
  intros Hnd Hin. unfold len. rewrite <- (size_list_to_set (C := gset string) l Hnd), <- (size_dom m).
  apply inj_le, subseteq_size. intros s Hs. apply elem_of_dom, Hin. by apply elem_of_list_to_set in Hs.
Qed.

(** A publisher attaches each declared bus at most once, and only buses its
    capability names.  Whatever tracks arrive, the tracks attached under an
    accepted plan have distinct streams and distinct buses, every one of them in
    the scope of the claims, at most sixteen, and at most one without a list of
    bindings. *)
Theorem publish_plan_exclusive message claims plan streams :
  newPublishBusPlan message claims = Ok plan →
  let log := (foldl track (plan, []) streams).2 in
  NoDup log.*1 ∧ NoDup log.*2 ∧ Forall (λ e, AllowsBus claims e.2 = true) log ∧
  len log <= (if bool_decide (legacyBusID plan = "") then 16 else 1).
Proof.
  intros Hp. apply new_plan_ok in Hp.
  assert (Hrun : ∀ ss acc, plan_ok claims acc.1 acc.2 →
            plan_ok claims (foldl track acc ss).1 (foldl track acc ss).2 ∧ legacyBusID (foldl track acc ss).1 = legacyBusID acc.1).
  { induction ss as [|s ss IH]; intros [p l] Hok; [done|]. cbn [foldl]. destruct (IH (track (p, l) s)) as [H1 H2]; [by apply track_ok|].
    split; [done|]. rewrite H2. unfold track, claim. repeat case_match; simplify_eq; done. }
  destruct (Hrun streams (plan, []) Hp) as [[Hsc Hinj Hsize Hlog Hcl Honce Hleg] Hkeep]. cbn [fst] in Hkeep. rewrite <- Hkeep.
  destruct (foldl track (plan, []) streams) as [p log]. cbn [fst snd] in *. rewrite Forall_forall in Hlog. split_and!; [done| | |].
  - apply NoDup_snd; [done|]. intros e e' He He' E2. destruct (decide (legacyBusID p = "")) as [Hl|Hl].
    + pose proof (Hlog e He) as B1. pose proof (Hlog e' He') as B2. unfold binds in B1, B2. rewrite bool_decide_true in B1, B2 by done.
      rewrite E2 in B1. by eapply Hinj.
    + specialize (Hleg Hl). destruct log as [|x [|y log]]; [by apply not_elem_of_nil in He| |unfold len in Hleg; cbn in Hleg; lia].
      apply list_elem_of_singleton in He, He'. congruence.
  - apply Forall_forall. intros e He. apply (Hsc e.1), Hlog, He.
  - case_bool_decide as Hl; [|by apply Hleg]. change 16 with maxPublishBusBindings. etransitivity; [|exact Hsize].
    replace (len log) with (len log.*1) by (unfold len; by rewrite length_fmap). apply NoDup_in_dom; [done|].
    intros s (e & -> & He)%list_elem_of_fmap. specialize (Hlog e He). unfold binds in Hlog. rewrite bool_decide_true in Hlog by done. eauto.
Qed.

(** A source of two buses declares both; its tracks arrive, one of them twice. *)
Definition example_claims : Claims := new_claims "s-1" "" ["voice"; "music"] RoleSource false.
Definition example_message : ClientMessage := mkMessage "" (Some [mkBinding "st-1" "voice"; mkBinding "st-2" "music"]).
Definition example_plan : publishBusPlan :=
  match newPublishBusPlan example_message example_claims with Ok p => p | Err _ => mkPlan "" ∅ ∅ end.

Lemma publish_plan_exclusive_witness :
  (foldl track (example_plan, []) ["st-2"; "st-1"; "st-2"; "st-9"]).2 = [("st-1", "voice"); ("st-2", "music")] ∧
  NoDup (foldl track (example_plan, []) ["st-2"; "st-1"; "st-2"; "st-9"]).2.*2.
Proof.
  split; [vm_compute; reflexivity|].
  apply (publish_plan_exclusive example_message example_claims example_plan ["st-2"; "st-1"; "st-2"; "st-9"]).
  vm_compute. reflexivity.
Defined.
End PublishBuses.

(** ** codec_hint.go and ice_restart.go

    A receiver report's loss is a byte [k], the fraction [k/256].  The source
    compares it as a float64; [k/256] is exact in that format, and no [k/256] lies
    between one of the thresholds and the float64 nearest to it, so the
    comparisons are those of the rationals. *)
Module LossPolicy.
Import Token.

Definition exceeds (percent k : Z) : bool := k * 100 >? percent * 256.

Definition bitrateHighKbps : Z := 64.
Definition bitrateMediumKbps : Z := 32.
Definition bitrateLowKbps : Z := 16.
Definition lossLowLatencyThreshold : Z := 1.
Definition lossMediumThreshold : Z := 2.
Definition lossHighThreshold : Z := 5.
Definition codecHintDebounce : Z := 2 * Second.

Record CodecHintPayload := mkHint { BitRateKbps : Z; Complexity : Z; Fec : bool; Dtx : bool; FrameMs : Z }.

Definition bitrateForLoss (fractionLost : Z) : CodecHintPayload :=
  if exceeds lossHighThreshold fractionLost then mkHint bitrateLowKbps 3 true true 20
  else if exceeds lossMediumThreshold fractionLost then mkHint bitrateMediumKbps 5 true false 20
  else if exceeds lossLowLatencyThreshold fractionLost then mkHint bitrateHighKbps 5 false false 20
  else mkHint bitrateHighKbps 5 false false 10.

(** A signaling peer: the room it is in, and its role. *)
Record signalPeer := mkPeer { peer_id : string; room : option string; peer_role : Role }.

(** The source peer of a room; the order of the list is the map's iteration. *)
Definition sourcePeer (roomID : string) (peers : list signalPeer) : option signalPeer :=
  List.find (λ p, bool_decide (room p = Some roomID) && bool_decide (peer_role p = RoleSource)) peers.

Inductive ServerMessage := CodecHint (hint : CodecHintPayload) | ICERestart (useTURN : bool).

(** [state] is [lastSent]; the second result says whether the debounce passed. *)
Definition maybeEmitCodecHint (roomID : string) (hint : CodecHintPayload) (peers : list signalPeer) (now lastSent : Z)
  : Z * bool * option (signalPeer * ServerMessage) :=
  if Sub now lastSent <? codecHintDebounce then (lastSent, false, None)
  else (now, true, option_map (λ p, (p, CodecHint hint)) (sourcePeer roomID peers)).

(** The instants at which hints pass the debounce, newest first. *)
Definition hint_step (acc : Z * list Z) (now : Z) : Z * list Z :=
  let '(lastSent, sent, _) := maybeEmitCodecHint "" (bitrateForLoss 0) [] now acc.1 in
  (lastSent, if sent then now :: acc.2 else acc.2).

Definition iceRestartDebounce : Z := 30 * Second.
Definition lossICEThreshold : Z := 15.
Definition iceRestartConsecutiveRequired : Z := 3.

(** [iceRestartState] with its tracker. *)
Record iceRestartState := mkIce { consecutiveHighLoss : Z; lastSent : Z }.
Definition newICERestartState : iceRestartState := mkIce 0 zero_time.

Definition record (lossRate : Z) (s : iceRestartState) : iceRestartState * bool :=
  let n := if exceeds lossICEThreshold lossRate then consecutiveHighLoss s + 1 else 0 in
  (mkIce n (lastSent s), n >=? iceRestartConsecutiveRequired).

Definition maybeEmitICERestart (roomID : string) (fractionLost : Z) (useTURN : bool) (peers : list signalPeer) (now : Z)
    (s : iceRestartState) : iceRestartState * bool * option (signalPeer * ServerMessage) :=
  let '(s, triggered) := record fractionLost s in
  if negb triggered then (s, false, None)
  else if Sub now (lastSent s) <? iceRestartDebounce then (s, false, None)
  else (mkIce 0 now, true, option_map (λ p, (p, ICERestart useTURN)) (sourcePeer roomID peers)).

(** *** Tiers *)

(** The hint for every loss a report can carry: below one percent 64 kbit/s in
    10 ms frames, to two percent in 20 ms frames, to five percent 32 kbit/s with
    forward error correction, above it 16 kbit/s with discontinuous transmission;
    more loss never asks for a higher bitrate, and error correction is on exactly
    from the medium tier. *)
Theorem codec_hint_tiers k :
  0 <= k < 256 →
  bitrateForLoss k =
    (if k <=? 2 then mkHint 64 5 false false 10 else if k <=? 5 then mkHint 64 5 false false 20
     else if k <=? 12 then mkHint 32 5 true false 20 else mkHint 16 3 true true 20) ∧
  (∀ k', k <= k' → BitRateKbps (bitrateForLoss k') <= BitRateKbps (bitrateForLoss k)).
Proof.
  intros Hk.
  assert (Hval : ∀ x, bitrateForLoss x =
    (if x <=? 2 then mkHint 64 5 false false 10 else if x <=? 5 then mkHint 64 5 false false 20
     else if x <=? 12 then mkHint 32 5 true false 20 else mkHint 16 3 true true 20)).
  { intros x. unfold bitrateForLoss, exceeds, lossHighThreshold, lossMediumThreshold, lossLowLatencyThreshold.
    destruct (Z.gtb_spec (x * 100) (5 * 256)), (Z.gtb_spec (x * 100) (2 * 256)), (Z.gtb_spec (x * 100) (1 * 256)),
      (Z.leb_spec x 2), (Z.leb_spec x 5), (Z.leb_spec x 12); (done || lia). }
  split; [apply Hval|]. intros k' Hle. rewrite !Hval.
  destruct (Z.leb_spec k 2), (Z.leb_spec k 5), (Z.leb_spec k 12), (Z.leb_spec k' 2), (Z.leb_spec k' 5), (Z.leb_spec k' 12); cbn; lia.
Qed.

Lemma codec_hint_tiers_witness : BitRateKbps (bitrateForLoss 200) <= BitRateKbps (bitrateForLoss 13).
Proof. apply (codec_hint_tiers 13); lia. Defined.

(** *** Debouncing *)

(** Instants, newest first, at least [d] apart. *)
Fixpoint apart (d : Z) (l : list Z) : Prop :=
  match l with
  | t :: ((t' :: _) as l') => t' + d <= t ∧ apart d l'
  | _ => True
  end.

(** The last instant sent, or the zero time. *)
Definition last_sent (l : list Z) : Z := match l with t :: _ => t | [] => zero_time end.

Lemma debounce_false d now last : 0 < d <= maxInt64 → (Sub now last <? d) = false ↔ last + d <= now.
Proof. intros Hd. unfold Sub, sat64. rewrite Z.ltb_ge. unfold_ints. lia. Qed.

(** Hints are rationed: whatever reports arrive, at most one hint is sent to the
    source of a Session in any two seconds. *)
Theorem codec_hints_apart times :
  let '(lastSent, sent) := foldl hint_step (zero_time, []) times in
  apart codecHintDebounce sent ∧ lastSent = last_sent sent.
Proof.
  assert (H : ∀ acc, apart codecHintDebounce acc.2 → acc.1 = last_sent acc.2 →
            apart codecHintDebounce (foldl hint_step acc times).2 ∧ (foldl hint_step acc times).1 = last_sent (foldl hint_step acc times).2).
  { induction times as [|now times IH]; intros [last sent] Ha Hl; [done|]. cbn [foldl fst snd] in *. apply IH.
    - unfold hint_step, maybeEmitCodecHint. cbn [fst snd]. destruct (Sub now last <? codecHintDebounce) eqn:E; [done|]. cbn [snd].
      apply debounce_false in E; [|by unfold codecHintDebounce, Second; unfold_ints; lia].
      destruct sent as [|t sent]; [done|]. cbn in Hl. subst. done.
    - unfold hint_step, maybeEmitCodecHint. cbn [fst snd]. by destruct (Sub now last <? codecHintDebounce). }
  specialize (H (zero_time, []) I eq_refl). by destruct (foldl hint_step (zero_time, []) times).
Qed.

(** *** ICE restarts, from the reports received

    A log of the reports, newest first, with whether each one sent a restart. *)

Definition ice_step (acc : iceRestartState * list (Z * Z * bool)) (report : Z * Z)
  : iceRestartState * list (Z * Z * bool) :=
  let '(s, sent, _) := maybeEmitICERestart "" report.2 false [] report.1 acc.1 in
  (s, (report.1, report.2, sent) :: acc.2).

(** The reports above the threshold since the last other one and the last restart. *)
Fixpoint streak (log : list (Z * Z * bool)) : Z :=
  match log with
  | (_, k, false) :: log' => if exceeds lossICEThreshold k then 1 + streak log' else 0
  | _ => 0
  end.
Definition restarts (log : list (Z * Z * bool)) : list Z := omap (λ e : Z * Z * bool, if e.2 then Some e.1.1 else None) log.

(** When a report should restart ICE. *)
Definition should_restart (log : list (Z * Z * bool)) (now k : Z) : bool :=
  exceeds lossICEThreshold k && (streak log + 1 >=? 3) &&
  match restarts log with t :: _ => t + iceRestartDebounce <=? now | [] => true end.

(** Every entry of the log is what the entries before it call for. *)
Fixpoint justified (log : list (Z * Z * bool)) : Prop :=
  match log with
  | [] => True
  | (now, k, sent) :: log' => sent = should_restart log' now k ∧ justified log'
  end.

Lemma ice_step_ok s log report :
  0 <= report.1 → consecutiveHighLoss s = streak log → lastSent s = last_sent (restarts log) → justified log →
  let '(s', log') := ice_step (s, log) report in
  consecutiveHighLoss s' = streak log' ∧ lastSent s' = last_sent (restarts log') ∧ justified log'.
Proof.
  intros Hnow Hc Hl Hj. destruct report as [now k]. cbn [fst] in Hnow. unfold ice_step, maybeEmitICERestart, record. cbn [fst snd].
  assert (Hd : (Sub now (lastSent s) <? iceRestartDebounce) = negb (match restarts log with t :: _ => t + iceRestartDebounce <=? now | [] => true end)).
  { apply eq_true_iff_eq. rewrite <- not_false_iff_true, debounce_false by (unfold iceRestartDebounce, Second; unfold_ints; lia).
    rewrite Hl. destruct (restarts log) as [|t l]; cbn [last_sent negb].
    - split; [|done]. intros Hn. exfalso. apply Hn. unfold zero_time, iceRestartDebounce, Second. lia.
    - rewrite negb_true_iff, Z.leb_gt. lia. }
  cbn [consecutiveHighLoss lastSent]. unfold iceRestartConsecutiveRequired in *. rewrite Hc.
  assert (Hs : should_restart log now k =
    ((if exceeds lossICEThreshold k then streak log + 1 else 0) >=? 3) && negb (Sub now (lastSent s) <? iceRestartDebounce)).
  { unfold should_restart. rewrite Hd, negb_involutive. by destruct (exceeds lossICEThreshold k). }
  assert (Hfalse : ∀ n, n = (if exceeds lossICEThreshold k then streak log + 1 else 0) → should_restart log now k = false →
            consecutiveHighLoss (mkIce n (lastSent s)) = streak ((now, k, false) :: log) ∧
            lastSent (mkIce n (lastSent s)) = last_sent (restarts ((now, k, false) :: log)) ∧ justified ((now, k, false) :: log)).
  { intros n -> Hsr. cbn. rewrite Hl. split_and!; try done. case_if; lia. }
  destruct ((if exceeds lossICEThreshold k then streak log + 1 else 0) >=? 3); cbn [negb andb] in *; [|by apply Hfalse].
  destruct (Sub now (lastSent s) <? iceRestartDebounce); cbn [negb] in *; [by apply Hfalse|].
  cbn. by rewrite Hs.
Qed.

(** ICE is restarted exactly when it should be: a report sends a restart if and
    only if it and the two reports before it are above fifteen percent loss, all
    since the last restart, and thirty seconds have passed since then. *)
Theorem ice_restart_exact reports :
  Forall (λ r : Z * Z, 0 <= r.1) reports → justified (foldl ice_step (newICERestartState, []) reports).2.
Proof.
  intros Hr.
  assert (H : ∀ acc, consecutiveHighLoss acc.1 = streak acc.2 → lastSent acc.1 = last_sent (restarts acc.2) → justified acc.2 →
            justified (foldl ice_step acc reports).2).
  { induction Hr as [|r reports Hr0 _ IH]; intros [s log] Hc Hl Hj; [done|]. cbn [foldl].
    pose proof (ice_step_ok s log r Hr0 Hc Hl Hj) as Hstep. destruct (ice_step (s, log) r) as [s' log'].
    destruct Hstep as (? & ? & ?). by apply IH. }
  by apply H.
Qed.

Lemma ice_restart_exact_witness :
  let log := (foldl ice_step (newICERestartState, [])
                [(1 * Second, 50); (2 * Second, 60); (3 * Second, 39); (4 * Second, 90); (5 * Second, 90); (6 * Second, 90)]).2 in
  map snd log = [false; false; false; true; false; false] ∧ justified log.
Proof.
  split; [vm_compute; reflexivity|].
  apply (ice_restart_exact [(1 * Second, 50); (2 * Second, 60); (3 * Second, 39); (4 * Second, 90); (5 * Second, 90); (6 * Second, 90)]).
  repeat constructor; vm_compute; congruence.
Defined.
End LossPolicy.

(** ** TURN credentials *)
Module TurnAuth.

(** HMAC-SHA-1 of [crypto]. *)
Class HmacSha1 := hmac_sha1 : list Z → string → list Z.

(** [base64.StdEncoding.EncodeToString] *)
Definition base64_char (n : Z) : Ascii.ascii :=
  Ascii.ascii_of_nat (Z.to_nat
    (if n <? 26 then 65 + n else if n <? 52 then 71 + n else if n <? 62 then n - 4 else if n =? 62 then 43 else 47)).
Definition pad_char : Ascii.ascii := Ascii.ascii_of_nat 61.

Fixpoint base64 (bytes : list Z) : list Ascii.ascii :=
  match bytes with
  | a :: b :: c :: rest =>
    let n := a * 65536 + b * 256 + c in
    base64_char (n / 262144) :: base64_char (n / 4096 mod 64) :: base64_char (n / 64 mod 64) :: base64_char (n mod 64) ::
    base64 rest
  | [a; b] => let n := a * 65536 + b * 256 in
              [base64_char (n / 262144); base64_char (n / 4096 mod 64); base64_char (n / 64 mod 64); pad_char]
  | [a] => let n := a * 65536 in [base64_char (n / 262144); base64_char (n / 4096 mod 64); pad_char; pad_char]
  | [] => []
  end.

Section Turn.
Context `{HmacSha1}.

Definition computePassword (secret : list Z) (username : string) : string :=
  Names.of_chars (base64 (hmac_sha1 secret username)).

(** [Credentials] at [now], of both packages. *)
Definition Credentials (secret : list Z) (roomID : string) (ttl now : Z) : string * string :=
  let expiry := Unix (time_Add now ttl) in
  let username := (NamePolicy.Itoa expiry +:+ ":" +:+ roomID)%string in
  (username, computePassword secret username).

Definition colon : Ascii.ascii := Ascii.ascii_of_nat 58.

(** [strings.SplitN(s, ":", 2)]: what precedes and what follows the first colon. *)
Fixpoint split_colon (l : list Ascii.ascii) : option (list Ascii.ascii * list Ascii.ascii) :=
  match l with
  | [] => None
  | c :: l' =>
    if bool_decide (c = colon) then Some ([], l')
    else match split_colon l' with Some (a, b) => Some (c :: a, b) | None => None end
  end.

Definition Validate (secret : list Z) (username password : string) (now : Z) : bool :=
  match split_colon (Names.chars username) with
  | None => false
  | Some (expiry, _) =>
    match NamePolicy.Atoi (Names.of_chars expiry) with
    | None => false
    | Some expiry => if Unix now >? expiry then false else bool_decide (password = computePassword secret username)
    end
  end.

(** *** strconv round trip *)

Lemma digit_char n : (n < 10)%N → NamePolicy.digit (pretty_N_char n) = Some (Z.of_N n).
Proof.
  intros Hn. assert (Hin : n ∈ (N.of_nat <$> seq 0 10)).
  { apply list_elem_of_fmap. exists (N.to_nat n). split; [by rewrite N2Nat.id|]. apply elem_of_seq. lia. }
  cbn in Hin. repeat (apply elem_of_cons in Hin as [->|Hin]; [reflexivity|]). by apply not_elem_of_nil in Hin.
Qed.

Lemma decimal_pretty_go x s :
  (0 < x)%N → NamePolicy.decimal 0 (Names.chars (pretty_N_go x s)) = NamePolicy.decimal (Z.of_N x) (Names.chars s).
Proof.
  revert s. induction (N.lt_wf_0 x) as [x _ IH]. intros s Hx. rewrite pretty_N_go_step by done.
  destruct (decide (x < 10)%N) as [Hs|Hs].
  - rewrite N.div_small, N.mod_small by done. rewrite pretty_N_go_0. cbn. by rewrite digit_char.
  - rewrite IH; [|apply N.div_lt; lia|apply N.div_str_pos; lia]. cbn. rewrite digit_char by (apply N.mod_lt; lia).
    f_equal. rewrite (N.div_mod x 10) at 3 by lia. lia.
Qed.

(** The characters of a number without its sign. *)
Lemma pretty_go_digits x s :
  Forall (λ c, is_Some (NamePolicy.digit c)) (Names.chars s) →
  Forall (λ c, is_Some (NamePolicy.digit c)) (Names.chars (pretty_N_go x s)).
Proof.
  revert s. induction (N.lt_wf_0 x) as [x _ IH]. intros s Hs. destruct (decide (x = 0)%N) as [->|Hx]; [by rewrite pretty_N_go_0|].
  rewrite pretty_N_go_step by lia. apply IH; [apply N.div_lt; lia|]. cbn. constructor; [|done].
  rewrite digit_char by (apply N.mod_lt; lia). eauto.
Qed.

Lemma pretty_digits p : ∃ c rest, Names.chars (pretty (Npos p)) = c :: rest ∧
  Forall (λ c, is_Some (NamePolicy.digit c)) (c :: rest) ∧ NamePolicy.decimal 0 (c :: rest) = Some (Zpos p).
Proof.
  assert (Hd : NamePolicy.decimal 0 (Names.chars (pretty (Npos p))) = Some (Zpos p)).
  { unfold pretty, pretty_N. rewrite decide_False by done. by rewrite decimal_pretty_go. }
  assert (Hf : Forall (λ c, is_Some (NamePolicy.digit c)) (Names.chars (pretty (Npos p)))).
  { unfold pretty, pretty_N. rewrite decide_False by done. apply pretty_go_digits. constructor. }
  destruct (Names.chars (pretty (Npos p))) as [|c rest]; [done|]. eauto.
Qed.

Lemma digit_not_sign c : is_Some (NamePolicy.digit c) →
  (Ascii.nat_of_ascii c =? 45)%nat = false ∧ (Ascii.nat_of_ascii c =? 43)%nat = false ∧ Ascii.nat_of_ascii c ≠ 58%nat.
Proof.
  unfold NamePolicy.digit. intros [d Hd]. destruct (Z.leb_spec 48 (Z.of_nat (Ascii.nat_of_ascii c))); [|done].
  destruct (Z.leb_spec (Z.of_nat (Ascii.nat_of_ascii c)) 57); [|done]. rewrite !Nat.eqb_neq. lia.
Qed.

(** Parsing a printed number gives it back. *)
Lemma Atoi_Itoa z : is_i64 z → NamePolicy.Atoi (NamePolicy.Itoa z) = Some z.
Proof.
  intros Hz. unfold NamePolicy.Atoi, NamePolicy.Itoa.
  assert (Hr : (minInt64 <=? z) && (z <=? maxInt64) = true) by (unfold_ints; apply andb_true_iff; rewrite !Z.leb_le; lia).
  destruct z as [|p|p]; [reflexivity| |].
  - change (pretty (Zpos p)) with (pretty (Npos p)). destruct (pretty_digits p) as (c & rest & -> & Hf & Hd).
    apply Forall_cons in Hf as [(E1 & E2 & _)%digit_not_sign _]. rewrite E1, E2, Hd. by rewrite Hr.
  - change (pretty (Zneg p)) with ("-" +:+ pretty (Npos p))%string. rewrite Names.chars_app.
    destruct (pretty_digits p) as (c & rest & -> & Hf & Hd). cbn [Names.chars String.list_ascii_of_string app].
    change (Ascii.nat_of_ascii _ =? 45)%nat with true. cbv beta iota zeta. rewrite Hd. change (- Zpos p) with (Zneg p). by rewrite Hr.
Qed.

Lemma Itoa_no_colon z : Forall (λ c, c ≠ colon) (Names.chars (NamePolicy.Itoa z)).
Proof.
  assert (Hp : ∀ p, Forall (λ c, c ≠ colon) (Names.chars (pretty (Npos p)))).
  { intros p. destruct (pretty_digits p) as (c & rest & -> & Hf & _). eapply Forall_impl; [exact Hf|].
    intros x (_ & _ & Hx)%digit_not_sign ->. by apply Hx. }
  unfold NamePolicy.Itoa. destruct z as [|p|p].
  - repeat constructor. discriminate.
  - apply Hp.
  - change (pretty (Zneg p)) with ("-" +:+ pretty (Npos p))%string. rewrite Names.chars_app. apply Forall_app_2; [|apply Hp].
    repeat constructor. discriminate.
Qed.

Lemma split_colon_app l rest : Forall (λ c, c ≠ colon) l → split_colon (l ++ colon :: rest) = Some (l, rest).
Proof.
  induction 1 as [|c l Hc _ IH]; cbn [app split_colon]; [by rewrite bool_decide_true|]. by rewrite bool_decide_false, IH.
Qed.

Lemma credentials_valid secret roomID ttl now now' :
  let '(username, password) := Credentials secret roomID ttl now in
  Validate secret username password now' = (Unix now' <=? Unix (now + ttl)).
Proof.
  unfold Credentials. set (expiry := Unix (time_Add now ttl)). cbv zeta. set (u := (_ +:+ _)%string).
  assert (Hu : Names.chars u = Names.chars (NamePolicy.Itoa expiry) ++ colon :: Names.chars roomID).
  { unfold u. by rewrite !Names.chars_app. }
  unfold Validate. rewrite Hu, split_colon_app by apply Itoa_no_colon. rewrite Names.of_chars_chars.
  rewrite Atoi_Itoa by apply i64_range. rewrite bool_decide_true by done. change (now + ttl) with (time_Add now ttl). fold expiry.
  rewrite Z.gtb_ltb, Z.ltb_antisym. by destruct (Unix now' <=? expiry).
Qed.

(** TURN credentials are accepted until they expire and not after: a generated
    pair validates exactly as long as the clock's second is not beyond the expiry
    in its username, whatever characters the room has; and whatever validates
    carries the password of its username. *)
Theorem turn_credentials secret roomID ttl now now' :
  let '(username, password) := Credentials secret roomID ttl now in
  Validate secret username password now' = (Unix now' <=? Unix (now + ttl)) ∧
  (∀ u p, Validate secret u p now' = true → p = computePassword secret u).
Proof.
  pose proof (credentials_valid secret roomID ttl now now') as Hv. destruct (Credentials secret roomID ttl now) as [u p0].
  split; [exact Hv|]. intros u' p. unfold Validate. repeat case_match; try done. intros Hp. by apply bool_decide_eq_true in Hp.
Qed.
End Turn.
End TurnAuth.
