(* ===== verification/MediaAuthority.v ===== *)
(** * The media process and its Session authority

    Translates the side of [internal/server] that depends on the Access service:
    capability verification ([capabilities.go], [internal/auth/token.go]), the
    placement of Sessions in media processes and the reporting of their state
    ([access_authority.go], [control_state_sync.go]).

    [Authority] is the interface the media process has to the service, which the
    source reaches either in its own process or over HTTP; the standalone service
    of [Access] implements it.  [Placement] is proved against the interface: its
    goroutines interleave with each other, with other media processes and with
    everything else that happens to the store. *)

From S2P Require Export Session Access.
Import Storage Token Access.

(** ** Which errors a transaction can end with *)

Class Avoids (err : error) {A} (m : tx A) : Prop := avoids : ∀ e s s', m e s ≠ (s', Err err).

Section Avoids.
Context (err : error).

#[export] Instance avoids_ret {A} (a : A) : Avoids err (mret a).
Proof. intros e s s'. done. Qed.
#[export] Instance avoids_bind {A B} (m : tx A) (f : A → tx B) :
  Avoids err m → (∀ a, Avoids err (f a)) → Avoids err (m ≫= f).
Proof.
  intros Hm Hf e s s'. unfold mbind, tx_bind. destruct (m e s) as [s1 [a|err']] eqn:E; [apply Hf|].
  intros [= -> ->]. by apply (Hm e s s').
Qed.
#[export] Instance avoids_Now : Avoids err Now.
Proof. intros e s s'. done. Qed.
#[export] Instance avoids_if {A} (b : bool) (m1 m2 : tx A) :
  Avoids err m1 → Avoids err m2 → Avoids err (if b then m1 else m2).
Proof. by destruct b. Qed.

Lemma avoids_fail {A} err' : err' ≠ err → Avoids err (fail (A := A) err').
Proof. intros Hne e s s' [= _ ?]. done. Qed.
Lemma avoids_guard b err' : err' ≠ err → Avoids err (guard_tx b err').
Proof. intros Hne. unfold guard_tx. destruct b; [apply _|by apply avoids_fail]. Qed.

Context (Hctx : err ≠ ErrContext) (Hmode : err ≠ ErrReadOnly) (Hcap : err ≠ ErrCapacity).

Lemma avoids_ctx_err : Avoids err ctx_err.
Proof. intros e [d [[|n]|]] s'; unfold ctx_err; cbn; congruence. Qed.
Lemma avoids_write : Avoids err write.
Proof.
  apply avoids_bind; [apply avoids_ctx_err|]. intros _ e s s'. unfold check_mode. case_decide; congruence.
Qed.
Lemma avoids_read {A} (f : records → A) : Avoids err (read f).
Proof. apply avoids_bind; [done|]. intros d. apply avoids_bind; [apply avoids_ctx_err|apply _]. Qed.
Lemma avoids_bounded n : Avoids err (bounded n).
Proof. apply avoids_guard. congruence. Qed.
Lemma avoids_modify f : Avoids err (modify f).
Proof. intros e s s'. done. Qed.
Lemma avoids_for_each keys body : Avoids err (for_each keys body).
Proof. induction keys; cbn [for_each]; [apply _|]. apply avoids_bind; [done|intros _; done]. Qed.
End Avoids.

#[export] Hint Extern 2 (Avoids _ (fail _)) => apply avoids_fail; discriminate : typeclass_instances.
#[export] Hint Extern 2 (Avoids _ (guard_tx _ _)) => apply avoids_guard; discriminate : typeclass_instances.
#[export] Hint Extern 2 (Avoids _ write) => apply avoids_write; discriminate : typeclass_instances.
#[export] Hint Extern 2 (Avoids _ (read _)) => apply avoids_read; discriminate : typeclass_instances.
#[export] Hint Extern 2 (Avoids _ (bounded _)) => apply avoids_bounded; discriminate : typeclass_instances.
#[export] Hint Extern 2 (Avoids _ (modify _)) => apply avoids_modify : typeclass_instances.
#[export] Hint Extern 2 (Avoids _ (for_each _ _)) => apply avoids_for_each : typeclass_instances.
#[export] Hint Extern 2 (Avoids _ get) => (intros ? ? ? ?; discriminate) : typeclass_instances.

Section Absence.
Context `{RecordSizes} `{Jwt}.

#[export] Instance avoids_update_prefix s err :
  err = ErrNoRows ∨ err = ErrNotExist → Avoids err (update_tx s (mret tt)).
Proof.
  intros [-> | ->]; unfold update_tx, checkWriter, GetNamespace, PutNamespace, PruneExpired; apply _.
Qed.

Lemma update_tx_split {A} s (fn : tx A) e t : update_tx s fn e t = (update_tx s (mret tt) ≫= λ _, fn) e t.
Proof.
  unfold update_tx, mbind, tx_bind. destruct (checkWriter s e t) as [t1 [[]|]]; [|done].
  destruct (GetNamespace e t1) as [t2 [ns|]]; [|done]. destruct (Now e t2) as [t3 [n|]]; [|done].
  destruct (PutNamespace _ e t3) as [t4 [[]|]]; [|done]. by destruct (PruneExpired e t4) as [t5 [[]|]].
Qed.

(** What the body of a transaction avoids, the transaction avoids. *)
Lemma run_avoids {A} err m cancel now (fn : tx A) st :
  err = ErrNoRows ∨ err = ErrNotExist → Avoids err fn → (run m cancel now fn st).2 ≠ Err err.
Proof.
  intros Herr Hf. assert (Hctx : ∀ e t t' err', ctx_err e t = (t', Err err') → err' ≠ err).
  { intros e [d [[|n]|]] t' err' E; unfold ctx_err in E; cbn in E; simplify_eq. by destruct Herr as [-> | ->]. }
  unfold run. destruct (ctx_err _ _) as [t0 [[]|err0]] eqn:E0; cbn [snd]; [|intros [= ->]; by eapply Hctx].
  destruct (closed st); [by destruct Herr as [-> | ->]|].
  destruct (fn _ t0) as [t1 [a|err1]] eqn:E1; cbn [snd]; [|intros [= ->]; by eapply Hf].
  destruct (ctx_err _ t1) as [t2 [[]|err2]] eqn:E2; cbn [snd]; [by destruct m|intros [= ->]; by eapply Hctx].
Qed.

Lemma update_avoids {A} err s cancel now (fn : tx A) st :
  err = ErrNoRows ∨ err = ErrNotExist → Avoids err fn → (update s cancel now fn st).2 ≠ Err err.
Proof.
  intros Herr Hf. apply run_avoids; [done|]. intros e t t'. rewrite update_tx_split.
  apply avoids_bind; [by apply avoids_update_prefix|done].
Qed.

(** An update that fails because a Session is not there: it is not. *)
Lemma update_absent {A} s id (m : tx SessionRecord) (f : SessionRecord → tx A) err cancel now st st' :
  err = ErrNoRows ∨ err = ErrNotExist →
  (∀ e t t', m e t = (t', Err err) → alive t ∧ live s (tx_now e) (data t) id = None) →
  (∀ r, Avoids err (f r)) → wf (store_data st) →
  update s cancel now (m ≫= f) st = (st', Err err) → live s now (store_data st) id = None.
Proof.
  intros Herr Hm Hf Hw. pose proof (avoids_update_prefix s err Herr) as Hp.
  unfold update, Update, run. destruct (ctx_err _ _) as [t0 [[]|err0]] eqn:E0.
  2: { unfold ctx_err in E0. cbn in E0. destruct cancel as [[|n]|]; simplify_eq. intros [= _ <-]. by destruct Herr. }
  assert (Hd : data t0 = store_data st). { unfold ctx_err in E0. cbn in E0. by destruct cancel as [[|n]|]; simplify_eq. }
  destruct (closed st); [intros [= _ <-]; by destruct Herr|].
  rewrite update_tx_split. unfold mbind at 1, tx_bind at 1.
  destruct (update_tx s (mret tt) _ t0) as [t1 [[]|err1]] eqn:E1.
  2: { intros [= _ <-]. by destruct (Hp _ _ _ E1). }
  destruct ((m ≫= f) _ t1) as [t2 [a|err2]] eqn:E2.
  { destruct (ctx_err _ t2) as [t3 [[]|err3]] eqn:E3; [done|]. unfold ctx_err in E3. intros [= _ <-].
    destruct (ctx t2) as [[|n]|]; simplify_eq. by destruct Herr. }
  intros [= _ ->]. unfold mbind, tx_bind in E2. destruct (m _ t1) as [t3 [r|err3]] eqn:E3; [by destruct (Hf r _ _ _ E2)|].
  simplify_eq. destruct (Hm _ _ _ E3) as [Ha Hl]. cbn [tx_now] in Hl.
  destruct (ctx_free (m := update_tx s (mret tt)) (mkEnv writeTransaction now) t0) as [_ Hs]; [by rewrite E1|].
  rewrite E1 in Hs. cbn [fst snd] in Hs. assert (Hx : exec (update_tx s (mret tt)) (mkEnv writeTransaction now) (store_data st) = (data t1, Ok tt)).
  { unfold exec. unfold strip in Hs. rewrite Hd in Hs. by rewrite Hs. }
  rewrite exec_update_tx in Hx by apply _. destruct (writes _ _); [|done]. destruct (_ >? _); [done|].
  rewrite exec_ret in Hx. injection Hx as Hx. by rewrite <- Hx, live_prepared in Hl.
Qed.

Lemma active_absent s id e t t' :
  active s id e t = (t', Err ErrNoRows) → alive t ∧ live s (tx_now e) (data t) id = None.
Proof.
  unfold active, Session, live, read, alive, mbind, tx_bind, get, ctx_err, mret, tx_ret, Now, fail. cbn.
  destruct t as [d [[|n]|]]; cbn; intros Hr; [done|split; [done|]..].
  all: destruct (sessions d !! id) as [r|]; [|done]; destruct (After _ _); [|done]; by case_bool_decide.
Qed.

Lemma on_no_rows_absent s id e t t' :
  on_no_rows ErrNotExist (active s id) e t = (t', Err ErrNotExist) →
  alive t ∧ live s (tx_now e) (data t) id = None.
Proof.
  unfold on_no_rows. destruct (active s id e t) as [t1 [r|err]] eqn:Ea; [done|].
  destruct err; intros Hr; simplify_eq.
  - by eapply active_absent.
  - exfalso. revert Ea. apply avoids_bind; [unfold Session; apply _|]. intros o. apply avoids_bind; [apply _|].
    intros n. destruct o; apply _.
Qed.

Lemma metadata_absent s id cancel now st :
  Metadata s id cancel now st = Err ErrNoRows → live s now (store_data st) id = None.
Proof.
  unfold Metadata, view, View, run. destruct (ctx_err _ _) as [t0 [[]|err0]] eqn:E0; cbn [snd].
  2: { unfold ctx_err in E0. cbn in E0. by destruct cancel as [[|n]|]; simplify_eq. }
  assert (Hd : data t0 = store_data st). { unfold ctx_err in E0. cbn in E0. by destruct cancel as [[|n]|]; simplify_eq. }
  destruct (closed st); [done|]. unfold mbind at 1, tx_bind at 1.
  destruct (checkWriter s _ t0) as [t1 [[]|err1]] eqn:E1.
  2: { cbn [snd]. intros [= ->]. exfalso. revert E1. unfold checkWriter, GetNamespace. apply avoids_bind; apply _. }
  assert (Hd1 : data t1 = data t0).
  { revert E1. unfold checkWriter, GetNamespace, read, mbind, tx_bind, get, ctx_err, mret, tx_ret, guard_tx. cbn.
    destruct t0 as [d [[|n]|]]; cbn; [done| |]; destruct (writes _ _); by intros [= <-]. }
  unfold mbind, tx_bind. destruct (active s id _ t1) as [t2 [r|err2]] eqn:E2; cbn [snd].
  - unfold mret, tx_ret. destruct (ctx_err _ t2) as [t3 [[]|err3]] eqn:E3; cbn [snd]; [done|]. unfold ctx_err in E3. intros [= ->].
    cbn in E3. by destruct (ctx t2) as [[|n]|]; simplify_eq.
  - intros [= ->]. apply active_absent in E2 as [_ Hl]. cbn [tx_now] in Hl. by rewrite Hd1, Hd in Hl.
Qed.
End Absence.

(** ** The interface to the authority *)

Module Authority.

(** What the callers distinguish of an error. *)
Inductive authority_error := ErrSessionNotFound | ErrFenced | ErrUnavailable.

#[export] Instance authority_error_eq_dec : EqDecision authority_error.
Proof. solve_decision. Defined.

(** The operations, with the point at which the caller's context ends.
    [placement] is the placement term and epoch of a Session that is there;
    [pending id epoch a x]: an acquisition for [epoch] that expects [x] was sent,
    its caller may have given up on it, and it may still be carried out;
    [others id epoch] is anything that happens to the authority but the creation
    of [id] and a new acquisition for [epoch]. *)
Class Authority (A : Type) := {
  metadata : option nat → string → A → result authority_error AuthorityMetadata;
  acquire : option nat → string → string → Z → A → A * result authority_error Z;
  push_state : option nat → string → RelayState → A → A * result authority_error unit;
  consistent : A → Prop;
  placement : string → A → option (Z * string);
  pending : string → string → A → Z → Prop;
  others : string → string → A → A → Prop }.

(** A placement after a step of another party: kept, or advanced by one into
    another epoch; a Session that is gone stays gone. *)
Definition advances (epoch : string) (before after : option (Z * string)) : Prop :=
  ∀ t' e', after = Some (t', e') →
    ∃ t e, before = Some (t, e) ∧ ((t', e') = (t, e) ∨ t' = u64 (t + 1) ∧ e' ≠ epoch).

(** An acquisition that expects [x] takes effect. *)
Definition takes (epoch : string) (x : Z) (before after : option (Z * string)) : Prop :=
  ∃ e, before = Some (x, e) ∧ after = Some (u64 (x + 1), epoch).

Class AuthorityLaws (A : Type) `{Authority A} : Prop := {
  metadata_ok : ∀ c id a md, consistent a → metadata c id a = Ok md →
    amSessionID md = id ∧ placement id a = Some (amMediaTerm md, amRelayEpoch md);
  metadata_gone : ∀ c id a, consistent a → metadata c id a = Err ErrSessionNotFound → placement id a = None;
  acquire_consistent : ∀ c id epoch x a, consistent a → consistent (acquire c id epoch x a).1;
  acquire_placed : ∀ c id epoch x a a' t, consistent a → acquire c id epoch x a = (a', Ok t) →
    ∃ t0 e0, placement id a = Some (t0, e0) ∧
      ((e0 = epoch ∧ t0 ≠ 0 ∧ t = t0 ∧ placement id a' = Some (t0, e0)) ∨
       (x = t0 ∧ t = u64 (t0 + 1) ∧ placement id a' = Some (t, epoch)));
  acquire_fails : ∀ c id epoch x a a' err, consistent a → acquire c id epoch x a = (a', Err err) →
    placement id a' = placement id a ∨ takes epoch x (placement id a) (placement id a');
  acquire_gone : ∀ c id epoch x a a', consistent a →
    acquire c id epoch x a = (a', Err ErrSessionNotFound) → placement id a = None;
  acquire_elsewhere : ∀ c id id' epoch x a, consistent a → id' ≠ id →
    placement id' (acquire c id epoch x a).1 = placement id' a;
  acquire_pending : ∀ c id epoch x a id' y,
    pending id' epoch (acquire c id epoch x a).1 y → pending id' epoch a y ∨ (id' = id ∧ y = x);
  push_consistent : ∀ c id sn a, consistent a → consistent (push_state c id sn a).1;
  push_keeps : ∀ c id id' sn epoch a, consistent a →
    advances epoch (placement id' a) (placement id' (push_state c id sn a).1);
  push_placed : ∀ c id sn a a', consistent a → push_state c id sn a = (a', Ok tt) →
    placement id a = Some (rsWriterTerm sn, rsRelayEpoch sn);
  push_gone : ∀ c id sn a a', consistent a →
    push_state c id sn a = (a', Err ErrSessionNotFound) → placement id a = None;
  push_pending : ∀ c id sn a id' epoch y, pending id' epoch (push_state c id sn a).1 y → pending id' epoch a y;
  others_consistent : ∀ id epoch a a', consistent a → others id epoch a a' → consistent a';
  others_pending : ∀ id epoch a a' y, others id epoch a a' → pending id epoch a' y → pending id epoch a y;
  others_advance : ∀ id epoch a a', consistent a → others id epoch a a' →
    advances epoch (placement id a) (placement id a') ∨
    ∃ x, pending id epoch a x ∧ takes epoch x (placement id a) (placement id a') }.

Lemma advances_refl epoch p : advances epoch p p.
Proof. intros t e ->. eauto. Qed.
#[export] Hint Resolve advances_refl : core.

Section Standalone.
Context `{RecordSizes} `{Jwt} (s : Service).

#[local] Arguments live : simpl never.
#[local] Arguments fence : simpl never.

(** The store of the service in this process, and the clock. *)
Record standalone := mkStandalone { store : Store; clock : Z }.

(** [errors.Is] of the callers: [sql.ErrNoRows] and [os.ErrNotExist] say that the
    Session is not there. *)
Definition classify (err : error) : authority_error :=
  match err with
  | ErrNoRows | ErrNotExist => ErrSessionNotFound
  | ErrWriterFenced => ErrFenced
  | _ => ErrUnavailable
  end.

Definition classified {A} (r : result error A) : result authority_error A :=
  match r with Ok a => Ok a | Err err => Err (classify err) end.

Definition ignored {A} (r : result error A) : result error unit :=
  match r with Ok _ => Ok tt | Err err => Err err end.

#[export] Instance standalone_authority : Authority standalone := {
  metadata c id a := classified (Metadata s id c (clock a) (store a));
  acquire c id epoch x a :=
    let '(st, r) := AcquireRelayWriter s id epoch x c (clock a) (store a) in (mkStandalone st (clock a), classified r);
  push_state c id sn a :=
    let '(st, r) := ApplyRelayStateContext s id sn c (clock a) (store a) in
    (mkStandalone st (clock a), classified (ignored r));
  consistent a := wf (store_data (store a));
  placement id a := fence <$> live s (clock a) (store_data (store a)) id;
  pending _ _ _ _ := False;
  others id epoch a a' :=
    clock a <= clock a' ∧
    (store a' = store a ∨
     ∃ o, instant o = clock a' ∧ creates o ≠ Some id ∧ places o ≠ Some epoch ∧ store a' = access_apply (store a) o) }.

(** A record that is live after an operation was live before, and its fence moved
    as the operation says. *)
Lemma live_step st o id now r' :
  wf (store_data st) → creates o ≠ Some id → now <= instant o →
  live s (instant o) (store_data (access_apply st o)) id = Some r' →
  ∃ r, live s now (store_data st) id = Some r ∧ moved (instant o) (places o) r r'.
Proof.
  intros Hw Hne Hnow Hl. apply live_some in Hl as (Hr' & Hexp & Hinc).
  destruct (record_step st o id r' Hw Hne Hr') as (r & Hr & Hm). exists r. split; [|done].
  destruct Hm as [Hi Hx _]. unfold live. rewrite Hr. unfold After. rewrite bool_decide_true by congruence.
  destruct (Z.ltb_spec now (seExpiresAt r)); [done|]. destruct Hx as [Hx|Hx]; lia.
Qed.

(** One operation that does not place into [epoch] advances a placement. *)
Lemma access_advances st o id epoch now :
  wf (store_data st) → creates o ≠ Some id → now <= instant o → places o ≠ Some epoch →
  advances epoch (fence <$> live s now (store_data st) id)
    (fence <$> live s (instant o) (store_data (access_apply st o)) id).
Proof.
  intros Hw Hne Hnow Hp t' e' Ha. apply fmap_Some in Ha as (r' & Hr' & [= -> ->]).
  destruct (live_step st o id now r' Hw Hne Hnow Hr') as (r & -> & [_ _ Hf]). unfold fence. cbn [fmap option_fmap option_map].
  exists (seMediaTerm r), (rsRelayEpoch (seRelay r)). split; [done|].
  destruct Hf as [Hf|[Ht He]]; [left|right; split; [done|congruence]]. by unfold fence in Hf.
Qed.

Lemma live_put s' now d r k :
  live s' now (put r d) k =
  if decide (seID r = k) then (if After (seExpiresAt r) now && bool_decide (seIncarnation r = incarnation s') then Some r else None)
  else live s' now d k.
Proof.
  unfold live, put. cbn [sessions set_sessions]. case_decide as E; [by rewrite E, lookup_insert_eq|by rewrite lookup_insert_ne].
Qed.

(** The live records after an acquisition. *)
Lemma acquire_live id epoch x c now st st' t :
  wf (store_data st) → AcquireRelayWriter s id epoch x c now st = (st', Ok t) →
  ∃ r, live s now (store_data st) id = Some r ∧
    (∀ k, k ≠ id → live s now (store_data st') k = live s now (store_data st) k) ∧
    ((rsRelayEpoch (seRelay r) = epoch ∧ seMediaTerm r ≠ 0 ∧ t = seMediaTerm r ∧
      live s now (store_data st') id = Some r) ∨
     (x = seMediaTerm r ∧ t = u64 (seMediaTerm r + 1) ∧
      live s now (store_data st') id = Some (acquired s id epoch now r))).
Proof.
  intros Hw. unfold AcquireRelayWriter. case_if; [done|]. intros Hu. apply update_ok in Hu as (_ & _ & _ & Hex); [|apply _].
  apply acquire_ok in Hex as (r & Hr & Hd). rewrite live_prepared in Hr by done. exists r. split; [done|].
  pose proof (live_lookup s now _ id r Hw Hr) as Hid. pose proof (live_some _ _ _ _ _ Hr) as (Hr0 & Hl & Hi).
  assert (Eid : seID r = id) by (destruct Hw as [_ (Hk & _)]; by apply Hk).
  destruct Hd as [(He & Ht & -> & ->)|(Hx & _ & -> & ->)].
  - split; [intros k _; by apply live_prepared|]. left. by rewrite live_prepared.
  - assert (Ea : seID (acquired s id epoch now r) = id) by done. split.
    + intros k Hk. rewrite live_put, decide_False by congruence. by apply live_prepared.
    + right. split_and!; [done|done|]. rewrite live_put, decide_True by done. unfold After. cbn.
      rewrite bool_decide_true by done. by rewrite (proj2 (Z.ltb_lt _ _)).
Qed.

Lemma acquire_error c id epoch x a a' err :
  acquire c id epoch x a = (a', Err err) →
  a' = a ∧ ∃ err', err = classify err' ∧ AcquireRelayWriter s id epoch x c (clock a) (store a) = (store a, Err err').
Proof.
  cbn. destruct (AcquireRelayWriter s id epoch x c (clock a) (store a)) as [st [t|err']] eqn:E; [done|]. intros [= <- <-].
  assert (st = store a) as ->.
  { revert E. unfold AcquireRelayWriter. case_if; [by intros [= <- _]|]. apply update_err. }
  destruct a. eauto.
Qed.

Lemma acquire_tx_gone id epoch x c now st :
  wf (store_data st) → AcquireRelayWriter s id epoch x c now st = (st, Err ErrNoRows) →
  live s now (store_data st) id = None.
Proof.
  intros Hw. unfold AcquireRelayWriter. case_if; [done|]. apply update_absent; [by left|apply active_absent| |done].
  intros r. unfold PutSession. apply _.
Qed.

Lemma avoids_acquire id epoch x c now st :
  (AcquireRelayWriter s id epoch x c now st).2 ≠ Err ErrNotExist.
Proof.
  unfold AcquireRelayWriter. case_if; [done|]. apply update_avoids; [by right|].
  unfold acquire_tx, active, Session, PutSession. apply avoids_bind; [|apply _].
  apply avoids_bind; [apply _|]. intros [r|]; apply _.
Qed.

Lemma push_gone_live id sn c now st st' err :
  wf (store_data st) → err = ErrNoRows ∨ err = ErrNotExist →
  ApplyRelayStateContext s id sn c now st = (st', Err err) → live s now (store_data st) id = None.
Proof.
  intros Hw Herr. unfold ApplyRelayStateContext. case_if; [intros [= _ <-]; by destruct Herr|].
  case_if; [intros [= _ <-]; by destruct Herr|]. apply update_absent; [done| | |done].
  - intros e t t'. destruct Herr as [-> | ->]; [|apply on_no_rows_absent].
    unfold on_no_rows. by destruct (active s id e t) as [t1 [r|[]]].
  - intros r. unfold PutSession. destruct Herr as [-> | ->]; apply _.
Qed.

Lemma push_ok_live id sn c now st st' x :
  wf (store_data st) → ApplyRelayStateContext s id sn c now st = (st', Ok x) →
  ∃ r, live s now (store_data st) id = Some r ∧ fence r = (rsWriterTerm sn, rsRelayEpoch sn).
Proof.
  intros Hw. unfold ApplyRelayStateContext. case_if; [done|]. case_if; [done|]. intros Hu.
  apply update_ok in Hu as (_ & _ & _ & Hex); [|apply _]. destruct x as [state changed].
  apply apply_ok in Hex as (r & Hr & Ht & _ & He & _). rewrite live_prepared in Hr by done. exists r. split; [done|].
  unfold fence. cbn in Ht, He. by rewrite Ht, He.
Qed.

Lemma metadata_avoids_not_exist id c now st : Metadata s id c now st ≠ Err ErrNotExist.
Proof.
  unfold Metadata, view, View. apply run_avoids; [by right|]. unfold checkWriter, GetNamespace, active, Session.
  apply avoids_bind; [apply _|]. intros _. apply avoids_bind; [|apply _]. apply avoids_bind; [apply _|]. intros [r|]; apply _.
Qed.

(** The service in this process keeps the promises of the interface. *)
#[export] Instance standalone_laws : AuthorityLaws standalone.
Proof.
  split.
  - intros c id a md Hw. cbn. destruct (Metadata s id c (clock a) (store a)) as [md'|] eqn:E; [|done]. cbn. intros [= ->].
    revert E. unfold Metadata, view. destruct (View _ _ _ _) as [st' r] eqn:E. cbn [snd]. intros ->.
    apply run_commits in E as (_ & Hr & _); [|apply _]. rewrite exec_bind in Hr by apply _. rewrite exec_checkWriter in Hr.
    cbn [fst snd] in Hr. destruct (writes _ _); [|done]. rewrite exec_bind in Hr by apply _. rewrite exec_active in Hr.
    cbn [fst snd tx_now] in Hr. destruct (live s (clock a) (store_data (store a)) id) as [r|] eqn:Hl; [|done].
    rewrite exec_ret in Hr. cbn in Hr. injection Hr as <-. cbn. split; [|done].
    apply live_some in Hl as (Hl & _). destruct Hw as [_ (Hk & _)]. by apply Hk.
  - intros c id a Hw. cbn. destruct (Metadata s id c (clock a) (store a)) as [md|err] eqn:E; [done|]. cbn. intros [= Hc].
    destruct err; try done; [by rewrite (metadata_absent _ _ _ _ _ E)|]. by apply metadata_avoids_not_exist in E.
  - intros c id epoch x a Hw. cbn in *. pose proof (access_step_wf (store a) (AAcquire s id epoch x c (clock a)) Hw) as Hs.
    cbn [access_apply] in Hs. by destruct (AcquireRelayWriter s id epoch x c (clock a) (store a)).
  - intros c id epoch x a a' t Hw. cbn. destruct (AcquireRelayWriter _ _ _ _ _ _ _) as [st [t'|]] eqn:E; [|done]. intros [= <- <-].
    destruct (acquire_live _ _ _ _ _ _ _ _ Hw E) as (r & Hr & _ & Hd). exists (seMediaTerm r), (rsRelayEpoch (seRelay r)).
    cbn [clock store]. rewrite Hr. split; [done|]. destruct Hd as [(He & Ht & -> & ->)|(-> & -> & ->)]; [by left|by right].
  - intros c id epoch x a a' err _ Hu. apply acquire_error in Hu as [-> _]. by left.
  - intros c id epoch x a a' Hw Hu. apply acquire_error in Hu as (-> & err' & Hc & Hu). cbn.
    destruct err'; try done; [by rewrite (acquire_tx_gone _ _ _ _ _ _ Hw Hu)|].
    exfalso. by apply (avoids_acquire id epoch x c (clock a) (store a)); rewrite Hu.
  - intros c id id' epoch x a Hw Hne. destruct (acquire c id epoch x a) as [a' [t|err]] eqn:Hu; cbn [fst].
    + revert Hu. cbn. destruct (AcquireRelayWriter _ _ _ _ _ _ _) as [st [t'|]] eqn:E; [|done]. intros [= <- <-].
      destruct (acquire_live _ _ _ _ _ _ _ _ Hw E) as (r & Hr & Ho & _). cbn [store clock]. by rewrite Ho.
    + by apply acquire_error in Hu as [-> _].
  - intros ? ? ? ? ? ? ? [].
  - intros c id sn a Hw. cbn in *. pose proof (access_step_wf (store a) (AApply s id sn c (clock a)) Hw) as Hs.
    cbn [access_apply] in Hs. by destruct (ApplyRelayStateContext s id sn c (clock a) (store a)).
  - intros c id id' sn epoch a Hw. pose proof (access_advances (store a) (AApply s id sn c (clock a)) id' epoch (clock a) Hw) as Hs.
    cbn in Hs |- *. destruct (ApplyRelayStateContext s id sn c (clock a) (store a)). cbn in Hs |- *. apply Hs; [done|lia|done].
  - intros c id sn a a' Hw. cbn. destruct (ApplyRelayStateContext _ _ _ _ _ _) as [st [x|]] eqn:E; [|done]. intros _.
    destruct (push_ok_live _ _ _ _ _ _ _ Hw E) as (r & -> & Hf). cbn. by rewrite Hf.
  - intros c id sn a a' Hw. cbn. destruct (ApplyRelayStateContext _ _ _ _ _ _) as [st [x|err]] eqn:E; [done|]. cbn.
    intros [= _ Hc]. rewrite (push_gone_live id sn c (clock a) (store a) st err Hw); [done| |exact E].
    destruct err; try done; tauto.
  - intros ? ? ? ? ? ? ? [].
  - intros id epoch a a' Hw [_ [E|(o & _ & _ & _ & E)]]; cbn in *; rewrite E; [done|]. by apply access_step_wf.
  - intros ? ? ? ? ? ? [].
  - intros id epoch a a' Hw [Hle [E|(o & Hi & Hc & Hp & E)]]; left; cbn in *; rewrite E.
    + intros t e Ha. apply fmap_Some in Ha as (r & Hr & [= -> ->]). exists (seMediaTerm r), (rsRelayEpoch (seRelay r)).
      apply live_some in Hr as (Hr & Hx & Hn). unfold live. rewrite Hr. unfold After. rewrite bool_decide_true by done.
      rewrite (proj2 (Z.ltb_lt _ _)) by lia. split; [done|by left].
    + rewrite <- Hi in *. by apply access_advances.
Qed.
End Standalone.
End Authority.

(** ** Capability verification by the media process *)

Module Capabilities.
Import Authority.

(** [ParseUnverified] of the JWT library: it reads the claims of a token without
    its key, and finds the same claims in a token that is well signed. *)
Class UnverifiedJwt `{Jwt} := ParseUnverified : encoded → option Claims.
Class UnverifiedJwtLaws `{UnverifiedJwt} : Prop :=
  unverified_agrees : ∀ secret e typ c, ParseHS256 secret e = Some (typ, c) → ParseUnverified e = Some c.

Inductive capability_error := ErrInvalidCapability | ErrNotFound | errAuthorityUnavailable.

Section Capabilities.
Context `{RecordSizes} `{UnverifiedJwt}.

(** [auth.VerifyCapability]; no role is the empty one. *)
Definition VerifyCapability (secret : list Z) (e : encoded) (issuer : string) (role : option Role) (now : Z)
  : result capability_error Claims :=
  match VerifyProfile secret e issuer now with
  | Err _ => Err ErrInvalidCapability
  | Ok claims =>
    match role with
    | Some r => if bool_decide (cRole claims = r) then Ok claims else Err ErrInvalidCapability
    | None => Ok claims
    end
  end.

(** A token without incarnation, of a Session carried over from before them. *)
Definition legacy_token (md : AuthorityMetadata) (claims : Claims) : bool :=
  negb (negb (bool_decide (cIncarnation claims = "")) || negb (bool_decide (amIssuer md = LegacyIssuer)) ||
        IsZero (amLegacyTokensBefore md) ||
        match rIssuedAt (cRegistered claims) with
        | None => true
        | Some t => After t (amLegacyTokensBefore md)
        end).

Definition verifyCapability {A} {impl : Authority A} (secret : list Z) (c : option nat) (e : encoded) (role : option Role)
    (now : Z) (a : A) : result capability_error Claims :=
  if (encoded_len e =? 0) || (encoded_len e >? 8192) then Err ErrInvalidCapability
  else
    match ParseUnverified e with
    | None => Err ErrInvalidCapability
    | Some untrusted =>
      let id := cSessionID untrusted in
      if negb (validIdentifier id 128) then Err ErrInvalidCapability
      else
        match metadata c id a with
        | Err ErrSessionNotFound => Err ErrNotFound
        | Err _ => Err errAuthorityUnavailable
        | Ok md =>
          match VerifyCapability secret e (amIssuer md) role now with
          | Err err => Err err
          | Ok claims =>
            if negb (bool_decide (cSessionID claims = amSessionID md)) then Err ErrInvalidCapability
            else if negb (bool_decide (cIncarnation claims = amIncarnation md)) && negb (legacy_token md claims)
            then Err ErrInvalidCapability
            else Ok claims
          end
        end
    end.

(** A read that is not cancelled. *)
Lemma view_iff {B} s now (fn : tx B) `{!CtxFree fn} st x :
  view s None now fn st = Ok x ↔
  Storage.closed st = false ∧ (exec fn (mkEnv readTransaction now) (store_data st)).2 = Ok x.
Proof.
  unfold view, View, run. cbn [ctx_err ctx]. destruct (Storage.closed st); [split; [done|by intros [? _]]|].
  rewrite (exec_state fn). destruct (exec fn _ _) as [d [y|err]]; cbn; (split; [by intros [= ->]|by intros [_ [= ->]]]).
Qed.

Definition metadata_of (r : SessionRecord) : AuthorityMetadata :=
  mkMetadata (seID r) (seIssuer r) (seIncarnation r) (seLegacyTokensBefore r) (seMediaTerm r)
    (rsRelayEpoch (seRelay r)) (seRequiredBuses r).

(** What [Metadata] and [Authorize] read. *)
Lemma Metadata_iff s id now st md :
  Metadata s id None now st = Ok md ↔
  Storage.closed st = false ∧ writes s (namespace (store_data st)) = true ∧
  ∃ r, live s now (store_data st) id = Some r ∧ md = metadata_of r.
Proof.
  unfold Metadata. rewrite view_iff by apply _. rewrite exec_bind by apply _. rewrite exec_checkWriter. cbn [fst snd].
  destruct (writes s (namespace (store_data st))); [|split; [by intros [_ ?]|by intros (_ & ? & _)]].
  rewrite exec_bind by apply _. rewrite exec_active. cbn [fst snd tx_now].
  destruct (live s now (store_data st) id) as [r|]; [|split; [by intros [_ ?]|by intros (_ & _ & r & ? & _)]].
  rewrite exec_ret. cbn [snd]. split.
  - intros [Hc [= <-]]. split; [done|]. split; [done|]. by exists r.
  - intros (Hc & _ & r' & [= <-] & ->). done.
Qed.

Lemma Authorize_iff s id e now st c :
  Authorize s id e None now st = Ok c ↔
  Storage.closed st = false ∧ writes s (namespace (store_data st)) = true ∧
  ∃ r, live s now (store_data st) id = Some r ∧ authorizeRecord s r e now = Ok c.
Proof.
  unfold Authorize, authorize_tx. rewrite view_iff by apply _. rewrite exec_bind by apply _. rewrite exec_checkWriter. cbn [fst snd].
  destruct (writes s (namespace (store_data st))); [|split; [by intros [_ ?]|by intros (_ & ? & _)]].
  rewrite exec_bind by apply _. rewrite exec_active. cbn [fst snd tx_now].
  destruct (live s now (store_data st) id) as [r|]; [|split; [by intros [_ ?]|by intros (_ & _ & r & ? & _)]].
  rewrite Now_ok, exec_lift. cbn [snd tx_now]. split.
  - intros [Hc Ha]. split; [done|]. split; [done|]. by exists r.
  - intros (Hc & _ & r' & [= <-] & Ha). done.
Qed.

(** The checks on the claims agree. *)
Lemma record_agrees s r e role now c :
  seID r = cSessionID c →
  (match VerifyCapability (secret s) e (seIssuer r) role now with
   | Err err => Err err
   | Ok claims =>
     if negb (bool_decide (cSessionID claims = seID r)) then Err ErrInvalidCapability
     else if negb (bool_decide (cIncarnation claims = seIncarnation r)) && negb (legacy_token (metadata_of r) claims)
     then Err ErrInvalidCapability
     else Ok claims
   end = Ok c) ↔
  authorizeRecord s r e now = Ok c ∧ (∀ x, role = Some x → cRole c = x).
Proof.
  intros Hid. unfold VerifyCapability, authorizeRecord. destruct (VerifyProfile (secret s) e (seIssuer r) now) as [c'|] eqn:Hv.
  2: { split; [done|by intros [? _]]. }
  pose proof (verified _ _ _ _ _ Hv) as (_ & _ & _ & _ & _ & (exp & iat & nbf & _ & Hiat & _) & _).
  assert (Hl : legacy_token (metadata_of r) c' =
    negb (negb (bool_decide (cIncarnation c' = "")) || negb (bool_decide (seIssuer r = LegacyIssuer)) ||
          IsZero (seLegacyTokensBefore r) || After (default 0 (rIssuedAt (cRegistered c'))) (seLegacyTokensBefore r))).
  { unfold legacy_token. by rewrite Hiat. }
  set (A := negb (bool_decide (cSessionID c' = seID r))). set (B := negb (bool_decide (cIncarnation c' = seIncarnation r))).
  set (X := negb _ || _ || _ || _) in Hl |- *.
  assert (Hrole : (∀ x, role = Some x → cRole c' = x) ∨ ∃ x, role = Some x ∧ cRole c' ≠ x).
  { destruct role as [x|]; [|by left]. destruct (decide (cRole c' = x)); [left|right; eauto]. intros y. congruence. }
  destruct Hrole as [Hrole|(x & -> & Hx)].
  - assert (match role with Some r0 => if bool_decide (cRole c' = r0) then Ok c' else Err ErrInvalidCapability | None => Ok c' end
            = Ok c') as ->. { destruct role as [x|]; [|done]. by rewrite bool_decide_true by auto. }
    fold A B. rewrite Hl, negb_involutive. destruct A, (B && X); split; try done; try (by intros [? _]).
    + intros [= <-]. auto.
    + by intros [[= <-] _].
  - rewrite bool_decide_false by done. split; [done|]. intros [Ha Hc]. specialize (Hc x eq_refl).
    destruct A, (B && X); simplify_eq.
Qed.

Context `{!UnverifiedJwtLaws}.

(** C28: The media process accepts exactly the capabilities the service
    authorises: what its own verification lets through, for a token of at most
    8192 bytes and the role it asks for, is what [Authorize] lets through for the
    Session the token names, with the same claims.  The unverified reading that
    selects the Session cannot change the outcome. *)
Theorem capability_agrees s e role a c :
  wf (store_data (store a)) →
  verifyCapability (impl := standalone_authority s) (secret s) None e role (clock a) a = Ok c ↔
  encoded_len e <= 8192 ∧ (∀ x, role = Some x → cRole c = x) ∧
  Authorize s (cSessionID c) e None (clock a) (store a) = Ok c.
Proof.
  intros Hw. unfold verifyCapability. rewrite Authorize_iff. split.
  - case_if; [done|]. destruct (ParseUnverified e) as [u|] eqn:Hu; [|done]. case_if; [done|].
    destruct (metadata None (cSessionID u) a) as [md|[]] eqn:Hm; [|done..]. intros Ha.
    cbn in Hm. destruct (Metadata s _ None _ _) as [md'|] eqn:Hmd; [|done]. injection Hm as ->.
    apply Metadata_iff in Hmd as (Hcl & Hwr & r & Hr & ->).
    assert (Hk : seID r = cSessionID u). { apply live_some in Hr as (Hr & _). destruct Hw as [_ (Hk & _)]. by apply Hk. }
    assert (Hc : cSessionID u = cSessionID c).
    { unfold VerifyCapability in Ha. destruct (VerifyProfile _ _ _ _) as [c'|] eqn:Hv; [|done].
      pose proof (verified _ _ _ _ _ Hv) as (Hp & _). apply unverified_agrees in Hp. rewrite Hu in Hp. injection Hp as ->.
      destruct role; repeat case_if; simplify_eq; done. }
    rewrite Hc in *. apply record_agrees in Ha as [Ha Hrole]; [|done]. apply orb_false_iff in E as [_ E].
    rewrite Z.gtb_ltb in E. apply Z.ltb_ge in E. split; [done|]. split; [done|]. split; [done|]. split; [done|]. by exists r.
  - intros (Hlen & Hrole & Hcl & Hwr & r & Hr & Ha).
    assert (Hk : seID r = cSessionID c). { apply live_some in Hr as (Hr & _). destruct Hw as [_ (Hk & _)]. by apply Hk. }
    assert (Hv : VerifyProfile (secret s) e (seIssuer r) (clock a) = Ok c).
    { unfold authorizeRecord in Ha. destruct (VerifyProfile _ _ _ _) as [c'|]; [|done]. repeat case_if; simplify_eq; done. }
    pose proof (verified _ _ _ _ _ Hv) as (Hp & _ & _ & _ & _ & _ & Hval & _).
    assert (Hpos : encoded_len e ≠ 0). { intros E. unfold VerifyProfile in Hv. rewrite E in Hv. cbn in Hv. rewrite orb_true_r in Hv. by repeat case_if. }
    rewrite (proj2 (Z.eqb_neq _ _) Hpos), Z.gtb_ltb, (proj2 (Z.ltb_ge _ _) Hlen). cbn [orb].
    rewrite (unverified_agrees _ _ _ _ Hp). change maxIdentifierLength with 128 in Hval. rewrite Hval. cbn [negb].
    assert (Hm : metadata (Authority := standalone_authority s) None (cSessionID c) a = Ok (metadata_of r)).
    { cbn. by rewrite (proj2 (Metadata_iff s (cSessionID c) (clock a) (store a) (metadata_of r)) (conj Hcl (conj Hwr (ex_intro _ r (conj Hr eq_refl))))). }
    rewrite Hm. by apply record_agrees.
Qed.
End Capabilities.

#[local] Existing Instances Storage.small_records Token.clear_jwt Token.clear_jwt_laws.
#[local] Instance clear_unverified : UnverifiedJwt := λ e, Some e.1.2.
#[local] Instance clear_unverified_laws : UnverifiedJwtLaws.
Proof. intros secret e typ c. cbn. case_bool_decide; [|done]. destruct e as [[typ' c'] k]. by intros [= -> ->]. Qed.

(** The capability of a listener that the service has issued. *)
Definition issued_token : encoded :=
  match issued.2 with Ok e => e | Err _ => SignedString "" (new_claims "" "" [] RoleSource false) [] end.
Definition issuing : access_op := AIssue service_a "s-1" "voice" RoleSubscriber None (6 * Second) (Some "t-2").
Definition issued_state : standalone := mkStandalone (access_apply example_store issuing) (60 * Second).

Lemma issued_wf : wf (store_data (store issued_state)).
Proof. exact (access_step_wf example_store issuing example_wf). Qed.

Lemma capability_agrees_witness :
  verifyCapability (impl := standalone_authority service_a) (secret service_a) None issued_token (Some RoleSubscriber)
    (60 * Second) issued_state = Ok issued_token.1.2.
Proof.
  refine (proj2 (capability_agrees service_a issued_token (Some RoleSubscriber) issued_state issued_token.1.2 issued_wf) _).
  split; [vm_compute; discriminate|]. split; [|vm_compute; reflexivity].
  intros x Hx. injection Hx as <-. vm_compute. reflexivity.
Defined.
End Capabilities.

(** ** Placement of Sessions in a media process *)

Module Placement.
Import Authority.

(** [mediaWriter]; [done] is the channel: closed or not. *)
Record mediaWriter := mkWriter { done : bool; mwTerm : Z; expected : Z; mwErr : option authority_error }.

(** The part of [Server] this component uses.  [mediaWriters] maps a Session to a
    pointer into [writers]; [relaySessions] is the set of registered Sessions. *)
Record server := mkServer {
  relayEpoch : string;
  maxRooms : Z;
  relaySessions : gset string;
  writers : list mediaWriter;
  mediaWriters : gmap string nat }.

Definition set_sessions (l : gset string) (srv : server) : server :=
  mkServer (relayEpoch srv) (maxRooms srv) l (writers srv) (mediaWriters srv).
Definition set_writers (l : list mediaWriter) (srv : server) : server :=
  mkServer (relayEpoch srv) (maxRooms srv) (relaySessions srv) l (mediaWriters srv).
Definition set_table (m : gmap string nat) (srv : server) : server :=
  mkServer (relayEpoch srv) (maxRooms srv) (relaySessions srv) (writers srv) m.

(** A new writer, with its [done] channel open, entered for [id]. *)
Definition enter (id : string) (x : Z) (srv : server) : server :=
  set_table (<[id := length (writers srv)]> (mediaWriters srv)) (set_writers (writers srv ++ [mkWriter false 0 x None]) srv).

(** What the locked part of [ensureMediaWriter] decides. *)
Inductive ensured := Full | Join (w : nat) | Begin (w : nat).

Definition retried (x : mediaWriter) : bool :=
  done x && match mwErr x with Some ErrFenced | None => false | Some _ => true end.

Definition ensure_locked (md : AuthorityMetadata) (srv : server) : server * ensured :=
  let id := amSessionID md in
  match mediaWriters srv !! id with
  | Some w =>
    match writers srv !! w with
    | Some x => if retried x then (enter id (expected x) srv, Begin (length (writers srv))) else (srv, Join w)
    | None => (srv, Join w)
    end
  | None =>
    if Z.of_nat (size (mediaWriters srv)) >=? maxRooms srv then (srv, Full)
    else (enter id (amMediaTerm md) srv, Begin (length (writers srv)))
  end.

(** [mediaWriterTerm] *)
Definition mediaWriterTerm (id : string) (srv : server) : result authority_error Z :=
  match mediaWriters srv !! id with
  | None => Err ErrUnavailable
  | Some w =>
    match writers srv !! w with
    | Some x => if done x then match mwErr x with Some err => Err err | None => Ok (mwTerm x) end else Err ErrUnavailable
    | None => Err ErrUnavailable
    end
  end.

(** The writer's fields are set, then its channel is closed. *)
Definition finish (w : nat) (r : result authority_error Z) (srv : server) : server :=
  set_writers (alter (λ x, match r with
                           | Ok t => mkWriter true t (expected x) None
                           | Err err => mkWriter true 0 (expected x) (Some err)
                           end) w (writers srv)) srv.

(** The writer holds exactly this placement. *)
Definition holds (srv : server) (x : mediaWriter) (md : AuthorityMetadata) : bool :=
  (amMediaTerm md =? mwTerm x) && bool_decide (amRelayEpoch md = relayEpoch srv).

(** Where a goroutine is.  [Lookup] starts [requireActiveControlSession], [Prune]
    goes through the Sessions [pruneMediaWriters] has copied, [Push] starts
    [pushControlState] with the state it has taken. *)
Inductive pc :=
| Lookup (id : string)
| Forget (id : string) (next : pc)
| Ensure (md : AuthorityMetadata)
| Acquire (w : nat) (id : string)
| Finish (w : nat) (r : result authority_error Z)
| Wait (w : nat) (md : AuthorityMetadata)
| Recheck (w : nat) (id : string)
| Prune (ids : list string)
| Push (id : string) (snapshot : RelayState)
| Send (id : string) (snapshot : RelayState)
| Remove (id : string) (err : authority_error)
| Return (r : result authority_error unit).

(** [authorityMetadata], then [next] on success; a Session the authority does not
    know is forgotten before the call returns. *)
Definition authorityMetadata `{Authority A} (c : option nat) (id : string) (a : A)
    (next : AuthorityMetadata → pc) (failed : authority_error → pc) : pc :=
  match metadata c id a with
  | Ok md => next md
  | Err ErrSessionNotFound => Forget id (failed ErrSessionNotFound)
  | Err err => failed err
  end.

Definition with_term (t : Z) (sn : RelayState) : RelayState :=
  mkRelayState (rsContractVersion sn) (rsSessionID sn) (rsRelayEpoch sn) (rsRevision sn) t (rsObservedAt sn)
    (rsBuses sn) (rsSubscriptions sn).

(** Which error removes the Session from this process. *)
Definition push_failed (id : string) (err : authority_error) : pc :=
  match err with ErrSessionNotFound | ErrFenced => Remove id err | ErrUnavailable => Return (Err err) end.

(** ** One atomic step of a goroutine

    [c] is when its context ends during a call to the authority, [cancelled] that
    it ends while waiting.  [None]: blocked, or returned. *)

(** [requireActiveControlSession] up to [ensureMediaWriter] *)
Definition require_step `{Authority A} (c : option nat) (srv : server) (a : A) (id : string) : option (server * A * pc) :=
  Some (srv, a, authorityMetadata c id a Ensure (λ err, Return (Err err))).

(** [ensureMediaWriter] *)
Definition ensure_step `{Authority A} (c : option nat) (cancelled : bool) (srv : server) (a : A) (p : pc)
  : option (server * A * pc) :=
  match p with
  | Ensure md =>
    match ensure_locked md srv with
    | (srv', Full) => Some (srv', a, Return (Err ErrUnavailable))
    | (srv', Join w) => Some (srv', a, Wait w md)
    | (srv', Begin w) => Some (srv', a, Acquire w (amSessionID md))
    end
  | Acquire w id =>
    match writers srv !! w with
    | Some x => let '(a', r) := acquire c id (relayEpoch srv) (expected x) a in Some (srv, a', Finish w r)
    | None => None
    end
  | Finish w r =>
    Some (finish w r srv, a, Return match r with Ok _ => Ok tt | Err err => Err err end)
  | Wait w md =>
    if cancelled then Some (srv, a, Return (Err ErrUnavailable))
    else match writers srv !! w with
         | Some x =>
           if done x then
             match mwErr x with
             | Some err => Some (srv, a, Return (Err err))
             | None => Some (srv, a, if holds srv x md then Return (Ok tt) else Recheck w (amSessionID md))
             end
           else None
         | None => None
         end
  | Recheck w id =>
    match writers srv !! w with
    | Some x =>
      Some (srv, a, authorityMetadata c id a
                      (λ current, Return (if holds srv x current then Ok tt else Err ErrFenced))
                      (λ err, Return (Err err)))
    | None => None
    end
  | _ => None
  end.

(** The loop of [pruneMediaWriters] *)
Definition prune_step `{Authority A} (c : option nat) (cancelled : bool) (srv : server) (a : A) (ids : list string)
  : option (server * A * pc) :=
  match ids with
  | [] => Some (srv, a, Return (Ok tt))
  | id :: ids' =>
    if cancelled then Some (srv, a, Return (Ok tt))
    else if bool_decide (id ∈ relaySessions srv) then Some (srv, a, Prune ids')
    else Some (srv, a, authorityMetadata c id a (λ _, Prune ids') (λ _, Prune ids'))
  end.

(** [pushControlState], after it has taken the state *)
Definition push_step `{Authority A} (c : option nat) (srv : server) (a : A) (p : pc) : option (server * A * pc) :=
  match p with
  | Push id sn =>
    match mediaWriterTerm id srv with
    | Ok t => Some (srv, a, Send id (with_term t sn))
    | Err err => Some (srv, a, push_failed id err)
    end
  | Send id sn =>
    let '(a', r) := push_state c id sn a in
    Some (srv, a', match r with Ok _ => Return (Ok tt) | Err err => push_failed id err end)
  | Remove id err =>
    Some (set_sessions (relaySessions srv ∖ {[id]}) srv, a,
          match err with ErrSessionNotFound => Forget id (Return (Ok tt)) | _ => Return (Ok tt) end)
  | _ => None
  end.

Definition thread_step `{Authority A} (c : option nat) (cancelled : bool) (srv : server) (a : A) (p : pc)
  : option (server * A * pc) :=
  match p with
  | Lookup id => require_step c srv a id
  | Forget id next => Some (set_table (delete id (mediaWriters srv)) srv, a, next)
  | Ensure _ | Acquire _ _ | Finish _ _ | Wait _ _ | Recheck _ _ => ensure_step c cancelled srv a p
  | Prune ids => prune_step c cancelled srv a ids
  | Push _ _ | Send _ _ | Remove _ _ => push_step c srv a p
  | Return _ => None
  end.

(** ** A media process among others *)

Section World.
Context {A : Type} `{Authority A}.

Record world := mkWorld { srv : server; auth : A; threads : list pc }.

Definition spawn (p : pc) (w : world) : world := mkWorld (srv w) (auth w) (threads w ++ [p]).

(** Everything that can happen, with Session [id] under observation: a goroutine
    takes a step or starts, the registry changes, or other parties act on the
    authority. *)
Inductive wstep (id : string) (w : world) : world → Prop :=
| step_thread i p c cancelled srv' a' p' :
    threads w !! i = Some p → thread_step c cancelled (srv w) (auth w) p = Some (srv', a', p') →
    wstep id w (mkWorld srv' a' (<[i := p']> (threads w)))
| step_request k : wstep id w (spawn (Lookup k) w)
| step_push k sn : rsRelayEpoch sn = relayEpoch (srv w) → wstep id w (spawn (Push k sn) w)
| step_prune ids : ids ≡ₚ map fst (map_to_list (mediaWriters (srv w))) → wstep id w (spawn (Prune ids) w)
| step_registry l : wstep id w (mkWorld (set_sessions l (srv w)) (auth w) (threads w))
| step_others a' : others id (relayEpoch (srv w)) (auth w) a' → wstep id w (mkWorld (srv w) a' (threads w)).

(** The placement counter has not reached the end of its range. *)
Definition below (id : string) (w : world) : Prop :=
  ∀ t e, placement id (auth w) = Some (t, e) → is_u64 t ∧ is_u64 (t + 1).

Definition run (id : string) : world → world → Prop := rtc (λ w w', wstep id w w' ∧ below id w').

Context `{!AuthorityLaws A}.

Section Observed.
Context (id epoch : string).

(** What holds of a goroutine while the Session is there with placement term [t];
    [own w] is the Session writer [w] was made for, [n] the number of writers. *)
Fixpoint thread_ok (own : nat → string) (t : Z) (n : nat) (p : pc) : Prop :=
  match p with
  | Forget k next => k ≠ id ∧ thread_ok own t n next
  | Ensure md => amSessionID md = id → amMediaTerm md <= t
  | Acquire w k => (w < n)%nat ∧ own w = k
  | Finish w r => (w < n)%nat ∧ (r = Err ErrSessionNotFound → own w ≠ id)
  | Remove k err => err = ErrSessionNotFound → k ≠ id
  | _ => True
  end.

(** [ox] is the term this process expects of the Session, once it has tried to
    place it: it is at most the current term, and the process holds the Session
    only at the term that follows. *)
Record placed (ox : option Z) (own : nat → string) (t : Z) (e : string) (s : server) : Prop := {
  pl_fence : match ox with None => e ≠ epoch | Some x => x <= t ∧ (e = epoch → t = x + 1) end;
  pl_table : ∀ k w, mediaWriters s !! k = Some w → own w = k ∧ (w < length (writers s))%nat;
  pl_tried : is_Some (mediaWriters s !! id) ↔ is_Some ox;
  pl_writers : ∀ w x, writers s !! w = Some x → own w = id →
               ox = Some (expected x) ∧ mwErr x ≠ Some ErrSessionNotFound }.

Definition observed (ox : option Z) (w : world) : Prop :=
  consistent (auth w) ∧ relayEpoch (srv w) = epoch ∧
  ∀ t e, placement id (auth w) = Some (t, e) →
    (∃ own, placed ox own t e (srv w) ∧ Forall (thread_ok own t (length (writers (srv w)))) (threads w)) ∧
    ∀ y, pending id epoch (auth w) y → ox = Some y.

Lemma thread_ok_mono own t t' n p : t <= t' → thread_ok own t n p → thread_ok own t' n p.
Proof.
  intros Hle. induction p; cbn; try done; [intros [? ?]; auto|]. intros Hm E. specialize (Hm E). lia.
Qed.

(** A new writer extends [own]. *)
Definition owned (own : nat → string) (n : nat) (k : string) : nat → string :=
  λ w, if decide (w = n) then k else own w.

Lemma thread_ok_owned own t n k p : thread_ok own t n p → thread_ok (owned own n k) t (S n) p.
Proof.
  induction p; cbn; try done; unfold owned.
  - intros [? ?]; auto.
  - intros [? ?]. rewrite decide_False by lia. split; [lia|done].
  - intros [? ?]. rewrite decide_False by lia. split; [lia|done].
Qed.

Lemma enter_placed ox own t e s k x :
  placed ox own t e s → (k = id → ox = Some x) →
  placed ox (owned own (length (writers s)) k) t e (enter k x s).
Proof.
  intros [Hf Ht Hi Hw] Hk. split; [done|..]; cbn [enter set_table set_writers mediaWriters writers]; unfold owned.
  - intros k' w. rewrite length_app. cbn [length]. intros [[<- <-]|[Hne Hl]]%lookup_insert_Some.
    + rewrite decide_True by done. split; [done|lia].
    + destruct (Ht k' w Hl) as [Ho Hlt]. rewrite decide_False by lia. split; [done|lia].
  - destruct (decide (k = id)) as [->|Hne]; [|by rewrite lookup_insert_ne].
    rewrite lookup_insert_eq, (Hk eq_refl). split; eauto.
  - intros w y [Hl|[Hge Hl]]%lookup_app_Some.
    + pose proof (lookup_lt_Some _ _ _ Hl). rewrite decide_False by lia. by apply Hw.
    + apply list_lookup_singleton_Some in Hl as [E <-]. rewrite decide_True by lia. intros ->. split; [auto|done].
Qed.

Lemma advance_placed ox own t e t' e' s :
  placed ox own t e s → ((t', e') = (t, e) ∨ t' = u64 (t + 1) ∧ e' ≠ epoch) → is_u64 (t + 1) →
  placed ox own t' e' s ∧ t <= t'.
Proof.
  intros Hp [[= -> ->]|[-> Hne]] Hu; [split; [done|lia]|]. rewrite u64_small by done. split; [|lia].
  destruct Hp as [Hf Ht Hi Hw]. split; [|done..]. destruct ox as [x|]; [|done]. destruct Hf. split; [lia|done].
Qed.

(** The Session is entered for the first time. *)
Lemma enter_placed_first own t e s x :
  placed None own t e s → x <= t → placed (Some x) (owned own (length (writers s)) id) t e (enter id x s).
Proof.
  intros [Hf Ht Hi Hw] Hx. split; [split; [done|by intros]|..]; cbn [enter set_table set_writers mediaWriters writers]; unfold owned.
  - intros k' w. rewrite length_app. cbn [length]. intros [[<- <-]|[Hne Hl]]%lookup_insert_Some.
    + rewrite decide_True by done. split; [done|lia].
    + destruct (Ht k' w Hl) as [Ho Hlt]. rewrite decide_False by lia. split; [done|lia].
  - rewrite lookup_insert_eq. split; eauto.
  - intros w y [Hl|[Hge Hl]]%lookup_app_Some.
    + pose proof (lookup_lt_Some _ _ _ Hl). rewrite decide_False by lia. intros Ho. by destruct (Hw w y Hl Ho).
    + apply list_lookup_singleton_Some in Hl as [E <-]. by rewrite decide_True by lia.
Qed.

(** A step of a goroutine keeps the observation if it does so whenever the
    Session is there. *)
Lemma thread_observed ox ox' w i p s' a' p' :
  observed ox w → threads w !! i = Some p → consistent a' → relayEpoch s' = epoch →
  (∀ t' e', placement id a' = Some (t', e') →
     ∃ t e, placement id (auth w) = Some (t, e) ∧ t <= t' ∧
       ∀ own, placed ox own t e (srv w) → thread_ok own t (length (writers (srv w))) p →
         (∀ y, pending id epoch (auth w) y → ox = Some y) →
         (∀ y, pending id epoch a' y → ox' = Some y) ∧
         ∃ own', placed ox' own' t' e' s' ∧ thread_ok own' t' (length (writers s')) p' ∧
           ∀ q, thread_ok own t (length (writers (srv w))) q → thread_ok own' t' (length (writers s')) q) →
  observed ox' (mkWorld s' a' (<[i := p']> (threads w))).
Proof.
  intros (Hc & He & Ho) Hi Hc' He' Hstep. split; [done|]. split; [done|]. intros t' e' Hp'. cbn in Hp'.
  destruct (Hstep t' e' Hp') as (t & e & Hp & Hle & Hst). destruct (Ho t e Hp) as ((own & Hpl & Hth) & Hpd).
  destruct (Hst own Hpl) as (Hpd' & own' & Hpl' & Hp0 & Hq); [by eapply Forall_lookup_1|done|]. split; [|done]. exists own'. split; [done|].
  cbn. apply Forall_insert; [|done]. eapply Forall_impl; [exact Hth|]. done.
Qed.

(** The same when only the goroutine moves. *)
Lemma local_observed ox w i p p' :
  observed ox w → threads w !! i = Some p →
  (∀ t e own, placement id (auth w) = Some (t, e) → placed ox own t e (srv w) →
     thread_ok own t (length (writers (srv w))) p → thread_ok own t (length (writers (srv w))) p') →
  observed ox (mkWorld (srv w) (auth w) (<[i := p']> (threads w))).
Proof.
  intros Ho Hi Hp'. destruct Ho as (Hc & He & Ho'). eapply thread_observed; [split; [exact Hc|split; [exact He|exact Ho']]|exact Hi|done|done|].
  intros t e Hp. exists t, e. split; [done|]. split; [lia|]. intros own Hpl Hth Hpd. split; [done|]. exists own. eauto.
Qed.

(** A goroutine that asks the authority about [k]. *)
Lemma metadata_thread_ok own t e n c k a next failed :
  consistent a → placement id a = Some (t, e) →
  (∀ md, amSessionID md = k → placement k a = Some (amMediaTerm md, amRelayEpoch md) → thread_ok own t n (next md)) →
  (∀ err, thread_ok own t n (failed err)) →
  thread_ok own t n (authorityMetadata c k a next failed).
Proof.
  intros Hc Hp Hn Hf. unfold authorityMetadata. destruct (metadata c k a) as [md|err] eqn:Hm.
  - apply metadata_ok in Hm as [Hk Hm]; auto.
  - destruct err; auto. split; [|auto]. intros ->. apply metadata_gone in Hm; [congruence|done].
Qed.

Lemma writer_err_ok ox own t e s k err :
  placed ox own t e s → mediaWriterTerm k s = Err err → err = ErrSessionNotFound → k ≠ id.
Proof.
  intros [_ Ht _ Hw] Hm -> ->. unfold mediaWriterTerm in Hm. destruct (mediaWriters s !! id) as [w|] eqn:El; [|done].
  destruct (writers s !! w) as [x|] eqn:Ex; [|done]. destruct (Ht id w El) as [Ho _]. destruct (Hw w x Ex Ho) as [_ Hne].
  destruct (done x); [|done]. destruct (mwErr x); [|done]. congruence.
Qed.

Lemma push_failed_ok own t n k err : (err = ErrSessionNotFound → k ≠ id) → thread_ok own t n (push_failed k err).
Proof. by destruct err. Qed.

Lemma finish_placed ox own t e s w r :
  placed ox own t e s → (r = Err ErrSessionNotFound → own w ≠ id) → placed ox own t e (finish w r s).
Proof.
  intros [Hf Ht Hi Hw] Hr. split; [done| |done|]; cbn [finish set_writers mediaWriters writers].
  - intros k w'. rewrite length_alter. apply Ht.
  - intros w' x Hx Ho. destruct (decide (w' = w)) as [->|Hne].
    + rewrite list_lookup_alter, decide_True in Hx by done. apply fmap_Some in Hx as (y & Hy & ->). destruct (Hw w y Hy Ho) as [Hox Herr].
      destruct r as [t'|err]; [done|]. split; [done|]. cbn. intros [= ->]. by apply Hr.
    + rewrite list_lookup_alter_ne in Hx by done. exact (Hw w' x Hx Ho).
Qed.

(** The locked part of [ensureMediaWriter]. *)
Lemma ensure_observed ox w i md c cancelled s' a' p' :
  observed ox w → threads w !! i = Some (Ensure md) →
  thread_step c cancelled (srv w) (auth w) (Ensure md) = Some (s', a', p') →
  observed ox (mkWorld s' a' (<[i := p']> (threads w))) ∨
  (ox = None ∧ ∃ x, observed (Some x) (mkWorld s' a' (<[i := p']> (threads w)))).
Proof.
  intros Ho Hi. pose proof Ho as (Hc & He & _). cbn [thread_step require_step ensure_step prune_step push_step]. unfold ensure_locked.
  assert (Henter : ∀ x ox', (ox = None ∨ ox' = ox) →
    (∀ t e own, placed ox own t e (srv w) → (amSessionID md = id → amMediaTerm md <= t) →
       placed ox' (owned own (length (writers (srv w))) (amSessionID md)) t e (enter (amSessionID md) x (srv w))) →
    observed ox' (mkWorld (enter (amSessionID md) x (srv w)) (auth w)
                    (<[i := Acquire (length (writers (srv w))) (amSessionID md)]> (threads w)))).
  { intros x ox' Hox Hpl. eapply thread_observed; [exact Ho|exact Hi|done|done|]. intros t e Hp. exists t, e.
    split; [done|]. split; [lia|]. intros own Hpl0 Hth Hpd. split.
    { intros y Hy. specialize (Hpd y Hy). destruct Hox as [-> | ->]; congruence. }
    eexists. split; [by apply Hpl|].
    cbn [enter set_table set_writers writers]. rewrite length_app, Nat.add_1_r. split.
    - cbn. unfold owned. rewrite decide_True by done. split; [lia|done].
    - intros q. apply thread_ok_owned. }
  destruct (mediaWriters (srv w) !! amSessionID md) as [wr|] eqn:El.
  - destruct (writers (srv w) !! wr) as [x|] eqn:Ex.
    2: { intros [= <- <- <-]. left. by eapply local_observed. }
    destruct (retried x); intros [= <- <- <-]; left; [|by eapply local_observed].
    apply Henter; [by right|]. intros t e own Hpl _. apply enter_placed; [done|]. intros Hk.
    destruct Hpl as [_ Ht _ Hw]. destruct (Ht _ _ El) as [Hown _]. by apply (Hw wr x Ex); congruence.
  - case_if; intros [= <- <- <-]; [left; by eapply local_observed|].
    destruct (decide (amSessionID md = id)) as [Hk|Hk].
    + destruct ox as [x|].
      * left. apply Henter; [by right|]. intros t e own [_ _ Hi' _]. rewrite <- Hk, El in Hi'. destruct Hi' as [_ Hi'].
        destruct Hi' as [? ?]; [eauto|done].
      * right. split; [done|]. exists (amMediaTerm md). apply Henter; [by left|].
        intros t e own Hpl Hle. rewrite Hk. apply enter_placed_first; auto.
    + left. apply Henter; [by right|]. intros t e own Hpl _. by apply enter_placed.
Qed.

(** An acquisition. *)
Lemma acquire_observed ox w i wr k x c a' r :
  observed ox w → below id w → threads w !! i = Some (Acquire wr k) → writers (srv w) !! wr = Some x →
  acquire c k (relayEpoch (srv w)) (expected x) (auth w) = (a', r) →
  observed ox (mkWorld (srv w) a' (<[i := Finish wr r]> (threads w))).
Proof.
  intros Ho Hb Hi Hx Ha. pose proof Ho as (Hc & He & _). rewrite He in Ha.
  assert (Hc' : consistent a') by (pose proof (acquire_consistent c k epoch (expected x) (auth w) Hc) as Hc'; by rewrite Ha in Hc').
  assert (Hpd : ∀ own t e, placed ox own t e (srv w) → own wr = k → (∀ y, pending id epoch (auth w) y → ox = Some y) →
                  ∀ y, pending id epoch a' y → ox = Some y).
  { intros own t e Hpl Hown Hpd y Hy. pose proof (acquire_pending c k epoch (expected x) (auth w) id y) as Hq. rewrite Ha in Hq.
    destruct (Hq Hy) as [Hy'|[E ->]]; [auto|]. destruct (pl_writers _ _ _ _ _ Hpl wr x Hx) as [? _]; congruence. }
  eapply thread_observed; [exact Ho|exact Hi|done|done|]. intros t' e' Hp'.
  destruct (decide (k = id)) as [->|Hk].
  - assert (Hstep : ∃ t e, placement id (auth w) = Some (t, e) ∧
              ((t', e') = (t, e) ∨ t = expected x ∧ t' = t + 1 ∧ e' = epoch)).
    { destruct r as [t1|err].
      - destruct (acquire_placed _ _ _ _ _ _ _ Hc Ha) as (t & e & Hp & Hd). exists t, e. split; [done|].
        destruct (Hb t e Hp) as [_ Hu]. destruct Hd as [(-> & _ & _ & Hp1)|(Hxt & -> & Hp1)]; rewrite Hp1 in Hp'; injection Hp' as <- <-;
          [by left|right]. by rewrite u64_small.
      - destruct (acquire_fails _ _ _ _ _ _ _ Hc Ha) as [E|(e & Hp & E)]; rewrite E in Hp'; [eauto|]. exists (expected x), e.
        split; [done|]. destruct (Hb _ _ Hp) as [_ Hu]. injection Hp' as <- <-. right. by rewrite u64_small. }
    destruct Hstep as (t & e & Hp & Hd). exists t, e. split; [done|].
    assert (Hgone : r = Err ErrSessionNotFound → False).
    { intros ->. apply acquire_gone in Ha; [congruence|done]. }
    split; [destruct Hd as [[= -> ->]|(_ & -> & _)]; lia|]. intros own Hpl [Hlt Hown] Hq. split; [by eapply Hpd|].
    exists own. destruct Hd as [[= -> ->]|(Hxt & -> & ->)].
    + split; [done|]. split; [split; [done|by intros ?%Hgone]|done].
    + split; [|split; [split; [done|by intros ?%Hgone]|intros q; apply thread_ok_mono; lia]].
      destruct Hpl as [Hf Ht Hi' Hw]. split; [|done..]. destruct (Hw wr x Hx Hown) as [-> _]. split; [lia|]. by intros _; rewrite Hxt.
  - assert (Hadv : advances epoch (placement id (auth w)) (placement id a')).
    { pose proof (acquire_elsewhere c k id epoch (expected x) (auth w) Hc ltac:(congruence)) as Hadv. rewrite Ha in Hadv.
      cbn in Hadv. rewrite Hadv. apply advances_refl. }
    destruct (Hadv t' e' Hp') as (t & e & Hp & Hm). destruct (Hb t e Hp) as [_ Hu]. exists t, e. split; [done|].
    assert (t <= t') by (destruct Hm as [[= -> ->]|[-> _]]; [lia|rewrite u64_small by done; lia]).
    split; [done|]. intros own Hpl [Hlt Hown] Hq. split; [by eapply Hpd|]. exists own. split; [by eapply advance_placed|].
    split; [split; [done|intros _; congruence]|intros q; by apply thread_ok_mono].
Qed.

(** Something else happens to the authority while the goroutines stand still, or
    while one reports a state. *)
Lemma advance_observed ox w a' l :
  observed ox w → below id w → consistent a' → (∀ y, pending id epoch a' y → pending id epoch (auth w) y) →
  advances epoch (placement id (auth w)) (placement id a') ∨
    (∃ x, pending id epoch (auth w) x ∧ takes epoch x (placement id (auth w)) (placement id a')) →
  (∀ own t n, Forall (thread_ok own t n) (threads w) → is_Some (placement id a') → Forall (thread_ok own t n) l) →
  observed ox (mkWorld (srv w) a' l).
Proof.
  intros (_ & He & Ho) Hb Hc' Hpd Hadv Hl. split; [done|]. split; [done|]. intros t' e' Hp'. cbn in Hp'.
  assert (Hst : ∃ t e, placement id (auth w) = Some (t, e) ∧ t <= t' ∧
            ∀ own, placed ox own t e (srv w) → (∀ y, pending id epoch (auth w) y → ox = Some y) → placed ox own t' e' (srv w)).
  { destruct Hadv as [Hadv|(x & Hx & e & Hp & Hp1)].
    - destruct (Hadv t' e' Hp') as (t & e & Hp & Hm). destruct (Hb t e Hp) as [_ Hu]. exists t, e. split; [done|].
      split; [destruct Hm as [[= -> ->]|[-> _]]; [lia|rewrite u64_small by done; lia]|]. intros own Hpl _. by eapply advance_placed.
    - destruct (Hb x e Hp) as [_ Hu]. rewrite Hp1, u64_small in Hp' by done. injection Hp' as <- <-. exists x, e.
      split; [done|]. split; [lia|]. intros own [Hf Ht Hi Hw] Hq. rewrite (Hq x Hx) in *. split; [|done..]. split; [lia|done]. }
  destruct Hst as (t & e & Hp & Hle & Hst). destruct (Ho t e Hp) as ((own & Hpl & Hth) & Hq).
  split; [|intros y Hy; by apply Hq, Hpd]. exists own. split; [by apply Hst|].
  cbn. eapply Forall_impl; [apply Hl; [exact Hth|eauto]|]. intros q. by apply thread_ok_mono.
Qed.

Lemma send_observed ox w i k sn c a' r :
  observed ox w → below id w → threads w !! i = Some (Send k sn) → push_state c k sn (auth w) = (a', r) →
  observed ox (mkWorld (srv w) a'
    (<[i := match r with Ok _ => Return (Ok tt) | Err err => push_failed k err end]> (threads w))).
Proof.
  intros Ho Hb Hi Ha. pose proof Ho as (Hc & He & _).
  pose proof (push_consistent c k sn (auth w) Hc) as Hc'. pose proof (push_keeps c k id sn epoch (auth w) Hc) as Hadv.
  pose proof (λ y, push_pending c k sn (auth w) id epoch y) as Hpd.
  rewrite Ha in Hc', Hadv, Hpd. apply advance_observed; [done..|by left|]. intros own t n Hth [[t' e'] Hp'].
  apply Forall_insert; [done|]. destruct r as [[]|err]; [done|]. apply push_failed_ok. intros -> ->.
  apply push_gone in Ha; [|done]. destruct (Hadv t' e' Hp') as (t0 & e0 & Hp & _). congruence.
Qed.

Lemma forget_observed ox w i k next :
  observed ox w → threads w !! i = Some (Forget k next) →
  observed ox (mkWorld (set_table (delete k (mediaWriters (srv w))) (srv w)) (auth w) (<[i := next]> (threads w))).
Proof.
  intros Ho Hi. pose proof Ho as (Hc & He & _). eapply thread_observed; [exact Ho|exact Hi|done|done|].
  intros t e Hp. exists t, e. split; [done|]. split; [lia|]. intros own [Hf Ht Hi' Hw] [Hne Hn] Hpd. split; [done|]. exists own.
  split; [|by split]. split; [done| | |done]; cbn [set_table mediaWriters].
  - intros k' w' Hl. apply lookup_delete_Some in Hl as [_ Hl]. by apply Ht.
  - by rewrite lookup_delete_ne.
Qed.

(** One step of a goroutine. *)
Lemma thread_step_observed ox w i p c cancelled s' a' p' :
  observed ox w → below id w → threads w !! i = Some p →
  thread_step c cancelled (srv w) (auth w) p = Some (s', a', p') →
  observed ox (mkWorld s' a' (<[i := p']> (threads w))) ∨
  (ox = None ∧ ∃ x, observed (Some x) (mkWorld s' a' (<[i := p']> (threads w)))).
Proof.
  intros Ho Hb Hi Hs. pose proof Ho as (Hc & He & _). destruct p as [k|k next|md|wr k|wr r|wr md|wr k|ids|k sn|k sn|k err|r];
    [..|done]; try by eapply ensure_observed.
  all: left; cbn [thread_step require_step ensure_step prune_step push_step] in Hs.
  - injection Hs as <- <- <-. eapply local_observed; [done..|]. intros t e own Hp _ _.
    apply (metadata_thread_ok own t e); [done|done| |done]. intros md Hk Hpl Hid. assert (k = id) as -> by congruence.
    rewrite Hp in Hpl. injection Hpl as ->. lia.
  - injection Hs as <- <- <-. by apply forget_observed.
  - destruct (writers (srv w) !! wr) as [x|] eqn:Hx; [|done]. destruct (acquire _ _ _ _ _) as [a1 r] eqn:Ha.
    injection Hs as <- <- <-. by eapply acquire_observed.
  - injection Hs as <- <- <-. eapply thread_observed; [exact Ho|exact Hi|done|done|]. intros t e Hp. exists t, e.
    split; [done|]. split; [lia|]. intros own Hpl [Hlt Hr] Hpd. split; [done|]. exists own. split; [by apply finish_placed|].
    cbn [finish set_writers writers]. rewrite length_alter. by destruct r.
  - destruct cancelled; [injection Hs as <- <- <-; by eapply local_observed|].
    destruct (writers (srv w) !! wr) as [x|]; [|done]. destruct (done x); [|done].
    destruct (mwErr x); injection Hs as <- <- <-; [by eapply local_observed|]. destruct (holds _ _ _); by eapply local_observed.
  - destruct (writers (srv w) !! wr) as [x|]; [|done]. injection Hs as <- <- <-. eapply local_observed; [done..|].
    intros t e own Hp _ _. by apply (metadata_thread_ok own t e).
  - destruct ids as [|k ids]; cbn [prune_step] in Hs; [injection Hs as <- <- <-; by eapply local_observed|].
    destruct cancelled; [injection Hs as <- <- <-; by eapply local_observed|].
    case_bool_decide; injection Hs as <- <- <-; eapply local_observed; try done.
    intros t e own Hp _ _. by apply (metadata_thread_ok own t e).
  - destruct (mediaWriterTerm k (srv w)) as [t|err] eqn:Hm; injection Hs as <- <- <-; eapply local_observed; try done.
    intros t e own _ Hpl _. apply push_failed_ok. by eapply writer_err_ok.
  - destruct (push_state _ _ _ _) as [a1 r] eqn:Ha. injection Hs as <- <- <-. by eapply send_observed.
  - injection Hs as <- <- <-. eapply thread_observed; [exact Ho|exact Hi|done|done|]. intros t e Hp. exists t, e.
    split; [done|]. split; [lia|]. intros own Hpl Hr Hpd. split; [done|]. exists own. split; [by destruct Hpl|]. split; [|done].
    destruct err; cbn in Hr |- *; auto.
Qed.

(** One step of the world. *)
Lemma wstep_observed ox w w' :
  observed ox w → below id w → wstep id w w' →
  observed ox w' ∨ (ox = None ∧ ∃ x, observed (Some x) w').
Proof.
  intros Ho Hb Hs. pose proof Ho as (Hc & He & Ho').
  assert (Hspawn : ∀ p, (∀ own t n, thread_ok own t n p) → observed ox (spawn p w)).
  { intros p Hp. apply advance_observed; [done|done|done|done|by left|]. intros own t n Hth _.
    apply Forall_app. split; [done|]. by apply Forall_singleton. }
  destruct Hs as [i p c cancelled s' a' p' Hi Hst|k|k sn _|ids _|l|a' Hoth]; try (left; by apply Hspawn).
  - by eapply thread_step_observed.
  - left. split; [done|]. split; [done|]. intros t e Hp. destruct (Ho' t e Hp) as ((own & [] & Hth) & Hq). split; [|done]. by exists own.
  - left. rewrite He in Hoth.
    apply advance_observed; [done|done|by eapply others_consistent|intros y; by eapply others_pending|by eapply others_advance|done].
Qed.

(** The placement term only grows, and a new epoch comes with a new term. *)
Definition grows (before after : option (Z * string)) : Prop :=
  ∀ t' e', after = Some (t', e') → ∃ t e, before = Some (t, e) ∧ ((t', e') = (t, e) ∨ t' = t + 1).

Lemma takes_grows w x p' : below id w → takes epoch x (placement id (auth w)) p' → grows (placement id (auth w)) p'.
Proof.
  intros Hb (e & Hp & ->) t' e' [= <- <-]. exists x, e. split; [done|]. right. destruct (Hb x e Hp) as [_ Hu]. by apply u64_small.
Qed.

Lemma advances_grows w p' : below id w → advances epoch (placement id (auth w)) p' → grows (placement id (auth w)) p'.
Proof.
  intros Hb Ha t' e' Hp'. destruct (Ha t' e' Hp') as (t & e & Hp & Hm). exists t, e. split; [done|].
  destruct (Hb t e Hp) as [_ Hu]. destruct Hm as [Hm|[-> _]]; [by left|right; by apply u64_small].
Qed.

Lemma acquire_grows w c k x a' r :
  consistent (auth w) → below id w → acquire c k epoch x (auth w) = (a', r) →
  grows (placement id (auth w)) (placement id a').
Proof.
  intros Hc Hb Ha. destruct (decide (k = id)) as [->|Hk].
  - destruct r as [t1|err].
    2: { destruct (acquire_fails _ _ _ _ _ _ _ Hc Ha) as [-> |Ht]; [intros t e Hp; eauto|by eapply takes_grows]. }
    destruct (acquire_placed _ _ _ _ _ _ _ Hc Ha) as (t & e & Hp & Hd). destruct (Hb t e Hp) as [_ Hu].
    intros t' e' Hp'. exists t, e. split; [done|].
    destruct Hd as [(_ & _ & _ & Hp1)|(_ & -> & Hp1)]; rewrite Hp1 in Hp'; injection Hp' as <- <-; [by left|right; by apply u64_small].
  - apply advances_grows; [done|].
    pose proof (acquire_elsewhere c k id epoch x (auth w) Hc ltac:(congruence)) as Hadv. rewrite Ha in Hadv.
    cbn in Hadv. rewrite Hadv. apply advances_refl.
Qed.

Lemma wstep_grows w w' :
  consistent (auth w) → relayEpoch (srv w) = epoch → below id w → wstep id w w' →
  grows (placement id (auth w)) (placement id (auth w')).
Proof.
  intros Hc He Hb Hs. assert (Hrefl : grows (placement id (auth w)) (placement id (auth w))) by (intros t e Hp; eauto).
  destruct Hs as [i p c cancelled s' a' p' Hi Hst|k|k sn _|ids _|l|a' Hoth]; cbn [auth spawn]; try done.
  - destruct p as [k|k next|md|wr k|wr r|wr md|wr k|ids|k sn|k sn|k err|r]; cbn [thread_step require_step ensure_step prune_step push_step] in Hst;
      unfold require_step, prune_step in *; try (repeat case_match; simplify_eq; done).
    + destruct (writers (srv w) !! wr) as [x|]; [|done]. destruct (acquire _ _ _ _ _) as [a1 r] eqn:Ha.
      injection Hst as <- <- <-. rewrite He in Ha. by eapply acquire_grows.
    + pose proof (push_keeps c k id sn epoch (auth w) Hc) as Hadv. destruct (push_state _ _ _ _) as [a1 r].
      injection Hst as <- <- <-. by apply advances_grows.
  - rewrite He in Hoth. destruct (others_advance _ _ _ _ Hc Hoth) as [Ha|(x & _ & Ha)]; [by apply advances_grows|by eapply takes_grows].
Qed.

(** The process has been in charge since term [x + 1], or another one came. *)
Definition since (x : Z) (w : world) : Prop :=
  ∀ t e, placement id (auth w) = Some (t, e) → (t, e) = (x + 1, epoch) ∨ x + 1 < t.
Definition past (x : Z) (w : world) : Prop := ∀ t e, placement id (auth w) = Some (t, e) → x + 1 < t.

Lemma run_observed x (Q : world → Prop) w w' :
  (∀ w1 w2, grows (placement id (auth w1)) (placement id (auth w2)) → Q w1 → Q w2) →
  observed (Some x) w → below id w → Q w → run id w w' →
  observed (Some x) w' ∧ below id w' ∧ Q w'.
Proof.
  intros HQ Ho Hb Hq. induction 1 as [w|w1 w2 w3 [Hs Hb2] _ IH]; [done|].
  pose proof Ho as (Hc & He & _). apply IH; [|done|].
  - by destruct (wstep_observed _ _ _ Ho Hb Hs) as [|[? _]].
  - eapply HQ; [|exact Hq]. by apply wstep_grows.
Qed.

Lemma start_observed w w' :
  observed None w → below id w → run id w w' → ∃ ox, observed ox w' ∧ below id w'.
Proof.
  intros Ho Hb Hr. assert (Hx : ∃ ox, observed ox w) by eauto. clear Ho.
  induction Hr as [w|w1 w2 w3 [Hs Hb2] _ IH]; [destruct Hx; eauto|]. destruct Hx as [ox Ho].
  apply IH; [done|]. destruct (wstep_observed _ _ _ Ho Hb Hs) as [|[_ [x ?]]]; eauto.
Qed.
End Observed.

(** C2: A media process that was displaced stays displaced.  A process that starts
    with an epoch of its own and places Session [id], and that another process
    then displaces, never holds the Session again: whatever its goroutines do,
    admissions, retries after failures, reports and pruning, interleaved with
    the goroutines of other processes and with everything that happens to the
    authority, acquisitions included that take effect although their caller saw
    them fail or gave up on them, as long as the identity is not drawn again for a
    new Session and the placement counter does not wrap. *)
Theorem displaced_process_stays_displaced id w0 w1 w2 w3 t1 t2 e2 :
  consistent (auth w0) → below id w0 → writers (srv w0) = [] → mediaWriters (srv w0) = ∅ → threads w0 = [] →
  (∀ t, placement id (auth w0) ≠ Some (t, relayEpoch (srv w0))) →
  (∀ x, ¬ pending id (relayEpoch (srv w0)) (auth w0) x) →
  run id w0 w1 → placement id (auth w1) = Some (t1, relayEpoch (srv w0)) →
  run id w1 w2 → placement id (auth w2) = Some (t2, e2) → e2 ≠ relayEpoch (srv w0) →
  run id w2 w3 → ∀ t3, placement id (auth w3) ≠ Some (t3, relayEpoch (srv w0)).
Proof.
  intros Hc Hb Hw Hm Ht Hfresh Hnone H01 Hp1 H12 Hp2 Hne H23 t3 Hp3. set (epoch := relayEpoch (srv w0)) in *.
  assert (Ho : observed id epoch None w0).
  { split; [done|]. split; [done|]. intros t e Hp. split; [|by intros y ?%Hnone]. exists (λ _, ""). rewrite Ht. split; [|constructor].
    split; rewrite ?Hw, ?Hm; [intros ->; by eapply Hfresh| | |].
    - intros k w. by rewrite lookup_empty.
    - rewrite lookup_empty. split; intros [? ?]; done.
    - intros w x. by rewrite lookup_nil. }
  destruct (start_observed id epoch w0 w1 Ho Hb H01) as (ox & Ho1 & Hb1).
  assert (∃ x, ox = Some x ∧ t1 = x + 1) as (x & -> & Ht1).
  { destruct Ho1 as (_ & _ & Ho1). destruct (Ho1 t1 epoch Hp1) as ((own & [Hf _ _ _] & _) & _).
    destruct ox as [x|]; [|done]. exists x. split; [done|]. by apply Hf. }
  assert (Hs1 : since id epoch x w1). { intros t e Hp. left. congruence. }
  destruct (run_observed id epoch x (since id epoch x) w1 w2) as (Ho2 & Hb2 & Hs2); [|done..|].
  { intros w w' Hg Hs t' e' Hp'. destruct (Hg t' e' Hp') as (t & e & Hp & [E|E]);
      destruct (Hs t e Hp) as [[= -> ->]|Hlt]; [left; congruence|right; simplify_eq; lia|right; lia|right; lia]. }
  assert (Hs2' : past id x w2).
  { intros t e Hp. rewrite Hp2 in Hp. injection Hp as <- <-. destruct (Hs2 t2 e2 Hp2) as [[= _ ->]|]; done. }
  destruct (run_observed id epoch x (past id x) w2 w3) as (Ho3 & _ & Hs3); [|done..|].
  { intros w w' Hg Hs t' e' Hp'. destruct (Hg t' e' Hp') as (t & e & Hp & [E|E]); pose proof (Hs t e Hp); simplify_eq; lia. }
  destruct Ho3 as (_ & _ & Ho3). destruct (Ho3 t3 epoch Hp3) as ((own & [[_ Hf] _ _ _] & _) & _).
  specialize (Hs3 t3 epoch Hp3). specialize (Hf eq_refl). lia.
Qed.
End World.

(** *** A run of two media processes *)

Definition movable `{Authority A} (i : nat) (w : world (A := A)) : bool :=
  match threads w !! i with
  | Some p => bool_decide (is_Some (thread_step None false (srv w) (auth w) p))
  | None => false
  end.

(** Goroutine [i] takes a step. *)
Definition goroutine `{Authority A} (i : nat) (w : world (A := A)) : world (A := A) :=
  match threads w !! i with
  | Some p =>
    match thread_step None false (srv w) (auth w) p with
    | Some (s', a', p') => mkWorld s' a' (<[i := p']> (threads w))
    | None => w
    end
  | None => w
  end.

Definition in_range `{Authority A} (id : string) (w : world (A := A)) : bool :=
  match placement id (auth w) with Some (t, _) => (0 <=? t) && (t <? 1000) | None => true end.

Lemma in_range_below `{Authority A} id (w : world (A := A)) : in_range id w = true → below id w.
Proof. unfold in_range, below. intros Hr t e Hp. rewrite Hp in Hr. bool_hyps. unfold_ints. lia. Qed.

Lemma goroutine_step `{Authority A} id i (w : world (A := A)) : movable i w = true → wstep id w (goroutine i w).
Proof.
  unfold movable, goroutine. destruct (threads w !! i) as [p|] eqn:Hi; [|done].
  destruct (thread_step None false (srv w) (auth w) p) as [[[s' a'] p']|] eqn:Hs; [intros _; by econstructor|].
  rewrite bool_decide_false; [done|]. by intros [? ?].
Qed.

Lemma run_snoc `{Authority A} id (w w1 w2 : world (A := A)) :
  run id w w1 → wstep id w1 w2 → in_range id w2 = true → run id w w2.
Proof. intros Hr Hs Hb. eapply rtc_r; [exact Hr|]. split; [done|by apply in_range_below]. Qed.

Lemma goroutine_run `{Authority A} id (w w1 : world (A := A)) i :
  run id w w1 → movable i w1 = true → in_range id (goroutine i w1) = true → run id w (goroutine i w1).
Proof. intros Hr Hm Hb. eapply run_snoc; [exact Hr|by apply goroutine_step|done]. Qed.

#[local] Existing Instances Storage.small_records Token.clear_jwt Token.clear_jwt_laws.
(** Process "epoch-1" places Session "s-1", "epoch-2" displaces it, and the first
    process admits another peer. *)
#[local] Instance example_authority : Authority standalone := standalone_authority service_a.

Definition created : Store :=
  foldl access_apply NewStore
    [AOpen example_key example_config None (1 * Second) (Some "inc-1");
     ACreate service_a ["voice"] None (2 * Second) (Some "s-1") (Some "t-1")].
Definition world0 : world := mkWorld (mkServer "epoch-1" 10 ∅ [] ∅) (mkStandalone created (3 * Second)) [].
Definition asked : world := spawn (Lookup "s-1") world0.
Definition looked_up : world := goroutine 0 asked.
Definition ensured1 : world := goroutine 0 looked_up.
Definition world1 : world := goroutine 0 ensured1.
Definition displacing : access_op := AAcquire service_a "s-1" "epoch-2" 1 None (4 * Second).
Definition world2 : world :=
  mkWorld (srv world1) (mkStandalone (access_apply (store (auth world1)) displacing) (4 * Second)) (threads world1).
Definition settled : world := goroutine 0 world2.
Definition asked_again : world := spawn (Lookup "s-1") settled.
Definition looked_up_again : world := goroutine 1 asked_again.
Definition joined_again : world := goroutine 1 looked_up_again.
Definition waited : world := goroutine 1 joined_again.
Definition world3 : world := goroutine 1 waited.

Lemma run_placing : run "s-1" world0 world1.
Proof.
  apply (goroutine_run _ _ ensured1); [|vm_compute; reflexivity..]. apply (goroutine_run _ _ looked_up); [|vm_compute; reflexivity..].
  apply (goroutine_run _ _ asked); [|vm_compute; reflexivity..].
  apply (run_snoc _ _ world0); [apply rtc_refl|exact (step_request "s-1" world0 "s-1")|vm_compute; reflexivity].
Qed.

Lemma run_displacing : run "s-1" world1 world2.
Proof.
  apply (run_snoc _ _ world1); [apply rtc_refl| |vm_compute; reflexivity].
  apply (step_others "s-1" world1). split; [vm_compute; discriminate|]. right. exists displacing.
  split; [reflexivity|]. split; [discriminate|]. split; [vm_compute; discriminate|reflexivity].
Qed.

Lemma run_displaced : run "s-1" world2 world3.
Proof.
  apply (goroutine_run _ _ waited); [|vm_compute; reflexivity..]. apply (goroutine_run _ _ joined_again); [|vm_compute; reflexivity..].
  apply (goroutine_run _ _ looked_up_again); [|vm_compute; reflexivity..].
  apply (goroutine_run _ _ asked_again); [|vm_compute; reflexivity..].
  apply (run_snoc _ _ settled); [|exact (step_request "s-1" settled "s-1")|vm_compute; reflexivity].
  apply (goroutine_run _ _ world2); [apply rtc_refl|vm_compute; reflexivity..].
Qed.

Lemma created_wf : wf (store_data created).
Proof.
  apply (access_step_wf _ (ACreate service_a ["voice"] None (2 * Second) (Some "s-1") (Some "t-1"))).
  apply (access_step_wf NewStore (AOpen example_key example_config None (1 * Second) (Some "inc-1"))). exact empty_wf.
Qed.

Lemma displaced_process_stays_displaced_witness :
  threads world3 !! 1%nat = Some (Return (Err ErrFenced)) ∧
  ∀ t, placement "s-1" (auth world3) ≠ Some (t, "epoch-1").
Proof.
  split; [vm_compute; reflexivity|].
  refine (displaced_process_stays_displaced "s-1" world0 world1 world2 world3 1 2 "epoch-2" _ _ _ _ _ _ (λ _, id) run_placing _
            run_displacing _ _ run_displaced).
  - exact created_wf.
  - apply in_range_below. vm_compute. reflexivity.
  - reflexivity.
  - reflexivity.
  - reflexivity.
  - intros t. vm_compute. discriminate.
  - vm_compute. reflexivity.
  - vm_compute. reflexivity.
  - discriminate.
Defined.
End Placement.
