(* ===== verification/ControlState.v ===== *)
(** * The state a Session reports

    Translates [internal/session/control_state.go] and the conversion of the
    reported state in [pushControlState] ([internal/server/control_state_sync.go]),
    and relates the reports to what the Access service accepts. *)

From S2P Require Export MediaAuthority.
Import Storage Token Access.

Module ControlState.
Import SessionTypes Bus.
Import AudioBus.AudioBus Session.Session.

Section ControlState.
Context {S : Type} `{BusSubscription S}.

Abbreviation session := (RelaySession (S := S)).

Definition bus_state (b : AudioBus) : BusState :=
  mkBusState (ID b) (role_String (Role b)) (SourceActive b) (SourceGeneration b).
Definition subscription_state (e : subscriptionEntry) : SubscriptionState :=
  mkSubscriptionState (subscriberID e) (busID e).

(** [controlStatePayload]: the buses under their lock, then the subscriptions;
    [rb] and [rs] are the Session at these two moments. *)
Definition controlStatePayload (rb rs : session) : list BusState * list SubscriptionState :=
  (merge_sort (λ a b, string_le (bsBusID a) (bsBusID b)) (bus_state <$> (map_to_list (buses rb)).*2),
   merge_sort (λ a b, string_le (ssSubscriberID a) (ssSubscriberID b)) (subscription_state <$> subscriptions rs)).

(** One attempt of the loop: the Session at each of its four reads. *)
Record attempt := mkAttempt { first_load : session; at_buses : session; at_subscriptions : session; second_load : session }.

(** [ControlState], as the record it is pushed as; [None]: every attempt saw the
    revision change. *)
Fixpoint ControlState (relayEpoch : string) (now : Z) (attempts : list attempt) : option RelayState :=
  match attempts with
  | [] => None
  | v :: attempts' =>
    let rev := revision (stats (first_load v)) in
    let '(bs, ss) := controlStatePayload (at_buses v) (at_subscriptions v) in
    if rev =? revision (stats (second_load v))
    then Some (mkRelayState RelayStateContractVersion (sessionID (first_load v)) relayEpoch rev 0 now bs ss)
    else ControlState relayEpoch now attempts'
  end.

(** An attempt during which nothing happens. *)
Definition undisturbed (r : session) : attempt := mkAttempt r r r r.

Definition reported (relayEpoch : string) (now : Z) (r : session) : RelayState :=
  mkRelayState RelayStateContractVersion (sessionID r) relayEpoch (revision (stats r)) 0 now
    (controlStatePayload r r).1 (controlStatePayload r r).2.

Lemma control_state_undisturbed relayEpoch now r rest :
  ControlState relayEpoch now (undisturbed r :: rest) = Some (reported relayEpoch now r).
Proof. cbn. by rewrite Z.eqb_refl. Qed.

(** ** What the service accepts *)

(** The buses of a Session are kept under their own identity. *)
Definition keyed (r : session) : Prop := ∀ k b, buses r !! k = Some b → ID b = k.

Lemma step_ID b l b' out : step b l = Some (b', out) → ID b' = ID b.
Proof.
  destruct l; cbn; intros Hs; repeat case_match; simplify_eq; try done;
    unfold attach, start_loop, receive_packet, deliver_packet, detach, arm_reconnect, close; by repeat case_match.
Qed.

Lemma deliver_buses bus d m r : buses (deliverWithSource bus d m r).1 = buses r.
Proof.
  unfold deliverWithSource. generalize (dead (fan_out bus d m r)). intros ids.
  change (buses r) with (buses (set_objects (fan_objects (fan_out bus d m r)) r)).
  generalize (counts (fan_out bus d m r)), (set_objects (fan_objects (fan_out bus d m r)) r). clear d m r.
  induction ids as [|id ids IH]; intros m r; [done|]. cbn [foldl].
  rewrite (surjective_pairing (evict (r, m) id)), IH. cbn. by destruct (RemoveSubscription_frame id r) as (_ & _ & _ & -> & _).
Qed.

Lemma keyed_insert r r' k b : keyed r → buses r' = <[k := b]> (buses r) → ID b = k → keyed r'.
Proof. intros Hk Hb Hid k' b' Hl. rewrite Hb in Hl. apply lookup_insert_Some in Hl as [[<- <-]|[_ Hl]]; auto. Qed.

Lemma keyed_same r r' : keyed r → buses r' = buses r → keyed r'.
Proof. intros Hk Hb k b Hl. rewrite Hb in Hl. auto. Qed.

Lemma keyed_close r : keyed r → keyed (Close r).
Proof.
  intros Hk. unfold Close. case_if; [done|]. intros k b Hl. cbn in Hl. rewrite lookup_fmap in Hl.
  apply fmap_Some in Hl as (b0 & Hl & ->). rewrite <- (Hk k b0 Hl). unfold close. by case_if.
Qed.

Lemma keyed_get_bus id role r : keyed r → keyed (GetOrCreateBus id role r).1.
Proof.
  intros Hk. unfold GetOrCreateBus. destruct (buses r !! id) as [b|]; [done|]. case_if; [done|]. by eapply keyed_insert.
Qed.

Lemma keyed_apply r o : keyed r → keyed (apply_op r o).
Proof.
  intros Hk. destruct o; cbn [apply_op].
  - done.
  - unfold AddBusSubscription. by case_if.
  - eapply keyed_same; [exact Hk|]. by destruct (RemoveSubscription_frame id r) as (_ & _ & _ & -> & _).
  - unfold TryReserveSlot, reserve_attempt. repeat case_if; done.
  - done.
  - by apply keyed_get_bus.
  - pose proof (keyed_get_bus id role r Hk) as Hg. unfold AttachSource.
    assert (Hin : ∀ b, (GetOrCreateBus id role r).2 = Some b → ID b = id).
    { unfold GetOrCreateBus. intros b. destruct (buses r !! id) as [b0|] eqn:E; [intros [= <-]; by apply Hk|].
      case_if; [done|]. by intros [= <-]. }
    destruct (GetOrCreateBus id role r) as [r1 [b|]]; [|done]. specialize (Hin b eq_refl).
    eapply keyed_insert; [exact Hg|reflexivity|]. unfold attach. by repeat case_match.
  - unfold bus_step. destruct (buses r !! id) as [b|] eqn:Hb; [|done]. destruct (step b l) as [[b' out]|] eqn:Hs; [|done].
    cbn [default]. cbv [Datatypes.id]. apply (keyed_insert r _ id b' Hk); [|by rewrite (step_ID _ _ _ _ Hs); apply Hk].
    assert (Hd : buses (match out with Some o => deliver_closure id now o b (set_buses (<[id := b']> (buses r)) r)
                                  | None => set_buses (<[id := b']> (buses r)) r end) = <[id := b']> (buses r)).
    { destruct out as [o|]; [|done]. unfold deliver_closure. destruct (CaptureTime _ _ _ _) as [t known].
      set (r1 := set_buses _ r). set (d := mkArgs _ _ _ _).
      pose proof (deliver_buses id d (default ∅ (errorCounts r1 !! (id, from o))) r1) as Hd.
      destruct (deliverWithSource _ _ _ _) as [r3 m3]. cbn in Hd |- *. by rewrite Hd. }
    by destruct l.
  - unfold checkExpiry. case_if; [by apply keyed_close|done].
  - by apply keyed_close.
Qed.

Lemma keyed_reachable id now c ops : keyed (foldl apply_op (newSession id now c) ops).
Proof.
  induction ops as [|o ops IH] using rev_ind; [intros k b Hl; cbn in Hl; by rewrite lookup_empty in Hl|].
  rewrite foldl_app. by apply keyed_apply.
Qed.

Lemma snapshot_buses_spec seen l busIDs :
  snapshot_buses seen l = Some busIDs →
  Forall (λ b, validIdentifier (bsBusID b) 64 = true ∧ validIdentifier (bsRole b) 64 = true) l ∧
  NoDup (bsBusID <$> l) ∧ (∀ b, b ∈ l → bsBusID b ∉ seen) ∧
  ∀ x, x ∈ busIDs ↔ x ∈ seen ∨ ∃ b, b ∈ l ∧ bsBusID b = x.
Proof.
  revert seen. induction l as [|b l IH]; intros seen; cbn [snapshot_buses].
  - intros [= ->]. split; [done|]. split; [constructor|]. split; [intros b Hb; by apply not_elem_of_nil in Hb|].
    intros x. split; [by left|]. intros [Hx|(b & Hb & _)]; [done|by apply not_elem_of_nil in Hb].
  - case_if; [done|]. case_bool_decide as Hn; [done|]. intros (Hf & Hd & Hs & Hx)%IH.
    apply orb_false_iff in E as [E1%negb_false_iff E2%negb_false_iff].
    split; [by constructor|]. split.
    { cbn. constructor; [|done]. intros (b' & Hid & Hb')%list_elem_of_fmap. apply (Hs b' Hb'). rewrite <- Hid. left. }
    split. { intros b' [->|Hb']%elem_of_cons; [done|]. intros Hin. apply (Hs b' Hb'). by right. }
    intros x. rewrite Hx, elem_of_cons. split.
    + intros [[->|?]|(b' & Hb' & <-)]; [right; exists b; split; [left|done]|by left|right; exists b'; split; [by right|done]].
    + intros [?|(b' & [->|Hb']%elem_of_cons & <-)]; [by left; right|by left; left|right; eauto].
Qed.

Lemma snapshot_buses_ok seen l :
  Forall (λ b, validIdentifier (bsBusID b) 64 = true ∧ validIdentifier (bsRole b) 64 = true) l →
  NoDup (bsBusID <$> l) → (∀ b, b ∈ l → bsBusID b ∉ seen) → is_Some (snapshot_buses seen l).
Proof.
  revert seen. induction l as [|b l IH]; intros seen Hf Hd Hs; cbn [snapshot_buses]; [eauto|].
  apply Forall_cons in Hf as [[Hi Hr] Hf]. change maxBusIdentifierSize with 64. rewrite Hi, Hr. cbn [negb orb]. cbn in Hd. apply NoDup_cons in Hd as [Hn Hd].
  rewrite bool_decide_false by (apply Hs; left). apply IH; [done|done|].
  intros b' Hb' [E|Hin]%elem_of_cons; [|apply (Hs b'); [by right|done]].
  apply Hn. rewrite <- E. by apply list_elem_of_fmap_2.
Qed.

Lemma snapshot_subscriptions_iff busIDs seen l :
  snapshot_subscriptions busIDs seen l = true ↔
  Forall (λ s, validIdentifier (ssSubscriberID s) 128 = true ∧ validIdentifier (ssBusID s) 64 = true ∧
               (ssBusID s = "mix" ∨ ssBusID s ∈ busIDs)) l ∧
  NoDup (ssSubscriberID <$> l) ∧ ∀ s, s ∈ l → ssSubscriberID s ∉ seen.
Proof.
  revert seen. induction l as [|s l IH]; intros seen; cbn [snapshot_subscriptions].
  { split; [|done]. intros _. split; [done|]. split; [constructor|]. intros s Hs. by apply not_elem_of_nil in Hs. }
  rewrite Forall_cons. cbn [fmap list_fmap]. rewrite NoDup_cons.
  change maxSubscriberIDSize with 128. change maxBusIdentifierSize with 64.
  destruct (validIdentifier (ssSubscriberID s) 128); cbn [negb orb]; [|split; [done|by intros ([[? _] _] & _)]].
  destruct (validIdentifier (ssBusID s) 64); cbn [negb orb]; [|split; [done|by intros ([(_ & ? & _) _] & _)]].
  case_if; rename E into Eb.
  { split; [done|]. intros ([(_ & _ & Hb) _] & _). apply andb_true_iff in Eb as [E1%negb_true_iff E2%negb_true_iff].
    apply bool_decide_eq_false in E1, E2. by destruct Hb. }
  assert (Hb : ssBusID s = "mix" ∨ ssBusID s ∈ busIDs).
  { apply andb_false_iff in Eb as [E%negb_false_iff|E%negb_false_iff]; apply bool_decide_eq_true in E; auto. }
  clear Eb. case_bool_decide as Hn.
  { split; [done|]. intros (_ & _ & Hs). by destruct (Hs s ltac:(left)). }
  rewrite IH. split.
  - intros (Hf & Hd & Hs). split; [by split|]. split; [split; [|done]|].
    + intros (s' & Hid & Hin)%list_elem_of_fmap. apply (Hs s' Hin). rewrite <- Hid. left.
    + intros s' [->|Hin]%elem_of_cons; [done|]. intros Hx. apply (Hs s' Hin). by right.
  - intros ((_ & Hf) & (Hd1 & Hd) & Hs). split; [done|]. split; [done|]. intros s' Hin [E|Hx]%elem_of_cons.
    + apply Hd1. rewrite <- E. by apply list_elem_of_fmap_2.
    + by apply (Hs s' ltac:(by right)).
Qed.

(** The names of the buses in a report. *)
Lemma reported_buses r :
  keyed r → bsBusID <$> (controlStatePayload r r).1 ≡ₚ (map_to_list (buses r)).*1.
Proof.
  intros Hk. cbn. rewrite merge_sort_Permutation. rewrite <- !list_fmap_compose.
  apply reflexive_eq, list_fmap_ext. intros i [k b] Hl. cbn. apply Hk. apply elem_of_map_to_list. by eapply list_elem_of_lookup_2.
Qed.

Lemma in_reported_buses r x :
  keyed r → (∃ b, b ∈ (controlStatePayload r r).1 ∧ bsBusID b = x) ↔ is_Some (buses r !! x).
Proof.
  intros Hk. transitivity (x ∈ bsBusID <$> (controlStatePayload r r).1).
  { rewrite list_elem_of_fmap. split; intros (b & ? & ?); eauto. }
  rewrite (reported_buses r Hk), list_elem_of_fmap. split.
  - intros ([k b] & -> & Hl). apply elem_of_map_to_list in Hl. eauto.
  - intros [b Hb]. exists (x, b). split; [done|]. by apply elem_of_map_to_list.
Qed.

(** A Session whose report the service accepts. *)
Record reportable (r : session) : Prop := {
  rp_id : sessionID r ≠ "";
  rp_revision : revision (stats r) ≠ 0;
  rp_bus_count : Z.of_nat (size (buses r)) <= 16;
  rp_bus_names : ∀ k, is_Some (buses r !! k) → validIdentifier k 64 = true;
  rp_sub_count : len (subscriptions r) <= 1024;
  rp_sub_names : Forall (λ e, validIdentifier (subscriberID e) 128 = true ∧ validIdentifier (busID e) 64 = true) (subscriptions r);
  rp_sub_once : NoDup (subscriberID <$> subscriptions r);
  rp_sub_bus : Forall (λ e, busID e = "mix" ∨ is_Some (buses r !! busID e)) (subscriptions r) }.

Lemma role_identifier b : validIdentifier (role_String (Role b)) 64 = true.
Proof. by destruct (Role b). Qed.

Lemma reported_lengths epoch now r :
  len (rsBuses (reported epoch now r)) = Z.of_nat (size (buses r)) ∧
  len (rsSubscriptions (reported epoch now r)) = len (subscriptions r).
Proof.
  cbn. unfold len. rewrite !merge_sort_Permutation, !length_fmap. split; [|done]. by rewrite length_map_to_list.
Qed.

Lemma reported_subs_iff r busIDs :
  snapshot_subscriptions busIDs [] (controlStatePayload r r).2 = true ↔
  Forall (λ e, validIdentifier (subscriberID e) 128 = true ∧ validIdentifier (busID e) 64 = true ∧
               (busID e = "mix" ∨ busID e ∈ busIDs)) (subscriptions r) ∧
  NoDup (subscriberID <$> subscriptions r).
Proof.
  rewrite snapshot_subscriptions_iff. cbn [snd controlStatePayload]. rewrite merge_sort_Permutation, Forall_fmap, <- list_fmap_compose.
  split; [intros (? & ? & _); done|]. intros [? ?]. split; [done|]. split; [done|]. intros s _. apply not_elem_of_nil.
Qed.

Lemma reported_valid_iff epoch now r :
  keyed r → validIdentifier epoch 128 = true → IsZero now = false →
  validateRelaySnapshot (reported epoch now r) = true ↔ reportable r.
Proof.
  intros Hk He Hz. unfold validateRelaySnapshot. destruct (reported_lengths epoch now r) as [Hlb Hls].
  change maxRelayEpochSize with 128. change maxBusCount with 16. rewrite Hlb, Hls.
  cbn [reported rsContractVersion rsSessionID rsRelayEpoch rsRevision rsObservedAt rsBuses rsSubscriptions].
  rewrite He, Hz, Z.eqb_refl. cbn [negb orb]. rewrite !orb_false_r.
  destruct (decide (sessionID r = "" ∨ revision (stats r) = 0 ∨ 16 < Z.of_nat (size (buses r)) ∨ 1024 < len (subscriptions r))) as [Hbad|Hgood].
  { rewrite (proj2 (orb_true_iff _ _)) ; [split; [done|]|].
    - intros [? ? ? _ ? _ _ _]. exfalso. destruct Hbad as [?|[?|[?|?]]]; [done|done|lia|lia].
    - rewrite !orb_true_iff, bool_decide_eq_true, Z.eqb_eq, !Z.gtb_lt. tauto. }
  rewrite (proj2 (orb_false_iff _ _)).
  2: { rewrite !orb_false_iff, bool_decide_eq_false, Z.eqb_neq, !Z.gtb_ltb, !Z.ltb_ge.
       assert (Z.of_nat (size (buses r)) <= 16 ∧ len (subscriptions r) <= 1024) by lia. tauto. }
  destruct (snapshot_buses [] (controlStatePayload r r).1) as [busIDs|] eqn:Hb.
  - pose proof (snapshot_buses_spec _ _ _ Hb) as (Hf & _ & _ & Hx). rewrite reported_subs_iff.
    assert (Hin : ∀ x, x ∈ busIDs ↔ is_Some (buses r !! x)).
    { intros x. rewrite Hx, (in_reported_buses r x Hk). split; [|by right]. intros [Hn|?]; [by apply not_elem_of_nil in Hn|done]. }
    split.
    + intros [Hs Hd]. split; try tauto; try lia.
      * intros k Hs'. apply (in_reported_buses r k Hk) in Hs' as (b & Hb' & <-). rewrite Forall_forall in Hf. by apply Hf.
      * eapply Forall_impl; [exact Hs|]. by intros e (? & ? & _).
      * eapply Forall_impl; [exact Hs|]. intros e (_ & _ & [?|?%Hin]); auto.
    + intros [_ _ _ _ _ Hn Hd Hbus]. split; [|done]. rewrite Forall_forall in *. intros e He'. destruct (Hn e He') as [? ?].
      destruct (Hbus e He') as [?|?%Hin]; auto.
  - split; [done|]. intros [_ _ _ Hn _ _ _ _]. exfalso.
    destruct (snapshot_buses_ok [] (controlStatePayload r r).1) as [x Hx].
    + apply Forall_forall. intros b Hb'. split; [apply Hn; apply (in_reported_buses r _ Hk); eauto|].
      cbn in Hb'. rewrite merge_sort_Permutation in Hb'. apply list_elem_of_fmap in Hb' as (b0 & -> & _). apply role_identifier.
    + rewrite (reported_buses r Hk). apply NoDup_fst_map_to_list.
    + intros b _. apply not_elem_of_nil.
    + congruence.
Qed.

(** The reports of a Session are accepted exactly when it has at most 16
    buses and 1024 subscriptions with well-formed names, each subscriber once,
    and every subscriber listens to the mix or to a bus that has had a publisher:
    whatever happened to the Session, an undisturbed report of it passes the
    validation of the Access service if and only if these hold. *)
Theorem control_state_accepted id created c ops epoch now rest sn :
  validIdentifier epoch 128 = true → IsZero now = false →
  let r := foldl apply_op (newSession id created c) ops in
  ControlState epoch now (undisturbed r :: rest) = Some sn →
  validateRelaySnapshot sn = true ↔ reportable r.
Proof.
  intros He Hz r. rewrite control_state_undisturbed. intros [= <-]. apply reported_valid_iff; [apply keyed_reachable|done|done].
Qed.

(** C38: One early listener hides the whole Session.  While a subscriber listens
    to a named bus that no publisher has created, every report of the Session is
    refused, whatever else it carries: the service keeps showing the state from
    before, and the Session's lifetime is not extended. *)
Theorem early_listener_hides_session `{RecordSizes} id created c ops epoch now rest sn s cancel now' t st :
  let r := foldl apply_op (newSession id created c) ops in
  Exists (λ e, busID e ≠ "mix" ∧ buses r !! busID e = None) (subscriptions r) →
  ControlState epoch now (undisturbed r :: rest) = Some sn →
  ApplyRelayStateContext s id (Placement.with_term t sn) cancel now' st = (st, Err ErrInvalidRelayState).
Proof.
  intros r Hex. rewrite control_state_undisturbed. intros [= <-].
  assert (Hv : validateRelaySnapshot (Placement.with_term t (reported epoch now r)) = false).
  { change (validateRelaySnapshot (Placement.with_term t (reported epoch now r))) with (validateRelaySnapshot (reported epoch now r)).
    unfold validateRelaySnapshot. case_if; [done|]. cbn [rsBuses rsSubscriptions reported].
    destruct (snapshot_buses [] (controlStatePayload r r).1) as [busIDs|] eqn:Hb; [|done].
    apply not_true_iff_false. rewrite reported_subs_iff. intros [Hf _]. apply Exists_exists in Hex as (e & Hin & Hm & Hn).
    rewrite Forall_forall in Hf. destruct (Hf e Hin) as (_ & _ & [?|Hx]); [done|].
    pose proof (snapshot_buses_spec _ _ _ Hb) as (_ & _ & _ & Hx'). apply Hx' in Hx as [Hx|Hx]; [by apply not_elem_of_nil in Hx|].
    apply in_reported_buses in Hx as [b Hx]; [congruence|apply keyed_reachable]. }
  unfold ApplyRelayStateContext. rewrite Hv. cbn [negb]. by case_if.
Qed.
End ControlState.

#[local] Existing Instances Storage.small_records Token.clear_jwt Token.clear_jwt_laws.
(** A listener on "music" while only "voice" is published. *)
Definition listening : RelaySession (S := probe) :=
  foldl apply_op (newSession "s-1" 0 example_config)
    [OpObject (mkProbe [] false false false); OpAttach "voice" BusRoleVoice 0 None; OpAdd "u-1" "music" 0].

Lemma early_listener_hides_session_witness :
  ApplyRelayStateContext service_a "s-1" (Placement.with_term 1 (reported "epoch-1" (5 * Second) listening)) None (6 * Second)
    example_store = (example_store, Err ErrInvalidRelayState).
Proof.
  refine (early_listener_hides_session "s-1" 0 example_config
    [OpObject (mkProbe [] false false false); OpAttach "voice" BusRoleVoice 0 None; OpAdd "u-1" "music" 0]
    "epoch-1" (5 * Second) [] (reported "epoch-1" (5 * Second) listening) service_a None (6 * Second) 1 example_store _ _).
  - constructor. split; [discriminate|vm_compute; reflexivity].
  - apply control_state_undisturbed.
Defined.

Lemma control_state_accepted_witness :
  validateRelaySnapshot (reported "epoch-1" (5 * Second)
    (foldl apply_op (newSession "s-1" 0 example_config)
       [OpObject (mkProbe [] false false false); OpAttach "voice" BusRoleVoice 0 None; OpAdd "u-1" "voice" 0])) = true ∧
  reportable (foldl apply_op (newSession "s-1" 0 example_config)
       [OpObject (mkProbe [] false false false); OpAttach "voice" BusRoleVoice 0 None; OpAdd "u-1" "voice" 0]).
Proof.
  split; [vm_compute; reflexivity|].
  refine (proj1 (control_state_accepted "s-1" 0 example_config
    [OpObject (mkProbe [] false false false); OpAttach "voice" BusRoleVoice 0 None; OpAdd "u-1" "voice" 0]
    "epoch-1" (5 * Second) [] _ _ _ (control_state_undisturbed "epoch-1" (5 * Second) _ [])) _); vm_compute; reflexivity.
Defined.
End ControlState.
