(* ===== verification/Downlink.v ===== *)
(** * Downlink: one subscriber's leg

    Translates [internal/media/downlink/feedback.go] (RTCP feedback and the round
    trip time), [extensions.go] (the negotiated header extensions),
    [sender_stats.go] and [downlink.go], which composes them with the pacer of
    [Pacer].  The downlink implements the [BusSubscription] interface a Session
    relies on. *)

From S2P Require Export NamePolicy ClockLineage Pacer Session.

(** ** RTCP feedback *)

Module Feedback.
Import Ntp.

(** [SenderStats], every field atomic. *)
Record SenderStats := mkStats {
  PacketsSent : Z;            (* uint64 *)
  BytesSent : Z;              (* uint64 *)
  WriteErrCount : Z;          (* uint64 *)
  NackCount : Z;              (* uint64 *)
  TwccFeedbackCount : Z;      (* uint64 *)
  ReceiverReportCount : Z;    (* uint64 *)
  RttLastUs : Z;              (* int64; -1 if unknown *)
  JitterLastUs : Z;           (* int64 *)
  FractionLostLast : Z;       (* uint32 *)
  AbsCapturePatched : Z       (* uint64 *) }.

(** What a constructor leaves: no round trip time yet. *)
Definition new_stats : SenderStats := mkStats 0 0 0 0 0 0 (-1) 0 0 0.

Definition count_write (failed : bool) (bytes : Z) (s : SenderStats) : SenderStats :=
  if failed
  then mkStats (PacketsSent s) (BytesSent s) (u64 (WriteErrCount s + 1)) (NackCount s) (TwccFeedbackCount s)
         (ReceiverReportCount s) (RttLastUs s) (JitterLastUs s) (FractionLostLast s) (AbsCapturePatched s)
  else mkStats (u64 (PacketsSent s + 1)) (u64 (BytesSent s + bytes)) (WriteErrCount s) (NackCount s) (TwccFeedbackCount s)
         (ReceiverReportCount s) (RttLastUs s) (JitterLastUs s) (FractionLostLast s) (AbsCapturePatched s).
Definition count_nack (s : SenderStats) : SenderStats :=
  mkStats (PacketsSent s) (BytesSent s) (WriteErrCount s) (u64 (NackCount s + 1)) (TwccFeedbackCount s)
    (ReceiverReportCount s) (RttLastUs s) (JitterLastUs s) (FractionLostLast s) (AbsCapturePatched s).
Definition count_twcc (s : SenderStats) : SenderStats :=
  mkStats (PacketsSent s) (BytesSent s) (WriteErrCount s) (NackCount s) (u64 (TwccFeedbackCount s + 1))
    (ReceiverReportCount s) (RttLastUs s) (JitterLastUs s) (FractionLostLast s) (AbsCapturePatched s).
Definition count_report (fractionLost jitterUs : Z) (s : SenderStats) : SenderStats :=
  mkStats (PacketsSent s) (BytesSent s) (WriteErrCount s) (NackCount s) (TwccFeedbackCount s)
    (u64 (ReceiverReportCount s + 1)) (RttLastUs s) jitterUs fractionLost (AbsCapturePatched s).
Definition store_rtt (us : Z) (s : SenderStats) : SenderStats :=
  mkStats (PacketsSent s) (BytesSent s) (WriteErrCount s) (NackCount s) (TwccFeedbackCount s)
    (ReceiverReportCount s) us (JitterLastUs s) (FractionLostLast s) (AbsCapturePatched s).
Definition count_patched (s : SenderStats) : SenderStats :=
  mkStats (PacketsSent s) (BytesSent s) (WriteErrCount s) (NackCount s) (TwccFeedbackCount s)
    (ReceiverReportCount s) (RttLastUs s) (JitterLastUs s) (FractionLostLast s) (u64 (AbsCapturePatched s + 1)).

(** The fields of [rtcp.ReceptionReport] that are read. *)
Record ReceptionReport := mkReport {
  FractionLost : Z;          (* uint8 *)
  Jitter : Z;                (* uint32 *)
  LastSenderReport : Z;      (* uint32 *)
  Delay : Z                  (* uint32, in 1/65536 s *) }.

(** A packet of the compound that [ReadRTCP] returns.  A report comes with the
    clock at the moment it is handled; a NACK with the sequence numbers that
    Pion's [Range] enumerates, pair by pair. *)
Inductive rtcp_packet :=
| ReceiverReport (reports : list (ReceptionReport * Z))
| TransportLayerNack (nacks : list (list Z))
| TransportLayerCC
| OtherRtcp.

Definition Microseconds (d : Z) : Z := Z.quot d Microsecond.

Definition compactNTP (t : Z) : Z :=
  let seconds := u64 (u64 (Unix t) + ntpUnixEpochOffsetSeconds) in
  let fraction := u64 (u64 (NanosecondOf t) * u64 (Z.shiftl 1 32)) / Second in
  u32 (Z.shiftr (Z.lor (u64 (Z.shiftl seconds 32)) fraction) 16).

Definition receptionReportRTT (report : ReceptionReport) (now : Z) : option Z :=
  if LastSenderReport report =? 0 then None
  else
    let rttCompact := u32 (u32 (compactNTP now - LastSenderReport report) - Delay report) in
    let rtt := i64 (u64 (rttCompact * Second) / u64 (Z.shiftl 1 16)) in
    if (rtt <? 0) || (rtt >? Minute) then None else Some rtt.

(** [handleReport]: the new statistics, and the loss the callback is given, as
    the numerator over 256. *)
Definition handleReport (report : ReceptionReport) (now : Z) (s : SenderStats) : SenderStats * Z :=
  let jitterUs := Z.quot (i64 (Jitter report * 1000000)) 48000 in
  let s := count_report (FractionLost report) jitterUs s in
  let s := match receptionReportRTT report now with Some rtt => store_rtt (Microseconds rtt) s | None => s end in
  (s, FractionLost report).

(** What the loop tells its callbacks. *)
Inductive feedback_event := OnReport (fractionLost : Z) | OnNACK (seq : Z).

(** The body of the loop over the packets of one read. *)
Definition handle_packet (acc : SenderStats * list feedback_event) (pkt : rtcp_packet)
  : SenderStats * list feedback_event :=
  match pkt with
  | ReceiverReport reports =>
    foldl (λ '(s, evs) '(report, now), let '(s', lost) := handleReport report now s in (s', evs ++ [OnReport lost])) acc reports
  | TransportLayerNack nacks =>
    foldl (λ acc range, foldl (λ '(s, evs) seq, (count_nack s, evs ++ [OnNACK seq])) acc range) acc nacks
  | TransportLayerCC => (count_twcc acc.1, acc.2)
  | OtherRtcp => acc
  end.

(** What [loop] meets: [stop] is closed, or the read fails, or it returns
    packets. *)
Inductive rtcp_read := Stopped | ReadError | Packets (pkts : list rtcp_packet).

(** [loop]: the statistics, the callbacks, and whether it has returned, which
    closes [stopped]. *)
Fixpoint loop (reads : list rtcp_read) (acc : SenderStats * list feedback_event)
  : SenderStats * list feedback_event * bool :=
  match reads with
  | [] => (acc, false)
  | Stopped :: _ | ReadError :: _ => (acc, true)
  | Packets pkts :: reads' => loop reads' (foldl handle_packet acc pkts)
  end.

(** *** The round trip time *)

Lemma compactNTP_ntp t : compactNTP t = u32 (Z.shiftr (timeToNTP t) 16).
Proof. done. Qed.

(** A duration in the 1/65536 s units of RTCP, as a receiver truncates it. *)
Definition units (ns : Z) : Z := ns * 65536 / Second.

Lemma units_split t : units t = t / Second * 65536 + t mod Second * 65536 / Second.
Proof.
  unfold units. rewrite (Z.div_mod t Second) at 1 by done.
  replace ((Second * (t / Second) + t mod Second) * 65536)
    with (t mod Second * 65536 + t / Second * 65536 * Second) by ring.
  rewrite Z.div_add by done. lia.
Qed.

Lemma units_sum x y : 0 <= units (x + y) - units x - units y <= 1.
Proof. unfold units, Second. Z.to_euclidean_division_equations; lia. Qed.

Lemma compactNTP_spec t :
  is_i64 (t / Second) → compactNTP t = u32 (units (t + ntpUnixEpochOffsetSeconds * Second)).
Proof.
  intros Ht. rewrite compactNTP_ntp, timeToNTP_spec, units_split by done.
  rewrite Z.div_add, Z.mod_add by done. rewrite Z.shiftr_div_pow2 by lia.
  assert (Hf : t mod Second * 2 ^ 32 / Second / 2 ^ 16 = t mod Second * 65536 / Second).
  { rewrite Z.div_div by done. replace (t mod Second * 2 ^ 32) with (t mod Second * 65536 * 2 ^ 16) by ring.
    by rewrite Z.div_mul_cancel_r by done. }
  set (s := t / Second + _). set (f := t mod Second * 2 ^ 32 / Second) in *.
  replace (s mod 2 ^ 32 * 2 ^ 32 + f) with (f + s mod 2 ^ 32 * 65536 * 2 ^ 16) by ring.
  rewrite Z.div_add, Hf by done. set (g := t mod Second * 65536 / Second). clearbody s g. clear.
  unfold u32. change (2 ^ 32) with 4294967296. ilia.
Qed.

(** What the difference of compact timestamps leaves is the round trip, up to
    the truncation of three durations to 1/65536 s. *)
Lemma rtt_units t0 hold rtt :
  is_i64 (t0 / Second) → is_i64 ((t0 + hold + rtt) / Second) →
  ∃ k, 0 <= k <= 2 ∧
    u32 (u32 (compactNTP (t0 + hold + rtt) - compactNTP t0) - units hold) = u32 (units rtt + k).
Proof.
  intros Ha Hb. rewrite !compactNTP_spec by done.
  set (o := ntpUnixEpochOffsetSeconds * Second).
  pose proof (units_sum (t0 + o) (hold + rtt)) as H1. pose proof (units_sum hold rtt) as H2.
  replace (t0 + o + (hold + rtt)) with (t0 + hold + rtt + o) in H1 by lia.
  exists (units (t0 + hold + rtt + o) - units (t0 + o) - units hold - units rtt).
  split; [lia|]. generalize (units (t0 + hold + rtt + o)), (units (t0 + o)), (units hold), (units rtt).
  clear. intros. ilia.
Qed.

(** RFC 3550 round trip times.  When a receiver answers the sender report of
    [t0] after holding it for [hold] and the round trip took [rtt], the relay
    reads a value at most 15.3 us below and 30.6 us above the truth, also when
    the NTP era or the 16-bit seconds of the compact format wrap between the two
    reports; a report that implies a negative or an over-long round trip is
    rejected instead of being stored as a wrapped value. *)
Theorem rtt_accuracy report t0 hold rtt :
  is_i64 (t0 / Second) → is_i64 ((t0 + hold + rtt) / Second) →
  LastSenderReport report = compactNTP t0 → compactNTP t0 ≠ 0 →
  Delay report = units hold →
  (0 <= rtt <= Minute - 30518 →
     ∃ v, receptionReportRTT report (t0 + hold + rtt) = Some v ∧ rtt - 15260 <= v <= rtt + 30518) ∧
  (- 65000 * Second <= rtt <= - 45777 ∨ Minute + 15260 < rtt <= 65000 * Second →
     receptionReportRTT report (t0 + hold + rtt) = None).
Proof.
  intros Ha Hb HL Hz HD.
  destruct (rtt_units t0 hold rtt Ha Hb) as (k & Hk & Hu).
  unfold receptionReportRTT. rewrite HL, HD, Hu, (proj2 (Z.eqb_neq _ _) Hz). cbv zeta.
  change (u64 (Z.shiftl 1 16)) with 65536. unfold units, Minute, Second in *.
  rewrite (u64_small (u32 _ * 1000000000)) by ilia.
  set (w := u32 (rtt * 65536 / 1000000000 + k)).
  assert (Hw : 0 <= w < 4294967296) by (unfold w; ilia).
  rewrite i64_small by ilia.
  split; intros Hr.
  - assert (Hs : w = rtt * 65536 / 1000000000 + k) by (unfold w; ilia). clearbody w. subst w.
    eexists. rewrite (proj2 (orb_false_iff _ _)); [split; [done|]|]; [ilia|split; ilia].
  - rewrite (proj2 (orb_true_iff _ _)); [done|right].
    assert (Hs : w = rtt * 65536 / 1000000000 + k ∨ w = rtt * 65536 / 1000000000 + k + 4294967296) by (unfold w; ilia).
    clearbody w. ilia.
Qed.

(** *** Types and counts *)

(** The statistics are within their types; a round trip time is unknown or not
    negative, and jitter is what a 32-bit value at 48 kHz can be. *)
Definition typed_stats (s : SenderStats) : Prop :=
  is_u64 (NackCount s) ∧ is_u64 (TwccFeedbackCount s) ∧ is_u64 (ReceiverReportCount s) ∧
  -1 <= RttLastUs s < 9223372036854776 ∧ 0 <= JitterLastUs s <= 89478485333 ∧ 0 <= FractionLostLast s < 256.
Definition typed_report (x : ReceptionReport * Z) : Prop := 0 <= FractionLost x.1 < 256 ∧ 0 <= Jitter x.1 < 4294967296.
Definition typed_packet (p : rtcp_packet) : Prop :=
  match p with ReceiverReport reports => Forall typed_report reports | _ => True end.
Definition typed_read (r : rtcp_read) : Prop := match r with Packets pkts => Forall typed_packet pkts | _ => True end.

Definition is_report (e : feedback_event) : bool := match e with OnReport _ => true | OnNACK _ => false end.
Definition reports (evs : list feedback_event) : Z := len (filter (λ e, is_report e = true) evs).
Definition nacks (evs : list feedback_event) : Z := len (filter (λ e, is_report e = false) evs).

(** The counters count the callbacks. *)
Definition accounted (s0 : SenderStats) (acc : SenderStats * list feedback_event) : Prop :=
  typed_stats acc.1 ∧ ReceiverReportCount acc.1 = u64 (ReceiverReportCount s0 + reports acc.2) ∧
  NackCount acc.1 = u64 (NackCount s0 + nacks acc.2).

Lemma u64_succ x : u64 (u64 x + 1) = u64 (x + 1).
Proof. unfold u64. by rewrite Zplus_mod_idemp_l. Qed.

Lemma reports_snoc evs e : reports (evs ++ [e]) = reports evs + match e with OnReport _ => 1 | _ => 0 end.
Proof. unfold reports, len. rewrite filter_app, length_app. destruct e; [rewrite filter_cons_True by done|rewrite filter_cons_False by done]; cbn; lia. Qed.
Lemma nacks_snoc evs e : nacks (evs ++ [e]) = nacks evs + match e with OnNACK _ => 1 | _ => 0 end.
Proof. unfold nacks, len. rewrite filter_app, length_app. destruct e; [rewrite filter_cons_False by done|rewrite filter_cons_True by done]; cbn; lia. Qed.

Lemma jitter_range j : 0 <= j < 4294967296 → 0 <= Z.quot (i64 (j * 1000000)) 48000 <= 89478485333.
Proof.
  intros Hj. rewrite i64_small by (unfold_ints; lia). rewrite Z.quot_div_nonneg by lia.
  split; [apply Z.div_pos; lia|]. apply Z.div_le_upper_bound; lia.
Qed.

Lemma rtt_range report now rtt : receptionReportRTT report now = Some rtt → 0 <= Microseconds rtt <= 60000000.
Proof.
  unfold receptionReportRTT. repeat case_if; try done. intros [= <-]. bool_hyps.
  unfold Microseconds, Microsecond, Minute, Second in *. rewrite Z.quot_div_nonneg by lia.
  split; [apply Z.div_pos; lia|]. apply Z.div_le_upper_bound; lia.
Qed.

Lemma report_accounted s0 acc x :
  typed_report x → accounted s0 acc →
  accounted s0 ((handleReport x.1 x.2 acc.1).1, acc.2 ++ [OnReport (handleReport x.1 x.2 acc.1).2]).
Proof.
  intros [Hf Hj] ((T1 & T2 & T3 & T4 & T5 & T6) & Hr & Hn). pose proof (jitter_range _ Hj) as Hjit.
  unfold accounted, handleReport. cbn [fst snd]. rewrite reports_snoc, nacks_snoc, Z.add_0_r, Z.add_assoc, <- u64_succ, <- Hr.
  destruct (receptionReportRTT x.1 x.2) as [rtt|] eqn:E; [apply rtt_range in E|]; unfold typed_stats; cbn; split_and!;
    try done; try apply u64_range; lia.
Qed.

Lemma nack_accounted s0 acc seq : accounted s0 acc → accounted s0 (count_nack acc.1, acc.2 ++ [OnNACK seq]).
Proof.
  intros ((T1 & T2 & T3 & T4 & T5 & T6) & Hr & Hn). unfold accounted. cbn [fst snd].
  rewrite reports_snoc, nacks_snoc, Z.add_0_r, Z.add_assoc, <- u64_succ, <- Hn. unfold typed_stats. cbn. split_and!;
    try done; try apply u64_range; lia.
Qed.

Lemma foldl_accounted {X} s0 (f : SenderStats * list feedback_event → X → SenderStats * list feedback_event) (P : X → Prop) l acc :
  (∀ acc x, P x → accounted s0 acc → accounted s0 (f acc x)) → Forall P l → accounted s0 acc → accounted s0 (foldl f acc l).
Proof. intros Hf Hl. revert acc. induction Hl as [|x l Hx Hl IH]; intros acc Ha; [done|]. cbn. apply IH, Hf; done. Qed.

Lemma packet_accounted s0 acc p : typed_packet p → accounted s0 acc → accounted s0 (handle_packet acc p).
Proof.
  intros Hp Ha. destruct p as [rs|ns| |]; cbn [handle_packet].
  - eapply foldl_accounted; [|exact Hp|done]. intros [s evs] [report now] Hx Hs.
    pose proof (report_accounted s0 (s, evs) (report, now) Hx Hs) as Hr. cbn [fst snd] in Hr.
    by destruct (handleReport report now s).
  - apply (foldl_accounted s0 _ (λ _, True)); [|by apply Forall_true|done]. intros acc' range _ Hs.
    apply (foldl_accounted s0 _ (λ _, True)); [|by apply Forall_true|done]. intros [s evs] seq _. by apply (nack_accounted s0 (s, evs)).
  - destruct Ha as ((T1 & T2 & T3 & T4 & T5 & T6) & Hr & Hn). split; [|done]. unfold typed_stats. cbn. split_and!;
      try done; try apply u64_range; lia.
  - done.
Qed.

End Feedback.

Module FeedbackExample.
Import Feedback Ntp.

(** Ten seconds across the end of NTP era 0: the report comes back 81 ms after
    the receiver's hold of 10 s. *)
Definition era_end : Z := (2 ^ 32 - ntpUnixEpochOffsetSeconds) * Second - 5 * Second.
Definition era_report : ReceptionReport := mkReport 0 0 (compactNTP era_end) (units (10 * Second)).

Lemma rtt_accuracy_witness :
  (∃ v, receptionReportRTT era_report (era_end + 10 * Second + 81 * Millisecond) = Some v
        ∧ 81 * Millisecond - 15260 <= v <= 81 * Millisecond + 30518) ∧
  receptionReportRTT era_report (era_end + 10 * Second + - Millisecond) = None.
Proof.
  split.
  - apply (rtt_accuracy era_report era_end (10 * Second) (81 * Millisecond));
      try done; vm_compute; split; congruence.
  - apply (rtt_accuracy era_report era_end (10 * Second) (- Millisecond)); try done; try (vm_compute; split; congruence).
    left. vm_compute. split; congruence.
Defined.

End FeedbackExample.

(** ** Header extensions *)

Module Extensions.
Import Ntp.

Definition absSendTimeURI : string := "http://www.webrtc.org/experiments/rtp-hdrext/abs-send-time".
Definition absCaptureTimeURI : string := "http://www.webrtc.org/experiments/rtp-hdrext/abs-capture-time".
Definition ntpEpochOffset : Z := 2208988800.

Record ExtensionMapper := mkMapper { absSendTimeID : Z; absCaptureTimeID : Z }.   (* uint8 *)
Definition no_extensions : ExtensionMapper := mkMapper 0 0.

(** *** The pattern [a=extmap:(\d+)(?:/\w+)? <uri>] *)

Definition is_digit (c : Ascii.ascii) : bool := match NamePolicy.digit c with Some _ => true | None => false end.
Definition is_word (c : Ascii.ascii) : bool :=
  let n := Z.of_nat (Ascii.nat_of_ascii c) in
  is_digit c || ((65 <=? n) && (n <=? 90)) || ((97 <=? n) && (n <=? 122)) || (n =? 95).

(** The longest prefix of characters in a class. *)
Fixpoint span (p : Ascii.ascii → bool) (l : list Ascii.ascii) : list Ascii.ascii * list Ascii.ascii :=
  match l with
  | c :: l' => if p c then let '(a, b) := span p l' in (c :: a, b) else ([], l)
  | [] => ([], [])
  end.

Fixpoint strip_prefix (p l : list Ascii.ascii) : option (list Ascii.ascii) :=
  match p, l with
  | [], _ => Some l
  | a :: p', b :: l' => if decide (a = b) then strip_prefix p' l' else None
  | _ :: _, [] => None
  end.

(** [\d+] and [\w+] are followed by characters outside their classes, so the
    greedy choice is the only one that can match. *)
Definition direction (l : list Ascii.ascii) : list Ascii.ascii :=
  match l with
  | c :: l' =>
    if (Ascii.nat_of_ascii c =? 47)%nat
    then match span is_word l' with ([], _) => l | (_, rest) => rest end
    else l
  | [] => []
  end.

Definition match_at (uri : string) (l : list Ascii.ascii) : option (list Ascii.ascii) :=
  rest ← strip_prefix (Names.chars "a=extmap:") l;
  let '(digits, rest) := span is_digit rest in
  match digits with
  | [] => None
  | _ => _ ← strip_prefix (Names.chars (" " +:+ uri)) (direction rest); Some digits
  end.

(** [FindStringSubmatch]: the first group of the leftmost match. *)
Fixpoint find_group (uri : string) (l : list Ascii.ascii) : option (list Ascii.ascii) :=
  match match_at uri l with
  | Some m => Some m
  | None => match l with [] => None | _ :: l' => find_group uri l' end
  end.

(** [DiscoverAbsSendTimeID] and [DiscoverAbsCaptureTimeID]. *)
Definition discover (uri sdp : string) : Z :=
  match find_group uri (Names.chars sdp) with
  | None => 0
  | Some m =>
    match NamePolicy.Atoi (Names.of_chars m) with
    | None => 0
    | Some id => if (id <? 1) || (id >? 14) then 0 else u8 id
    end
  end.
Definition DiscoverAbsSendTimeID : string → Z := discover absSendTimeURI.
Definition DiscoverAbsCaptureTimeID : string → Z := discover absCaptureTimeURI.

Definition HasAbsCaptureTime (e : ExtensionMapper) : bool := negb (absCaptureTimeID e =? 0).
Definition MutatesPackets (e : ExtensionMapper) : bool :=
  negb (absSendTimeID e =? 0) || negb (absCaptureTimeID e =? 0).

Definition encodeAbsSendTime (now : Z) : list Z :=
  let secs := u64 (u64 (Unix now) + ntpEpochOffset) in
  let fracBits := u64 (u64 (NanosecondOf now) * 262144) / 1000000000 in
  let value := u32 (Z.lor (u64 (Z.shiftl (Z.land secs 0x3F) 18)) (Z.land fracBits 0x3FFFF)) in
  [u8 (Z.shiftr value 16); u8 (Z.shiftr value 8); u8 value].

Section Patch.
Context `{codec : Rtp.Codec}.

Definition PatchAbsSendTime (e : ExtensionMapper) (now : Z) (pkt : Rtp.Packet) : Rtp.Packet :=
  if absSendTimeID e =? 0 then pkt
  else default pkt (Rtp.SetExtension (absSendTimeID e) (encodeAbsSendTime now) pkt).

(** The payload of [abs-capture-time]. *)
Definition capture_payload (captureTime : Z) : list Z :=
  let seconds := u64 (u64 (Unix captureTime) + ntpEpochOffset) in
  let fraction := u64 (u64 (NanosecondOf captureTime) * u64 (Z.shiftl 1 32)) / Second in
  be_split 8 (Z.lor (u64 (Z.shiftl seconds 32)) fraction).

Definition PatchAbsCaptureTime (e : ExtensionMapper) (captureTime : Z) (pkt : Rtp.Packet) : Rtp.Packet * bool :=
  if (absCaptureTimeID e =? 0) || IsZero captureTime then (pkt, false)
  else match Rtp.SetExtension (absCaptureTimeID e) (capture_payload captureTime) pkt with
       | None => (pkt, false)
       | Some pkt => (pkt, true)
       end.

Lemma patches_nothing e pkt :
  MutatesPackets e = false →
  (∀ now, PatchAbsSendTime e now pkt = pkt) ∧ (∀ c, PatchAbsCaptureTime e c pkt = (pkt, false)).
Proof.
  unfold MutatesPackets, PatchAbsSendTime, PatchAbsCaptureTime. intros [Hs Hc]%orb_false_iff.
  apply negb_false_iff in Hs, Hc. by rewrite Hs, Hc.
Qed.
End Patch.

(** *** What the receiver decodes *)

Lemma capture_payload_ntp t : capture_payload t = be_split 8 (timeToNTP t).
Proof. done. Qed.

Lemma encodeAbsSendTime_value t :
  is_i64 (t / Second) →
  encodeAbsSendTime t =
    be_split 3 ((t / Second + ntpEpochOffset) mod 64 * 2 ^ 18 + t mod Second * 2 ^ 18 / Second).
Proof.
  intros Ht. unfold encodeAbsSendTime, Unix, NanosecondOf. rewrite i64_small by done.
  assert (Hn : 0 <= t mod Second < 1000000000) by (apply Z.mod_pos_bound; done).
  rewrite (u64_small (t mod Second)) by ilia. rewrite (u64_small (t mod Second * _)) by ilia.
  change 0x3F with (Z.ones 6). change 0x3FFFF with (Z.ones 18). rewrite !Z.land_ones by lia.
  rewrite Z.shiftl_mul_pow2 by lia. change (2 ^ 6) with 64. change (2 ^ 18) with 262144.
  replace (u64 (u64 (t / Second) + ntpEpochOffset) mod 64) with ((t / Second + ntpEpochOffset) mod 64)
    by (unfold ntpEpochOffset; generalize (t / Second); clear; intros; ilia).
  change Second with 1000000000 in *. set (f := t mod 1000000000 * 262144 / 1000000000).
  assert (Hf : 0 <= f < 262144) by (unfold f; ilia). rewrite (Z.mod_small f) by done.
  set (s := (t / 1000000000 + ntpEpochOffset) mod 64). assert (Hs : 0 <= s < 64) by (unfold s; ilia).
  clearbody f s. rewrite (u64_small (s * _)) by ilia.
  change 262144 with (2 ^ 18) in *. rewrite lor_disjoint by lia.
  by rewrite u32_small by (unfold_ints; lia).
Qed.

(** Both clock extensions carry the NTP timestamp of their instant: the
    three octets of [abs-send-time] are bits 14 to 37 of the 64-bit timestamp,
    and the eight octets of [abs-capture-time], decoded the way Relay decodes a
    sender report, give the capture instant back within a nanosecond. *)
Theorem extension_clocks t :
  in_era t →
  be_combine (encodeAbsSendTime t) = timeToNTP t / 2 ^ 14 mod 2 ^ 24 ∧
  length (capture_payload t) = 8%nat ∧
  t - 1 <= ntpTime (be_combine (capture_payload t)) <= t.
Proof.
  intros He. assert (Ht : is_i64 (t / Second)).
  { unfold in_era, ntpUnixEpochOffsetSeconds, Second in *. ilia. }
  split; [|split]; [|done|].
  - rewrite encodeAbsSendTime_value by done. rewrite timeToNTP_spec by done.
    assert (Hn : 0 <= t mod Second < 1000000000) by (apply Z.mod_pos_bound; done).
    assert (Hf : t mod Second * 2 ^ 32 / Second / 2 ^ 14 = t mod Second * 2 ^ 18 / Second).
    { rewrite Z.div_div by done. replace (t mod Second * 2 ^ 32) with (t mod Second * 2 ^ 18 * 2 ^ 14) by ring.
      by rewrite Z.div_mul_cancel_r by done. }
    assert (Hg : 0 <= t mod Second * 2 ^ 18 / Second < 2 ^ 18).
    { change (2 ^ 18) with 262144. unfold Second in *. ilia. }
    set (g := t mod Second * 2 ^ 18 / Second) in *. set (f := t mod Second * 2 ^ 32 / Second) in *.
    change ntpUnixEpochOffsetSeconds with ntpEpochOffset. set (s := t / Second + ntpEpochOffset).
    replace (s mod 2 ^ 32 * 2 ^ 32 + f) with (f + s mod 2 ^ 32 * 2 ^ 18 * 2 ^ 14) by ring.
    rewrite Z.div_add, Hf by lia. clearbody g f s. clear He Ht Hn Hf.
    rewrite be_combine_split; change (2 ^ 32) with 4294967296; change (2 ^ 18) with 262144 in *;
      change (2 ^ 24) with 16777216; cbn [Z.of_nat]; ilia.
  - rewrite capture_payload_ntp, be_combine_split by (apply timeToNTP_u64; done). by apply ntp_roundtrip_ns.
Qed.

Lemma extension_clocks_witness :
  in_era 1760000000123456789 ∧
  1760000000123456788 <= ntpTime (be_combine (capture_payload 1760000000123456789)) <= 1760000000123456789.
Proof.
  assert (H : in_era 1760000000123456789) by (vm_compute; split; congruence).
  split; [exact H|]. destruct (extension_clocks 1760000000123456789 H) as (_ & _ & Hc). exact Hc.
Defined.

(** *** What the pattern finds *)

Lemma strip_prefix_some p l rest : strip_prefix p l = Some rest → l = p ++ rest.
Proof.
  revert l. induction p as [|a p IH]; intros [|b l]; cbn; try congruence.
  destruct (decide _) as [->|]; [|done]. by intros ->%IH.
Qed.

Lemma span_app p l : l = (span p l).1 ++ (span p l).2 ∧ Forall (λ c, p c = true) (span p l).1.
Proof.
  induction l as [|c l [IH1 IH2]]; [done|]. cbn. destruct (p c) eqn:E; [|done].
  destruct (span p l) as [a b]. cbn in *. split; [by f_equal|by constructor].
Qed.

(** An [extmap] line for [uri] with the given digits. *)
Definition mentions (uri : string) (sdp : list Ascii.ascii) (digits : list Ascii.ascii) : Prop :=
  ∃ before dir after,
    sdp = before ++ Names.chars "a=extmap:" ++ digits ++ dir ++ Names.chars (" " +:+ uri) ++ after
    ∧ digits ≠ [] ∧ Forall (λ c, is_digit c = true) digits
    ∧ (dir = [] ∨ ∃ slash word, dir = slash :: word ∧ Ascii.nat_of_ascii slash = 47%nat ∧ word ≠ []
                                ∧ Forall (λ c, is_word c = true) word).

Lemma direction_split l :
  ∃ dir, l = dir ++ direction l
    ∧ (dir = [] ∨ ∃ slash word, dir = slash :: word ∧ Ascii.nat_of_ascii slash = 47%nat ∧ word ≠ []
                                ∧ Forall (λ c, is_word c = true) word).
Proof.
  destruct l as [|c l]; [exists []; by auto|]. unfold direction.
  destruct (Nat.eqb_spec (Ascii.nat_of_ascii c) 47) as [E|]; [|exists []; by auto].
  destruct (span_app is_word l) as [H1 H2]. destruct (span is_word l) as [[|w word] rest]; [exists []; by auto|].
  cbn in *. exists (c :: w :: word). split; [by rewrite H1|]. right. by exists c, (w :: word).
Qed.

Lemma match_at_some uri l digits : match_at uri l = Some digits → mentions uri l digits.
Proof.
  unfold match_at. destruct (strip_prefix _ l) as [rest|] eqn:Hp; [|done]. cbn [mbind option_bind].
  apply strip_prefix_some in Hp as ->. destruct (span_app is_digit rest) as [H1 H2].
  destruct (span is_digit rest) as [ds tail]. cbn in H1, H2. destruct ds as [|d ds]; [done|].
  destruct (direction_split tail) as (dir & Hd & Hdir).
  destruct (strip_prefix _ (direction tail)) as [after|] eqn:Ha; [|done]. intros [= <-].
  apply strip_prefix_some in Ha. exists [], dir, after. split_and!; try done.
  rewrite H1, Hd at 1. by rewrite Ha.
Qed.

Lemma find_group_some uri l digits : find_group uri l = Some digits → mentions uri l digits.
Proof.
  induction l as [|c l IH]; cbn [find_group].
  - destruct (match_at uri []) eqn:E; [|done]. intros [= ->]. by apply match_at_some.
  - destruct (match_at uri (c :: l)) eqn:E; [intros [= ->]; by apply match_at_some|].
    intros (before & dir & after & -> & H)%IH. by exists (c :: before), dir, after.
Qed.

(** An identifier that is used was negotiated in the description. *)
Lemma discover_negotiated uri sdp :
  discover uri sdp ≠ 0 →
  1 <= discover uri sdp <= 14 ∧
  ∃ digits, mentions uri (Names.chars sdp) digits
    ∧ NamePolicy.Atoi (Names.of_chars digits) = Some (discover uri sdp).
Proof.
  unfold discover. destruct (find_group _ _) as [digits|] eqn:E; [|done]. apply find_group_some in E.
  destruct (NamePolicy.Atoi _) as [id|] eqn:Ha; [|done]. case_if; [done|]. intros _.
  apply orb_false_iff in E0 as [H1%Z.ltb_ge H2]. assert (id <= 14) by lia.
  assert (Hu : u8 id = id) by ilia. rewrite Hu. split; [lia|]. by exists digits.
Qed.
End Extensions.

(** ** The leg *)

Module Downlink.
Import Feedback Extensions.

(** [writeDurHistogram]: the counters of its eight buckets. *)
Definition writeDurBucketMaxNs : list Z :=
  [10000; 50000; 100000; 500000; 1000000; 5000000; 10000000; 100000000].
Definition writeDurHistogram : Type := list Z.
Definition empty_hist : writeDurHistogram := replicate 8 0.

(** [observe]: the first of the first seven buckets whose bound exceeds the
    sample, or the last bucket. *)
Definition write_bucket (durNs : Z) : nat :=
  match list_find (λ m, durNs < m) (take 7 writeDurBucketMaxNs) with Some (i, _) => i | None => 7%nat end.
Definition observe_write (durNs : Z) (h : writeDurHistogram) : writeDurHistogram :=
  alter (λ c, u64 (c + 1)) (write_bucket durNs) h.

Import SpecFloat.

Definition write_percentileMs (h : writeDurHistogram) (p : spec_float) : spec_float :=
  let total := Histogram.total h in
  if total =? 0 then Histogram.float64 0 else
  let target := Z.max (Histogram.ceil_uint64 (Histogram.fmul (Histogram.float64 total) p)) 1 in
  let i := default 7%nat (Histogram.rank_bucket 0 h 0 target) in
  Histogram.fdiv (Histogram.float64 (nth i writeDurBucketMaxNs 0)) (Histogram.float64 1000000).

(** The two pacers a downlink is constructed with. *)
Inductive leg_pacer := PassThrough | Forwarding (p : Pacer.pacer).

(** [Downlink]; [readings] are the results [time.Now] is going to return to it. *)
Record Downlink (W : Type) := mkDownlink {
  id : string;
  inner : W;
  stats : SenderStats;
  mapper : ExtensionMapper;
  pacer : leg_pacer;
  writeHist : writeDurHistogram;
  senderTimeline : option Timeline.Timeline;
  readings : list Z }.
Arguments mkDownlink {W} _ _ _ _ _ _ _ _.
Arguments id {W} _.
Arguments inner {W} _.
Arguments stats {W} _.
Arguments mapper {W} _.
Arguments pacer {W} _.
Arguments writeHist {W} _.
Arguments senderTimeline {W} _.
Arguments readings {W} _.

Section Downlink.
Context {W : Type} `{Session.PacketWriter W} `{codec : Rtp.Codec}.
Implicit Types d : Downlink W.

Definition NewForwardingDownlink (name : string) (w : W) (clock : list Z) : Downlink W :=
  mkDownlink name w new_stats no_extensions (Forwarding Pacer.new) empty_hist None clock.
Definition NewPassthrough (name : string) (w : W) (clock : list Z) : Downlink W :=
  mkDownlink name w new_stats no_extensions PassThrough empty_hist None clock.

Definition set_stats (s : SenderStats) d : Downlink W :=
  mkDownlink (id d) (inner d) s (mapper d) (pacer d) (writeHist d) (senderTimeline d) (readings d).
Definition set_pacer (p : leg_pacer) d : Downlink W :=
  mkDownlink (id d) (inner d) (stats d) (mapper d) p (writeHist d) (senderTimeline d) (readings d).
Definition SetSenderTimeline (t : Timeline.Timeline) d : Downlink W :=
  mkDownlink (id d) (inner d) (stats d) (mapper d) (pacer d) (writeHist d) (Some t) (readings d).

Definition ConfigureExtensions (localSDP : string) d : Downlink W :=
  mkDownlink (id d) (inner d) (stats d)
    (mkMapper (DiscoverAbsSendTimeID localSDP) (DiscoverAbsCaptureTimeID localSDP))
    (pacer d) (writeHist d) (senderTimeline d) (readings d).

(** [time.Now] *)
Definition Now d : Z * Downlink W :=
  match readings d with
  | [] => (zero_time, d)
  | t :: rest =>
    (t, mkDownlink (id d) (inner d) (stats d) (mapper d) (pacer d) (writeHist d) (senderTimeline d) rest)
  end.

(** [writeRTP]: the leg, the packet as it is left, and whether the write failed. *)
Definition writeRTP (pkt : Rtp.Packet) d : Downlink W * Rtp.Packet * bool :=
  let '(now, d) := if absSendTimeID (mapper d) =? 0 then (zero_time, d) else Now d in
  let pkt := PatchAbsSendTime (mapper d) now pkt in
  let '(t0, d) := Now d in
  let '(w, failed) := Session.WriteRTP pkt (inner d) in
  let '(t1, d) := Now d in
  (mkDownlink (id d) w (count_write failed (Rtp.MarshalSize pkt) (stats d)) (mapper d) (pacer d)
     (observe_write (Sub t1 t0) (writeHist d)) (senderTimeline d) (readings d), pkt, failed).

(** The worker is the only writer of the mapping, so the version of the seqlock is
    even between two calls and [ObserveCapture] returns. *)
Definition observeTranslatedPacket (pkt : Rtp.Packet) (captureTime : Z) (known : bool) d : Downlink W :=
  if negb known then d
  else match senderTimeline d with
       | None => d
       | Some t =>
         let '(now, d) := Now d in
         SetSenderTimeline (default t (Timeline.ObserveCapture t (Rtp.Timestamp pkt) captureTime now)) d
       end.

(** One call of [EnqueueSource] on the forwarding pacer, when no other thread
    takes a step in between: the producer thread runs until it returns. *)
Fixpoint enqueue_call (fuel : nat) (now : Z) (p : Pacer.pacer) (t : Pacer.producer) : Pacer.pacer * option bool :=
  match Pacer.returned t with
  | Ok _ :: _ => (p, Some false)
  | Err _ :: _ => (p, Some true)
  | [] =>
    match fuel with
    | O => (p, None)
    | S fuel' => let '(p, t) := Pacer.producer_step now p t in enqueue_call fuel' now p t
    end
  end.
Definition enqueue_fuel (p : Pacer.pacer) : nat := (length (Pacer.ownedPackets p) + 6)%nat.
Definition EnqueueSource (a : Pacer.arguments) (now : Z) (p : Pacer.pacer) : Pacer.pacer * option bool :=
  enqueue_call (enqueue_fuel p) now p (Pacer.mkProducer Pacer.PIdle [a] []).

(** [WriteRTPWithSource] of the leg; the enqueue takes one reading of the clock. *)
Definition write_with_source (pkt : Rtp.Packet) (captureTime : Z) (known : bool) (source : SourceIdentity) d
  : Downlink W * Rtp.Packet * bool :=
  let '(pkt, patched) := if known then PatchAbsCaptureTime (mapper d) captureTime pkt else (pkt, false) in
  let d := if patched : bool then set_stats (count_patched (stats d)) d else d in
  match pacer d with
  | PassThrough => writeRTP pkt d
  | Forwarding p =>
    let '(now, d) := Now d in
    let '(p, failed) := EnqueueSource (Pacer.mkArgs pkt source captureTime known) now p in
    (set_pacer (Forwarding p) d, pkt, default false failed)
  end.

Definition requires_copy d : bool :=
  match pacer d with PassThrough => false | Forwarding _ => true end || MutatesPackets (mapper d).

(** [Stop] on the pacer closes its gate; the worker and the drain are the steps
    of [Pacer.stopper_step]. *)
Definition stop_forwarding d : Downlink W :=
  match pacer d with
  | PassThrough => d
  | Forwarding p =>
    let '(p, st) := Pacer.stopper_step p Pacer.SIdle in
    let '(p, _) := Pacer.stopper_step p st in set_pacer (Forwarding p) d
  end.

#[export] Instance downlink_subscription : BusSubscription (Downlink W) := {|
  WriteRTPWithSource := write_with_source;
  RequiresPacketCopy := requires_copy;
  StopForwarding := stop_forwarding |}.

Definition ObserveRTT (rtt : Z) d : Downlink W :=
  if rtt <? 0 then d
  else
    let d := set_stats (store_rtt (Microseconds rtt) (stats d)) d in
    match pacer d with
    | PassThrough => d
    | Forwarding p => set_pacer (Forwarding (Pacer.set_cache (Cache.setRTT (Pacer.cache p) rtt) p)) d
    end.

(** *** The contract of a subscription *)

#[export] Instance downlink_laws : SubscriptionLaws (Downlink W).
Proof.
  split. cbn [RequiresPacketCopy WriteRTPWithSource downlink_subscription]. intros d pkt c known source.
  unfold requires_copy, write_with_source, writeRTP. destruct (pacer d) eqn:Hp; [|done]. cbn [orb]. intros Hm.
  destruct (patches_nothing (mapper d) pkt Hm) as [Hs Hc]. rewrite Hc.
  replace (if known then (pkt, false) else (pkt, false)) with (pkt, false) by by destruct known.
  rewrite Hp. assert ((absSendTimeID (mapper d) =? 0) = true) as ->.
  { unfold MutatesPackets in Hm. by apply orb_false_iff in Hm as [Hz%negb_false_iff _]. }
  cbv beta iota. rewrite Hs. unfold Now.
  destruct (readings d) as [|t0 [|t1 rest]] eqn:Hn; cbn; rewrite ?Hs, ?Hn; destruct (Session.WriteRTP pkt (inner d));
    by rewrite ?Hn.
Qed.

(** *** A call of [EnqueueSource] returns *)

Lemma scan_returns fuel now p t a start off :
  Pacer.pstate t = Pacer.PScan a start off → Pacer.returned t = [] →
  (length (Pacer.ownedPackets p) - off + 4 <= fuel)%nat →
  (enqueue_call fuel now p t).2 = Some false.
Proof.
  revert p t off. induction fuel as [|fuel IH]; intros p t off Ht Hr Hf; [lia|].
  cbn [enqueue_call]. rewrite Hr. unfold Pacer.producer_step. rewrite Ht.
  destruct (Nat.leb_spec (length (Pacer.ownedPackets p)) off) as [Hle|Hlt].
  - destruct fuel as [|[|fuel]]; [lia|lia|]. cbn. rewrite Hr. by destruct fuel.
  - destruct (Pacer.ownedPackets p !! _) as [[[|] pkt]|] eqn:Hs; try (apply (IH _ _ (S off)); cbn; [done|done|lia]).
    destruct fuel as [|[|[|fuel]]]; [lia|lia|lia|]. cbn [enqueue_call Pacer.returned Pacer.pstate]. rewrite Hr.
    cbn. destruct (length (Pacer.queue p) <=? 31)%nat; cbn; by destruct fuel.
Qed.

(** Whether the admission gate of the pacer is open. *)
Definition admits (p : Pacer.pacer) : bool := Z.land (Pacer.enqueueState p) Pacer.pacerAdmissionClosed =? 0.

Lemma enqueue_step fuel now p t p' t' :
  Pacer.returned t = [] → Pacer.producer_step now p t = (p', t') →
  enqueue_call (S fuel) now p t = enqueue_call fuel now p' t'.
Proof. intros Hr Hs. cbn [enqueue_call]. by rewrite Hr, Hs. Qed.

Lemma enqueue_result a now p :
  (EnqueueSource a now p).2 = Some (admits p && negb (Pacer.withinPacerPacketBounds (Pacer.arg_packet a))).
Proof.
  unfold EnqueueSource, enqueue_fuel, admits.
  replace (length (Pacer.ownedPackets p) + 6)%nat with (S (S (length (Pacer.ownedPackets p) + 4))) by lia.
  destruct (Z.land (Pacer.enqueueState p) Pacer.pacerAdmissionClosed =? 0) eqn:Hg; cbn [andb].
  - erewrite enqueue_step; [|done|cbn; by rewrite Hg].
    destruct (Pacer.withinPacerPacketBounds (Pacer.arg_packet a)) eqn:Hb; cbn [negb].
    + erewrite enqueue_step; [|done|cbn; by rewrite Hb]. eapply (scan_returns _ _ _ _ a _ 0); [done|done|].
      cbn [Pacer.ownedPackets Pacer.set_nextOwnedSlot Pacer.set_enqueueState]. lia.
    + erewrite enqueue_step; [|done|cbn; by rewrite Hb]. rewrite Nat.add_comm. done.
  - erewrite enqueue_step; [|done|cbn; by rewrite Hg]. done.
Qed.


(** *** What the counters say about the wire *)

(** The leg as the pacer's worker drives it: one call of the observer or of the
    writer at a time. *)
Definition drive d (e : Pacer.wire_event) : Downlink W :=
  match e with
  | Pacer.Observed pkt captureTime known => observeTranslatedPacket pkt captureTime known d
  | Pacer.Wrote pkt _ => (writeRTP pkt d).1.1
  end.

(** The results the worker got are those of the leg's writer. *)
Fixpoint agrees d (es : list Pacer.wire_event) : Prop :=
  match es with
  | [] => True
  | e :: es' =>
    match e with Pacer.Wrote pkt failed => (writeRTP pkt d).2 = failed | _ => True end ∧ agrees (drive d e) es'
  end.

Definition delivered (e : Pacer.wire_event) : bool :=
  match e with Pacer.Wrote _ false => true | _ => false end.
Definition rejected (e : Pacer.wire_event) : bool :=
  match e with Pacer.Wrote _ true => true | _ => false end.
Definition tally (f : Pacer.wire_event → bool) (es : list Pacer.wire_event) : Z := len (filter (λ e, f e = true) es).

Lemma tally_cons f e es : tally f (e :: es) = (if f e then 1 else 0) + tally f es.
Proof.
  unfold tally, len. rewrite filter_cons. destruct (f e) eqn:E; rewrite ?decide_True, ?decide_False by congruence.
  - cbn [length]. lia.
  - lia.
Qed.

Lemma tally_snoc f es e : tally f (es ++ [e]) = tally f es + if f e then 1 else 0.
Proof.
  induction es as [|x es IH]; cbn [app]; rewrite !tally_cons; [lia|]. rewrite IH. lia.
Qed.

Lemma Now_stats d : stats (Now d).2 = stats d.
Proof. unfold Now. by destruct (readings d). Qed.

Lemma writeRTP_stats pkt d :
  ∃ bytes, stats (writeRTP pkt d).1.1 = count_write (writeRTP pkt d).2 bytes (stats d).
Proof.
  unfold writeRTP. set (r := if _ =? 0 then _ else _).
  assert (Hr : stats r.2 = stats d) by (unfold r; destruct (_ =? 0); [done|apply Now_stats]).
  destruct r as [now d1]. cbn in Hr. pose proof (Now_stats d1) as H1. destruct (Now d1) as [t0 d2]. cbn in H1.
  destruct (Session.WriteRTP _ (inner d2)) as [w failed]. pose proof (Now_stats d2) as H2.
  destruct (Now d2) as [t1 d3]. cbn in H2 |- *. eexists. by rewrite H2, H1, Hr.
Qed.

Lemma observe_stats pkt c k d : stats (observeTranslatedPacket pkt c k d) = stats d.
Proof.
  unfold observeTranslatedPacket. destruct (negb k); [done|]. destruct (senderTimeline d); [|done].
  pose proof (Now_stats d) as Hn. by destruct (Now d).
Qed.

Lemma drive_counts es d :
  is_u64 (PacketsSent (stats d)) → is_u64 (WriteErrCount (stats d)) → agrees d es →
  PacketsSent (stats (foldl drive d es)) = u64 (PacketsSent (stats d) + tally delivered es) ∧
  WriteErrCount (stats (foldl drive d es)) = u64 (WriteErrCount (stats d) + tally rejected es).
Proof.
  revert d. induction es as [|e es IH]; intros d Hp Hw.
  { intros _. unfold tally. cbn. by rewrite !Z.add_0_r, !u64_small. }
  intros [He Ha]. cbn [foldl]. rewrite !tally_cons.
  destruct e as [pkt c k|pkt failed]; cbn [drive] in *; cbn [delivered rejected].
  - rewrite !Z.add_0_l, <- (observe_stats pkt c k d). rewrite <- (observe_stats pkt c k d) in Hp, Hw. by apply IH.
  - destruct (writeRTP_stats pkt d) as [bytes Hs]. rewrite He in Hs.
    destruct (IH _ ltac:(rewrite Hs; destruct failed; cbn; try done; apply u64_range)
                   ltac:(rewrite Hs; destruct failed; cbn; try done; apply u64_range) Ha) as [-> ->].
    rewrite Hs. destruct failed; cbn [count_write PacketsSent WriteErrCount]; clear; split; ilia.
Qed.
End Downlink.

(** *** The pacer's own counters *)

Section Ledger.
Context `{codec : Rtp.Codec}.
Import Pacer.

Definition ledger (p : pacer) : Z * Z * list wire_event :=
  (counters p sentCount, counters p retransmitSentCount, log p).
Definition unsent (c : counter) : Prop := c ≠ sentCount ∧ c ≠ retransmitSentCount.

Create Rewrite HintDb pacer_ledger.

Lemma ledger_add c n p : unsent c → ledger (add c n p) = ledger p.
Proof. intros [? ?]. unfold ledger, add. cbn. by rewrite !fn_lookup_insert_ne. Qed.
Lemma ledger_store c v p : unsent c → ledger (store c v p) = ledger p.
Proof. intros [? ?]. unfold ledger, store. cbn. by rewrite !fn_lookup_insert_ne. Qed.
Lemma ledger_max c v p : unsent c → ledger (observeAtomicMax c v p) = ledger p.
Proof. intros Hc. unfold observeAtomicMax. destruct (v >? _); [by apply ledger_store|done]. Qed.
Lemma ledger_add_if b c p : unsent c → ledger (add_if b c p) = ledger p.
Proof. intros Hc. destruct b; [by apply ledger_add|done]. Qed.
Lemma ledger_pool x p : ledger (set_ownedPackets x p) = ledger p. Proof. done. Qed.
Lemma ledger_release it p : ledger (release it p) = ledger p. Proof. done. Qed.
Lemma ledger_slot x p : ledger (set_nextOwnedSlot x p) = ledger p. Proof. done. Qed.
Lemma ledger_queue x p : ledger (set_queue x p) = ledger p. Proof. done. Qed.
Lemma ledger_nacks x p : ledger (set_nacks x p) = ledger p. Proof. done. Qed.
Lemma ledger_cache x p : ledger (set_cache x p) = ledger p. Proof. done. Qed.
Lemma ledger_scratch x p : ledger (set_writeScratch x p) = ledger p. Proof. done. Qed.
Lemma ledger_ages x p : ledger (set_queueAgeHist x p) = ledger p. Proof. done. Qed.
Lemma ledger_spacings x p : ledger (set_spacingHist x p) = ledger p. Proof. done. Qed.
Lemma ledger_stopped x p : ledger (set_stopped x p) = ledger p. Proof. done. Qed.
Lemma ledger_gate x p : ledger (set_enqueueState x p) = ledger p. Proof. done. Qed.
Lemma ledger_done x p : ledger (set_doneClosed x p) = ledger p. Proof. done. Qed.
Lemma ledger_worker x p : ledger (set_workerDone x p) = ledger p. Proof. done. Qed.

#[local] Hint Rewrite ledger_pool ledger_release ledger_slot ledger_queue ledger_nacks ledger_cache ledger_scratch
  ledger_ages ledger_spacings ledger_stopped ledger_gate ledger_done ledger_worker : pacer_ledger.
#[local] Hint Rewrite ledger_add ledger_store ledger_max ledger_add_if using (split; discriminate) : pacer_ledger.

(** The packets counted as sent are those the writer accepted. *)
Definition balanced_ledger (l : Z * Z * list wire_event) : Prop :=
  u64 (l.1.1 + l.1.2) = u64 (tally delivered l.2).
Definition balanced (p : pacer) : Prop := balanced_ledger (ledger p).

Lemma balanced_same p p' : ledger p' = ledger p → balanced p → balanced p'.
Proof. unfold balanced. by intros ->. Qed.

Ltac same_ledger := eapply balanced_same; [by autorewrite with pacer_ledger|done].

(** A write leaves the books one packet short when it succeeds. *)
Definition owed (ok : bool) (p : pacer) : Prop :=
  u64 (counters p sentCount + counters p retransmitSentCount + if ok then 1 else 0) = u64 (tally delivered (log p)).

Lemma owed_ledger ok p p' : ledger p' = ledger p → owed ok p → owed ok p'.
Proof. unfold owed, ledger. by intros [= -> -> ->]. Qed.

Lemma owed_write pkt f p : balanced p → owed (writeOwnedPacket pkt f p).2 (writeOwnedPacket pkt f p).1.
Proof.
  unfold balanced, balanced_ledger, owed, writeOwnedPacket. destruct (scratch_copy _ _) as [s [|]]; cbn [negb fst snd];
    cbn; intros Hb; rewrite ?Z.add_0_r; [|done].
  rewrite tally_snoc. destruct f; cbn; [by rewrite !Z.add_0_r|]. clear -Hb. ilia.
Qed.

Lemma owed_pay c p : c = sentCount ∨ c = retransmitSentCount → owed true p → balanced (add c 1 p).
Proof.
  unfold owed, balanced, balanced_ledger, ledger, add. intros Hc Ho. cbn.
  destruct Hc as [-> | ->]; rewrite fn_lookup_insert, fn_lookup_insert_ne by done; clear -Ho; ilia.
Qed.

Lemma owed_none p : owed false p → balanced p.
Proof. unfold owed, balanced, balanced_ledger. by rewrite Z.add_0_r. Qed.

Lemma balanced_retransmit seq now f p : balanced p → balanced (retransmit seq now f p).
Proof.
  intros Hb. unfold retransmit. destruct (Cache.load _ _ _ _) as [[[c pkt] hit] throttled].
  destruct hit; cbn [negb]; [|same_ledger]. destruct throttled; [same_ledger|].
  destruct pkt as [i|]; [|same_ledger].
  match goal with |- context [writeOwnedPacket ?k f ?q] =>
    assert (Hq : balanced q) by same_ledger; pose proof (owed_write k f q Hq) as Ho;
    destruct (writeOwnedPacket k f q) as [p' ok] end.
  cbn [fst snd] in Ho. destruct ok; cbn [negb].
  - apply owed_pay; [by right|done].
  - eapply balanced_same; [by autorewrite with pacer_ledger|]. by apply owed_none.
Qed.

Lemma ledger_output pkt o p : ledger (record_output pkt o p).1 = ledger p.
Proof. unfold record_output. cbn [fst]. destruct (haveOutput o); [|done]. by autorewrite with pacer_ledger. Qed.

Lemma ledger_spacing n o p : ledger (record_spacing n o p).1 = ledger p.
Proof. unfold record_spacing. cbn [fst]. destruct (_ && _); [|done]. by autorewrite with pacer_ledger. Qed.

Lemma balanced_strip it p : balanced p → balanced (strip_and_observe it p).1.
Proof.
  intros Hb. unfold strip_and_observe. destruct (stripSourceMediaPadding _) as [pkt stripped]. cbn [fst].
  set (q := add_if stripped _ _). assert (Hq : ledger q = ledger p) by (unfold q; by autorewrite with pacer_ledger).
  unfold balanced, balanced_ledger in *. unfold ledger in Hq. injection Hq as H1 H2 H3.
  unfold ledger, log_event in *. cbn in *. rewrite H1, H2, H3, tally_snoc. cbn. by rewrite Z.add_0_r.
Qed.

Lemma owed_timed pkt x p : balanced p → owed (timed_write pkt x p).2 (timed_write pkt x p).1.
Proof.
  intros Hb. unfold timed_write. pose proof (owed_write pkt (writeFails x) p Hb) as Ho.
  destruct (writeOwnedPacket _ _ _) as [q ok]. cbn [fst snd] in *.
  eapply owed_ledger; [|exact Ho]. by autorewrite with pacer_ledger.
Qed.

Lemma balanced_keep it pkt o p : owed true p → balanced (keep_sent it pkt o p).1.
Proof.
  intros Ho. unfold keep_sent. destruct (Cache.storeOwned _ _ _) as [c pl].
  eapply balanced_same; [rewrite ledger_output; by autorewrite with pacer_ledger|].
  apply owed_pay; [by left|done].
Qed.

Lemma balanced_forward it o x p : balanced p → balanced (writeForwardItem it o x p).1.
Proof.
  intros Hb. unfold writeForwardItem, observe_age.
  set (p0 := observeAtomicMax _ _ _). assert (H0 : balanced p0) by (unfold p0; same_ledger).
  destruct (_ >? defaultPacerMaxQueueAge); [cbn [fst]; same_ledger|].
  pose proof (balanced_strip it p0 H0) as H1. destruct (strip_and_observe it p0) as [p1 pkt]. cbn [fst] in H1.
  pose proof (owed_timed pkt x p1 H1) as Ho. destruct (timed_write pkt x p1) as [p2 ok]. cbn [fst snd] in Ho.
  set (r := if ok then keep_sent it pkt o p2 else (p2, o)).
  assert (H2 : balanced r.1) by (unfold r; destruct ok; [by apply balanced_keep|by apply owed_none]).
  destruct r as [p3 o3]. cbn [fst] in H2.
  set (r := if Rtp.Padding pkt then _ else _).
  assert (H3 : balanced r.1).
  { unfold r. destruct (Rtp.Padding pkt); cbn [fst]; [same_ledger|].
    eapply balanced_same; [rewrite ledger_spacing; by autorewrite with pacer_ledger|done]. }
  destruct r as [p4 o4]. cbn [fst] in *. destruct ok; [done|same_ledger].
Qed.

Lemma balanced_take p w p' w' : take_item p w = Some (p', w') → balanced p → balanced p'.
Proof.
  unfold take_item, prepareForwardItem. destruct (queue p) as [|it rest]; [done|].
  destruct (Translator.translateAt _ _ _ _) as [[t pkt] reset]. destruct (Unwrapper.unwrap _ _) as [u ext].
  intros [= <- _] Hb. same_ledger.
Qed.

Lemma balanced_nack now f p p' : take_nack now f p = Some p' → balanced p → balanced p'.
Proof.
  unfold take_nack. destruct (nacks p) as [|seq rest]; [done|]. intros [= <-] Hb.
  apply balanced_retransmit. same_ledger.
Qed.

Lemma balanced_exit p w : balanced p → balanced (exit p w).1.
Proof. intros Hb. unfold exit. destruct (Cache.clear _ _) as [c pl]. cbn [fst]. same_ledger. Qed.

Lemma balanced_worker c p w p' w' : worker_step c p w = Some (p', w') → balanced p → balanced p'.
Proof.
  intros Hs Hb. unfold worker_step in Hs.
  pose proof (balanced_exit p w Hb) as He.
  destruct (at_ w) eqn:Ha; destruct c as [|now f| |now|x]; try done.
  - destruct (doneClosed p); [|done]. apply Some_inj in Hs. by rewrite Hs in He.
  - destruct (take_nack now f p) as [q|] eqn:Hn; [|done]. injection Hs as <- _. by eapply balanced_nack.
  - destruct (take_item p w) as [[q w1]|] eqn:Ht; [|done]. injection Hs as <- _. by eapply balanced_take.
  - destruct (_ <? _)%nat, (take_item p w) as [[q w1]|] eqn:Ht; injection Hs as <- _; try done. by eapply balanced_take.
  - repeat case_if; injection Hs as <- _; try done; same_ledger.
  - destruct (doneClosed p); [|done]. apply Some_inj in Hs. by rewrite Hs in He.
  - destruct (take_nack now f p) as [q|] eqn:Hn; [|done]. injection Hs as <- _. by eapply balanced_nack.
  - destruct (take_item p w) as [[q w1]|] eqn:Ht; [|done]. injection Hs as <- _. by eapply balanced_take.
  - destruct (Before now deadline); [done|]. injection Hs as <- _. case_if; same_ledger.
  - destruct (pending w) as [|it rest]; [done|]. pose proof (balanced_forward it (output w) x p Hb) as Hf.
    destruct (writeForwardItem _ _ _ _) as [q o]. by injection Hs as <- _.
Qed.

Lemma balanced_step s l s' : step s l = Some s' → balanced (pc s) → balanced (pc s').
Proof.
  intros Hs Hb. destruct l as [i now|i| |rtt|c]; cbn [step] in Hs.
  - destruct (producers s !! i) as [t|]; [|done]. cbn [mbind option_bind] in Hs.
    assert (Hl : ledger (producer_step now (pc s) t).1 = ledger (pc s)).
    { unfold producer_step. repeat case_match; cbn [fst]; try done; by autorewrite with pacer_ledger. }
    destruct (producer_step _ _ _) as [p t']. injection Hs as <-. by eapply balanced_same.
  - destruct (nackers s !! i) as [t|]; [|done]. cbn [mbind option_bind] in Hs.
    assert (Hl : ledger (nacker_step (pc s) t).1 = ledger (pc s)).
    { unfold nacker_step. repeat case_match; cbn [fst]; try done; by autorewrite with pacer_ledger. }
    destruct (nacker_step _ _) as [p t']. injection Hs as <-. by eapply balanced_same.
  - assert (Hl : ledger (stopper_step (pc s) (stopper s)).1 = ledger (pc s)).
    { unfold stopper_step. repeat case_match; cbn [fst]; try done; by autorewrite with pacer_ledger. }
    destruct (stopper_step _ _) as [p st]. injection Hs as <-. by eapply balanced_same.
  - injection Hs as <-. done.
  - destruct (worker_step c (pc s) (wk s)) as [[p w]|] eqn:Hw; [|done]. injection Hs as <-. by eapply balanced_worker.
Qed.

Lemma balanced_run ls s s' : run s ls = Some s' → balanced (pc s) → balanced (pc s').
Proof.
  revert s. induction ls as [|l ls IH]; intros s; cbn [run]; [by intros [= ->]|].
  destruct (step s l) as [s1|] eqn:Hs; [|done]. intros Hr Hb. eapply IH; [done|]. by eapply balanced_step.
Qed.
End Ledger.

Section Accounting.
Context {W : Type} `{Session.PacketWriter W} `{codec : Rtp.Codec}.

(** C22: the two layers of a leg keep the same books.  However the bus readers, the
    RTCP reader, the worker and [Stop] interleave, and whatever the transport
    returns, the number of packets the leg reports as sent is the number of media
    packets plus retransmissions the pacer counts as sent, and both are the
    number of writes the transport accepted, all modulo 2^64; the errors the leg
    reports are the writes it refused. *)
Theorem delivery_accounting enqueues requests ls s (d : Downlink W) :
  Pacer.run (Pacer.start enqueues requests) ls = Some s →
  stats d = new_stats →
  agrees d (Pacer.log (Pacer.pc s)) →
  let final := stats (foldl drive d (Pacer.log (Pacer.pc s))) in
  PacketsSent final =
    u64 (Pacer.counters (Pacer.pc s) Pacer.sentCount + Pacer.counters (Pacer.pc s) Pacer.retransmitSentCount) ∧
  PacketsSent final = u64 (tally delivered (Pacer.log (Pacer.pc s))) ∧
  WriteErrCount final = u64 (tally rejected (Pacer.log (Pacer.pc s))).
Proof.
  intros Hr Hd Ha. cbv zeta.
  assert (Hb : balanced (Pacer.pc s)) by (eapply balanced_run; [exact Hr|done]).
  destruct (drive_counts _ d ltac:(by rewrite Hd) ltac:(by rewrite Hd) Ha) as [H1 H2].
  rewrite Hd in H1, H2. cbn [new_stats PacketsSent WriteErrCount] in H1, H2. rewrite Z.add_0_l in H1, H2.
  split; [|by split]. by rewrite H1.
Qed.
End Accounting.
End Downlink.

(** ** Examples *)

Module DownlinkExample.
Import Feedback Extensions Downlink.

(** A transport that keeps what it is given. *)
#[local] Instance recording : Session.PacketWriter (list Rtp.Packet) := λ pkt sent, (sent ++ [pkt], false).
#[local] Existing Instance Pacer.example_codec.

Definition leg : Downlink (list Rtp.Packet) := NewForwardingDownlink "listener" [] [].

Lemma agrees_recording es (d : Downlink (list Rtp.Packet)) :
  forallb (λ e, negb (rejected e)) es = true → agrees d es.
Proof.
  revert d. induction es as [|e es IH]; intros d; [done|]. cbn [forallb agrees]. intros [He Hes]%andb_true_iff.
  split; [|by apply IH]. destruct e as [|pkt [|]]; try done.
  unfold writeRTP. destruct (if _ =? 0 then _ else _) as [now d1]. destruct (Now d1) as [t0 d2]. cbn.
  by destruct (Now d2) as [t1 d3].
Qed.

Lemma delivery_accounting_witness :
  ∃ s, Pacer.run Pacer.example_start Pacer.example_labels = Some s ∧
    PacketsSent (stats (foldl drive leg (Pacer.log (Pacer.pc s)))) =
      u64 (Pacer.counters (Pacer.pc s) Pacer.sentCount + Pacer.counters (Pacer.pc s) Pacer.retransmitSentCount).
Proof.
  assert (Hall : (λ s, forallb (λ e, negb (rejected e)) (Pacer.log (Pacer.pc s))) <$>
                   Pacer.run Pacer.example_start Pacer.example_labels = Some true) by (vm_compute; reflexivity).
  destruct (Pacer.run Pacer.example_start Pacer.example_labels) as [s|] eqn:Hrun; [|discriminate].
  injection Hall as Hall. exists s. split; [reflexivity|].
  apply (delivery_accounting _ _ Pacer.example_labels s leg Hrun eq_refl (agrees_recording _ leg Hall)).
Defined.


(** The identifiers of a description. *)
Lemma discover_example :
  DiscoverAbsSendTimeID "m=audio 9 UDP/TLS/RTP/SAVPF 111
a=extmap:3/sendonly http://www.webrtc.org/experiments/rtp-hdrext/abs-send-time
a=extmap:15 http://www.webrtc.org/experiments/rtp-hdrext/abs-capture-time" = 3 ∧
  DiscoverAbsCaptureTimeID "a=extmap:15 http://www.webrtc.org/experiments/rtp-hdrext/abs-capture-time" = 0.
Proof. split; vm_compute; reflexivity. Qed.
End DownlinkExample.
