(* ===== verification/AccessHandler.v ===== *)
(** * AccessHandler: the HTTP interface of the access service

    Translates [access/handler.go], [access/invitation_handler.go],
    [access/internal_handler.go] and the handler of [access/renewal.go], with the
    endpoints as definitions over the service of [Access] and [Invitation] and
    the limiters of [Admission].  A request is given with its decoded JSON body,
    a response is its status, its headers that depend on the outcome and the
    value that is encoded as its body. *)

From S2P Require Export Invitation Admission ServerPolicy Events.

(** ** The public interface *)

Module AccessHandler.
Import Storage Token Access Invitation.

Record ICEServer := mkICE { URLs : list string; Username : string; Credential : string }.
Record TURNConfig := mkTURN {
  PublicIP : string; Secret : list Z; UDPPort : Z; TLSPort : Z; CredentialTTLDuration : Z }.

(** The counters of [metrics.Registry] that handlers increment. *)
Record counters := mkCounters { SessionsCreated : Z; SessionsDeleted : Z; SubscriptionRequests : Z }.   (* uint64 *)

(** [HandlerConfig] *)
Record HandlerConfig := mkHandlerConfig {
  RelayWHIPBaseURL : string; RelaySignalURL : string; STUNURLs : list string; ICEServers : list ICEServer;
  TURN : option TURNConfig; CreateAdmission : option AccessLimiter.IPLimiter;
  ResolveAdmission : option AccessLimiter.IPLimiter; TrustedClientIPHeader : string }.

(** [Handler], with what it shares: the service's store and the limiters. *)
Record Handler := mkHandler {
  service : Service;
  store : Store;
  metrics : counters;
  relayWHIPBaseURL : string;
  relaySignalURL : string;
  stunURLs : list string;
  iceServers : list ICEServer;
  turn : option TURNConfig;
  createAdmission : option AccessLimiter.IPLimiter;   (* [None]: no limiter *)
  resolveAdmission : option AccessLimiter.IPLimiter;
  trustedClientIPHeader : string }.

Definition set_store (st : Store) (h : Handler) : Handler :=
  mkHandler (service h) st (metrics h) (relayWHIPBaseURL h) (relaySignalURL h) (stunURLs h) (iceServers h) (turn h)
    (createAdmission h) (resolveAdmission h) (trustedClientIPHeader h).
Definition set_metrics (m : counters) (h : Handler) : Handler :=
  mkHandler (service h) (store h) m (relayWHIPBaseURL h) (relaySignalURL h) (stunURLs h) (iceServers h) (turn h)
    (createAdmission h) (resolveAdmission h) (trustedClientIPHeader h).
Definition set_limiters (c r : option AccessLimiter.IPLimiter) (h : Handler) : Handler :=
  mkHandler (service h) (store h) (metrics h) (relayWHIPBaseURL h) (relaySignalURL h) (stunURLs h) (iceServers h)
    (turn h) c r (trustedClientIPHeader h).

Definition count_created (m : counters) : counters :=
  mkCounters (u64 (SessionsCreated m + 1)) (SessionsDeleted m) (SubscriptionRequests m).
Definition count_deleted (m : counters) : counters :=
  mkCounters (SessionsCreated m) (u64 (SessionsDeleted m + 1)) (SubscriptionRequests m).
Definition count_subscription (m : counters) : counters :=
  mkCounters (SessionsCreated m) (SessionsDeleted m) (u64 (SubscriptionRequests m + 1)).

(** [strings.TrimRight(s, "/")] *)
Fixpoint drop_slashes (l : list Ascii.ascii) : list Ascii.ascii :=
  match l with
  | c :: l' => if (Ascii.nat_of_ascii c =? 47)%nat then drop_slashes l' else l
  | [] => []
  end.
Definition trim_slashes (s : string) : string := Names.of_chars (reverse (drop_slashes (reverse (Names.chars s)))).

Definition NewHandlerWithConfig (s : Service) (st : Store) (m : counters) (c : HandlerConfig) : Handler :=
  let turn :=
    match TURN c with
    | Some t => Some (if CredentialTTLDuration t <=? 0
                      then mkTURN (PublicIP t) (Secret t) (UDPPort t) (TLSPort t) (24 * Hour) else t)
    | None => None
    end in
  mkHandler s st m (trim_slashes (RelayWHIPBaseURL c)) (trim_slashes (RelaySignalURL c)) (STUNURLs c) (ICEServers c)
    turn (CreateAdmission c) (ResolveAdmission c) (Names.TrimSpace (TrustedClientIPHeader c)).

(** A JSON body behind [MaxBytesReader]: absent, not decodable into the request
    type, or decoded and then followed by the end of the body or not. *)
Inductive body (A : Type) := NoContent | Undecodable | Decoded (value : A) (eof : bool).
Arguments NoContent {A}.
Arguments Undecodable {A}.
Arguments Decoded {A} _ _.

(** [Decode] and [requireJSONEOF]. *)
Definition decode {A} (b : body A) : option A :=
  match b with Decoded value true => Some value | _ => None end.
(** The same when a request without content is accepted. *)
Definition decode_optional {A} (zero : A) (b : body A) : option A :=
  match b with NoContent => Some zero | _ => decode b end.

Section Handlers.
Context `{RecordSizes} `{Jwt} `{Digests} `{Uuid} `{TurnAuth.HmacSha1} (tables : Lexicon.lexicon).

(** The parts of a request outside its path and body.  [authorization] is the
    header without its "Bearer " prefix, [header_ip name] the one IP address in the
    header [name], in canonical form. *)
Record request := mkRequest {
  authorization : encoded; idempotencyKey : string; remoteAddr : string; header_ip : string → option string;
  head : bool }.

(** What a request meets while it is served: how far its context lives and the
    clock in each of its transactions, the random identities it draws, and what
    other requests do to the store between its two transactions. *)
Record io := mkIO {
  admitted_at : Z; auth_cancel : option nat; auth_now : Z; between : Store → Store;
  cancel : option nat; now : Z; new_id : option string; jti : option string; random : list Z; ice_now : Z }.

Record createSessionResponse := mkCreated {
  crSessionID : string; crRequiredBuses : list string; crSourceToken : encoded; crWHIPURL : string;
  crWHEPURL : string; crICEServers : list ICEServer }.
Record publishSessionResponse := mkPublish {
  puSessionID : string; puBusID : string; puPublisherToken : encoded; puSignalURL : string;
  puICEServers : list ICEServer }.
Record resolveInvitationResponse := mkResolve {
  reSessionID : string; reBusID : string; reSubscriberToken : encoded; reSignalURL : string; reWHEPURL : string;
  reICEServers : list ICEServer }.

Inductive content :=
| NoBody
| Problem (code : string)
| CreatedSession (r : createSessionResponse)
| SessionState (s : State)
| RenewedOwner (source_token : encoded) (expires_at : Z)
| PublisherToken (r : publishSessionResponse)
| SubscriberToken (id bus : string) (t : encoded)
| CreatedInvitation (inv : Invitation)
| InspectedInvitation (m : InvitationMetadata)
| Raw (bytes : list Z)
| AuthorityBody (m : AuthorityMetadata)
| RelayStateBody (s : State) (changed : bool)
| WriterTermBody (term : Z).

Record response := mkResponse { status : Z; retryAfter : option Z; answer : content }.

Definition writeJSON (status : Z) (value : content) : response := mkResponse status None value.
Definition writeProblem (status : Z) (code : string) : response := writeJSON status (Problem code).
Definition session_not_found : response := writeProblem 404 "session_not_found".
Definition authority_unavailable : response := writeProblem 503 "session_authority_unavailable".

(** *** ICE servers *)

(** [net.JoinHostPort] *)
Definition JoinHostPort (host port : string) : string :=
  if existsb (λ c, (Ascii.nat_of_ascii c =? 58)%nat) (Names.chars host)
  then ("[" +:+ host +:+ "]:" +:+ port)%string else (host +:+ ":" +:+ port)%string.

Definition buildTURNICEServers (c : TURNConfig) (sessionID : string) (at_ : Z) : list ICEServer :=
  let udp := JoinHostPort (PublicIP c) (NamePolicy.Itoa (UDPPort c)) in
  let '(username, password) := TurnAuth.Credentials (Secret c) sessionID (CredentialTTLDuration c) at_ in
  let urls := [("turn:" +:+ udp +:+ "?transport=udp")%string; ("turn:" +:+ udp +:+ "?transport=tcp")%string] ++
              (if TLSPort c >? 0
               then [("turns:" +:+ JoinHostPort (PublicIP c) (NamePolicy.Itoa (TLSPort c)) +:+ "?transport=tcp")%string]
               else []) in
  [mkICE [("stun:" +:+ udp)%string] "" ""; mkICE urls username password].

Definition buildICEServers (h : Handler) (sessionID : string) (at_ : Z) : list ICEServer :=
  let servers := iceServers h ++ (if len (stunURLs h) =? 0 then [] else [mkICE (stunURLs h) "" ""]) in
  match turn h with
  | None => servers
  | Some c => servers ++ buildTURNICEServers c sessionID at_
  end.

(** *** Admission and authorization *)

Definition admissionIdentity (h : Handler) (r : request) : string :=
  if bool_decide (trustedClientIPHeader h = "") then remoteAddr r
  else default (remoteAddr r) (header_ip r (trustedClientIPHeader h)).

(** [Allow] of a limiter that may be absent. *)
Definition allow (l : option AccessLimiter.IPLimiter) (identity : string) (at_ : Z)
  : option AccessLimiter.IPLimiter * (bool * Z) :=
  match l with
  | None => (None, (true, 0))
  | Some l => let '(l, answer) := AccessLimiter.Allow identity at_ l in (Some l, answer)
  end.

(** [int(d.Round(time.Second).Seconds())], for a delay that is not negative. *)
Definition round_seconds (d : Z) : Z := (d + Second / 2) / Second.

(** [authorizeResponse]: the response that refuses, or [None]. *)
Definition allowed_role (c : Claims) (role : Role) : bool :=
  bool_decide (cRole c = role) && (negb (bool_decide (role = RoleSource)) || CanControl c).

Definition authorizeResponse (h : Handler) (x : io) (r : request) (id : string) (roles : list Role) : option response :=
  if encoded_len (authorization r) =? 0 then Some session_not_found
  else
    match Authorize (service h) id (authorization r) (auth_cancel x) (auth_now x) (store h) with
    | Err Storage.ErrInvalidCapability | Err ErrNoRows | Err ErrNotExist => Some session_not_found
    | Err _ => Some authority_unavailable
    | Ok claims => if existsb (allowed_role claims) roles then None else Some session_not_found
    end.

(** *** The endpoints *)

Definition createSession (x : io) (r : request) (b : body (list string)) (h : Handler) : Handler * response :=
  let '(l, (allowed, retry)) := allow (createAdmission h) (admissionIdentity h r) (admitted_at x) in
  let h := set_limiters l (resolveAdmission h) h in
  if negb allowed
  then (h, mkResponse 429 (Some (round_seconds retry)) (Problem "session_admission_exceeded"))
  else
    match decode_optional [] b with
    | None => (h, writeProblem 400 "invalid_session_request")
    | Some required =>
      match CreateContext (service h) required (cancel x) (now x) (new_id x) (jti x) (store h) with
      | (st, Err ErrSessionCapacity) => (set_store st h, writeProblem 429 "session_capacity_reached")
      | (st, Err ErrInvalidRelayState) => (set_store st h, writeProblem 400 "invalid_session_request")
      | (st, Err _) => (set_store st h, authority_unavailable)
      | (st, Ok (record, token)) =>
        let base := (relayWHIPBaseURL h +:+ "/v1/sessions/" +:+ seID record)%string in
        let url (suffix : string) := if bool_decide (relayWHIPBaseURL h = "") then ""%string else (base +:+ suffix)%string in
        (set_metrics (count_created (metrics h)) (set_store st h),
         writeJSON 201 (CreatedSession (mkCreated (seID record) (seRequiredBuses record) token (url "/whip"%string)
                                          (url "/whep"%string) (buildICEServers h (seID record) (ice_now x)))))
      end
    end.

(** The error cases that the second transaction of several endpoints shares. *)
Definition issue_problem (e : error) (scope : string) : response :=
  match e with
  | ErrNotExist | ErrNoRows => session_not_found
  | ErrInvalidRelayState => writeProblem 400 scope
  | _ => authority_unavailable
  end.

Definition getSession (x : io) (r : request) (id : string) (h : Handler) : Handler * response :=
  match authorizeResponse h x r id [RoleSource; RoleSubscriber] with
  | Some refused => (h, refused)
  | None =>
    match GetContext (service h) id (cancel x) (now x) (between x (store h)) with
    | (st, Err ErrNoRows) => (set_store st h, session_not_found)
    | (st, Err _) => (set_store st h, authority_unavailable)
    | (st, Ok record) => (set_store st h, writeJSON 200 (SessionState (session_state record)))
    end
  end.

Definition publishSession (x : io) (r : request) (id : string) (b : body (option string)) (h : Handler)
  : Handler * response :=
  match authorizeResponse h x r id [RoleSource] with
  | Some refused => (h, refused)
  | None =>
    match decode b with
    | None => (h, writeProblem 400 "invalid_publisher_request")
    | Some bus =>
      let bus := default ""%string bus in
      match IssuePublisherTokenContext (service h) id bus (cancel x) (now x) (jti x) (between x (store h)) with
      | (st, Err e) => (set_store st h, issue_problem e "invalid_publisher_scope")
      | (st, Ok token) =>
        (set_store st h,
         writeJSON 200 (PublisherToken (mkPublish id bus token (relaySignalURL h) (buildICEServers h id (ice_now x)))))
      end
    end
  end.

Definition subscribeSession (x : io) (r : request) (id : string) (b : body (option string)) (h : Handler)
  : Handler * response :=
  match authorizeResponse h x r id [RoleSource] with
  | Some refused => (h, refused)
  | None =>
    match decode_optional None b with
    | None => (h, writeProblem 400 "invalid_subscriber_request")
    | Some bus =>
      let bus := default "mix"%string bus in
      match IssueSubscriberTokenContext (service h) id bus (cancel x) (now x) (jti x) (between x (store h)) with
      | (st, Err e) => (set_store st h, issue_problem e "invalid_subscriber_scope")
      | (st, Ok token) =>
        (set_metrics (count_subscription (metrics h)) (set_store st h), writeJSON 200 (SubscriberToken id bus token))
      end
    end
  end.

Definition deleteSession (x : io) (r : request) (id : string) (h : Handler) : Handler * response :=
  match authorizeResponse h x r id [RoleSource] with
  | Some refused => (h, refused)
  | None =>
    match DeleteContext (service h) id (cancel x) (now x) (between x (store h)) with
    | (st, Err _) => (set_store st h, writeProblem 503 "session_revocation_failed")
    | (st, Ok false) => (set_store st h, session_not_found)
    | (st, Ok true) => (set_metrics (count_deleted (metrics h)) (set_store st h), mkResponse 204 None NoBody)
    end
  end.

Definition renewOwner (x : io) (r : request) (id : string) (h : Handler) : Handler * response :=
  match RenewOwner (service h) id (authorization r) (cancel x) (now x) (jti x) (store h) with
  | (st, Err Storage.ErrInvalidCapability) | (st, Err ErrNoRows) => (set_store st h, session_not_found)
  | (st, Err _) => (set_store st h, authority_unavailable)
  | (st, Ok (token, expires)) => (set_store st h, writeJSON 200 (RenewedOwner token expires))
  end.

(** The body of an invitation request; [word_count] is [Some None] when it is
    there and not an integer. *)
Record createInvitationRequest := mkInviteRequest {
  WordCount : option (option Z); BusID : option string; Visibility : option string }.

Definition createInvitation (x : io) (r : request) (id : string) (b : body createInvitationRequest) (h : Handler)
  : Handler * response :=
  match authorizeResponse h x r id [RoleSource] with
  | Some refused => (h, refused)
  | None =>
    match decode_optional (mkInviteRequest None None None) b with
    | None => (h, writeProblem 400 "invalid_invitation_request")
    | Some input =>
      let wordCount :=
        match WordCount input with
        | None => Some 0
        | Some (Some n) => if (n <? Names.MinWordCount) || (n >? Names.MaxWordCount) then None else Some n
        | Some None => None
        end in
      match wordCount with
      | None => (h, writeProblem 400 "invalid_word_count")
      | Some wordCount =>
        match CreateInvitationWithOptionsContext tables (service h) id (default "mix"%string (BusID input))
                (default ""%string (Visibility input)) wordCount (random x) (cancel x) (now x) (between x (store h)) with
        | (st, Err e) =>
          (set_store st h,
           match e with
           | ErrNotExist => session_not_found
           | ErrSessionNotReady => writeProblem 409 "session_not_ready"
           | ErrInvitationCapacity => writeProblem 503 "invitation_capacity_reached"
           | ErrInvalidWordCount => writeProblem 400 "invalid_word_count"
           | ErrInvalidInvitationVisibility => writeProblem 400 "invalid_invitation_visibility"
           | _ => writeProblem 503 "invitation_creation_failed"
           end)
        | (st, Ok inv) => (set_store st h, writeJSON 201 (CreatedInvitation inv))
        end
      end
    end
  end.

Definition inspectInvitation (x : io) (r : request) (locator : string) (h : Handler) : Handler * response :=
  (h, match InspectInvitationContext tables (service h) locator (cancel x) (now x) (store h) with
      | Err ErrNotExist => writeProblem 404 "invitation_not_found"
      | Err _ => authority_unavailable
      | Ok m => if head r then mkResponse 200 None NoBody else writeJSON 200 (InspectedInvitation m)
      end).

(** The body of a redemption: [join_code] and the deprecated [secret]. *)
Record redeemInvitationRequest := mkRedeemRequest { JoinCode : string; DeprecatedSecret : string }.

(** [json.Marshal] of the response. *)
Context (Marshal : resolveInvitationResponse → result error (list Z)).

Definition resolve_response (h : Handler) (x : io) (v : ResolvedInvitation) : resolveInvitationResponse :=
  mkResolve (rvSessionID v) (rvBusID v) (rvSubscriberToken v) (relaySignalURL h)
    (if bool_decide (relayWHIPBaseURL h = "") then ""%string
     else (relayWHIPBaseURL h +:+ "/v1/sessions/" +:+ rvSessionID v +:+ "/whep")%string)
    (buildICEServers h (rvSessionID v) (ice_now x)).

(** The credential a redemption presents, [None] when its two fields disagree. *)
Definition join_code (input : redeemInvitationRequest) : option string :=
  if bool_decide (DeprecatedSecret input = "") then Some (JoinCode input)
  else if negb (bool_decide (JoinCode input = "")) && negb (bool_decide (JoinCode input = DeprecatedSecret input))
  then None else Some (DeprecatedSecret input).

Definition redeemInvitation (x : io) (r : request) (locator : string) (b : body redeemInvitationRequest) (h : Handler)
  : Handler * response :=
  let '(l, (allowed, retry)) := allow (resolveAdmission h) (admissionIdentity h r) (admitted_at x) in
  let h := set_limiters (createAdmission h) l h in
  if negb allowed
  then (h, mkResponse 429 (Some (round_seconds retry)) (Problem "invitation_admission_exceeded"))
  else
    match decode_optional (mkRedeemRequest "" "") b with
    | None => (h, writeProblem 400 "invalid_invitation_request")
    | Some input =>
      match join_code input with
      | None => (h, writeProblem 400 "conflicting_join_credential")
      | Some code =>
        let locator := if bool_decide (locator = "") then code else locator in
        match redeem tables (service h) locator code (idempotencyKey r) (λ v, Marshal (resolve_response h x v)) (jti x)
                (cancel x) (now x) (store h) with
        | (st, Err ErrNotExist) => (set_store st h, writeProblem 404 "invitation_not_found")
        | (st, Err ErrRetryConflict) => (set_store st h, writeProblem 409 "invitation_retry_conflict")
        | (st, Err _) => (set_store st h, authority_unavailable)
        | (st, Ok (bytes, _)) => (set_store st h, mkResponse 200 None (Raw bytes))
        end
      end
    end.

(** [Register]: the route of a call and its arguments.  [sseEvents] is in
    [EventStream] below. *)
Inductive call :=
| PostSessions (b : body (list string))
| GetSession (id : string)
| PostRenew (id : string)
| PostPublish (id : string) (b : body (option string))
| PostSubscribe (id : string) (b : body (option string))
| PostInvitations (id : string) (b : body createInvitationRequest)
| GetInvitation (locator : string)
| PostRedeem (locator : string) (b : body redeemInvitationRequest)
| DeleteSessionCall (id : string).

Definition serve (c : call) (x : io) (r : request) (h : Handler) : Handler * response :=
  match c with
  | PostSessions b => createSession x r b h
  | GetSession id => getSession x r id h
  | PostRenew id => renewOwner x r id h
  | PostPublish id b => publishSession x r id b h
  | PostSubscribe id b => subscribeSession x r id b h
  | PostInvitations id b => createInvitation x r id b h
  | GetInvitation locator => inspectInvitation x r locator h
  | PostRedeem locator b => redeemInvitation x r locator b h
  | DeleteSessionCall id => deleteSession x r id h
  end.

(** *** Every request is at most one operation of the service *)

Definition issued_by (s : Service) (o : invite_op) : Prop :=
  match o with
  | IAccess o => runs o = Some s
  | IInvite s' _ _ _ _ _ _ _ | IRedeem s' _ _ _ _ _ _ _ => s' = s
  end.

(** Starting from [st0], [st] is the result of one operation of [s]. *)
Definition one_op (s : Service) (st0 st : Store) : Prop :=
  ∃ o, issued_by s o ∧ st = (invite_apply tables st0 o).1.

Lemma invite_is_op s id bus vis count rnd c0 n0 st :
  one_op s st (CreateInvitationWithOptionsContext tables s id bus vis count rnd c0 n0 st).1.
Proof.
  exists (IInvite s id bus vis count rnd c0 n0). split; [done|]. cbn [invite_apply].
  by destruct (CreateInvitationWithOptionsContext _ _ _ _ _ _ _ _ _ _) as [st' [|]].
Qed.

Lemma redeem_is_op s locator code key enc j c0 n0 st : one_op s st (redeem tables s locator code key enc j c0 n0 st).1.
Proof.
  exists (IRedeem s locator code key enc j c0 n0). split; [done|]. cbn [invite_apply].
  by destruct (redeem _ _ _ _ _ _ _ _ _ _) as [st' [[resp [|]]|]].
Qed.

Lemma access_is_op s o st : runs o = Some s → one_op s st (access_apply st o).
Proof. intros Ho. by exists (IAccess o). Qed.

Lemma serve_store c x r h :
  let h' := (serve c x r h).1 in
  service h' = service h ∧
  (store h' = store h ∨ ∃ st0, (st0 = store h ∨ st0 = between x (store h)) ∧ one_op (service h) st0 (store h')).
Proof.
  destruct c; cbn [serve].
  - unfold createSession. destruct (allow _ _ _) as [l [[|] retry]]; cbn [negb]; [|by auto].
    destruct (decode_optional _ b) as [required|]; [|by auto]. cbn [service store set_limiters].
    pose proof (access_is_op (service h) (ACreate (service h) required (cancel x) (now x) (new_id x) (jti x)) (store h) eq_refl) as Ho.
    cbn [access_apply] in Ho. destruct (CreateContext _ _ _ _ _ _ _) as [st [[rec tok]|[]]]; split; try done; right; eauto.
  - unfold getSession. destruct (authorizeResponse _ _ _ _ _); [by auto|].
    pose proof (access_is_op (service h) (AGet (service h) id (cancel x) (now x)) (between x (store h)) eq_refl) as Ho.
    cbn [access_apply] in Ho. destruct (GetContext _ _ _ _ _) as [st [rec|[]]]; split; try done; right; eauto.
  - unfold renewOwner.
    pose proof (access_is_op (service h) (ARenew (service h) id (authorization r) (cancel x) (now x) (jti x)) (store h) eq_refl) as Ho.
    cbn [access_apply] in Ho. destruct (RenewOwner _ _ _ _ _ _ _) as [st [[tok e]|[]]]; split; try done; right; eauto.
  - unfold publishSession. destruct (authorizeResponse _ _ _ _ _); [by auto|]. destruct (decode b) as [bus|]; [|by auto].
    pose proof (access_is_op (service h) (AIssue (service h) id (default ""%string bus) RoleSource (cancel x) (now x) (jti x))
                  (between x (store h)) eq_refl) as Ho.
    cbn [access_apply] in Ho. unfold IssuePublisherTokenContext.
    destruct (update _ _ _ _ _) as [st [tok|e]]; split; try done; right; eauto.
  - unfold subscribeSession. destruct (authorizeResponse _ _ _ _ _); [by auto|].
    destruct (decode_optional _ b) as [bus|]; [|by auto].
    pose proof (access_is_op (service h) (AIssue (service h) id (default "mix"%string bus) RoleSubscriber (cancel x) (now x) (jti x))
                  (between x (store h)) eq_refl) as Ho.
    cbn [access_apply] in Ho. unfold IssueSubscriberTokenContext.
    destruct (update _ _ _ _ _) as [st [tok|e]]; split; try done; right; eauto.
  - unfold createInvitation. destruct (authorizeResponse _ _ _ _ _); [by auto|].
    destruct (decode_optional _ b) as [input|]; [|by auto]. cbv zeta.
    destruct (match WordCount input with Some _ => _ | None => _ end) as [count|]; [|by auto].
    pose proof (invite_is_op (service h) id (default "mix"%string (BusID input)) (default ""%string (Visibility input)) count
                  (random x) (cancel x) (now x) (between x (store h))) as Ho.
    destruct (CreateInvitationWithOptionsContext _ _ _ _ _ _ _ _ _ _) as [st [inv|e]]; split; try done; right; eauto.
  - unfold inspectInvitation. by auto.
  - unfold redeemInvitation. destruct (allow _ _ _) as [l [[|] retry]]; cbn [negb]; [|by auto].
    destruct (decode_optional _ b) as [input|]; [|by auto]. destruct (join_code input) as [code|]; [|by auto].
    cbn [service store set_limiters]. cbv zeta. set (loc := if bool_decide (locator = ""%string) then _ else _).
    match goal with |- context [redeem tables (service h) loc code ?k ?enc ?j ?c0 ?n0 (store h)] =>
      pose proof (redeem_is_op (service h) loc code k enc j c0 n0 (store h)) as Ho;
      destruct (redeem tables (service h) loc code k enc j c0 n0 (store h)) as [st [[bytes o]|[]]] end;
      split; try done; right; eauto.
  - unfold deleteSession. destruct (authorizeResponse _ _ _ _ _); [by auto|].
    pose proof (access_is_op (service h) (ADelete (service h) id (cancel x) (now x)) (between x (store h)) eq_refl) as Ho.
    cbn [access_apply] in Ho. destruct (DeleteContext _ _ _ _ _) as [st [[|]|e]]; split; try done; right; eauto.
Qed.

(** The stores that requests and the instances' own operations lead to.  What
    other requests do between the two transactions of one leads to such a store
    too. *)
Inductive served (l : limits) : Store → Prop :=
| served_new : served l NewStore
| served_op st o : served l st → within l o → served l (invite_apply tables st o).1
| served_request h c x r :
    served l (store h) → served l (between x (store h)) →
    MaxSessions (config (service h)) <= lSessions l → MaxInvitations (config (service h)) <= lInvitations l →
    MaxReceipts (config (service h)) <= lReceipts l →
    served l (store (serve c x r h).1).

Lemma issued_within l s o :
  MaxSessions (config s) <= lSessions l → MaxInvitations (config s) <= lInvitations l →
  MaxReceipts (config s) <= lReceipts l → issued_by s o → within l o.
Proof.
  intros L1 L2 L3. destruct o as [o|s'|s']; cbn [issued_by within].
  - intros Ho. unfold allows. by rewrite Ho.
  - by intros ->.
  - by intros ->.
Qed.

Lemma op_keeps l st o :
  within l o → wf (store_data st) ∧ held l (store_data st) →
  wf (store_data (invite_apply tables st o).1) ∧ held l (store_data (invite_apply tables st o).1).
Proof.
  intros Hl [Hw Hh]. pose proof (invite_outcome tables st o Hw) as Ho.
  split; [by eapply outcome_wf|by eapply outcome_held].
Qed.

(** The limits hold behind the HTTP interface.  Whatever requests arrive at
    the instances that share a store, with any bodies, tokens and retry keys,
    wherever their contexts are cancelled and however they interleave between
    their transactions, the store stays consistent and holds at most the
    configured numbers of Sessions, invitations and receipts. *)
Theorem requests_keep_limits l st :
  0 <= lSessions l → 0 <= lInvitations l → 0 <= lReceipts l → served l st →
  wf (store_data st) ∧ held l (store_data st).
Proof.
  intros Hs Hi Hr. induction 1 as [|st o _ IH Ho|h c x r _ IH1 _ IH2 L1 L2 L3].
  - split; [exact empty_wf|]. unfold held. cbn. rewrite !map_size_empty. lia.
  - by apply op_keeps.
  - destruct (serve_store c x r h) as [_ [->|(st0 & Hst & o & Ho & ->)]]; [done|].
    apply op_keeps; [by apply (issued_within l (service h))|]. by destruct Hst as [-> | ->].
Qed.

(** *** A refused request changes nothing *)

Lemma create_err s req c0 n0 i j st st' e : CreateContext s req c0 n0 i j st = (st', Err e) → st' = st.
Proof.
  unfold CreateContext. destruct (validateRequiredBuses _); [apply update_err|by intros [= <- _]].
Qed.

Lemma invite_err s id bus vis n rnd c0 n0 st st' e :
  CreateInvitationWithOptionsContext tables s id bus vis n rnd c0 n0 st = (st', Err e) → st' = st.
Proof.
  unfold CreateInvitationWithOptionsContext. destruct (request_policy _ _ _); [apply update_err|by intros [= <- _]].
Qed.

Lemma redeem_err s locator code key enc j c0 n0 st st' e :
  redeem tables s locator code key enc j c0 n0 st = (st', Err e) → st' = st.
Proof. unfold redeem. repeat case_if; try apply update_err; by intros [= <- _]. Qed.

(** The store a request leaves when it is refused. *)
Definition unchanged (c : call) (x : io) (h : Handler) (st : Store) : Prop :=
  st = store h ∨ st = between x (store h) ∨
  (∃ id, c = DeleteSessionCall id ∧ live (service h) (now x) (prepared (service h) (now x) (store_data (between x (store h)))) id = None
     ∧ store_data st = prepared (service h) (now x) (store_data (between x (store h)))).

Lemma create_refused x r b h :
  400 <= status (createSession x r b h).2 →
  metrics (createSession x r b h).1 = metrics h ∧ store (createSession x r b h).1 = store h.
Proof.
  unfold createSession. destruct (allow _ _ _) as [l [[|] retry]]; cbn [negb]; [|done].
  destruct (decode_optional _ b) as [required|]; [|done]. cbn [service store set_limiters].
  destruct (CreateContext _ _ _ _ _ _ _) as [st [[rec tok]|e]] eqn:E; [cbn; lia|].
  apply create_err in E as ->. by destruct e.
Qed.

Lemma redeem_refused x r locator b h :
  400 <= status (redeemInvitation x r locator b h).2 →
  metrics (redeemInvitation x r locator b h).1 = metrics h ∧ store (redeemInvitation x r locator b h).1 = store h.
Proof.
  unfold redeemInvitation. destruct (allow _ _ _) as [l [[|] retry]]; cbn [negb]; [|done].
  destruct (decode_optional _ b) as [input|]; [|done]. destruct (join_code input) as [code|]; [|done].
  cbn [service store set_limiters]. cbv zeta.
  destruct (redeem _ _ _ _ _ _ _ _ _ _) as [st [[bytes o]|e]] eqn:E; [cbn; lia|].
  apply redeem_err in E as ->. by destruct e.
Qed.

Lemma delete_refused x r id h :
  400 <= status (deleteSession x r id h).2 →
  metrics (deleteSession x r id h).1 = metrics h ∧
  unchanged (DeleteSessionCall id) x h (store (deleteSession x r id h).1).
Proof.
  unfold deleteSession. destruct (authorizeResponse _ _ _ _ _); [by intros _; split; [|left]|].
  destruct (DeleteContext _ _ _ _ _) as [st [[|]|e]] eqn:E; [cbn; lia| |].
  - intros _. split; [done|]. right. right. exists id. split; [done|].
    apply update_ok in E as (_ & _ & _ & Hex); [|apply _]. unfold delete_tx in Hex.
    unfold Session in Hex. rewrite read_ok, Now_ok in Hex. cbn [tx_now store set_store] in *. unfold live.
    destruct (sessions _ !! id) as [rec|]; [|injection Hex as Hd; by rewrite Hd]. cbn [negb] in Hex.
    destruct (After _ _), (bool_decide _); cbn [negb orb andb] in *; try (injection Hex as Hd; by rewrite Hd).
    exfalso. rewrite exec_bind in Hex by apply _. destruct (exec (DeleteSession id) _ _) as [d' [[]|err]]; [|done].
    by injection Hex.
  - intros _. apply update_err in E as ->. split; [done|]. right. by left.
Qed.

Lemma session_refused c x r h id :
  c = GetSession id ∨ c = PostRenew id ∨ (∃ b, c = PostPublish id b) ∨ (∃ b, c = PostSubscribe id b) ∨
    (∃ b, c = PostInvitations id b) →
  400 <= status (serve c x r h).2 →
  metrics (serve c x r h).1 = metrics h ∧
  (store (serve c x r h).1 = store h ∨ store (serve c x r h).1 = between x (store h)).
Proof.
  intros [->|[->|[[b ->]|[[b ->]|[b ->]]]]]; cbn [serve].
  - unfold getSession. destruct (authorizeResponse _ _ _ _ _); [by auto|].
    destruct (GetContext _ _ _ _ _) as [st [rec|e]] eqn:E; [cbn; lia|].
    apply update_err in E as ->. intros _. destruct e; by auto.
  - unfold renewOwner. destruct (RenewOwner _ _ _ _ _ _ _) as [st [[tok ex]|e]] eqn:E; [cbn; lia|].
    apply update_err in E as ->. intros _. destruct e; by auto.
  - unfold publishSession. destruct (authorizeResponse _ _ _ _ _); [by auto|]. destruct (decode b) as [bus|]; [|by auto].
    destruct (IssuePublisherTokenContext _ _ _ _ _ _ _) as [st [tok|e]] eqn:E; [cbn; lia|].
    apply update_err in E as ->. intros _. by auto.
  - unfold subscribeSession. destruct (authorizeResponse _ _ _ _ _); [by auto|].
    destruct (decode_optional _ b) as [bus|]; [|by auto].
    destruct (IssueSubscriberTokenContext _ _ _ _ _ _ _) as [st [tok|e]] eqn:E; [cbn; lia|].
    apply update_err in E as ->. intros _. by auto.
  - unfold createInvitation. destruct (authorizeResponse _ _ _ _ _); [by auto|].
    destruct (decode_optional _ b) as [input|]; [|by auto]. cbv zeta.
    destruct (match WordCount input with Some _ => _ | None => _ end) as [count|]; [|by auto].
    destruct (CreateInvitationWithOptionsContext _ _ _ _ _ _ _ _ _ _) as [st [inv|e]] eqn:E; [cbn; lia|].
    apply invite_err in E as ->. intros _. by auto.
Qed.


(** *** Who may do what *)

Lemma authorize_ok s id e c0 n0 st c :
  Authorize s id e c0 n0 st = Ok c →
  Storage.closed st = false ∧ writes s (namespace (store_data st)) = true ∧
  ∃ rec, live s n0 (store_data st) id = Some rec ∧ authorizeRecord s rec e n0 = Ok c.
Proof.
  unfold Authorize, view, View. destruct (run _ _ _ _ _) as [st' res] eqn:Hr. cbn [snd]. intros ->.
  apply run_commits in Hr as (Hc & Hex & _); [|apply _]. split; [done|].
  unfold authorize_tx in Hex. rewrite exec_bind in Hex by apply _. rewrite exec_checkWriter in Hex. cbn [fst snd] in Hex.
  destruct (writes _ _); [|done]. split; [done|]. rewrite exec_bind, exec_active in Hex by apply _. cbn [fst snd tx_now] in Hex.
  destruct (live _ _ _ _) as [rec|] eqn:Hl; [|done]. exists rec. split; [done|]. rewrite Now_ok, exec_lift in Hex. exact Hex.
Qed.

(** A capability for the Session [id] with these roles, at an instant. *)
Definition holds_capability (s : Service) (roles : list Role) (id : string) (e : encoded) (at_ : Z) (d : records) : Prop :=
  ∃ rec c, live s at_ d id = Some rec ∧ authorizeRecord s rec e at_ = Ok c ∧ existsb (allowed_role c) roles = true.

Lemma authorized h x r id roles :
  authorizeResponse h x r id roles = None →
  holds_capability (service h) roles id (authorization r) (auth_now x) (store_data (store h)).
Proof.
  unfold authorizeResponse. destruct (_ =? 0); [done|].
  destruct (Authorize _ _ _ _ _ _) as [c|[]] eqn:E; try done. destruct (existsb _ _) eqn:Hr; [|done]. intros _.
  apply authorize_ok in E as (_ & _ & rec & Hl & Ha). by exists rec, c.
Qed.

Lemma renew_authorized s id e c0 n0 j st st' a :
  wf (store_data st) → RenewOwner s id e c0 n0 j st = (st', Ok a) → holds_capability s [RoleSource] id e n0 (store_data st).
Proof.
  intros Hw Hu. apply update_ok in Hu as (_ & _ & _ & Hex); [|apply _]. unfold renew_tx in Hex.
  apply active_ok in Hex as (rec & Hl & Hex); [|intros; apply _]. rewrite live_prepared in Hl by done.
  rewrite Now_ok, exec_bind, exec_lift in Hex by apply _. cbn [fst snd tx_now] in Hex.
  destruct (authorizeRecord _ _ _ _) as [c|] eqn:Ha; [|done]. apply guard_ok in Hex as [Hc _].
  exists rec, c. split_and!; [done|done|]. cbn [existsb]. unfold allowed_role. rewrite Hc.
  unfold CanControl in Hc. apply andb_true_iff in Hc as [-> _]. by rewrite orb_true_r.
Qed.

(** The Session a call is about and the roles that may make it. *)
Definition scope (c : call) : option (string * list Role) :=
  match c with
  | GetSession id => Some (id, [RoleSource; RoleSubscriber])
  | PostRenew id | PostPublish id _ | PostSubscribe id _ | PostInvitations id _ | DeleteSessionCall id =>
    Some (id, [RoleSource])
  | PostSessions _ | GetInvitation _ | PostRedeem _ _ => None
  end.

(** The instant at which a call checks its capability. *)
Definition checked_at (c : call) (x : io) : Z := match c with PostRenew _ => now x | _ => auth_now x end.

Lemma session_call_refused c x r h id roles refused :
  scope c = Some (id, roles) → (∀ i, c ≠ PostRenew i) → authorizeResponse h x r id roles = Some refused →
  serve c x r h = (h, refused).
Proof.
  destruct c; cbn [scope serve]; intros [= <- <-] Hn Ha; try by destruct (Hn _ eq_refl).
  all: unfold getSession, publishSession, subscribeSession, createInvitation, deleteSession; by rewrite Ha.
Qed.

Lemma refusal_is_error h x r id roles refused :
  authorizeResponse h x r id roles = Some refused → 400 <= status refused.
Proof.
  unfold authorizeResponse. case_if; [intros [= <-]; cbn; lia|].
  destruct (Authorize _ _ _ _ _ _) as [c|[]]; repeat case_if; intros [= <-]; cbn; lia.
Qed.

(** What an accepted capability is: signed with the service's key, for this
    Session, and of the owner or, where listeners may read, of a subscriber. *)
Lemma capability_meaning s roles id e at_ d :
  wf d → (roles = [RoleSource] ∨ roles = [RoleSource; RoleSubscriber]) → holds_capability s roles id e at_ d →
  ∃ c, ParseHS256 (secret s) e = Some (tokenTyp, c) ∧ cSessionID c = id ∧
    (CanControl c = true ∨ cRole c = RoleSubscriber ∧ RoleSubscriber ∈ roles).
Proof.
  intros Hw Hroles (rec & c & Hl & Ha & Hc). exists c. apply live_some in Hl as (Hl & _ & _).
  unfold authorizeRecord in Ha. destruct (VerifyProfile _ _ _ _) as [c'|] eqn:Hv; [|done].
  apply verified in Hv as (Hp & _). case_if; [done|]. case_if; [done|]. injection Ha as ->.
  apply negb_false_iff, bool_decide_eq_true in E. split; [done|].
  split; [rewrite E; destruct Hw as [_ (Hid & _)]; by apply Hid|].
  destruct Hroles as [-> | ->]; cbn [existsb] in Hc; unfold allowed_role in Hc.
  - rewrite orb_false_r, andb_true_iff in Hc. left. by destruct Hc as [_ Hc].
  - apply orb_true_iff in Hc as [Hc|Hc]; [left; by apply andb_true_iff in Hc as [_ Hc]|].
    rewrite orb_false_r, andb_true_iff in Hc. destruct Hc as [Hc%bool_decide_eq_true _]. right. split; [done|set_solver].
Qed.


(** *** A stranger learns nothing *)

(** A service that can answer: its store is open and it is the current writer. *)
Definition able (h : Handler) (at_ : Z) : Prop :=
  Storage.closed (store h) = false ∧ writes (service h) (namespace (store_data (store h))) = true ∧
  namespace_bytes (renew_lease (service h) at_ (namespace (store_data (store h)))) <= MaxRecordBytes.

Lemma authorizeRecord_err s rec e at_ err : authorizeRecord s rec e at_ = Err err → err = Storage.ErrInvalidCapability.
Proof.
  unfold authorizeRecord. destruct (VerifyProfile _ _ _ _); [|by intros [= <-]]. repeat case_if; by intros [= <-].
Qed.

Lemma authorize_able h at_ id e :
  able h at_ →
  Authorize (service h) id e None at_ (store h) =
  match live (service h) at_ (store_data (store h)) id with
  | Some rec => authorizeRecord (service h) rec e at_
  | None => Err ErrNoRows
  end.
Proof.
  intros (Hc & Hw & _). unfold Authorize, view, View, run. cbn [ctx_err ctx]. rewrite Hc.
  rewrite (exec_state (authorize_tx _ _ _)). unfold authorize_tx.
  rewrite exec_bind, exec_checkWriter, Hw by apply _. cbn [fst snd].
  rewrite exec_bind, exec_active by apply _. cbn [fst snd tx_now].
  destruct (live _ _ _ _) as [rec|]; [|done]. rewrite Now_ok, exec_lift. cbn [tx_now].
  by destruct (authorizeRecord _ _ _ _).
Qed.

Lemma renew_able h at_ id e j :
  wf (store_data (store h)) → able h at_ → ¬ holds_capability (service h) [RoleSource] id e at_ (store_data (store h)) →
  ∃ err, RenewOwner (service h) id e None at_ j (store h) = (store h, Err err)
    ∧ (err = ErrNoRows ∨ err = Storage.ErrInvalidCapability).
Proof.
  intros Hw (Hc & Hwr & Hb) Hn. unfold RenewOwner, update, Update, run. cbn [ctx_err ctx]. rewrite Hc.
  rewrite (exec_state (update_tx _ _)), exec_update_tx, Hwr by apply _.
  replace (_ >? MaxRecordBytes) with false by lia.
  unfold renew_tx. rewrite exec_bind, exec_active by apply _. cbn [fst snd tx_now]. rewrite live_prepared by done.
  destruct (live _ _ _ _) as [rec|] eqn:Hl; [|by exists ErrNoRows; auto].
  rewrite Now_ok, exec_bind, exec_lift by apply _. cbn [fst snd tx_now].
  destruct (authorizeRecord _ _ _ _) as [c|err] eqn:Ha.
  - rewrite exec_bind, exec_guard by apply _. destruct (CanControl c) eqn:Hcc.
    + destruct Hn. exists rec, c. split_and!; [done|done|]. cbn [existsb]. unfold allowed_role. rewrite Hcc.
      unfold CanControl in Hcc. apply andb_true_iff in Hcc as [-> _]. by rewrite orb_true_r.
    + cbn. exists Storage.ErrInvalidCapability. by auto.
  - apply authorizeRecord_err in Ha as ->. cbn. exists Storage.ErrInvalidCapability. by auto.
Qed.

Lemma set_store_same h : set_store (store h) h = h.
Proof. by destruct h. Qed.

(** The interface does not reveal which Sessions exist.  On a service that can
    answer, every request for a Session whose bearer token is not a capability for
    it gets the same response, 404 [session_not_found], and leaves no trace: the
    answer is the same for a Session that does not exist, has expired or belongs
    to another incarnation, for a missing, forged or expired token, for a token of
    another Session and for a role that may not make the call. *)
Theorem strangers_learn_nothing c x r h id roles :
  wf (store_data (store h)) → scope c = Some (id, roles) → able h (checked_at c x) →
  auth_cancel x = None → cancel x = None →
  ¬ holds_capability (service h) roles id (authorization r) (checked_at c x) (store_data (store h)) →
  serve c x r h = (h, session_not_found).
Proof.
  intros Hw Hsc Hable Hac Hcc Hno.
  assert (Hn : c = PostRenew id ∨ ∀ i, c ≠ PostRenew i) by (destruct c; try done; injection Hsc as <- <-; by (left + right)).
  destruct Hn as [->|Hn].
  - injection Hsc as <-. cbn [serve checked_at] in *. unfold renewOwner. rewrite Hcc.
    destruct (renew_able h _ id _ (jti x) Hw Hable Hno) as (err & -> & [-> | ->]); by rewrite set_store_same.
  - apply (session_call_refused c x r h id roles); [done|done|].
    assert (Hat : checked_at c x = auth_now x) by (destruct c; try done; by destruct (Hn id0)).
    rewrite Hat in *. unfold authorizeResponse. case_if; [done|]. rewrite Hac, authorize_able by done.
    destruct (live _ _ _ _) as [rec|] eqn:Hl; [|done]. destruct (authorizeRecord _ _ _ _) as [cl|err] eqn:Ha.
    + destruct (existsb _ _) eqn:He; [|done]. destruct Hno. by exists rec, cl.
    + apply authorizeRecord_err in Ha as ->. done.
Qed.
End Handlers.
End AccessHandler.

(** ** The event stream *)

Module EventStream.
Import Storage Token Access EventBus AccessHandler.

(** [strconv.ParseUint(s, 10, 64)] succeeds. *)
Definition parses_uint64 (s : string) : bool :=
  match Names.chars s with
  | [] => false
  | digits => match NamePolicy.decimal 0 digits with Some n => n <? 18446744073709551616 | None => false end
  end.

(** What is written to the client. *)
Inductive frame := StateFrame (revision : Z) | Keepalive.

(** What happens while a client is connected: other users of the bus, and the
    cases of the handler's select, with whether the write succeeds. *)
Inductive stream_step := Other (o : bus_op) | CtxDone | Take (written : bool) | Tick (written : bool).

(** The deferred [Unsubscribe] and the return. *)
Definition leave (id : string) (frames : list frame) (b : EventBus) : result panic (EventBus * list frame * bool) :=
  match Unsubscribe id b with Ok b' => Ok (b', frames, true) | Err e => Err e end.

(** The loop of [sseEvents] on the channel [ref]; the result says whether the
    handler has returned. *)
Fixpoint stream (id : string) (ref : nat) (steps : list stream_step) (frames : list frame) (b : EventBus)
  : result panic (EventBus * list frame * bool) :=
  match steps with
  | [] => Ok (b, frames, false)
  | Other o :: steps' =>
    if decide (fresh_id b o)
    then match bus_apply b o with Ok b' => stream id ref steps' frames b' | Err e => Err e end
    else stream id ref steps' frames b
  | CtxDone :: _ => leave id frames b
  | Take written :: steps' =>
    match channels b !! ref with
    | Some c =>
      match buffer c with
      | Some event =>
        let b' := (receive ref b).1 in
        if written then stream id ref steps' (frames ++ [StateFrame (Revision event)]) b' else leave id frames b'
      | None => if ch_closed c then leave id frames b else stream id ref steps' frames b
      end
    | None => stream id ref steps' frames b
    end
  | Tick written :: steps' =>
    if written then stream id ref steps' (frames ++ [Keepalive]) b else leave id frames b
  end.

Section Stream.
Context `{RecordSizes} `{Jwt}.

(** How [sseEvents] ends: an error response, or a stream. *)
Inductive sse_result := Refused (r : response) | Streamed (frames : list frame) (returned : bool).

(** [sseEvents] of a client that asks for the Session [id], with [b] its bus;
    [lastEventID] is a header, [flushes] whether the connection can stream,
    [initial] whether the first write succeeds, [subID] the drawn identity. *)
Definition sseEvents (x : io) (r : request) (id lastEventID : string) (flushes initial : bool) (subID : option string)
    (steps : list stream_step) (h : Handler) (b : EventBus) : Handler * result panic (EventBus * sse_result) :=
  match authorizeResponse h x r id [RoleSource; RoleSubscriber] with
  | Some refused => (h, Ok (b, Refused refused))
  | None =>
    if negb (bool_decide (lastEventID = "")) && negb (parses_uint64 lastEventID)
    then (h, Ok (b, Refused (writeProblem 400 "invalid_last_event_id")))
    else
      match GetContext (service h) id (cancel x) (now x) (between x (store h)) with
      | (st, Err e) =>
        (set_store st h, Ok (b, Refused (match e with ErrNoRows | ErrNotExist => session_not_found | _ => authority_unavailable end)))
      | (st, Ok record) =>
        let state := session_state record in
        (set_store st h,
         match subscribeAfter (MaxSSEPerSession (config (service h))) (stStateRevision state) subID b with
         | (b, Err ErrSSECapacity) => Ok (b, Refused (writeProblem 429 "sse_capacity_reached"))
         | (b, Err EventBus.ErrRandom) => Ok (b, Refused authority_unavailable)
         | (b, Ok (sub, ref)) =>
           if negb flushes then
             match Unsubscribe sub b with
             | Ok b => Ok (b, Refused (writeProblem 500 "streaming_not_supported"))
             | Err e => Err e
             end
           else
             match (if initial then stream sub ref steps [StateFrame (stStateRevision state)] b else leave sub [] b) with
             | Ok (b, frames, returned) => Ok (b, Streamed frames returned)
             | Err e => Err e
             end
         end)
      end
  end.
End Stream.

Lemma with_channel_subscribers ref f b b' : with_channel ref f b = Ok b' → subscribers b' = subscribers b.
Proof. unfold with_channel. repeat case_match; intros; simplify_eq; done. Qed.

Lemma unsubscribe_drops id b b' : Unsubscribe id b = Ok b' → HasSubscriber id b' = false.
Proof.
  unfold Unsubscribe, HasSubscriber. destruct (subscribers b !! id) as [sub|] eqn:E.
  - intros Hc. rewrite (with_channel_subscribers _ _ _ _ Hc). cbn. by rewrite lookup_delete_eq.
  - intros [= <-]. by rewrite E.
Qed.

Lemma reach_apply b o : reachable b → fresh_id b o → ∃ b', bus_apply b o = Ok b' ∧ reachable b'.
Proof.
  intros Hr Hf. destruct (bus_apply_ok b o (reachable_ok b Hr) Hf) as (b' & Ha & _).
  exists b'. split; [done|by eapply reach_step].
Qed.

Lemma leave_ok id frames b :
  reachable b → ∃ b', leave id frames b = Ok (b', frames, true) ∧ reachable b' ∧ HasSubscriber id b' = false.
Proof.
  intros Hr. destruct (reach_apply b (OUnsubscribe id) Hr I) as (b' & Ha & Hr'). cbn in Ha. unfold leave. rewrite Ha.
  exists b'. split_and!; [done|done|by eapply unsubscribe_drops].
Qed.

Lemma stream_ok id ref steps frames b :
  reachable b →
  ∃ b' frames' ret, stream id ref steps frames b = Ok (b', frames', ret) ∧ reachable b' ∧
    (ret = true → HasSubscriber id b' = false).
Proof.
  revert frames b. induction steps as [|[o| |written|written] steps IH]; intros frames b Hr; cbn [stream].
  - exists b, frames, false. by split_and!.
  - case_decide as Hf; [|by apply IH]. destruct (reach_apply b o Hr Hf) as (b' & -> & Hr'). by apply IH.
  - destruct (leave_ok id frames b Hr) as (b' & -> & Hr' & Hs). by eauto 10.
  - assert (Hr' : reachable (receive ref b).1) by (by apply (reach_step b (OReceive ref))).
    destruct (channels b !! ref) as [c|]; [|by apply IH]. destruct (buffer c) as [event|].
    + destruct written; [by apply IH|]. destruct (leave_ok id frames _ Hr') as (b' & -> & Hr'' & Hs). by eauto 10.
    + destruct (ch_closed c); [|by apply IH]. destruct (leave_ok id frames b Hr) as (b' & -> & Hr'' & Hs). by eauto 10.
  - destruct written; [by apply IH|]. destruct (leave_ok id frames b Hr) as (b' & -> & Hr' & Hs). by eauto 10.
Qed.

(** C27: an event stream gives back its place.  Whatever else happens on the bus
    and whenever the client goes, the connection stalls, the channel is closed or
    the connection cannot stream at all, serving the stream never panics, and once
    the handler has returned, with an error or after streaming, the subscription
    it was given is no longer on the bus, so abandoned clients cannot use up the
    limit on a Session's streams. *)
Theorem streams_release_their_place `{RecordSizes} `{Jwt} x r id lastEventID flushes initial sub steps h b :
  reachable b → subscribers b !! sub = None →
  ∃ h' b' res, sseEvents x r id lastEventID flushes initial (Some sub) steps h b = (h', Ok (b', res)) ∧ reachable b' ∧
    (match res with Streamed _ false => True | _ => HasSubscriber sub b' = false end).
Proof.
  intros Hr Hf. assert (Hnot : HasSubscriber sub b = false) by (unfold HasSubscriber; by rewrite Hf).
  unfold sseEvents. destruct (authorizeResponse _ _ _ _ _); [by eauto 10|]. case_if; [by eauto 10|].
  destruct (GetContext _ _ _ _ _) as [st [rec|e]]; [|by eauto 10].
  set (limit := MaxSSEPerSession _). set (rev := stStateRevision _).
  assert (Hr1 : reachable (subscribeAfter limit rev (Some sub) b).1) by (by apply (reach_step b (OSubscribe limit rev (Some sub)))).
  destruct (subscribeAfter limit rev (Some sub) b) as [b1 [[sub' ref]|err]] eqn:Hsub.
  - assert (sub' = sub) as -> by (unfold subscribeAfter in Hsub; repeat case_match; congruence). cbn [fst] in Hr1.
    destruct flushes; cbn [negb].
    + destruct initial.
      * destruct (stream_ok sub ref steps [StateFrame rev] b1 Hr1) as (b' & fr & ret & -> & Hr' & Hret).
        eexists _, _, _. split; [done|]. split; [done|]. destruct ret; by auto.
      * destruct (leave_ok sub [] b1 Hr1) as (b' & -> & Hr' & Hs). eexists _, _, _. done.
    + destruct (reach_apply b1 (OUnsubscribe sub) Hr1 I) as (b' & Ha & Hr'). cbn in Ha. rewrite Ha.
      eexists _, _, _. split; [done|]. split; [done|]. by eapply unsubscribe_drops.
  - assert (b1 = b) as -> by (unfold subscribeAfter in Hsub; repeat case_match; congruence).
    destruct err; by eauto 10.
Qed.
End EventStream.

(** ** The internal interface *)

Module InternalHandler.
Import Storage Token Access AccessHandler.

Section Internal.
Context `{RecordSizes} `{Jwt}.

(** [InternalHandler]: the service with its store, and the shared secret. *)
Record InternalHandler := mkInternal { service : Service; store : Store; secret : list Z }.
Definition set_store (st : Store) (h : InternalHandler) : InternalHandler := mkInternal (service h) st (secret h).

(** [authenticate]: the header is the secret, which is long enough. *)
Definition authenticate (provided : list Z) (h : InternalHandler) : bool :=
  negb ((len (secret h) <? 32) || negb (len provided =? len (secret h)) || negb (bool_decide (provided = secret h))).

Definition acquireRelayWriter (id : string) (b : body (string * Z)) (c : option nat) (at_ : Z) (h : InternalHandler)
  : InternalHandler * response :=
  match decode b with
  | None => (h, writeProblem 400 "invalid_relay_writer")
  | Some (epoch, expected) =>
    match AcquireRelayWriter (service h) id epoch expected c at_ (store h) with
    | (st, Err ErrNoRows) => (set_store st h, session_not_found)
    | (st, Err ErrWriterFenced) => (set_store st h, writeProblem 409 "relay_writer_fenced")
    | (st, Err _) => (set_store st h, authority_unavailable)
    | (st, Ok term) => (set_store st h, writeJSON 200 (WriterTermBody term))
    end
  end.

Definition replaceRelayState (id : string) (b : body RelayState) (c : option nat) (at_ : Z) (h : InternalHandler)
  : InternalHandler * response :=
  match decode b with
  | None => (h, writeProblem 400 "invalid_relay_state")
  | Some snapshot =>
    match ApplyRelayStateContext (service h) id snapshot c at_ (store h) with
    | (st, Err ErrNotExist) => (set_store st h, session_not_found)
    | (st, Err ErrWriterFenced) => (set_store st h, writeProblem 409 "relay_writer_fenced")
    | (st, Err ErrInvalidRelayState) => (set_store st h, writeProblem 400 "invalid_relay_state")
    | (st, Err _) => (set_store st h, authority_unavailable)
    | (st, Ok (state, changed)) => (set_store st h, writeJSON 200 (RelayStateBody state changed))
    end
  end.

Definition getAuthorityState (id : string) (head : bool) (c : option nat) (at_ : Z) (h : InternalHandler)
  : InternalHandler * response :=
  (h, match Metadata (service h) id c at_ (store h) with
      | Err ErrNoRows => session_not_found
      | Err _ => authority_unavailable
      | Ok m => if head then mkResponse 200 None NoBody else writeJSON 200 (AuthorityBody m)
      end).

Inductive internal_call :=
| PostRelayWriter (id : string) (b : body (string * Z))
| PutRelayState (id : string) (b : body RelayState)
| GetAuthority (id : string) (head : bool).

(** [Register]: every route is behind [authenticate]. *)
Definition serve (call : internal_call) (provided : list Z) (c : option nat) (at_ : Z) (h : InternalHandler)
  : InternalHandler * response :=
  if negb (authenticate provided h) then (h, writeProblem 401 "internal_authentication_failed")
  else match call with
       | PostRelayWriter id b => acquireRelayWriter id b c at_ h
       | PutRelayState id b => replaceRelayState id b c at_ h
       | GetAuthority id head => getAuthorityState id head c at_ h
       end.

Lemma authenticate_iff provided h : authenticate provided h = true ↔ provided = secret h ∧ 32 <= len (secret h).
Proof.
  unfold authenticate. rewrite negb_true_iff, !orb_false_iff, !negb_false_iff, bool_decide_eq_true, Z.ltb_ge, Z.eqb_eq.
  split; [tauto|]. intros [-> ?]. done.
Qed.

Lemma acquire_err s id epoch expected c at_ st st' e :
  AcquireRelayWriter s id epoch expected c at_ st = (st', Err e) → st' = st.
Proof. unfold AcquireRelayWriter. case_if; [by intros [= <- _]|apply update_err]. Qed.

Lemma apply_err s id sn c at_ st st' e : ApplyRelayStateContext s id sn c at_ st = (st', Err e) → st' = st.
Proof. unfold ApplyRelayStateContext. repeat case_if; try apply update_err; by intros [= <- _]. Qed.

(** The internal interface is closed to the public and all-or-nothing.  A
    request whose header is not the configured secret, or that reaches a process
    configured with a secret of fewer than 32 octets, is answered 401; a request
    that is answered with any error leaves the store as it was; so what changes a
    Session's placement or reported state there carried the secret and succeeded. *)
Theorem internal_requests_authenticated call provided c at_ h :
  (status (serve call provided c at_ h).2 = 401 ↔ ¬ (provided = secret h ∧ 32 <= len (secret h))) ∧
  (400 <= status (serve call provided c at_ h).2 → (serve call provided c at_ h).1 = h) ∧
  (store (serve call provided c at_ h).1 ≠ store h → provided = secret h ∧ 32 <= len (secret h)).
Proof.
  assert (Hst : set_store (store h) h = h) by by destruct h.
  unfold serve. rewrite <- authenticate_iff. destruct (authenticate provided h); cbn [negb]; [|cbn; split_and!; [done..|]; tauto].
  assert (∀ hr : InternalHandler * response, status hr.2 ≠ 401 → (400 <= status hr.2 → hr.1 = h) →
    (status hr.2 = 401 ↔ ¬ true = true) ∧ (400 <= status hr.2 → hr.1 = h) ∧ (store hr.1 ≠ store h → true = true)) as Hgoal.
  { intros hr Hn He. split_and!; [split; [done|by intros []]|done|done]. }
  apply Hgoal; destruct call as [id b|id b|id hd].
  - unfold acquireRelayWriter. destruct (decode b) as [[epoch expected]|]; [|done].
    destruct (AcquireRelayWriter _ _ _ _ _ _ _) as [st [t|[]]]; done.
  - unfold replaceRelayState. destruct (decode b) as [sn|]; [|done].
    destruct (ApplyRelayStateContext _ _ _ _ _ _) as [st [[state ch]|[]]]; done.
  - unfold getAuthorityState. destruct (Metadata _ _ _ _ _) as [m|[]]; cbn; try done. by destruct hd.
  - unfold acquireRelayWriter. destruct (decode b) as [[epoch expected]|]; [|done].
    destruct (AcquireRelayWriter _ _ _ _ _ _ _) as [st [t|e]] eqn:E; [cbn; lia|].
    apply acquire_err in E as ->. intros _. by destruct e.
  - unfold replaceRelayState. destruct (decode b) as [sn|]; [|done].
    destruct (ApplyRelayStateContext _ _ _ _ _ _) as [st [[state ch]|e]] eqn:E; [cbn; lia|].
    apply apply_err in E as ->. intros _. by destruct e.
  - done.
Qed.
End Internal.
End InternalHandler.

(** ** Examples *)

Module HandlerExample.
Import Storage Token Access Invitation AccessHandler.
#[local] Existing Instances Storage.small_records Token.clear_jwt Token.clear_jwt_laws
  Invitation.plain_digests Invitation.shape_uuid.
#[local] Instance no_hmac : TurnAuth.HmacSha1 := λ _ _, [].

Definition example_marshal (r : resolveInvitationResponse) : result error (list Z) := Ok [].
Definition example_handler : Handler :=
  NewHandlerWithConfig service_a example_store (mkCounters 0 0 0)
    (mkHandlerConfig "https://relay.example/" "" [] [] None None None "").

(** The capability that creating Session "s-1" returned to its owner. *)
Definition owner_token : encoded :=
  match CreateContext service_a ["voice"] None (2 * Second) (Some "s-1") (Some "t-1")
          (access_apply NewStore (AOpen example_key example_config None (1 * Second) (Some "inc-1"))) with
  | (_, Ok (_, token)) => token
  | _ => SignedString "" (new_claims "" "" [] RoleSource false) []
  end.
Definition forged_token : encoded := SignedString tokenTyp (new_claims "s-1" "" ["voice"] RoleSource true) [].

Definition bearer (e : encoded) : request := mkRequest e "" "192.0.2.1:1000" (λ _, None) false.
Definition at_five : io := mkIO (5 * Second) None (5 * Second) (λ st, st) None (5 * Second) None (Some "t-2") [] (5 * Second).

Definition run_call (c : call) (e : encoded) : Handler * response :=
  serve small_tables example_marshal c at_five (bearer e) example_handler.

Lemma example_handler_wf : wf (store_data (store example_handler)).
Proof. exact Access.example_wf. Qed.



Lemma forged_rejected rec c : authorizeRecord service_a rec forged_token (5 * Second) ≠ Ok c.
Proof.
  assert (Hp : ParseHS256 (secret service_a) forged_token = None) by (vm_compute; reflexivity).
  unfold authorizeRecord, VerifyProfile, ParseWithClaims. rewrite Hp. by repeat case_if.
Qed.

Lemma example_able : able example_handler (5 * Second).
Proof. split; [|split]; vm_compute; [reflexivity|reflexivity|congruence]. Qed.

Lemma strangers_learn_nothing_witness :
  run_call (PostSubscribe "s-1" NoContent) forged_token = (example_handler, session_not_found).
Proof.
  refine (strangers_learn_nothing small_tables example_marshal (PostSubscribe "s-1" NoContent) at_five (bearer forged_token)
            example_handler "s-1" [RoleSource] example_handler_wf eq_refl example_able eq_refl eq_refl _).
  intros (rec & c & _ & Ha & _). exact (forged_rejected rec c Ha).
Defined.

Definition example_limits : limits := mkLimits 2 4000 4000.

Lemma example_served : served small_tables example_marshal example_limits example_store.
Proof.
  unfold example_store, opened. cbn [foldl].
  apply (served_op _ _ _ _ (IAccess (AAcquire service_a "s-1" "epoch-1" 0 None (3 * Second)))); [|vm_compute; congruence].
  apply (served_op _ _ _ _ (IAccess (ACreate service_a ["voice"] None (2 * Second) (Some "s-1") (Some "t-1")))); [|vm_compute; congruence].
  apply (served_op _ _ _ _ (IAccess (AOpen example_key example_config None (1 * Second) (Some "inc-1")))); [constructor|exact I].
Qed.

Lemma requests_keep_limits_witness :
  held example_limits (store_data (store (run_call (PostSessions NoContent) owner_token).1)).
Proof.
  refine (proj2 (requests_keep_limits small_tables example_marshal example_limits
                   (store (run_call (PostSessions NoContent) owner_token).1) _ _ _ _)).
  1-3: vm_compute; congruence.
  apply (served_request small_tables example_marshal example_limits example_handler (PostSessions NoContent) at_five (bearer owner_token)).
  - exact example_served.
  - exact example_served.
  - vm_compute. congruence.
  - vm_compute. congruence.
  - vm_compute. congruence.
Defined.

Lemma streams_release_their_place_witness :
  ∃ h' b' res,
    EventStream.sseEvents at_five (bearer owner_token) "s-1" "" true true (Some "c-1")
      [EventStream.Other (EventBus.OPublish (EventBus.mkEvent 9 "nine") (λ _, false)); EventStream.Take true; EventStream.CtxDone]
      example_handler EventBus.newEventBus = (h', Ok (b', res)) ∧ EventBus.reachable b' ∧
    match res with EventStream.Streamed _ false => True | _ => EventBus.HasSubscriber "c-1" b' = false end.
Proof.
  apply (EventStream.streams_release_their_place at_five (bearer owner_token) "s-1" "" true true "c-1"
    [EventStream.Other (EventBus.OPublish (EventBus.mkEvent 9 "nine") (λ _, false)); EventStream.Take true; EventStream.CtxDone]
    example_handler EventBus.newEventBus).
  - constructor.
  - reflexivity.
Defined.

(** The frames of that stream: the snapshot of the Session, then the event. *)
Lemma example_stream :
  match (EventStream.sseEvents at_five (bearer owner_token) "s-1" "" true true (Some "c-1")
      [EventStream.Other (EventBus.OPublish (EventBus.mkEvent 9 "nine") (λ _, false)); EventStream.Take true; EventStream.CtxDone]
      example_handler EventBus.newEventBus).2 with
  | Ok (_, EventStream.Streamed frames returned) => (frames, returned)
  | _ => ([], false)
  end = ([EventStream.StateFrame 2; EventStream.StateFrame 9], true).
Proof. vm_compute. reflexivity. Qed.
End HandlerExample.
