(* ===== verification/AuthorityClient.v ===== *)
(** * AuthorityClient: the Session authority over HTTP

    Translates [internal/notifications/callback/client.go], through which a media
    process reaches the Access service of another process, and composes it with
    the internal interface of that service ([AccessHandler.InternalHandler]) over
    a network that loses requests, loses answers and delivers requests after
    their caller has given up.  The result implements the interface of
    [MediaAuthority.Authority], so what is proved of a media process against that
    interface holds of a process that is managed remotely. *)

From S2P Require Export AccessHandler MediaAuthority.

Module AuthorityClient.
Import Storage Token Access AccessHandler InternalHandler Authority.

Definition maxResponseBodyBytes : Z := 4096.
Definition maxRelayStateBodyBytes : Z := 256 * 1024.
Definition maxRelayWriterBodyBytes : Z := 1024.

(** What becomes of a request.  The context of a handler ends at [c] of the
    storage operations it runs. *)
Inductive delivery :=
| Undelivered
| Late                             (* it may be carried out later *)
| Unanswered (c : option nat)      (* it is carried out; the answer is lost *)
| Answered (c : option nat).

Section Client.
Context `{RecordSizes} `{Jwt}.

(** The service with the secret of its internal interface, the secret the client
    is configured with, and the sizes of the JSON texts that are exchanged. *)
Context (s : Service) (secret clientSecret : list Z)
        (response_bytes : content → Z) (snapshot_bytes : RelayState → Z) (writer_bytes : string → Z → Z).

(** The service of the other process, what the network does with the next
    request, and the requests it still holds. *)
Record remote := mkRemote { base : standalone; net : delivery; inflight : list internal_call }.

#[local] Instance local_authority : Authority standalone := standalone_authority s.

(** The handler at work. *)
Definition carry (c : option nat) (call : internal_call) (b : standalone) : standalone * response :=
  let '(h, r) := serve call clientSecret c (clock b) (mkInternal s (store b) secret) in
  (mkStandalone (InternalHandler.store h) (clock b), r).

(** [exchange] with the answer read: too large, an error status, or a value. *)
Definition read_response (r : response) : result authority_error content :=
  if response_bytes (answer r) >? maxResponseBodyBytes then Err ErrUnavailable
  else if status r =? 404 then Err ErrSessionNotFound
  else if status r =? 409 then Err ErrFenced
  else if negb (status r =? 200) then Err ErrUnavailable
  else Ok (answer r).

Definition exchange (call : internal_call) (a : remote) : remote * result authority_error content :=
  match net a with
  | Undelivered => (a, Err ErrUnavailable)
  | Late => (mkRemote (base a) (net a) (inflight a ++ [call]), Err ErrUnavailable)
  | Unanswered c => (mkRemote (carry c call (base a)).1 (net a) (inflight a), Err ErrUnavailable)
  | Answered c =>
    let '(b, r) := carry c call (base a) in (mkRemote b (net a) (inflight a), read_response r)
  end.

(** [Metadata] *)
Definition ClientMetadata (id : string) (a : remote) : result authority_error AuthorityMetadata :=
  match (exchange (GetAuthority id false) a).2 with
  | Err err => Err err
  | Ok (AuthorityBody md) => if bool_decide (amSessionID md = id) then Ok md else Err ErrUnavailable
  | Ok _ => Err ErrUnavailable
  end.

(** [AcquireRelayWriter]; the handler refuses a body that is too large. *)
Definition writer_body (epoch : string) (expected : Z) : body (string * Z) :=
  if writer_bytes epoch expected >? maxRelayWriterBodyBytes then Undecodable else Decoded (epoch, expected) true.
Definition ClientAcquire (id epoch : string) (expected : Z) (a : remote) : remote * result authority_error Z :=
  let '(a, r) := exchange (PostRelayWriter id (writer_body epoch expected)) a in
  (a, match r with
      | Err err => Err err
      | Ok (WriterTermBody term) => if term =? 0 then Err ErrUnavailable else Ok term
      | Ok _ => Err ErrUnavailable
      end).

(** [PushAccessState] *)
Definition snapshot_body (sn : RelayState) : body RelayState :=
  if snapshot_bytes sn >? maxRelayStateBodyBytes then Undecodable else Decoded sn true.
Definition PushAccessState (id : string) (sn : RelayState) (a : remote) : remote * result authority_error unit :=
  let '(a, r) := exchange (PutRelayState id (snapshot_body sn)) a in
  (a, match r with Ok _ => Ok tt | Err err => Err err end).

(** What other parties do: time passes, the network changes its mind, the service
    serves others, or a late request is carried out. *)
Definition disturbed (id epoch : string) (a a' : remote) : Prop :=
  clock (base a) <= clock (base a') ∧
  (inflight a' = inflight a ∧ others id epoch (base a) (base a') ∨
   ∃ l1 call l2 c, inflight a = l1 ++ call :: l2 ∧ inflight a' = l1 ++ l2 ∧
     base a' = (carry c call (mkStandalone (store (base a)) (clock (base a')))).1).

#[export] Instance remote_authority : Authority remote := {
  metadata _ id a := ClientMetadata id a;
  acquire _ id epoch x a := ClientAcquire id epoch x a;
  push_state _ id sn a := PushAccessState id sn a;
  consistent a := consistent (base a);
  placement id a := placement id (base a);
  pending id epoch a x := PostRelayWriter id (Decoded (epoch, x) true) ∈ inflight a;
  others id epoch a a' := disturbed id epoch a a' }.

(** ** The handlers are the operations of the service in its own process *)

Definition problem (err : authority_error) : response :=
  match err with
  | ErrSessionNotFound => session_not_found
  | ErrFenced => writeProblem 409 "relay_writer_fenced"
  | ErrUnavailable => authority_unavailable
  end.

Definition authentic : bool := authenticate clientSecret (mkInternal s NewStore secret).
Definition denied : response := writeProblem 401 "internal_authentication_failed".

Lemma carry_denied c call b : authentic = false → carry c call b = (b, denied).
Proof. unfold authentic, carry, serve, authenticate. cbn. intros ->. by destruct b. Qed.

Lemma serve_authentic c call b :
  authentic = true →
  serve call clientSecret c (clock b) (mkInternal s (store b) secret) =
  match call with
  | PostRelayWriter id x => acquireRelayWriter id x c (clock b) (mkInternal s (store b) secret)
  | PutRelayState id x => replaceRelayState id x c (clock b) (mkInternal s (store b) secret)
  | GetAuthority id head => getAuthorityState id head c (clock b) (mkInternal s (store b) secret)
  end.
Proof. unfold authentic, serve, authenticate. cbn. by intros ->. Qed.

Lemma carry_acquire c id epoch x b :
  authentic = true →
  carry c (PostRelayWriter id (Decoded (epoch, x) true)) b =
    ((acquire c id epoch x b).1,
     match (acquire c id epoch x b).2 with Ok t => writeJSON 200 (WriterTermBody t) | Err err => problem err end).
Proof.
  intros Ha. unfold carry. rewrite serve_authentic by done. unfold acquireRelayWriter. cbn.
  pose proof (avoids_acquire s id epoch x c (clock b) (store b)) as Hn.
  destruct (AcquireRelayWriter s id epoch x c (clock b) (store b)) as [st [t|err]]; [done|]. by destruct err.
Qed.

Lemma carry_undecodable c id b : (carry c (PostRelayWriter id Undecodable) b).1 = b ∧ (carry c (PutRelayState id Undecodable) b).1 = b.
Proof.
  destruct authentic eqn:Ha; [|by rewrite !carry_denied]. unfold carry. rewrite !serve_authentic by done. cbn. by destruct b.
Qed.

Lemma apply_avoids_no_rows id sn c now st : (ApplyRelayStateContext s id sn c now st).2 ≠ Err ErrNoRows.
Proof.
  unfold ApplyRelayStateContext. do 2 (case_if; [done|]). apply update_avoids; [by left|].
  unfold apply_tx, PutSession. apply avoids_bind; [|apply _].
  intros e t t'. unfold on_no_rows. by destruct (active s id e t) as [t3 [r|[]]].
Qed.

Lemma carry_push c id sn b :
  authentic = true →
  (carry c (PutRelayState id (Decoded sn true)) b).1 = (push_state c id sn b).1 ∧
  match (push_state c id sn b).2 with
  | Ok _ => status (carry c (PutRelayState id (Decoded sn true)) b).2 = 200
  | Err ErrUnavailable => status (carry c (PutRelayState id (Decoded sn true)) b).2 ∈ [400; 503]
  | Err err => (carry c (PutRelayState id (Decoded sn true)) b).2 = problem err
  end.
Proof.
  intros Ha. unfold carry. rewrite serve_authentic by done. unfold replaceRelayState. cbn.
  pose proof (apply_avoids_no_rows id sn c (clock b) (store b)) as Hn.
  destruct (ApplyRelayStateContext s id sn c (clock b) (store b)) as [st [[state ch]|err]]; [done|].
  destruct err; cbn; split; try done; set_solver.
Qed.

Lemma carry_metadata c id b :
  authentic = true →
  carry c (GetAuthority id false) b =
    (b, match metadata c id b with
        | Ok md => writeJSON 200 (AuthorityBody md)
        | Err ErrSessionNotFound => session_not_found
        | Err _ => authority_unavailable
        end).
Proof.
  intros Ha. unfold carry. rewrite serve_authentic by done. unfold getAuthorityState. cbn.
  pose proof (metadata_avoids_not_exist s id c (clock b) (store b)) as Hn.
  destruct b as [st now]. cbn in *. by destruct (Metadata s id c now st) as [md|[]].
Qed.

(** A request for metadata changes nothing. *)
Lemma carry_read c id head b : (carry c (GetAuthority id head) b).1 = b.
Proof.
  destruct authentic eqn:Ha; [|by rewrite carry_denied]. unfold carry. rewrite serve_authentic by done. by destruct b.
Qed.

(** ** The promises of the interface *)

(** What a request that is carried out does to the placements. *)
Lemma carry_consistent c call (b : standalone) : consistent b → consistent (carry c call b).1.
Proof.
  intros Hb. destruct authentic eqn:Ha; [|by rewrite carry_denied].
  destruct call as [id [| |[epoch x] [|]]|id [| |sn [|]]|id head]; try by (unfold carry; rewrite serve_authentic by done; by destruct b).
  - rewrite carry_acquire by done. by apply acquire_consistent.
  - rewrite (proj1 (carry_push _ _ _ _ Ha)). by apply push_consistent.
Qed.

Lemma acquire_takes c id epoch x (b : standalone) :
  consistent b →
  placement id (acquire c id epoch x b).1 = placement id b ∨ takes epoch x (placement id b) (placement id (acquire c id epoch x b).1).
Proof.
  intros Hb. destruct (acquire c id epoch x b) as [b' [t|err]] eqn:Hu; cbn [fst].
  - destruct (acquire_placed _ _ _ _ _ _ _ Hb Hu) as (t0 & e0 & Hp & [(_ & _ & _ & Hp')|(-> & -> & Hp')]); [left; congruence|].
    right. exists e0. by rewrite Hp, Hp'.
  - by eapply acquire_fails.
Qed.

Lemma carry_places c call id epoch (b : standalone) :
  consistent b →
  advances epoch (placement id b) (placement id (carry c call b).1) ∨
  ∃ x, call = PostRelayWriter id (Decoded (epoch, x) true) ∧ takes epoch x (placement id b) (placement id (carry c call b).1).
Proof.
  intros Hb. destruct authentic eqn:Ha; [|rewrite carry_denied by done; left; apply advances_refl].
  destruct call as [k [| |[epoch' x] [|]]|k [| |sn [|]]|k head];
    try by (left; unfold carry; rewrite serve_authentic by done; destruct b; apply advances_refl).
  - rewrite carry_acquire by done. cbn [fst]. destruct (decide (k = id)) as [->|Hk].
    2: { left. rewrite acquire_elsewhere by done. apply advances_refl. }
    destruct (acquire_takes c id epoch' x b Hb) as [-> |Ht]; [left; apply advances_refl|].
    destruct (decide (epoch' = epoch)) as [->|He]; [eauto|]. left. destruct Ht as (e & Hp & Hp').
    intros t1 e1 E. rewrite Hp' in E. injection E as <- <-. exists x, e. split; [done|]. right. done.
  - left. rewrite (proj1 (carry_push _ _ _ _ Ha)). by apply push_keeps.
Qed.

Lemma exchange_base call a :
  base (exchange call a).1 = base a ∨ ∃ c, base (exchange call a).1 = (carry c call (base a)).1.
Proof. unfold exchange. destruct (net a) as [| |c|c]; cbn; eauto. destruct (carry c call (base a)) eqn:E. right. exists c. by rewrite E. Qed.

Lemma exchange_inflight call a x : x ∈ inflight (exchange call a).1 → x ∈ inflight a ∨ x = call.
Proof.
  unfold exchange. destruct (net a) as [| |c|c]; cbn; [by left|set_solver|by left|]. destruct (carry c call (base a)). by left.
Qed.

Lemma exchange_ok call a v :
  (exchange call a).2 = Ok v →
  ∃ c, base (exchange call a).1 = (carry c call (base a)).1 ∧ status (carry c call (base a)).2 = 200 ∧
       answer (carry c call (base a)).2 = v.
Proof.
  unfold exchange. destruct (net a) as [| |c|c]; try done. intros Hx. exists c. destruct (carry c call (base a)) as [b r].
  cbn in *. revert Hx. unfold read_response. repeat case_if; try done. intros [= <-]. bool_hyps. done.
Qed.

Lemma exchange_gone call a : (exchange call a).2 = Err ErrSessionNotFound → ∃ c, status (carry c call (base a)).2 = 404.
Proof.
  unfold exchange. destruct (net a) as [| |c|c]; try done. intros Hx. exists c. destruct (carry c call (base a)) as [b r].
  cbn in *. revert Hx. unfold read_response. repeat case_if; try done. bool_hyps. done.
Qed.

Lemma acquire_exchange id epoch x a a' r :
  ClientAcquire id epoch x a = (a', r) →
  a' = (exchange (PostRelayWriter id (writer_body epoch x)) a).1 ∧
  match r with
  | Ok t => (exchange (PostRelayWriter id (writer_body epoch x)) a).2 = Ok (WriterTermBody t)
  | Err err => err = ErrSessionNotFound → (exchange (PostRelayWriter id (writer_body epoch x)) a).2 = Err ErrSessionNotFound
  end.
Proof.
  unfold ClientAcquire. destruct (exchange _ a) as [a1 [v|err]]; cbn; intros [= <- <-]; (split; [done|]); [|by intros ->].
  destruct v; try done. by case_if.
Qed.

Lemma carry_writer c id epoch x b (r : Z) :
  (r = 200 ∨ r = 404) → status (carry c (PostRelayWriter id (writer_body epoch x)) b).2 = r →
  carry c (PostRelayWriter id (writer_body epoch x)) b =
    ((acquire c id epoch x b).1,
     match (acquire c id epoch x b).2 with Ok t => writeJSON 200 (WriterTermBody t) | Err err => problem err end).
Proof.
  intros Hr. destruct authentic eqn:Ha; [|rewrite carry_denied by done; by destruct Hr as [-> | ->]].
  unfold writer_body. case_if; [|intros _; by apply carry_acquire].
  unfold carry. rewrite serve_authentic by done. cbn. by destruct Hr as [-> | ->].
Qed.

Lemma carry_writer_places c id epoch x b :
  consistent b →
  placement id (carry c (PostRelayWriter id (writer_body epoch x)) b).1 = placement id b ∨
  takes epoch x (placement id b) (placement id (carry c (PostRelayWriter id (writer_body epoch x)) b).1).
Proof.
  intros Hb. unfold writer_body. case_if; [left; by rewrite (proj1 (carry_undecodable _ _ _))|].
  destruct authentic eqn:Ha; [|left; by rewrite carry_denied]. rewrite carry_acquire by done. by apply acquire_takes.
Qed.

Lemma carry_writer_elsewhere c id id' body b :
  consistent b → id' ≠ id → placement id' (carry c (PostRelayWriter id body) b).1 = placement id' b.
Proof.
  intros Hb Hne. destruct authentic eqn:Ha; [|by rewrite carry_denied].
  destruct body as [| |[epoch x] [|]]; try by (unfold carry; rewrite serve_authentic by done; by destruct b).
  rewrite carry_acquire by done. by apply acquire_elsewhere.
Qed.

Lemma push_exchange id sn a a' r :
  PushAccessState id sn a = (a', r) →
  a' = (exchange (PutRelayState id (snapshot_body sn)) a).1 ∧
  match r with
  | Ok _ => ∃ v, (exchange (PutRelayState id (snapshot_body sn)) a).2 = Ok v
  | Err err => err = ErrSessionNotFound → (exchange (PutRelayState id (snapshot_body sn)) a).2 = Err ErrSessionNotFound
  end.
Proof. unfold PushAccessState. destruct (exchange _ a) as [a1 [v|err]]; cbn; intros [= <- <-]; eauto. split; [done|]. by intros ->. Qed.

Lemma carry_snapshot c id sn b (r : Z) :
  (r = 200 ∨ r = 404) → status (carry c (PutRelayState id (snapshot_body sn)) b).2 = r →
  (carry c (PutRelayState id (snapshot_body sn)) b).1 = (push_state c id sn b).1 ∧
  match (push_state c id sn b).2 with
  | Ok _ => status (carry c (PutRelayState id (snapshot_body sn)) b).2 = 200
  | Err ErrUnavailable => status (carry c (PutRelayState id (snapshot_body sn)) b).2 ∈ [400; 503]
  | Err err => (carry c (PutRelayState id (snapshot_body sn)) b).2 = problem err
  end.
Proof.
  intros Hr. destruct authentic eqn:Ha; [|rewrite carry_denied by done; by destruct Hr as [-> | ->]].
  unfold snapshot_body. case_if; [|intros _; by apply carry_push].
  unfold carry. rewrite serve_authentic by done. cbn. by destruct Hr as [-> | ->].
Qed.

(** A placement that is there at a later time was there before. *)
Lemma clock_placement id (b : standalone) now p :
  clock b <= now → placement id (mkStandalone (store b) now) = Some p → placement id b = Some p.
Proof.
  intros Hle Hp. apply fmap_Some in Hp as (r & Hr & ->). cbn [store clock] in Hr.
  apply live_some in Hr as (Hr & Hx & Hn). cbn [placement local_authority standalone_authority]. unfold live. rewrite Hr.
  unfold After. rewrite bool_decide_true, (proj2 (Z.ltb_lt _ _)) by (done || lia). done.
Qed.

(** Requests that are carried out late. *)
Lemma late_places c call id epoch (b : standalone) now :
  consistent b → clock b <= now →
  advances epoch (placement id b) (placement id (carry c call (mkStandalone (store b) now)).1) ∨
  ∃ x, call = PostRelayWriter id (Decoded (epoch, x) true) ∧
    takes epoch x (placement id b) (placement id (carry c call (mkStandalone (store b) now)).1).
Proof.
  intros Hb Hle. destruct (carry_places c call id epoch (mkStandalone (store b) now) Hb) as [Ha|(x & -> & e & Hp & Hp')].
  - left. intros t' e' Hp'. destruct (Ha t' e' Hp') as (t & e & Hp & Hm). exists t, e. split; [by eapply clock_placement|done].
  - right. exists x. split; [done|]. exists e. split; [by eapply clock_placement|done].
Qed.

Lemma remote_metadata_ok :
  ∀ c id (a : remote) md, consistent a → metadata c id a = Ok md →
    amSessionID md = id ∧ placement id a = Some (amMediaTerm md, amRelayEpoch md).
Proof.
  intros c0 id a md Hc. cbn. unfold ClientMetadata. destruct (exchange _ a) as [a1 [v|]] eqn:Hx; cbn [snd]; [|done].
  destruct (exchange_ok (GetAuthority id false) a v) as (c & _ & Hs & Hv); [by rewrite Hx|].
  destruct authentic eqn:Ha; [|by rewrite carry_denied in Hs].
  rewrite carry_metadata in Hs, Hv by done. cbn [snd] in Hs, Hv.
  destruct (metadata c id (base a)) as [md'|[]] eqn:Hm; cbn in Hs, Hv; try done. subst v. case_if; [|done]. intros [= ->].
  by apply (metadata_ok c id (base a) md Hc Hm).
Qed.

Lemma remote_metadata_gone :
  ∀ c id (a : remote), consistent a → metadata c id a = Err ErrSessionNotFound → placement id a = None.
Proof.
  intros c0 id a Hc. cbn. unfold ClientMetadata. destruct (exchange _ a) as [a1 [v|err]] eqn:Hx; cbn [snd].
  { destruct v; try done. by case_if. }
  intros [= ->]. destruct (exchange_gone (GetAuthority id false) a) as (c & Hs); [by rewrite Hx|].
  destruct authentic eqn:Ha; [|by rewrite carry_denied in Hs]. rewrite carry_metadata in Hs by done. cbn [snd] in Hs.
  destruct (metadata c id (base a)) as [md'|[]] eqn:Hm; try done. by apply (metadata_gone c id (base a) Hc Hm).
Qed.

Lemma remote_acquire_placed :
  ∀ c id epoch x (a a' : remote) t, consistent a → acquire c id epoch x a = (a', Ok t) →
    ∃ t0 e0, placement id a = Some (t0, e0) ∧
      ((e0 = epoch ∧ t0 ≠ 0 ∧ t = t0 ∧ placement id a' = Some (t0, e0)) ∨
       (x = t0 ∧ t = u64 (t0 + 1) ∧ placement id a' = Some (t, epoch))).
Proof.
  intros c0 id epoch x a a' t Hc Hu. apply acquire_exchange in Hu as [-> Hx]. apply exchange_ok in Hx as (c & Hb & Hs & Hv).
  cbn [placement remote_authority]. rewrite Hb.
  pose proof (carry_writer c id epoch x (base a) 200 (or_introl eq_refl) Hs) as Hq. rewrite Hq in Hs, Hv |- *. clear Hq. cbn [fst snd] in *.
  destruct (acquire c id epoch x (base a)) as [b' [t'|[]]] eqn:Hq; cbn in Hs, Hv; try done. injection Hv as ->.
  by apply (acquire_placed c id epoch x (base a) b' t Hc Hq).
Qed.

Lemma remote_acquire_gone :
  ∀ c id epoch x (a a' : remote), consistent a →
    acquire c id epoch x a = (a', Err ErrSessionNotFound) → placement id a = None.
Proof.
  intros c0 id epoch x a a' Hc Hu. apply acquire_exchange in Hu as [_ Hx]. destruct (exchange_gone _ _ (Hx eq_refl)) as (c & Hs).
  pose proof (carry_writer c id epoch x (base a) 404 (or_intror eq_refl) Hs) as Hq. rewrite Hq in Hs. clear Hq. cbn [snd] in Hs.
  destruct (acquire c id epoch x (base a)) as [b' [t'|[]]] eqn:Hq; cbn in Hs; try done. by apply (acquire_gone c id epoch x (base a) b' Hc Hq).
Qed.

Lemma remote_push_placed :
  ∀ c id sn (a a' : remote), consistent a → push_state c id sn a = (a', Ok tt) →
    placement id a = Some (rsWriterTerm sn, rsRelayEpoch sn).
Proof.
  intros c0 id sn a a' Hc Hp. destruct (push_exchange _ _ _ _ _ Hp) as [_ (v & Hx)]. apply exchange_ok in Hx as (c & _ & Hs & _).
  pose proof (carry_snapshot c id sn (base a) 200 (or_introl eq_refl) Hs) as [_ Hq].
  destruct (push_state c id sn (base a)) as [b' [[]|[]]] eqn:Hu; cbn in Hq; try (rewrite Hq in Hs; by cbn in Hs).
  + by apply (push_placed c id sn (base a) b' Hc Hu).
  + rewrite Hs in Hq. set_solver.
Qed.

Lemma remote_push_gone :
  ∀ c id sn (a a' : remote), consistent a →
    push_state c id sn a = (a', Err ErrSessionNotFound) → placement id a = None.
Proof.
  intros c0 id sn a a' Hc Hp. destruct (push_exchange _ _ _ _ _ Hp) as [_ Hx]. destruct (exchange_gone _ _ (Hx eq_refl)) as (c & Hs).
  pose proof (carry_snapshot c id sn (base a) 404 (or_intror eq_refl) Hs) as [_ Hq].
  destruct (push_state c id sn (base a)) as [b' [[]|[]]] eqn:Hu; cbn in Hq; try (rewrite Hq in Hs; by cbn in Hs).
  + by apply (push_gone c id sn (base a) b' Hc Hu).
  + rewrite Hs in Hq. set_solver.
Qed.

#[export] Instance remote_laws : AuthorityLaws remote.
Proof.
  split.
  - exact remote_metadata_ok.
  - exact remote_metadata_gone.
  - intros c0 id epoch x a Hc. cbn. destruct (ClientAcquire id epoch x a) as [a' r] eqn:Hu. apply acquire_exchange in Hu as [-> _]. cbn [fst].
    destruct (exchange_base (PostRelayWriter id (writer_body epoch x)) a) as [-> |(c & ->)]; [done|by apply carry_consistent].
  - exact remote_acquire_placed.
  - intros c0 id epoch x a a' err Hc Hu. apply acquire_exchange in Hu as [-> _]. cbn [placement remote_authority].
    destruct (exchange_base (PostRelayWriter id (writer_body epoch x)) a) as [-> |(c & ->)]; [by left|by apply carry_writer_places].
  - exact remote_acquire_gone.
  - intros c0 id id' epoch x a Hc Hne. cbn. destruct (ClientAcquire id epoch x a) as [a' r] eqn:Hu. apply acquire_exchange in Hu as [-> _]. cbn [fst].
    destruct (exchange_base (PostRelayWriter id (writer_body epoch x)) a) as [-> |(c & ->)]; [done|by apply carry_writer_elsewhere].
  - intros c0 id epoch x a id' y. cbn. destruct (ClientAcquire id epoch x a) as [a' r] eqn:Hu. apply acquire_exchange in Hu as [-> _]. cbn [fst].
    intros [Hi|Hi]%exchange_inflight; [by left|]. right. revert Hi. unfold writer_body. case_if; [done|]. by intros [= -> ->].
  - intros c0 id sn a Hc. cbn. unfold PushAccessState. destruct (exchange _ a) as [a1 r] eqn:Hx. cbn [fst].
    destruct (exchange_base (PutRelayState id (snapshot_body sn)) a) as [E|(c & E)]; rewrite Hx in E; cbn in E; rewrite E; [done|by apply carry_consistent].
  - intros c0 id id' sn epoch a Hc. cbn. unfold PushAccessState. destruct (exchange _ a) as [a1 r] eqn:Hx. cbn [fst].
    destruct (exchange_base (PutRelayState id (snapshot_body sn)) a) as [E|(c & E)]; rewrite Hx in E; cbn in E; rewrite E; [apply advances_refl|].
    by destruct (carry_places c (PutRelayState id (snapshot_body sn)) id' epoch (base a) Hc) as [|(x & ? & _)].
  - exact remote_push_placed.
  - exact remote_push_gone.
  - intros c0 id sn a id' epoch y. cbn. unfold PushAccessState. destruct (exchange _ a) as [a1 r] eqn:Hx. cbn [fst].
    intros Hi. destruct (exchange_inflight (PutRelayState id (snapshot_body sn)) a (PostRelayWriter id' (Decoded (epoch, y) true))); [by rewrite Hx|done|done].
  - intros id epoch a a' Hc [Hle [[_ Ho]|(l1 & call & l2 & c & _ & _ & Hb)]].
    + by apply (others_consistent id epoch (base a) (base a') Hc Ho).
    + cbn. rewrite Hb. by apply carry_consistent.
  - intros id epoch a a' y [Hle [[E _]|(l1 & call & l2 & c & E1 & E2 & _)]]; cbn; [by rewrite E|rewrite E1, E2; set_solver].
  - intros id epoch a a' Hc [Hle [[_ Ho]|(l1 & call & l2 & c & Hi & _ & Hb)]].
    + left. by destruct (others_advance id epoch (base a) (base a') Hc Ho) as [|(x & [] & _)].
    + cbn. rewrite Hb. destruct (late_places c call id epoch (base a) (clock (base a')) Hc Hle) as [|(x & -> & Ht)]; [by left|].
      right. exists x. split; [rewrite Hi; set_solver|done].
Qed.

(** C5: an authority on the other side of a network keeps the promises of the
    interface that the media process relies on: answers that arrive are those of
    the service, an acquisition takes effect only as the service grants it, also
    when the caller sees it fail or has given up on it, a Session reported absent
    is absent, and no request moves the placement of another Session. *)
Theorem remote_authority_refines : AuthorityLaws remote.
Proof. exact remote_laws. Qed.

(** The answers of the service, as the client distinguishes them. *)
Definition softened {B} (r : result authority_error B) : result authority_error B :=
  match r with Err ErrFenced => Err ErrUnavailable | _ => r end.

Lemma exchange_answered c call a :
  net a = Answered c → (∀ v, response_bytes v <= maxResponseBodyBytes) →
  exchange call a =
    (mkRemote (carry c call (base a)).1 (net a) (inflight a),
     let r := (carry c call (base a)).2 in
     if status r =? 404 then Err ErrSessionNotFound else if status r =? 409 then Err ErrFenced
     else if status r =? 200 then Ok (answer r) else Err ErrUnavailable).
Proof.
  intros Hn Hv. unfold exchange, read_response. rewrite Hn. destruct (carry c call (base a)) as [b r]. cbn.
  specialize (Hv (answer r)). case_if; [bool_hyps; lia|]. repeat case_if; done.
Qed.

(** Over a network that answers, a remote authority is the local one.  With
    the same secret on both sides and bodies within the limits, the client's three
    operations return what the service returns to a caller in its own process and
    have the same effect; only a service that lost its own lease is reported as
    unavailable when it is asked about a Session. *)
Theorem answered_as_local c a :
  consistent a → net a = Answered c → clientSecret = secret → 32 <= len secret →
  (∀ v, response_bytes v <= maxResponseBodyBytes) →
  (∀ c' id, metadata c' id a = softened (metadata c id (base a))) ∧
  (∀ c' id epoch x, writer_bytes epoch x <= maxRelayWriterBodyBytes → (acquire c id epoch x (base a)).2 ≠ Ok 0 →
     acquire c' id epoch x a =
       (mkRemote (acquire c id epoch x (base a)).1 (net a) (inflight a), (acquire c id epoch x (base a)).2)) ∧
  (∀ c' id sn, snapshot_bytes sn <= maxRelayStateBodyBytes →
     push_state c' id sn a =
       (mkRemote (push_state c id sn (base a)).1 (net a) (inflight a), (push_state c id sn (base a)).2)).
Proof.
  intros Hc Hn Hs Hl Hv.
  assert (Ha : authentic = true) by (unfold authentic; by apply authenticate_iff).
  split_and!.
  - intros c' id. change (ClientMetadata id a = softened (metadata c id (base a))). unfold ClientMetadata.
    rewrite (exchange_answered c) by done. rewrite carry_metadata by done. cbn [snd].
    destruct (metadata c id (base a)) as [md|[]] eqn:Hm; cbn; try done.
    destruct (metadata_ok c id (base a) md Hc Hm) as [-> _]. by rewrite bool_decide_true.
  - intros c' id epoch x Hw Hz. change (ClientAcquire id epoch x a = (mkRemote (acquire c id epoch x (base a)).1 (net a) (inflight a),
      (acquire c id epoch x (base a)).2)). unfold ClientAcquire, writer_body. case_if; [bool_hyps; lia|].
    rewrite (exchange_answered c) by done. rewrite carry_acquire by done. cbn [fst snd].
    destruct (acquire c id epoch x (base a)) as [b [t|[]]]; cbn in *; try done. case_if; [|done]. bool_hyps. subst. done.
  - intros c' id sn Hb. change (PushAccessState id sn a = (mkRemote (push_state c id sn (base a)).1 (net a) (inflight a),
      (push_state c id sn (base a)).2)). unfold PushAccessState, snapshot_body. case_if; [bool_hyps; lia|].
    rewrite (exchange_answered c) by done. destruct (carry_push c id sn (base a) Ha) as [-> Hp].
    destruct (push_state c id sn (base a)) as [b [[]|[]]]; cbn [fst snd] in *; try (rewrite Hp; done).
    cbv zeta. apply elem_of_cons in Hp as [-> |Hp]; [done|]. by apply list_elem_of_singleton in Hp as ->.
Qed.

End Client.
End AuthorityClient.

(** ** Examples *)

Module ClientExample.
Import Storage Token Access AccessHandler InternalHandler Authority AuthorityClient.
#[local] Existing Instances Storage.small_records Token.clear_jwt Token.clear_jwt_laws.

Definition shared : list Z := replicate 32 7.
#[local] Instance managed : Authority remote :=
  remote_authority service_a shared shared (λ _, 100) (λ _, 100) (λ _ _, 100).
#[local] Instance local_service : Authority standalone := standalone_authority service_a.

Definition over (d : delivery) : remote := mkRemote (mkStandalone Placement.created (3 * Second)) d [].

Lemma answered_as_local_witness :
  metadata None "s-1" (over (Answered None)) = softened (metadata None "s-1" (base (over (Answered None)))) ∧
  (acquire None "s-1" "epoch-1" 0 (over (Answered None))).2 = Ok 1.
Proof.
  destruct (answered_as_local service_a shared shared (λ _, 100) (λ _, 100) (λ _ _, 100) None (over (Answered None))) as (Hm & Ha & _).
  - exact Placement.created_wf.
  - reflexivity.
  - reflexivity.
  - vm_compute. discriminate.
  - intros v. vm_compute. discriminate.
  - split; [exact (Hm None "s-1")|]. change (managed) with (remote_authority service_a shared shared (λ _, 100) (λ _, 100) (λ _ _, 100)).
    rewrite (Ha None "s-1" "epoch-1" 0); [vm_compute; reflexivity|vm_compute; discriminate|vm_compute; discriminate].
Defined.

(** The answer to an acquisition is lost, and the retry finds it granted; an
    acquisition that arrives late, after another process took the Session, has no
    effect. *)
Definition lost_answer : remote := (acquire None "s-1" "epoch-1" 0 (over (Unanswered None))).1.
Definition held_back : remote := (acquire None "s-1" "epoch-1" 0 (over Late)).1.
Definition taken_over : standalone := (acquire None "s-1" "epoch-2" 0 (base held_back)).1.

Example retry_after_lost_answer :
  (acquire None "s-1" "epoch-1" 0 (over (Unanswered None))).2 = Err ErrUnavailable ∧
  placement "s-1" lost_answer = Some (1, "epoch-1") ∧
  (acquire None "s-1" "epoch-1" 0 (mkRemote (base lost_answer) (Answered None) [])).2 = Ok 1.
Proof. vm_compute. done. Qed.

Example late_acquisition_refused :
  inflight held_back = [PostRelayWriter "s-1" (Decoded ("epoch-1", 0) true)] ∧
  placement "s-1" taken_over = Some (1, "epoch-2") ∧
  placement "s-1" (carry service_a shared shared None (PostRelayWriter "s-1" (Decoded ("epoch-1", 0) true)) taken_over).1 =
    Some (1, "epoch-2").
Proof. vm_compute. done. Qed.
End ClientExample.
