(* ===== verification/SignalPeer.v ===== *)
(** * SignalPeer: admission and lifecycle of media connections

    Translates the admission part of [internal/server/peer_join.go] and
    [internal/server/whip.go], the message loop of [internal/server/signal_peer.go]
    and the lifecycle of a listener, from the reserved place to [cleanup], whose
    goroutines interleave.  WebRTC connections belong to Pion: their results are
    inputs. *)

From S2P Require Export MediaAuthority ServerPolicy Downlink.

(** ** Admission *)

Module MediaAdmission.
Import Storage Token Access Authority Capabilities PublishBuses.

Inductive ErrorCode :=
| ErrCodeAlreadyJoined | ErrCodeBadToken | ErrCodeSessionNotActive | ErrCodeAuthorityUnavailable | ErrCodeRoleMismatch
| ErrCodeBadRequest | ErrCodeRoomLimitExceeded.

Inductive MessageType := TypePublish | TypeSubscribe.

Section Admission.
Context `{RecordSizes} `{UnverifiedJwt} {A : Type} {impl : Authority A}.

(** The fields of [signaling.ClientMessage] that a join reads. *)
Record join_message := mkJoin {
  jType : MessageType; jToken : encoded; jMessage : ClientMessage; jSessionID : string; jRoomID : string }.

Definition message_session (m : join_message) : string :=
  if bool_decide (jSessionID m = "") then jRoomID m else jSessionID m.

(** What an admitted peer is given. *)
Record admitted := mkAdmitted {
  aSession : string; aRole : Role; aBus : string; aPlan : option publishBusPlan }.

Definition expected_role (t : MessageType) : Role := match t with TypePublish => RoleSource | TypeSubscribe => RoleSubscriber end.

(** The bus a peer is for: the plan of a publisher, or the bus of a listener. *)
Definition join_bus (m : join_message) (claims : Claims) : result ErrorCode (string * option publishBusPlan) :=
  match jType m with
  | TypePublish =>
    match newPublishBusPlan (jMessage m) claims with
    | Err _ => Err ErrCodeBadRequest
    | Ok plan => Ok (primaryBusID plan, Some plan)
    end
  | TypeSubscribe =>
    if match mPublishBuses (jMessage m) with Some (_ :: _) => true | _ => false end then Err ErrCodeBadRequest
    else
      let bus := mBusID (jMessage m) in
      let bus := if bool_decide (bus = "") then cBusID claims else bus in
      let bus := if bool_decide (bus = "") then "mix"%string else bus in
      if negb (AllowsBus claims bus) then Err ErrCodeBadRequest else Ok (bus, None)
  end.

(** [handleJoin] up to the peer connection.  [joined] is [peer.pc != nil],
    [active] the answer of [requireActiveControlSession] and [accepted] that of
    [GetOrCreateWithinLimit]. *)
Definition handleJoin (secret : list Z) (c : option nat) (now : Z) (a : A) (joined : bool)
    (active : string → result authority_error unit) (accepted : string → bool) (m : join_message)
  : result ErrorCode admitted :=
  if joined then Err ErrCodeAlreadyJoined
  else
    match verifyCapability secret c (jToken m) (Some (expected_role (jType m))) now a with
    | Err ErrNotFound => Err ErrCodeSessionNotActive
    | Err errAuthorityUnavailable => Err ErrCodeAuthorityUnavailable
    | Err ErrInvalidCapability => Err ErrCodeBadToken
    | Ok claims =>
      if negb (bool_decide (cRole claims = expected_role (jType m))) then Err ErrCodeRoleMismatch
      else
        let sessionID := if bool_decide (cSessionID claims = "") then message_session m else cSessionID claims in
        match join_bus m claims with
        | Err e => Err e
        | Ok (bus, plan) =>
          match active sessionID with
          | Err ErrSessionNotFound => Err ErrCodeSessionNotActive
          | Err _ => Err ErrCodeAuthorityUnavailable
          | Ok _ =>
            if negb (accepted sessionID) then Err ErrCodeRoomLimitExceeded
            else Ok (mkAdmitted sessionID (cRole claims) bus plan)
          end
        end
    end.

(** WHIP and WHEP *)

Inductive whipDirection := whipIngress | whepEgress.

(** [policy]: the role and the default bus. *)
Definition policy (d : whipDirection) : Role * string :=
  match d with whipIngress => (RoleSource, "voice"%string) | whepEgress => (RoleSubscriber, "mix"%string) end.

Record whip_request := mkWhip {
  wPost : bool; wSdp : bool;               (* the method and the content type *)
  wToken : encoded; wPath : string;        (* the Session of the URL *)
  wBus : string;                           (* the bus parameter *)
  wOffer : bool }.                         (* the offer was read and is not empty *)

(** The bus of the request: parameter, then token, then default. *)
Definition whip_bus (d : whipDirection) (r : whip_request) (claims : Claims) : string :=
  let bus :=
    if bool_decide (wBus r = "")
    then if bool_decide (cRole claims = RoleSubscriber) then cBusID claims
         else match cBusIDs claims with [b] => b | _ => ""%string end
    else wBus r in
  if bool_decide (bus = "") then (policy d).2 else bus.

(** [handleWHIPRequest] up to the peer connection: a status, or what the
    connection is given.  [acquired] is the handshake gate's answer. *)
Definition handleWHIPRequest (secret : list Z) (c : option nat) (now : Z) (a : A) (acquired : bool)
    (active : string → result authority_error unit) (accepted : string → bool) (d : whipDirection) (r : whip_request)
  : result Z admitted :=
  if negb acquired then Err 503
  else if negb (wPost r) then Err 405
  else if negb (wSdp r) then Err 415
  else
    match verifyCapability secret c (wToken r) (Some (policy d).1) now a with
    | Err ErrNotFound => Err 404
    | Err errAuthorityUnavailable => Err 503
    | Err ErrInvalidCapability => Err 401
    | Ok claims =>
      let sessionID := if bool_decide (wPath r = "") then cSessionID claims else wPath r in
      if negb (bool_decide (sessionID = cSessionID claims)) then Err 403
      else
        let bus := whip_bus d r claims in
        if negb (AllowsBus claims bus) then Err 403
        else
          match active sessionID with
          | Err ErrSessionNotFound => Err 404
          | Err _ => Err 503
          | Ok _ =>
            if negb (wOffer r) then Err 400
            else if negb (accepted sessionID) then Err 429
            else Ok (mkAdmitted sessionID (cRole claims) bus None)
          end
    end.

(** Opus over a WebSocket *)

Record audio_request := mkAudio {
  uBearer : bool;                          (* the header has the prefix "Bearer " *)
  uToken : encoded; uPath : string; uBus : string;
  uProtocol : bool }.                      (* pks-opus-v1 is among the subprotocols *)

(** [audioIngress] up to the upgrade.  [shutdown] is the flag as it is read first
    and under the lock; [created] is the answer of [GetOrCreateBus], [random] that
    of the generator. *)
Definition audioIngress (secret : list Z) (c : option nat) (now : Z) (a : A) (shutdown : bool * bool) (acquired : bool)
    (active : string → result authority_error unit) (accepted created : string → bool) (random : bool) (r : audio_request)
  : result Z admitted :=
  if shutdown.1 then Err 503
  else if negb acquired then Err 503
  else if negb (uBearer r) then Err 401
  else
    match verifyCapability secret c (uToken r) (Some RoleSource) now a with
    | Err ErrNotFound => Err 404
    | Err errAuthorityUnavailable => Err 503
    | Err ErrInvalidCapability => Err 401
    | Ok claims =>
      if negb (bool_decide (uPath r = cSessionID claims)) || negb (validPublishIdentifier (uBus r)) ||
         negb (AllowsBus claims (uBus r)) then Err 403
      else if negb (uProtocol r) then Err 400
      else
        match active (uPath r) with
        | Err _ => Err 503
        | Ok _ =>
          if shutdown.2 then Err 503
          else if negb (accepted (uPath r)) then Err 429
          else if negb (created (uPath r)) then Err 429
          else if negb random then Err 500
          else Ok (mkAdmitted (uPath r) (cRole claims) (uBus r) None)
        end
    end.

(** [monitorAudioIngress]: what it waits for.  At a tick the capability is
    verified again, the source may have ended meanwhile, and the placement is
    checked. *)
Inductive monitor_event :=
| SourceDone | SessionDone | Expired | Tick (verified ended placed : bool).

(** Whether the monitor has returned, and the close code it gave. *)
Fixpoint monitorAudioIngress (events : list monitor_event) : bool * option Z :=
  match events with
  | [] => (false, None)
  | SourceDone :: _ => (true, None)
  | SessionDone :: _ => (true, Some 1001)
  | Expired :: _ => (true, Some 1008)
  | Tick verified ended placed :: events' =>
    if negb verified then (true, Some 1008)
    else if ended then (true, None)
    else if negb placed then (true, Some 1008)
    else monitorAudioIngress events'
  end.

(** *** Only what the capability grants *)

(** The claims grant everything the peer was given. *)
Definition granted (claims : Claims) (x : admitted) : Prop :=
  aSession x = cSessionID claims ∧ aRole x = cRole claims ∧
  match aPlan x with
  | None => AllowsBus claims (aBus x) = true
  | Some plan => ∀ stream bus, binds plan stream bus → AllowsBus claims bus = true
  end.

Lemma verified_session {secret c e role now} {a : A} {claims} :
  verifyCapability secret c e role now a = Ok claims →
  cSessionID claims ≠ "" ∧ (∀ r, role = Some r → cRole claims = r).
Proof.
  unfold verifyCapability. case_if; [done|]. destruct (ParseUnverified e) as [u|]; [|done]. case_if; [done|].
  destruct (metadata c _ a) as [md|[]]; try done. unfold VerifyCapability.
  destruct (VerifyProfile secret e (amIssuer md) now) as [cl|] eqn:Hv; [|done].
  apply verified in Hv as (_ & _ & _ & _ & _ & _ & Hid & _).
  assert (Hne : cSessionID cl ≠ ""). { intros E'. rewrite E' in Hid. by vm_compute in Hid. }
  destruct role as [r|]; repeat case_if; intros [= <-]; split; try done; intros r' [= <-].
  by match goal with E : bool_decide _ = true |- _ => apply bool_decide_eq_true in E end.
Qed.

(** C18: media connections get what their capability grants and nothing else.  By
    the signaling channel and by WHIP or WHEP alike, a peer is admitted only with
    a capability that verifies for an active Session: it joins that very Session,
    whatever Session its message or URL names, in the role of the capability; a
    listener hears a bus of the capability, and every stream a publisher can
    attach goes to a bus of the capability.  The same holds of a source that
    connects by the audio WebSocket, and never while the process shuts down. *)
Theorem admission_is_granted secret c now (a : A) :
  (∀ joined active accepted m x,
     handleJoin secret c now a joined active accepted m = Ok x →
     ∃ claims, verifyCapability secret c (jToken m) (Some (expected_role (jType m))) now a = Ok claims ∧
       granted claims x ∧ aRole x = expected_role (jType m) ∧ active (aSession x) = Ok tt ∧ accepted (aSession x) = true) ∧
  (∀ acquired active accepted d r x,
     handleWHIPRequest secret c now a acquired active accepted d r = Ok x →
     ∃ claims, verifyCapability secret c (wToken r) (Some (policy d).1) now a = Ok claims ∧
       granted claims x ∧ aRole x = (policy d).1 ∧ active (aSession x) = Ok tt ∧ accepted (aSession x) = true) ∧
  (∀ shutdown acquired active accepted created random r x,
     audioIngress secret c now a shutdown acquired active accepted created random r = Ok x →
     shutdown = (false, false) ∧
     ∃ claims, verifyCapability secret c (uToken r) (Some RoleSource) now a = Ok claims ∧
       granted claims x ∧ aRole x = RoleSource ∧ active (aSession x) = Ok tt ∧ accepted (aSession x) = true).
Proof.
  split_and!.
  - intros joined active accepted m x. unfold handleJoin. destruct joined; [done|].
    destruct (verifyCapability _ _ _ _ _ _) as [claims|[]] eqn:Hv; try done.
    destruct (verified_session Hv) as [Hne Hrole]. rewrite (Hrole _ eq_refl), bool_decide_true by done. cbn [negb].
    rewrite (bool_decide_false (cSessionID claims = "")) by done. cbv zeta.
    destruct (join_bus m claims) as [[bus plan]|] eqn:Hb; [|done].
    destruct (active _) as [[]|[]] eqn:Ha; try done. destruct (accepted _) eqn:Hacc; [|done]. intros [= <-].
    exists claims. split_and!; try done. split_and!; [done|by rewrite (Hrole _ eq_refl)|].
    unfold join_bus in Hb. cbn [aPlan aBus]. destruct (jType m).
    + destruct (newPublishBusPlan _ _) as [p|] eqn:Hp; [|done]. injection Hb as <- <-. apply (new_plan_ok _ _ _ Hp).
    + case_if; [done|]. cbv zeta in Hb. case_if; [done|]. injection Hb as <- <-. by apply negb_false_iff.
  - intros acquired active accepted d r x. unfold handleWHIPRequest. repeat (case_if; [done|]).
    destruct (verifyCapability _ _ _ _ _ _) as [claims|[]] eqn:Hv; try done. cbv zeta.
    destruct (verified_session Hv) as [Hne Hrole]. set (sid := if bool_decide (wPath r = "") then _ else _).
    destruct (bool_decide (sid = cSessionID claims)) eqn:Hs; [|done]. cbn [negb]. apply bool_decide_eq_true in Hs.
    destruct (AllowsBus claims (whip_bus d r claims)) eqn:Hal; [|done]. cbn [negb].
    destruct (active _) as [[]|[]] eqn:Ha; try done. destruct (wOffer r); [|done]. cbn [negb].
    destruct (accepted _) eqn:Hacc; [|done]. intros [= <-]. exists claims. split_and!; try done. by apply (Hrole _ eq_refl).
  - intros [sd1 sd2] acquired active accepted created random r x. unfold audioIngress. cbn [fst snd]. repeat (case_if; [done|]).
    destruct (verifyCapability _ _ _ _ _ _) as [claims|[]] eqn:Hv; try done. destruct (verified_session Hv) as [Hne Hrole].
    destruct (negb _ || _ || _) eqn:Hsc; [done|]. rewrite !orb_false_iff, !negb_false_iff, bool_decide_eq_true in Hsc. destruct Hsc as [[Hp _] Hal].
    case_if; [done|]. destruct (active _) as [[]|] eqn:Ha; [|done]. repeat (case_if; [done|]).
    intros [= <-]. bool_hyps. split; [by destruct sd1, sd2|]. exists claims. split_and!; try done; by apply (Hrole _ eq_refl).
Qed.

(** What ends a source. *)
Definition ends (e : monitor_event) : bool :=
  match e with Tick verified ended placed => negb (verified && negb ended && placed) | _ => true end.

(** An audio source does not outlive its authority.  The monitor of a source
    returns exactly when something has happened that ends it, the Session, the
    capability's lifetime, a verification or a placement check that fails; and
    unless the source had already ended by itself it is closed with the code for
    that reason: going away for the Session, policy violation otherwise. *)
Theorem monitor_ends_source events :
  ((monitorAudioIngress events).1 = true ↔ Exists (λ e, ends e = true) events) ∧
  (∀ events1 e events2, events = events1 ++ e :: events2 → Forall (λ e, ends e = false) events1 → ends e = true →
     (monitorAudioIngress events).2 =
       match e with
       | SessionDone => Some 1001
       | SourceDone => None
       | Tick true true _ => None
       | _ => Some 1008
       end).
Proof.
  split.
  - induction events as [|e events IH]; cbn; [by rewrite Exists_nil|]. rewrite Exists_cons, <- IH.
    destruct e as [| | |[] [] []]; cbn; split; try tauto; intros [?|?]; congruence.
  - intros events1. revert events. induction events1 as [|e1 events1 IH]; intros events e events2 ->.
    + intros _. by destruct e as [| | |[] [] []].
    + intros [Hf1 Hf2]%Forall_cons He. cbn. destruct e1 as [| | |[] [] []]; try done. by eapply IH.
Qed.
End Admission.
End MediaAdmission.

(** ** The lifecycle of a listener *)

Module PeerLifecycle.
Import Session.Session.

(** Where the signaling goroutine of a peer is: in [handleJoin], serving
    messages, or in [cleanup]. *)
Inductive loop_pc :=
| Join                      (* before [TryReserveSlot] *)
| MarkSlot                  (* before [slotReserved.Store(true)] *)
| Serving
| Refused                   (* the Session was full *)
| SwapSlot                  (* [cleanup], before [slotReserved.Swap(false)] *)
| ReleaseReserved
| LoadRegistered
| Remove (registered : bool)
| CountDown
| Gone.

(** Where a goroutine that runs the connection callback for [Connected] is. *)
Inductive callback_pc := KSwap | KRelease | KRegister | KAdd | KUndo | KStop | KCount | KExit.

Record peer := mkPeer {
  peer_id : string;
  peer_bus : string;
  leg : nat;                      (* its downlink *)
  slotReserved : bool;
  subscriptionRegistered : bool;
  loop : loop_pc;
  callbacks : list callback_pc }.

#[export] Instance loop_pc_eq_dec : EqDecision loop_pc.
Proof. solve_decision. Defined.
#[export] Instance callback_pc_eq_dec : EqDecision callback_pc.
Proof. solve_decision. Defined.

Definition set_loop (pc : loop_pc) (p : peer) : peer :=
  mkPeer (peer_id p) (peer_bus p) (leg p) (slotReserved p) (subscriptionRegistered p) pc (callbacks p).
Definition set_slot (b : bool) (p : peer) : peer :=
  mkPeer (peer_id p) (peer_bus p) (leg p) b (subscriptionRegistered p) (loop p) (callbacks p).
Definition set_registered (b : bool) (p : peer) : peer :=
  mkPeer (peer_id p) (peer_bus p) (leg p) (slotReserved p) b (loop p) (callbacks p).
Definition set_callbacks (l : list callback_pc) (p : peer) : peer :=
  mkPeer (peer_id p) (peer_bus p) (leg p) (slotReserved p) (subscriptionRegistered p) (loop p) l.

Section Lifecycle.
Context {S : Type} `{BusSubscription S} (maxSubscribersPerRoom : Z).

(** One Session, its peers and the listener count of the server. *)
Record world := mkWorld { room : RelaySession (S := S); peers : list peer; listeners : Z }.

(** One step of the signaling goroutine. *)
Definition loop_step (r : RelaySession (S := S)) (n : Z) (p : peer) : RelaySession (S := S) * Z * peer :=
  match loop p with
  | Join =>
    let '(r, ok) := TryReserveSlot maxSubscribersPerRoom r in (r, n, set_loop (if ok then MarkSlot else Refused) p)
  | MarkSlot => (r, n, set_loop Serving (set_slot true p))
  | Serving | Refused | Gone => (r, n, p)
  | SwapSlot => (r, n, set_loop (if slotReserved p then ReleaseReserved else LoadRegistered) (set_slot false p))
  | ReleaseReserved => (ReleaseSlot r, n, set_loop LoadRegistered p)
  | LoadRegistered => (r, n, set_loop (Remove (subscriptionRegistered p)) p)
  | Remove registered => (RemoveSubscription (peer_id p) r, n, set_loop (if registered then CountDown else Gone) p)
  | CountDown => (r, i64 (n - 1), set_loop Gone p)
  end.

(** One step of a callback: its new place, and what it does. *)
Definition callback_step (k : callback_pc) (r : RelaySession (S := S)) (n : Z) (p : peer)
  : RelaySession (S := S) * Z * peer * callback_pc :=
  match k with
  | KSwap => (r, n, set_slot false p, if slotReserved p then KRelease else KExit)
  | KRelease => (ReleaseSlot r, n, p, KRegister)
  | KRegister => (r, n, set_registered true p, if subscriptionRegistered p then KExit else KAdd)
  | KAdd =>
    match AddBusSubscription (peer_id p) (peer_bus p) (leg p) r with
    | (r, Ok _) => (r, n, p, KCount)
    | (r, Err _) => (r, n, p, KUndo)
    end
  | KUndo => (r, n, set_registered false p, KStop)
  | KStop => (set_objects (alter StopForwarding (leg p) (objects r)) r, n, p, KExit)
  | KCount => (r, i64 (n + 1), p, KExit)
  | KExit => (r, n, p, KExit)
  end.

Inductive action :=
| Loop (i : nat)
| Leave (i : nat)                (* the socket closes, [cleanup] begins *)
| Connected (i : nat)            (* Pion starts the callback on a goroutine *)
| Callback (i k : nat).

Definition put_peer (i : nat) (x : RelaySession (S := S) * Z * peer) (w : world) : world :=
  mkWorld x.1.1 (<[i := x.2]> (peers w)) x.1.2.

Definition step (w : world) (a : action) : world :=
  match a with
  | Loop i => match peers w !! i with Some p => put_peer i (loop_step (room w) (listeners w) p) w | None => w end
  | Leave i =>
    match peers w !! i with
    | Some p => if decide (loop p = Serving ∨ loop p = Refused)
                then put_peer i (room w, listeners w, set_loop SwapSlot p) w else w
    | None => w
    end
  | Connected i =>
    match peers w !! i with
    | Some p => if decide (loop p = Serving)
                then put_peer i (room w, listeners w, set_callbacks (callbacks p ++ [KSwap]) p) w else w
    | None => w
    end
  | Callback i k =>
    match peers w !! i with
    | Some p =>
      match callbacks p !! k with
      | Some pc =>
        let '(r, n, p', pc') := callback_step pc (room w) (listeners w) p in
        put_peer i (r, n, set_callbacks (<[k := pc']> (callbacks p')) p') w
      | None => w
      end
    | None => w
    end
  end.

Definition run (w : world) (schedule : list action) : world := foldl step w schedule.

(** A peer that has connected its socket. *)
Definition new_peer (id bus : string) (l : nat) : peer := mkPeer id bus l false false Join [].

(** *** Places are given back exactly once *)

(** The reservation a peer holds, in its flag or in a goroutine's hands. *)
Definition at_release (k : callback_pc) : Z := match k with KRelease => 1 | _ => 0 end.
Definition loop_holds (pc : loop_pc) : Z := match pc with MarkSlot | ReleaseReserved => 1 | _ => 0 end.
Fixpoint releasing (l : list callback_pc) : Z := match l with [] => 0 | k :: l' => at_release k + releasing l' end.
Definition holds (p : peer) : Z :=
  (if slotReserved p then 1 else 0) + loop_holds (loop p) + releasing (callbacks p).
Fixpoint held (l : list peer) : Z := match l with [] => 0 | p :: l' => holds p + held l' end.

Lemma releasing_app l l' : releasing (l ++ l') = releasing l + releasing l'.
Proof. induction l as [|k l IH]; cbn; [lia|]. rewrite IH. lia. Qed.

Lemma releasing_insert l i k k' :
  l !! i = Some k → releasing (<[i := k']> l) = releasing l - at_release k + at_release k'.
Proof.
  revert i. induction l as [|x l IH]; intros [|i]; simpl; try done.
  - intros [= ->]. lia.
  - intros Hk. rewrite (IH _ Hk). lia.
Qed.

Lemma held_insert l i p p' : l !! i = Some p → held (<[i := p']> l) = held l - holds p + holds p'.
Proof.
  revert i. induction l as [|x l IH]; intros [|i]; simpl; try done.
  - intros [= ->]. lia.
  - intros Hp. rewrite (IH _ Hp). lia.
Qed.

Lemma releasing_nonneg l : 0 <= releasing l.
Proof. induction l as [|k l IH]; cbn; [lia|]. destruct k; cbn; lia. Qed.

(** Nothing but the reservation counter is compared: it is the number of
    reservations held, and a peer holds at most one. *)
Definition early (pc : loop_pc) : bool := match pc with Join | MarkSlot => true | _ => false end.
Definition late (pc : loop_pc) : bool :=
  match pc with ReleaseReserved | LoadRegistered | Remove _ | CountDown | Gone => true | _ => false end.
Definition slot_ok (p : peer) : Prop :=
  holds p <= 1 ∧ (early (loop p) = true → slotReserved p = false ∧ callbacks p = []) ∧
  (late (loop p) = true → slotReserved p = false).
Definition slots_ok (w : world) : Prop :=
  pendingSlots (stats (room w)) = i32 (held (peers w)) ∧ Forall slot_ok (peers w).

Lemma i32_add x y : i32 (i32 x + y) = i32 (x + y).
Proof.
  unfold i32. f_equal.
  replace ((x + 2147483648) mod 4294967296 - 2147483648 + y + 2147483648) with ((x + 2147483648) mod 4294967296 + y) by lia.
  rewrite Zplus_mod_idemp_l. f_equal. lia.
Qed.

Lemma slots_put w i p x :
  slots_ok w → peers w !! i = Some p →
  pendingSlots (stats x.1.1) = i32 (pendingSlots (stats (room w)) - holds p + holds x.2) → slot_ok x.2 →
  slots_ok (put_peer i x w).
Proof.
  intros [Hp Hf] Hi Hx Hs. split; cbn.
  - rewrite Hx, Hp, (held_insert _ _ _ _ Hi). rewrite <- !Z.add_sub_swap. unfold Z.sub. rewrite <- Z.add_assoc, i32_add.
    f_equal. lia.
  - by apply Forall_insert.
Qed.

Lemma reserve_pending m (r : RelaySession (S := S)) :
  pendingSlots (stats (TryReserveSlot m r).1) =
    i32 (pendingSlots (stats r) + if (TryReserveSlot m r).2 then 1 else 0) ∨
  (TryReserveSlot m r).2 = false ∧ (TryReserveSlot m r).1 = r.
Proof.
  unfold TryReserveSlot, reserve_attempt. case_if; [by left|]. case_if; [by right|].
  rewrite Z.eqb_refl. by left.
Qed.

Lemma add_pending id bus l (r : RelaySession (S := S)) : pendingSlots (stats (AddBusSubscription id bus l r).1) = pendingSlots (stats r).
Proof. unfold AddBusSubscription. by case_if. Qed.

Lemma remove_pending id (r : RelaySession (S := S)) : pendingSlots (stats (RemoveSubscription id r)) = pendingSlots (stats r).
Proof. unfold RemoveSubscription. by case_if. Qed.

(** The counter is an [int32]. *)
Definition pending_typed (w : world) : Prop := i32 (pendingSlots (stats (room w))) = pendingSlots (stats (room w)).

Lemma slots_typed w : slots_ok w → pending_typed w.
Proof.
  intros [Hp _]. unfold pending_typed. rewrite Hp. pose proof (i32_add (held (peers w)) 0) as Hi. by rewrite !Z.add_0_r in Hi.
Qed.

(** A step that does not touch the counter keeps the books when the peer holds
    what it held. *)
Lemma slots_same w i p x :
  slots_ok w → peers w !! i = Some p → pendingSlots (stats x.1.1) = pendingSlots (stats (room w)) →
  holds x.2 = holds p → slot_ok x.2 → slots_ok (put_peer i x w).
Proof.
  intros Hw Hi Hx Hh Hs. apply (slots_put w i p); [done|done| |done].
  pose proof (slots_typed w Hw) as Ht. unfold pending_typed in Ht. rewrite Hx, Hh, <- Ht at 1. f_equal. lia.
Qed.

(** The conditions of [slot_ok] for a peer whose fields are known. *)
Ltac books := unfold slot_ok, holds; cbn in *; split_and!; try done; try lia; intros; try lia; try tauto; try discriminate.

Lemma loop_slots w i p : slots_ok w → peers w !! i = Some p → slots_ok (put_peer i (loop_step (room w) (listeners w) p) w).
Proof.
  intros Hw Hi. assert (Hp : slot_ok p) by (destruct Hw as [_ Hf]; by eapply Forall_lookup_1).
  destruct p as [pid pbus l sr reg pc cbs]. destruct Hp as (H1 & H2 & H3). unfold holds in H1. cbn in H1, H2, H3.
  pose proof (releasing_nonneg cbs) as Hn. unfold loop_step. cbn [loop].
  destruct pc; cbn [set_loop set_slot slotReserved subscriptionRegistered peer_id loop callbacks] in *.
  - destruct (H2 eq_refl) as [-> ->].
    destruct (reserve_pending maxSubscribersPerRoom (room w)) as [Hr|[Hf Hr]];
      destruct (TryReserveSlot maxSubscribersPerRoom (room w)) as [r ok]; cbn [fst snd] in *.
    + eapply slots_put; [done|done|cbn; rewrite Hr; f_equal; unfold holds; destruct ok; cbn; lia|]. destruct ok; books.
    + subst. eapply slots_same; [done..|]. books.
  - destruct (H2 eq_refl) as [-> ->]. eapply slots_same; [done..|]. books.
  - eapply slots_same; [done..|]. books.
  - eapply slots_same; [done..|]. books.
  - eapply slots_same; [done|done|done|unfold holds; destruct sr; cbn; lia|]. destruct sr; books.
  - eapply slots_put; [done|done|cbn; f_equal; unfold holds; cbn; destruct sr; lia|]. books.
  - eapply slots_same; [done..|]. books.
  - eapply slots_same; [done|done|apply remove_pending|by destruct registered|]. destruct registered; books.
  - eapply slots_same; [done..|]. books.
  - eapply slots_same; [done..|]. books.
Qed.

Lemma callback_slots w i k p pc :
  slots_ok w → peers w !! i = Some p → callbacks p !! k = Some pc →
  slots_ok (let '(r, n, p', pc') := callback_step pc (room w) (listeners w) p in
            put_peer i (r, n, set_callbacks (<[k := pc']> (callbacks p')) p') w).
Proof.
  intros Hw Hi Hk. assert (Hp : slot_ok p) by (destruct Hw as [_ Hf]; by eapply Forall_lookup_1).
  destruct p as [pid pbus l sr reg lp cbs]. destruct Hp as (H1 & H2 & H3). unfold holds in H1. cbn in H1, H2, H3, Hk.
  assert (Hbad : early lp = true → False) by (intros E; destruct (H2 E) as [_ ->]; done).
  assert (Hl : 0 <= loop_holds lp) by (destruct lp; cbn; lia).
  pose proof (λ k', releasing_insert cbs k pc k' Hk) as Hins.
  destruct pc; cbn [callback_step set_slot set_registered set_callbacks slotReserved subscriptionRegistered peer_id peer_bus leg callbacks loop].
  2: { eapply slots_put; [done|done|cbn; f_equal; unfold holds; cbn; rewrite Hins; cbn; lia|].
       unfold slot_ok, holds; cbn; rewrite Hins; books. }
  3: { pose proof (add_pending pid pbus l (room w)) as Ha.
       destruct (AddBusSubscription pid pbus l (room w)) as [r [u|e]]; cbn in Ha;
         (eapply slots_same; [done|done|exact Ha|unfold holds; cbn; rewrite Hins; cbn; lia|]);
         unfold slot_ok, holds; cbn; rewrite Hins; books. }
  all: eapply slots_same; [done|done|done|unfold holds; cbn; rewrite Hins; destruct sr, reg; cbn; lia|];
    unfold slot_ok, holds; cbn; rewrite Hins; destruct sr, reg; books.
Qed.

Lemma step_slots w a : slots_ok w → slots_ok (step w a).
Proof.
  intros Hw. destruct a as [i|i|i|i k]; cbn [step]; destruct (peers w !! i) as [p|] eqn:Hi; try done.
  - by apply loop_slots.
  - case_decide as Hl; [|done]. assert (Hp : slot_ok p) by (destruct Hw as [_ Hf]; by eapply Forall_lookup_1).
    destruct p as [pid pbus l sr reg lp cbs]. destruct Hp as (H1 & H2 & H3). unfold holds in H1. cbn in H1, H2, H3, Hl.
    eapply slots_same; [done|done|done|unfold holds; cbn; by destruct Hl as [-> | ->]|]. destruct Hl as [-> | ->]; books.
  - case_decide as Hl; [|done]. assert (Hp : slot_ok p) by (destruct Hw as [_ Hf]; by eapply Forall_lookup_1).
    destruct p as [pid pbus l sr reg lp cbs]. destruct Hp as (H1 & H2 & H3). unfold holds in H1. cbn in H1, H2, H3, Hl. subst lp.
    eapply slots_same; [done|done|done|unfold holds; cbn; rewrite releasing_app; cbn; lia|].
    unfold slot_ok, holds; cbn; rewrite releasing_app; books.
  - destruct (callbacks p !! k) as [pc|] eqn:Hk; [|done]. by apply callback_slots.
Qed.

(** A peer with nothing left to run. *)
Definition finished (p : peer) : Prop := loop p = Gone ∧ Forall (λ k, k = KExit) (callbacks p).

Definition start (r : RelaySession (S := S)) (ids : list (string * string * nat)) : world :=
  mkWorld r ((λ x, new_peer x.1.1 x.1.2 x.2) <$> ids) 0.

Lemma run_slots r ids schedule :
  pendingSlots (stats r) = 0 → slots_ok (run (start r ids) schedule).
Proof.
  intros Hr. unfold run. induction schedule as [|a schedule IH] using rev_ind.
  - split; cbn; [|apply Forall_fmap, Forall_true; intros x; books].
    assert (held ((λ x : string * string * nat, new_peer x.1.1 x.1.2 x.2) <$> ids) = 0) as Hh.
    { induction ids as [|x ids IH]; cbn; [done|]. rewrite IH. done. }
    by rewrite Hh.
  - rewrite foldl_snoc. by apply step_slots.
Qed.

Lemma finished_holds p : slot_ok p → finished p → holds p = 0.
Proof.
  intros (_ & _ & H3) [Hl Hc]. rewrite Hl in H3. unfold holds. rewrite (H3 eq_refl), Hl. cbn.
  clear Hl H3. induction Hc as [|k l -> _ IH]; [done|]. cbn in *. lia.
Qed.

(** C24: reserved places are given back exactly once.  However the signaling
    goroutines of any number of listeners, their connection callbacks, repeated
    ones included, and their cleanups interleave, the Session's count of reserved
    places is the number of listeners that hold one, a listener never holds more
    than one, and once they have all gone no place is left reserved. *)
Theorem places_returned_once r ids schedule :
  pendingSlots (stats r) = 0 →
  let w := run (start r ids) schedule in
  pendingSlots (stats (room w)) = i32 (held (peers w)) ∧
  Forall (λ p, 0 <= holds p <= 1) (peers w) ∧
  (Forall finished (peers w) → pendingSlots (stats (room w)) = 0).
Proof.
  intros Hr w. destruct (run_slots r ids schedule Hr) as [Hp Hf]. fold w in Hp, Hf. clearbody w. split_and!; [done| |].
  - eapply Forall_impl; [exact Hf|]. intros p (H1 & _). split; [|done]. unfold holds.
    pose proof (releasing_nonneg (callbacks p)). destruct (slotReserved p), (loop p); cbn; lia.
  - intros Hall. rewrite Hp. clear Hp.
    assert (held (peers w) = 0) as ->; [|done].
    induction (peers w) as [|p l IH]; [done|]. apply Forall_cons in Hf as [Hf1 Hf2]. apply Forall_cons in Hall as [Ha1 Ha2].
    cbn. rewrite (finished_holds p), IH by done. done.
Qed.

(** *** Departures *)

(** [cleanup] has begun; it has removed the subscription. *)
Definition leaving (pc : loop_pc) : bool := match pc with Join | MarkSlot | Serving | Refused => false | _ => true end.
Definition removed (pc : loop_pc) : bool := match pc with CountDown | Gone => true | _ => false end.

(** A schedule in which a peer leaves only when its callbacks have returned. *)
Definition orderly_step (w : world) (a : action) : Prop :=
  match a with Leave i => ∀ p, peers w !! i = Some p → Forall (λ k, k = KExit) (callbacks p) | _ => True end.
Fixpoint orderly (w : world) (schedule : list action) : Prop :=
  match schedule with [] => True | a :: rest => orderly_step w a ∧ orderly (step w a) rest end.

Definition unlisted (id : string) (r : RelaySession (S := S)) : Prop := Forall (λ e, subscriberID e ≠ id) (subscriptions r).
Definition departs (r : RelaySession (S := S)) (p : peer) : Prop :=
  (leaving (loop p) = true → Forall (λ k, k = KExit) (callbacks p)) ∧ (removed (loop p) = true → unlisted (peer_id p) r).
Definition departures_ok (w : world) : Prop :=
  NoDup (peer_id <$> peers w) ∧ ∀ i p, peers w !! i = Some p → departs (room w) p.

Lemma departs_put w i p x :
  departures_ok w → peers w !! i = Some p → peer_id x.2 = peer_id p →
  Forall (λ e, e ∈ subscriptions (room w) ∨ subscriberID e = peer_id p) (subscriptions x.1.1) →
  departs x.1.1 x.2 → departures_ok (put_peer i x w).
Proof.
  intros [Hnd Hd] Hi Hid Hs Hx. split; cbn.
  - rewrite list_fmap_insert, Hid, list_insert_id; [done|]. by rewrite list_lookup_fmap, Hi.
  - intros j q [(<- & <- & _)|[Hne Hq]]%list_lookup_insert_Some; [done|]. destruct (Hd j q Hq) as [H1 H2].
    split; [done|]. intros Hr. specialize (H2 Hr). unfold unlisted in *. rewrite Forall_forall in *. intros e He.
    destruct (Hs e He) as [Hin|Heq]; [by apply H2|]. rewrite Heq. intros Hsame. apply Hne.
    apply (NoDup_lookup (peer_id <$> peers w) i j (peer_id p) Hnd); rewrite list_lookup_fmap; [by rewrite Hi|by rewrite Hq; cbn; congruence].
Qed.

Lemma departs_same w i p p' n r :
  departures_ok w → peers w !! i = Some p → subscriptions r = subscriptions (room w) → peer_id p' = peer_id p →
  (leaving (loop p') = true → leaving (loop p) = true ∧ callbacks p' = callbacks p ∨ Forall (λ k, k = KExit) (callbacks p')) →
  (removed (loop p') = true → removed (loop p) = true) → departures_ok (put_peer i (r, n, p') w).
Proof.
  intros Hw Hi Hr Hid Hl Hrm. destruct Hw as [Hnd Hd]. destruct (Hd i p Hi) as [D1 D2].
  eapply (departs_put w i p); [by split|done|done| |].
  - cbn. rewrite Hr. apply Forall_forall. by left.
  - split; cbn.
    + intros L. destruct (Hl L) as [[L' ->]|]; [by apply D1|done].
    + intros R. unfold unlisted. rewrite Hr, Hid. by apply D2, Hrm.
Qed.

Lemma reserve_subscriptions m (r : RelaySession (S := S)) : subscriptions (TryReserveSlot m r).1 = subscriptions r.
Proof. unfold TryReserveSlot, reserve_attempt. by repeat case_if. Qed.

Lemma departs_loop w i p : departures_ok w → peers w !! i = Some p → departures_ok (put_peer i (loop_step (room w) (listeners w) p) w).
Proof.
  intros Hw Hi. pose proof Hw as [_ Hd]. destruct (Hd i p Hi) as [D1 D2]. unfold loop_step. destruct (loop p) eqn:Hl.
  - pose proof (reserve_subscriptions maxSubscribersPerRoom (room w)) as Hs. destruct (TryReserveSlot _ _) as [r ok].
    eapply departs_same; [done|done|done|done|by destruct ok|by destruct ok].
  - by eapply departs_same.
  - eapply departs_same; try done; rewrite Hl; done.
  - eapply departs_same; try done; rewrite Hl; done.
  - eapply departs_same; try done; rewrite ?Hl; destruct (slotReserved p); cbn; auto.
  - eapply departs_same; try done; rewrite ?Hl; cbn; auto.
  - eapply departs_same; try done; rewrite ?Hl; cbn; auto.
  - destruct (RemoveSubscription_frame (peer_id p) (room w)) as (Hs & _).
    eapply (departs_put w i p); [done|done|done| |]; cbn.
    + rewrite Hs. apply Forall_forall. intros e [_ He]%list_elem_of_filter. by left.
    + split; [intros _; by apply D1|]. intros _. unfold unlisted. cbn. rewrite Hs. apply Forall_forall.
      by intros e [He _]%list_elem_of_filter.
  - eapply departs_same; try done; rewrite ?Hl; cbn; auto.
  - eapply departs_same; try done; rewrite Hl; auto.
Qed.

Lemma callback_frame pc r n p r' n' p' pc' :
  callback_step pc r n p = (r', n', p', pc') →
  peer_id p' = peer_id p ∧ loop p' = loop p ∧
  Forall (λ e, e ∈ subscriptions r ∨ subscriberID e = peer_id p) (subscriptions r').
Proof.
  assert (Hsame : Forall (λ e, e ∈ subscriptions r ∨ subscriberID e = peer_id p) (subscriptions r)) by (apply Forall_forall; auto).
  destruct pc; cbn; try by intros [= <- <- <- <-].
  unfold AddBusSubscription. case_if; intros [= <- <- <- <-]; [done|]. split_and!; [done|done|]. cbn.
  apply Forall_app. split; [done|]. constructor; [by right|constructor].
Qed.

Lemma departs_callback w i k p pc :
  departures_ok w → peers w !! i = Some p → callbacks p !! k = Some pc →
  departures_ok (let '(r, n, p', pc') := callback_step pc (room w) (listeners w) p in
                 put_peer i (r, n, set_callbacks (<[k := pc']> (callbacks p')) p') w).
Proof.
  intros Hw Hi Hk. pose proof Hw as [_ Hd]. destruct (Hd i p Hi) as [D1 D2].
  destruct (leaving (loop p)) eqn:Hl.
  - pose proof (Forall_lookup_1 _ _ _ _ (D1 eq_refl) Hk) as ->. cbn. rewrite list_insert_id by done.
    eapply departs_same; [done|done|done|done|cbn; by auto|done].
  - assert (Hrm : removed (loop p) = false) by (destruct (loop p); done).
    destruct (callback_step pc (room w) (listeners w) p) as [[[r n] p'] pc'] eqn:Hc.
    apply callback_frame in Hc as (Hid & Hlp & Hs).
    eapply (departs_put w i p); [done|done|done|done|]. split; cbn; rewrite Hlp; congruence.
Qed.

Lemma departs_step w a : departures_ok w → orderly_step w a → departures_ok (step w a).
Proof.
  intros Hw Ho. destruct a as [i|i|i|i k]; cbn [step]; destruct (peers w !! i) as [p|] eqn:Hi; try done.
  - by apply departs_loop.
  - case_decide; [|done]. eapply departs_same; [done|done|done|done|intros _; right; by apply (Ho p)|done].
  - case_decide as Hl; [|done]. eapply departs_same; [done|done|done|done|cbn; by rewrite Hl|cbn; by rewrite Hl].
  - destruct (callbacks p !! k) as [pc|] eqn:Hk; [|done]. by apply departs_callback.
Qed.

(** A listener that leaves in order leaves nothing behind.  When the connection
    callbacks of every listener have returned before its cleanup begins, then
    whatever else interleaves, the Session no longer lists a listener that has
    gone. *)
Theorem orderly_departure r ids schedule p :
  NoDup (ids.*1.*1) → orderly (start r ids) schedule →
  p ∈ peers (run (start r ids) schedule) → loop p = Gone →
  Forall (λ e, subscriberID e ≠ peer_id p) (subscriptions (room (run (start r ids) schedule))).
Proof.
  intros Hnd Ho Hp Hg.
  assert (Hrun : ∀ w, departures_ok w → orderly w schedule → departures_ok (run w schedule)).
  { clear. induction schedule as [|a schedule IH]; intros w Hw Ho; [done|]. destruct Ho as [Ho1 Ho2].
    cbn [run foldl]. apply (IH (step w a)); [by apply departs_step|done]. }
  destruct (Hrun (start r ids)) as [_ Hd].
  - split; cbn.
    + rewrite <- list_fmap_compose. rewrite <- list_fmap_compose in Hnd. exact Hnd.
    + intros i q Hq. apply list_lookup_fmap_Some in Hq as (x & -> & _). done.
  - done.
  - apply list_elem_of_lookup in Hp as [i Hi]. apply (Hd i p Hi). by rewrite Hg.
Qed.

(** A listener connects while its socket closes: the callback has registered the
    listener when [cleanup] looks, and adds the subscription after [cleanup] has
    removed what was there. *)
Definition racing : list action :=
  [Loop 0; Loop 0; Connected 0; Callback 0 0; Callback 0 0; Callback 0 0;
   Leave 0; Loop 0; Loop 0; Loop 0; Loop 0;
   Callback 0 0; Callback 0 0]%nat.

(** The run of a single peer. *)
Definition solo (r : RelaySession (S := S)) (n : Z) (p : peer) : world := mkWorld r [p] n.

Lemma solo_loop r n p : step (solo r n p) (Loop 0) = let '(r', n', p') := loop_step r n p in solo r' n' p'.
Proof. unfold step, solo. cbn [peers lookup list_lookup room listeners]. by destruct (loop_step r n p) as [[r' n'] p']. Qed.

Lemma solo_callback r n p k :
  callbacks p = [k] →
  step (solo r n p) (Callback 0 0) =
  let '(r', n', p', k') := callback_step k r n p in solo r' n' (set_callbacks (<[0%nat := k']> (callbacks p')) p').
Proof.
  intros Hk. unfold step, solo. cbn [peers lookup list_lookup room listeners]. rewrite Hk. cbn [lookup list_lookup].
  by destruct (callback_step k r n p) as [[[r' n'] p'] k'].
Qed.

Ltac fields :=
  unfold set_loop, set_slot, set_registered, set_callbacks, new_peer;
  cbn [peer_id peer_bus leg slotReserved subscriptionRegistered loop callbacks app insert list_insert].

Lemma solo_racing r0 r bus :
  TryReserveSlot maxSubscribersPerRoom r0 = (r, true) →
  run (start r0 [("listener", bus, 0%nat)]) racing =
  let '(r2, added) := AddBusSubscription "listener" bus 0 (RemoveSubscription "listener" (ReleaseSlot r)) in
  match added with
  | Ok _ => solo r2 0 (mkPeer "listener" bus 0 false true Gone [KExit])
  | Err _ => solo r2 (-1) (mkPeer "listener" bus 0 false false Gone [KStop])
  end.
Proof.
  intros Hr. change (start r0 [("listener", bus, 0%nat)]) with (solo r0 0 (new_peer "listener" bus 0)).
  unfold run, racing. cbn [foldl]. rewrite solo_loop. unfold loop_step at 1. cbn [loop new_peer]. rewrite Hr. fields.
  rewrite solo_loop. unfold loop_step at 1. fields.
  change (step (solo ?r ?n ?p) (Connected 0)) with (solo r n (set_callbacks (callbacks p ++ [KSwap]) p)). fields.
  do 3 (erewrite solo_callback by reflexivity; unfold callback_step at 1; fields).
  change (step (solo ?r ?n ?p) (Leave 0)) with (solo r n (set_loop SwapSlot p)). fields.
  do 4 (rewrite solo_loop; unfold loop_step at 1; fields).
  erewrite solo_callback by reflexivity. unfold callback_step at 1. fields.
  destruct (AddBusSubscription _ _ _ _) as [r2 [u|e]]; fields;
    (erewrite solo_callback by reflexivity; unfold callback_step at 1; fields); done.
Qed.

(** C39: without that order a departed listener can stay.  For every Session, limits
    and bus there is an interleaving after which the peer has gone and nothing is
    left to run, yet the Session still lists its subscription: the connection
    callback set its flag before, and added the subscription after, the cleanup of
    the same peer removed it. *)
Theorem departed_listener_stays id now c bus :
  let w := run (start (newSession id now c) [("listener", bus, 0%nat)]) racing in
  Forall finished (peers w) ∧ subscriptions (room w) = [mkEntry "listener" bus 0] ∧ listeners w = 0.
Proof.
  assert (Hr : ∃ r, TryReserveSlot maxSubscribersPerRoom (newSession (S := S) id now c) = (r, true) ∧
            subscriptions r = [] ∧ config r = c).
  { unfold TryReserveSlot, reserve_attempt. case_if; [by eexists|]. cbn. case_if; [|by eexists].
    match goal with E : (?t >=? _) = true |- _ => change t with 0 in E end. bool_hyps. lia. }
  destruct Hr as (r & Hr & Hs & Hc). cbv zeta.
  rewrite (solo_racing (newSession id now c) r bus Hr). set (r1 := RemoveSubscription _ _).
  assert (H1 : subscriptions r1 = [] ∧ config r1 = c).
  { destruct (RemoveSubscription_frame "listener" (ReleaseSlot r)) as (H1 & _ & H2 & _). unfold r1. rewrite H1, H2. cbn. by rewrite Hs. }
  destruct H1 as [H1 H2]. unfold AddBusSubscription. rewrite H1, H2.
  destruct ((maxSubscriptions c >? 0) && (len [] >=? maxSubscriptions c)) eqn:Hfull.
  { apply andb_true_iff in Hfull as [Ha Hb]. change (len []) with 0 in Hb. lia. }
  cbn. split_and!; [|done|done]. constructor; [|constructor]. split; [done|]. by repeat constructor.
Qed.
End Lifecycle.
End PeerLifecycle.

(** ** ICE candidates and answers *)

Module MessageLoop.

Definition maxPendingICECandidates : Z := 64.

(** What the message loop knows of a peer connection: which descriptions are set,
    and the candidates it was given. *)
Record connection := mkConnection { localSet : bool; remoteSet : bool; added : list string }.
Record peer := mkPeer { pc : option connection; pendingICE : list string }.
Definition new : peer := mkPeer None [].

Inductive signal_error := ErrCodeICEError | ErrCodeSDPError.

Definition queuePendingICE (candidate : string) (p : peer) : peer * bool :=
  if len (pendingICE p) >=? maxPendingICECandidates then (p, false)
  else (mkPeer (pc p) (pendingICE p ++ [candidate]), true).

Section Loop.
(** Whether [AddICECandidate] of the WebRTC library returns without an error, by
    whether the remote description is set. *)
Context (accepts : bool → string → bool).

(** [AddICECandidate], with the candidates that were taken recorded. *)
Definition AddICECandidate (candidate : string) (c : connection) : connection * bool :=
  if accepts (remoteSet c) candidate then (mkConnection (localSet c) (remoteSet c) (added c ++ [candidate]), true) else (c, false).

(** The loop over the queued candidates, whose errors are ignored. *)
Definition add_pending (candidates : list string) (c : connection) : connection :=
  foldl (λ c candidate, (AddICECandidate candidate c).1) c candidates.

Definition handleICE (candidate : string) (p : peer) : peer * result signal_error unit :=
  match pc p with
  | Some c =>
    if remoteSet c
    then let '(c, added) := AddICECandidate candidate c in
         (mkPeer (Some c) (pendingICE p), if added then Ok tt else Err ErrCodeICEError)
    else let '(p, queued) := queuePendingICE candidate p in (p, if queued then Ok tt else Err ErrCodeICEError)
  | None => let '(p, queued) := queuePendingICE candidate p in (p, if queued then Ok tt else Err ErrCodeICEError)
  end.

(** [ok] is the result of [SetRemoteDescription]. *)
Definition handleSDPAnswer (ok : bool) (p : peer) : peer * result signal_error unit :=
  match pc p with
  | None => (p, Err ErrCodeSDPError)
  | Some c =>
    if negb (localSet c) || remoteSet c then (p, Err ErrCodeSDPError)
    else if negb ok then (p, Err ErrCodeSDPError)
    else (mkPeer (Some (add_pending (pendingICE p) (mkConnection true true (added c)))) [], Ok tt)
  end.

(** The end of a [handleJoin] that succeeds, with the client's offer or without. *)
Definition join (offered : bool) (p : peer) : peer :=
  match pc p with
  | Some _ => p
  | None => mkPeer (Some (add_pending (pendingICE p) (mkConnection true offered []))) []
  end.

Inductive message := MIce (candidate : string) | MAnswer (ok : bool) | MJoin (offered : bool).

Definition handle (p : peer) (m : message) : peer :=
  match m with
  | MIce c => (handleICE c p).1
  | MAnswer ok => (handleSDPAnswer ok p).1
  | MJoin offered => join offered p
  end.

(** The usable candidates that were received without an error, in order. *)
Definition usable : list string → list string := filter (λ c, accepts true c = true).
Definition received (p : peer) (m : message) : list string :=
  match m with MIce c => if is_ok (handleICE c p).2 then usable [c] else [] | _ => [] end.
Fixpoint accepted (p : peer) (ms : list message) : list string :=
  match ms with [] => [] | m :: ms' => received p m ++ accepted (handle p m) ms' end.

(** The candidates the connection was given, and those that wait. *)
Definition delivered (p : peer) : list string := match pc p with Some c => added c | None => [] end.
Definition kept (p : peer) : list string := delivered p ++ usable (pendingICE p).

(** What a connection without a remote description was given is nothing. *)
Definition peer_ok (p : peer) : Prop :=
  len (pendingICE p) <= maxPendingICECandidates ∧
  match pc p with Some c => (remoteSet c = false → added c = []) ∧ (remoteSet c = true → pendingICE p = []) | None => True end.

(** The library refuses a candidate while there is no remote description. *)
Hypothesis accepts_needs_remote : ∀ c, accepts false c = false.

Lemma usable_one c : usable [c] = if accepts true c then [c] else [].
Proof. unfold usable. cbn. destruct (accepts true c); cbn; by case_decide. Qed.

Lemma usable_app l l' : usable (l ++ l') = usable l ++ usable l'.
Proof. apply filter_app. Qed.

Lemma add_pending_spec l c :
  add_pending l c = if remoteSet c then mkConnection (localSet c) true (added c ++ usable l) else c.
Proof.
  unfold add_pending. revert c. induction l as [|x l IH]; intros [lo re ad]; cbn [foldl].
  - destruct re; cbn; [by rewrite app_nil_r|done].
  - rewrite IH. change (x :: l) with ([x] ++ l). rewrite usable_app, usable_one. unfold AddICECandidate.
    destruct re; cbn; [|by rewrite accepts_needs_remote]. destruct (accepts true x); cbn; [by rewrite <- app_assoc|done].
Qed.

Lemma queue_spec candidate p :
  peer_ok p → let '(p', queued) := queuePendingICE candidate p in
  pc p' = pc p ∧ len (pendingICE p') <= maxPendingICECandidates ∧
  usable (pendingICE p') = usable (pendingICE p) ++ (if queued then usable [candidate] else []).
Proof.
  intros [Hl _]. unfold queuePendingICE. case_if; cbn [pc pendingICE]; [by rewrite app_nil_r|].
  split_and!; [done| |apply usable_app]. unfold len in *. rewrite length_app. cbn. bool_hyps. lia.
Qed.

(** Joining without an offer loses what was queued before. *)
Definition loses (m : message) (p : peer) : list string :=
  match m, pc p with MJoin false, None => usable (pendingICE p) | _, _ => [] end.

Lemma ice_ok c p :
  peer_ok p → peer_ok (handle p (MIce c)) ∧ kept (handle p (MIce c)) = kept p ++ received p (MIce c).
Proof.
  intros Hp. pose proof Hp as [Hl Hc]. unfold kept, delivered, received. cbn [handle].
  pose proof (queue_spec c p Hp) as Hq. unfold handleICE. destruct (queuePendingICE c p) as [p' queued].
  destruct Hq as (Q1 & Q2 & Q3). destruct (pc p) as [[lo re ad]|] eqn:Hpc; cbn [remoteSet] in *.
  - destruct Hc as [C1 C2]. destruct re; cbn in C1, C2.
    + rewrite (C2 eq_refl) in *. unfold AddICECandidate. cbn [remoteSet]. rewrite usable_one.
      destruct (accepts true c); cbn; (split; [split; [done|by split]|]); by rewrite ?app_nil_r.
    + cbn [fst snd]. split; [split; [done|rewrite Q1; cbn; by split]|]. rewrite Q1, Q3. cbn [added]. rewrite (C1 eq_refl). cbn [app].
      by destruct queued.
  - cbn [fst snd]. split; [split; [done|by rewrite Q1]|]. rewrite Q1, Q3. cbn [app]. by destruct queued.
Qed.

Lemma handle_ok p m : peer_ok p → peer_ok (handle p m) ∧ loses m p ++ kept (handle p m) = kept p ++ received p m.
Proof.
  intros Hp. destruct m as [c|ok|offered]; [by apply ice_ok|..]; cbn [handle received]; rewrite app_nil_r; unfold kept, delivered, loses.
  - unfold handleSDPAnswer. destruct (pc p) as [[lo re ad]|] eqn:Hpc; cbn [localSet remoteSet added] in *;
      [|split; [done|]; cbn; by rewrite ?Hpc].
    destruct (negb lo || re) eqn:E; [split; [done|]; cbn; by rewrite ?Hpc|].
    destruct ok; cbn [negb]; [|split; [done|]; cbn; by rewrite ?Hpc].
    rewrite add_pending_spec. cbn. split; [|by rewrite !app_nil_r]. split; [unfold len, maxPendingICECandidates; cbn; lia|]. by split.
  - unfold join. destruct (pc p) as [c|] eqn:Hpc; [split; [done|]; rewrite ?Hpc; by destruct offered|].
    rewrite add_pending_spec. cbn. destruct offered; cbn; (split; [split; [unfold len, maxPendingICECandidates; cbn; lia|by split]|]);
      by rewrite ?app_nil_r.
Qed.

Fixpoint lost (p : peer) (ms : list message) : list string :=
  match ms with [] => [] | m :: ms' => loses m p ++ lost (handle p m) ms' end.

Lemma handle_all p ms :
  peer_ok p →
  peer_ok (foldl handle p ms) ∧ kept p ++ accepted p ms = lost p ms ++ kept (foldl handle p ms).
Proof.
  revert p. induction ms as [|m ms IH]; intros p Hp; cbn [foldl accepted lost]; [by rewrite app_nil_r|].
  destruct (handle_ok p m Hp) as [Hp' He]. destruct (IH _ Hp') as [H1 H2]. split; [done|].
  rewrite <- app_assoc, <- H2, !app_assoc. by rewrite He.
Qed.

Lemma lost_nothing p ms : MJoin false ∉ ms → lost p ms = [].
Proof.
  revert p. induction ms as [|m ms IH]; intros p Hn; [done|]. apply not_elem_of_cons in Hn as [Hm Hn]. cbn.
  rewrite IH by done. unfold loses. destruct m as [| |[|]]; cbn; by destruct (pc p).
Qed.

(** Trickled candidates reach the connection once and in order.  Whatever
    messages a client sends, at most 64 candidates wait; and the usable candidates
    it got no error for are exactly those the connection was given followed by
    those that wait, in the order they came, apart from a first part that only a
    join without an offer loses. *)
Theorem candidates_in_order ms :
  len (pendingICE (foldl handle new ms)) <= 64 ∧
  accepted new ms = lost new ms ++ delivered (foldl handle new ms) ++ usable (pendingICE (foldl handle new ms)) ∧
  (MJoin false ∉ ms → lost new ms = []).
Proof.
  destruct (handle_all new ms) as [[Hl _] He]; [split; [done|done]|]. split; [done|]. split; [exact He|]. apply lost_nothing.
Qed.

Lemma queue_all p l :
  pc p = None → len (pendingICE p) + len l <= 64 →
  foldl handle p (MIce <$> l) = mkPeer None (pendingICE p ++ l) ∧ accepted p (MIce <$> l) = usable l.
Proof.
  revert p. induction l as [|c l IH]; intros [k q] Hpc Hlen; cbn in Hpc; subst k.
  { cbn. by rewrite app_nil_r. }
  assert (Hroom : (len q >=? maxPendingICECandidates) = false) by (unfold len, maxPendingICECandidates in *; cbn in Hlen; lia).
  change (c :: l) with ([c] ++ l). rewrite usable_app.
  cbn [fmap list_fmap foldl accepted handle app received]. unfold handleICE, queuePendingICE. cbn [pc pendingICE]. rewrite Hroom. cbn [fst snd is_ok].
  destruct (IH (mkPeer None (q ++ [c]))) as [-> ->]; [done|unfold len in *; cbn in *; rewrite length_app; cbn; lia|].
  cbn [pendingICE]. by rewrite <- app_assoc.
Qed.

Lemma join_unanswered q : foldl handle (mkPeer None q) [MJoin false; MAnswer true] = mkPeer (Some (mkConnection true true [])) [].
Proof. cbn [foldl handle]. unfold join. cbn [pc pendingICE]. rewrite add_pending_spec. reflexivity. Qed.

Lemma accepted_app p l1 l2 : accepted p (l1 ++ l2) = accepted p l1 ++ accepted (foldl handle p l1) l2.
Proof. revert p. induction l1 as [|m l1 IH]; intros p; [done|]. cbn. by rewrite IH, app_assoc. Qed.

(** Candidates sent before joining without an offer are taken without an error
    and then lost: the join hands them to a connection that has no remote
    description yet, ignores that it refuses them, and empties the queue, so the
    answer that follows finds nothing to add. *)
Theorem early_candidates_lost l :
  len l <= 64 →
  let ms := (MIce <$> l) ++ [MJoin false; MAnswer true] in
  accepted new ms = usable l ∧ delivered (foldl handle new ms) = [] ∧ pendingICE (foldl handle new ms) = [].
Proof.
  intros Hl ms. destruct (queue_all new l) as [Hq Ha]; [done|change (0 + len l <= 64); lia|]. unfold ms. rewrite foldl_app, Hq.
  rewrite join_unanswered, accepted_app, Ha. split_and!; [|done..]. apply app_nil_r.
Qed.
End Loop.

(** A library that takes every candidate once there is a remote description. *)
Local Abbreviation lenient := (λ (remote : bool) (_ : string), remote).

Lemma candidates_in_order_witness :
  let ms := [MJoin false; MIce "host 1"; MAnswer true; MIce "host 2"] in
  accepted lenient new ms = lost lenient new ms ++ ["host 1"; "host 2"].
Proof.
  destruct (candidates_in_order lenient (λ _, eq_refl) [MJoin false; MIce "host 1"; MAnswer true; MIce "host 2"]) as (_ & Ha & _).
  exact Ha.
Defined.

Lemma early_candidates_lost_witness :
  let ms := [MIce "host 1"; MIce "host 2"; MJoin false; MAnswer true] in
  accepted lenient new ms = ["host 1"; "host 2"] ∧ delivered (foldl (handle lenient) new ms) = [].
Proof.
  destruct (early_candidates_lost lenient (λ _, eq_refl) ["host 1"; "host 2"]) as (Ha & Hd & _); [vm_compute; congruence|].
  split; [exact Ha|exact Hd].
Defined.
End MessageLoop.

(** ** Keys for end-to-end encryption *)

Module KeyExchange.
Import Token.

Inductive key_error := ErrCodeRoleMismatch | ErrCodeNotJoined.

(** The connected peers, and the key each Session has been given. *)
Record member := mkMember { mRole : option Role; mRoom : option string }.
Record rooms := mkRooms { signalPeers : gmap string member; currentKey : gmap string string; keyExchangeTotal : Z }.

Definition GetKey (session : string) (w : rooms) : string := default "" (currentKey w !! session).
Definition SetKey (session key : string) (w : rooms) : rooms :=
  mkRooms (signalPeers w) (<[session := key]> (currentKey w)) (keyExchangeTotal w).

(** The peers a key is forwarded to. *)
Definition forwards (id session : string) (p : string * member) : bool :=
  negb (bool_decide (p.1 = id)) && bool_decide (mRoom p.2 = Some session) && bool_decide (mRole p.2 = Some RoleSubscriber).

(** [handleKeyExchange] of peer [id]: who is sent the key. *)
Definition handleKeyExchange (id : string) (m : member) (key : string) (w : rooms) : rooms * result key_error (list string) :=
  if negb (bool_decide (mRole m = Some RoleSource)) then (w, Err ErrCodeRoleMismatch)
  else
    match mRoom m with
    | None => (w, Err ErrCodeNotJoined)
    | Some session =>
      let recipients := fst <$> filter (λ p, forwards id session p = true) (map_to_list (signalPeers w)) in
      let w := mkRooms (signalPeers w) (currentKey w) (u64 (keyExchangeTotal w + 1)) in
      ((if bool_decide (key = "") then w else SetKey session key w), Ok recipients)
    end.

(** What a listener that joins is sent. *)
Definition join_key (session : string) (w : rooms) : option string :=
  if bool_decide (GetKey session w = "") then None else Some (GetKey session w).

(** A Session's key reaches its listeners and nobody else.  Only a source that
    has joined can send one; it is forwarded to exactly the other peers of the
    same Session that listen; the key of no other Session changes; and a listener
    that joins later is sent the last key that was not empty. *)
Theorem keys_stay_in_session id m key w w' recipients :
  handleKeyExchange id m key w = (w', Ok recipients) →
  mRole m = Some RoleSource ∧ ∃ session, mRoom m = Some session ∧
  (∀ p, p ∈ recipients ↔ p ≠ id ∧ ∃ q, signalPeers w !! p = Some q ∧ mRoom q = Some session ∧ mRole q = Some RoleSubscriber) ∧
  (∀ other, other ≠ session → join_key other w' = join_key other w) ∧
  join_key session w' = (if bool_decide (key = "") then join_key session w else Some key).
Proof.
  unfold handleKeyExchange. case_bool_decide as Hr; [|done]. cbn [negb]. destruct (mRoom m) as [session|] eqn:Hm; [|done].
  intros [= <- <-]. split; [done|]. exists session. split; [done|]. split_and!.
  - intros p. rewrite list_elem_of_fmap. split.
    + intros ([p' q] & -> & [Hf Hin]%list_elem_of_filter). apply elem_of_map_to_list in Hin. unfold forwards in Hf. bool_hyps. cbn in *. eauto.
    + intros (Hne & q & Hq & H1 & H2). exists (p, q). split; [done|]. apply list_elem_of_filter. split; [|by apply elem_of_map_to_list].
      unfold forwards. cbn. by rewrite bool_decide_false, !bool_decide_true.
  - intros other Hne. unfold join_key, GetKey. destruct (bool_decide (key = "")); [done|]. cbn. by rewrite lookup_insert_ne.
  - destruct (bool_decide (key = "")) eqn:Hk; [done|]. apply bool_decide_eq_false in Hk. unfold join_key, GetKey. cbn.
    rewrite lookup_insert_eq. cbn. by rewrite bool_decide_false.
Qed.

Definition gathering : rooms :=
  mkRooms {["s" := mkMember (Some RoleSource) (Some "room"); "l1" := mkMember (Some RoleSubscriber) (Some "room");
            "l2" := mkMember (Some RoleSubscriber) (Some "elsewhere"); "new" := mkMember None None]} ∅ 0.

Lemma keys_stay_in_session_witness :
  let '(w', r) := handleKeyExchange "s" (mkMember (Some RoleSource) (Some "room")) "key" gathering in
  r = Ok ["l1"] ∧ join_key "room" w' = Some "key".
Proof.
  cbv zeta. destruct (handleKeyExchange "s" (mkMember (Some RoleSource) (Some "room")) "key" gathering) as [w' r] eqn:E.
  assert (r = Ok ["l1"]) as -> by (apply (f_equal snd) in E; vm_compute in E; by rewrite <- E). split; [done|].
  destruct (keys_stay_in_session _ _ _ _ _ _ E) as (_ & session & Hs & _ & _ & Hk). injection Hs as <-. exact Hk.
Defined.
End KeyExchange.

(** ** Examples *)

Module AdmissionExample.
Import Storage Token Access Authority Capabilities PublishBuses MediaAdmission.
#[local] Existing Instances Storage.small_records Token.clear_jwt Token.clear_jwt_laws Capabilities.clear_unverified.

(** The listener's capability of [Capabilities.issued_token] admits it to bus
    "voice" of Session "s-1"; asking for another bus, or publishing with it, does
    not. *)
Definition listening (t : MessageType) (bus : string) : join_message :=
  mkJoin t issued_token (mkMessage bus None) "elsewhere" "".
Definition joining (m : join_message) : result ErrorCode admitted :=
  handleJoin (impl := standalone_authority service_a) (secret service_a) None (60 * Second) issued_state false
    (λ _, Ok tt) (λ _, true) m.

Example listener_admitted :
  joining (listening TypeSubscribe "") = Ok (mkAdmitted "s-1" RoleSubscriber "voice" None) ∧
  joining (listening TypeSubscribe "other") = Err ErrCodeBadRequest ∧
  joining (listening TypePublish "") = Err ErrCodeBadToken.
Proof. vm_compute. done. Qed.
End AdmissionExample.

Module PeerExample.
Import Session.Session PeerLifecycle.
#[local] Existing Instance probe_subscription.

(** Two listeners; the first connects and leaves, the second's place is still
    reserved. *)
Definition two : list (string * string * nat) := [("a", "mix", 0%nat); ("b", "mix", 1%nat)].
Definition tidy : list action :=
  [Loop 0; Loop 0; Loop 1; Loop 1; Connected 0; Callback 0 0; Callback 0 0; Callback 0 0; Callback 0 0; Callback 0 0;
   Leave 0; Loop 0; Loop 0; Loop 0; Loop 0]%nat.
Definition example_room : RelaySession (S := probe) := newSession "s-1" 0 example_config.
Local Abbreviation after_tidy := (run (S := probe) 4 (start example_room two) tidy).

Lemma places_returned_once_witness :
  pendingSlots (stats (room after_tidy)) = i32 (held (peers after_tidy)) ∧ pendingSlots (stats (room after_tidy)) = 1.
Proof.
  split; [|vm_compute; reflexivity].
  refine (proj1 (places_returned_once 4 example_room two tidy _)). reflexivity.
Defined.

Lemma tidy_orderly : orderly 4 (start example_room two) tidy.
Proof.
  repeat (split; [first [exact I|intros p Hp; vm_compute in Hp; injection Hp as <-; repeat constructor]|]). exact I.
Qed.

Definition departed : peer := mkPeer "a" "mix" 0 false true Gone [KExit].

Lemma departed_gone : departed ∈ peers after_tidy.
Proof. apply (list_elem_of_lookup_2 (peers after_tidy) 0). vm_compute. reflexivity. Qed.

Lemma orderly_departure_witness :
  departed ∈ peers after_tidy ∧ Forall (λ e, subscriberID e ≠ peer_id departed) (subscriptions (room after_tidy)).
Proof.
  split; [exact departed_gone|].
  apply (orderly_departure 4 example_room two tidy departed).
  2: exact tidy_orderly.
  2: exact departed_gone.
  2: reflexivity.
  apply (bool_decide_unpack _). vm_compute. exact I.
Defined.
End PeerExample.
