(* ===== verification/Whip.v ===== *)
(** * Whip: the lifecycle of a WHIP or WHEP connection

    Translates what [internal/server/whip.go] does once a connection is admitted
    ([SignalPeer.MediaAdmission]): the table of connections, the callbacks of the
    peer connection and the goroutine that watches for its end; and the requests
    on the connection's resource ([internal/server/whip_resource.go]).  The
    goroutines interleave at their accesses to shared state. *)

From S2P Require Export SignalPeer.

Module WhipLifecycle.
Import Session.Session.

(** The POST request after the answer is prepared: it stores the connection, it
    starts the watcher; or it gave up and closed the peer connection. *)
Inductive handler_pc := HPrepare | HSpawn | HAnswered | HAborted.
(** The watcher: it waits for the end of the Session or of the attachment. *)
Inductive watcher_pc := WWait | WDelete | WClose | WExit.
(** The callback for [Connected] of a listener. *)
Inductive connected_pc := CAdd | CStop | CExit.
(** The callback for [Failed], [Closed] and [Disconnected]. *)
Inductive terminal_pc := TDone | TRemove | TDelete | TExit.
(** A DELETE request; its last states are the answers 404 and 200. *)
Inductive delete_pc := DLoad | DClose | DRemove | DNotFound | DOk.

Section Lifecycle.
Context {S : Type} `{BusSubscription S}.
Context (connID bus : string) (leg : nat).    (* the listener's downlink *)

Record conn := mkConn {
  room : RelaySession (S := S);
  roomDone : bool;                            (* rm.Done() is closed *)
  listed : bool;                              (* whipConns has connID *)
  attachmentDone : bool;
  pcClosed : bool;
  handler : handler_pc;
  watcher : option watcher_pc;
  connected : list connected_pc;
  terminal : list terminal_pc;
  deletes : list delete_pc }.

Definition start (r : RelaySession (S := S)) : conn := mkConn r false false false false HPrepare None [] [] [].

Definition set_room r w := mkConn r (roomDone w) (listed w) (attachmentDone w) (pcClosed w) (handler w) (watcher w) (connected w) (terminal w) (deletes w).
Definition set_listed b w := mkConn (room w) (roomDone w) b (attachmentDone w) (pcClosed w) (handler w) (watcher w) (connected w) (terminal w) (deletes w).
Definition set_done w := mkConn (room w) (roomDone w) (listed w) true (pcClosed w) (handler w) (watcher w) (connected w) (terminal w) (deletes w).
Definition set_room_done w := mkConn (room w) true (listed w) (attachmentDone w) (pcClosed w) (handler w) (watcher w) (connected w) (terminal w) (deletes w).
Definition close_pc w := mkConn (room w) (roomDone w) (listed w) (attachmentDone w) true (handler w) (watcher w) (connected w) (terminal w) (deletes w).
Definition set_handler h w := mkConn (room w) (roomDone w) (listed w) (attachmentDone w) (pcClosed w) h (watcher w) (connected w) (terminal w) (deletes w).
Definition set_watcher x w := mkConn (room w) (roomDone w) (listed w) (attachmentDone w) (pcClosed w) (handler w) x (connected w) (terminal w) (deletes w).
Definition set_connected l w := mkConn (room w) (roomDone w) (listed w) (attachmentDone w) (pcClosed w) (handler w) (watcher w) l (terminal w) (deletes w).
Definition set_terminal l w := mkConn (room w) (roomDone w) (listed w) (attachmentDone w) (pcClosed w) (handler w) (watcher w) (connected w) l (deletes w).
Definition set_deletes l w := mkConn (room w) (roomDone w) (listed w) (attachmentDone w) (pcClosed w) (handler w) (watcher w) (connected w) (terminal w) l.

(** The end of [handleWHIPRequest]; [failed]: the answer could not be prepared. *)
Definition handler_step (failed : bool) (w : conn) : conn :=
  match handler w with
  | HPrepare => if failed then set_handler HAborted (close_pc w) else set_handler HSpawn (set_listed true w)
  | HSpawn => set_handler HAnswered (set_watcher (Some WWait) w)
  | _ => w
  end.

Definition watcher_step (w : conn) : conn :=
  match watcher w with
  | Some WWait => if roomDone w || attachmentDone w then set_watcher (Some WDelete) w else w
  | Some WDelete => set_watcher (Some WClose) (set_listed false w)
  | Some WClose => set_watcher (Some WExit) (close_pc w)
  | _ => w
  end.

(** [onConnected] *)
Definition connected_step (i : nat) (w : conn) : conn :=
  match connected w !! i with
  | Some CAdd =>
    match AddBusSubscription connID bus leg (room w) with
    | (r, Ok _) => set_connected (<[i := CExit]> (connected w)) (set_room r w)
    | (r, Err _) => set_connected (<[i := CStop]> (connected w)) (set_room r w)
    end
  | Some CStop =>
    set_connected (<[i := CExit]> (connected w)) (set_room (set_objects (alter StopForwarding leg (objects (room w))) (room w)) w)
  | _ => w
  end.

(** The other branch of [OnConnectionStateChange]. *)
Definition terminal_step (i : nat) (w : conn) : conn :=
  match terminal w !! i with
  | Some TDone => set_terminal (<[i := TRemove]> (terminal w)) (set_done w)
  | Some TRemove => set_terminal (<[i := TDelete]> (terminal w)) (set_room (RemoveSubscription connID (room w)) w)
  | Some TDelete => set_terminal (<[i := TExit]> (terminal w)) (set_listed false w)
  | _ => w
  end.

(** [handleWHIPDelete] *)
Definition delete_step (i : nat) (w : conn) : conn :=
  match deletes w !! i with
  | Some DLoad => set_deletes (<[i := if listed w then DClose else DNotFound]> (deletes w)) (set_listed false w)
  | Some DClose => set_deletes (<[i := DRemove]> (deletes w)) (close_pc w)
  | Some DRemove => set_deletes (<[i := DOk]> (deletes w)) (set_room (RemoveSubscription connID (room w)) w)
  | _ => w
  end.

(** Everything that can happen.  Callbacks run on goroutines of their own; other
    connections add and remove their own subscriptions. *)
Inductive action :=
| Handler (failed : bool)
| Watcher
| OnConnected | Connected (i : nat)
| OnTerminal | Terminal (i : nat)
| Delete | Deleting (i : nat)
| SessionEnds
| OtherAdds (id bus : string) (sub : nat) | OtherRemoves (id : string).

Definition step (w : conn) (a : action) : conn :=
  match a with
  | Handler failed => handler_step failed w
  | Watcher => watcher_step w
  | OnConnected => set_connected (connected w ++ [CAdd]) w
  | Connected i => connected_step i w
  | OnTerminal => set_terminal (terminal w ++ [TDone]) w
  | Terminal i => terminal_step i w
  | Delete => set_deletes (deletes w ++ [DLoad]) w
  | Deleting i => delete_step i w
  | SessionEnds => set_room_done w
  | OtherAdds id b sub => if decide (id = connID) then w else set_room (AddBusSubscription id b sub (room w)).1 w
  | OtherRemoves id => set_room (RemoveSubscription id (room w)) w
  end.

Definition run (w : conn) (schedule : list action) : conn := foldl step w schedule.

(** ** The table of connections *)

(** Deletions that found the connection. *)
Definition found (d : delete_pc) : Z := match d with DClose | DRemove | DOk => 1 | _ => 0 end.
Fixpoint deleted (l : list delete_pc) : Z := match l with [] => 0 | d :: l' => found d + deleted l' end.

Lemma deleted_app l l' : deleted (l ++ l') = deleted l + deleted l'.
Proof. induction l; cbn; lia. Qed.

Lemma deleted_insert l i d d' : l !! i = Some d → deleted (<[i := d']> l) = deleted l - found d + found d'.
Proof.
  revert i. induction l as [|x l IH]; intros [|i]; simpl; try done.
  - intros [= ->]. lia.
  - intros Hl. rewrite (IH _ Hl). lia.
Qed.

Lemma deleted_nonneg l : 0 <= deleted l.
Proof. induction l as [|d l IH]; cbn; [lia|]. destruct d; cbn; lia. Qed.

(** The connection is in the table only between its entry and the watcher's
    deletion, and it leaves the table once. *)
Record table_ok (w : conn) : Prop := {
  tb_listed : listed w = true → handler w = HSpawn ∨ watcher w = Some WWait ∨ watcher w = Some WDelete;
  tb_watcher : match handler w with HAnswered => is_Some (watcher w) | _ => watcher w = None end;
  tb_prepared : handler w = HPrepare → deleted (deletes w) = 0;
  tb_once : deleted (deletes w) + (if listed w then 1 else 0) <= 1;
  tb_closed : watcher w = Some WExit ∨ handler w = HAborted → pcClosed w = true }.

(** Steps that keep the fields of the invariant. *)
Lemma table_frame w w' :
  table_ok w → listed w' = listed w → handler w' = handler w → watcher w' = watcher w → deletes w' = deletes w →
  (pcClosed w = true → pcClosed w' = true) → table_ok w'.
Proof. intros [H1 H2 H3 H4 H5] El Eh Ew Ed Ep. split; rewrite ?El, ?Eh, ?Ew, ?Ed; auto. Qed.

Lemma table_unlisted w w' :
  table_ok w → listed w' = false → handler w' = handler w → watcher w' = watcher w →
  deleted (deletes w') = deleted (deletes w) + (if listed w then 1 else 0) ∨ deleted (deletes w') = deleted (deletes w) →
  (pcClosed w = true → pcClosed w' = true) → table_ok w'.
Proof.
  intros [H1 H2 H3 H4 H5] El Eh Ew Ed Ep. split; rewrite ?El, ?Eh, ?Ew; auto; [done| |].
  - intros Hp. destruct Ed as [-> | ->]; rewrite H3 by done; [|done]. rewrite Hp in H2.
    destruct (listed w); [|done]. destruct (H1 eq_refl) as [E|[E|E]]; congruence.
  - destruct (listed w), Ed as [-> | ->]; lia.
Qed.

Lemma table_step w a : table_ok w → table_ok (step w a).
Proof.
  intros Hw. pose proof Hw as [H1 H2 H3 H4 H5].
  destruct a as [failed| | |i| |i| |i| |id b sub|id]; cbn [step]; try by eapply table_frame.
  - unfold handler_step. destruct (handler w) eqn:Hh; [destruct failed|..]; try done; split; cbn; try done.
    + intros Hl. destruct (H1 Hl) as [E|[E|E]]; congruence.
    + by left.
    + rewrite H3 by done. lia.
    + rewrite H2. intros [?|?]; congruence.
    + intros _. right. by left.
    + intros [?|?]; congruence.
  - unfold watcher_step. destruct (watcher w) as [[]|] eqn:Hx; try done; [case_if; [|done]|..]; split; cbn; try done.
    + intros _. right. by right.
    + by destruct (handler w).
    + intros [?|?]; [congruence|]. apply H5. by right.
    + by destruct (handler w).
    + destruct (listed w); lia.
    + intros [?|?]; [congruence|]. apply H5. by right.
    + intros Hl. destruct (H1 Hl) as [E|[E|E]]; [by left|congruence..].
    + by destruct (handler w).
  - unfold connected_step. destruct (connected w !! i) as [[]|]; try done.
    destruct (AddBusSubscription connID bus leg (room w)) as [r [|]]; by eapply table_frame.
  - unfold terminal_step. destruct (terminal w !! i) as [[]|]; try done.
    eapply table_unlisted; try done. by right.
  - split; cbn; try done; rewrite deleted_app, Z.add_0_r; done.
  - unfold delete_step. destruct (deletes w !! i) as [[]|] eqn:Hd; try done.
    + eapply table_unlisted; try done. cbn. left. rewrite (deleted_insert _ _ _ _ Hd). destruct (listed w); cbn; lia.
    + split; cbn; try done; rewrite (deleted_insert _ _ _ _ Hd); cbn; replace (deleted (deletes w) - 1 + 1) with (deleted (deletes w)) by lia; done.
    + split; cbn; try done; rewrite (deleted_insert _ _ _ _ Hd); cbn; replace (deleted (deletes w) - 1 + 1) with (deleted (deletes w)) by lia; done.
  - case_decide; [done|by eapply table_frame].
Qed.

Lemma table_run r schedule : table_ok (run (start r) schedule).
Proof.
  assert (Hgen : ∀ w, table_ok w → table_ok (run w schedule)).
  { induction schedule as [|a schedule IH]; intros w Hw; [done|]. cbn. by apply IH, table_step. }
  apply Hgen. split; cbn; [done|done|done|lia|]. by intros [?|?].
Qed.

(** The POST request has returned, and the watcher, if there is one, has nothing
    left to do. *)
Definition at_rest (w : conn) : Prop :=
  match handler w with
  | HAborted => True
  | HAnswered => watcher w = Some WExit ∨ (watcher w = Some WWait ∧ roomDone w || attachmentDone w = false)
  | _ => False
  end.

(** C32: the table of WHIP and WHEP connections does not leak.  However the request
    that creates a connection, its watcher, the callbacks of the peer connection,
    DELETE requests and the end of the Session interleave, at most one DELETE
    request is answered 200; a connection that is listed has a watcher or is about
    to have one; and when the request and the watcher have come to rest and the
    attachment or the Session has ended, the connection is not listed and its peer
    connection is closed, also when the attachment ended before the connection was
    entered. *)
Theorem whip_table_reclaimed r schedule :
  let w := run (start r) schedule in
  deleted (deletes w) <= 1 ∧
  (listed w = true → handler w = HSpawn ∨ watcher w = Some WWait ∨ watcher w = Some WDelete) ∧
  (at_rest w → attachmentDone w = true ∨ roomDone w = true → listed w = false ∧ pcClosed w = true).
Proof.
  intros w. destruct (table_run r schedule) as [H1 H2 H3 H4 H5]. fold w in H1, H2, H3, H4, H5. clearbody w.
  split_and!; [destruct (listed w); lia|done|]. intros Hr He. unfold at_rest in Hr.
  assert (Hx : watcher w = Some WExit ∨ handler w = HAborted).
  { destruct (handler w); try done; [|by right]. destruct Hr as [|[_ Hb]]; [by left|].
    apply orb_false_iff in Hb as [E1 E2]. destruct He; congruence. }
  split; [|by apply H5]. destruct (listed w); [|done]. destruct (H1 eq_refl) as [E|[E|E]], Hx as [Hx|Hx];
    try congruence; rewrite ?E, ?Hx in *; rewrite ?Hx in H2; congruence.
Qed.

(** ** The subscription of a listener *)

Definition unsubscribed (w : conn) : Prop := Forall (λ e, subscriberID e ≠ connID) (subscriptions (room w)).

(** The state changes come in order: a connection ends after its [Connected]
    callback has returned, and is not connected again. *)
Definition orderly_step (w : conn) (a : action) : Prop :=
  match a with
  | OnTerminal => Forall (λ k, k = CExit) (connected w)
  | OnConnected => terminal w = []
  | _ => True
  end.
Fixpoint orderly (w : conn) (schedule : list action) : Prop :=
  match schedule with [] => True | a :: rest => orderly_step w a ∧ orderly (step w a) rest end.

Definition past_remove (t : terminal_pc) : bool := match t with TDelete | TExit => true | _ => false end.
Definition leaves_ok (w : conn) : Prop :=
  (terminal w ≠ [] → Forall (λ k, k = CExit) (connected w)) ∧
  (Exists (λ t, past_remove t = true) (terminal w) → unsubscribed w).

Lemma remove_unsubscribed id r : Forall (λ e, subscriberID e ≠ connID) (subscriptions r) →
  Forall (λ e, subscriberID e ≠ connID) (subscriptions (RemoveSubscription id r)).
Proof.
  destruct (RemoveSubscription_frame id r) as (-> & _). rewrite !Forall_forall. intros Hr e [_ He]%list_elem_of_filter. auto.
Qed.

Lemma removed_unsubscribed r : Forall (λ e, subscriberID e ≠ connID) (subscriptions (RemoveSubscription connID r)).
Proof. destruct (RemoveSubscription_frame connID r) as (-> & _). rewrite Forall_forall. by intros e [He _]%list_elem_of_filter. Qed.

Lemma leaves_frame w w' :
  leaves_ok w → terminal w' = terminal w → connected w' = connected w →
  (unsubscribed w → unsubscribed w') → leaves_ok w'.
Proof. intros [H1 H2] Et Ec Hu. split; rewrite ?Et, ?Ec; auto. Qed.

Lemma past_insert l i t t' :
  l !! i = Some t → past_remove t = past_remove t' →
  Exists (λ t, past_remove t = true) (<[i := t']> l) → Exists (λ t, past_remove t = true) l.
Proof.
  intros Hl Ht. rewrite !Exists_exists. intros (x & Hx & Hp). apply list_elem_of_lookup in Hx as (j & Hj).
  apply list_lookup_insert_Some in Hj as [(<- & <- & _)|[_ Hj]].
  - exists t. split; [by eapply list_elem_of_lookup_2|congruence].
  - exists x. split; [by eapply list_elem_of_lookup_2|done].
Qed.

Lemma leaves_connected w i : leaves_ok w → leaves_ok (connected_step i w).
Proof.
  intros [H1 H2]. unfold connected_step. destruct (connected w !! i) as [k|] eqn:Hk; [|done].
  destruct (terminal w) as [|t l] eqn:Ht.
  - destruct k; [|split; cbn; rewrite Ht; [done|by intros ?%Exists_nil]|by split; rewrite Ht].
    destruct (AddBusSubscription connID bus leg (room w)) as [r [|]]; split; cbn; rewrite Ht; try done; by intros ?%Exists_nil.
  - pose proof (Forall_lookup_1 _ _ _ _ (H1 ltac:(done)) Hk) as ->. by split; rewrite Ht.
Qed.

Lemma leaves_terminal w i : leaves_ok w → leaves_ok (terminal_step i w).
Proof.
  intros [H1 H2]. unfold terminal_step. destruct (terminal w !! i) as [t|] eqn:Ht; [|done].
  assert (Hne : terminal w ≠ []) by (intros E; by rewrite E in Ht).
  destruct t; try done; split; cbn; try (intros _; by apply H1).
  - intros Hp. apply H2. by apply (past_insert _ _ _ _ Ht) in Hp.
  - intros _. apply removed_unsubscribed.
  - intros Hp. apply H2. by apply (past_insert _ _ _ _ Ht) in Hp.
Qed.

Lemma leaves_step w a : leaves_ok w → orderly_step w a → leaves_ok (step w a).
Proof.
  intros Hw Ho. pose proof Hw as [H1 H2]. destruct a as [failed| | |i| |i| |i| |id b sub|id]; cbn [step].
  - unfold handler_step. destruct (handler w); [destruct failed|..]; by eapply leaves_frame.
  - unfold watcher_step. destruct (watcher w) as [[]|]; [case_if|..]; by eapply leaves_frame.
  - split; cbn; rewrite Ho; [done|by intros ?%Exists_nil].
  - by apply leaves_connected.
  - split; cbn; [done|]. rewrite Exists_app. intros [Hp|Hp]; [by apply H2|]. apply Exists_cons in Hp as [Hp|Hp%Exists_nil]; done.
  - by apply leaves_terminal.
  - by eapply leaves_frame.
  - unfold delete_step. destruct (deletes w !! i) as [[]|]; eapply leaves_frame; try done. intros _. apply removed_unsubscribed.
  - by eapply leaves_frame.
  - case_decide as Hid; [done|]. eapply leaves_frame; try done. unfold unsubscribed. cbn.
    unfold AddBusSubscription. case_if; [done|]. cbn. intros Hu. apply Forall_app. split; [done|]. by constructor.
  - eapply leaves_frame; try done. apply remove_unsubscribed.
Qed.

(** A WHEP listener whose connection ended is gone from the Session.  When the
    library reports the state changes in order, then whatever else interleaves,
    other listeners, DELETE requests and the watcher included, the Session does
    not list the connection once the callback for its end has removed it. *)
Theorem whep_listener_leaves r schedule :
  orderly (start r) schedule →
  let w := run (start r) schedule in
  TExit ∈ terminal w → Forall (λ e, subscriberID e ≠ connID) (subscriptions (room w)).
Proof.
  intros Ho w Ht.
  assert (Hgen : ∀ w0, leaves_ok w0 → orderly w0 schedule → leaves_ok (run w0 schedule)).
  { clear. induction schedule as [|a schedule IH]; intros w0 Hw Ho; [done|]. destruct Ho as [Ho1 Ho2].
    cbn. apply IH; [by apply leaves_step|done]. }
  destruct (Hgen (start r)) as [_ H2]; [split; [done|by intros ?%Exists_nil]|done|].
  apply H2. apply Exists_exists. by exists TExit.
Qed.
End Lifecycle.
End WhipLifecycle.

(** ** Examples *)

Module WhipExample.
Import Session.Session WhipLifecycle.

Definition hall : RelaySession (S := probe) := newSession "s-1" 0 example_config.

(** The connection is answered, connects, fails, and is deleted. *)
Definition visit : list action :=
  [Handler false; Handler false; OnConnected; Connected 0; OtherAdds "other" "mix" 1; OnTerminal; Terminal 0; Watcher; Delete;
   Deleting 0; Terminal 0; Terminal 0; Watcher; Watcher; Deleting 0; Deleting 0].

Lemma visit_orderly : orderly "conn" "mix" 0 (start hall) visit.
Proof. repeat (split; [first [exact I|vm_compute; repeat constructor]|]). exact I. Qed.

Lemma whep_listener_leaves_witness :
  let w := run "conn" "mix" 0 (start hall) visit in
  subscriberID <$> subscriptions (room w) = ["other"] ∧ Forall (λ e, subscriberID e ≠ "conn") (subscriptions (room w)).
Proof.
  split; [vm_compute; reflexivity|].
  apply (whep_listener_leaves "conn" "mix" 0 hall visit visit_orderly). vm_compute. left.
Defined.

(** The attachment ends before the connection is entered in the table; the watcher
    still removes it. *)
Example early_end :
  let w := run "conn" "mix" 0 (start hall)
             [OnTerminal; Terminal 0; Terminal 0; Terminal 0; Handler false; Handler false; Watcher; Watcher; Watcher] in
  at_rest w ∧ attachmentDone w = true ∧ listed w = false ∧ pcClosed w = true.
Proof. vm_compute. split_and!; [by left|done..]. Qed.

(** A [Connected] callback that is delayed past the end leaves the listener in the
    Session. *)
Example late_connected :
  let w := run "conn" "mix" 0 (start hall)
             [Handler false; Handler false; OnConnected; OnTerminal; Terminal 0; Terminal 0; Terminal 0; Connected 0;
              Watcher; Watcher; Watcher] in
  listed w = false ∧ pcClosed w = true ∧ subscriberID <$> subscriptions (room w) = ["conn"].
Proof. vm_compute. done. Qed.
End WhipExample.
