(* ===== verification/Observations.v ===== *)
(** * Observations: what a media process tells about itself

    Translates the latency window of a Session ([internal/session/latency.go]), the
    HTTP endpoints that show a Session to its members
    ([internal/server/session_observations_http.go]) and the webhook dispatcher
    ([internal/notifications/webhook/webhook.go]). *)

From stdpp Require Import sorting.
From S2P Require Export SignalPeer Cadence.

(** ** The latency window *)

Module Latency.
Import SpecFloat Histogram.

Definition latencyWindowSizeCount : Z := 100.
Definition fadd : spec_float → spec_float → spec_float := SFadd 53 1024.
Definition fzero : spec_float := S754_zero false.

Record latencySample := mkSample {
  captureMs : spec_float; encodeMs : spec_float; relayRttMs : spec_float; jitterBufferMs : spec_float;
  decodeMs : spec_float; packetLossPct : spec_float }.

Record latencyStore := mkLatency { samples : list latencySample; head : Z; full : bool }.

Definition newLatencyStore : latencyStore :=
  mkLatency (replicate 100 (mkSample fzero fzero fzero fzero fzero fzero)) 0 false.

Definition record (sample : latencySample) (ls : latencyStore) : latencyStore :=
  let head' := (head ls + 1) mod latencyWindowSizeCount in
  mkLatency (<[Z.to_nat (head ls) := sample]> (samples ls)) head' (if head' =? 0 then true else full ls).

(** [sort.Float64s]: NaN comes before every other value. *)
Definition is_nan (x : spec_float) : bool := match x with S754_nan => true | _ => false end.
Definition less (x y : spec_float) : bool := SFltb x y || (is_nan x && negb (is_nan y)).
Definition at_most (x y : spec_float) : Prop := less y x = false.
#[export] Instance at_most_dec x y : Decision (at_most x y) := bool_eq_dec _ _.
Definition Float64s : list spec_float → list spec_float := merge_sort at_most.

Definition middle (sorted : list spec_float) : spec_float :=
  let mid := (length sorted / 2)%nat in
  if (length sorted mod 2 =? 0)%nat
  then fdiv (fadd (nth (mid - 1) sorted fzero) (nth mid sorted fzero)) (float64 2)
  else nth mid sorted fzero.

Definition percentile50 (values : list spec_float) : spec_float :=
  match values with [] => fzero | _ => middle (Float64s values) end.

Record LatencyStats := mkLatencyStats {
  CaptureP50Ms : spec_float; EncodeP50Ms : spec_float; RelayRttP50Ms : spec_float; JitterBufferP50Ms : spec_float;
  DecodeP50Ms : spec_float; PacketLossPct : spec_float; SampleCount : Z }.

Definition stats (ls : latencyStore) : LatencyStats :=
  let count := if full ls then latencyWindowSizeCount else head ls in
  if count =? 0 then mkLatencyStats fzero fzero fzero fzero fzero fzero 0
  else
    let window := take (Z.to_nat count) (samples ls) in
    mkLatencyStats (percentile50 (captureMs <$> window)) (percentile50 (encodeMs <$> window))
      (percentile50 (relayRttMs <$> window)) (percentile50 (jitterBufferMs <$> window))
      (percentile50 (decodeMs <$> window))
      (fdiv (foldl fadd fzero (packetLossPct <$> window)) (float64 count)) count.

(** *** The order of [Float64s] *)

(** The place of a value among all: its class, then exponent and mantissa. *)
Definition place (x : spec_float) : Z * Z * Z :=
  match x with
  | S754_nan => (-3, 0, 0)
  | S754_infinity s => (if s then -2 else 2, 0, 0)
  | S754_zero _ => (0, 0, 0)
  | S754_finite s m e => if s then (-1, - e, - Z.pos m) else (1, e, Z.pos m)
  end.
Definition before (p q : Z * Z * Z) : Prop :=
  p.1.1 < q.1.1 ∨ (p.1.1 = q.1.1 ∧ (p.1.2 < q.1.2 ∨ (p.1.2 = q.1.2 ∧ p.2 < q.2))).

Lemma less_before x y : less x y = true ↔ before (place x) (place y).
Proof.
  unfold less, SFltb, before. destruct x as [sx|sx| |sx mx ex], y as [sy|sy| |sy my ey]; cbn;
    try destruct sx; try destruct sy; cbn; try (split; [done || lia|done || lia]); try (split; intros; [lia|done]).
  all: rewrite orb_false_r; change (Pos.compare_cont Eq mx my) with (Pos.compare mx my);
    destruct (Z.compare_spec ex ey), (Pos.compare_spec mx my); cbn; split; intros; try done; try lia.
Qed.

Lemma at_most_before x y : at_most x y ↔ ¬ before (place y) (place x).
Proof. unfold at_most. rewrite <- less_before. by destruct (less y x). Qed.

#[export] Instance at_most_total : Total at_most.
Proof. intros x y. rewrite !at_most_before. unfold before. lia. Qed.
#[export] Instance at_most_trans : Transitive at_most.
Proof. intros x y z. rewrite !at_most_before. unfold before. lia. Qed.

(** A median: the middle of the values in order. *)
Definition median (values : list spec_float) (m : spec_float) : Prop :=
  ∃ sorted, sorted ≡ₚ values ∧ StronglySorted at_most sorted ∧ m = middle sorted.

Lemma percentile50_median values : values ≠ [] → median values (percentile50 values).
Proof.
  intros Hne. exists (Float64s values). split_and!; [apply merge_sort_Permutation| |by destruct values].
  apply Sorted_StronglySorted; [apply at_most_trans|]. apply Sorted_merge_sort. apply _.
Qed.

Lemma median_perm l l' m : l ≡ₚ l' → median l m → median l' m.
Proof. intros Hl (s & Hs & Ho & ->). exists s. split; [by transitivity l|done]. Qed.

(** *** The ring holds the most recent reports *)

Definition recent (ss : list latencySample) : list latencySample := drop (length ss - 100) ss.

Definition ring (ls : latencyStore) (ss : list latencySample) : Prop :=
  length (samples ls) = 100%nat ∧ 0 <= head ls < 100 ∧
  if full ls then (100 <= length ss)%nat ∧ drop (Z.to_nat (head ls)) (samples ls) ++ take (Z.to_nat (head ls)) (samples ls) = recent ss
  else length ss = Z.to_nat (head ls) ∧ take (Z.to_nat (head ls)) (samples ls) = ss.

Lemma drop_tail (l : list latencySample) k : tail (drop k l) = drop (S k) l.
Proof. revert k. induction l as [|y l IH]; intros [|k]; cbn; [done..|]. apply IH. Qed.

Lemma recent_snoc ss x r : (100 <= length ss)%nat → recent ss = r → recent (ss ++ [x]) = tail r ++ [x].
Proof.
  intros Hl <-. unfold recent. rewrite length_app, Nat.add_1_r, Nat.sub_succ_l by done.
  rewrite drop_app_le by lia. f_equal. symmetry. apply drop_tail.
Qed.

Lemma insert_parts (l : list latencySample) i x :
  (i < length l)%nat → <[i := x]> l = take i l ++ x :: drop (S i) l.
Proof. intros Hi. by rewrite insert_take_drop. Qed.

Lemma record_ring ls ss x : ring ls ss → ring (record x ls) (ss ++ [x]).
Proof.
  destruct ls as [l h f]. intros (Hl & Hh & Hf). cbn in Hl, Hh, Hf. unfold ring, record, latencyWindowSizeCount. cbn.
  rewrite length_insert. pose proof (Z.mod_pos_bound (h + 1) 100 ltac:(lia)) as Hb. split; [done|]. split; [done|].
  set (n := Z.to_nat h) in *. assert (Hn : (n < length l)%nat) by lia.
  assert (Ht : length (take n l) = n) by (rewrite length_take; lia).
  pose proof (insert_parts l n x Hn) as Hi.
  destruct (Z.eqb_spec ((h + 1) mod 100) 0) as [E|E].
  - assert (h = 99) as -> by (destruct (Z_lt_dec (h + 1) 100); [rewrite Z.mod_small in E; lia|lia]). rewrite E. cbn [Z.to_nat take drop].
    rewrite app_nil_r, Hi. assert (Hd : drop (S n) l = []) by (apply drop_ge; lia). rewrite Hd.
    destruct f; destruct Hf as [H1 H2]; rewrite length_app; cbn.
    + split; [lia|]. symmetry. rewrite (recent_snoc ss x _ H1 (eq_sym H2)). f_equal.
      destruct (lookup_lt_is_Some_2 l n Hn) as [y Hy]. by rewrite (drop_S l y n Hy), Hd.
    + split; [lia|]. unfold recent. rewrite length_app. cbn. replace (length ss + 1 - 100)%nat with 0%nat by lia. by rewrite drop_0, H2.
  - assert (h + 1 < 100) by (destruct (Z_lt_dec (h + 1) 100); [done|]; assert (h = 99) as -> by lia; done).
    rewrite Z.mod_small by lia. replace (Z.to_nat (h + 1)) with (S n) by lia. rewrite Hi.
    assert (Hts : take (S n) (take n l ++ x :: drop (S n) l) = take n l ++ [x]).
    { rewrite take_app, Ht, take_ge by lia. replace (S n - n)%nat with 1%nat by lia. done. }
    destruct f; destruct Hf as [H1 H2].
    + split; [rewrite length_app; lia|]. rewrite Hts, (recent_snoc ss x _ H1 (eq_sym H2)).
      rewrite drop_app, Ht, drop_ge by lia. replace (S n - n)%nat with 1%nat by lia. cbn [drop app].
      rewrite app_assoc. f_equal.
      destruct (lookup_lt_is_Some_2 l n Hn) as [y Hy]. by rewrite (drop_S l y n Hy).
    + split; [rewrite length_app; cbn; lia|]. by rewrite Hts, H2.
Qed.

Lemma ring_window ls ss :
  ring ls ss → let count := if full ls then latencyWindowSizeCount else head ls in
  count = Z.min (len ss) 100 ∧ take (Z.to_nat count) (samples ls) ≡ₚ recent ss.
Proof.
  intros (Hl & Hh & Hf). destruct (full ls); cbn; destruct Hf as [H1 H2]; unfold len, latencyWindowSizeCount.
  - split; [lia|]. rewrite take_ge by lia. rewrite <- H2. rewrite <- (take_drop (Z.to_nat (head ls)) (samples ls)) at 1. apply Permutation_app_comm.
  - split; [lia|]. rewrite H2. unfold recent. replace (length ss - 100)%nat with 0%nat by lia. by rewrite drop_0.
Qed.

(** The latency a Session shows is that of its last hundred reports.  After any
    reports, the statistics count the most recent ones, a hundred at most, and
    each duration shown is the median of that duration over exactly these: the
    middle value, or the mean of the two in the middle, in the order that puts NaN
    first. *)
Theorem latency_window ss :
  let st := stats (foldl (flip record) newLatencyStore ss) in
  SampleCount st = Z.min (len ss) 100 ∧
  (ss ≠ [] →
   median (captureMs <$> recent ss) (CaptureP50Ms st) ∧ median (encodeMs <$> recent ss) (EncodeP50Ms st) ∧
   median (relayRttMs <$> recent ss) (RelayRttP50Ms st) ∧ median (jitterBufferMs <$> recent ss) (JitterBufferP50Ms st) ∧
   median (decodeMs <$> recent ss) (DecodeP50Ms st)).
Proof.
  assert (Hr : ring (foldl (flip record) newLatencyStore ss) ss).
  { induction ss as [|x ss IH] using rev_ind; [by split|]. rewrite foldl_app. by apply record_ring. }
  destruct (ring_window _ _ Hr) as [Hc Hw]. set (ls := foldl _ _ ss) in *. clearbody ls. cbv zeta. unfold stats.
  set (count := if full ls then _ else _) in *. clearbody count. case_if; bool_hyps.
  - split; [cbn; congruence|]. intros Hne. exfalso. destruct ss; [done|]. subst. unfold len in *. cbn in *. lia.
  - split; [done|]. intros Hne.
    assert (Hm : ∀ f : latencySample → spec_float, median (f <$> recent ss) (percentile50 (f <$> take (Z.to_nat count) (samples ls)))).
    { intros f. apply (median_perm (f <$> take (Z.to_nat count) (samples ls))); [by apply fmap_Permutation|].
      apply percentile50_median. intros En. apply fmap_nil_inv in En. rewrite En in Hw. apply Permutation_nil_l in Hw.
      apply (f_equal length) in Hw. unfold recent in Hw. rewrite length_drop in Hw. cbn in Hw. destruct ss; [done|]. cbn in Hw. lia. }
    split_and!; apply Hm.
Qed.
End Latency.

(** ** The observation endpoints *)

Module Observations.
Import Token Authority Capabilities Session.SessionRegistry.

Definition packetLogMaxLimit : Z := 1000.
Definition DefaultMediaStallThresholdMs : Z := 2000.

Section Endpoints.
Context `{RecordSizes} `{UnverifiedJwt} {A : Type} {impl : Authority A} {S : Type} `{BusSubscription S}.

(** The parts of a request the endpoints read. *)
Record observation := mkObservation { oToken : encoded; oPath : string; oBus : string; oLimit : string }.

(** [authorizeObservation]: a status, or the claims. *)
Definition authorizeObservation (secret : list Z) (c : option nat) (now : Z) (a : A) (o : observation) : result Z Claims :=
  match verifyCapability secret c (oToken o) None now a with
  | Err errAuthorityUnavailable => Err 503
  | Err _ => Err 401
  | Ok claims =>
    if negb (bool_decide (cSessionID claims = oPath o)) || negb (CanControl claims || bool_decide (cRole claims = RoleSubscriber))
    then Err 403
    else if negb (bool_decide (oBus o = "")) && negb (AllowsBus claims (oBus o)) then Err 403
    else Ok claims
  end.

(** The Session of the path, found in the registry. *)
Definition observed (reg : SessionRegistry (S := S)) (id : string) : SessionRegistry (S := S) * option (Session.RelaySession (S := S)) :=
  let '(reg, found) := Get id reg in (reg, match found with Some p => sessions reg !! p | None => None end).

(** An endpoint that shows [view] of the Session. *)
Definition show {B} (view : Session.RelaySession (S := S) → result Z B) (secret : list Z) (c : option nat) (now : Z) (a : A)
    (o : observation) (reg : SessionRegistry (S := S)) : SessionRegistry (S := S) * result Z B :=
  match authorizeObservation secret c now a o with
  | Err status => (reg, Err status)
  | Ok _ =>
    match observed reg (oPath o) with
    | (reg, None) => (reg, Err 404)
    | (reg, Some r) => (reg, view r)
    end
  end.

Definition roomHealth secret c now a o reg :=
  show (λ r, Ok (Session.BusHealthList now (DefaultMediaStallThresholdMs * Millisecond) r)) secret c now a o reg.

(** [packetLogHandler]: a limit that is absent is 100; one that is too large is cut. *)
Definition log_limit (o : observation) : option Z :=
  if bool_decide (oLimit o = "") then Some 100
  else match NamePolicy.Atoi (oLimit o) with
       | None => None
       | Some n => if n <? 1 then None else Some (if n >? packetLogMaxLimit then packetLogMaxLimit else n)
       end.
Definition packetLogHandler secret c now a o reg :=
  show (λ r,
    if bool_decide (oBus o = "") then Err 400
    else match log_limit o with
         | None => Err 400
         | Some limit => match Session.BusPacketLog (oBus o) limit r with Some entries => Ok entries | None => Err 404 end
         end) secret c now a o reg.

(** Who may look at a Session. *)
Definition may_observe (secret : list Z) (c : option nat) (now : Z) (a : A) (o : observation) (claims : Claims) : Prop :=
  verifyCapability secret c (oToken o) None now a = Ok claims ∧ cSessionID claims = oPath o ∧
  (CanControl claims = true ∨ cRole claims = RoleSubscriber).

Lemma observation_authorized secret c now a o claims :
  authorizeObservation secret c now a o = Ok claims →
  may_observe secret c now a o claims ∧ (oBus o ≠ "" → AllowsBus claims (oBus o) = true).
Proof.
  unfold authorizeObservation, may_observe. destruct (verifyCapability _ _ _ _ _ _) as [cl|[]]; try done.
  destruct (negb _ || _) eqn:E1; [done|]. destruct (negb _ && _) eqn:E2; [done|]. intros [= ->].
  rewrite orb_false_iff, !negb_false_iff, bool_decide_eq_true, orb_true_iff, bool_decide_eq_true in E1.
  rewrite andb_false_iff, !negb_false_iff, bool_decide_eq_true in E2. tauto.
Qed.

Lemma show_ok {B} (view : Session.RelaySession (S := S) → result Z B) secret c now a o reg reg' v :
  show view secret c now a o reg = (reg', Ok v) →
  ∃ claims r, may_observe secret c now a o claims ∧ (oBus o ≠ "" → AllowsBus claims (oBus o) = true) ∧
    (observed reg (oPath o)).2 = Some r ∧ view r = Ok v.
Proof.
  unfold show. destruct (authorizeObservation secret c now a o) as [claims|] eqn:Ha; [|done].
  destruct (observation_authorized _ _ _ _ _ _ Ha) as [Hm Hb]. destruct (observed reg (oPath o)) as [reg1 [r|]]; [|done].
  intros [= <- Hv]. by exists claims, r.
Qed.

(** Only the members of a Session see it, and only the buses they may use.
    Health is shown to the bearer of a capability for that Session that controls
    it or listens to it; a packet log is shown to such a bearer only of the one
    bus the request names, which its capability allows, and at most a thousand
    entries of it are asked for; other requests are refused with an error that
    does not depend on the Session's contents. *)
Theorem observations_are_scoped secret c now a o (reg : SessionRegistry (S := S)) :
  (∀ reg' v, roomHealth secret c now a o reg = (reg', Ok v) → ∃ claims, may_observe secret c now a o claims) ∧
  (∀ reg' entries, packetLogHandler secret c now a o reg = (reg', Ok entries) →
     ∃ claims r limit, may_observe secret c now a o claims ∧ AllowsBus claims (oBus o) = true ∧
       (observed reg (oPath o)).2 = Some r ∧ 1 <= limit <= 1000 ∧
       Session.BusPacketLog (oBus o) limit r = Some entries) ∧
  (∀ status, authorizeObservation secret c now a o = Err status →
     roomHealth secret c now a o reg = (reg, Err status) ∧ packetLogHandler secret c now a o reg = (reg, Err status)).
Proof.
  split_and!.
  - intros reg' v Hs. apply show_ok in Hs as (claims & r & Hm & _). eauto.
  - intros reg' entries Hs. apply show_ok in Hs as (claims & r & Hm & Hb & Ho & Hv).
    case_bool_decide as Hbus; [done|]. destruct (log_limit o) as [limit|] eqn:Hl; [|done].
    destruct (Session.BusPacketLog (oBus o) limit r) as [es|] eqn:He; [|done]. injection Hv as ->.
    exists claims, r, limit. split_and!; auto.
    all: revert Hl; unfold log_limit, packetLogMaxLimit; repeat (case_if; try done); try (intros [= <-]; lia);
      destruct (NamePolicy.Atoi (oLimit o)) as [n|]; try done; repeat case_if; try done; intros [= <-]; bool_hyps; lia.
  - intros status He. unfold roomHealth, packetLogHandler, show. by rewrite He.
Qed.
End Endpoints.
End Observations.

(** ** The webhook dispatcher *)

Module Webhook.

Definition maxConcurrentDeliveries : Z := 8.

(** [slots] is the number of tokens in the channel. *)
Record Dispatcher := mkDispatcher { url : string; slots : Z; droppedTotal : Z; errorsTotal : Z }.
Definition New (webhookURL : string) : Dispatcher := mkDispatcher webhookURL 0 0 0.

(** How a delivery ends: an error before or in the exchange, or a status. *)
Inductive outcome := MarshalError | RequestError | TransportError | Responded (status : Z).
Definition failed (o : outcome) : bool :=
  match o with Responded status => (status <? 200) || (status >=? 300) | _ => true end.

(** [Send]: whether a delivery was started. *)
Definition Send (d : Dispatcher) : Dispatcher * bool :=
  if bool_decide (url d = "") then (d, false)
  else if slots d <? maxConcurrentDeliveries then (mkDispatcher (url d) (slots d + 1) (droppedTotal d) (errorsTotal d), true)
  else (mkDispatcher (url d) (slots d) (i64 (droppedTotal d + 1)) (errorsTotal d), false).

(** The goroutine of a delivery: it counts a failure, and then gives its slot back. *)
Definition deliver_end (o : outcome) (d : Dispatcher) : Dispatcher :=
  mkDispatcher (url d) (slots d) (droppedTotal d) (if failed o then i64 (errorsTotal d + 1) else errorsTotal d).
Definition release (d : Dispatcher) : Dispatcher := mkDispatcher (url d) (slots d - 1) (droppedTotal d) (errorsTotal d).

(** The deliveries in progress: [None] until the exchange has ended. *)
Record world := mkWorld { disp : Dispatcher; deliveries : list (option outcome); started : Z; lost : Z; failures : Z; ended : Z }.
Definition start (webhookURL : string) : world := mkWorld (New webhookURL) [] 0 0 0 0.

Inductive action := Event | Ends (i : nat) (o : outcome) | Releases (i : nat).

Definition step (w : world) (a : action) : world :=
  match a with
  | Event =>
    let '(d, ok) := Send (disp w) in
    mkWorld d (if ok then deliveries w ++ [None] else deliveries w) (if ok then started w + 1 else started w)
      (if ok || bool_decide (url d = "") then lost w else lost w + 1) (failures w) (ended w)
  | Ends i o =>
    match deliveries w !! i with
    | Some None => mkWorld (deliver_end o (disp w)) (<[i := Some o]> (deliveries w)) (started w) (lost w)
                     (if failed o then failures w + 1 else failures w) (ended w)
    | _ => w
    end
  | Releases i =>
    match deliveries w !! i with
    | Some (Some _) => mkWorld (release (disp w)) (delete i (deliveries w)) (started w) (lost w) (failures w) (ended w + 1)
    | _ => w
    end
  end.

Definition run (w : world) (schedule : list action) : world := foldl step w schedule.

Definition books (w : world) : Prop :=
  slots (disp w) = len (deliveries w) ∧ slots (disp w) <= maxConcurrentDeliveries ∧
  started w = len (deliveries w) + ended w ∧
  droppedTotal (disp w) = i64 (lost w) ∧ errorsTotal (disp w) = i64 (failures w).

Lemma i64_succ x : i64 (i64 x + 1) = i64 (x + 1).
Proof.
  unfold i64. f_equal. replace ((x + 9223372036854775808) mod 18446744073709551616 - 9223372036854775808 + 1 + 9223372036854775808)
    with ((x + 9223372036854775808) mod 18446744073709551616 + 1) by lia.
  rewrite Zplus_mod_idemp_l. f_equal. lia.
Qed.

Lemma step_books w a : books w → books (step w a).
Proof.
  intros (H1 & H2 & H3 & H4 & H5). destruct a as [|i o|i]; cbn [step].
  - unfold Send. case_bool_decide as Hu; cbn.
    + rewrite bool_decide_true by done. by split_and!.
    + unfold maxConcurrentDeliveries in *. case_if; bool_hyps; cbn; unfold books; cbn.
      * unfold len, maxConcurrentDeliveries in *. rewrite length_app. cbn. split_and!; try done; lia.
      * rewrite bool_decide_false by done. cbn. split_and!; try done. by rewrite H4, i64_succ.
  - destruct (deliveries w !! i) as [[x|]|] eqn:Hi; [done| |done]. unfold books, deliver_end, len in *. cbn. rewrite length_insert.
    split_and!; try done. case_if; [by rewrite H5, i64_succ|done].
  - destruct (deliveries w !! i) as [[x|]|] eqn:Hi; [|done|done]. unfold books, release, len in *. cbn.
    pose proof (lookup_lt_Some _ _ _ Hi) as Hl. rewrite length_delete by eauto. split_and!; try done; lia.
Qed.

(** Webhook deliveries are bounded and accounted for.  However events and
    deliveries interleave, at most eight deliveries are in progress, each holding
    one slot; every delivery that was started is in progress or has given its slot
    back; and the two counters are exactly the events that were dropped for want
    of a slot and the deliveries that failed, modulo the range of the counters. *)
Theorem webhook_deliveries_bounded webhookURL schedule : books (run (start webhookURL) schedule).
Proof.
  assert (Hgen : ∀ w, books w → books (run w schedule)).
  { induction schedule as [|a schedule IH]; intros w Hw; [done|]. cbn. by apply IH, step_books. }
  apply Hgen. unfold books, maxConcurrentDeliveries. cbn. split_and!; try done; lia.
Qed.
End Webhook.
