(* ===== verification/Startup.v ===== *)
(** * Startup: configuration of a relay process

    Translates the environment parsing of [cmd/relay-server] ([environment.go],
    [turn.go] and the TURN settings of [main.go]), the checks of
    [internal/turn/server.go] before it binds, the defaults of [server.New]
    ([internal/server/server.go], [config.go]) and the origin policy
    ([signaling_http.go], [invitations.go]). *)

From S2P Require Export AccessHandler.

Module Environment.

Section Env.
Context (env : string → string).              (* os.Getenv *)

Definition getenv (key fallback : string) : string := if bool_decide (env key = "") then fallback else env key.

Definition getenvInt (key : string) (fallback : Z) : Z :=
  if bool_decide (env key = "") then fallback
  else match NamePolicy.Atoi (env key) with
       | None => fallback
       | Some parsed => if parsed <? 0 then fallback else parsed
       end.
End Env.

Definition comma : Ascii.ascii := Ascii.ascii_of_nat 44.

(** [strings.Split(s, ",")] *)
Fixpoint split_comma (part : list Ascii.ascii) (l : list Ascii.ascii) : list string :=
  match l with
  | [] => [Names.of_chars (rev part)]
  | c :: l' => if bool_decide (c = comma) then Names.of_chars (rev part) :: split_comma [] l' else split_comma (c :: part) l'
  end.

Definition splitComma (value : string) : list string :=
  filter (λ s, s ≠ "") (Names.TrimSpace <$> split_comma [] (Names.chars value)).

(** ** Origins *)

Definition parseOrigins (value : string) : list string := if bool_decide (value = "") then [] else splitComma value.

(** [upgrader.CheckOrigin] *)
Definition CheckOrigin (allowedOrigins : list string) (origin : string) : bool :=
  match allowedOrigins with
  | [] => true
  | _ => bool_decide (origin = "") || existsb (λ allowed, bool_decide (origin = allowed)) allowedOrigins
  end.

(** [setJoinCORS]: the value of Access-Control-Allow-Origin. *)
Definition setJoinCORS (allowedOrigins : list string) (origin : string) : option string :=
  match allowedOrigins with
  | [] => Some "*"
  | _ => if existsb (λ allowed, bool_decide (origin = allowed)) allowedOrigins then Some origin else None
  end.

(** A configured list as an operator writes it. *)
Definition plain (s : string) : Prop := s ≠ "" ∧ Names.TrimSpace s = s ∧ comma ∉ Names.chars s.
Definition commas (l : list string) : string := String.concat "," l.

Lemma split_comma_app part l rest :
  comma ∉ l → split_comma part (l ++ comma :: rest) = Names.of_chars (rev part ++ l) :: split_comma [] rest.
Proof.
  revert part. induction l as [|c l IH]; intros part Hl; cbn [split_comma app].
  - rewrite bool_decide_true by done. by rewrite app_nil_r.
  - rewrite not_elem_of_cons in Hl. destruct Hl as [Hc Hl]. rewrite bool_decide_false by done. rewrite IH by done. cbn [rev].
    by rewrite <- app_assoc.
Qed.

Lemma split_comma_last part l : comma ∉ l → split_comma part l = [Names.of_chars (rev part ++ l)].
Proof.
  revert part. induction l as [|c l IH]; intros part Hl; cbn [split_comma].
  - by rewrite app_nil_r.
  - rewrite not_elem_of_cons in Hl. destruct Hl as [Hc Hl]. rewrite bool_decide_false by done. rewrite IH by done. cbn [rev].
    by rewrite <- app_assoc.
Qed.

Lemma split_commas l : l ≠ [] → Forall plain l → split_comma [] (Names.chars (commas l)) = l.
Proof.
  intros Hne. induction 1 as [|x l (_ & _ & Hx) Hl IH]; [done|]. destruct l as [|y l].
  - cbn. rewrite split_comma_last by done. cbn. by rewrite Names.of_chars_chars.
  - change (commas (x :: y :: l)) with (x +:+ "," +:+ commas (y :: l))%string. rewrite !Names.chars_app.
    change (Names.chars ",") with [comma]. cbn [app]. rewrite split_comma_app by done. cbn [rev app].
    rewrite Names.of_chars_chars. f_equal. by apply IH.
Qed.

Lemma keep_plain l : Forall plain l → filter (λ s, s ≠ "") l = l.
Proof. induction 1 as [|x l (Hx & _) _ IH]; [done|]. rewrite filter_cons_True by done. by rewrite IH. Qed.

(** The origin policy is what the operator wrote.  A list of origins, separated
    by commas, is read back as that list, and then the two enforcement points
    agree on every browser request: the WebSocket upgrade accepts an origin
    exactly when the HTTP responses allow it to read them, which is when it is one
    of the list; without a list every origin is allowed. *)
Theorem origin_policy origins origin :
  Forall plain origins → origin ≠ "" →
  parseOrigins (commas origins) = origins ∧
  (CheckOrigin (parseOrigins (commas origins)) origin = true ↔
     is_Some (setJoinCORS (parseOrigins (commas origins)) origin)) ∧
  (CheckOrigin (parseOrigins (commas origins)) origin = true ↔ origins = [] ∨ origin ∈ origins).
Proof.
  intros Hp Ho. assert (Hparse : parseOrigins (commas origins) = origins).
  { destruct origins as [|x l]; [done|]. unfold parseOrigins. rewrite bool_decide_false.
    - unfold splitComma. rewrite split_commas by done.
      assert (Ht : Names.TrimSpace <$> x :: l = x :: l).
      { rewrite <- (list_fmap_id (x :: l)) at 2. apply Forall_fmap_ext. eapply Forall_impl; [exact Hp|]. by intros y (_ & Hy & _). }
      rewrite Ht. apply keep_plain, Hp.
    - apply Forall_cons in Hp as [(Hx & _) _]. destruct x as [|c x]; [done|]. by destruct l. }
  rewrite Hparse. split; [done|].
  assert (Hin : existsb (λ allowed, bool_decide (origin = allowed)) origins = true ↔ origin ∈ origins).
  { rewrite existsb_exists. setoid_rewrite bool_decide_eq_true. split.
    - intros (y & Hy & ->). by apply list_elem_of_In.
    - intros Hy. exists origin. split; [by apply list_elem_of_In|done]. }
  unfold CheckOrigin, setJoinCORS. destruct origins as [|x l]; [split; [split; [by eexists|done]|tauto]|].
  rewrite bool_decide_false by done. cbn [orb]. rewrite Hin. split.
  - destruct (existsb _ (x :: l)) eqn:E; rewrite <- Hin; split; try done; by intros [? ?].
  - split; [by right|]. by intros [?|?].
Qed.

Lemma origin_policy_witness :
  parseOrigins "https://a.example,https://b.example" = ["https://a.example"; "https://b.example"] ∧
  CheckOrigin (parseOrigins "https://a.example,https://b.example") "https://c.example" = false.
Proof.
  destruct (origin_policy ["https://a.example"; "https://b.example"] "https://c.example") as (Hp & _ & Hc).
  - repeat constructor; try done; apply (bool_decide_unpack _); vm_compute; exact I.
  - done.
  - split; [exact Hp|]. apply not_true_is_false. intros Ht. destruct (proj1 Hc Ht) as [He|He]; [discriminate|].
    revert He. apply (bool_decide_unpack _). vm_compute. exact I.
Defined.
End Environment.

(** ** The embedded TURN server *)

Module EmbeddedTurn.
Import Environment AccessHandler.

(** [turn.ServerConfig]; the TLS certificate is never set by this command. *)
Record ServerConfig := mkServerConfig {
  scPublicIP : string; scSecret : list Z; scUDPPort : Z; scTCPPort : Z; scTLSPort : Z; scTLSConfig : bool;
  scRelayMinPort : Z; scRelayMaxPort : Z }.

(** [relayAddressGenerator] accepts the port range. *)
Definition relayAddressGenerator (c : ServerConfig) : bool :=
  if (scRelayMinPort c =? 0) && (scRelayMaxPort c =? 0) then true
  else negb ((scRelayMinPort c <? 1024) || (scRelayMaxPort c >? 65535) || (scRelayMinPort c >? scRelayMaxPort c)).

Inductive transport := UDP | TCP | TLS.

(** [Start]: the ports it listens on, if [binds] that the system allows them. *)
Definition Start (binds : transport → Z → bool) (c : ServerConfig) : option (list (transport * Z)) :=
  if (scUDPPort c =? 0) && (scTCPPort c =? 0) && (scTLSPort c =? 0) then None
  else if negb (relayAddressGenerator c) then None
  else if (scTLSPort c >? 0) && negb (scTLSConfig c) then None
  else
    let wanted := (if scUDPPort c >? 0 then [(UDP, scUDPPort c)] else []) ++
                  (if scTCPPort c >? 0 then [(TCP, scTCPPort c)] else []) ++
                  (if scTLSPort c >? 0 then [(TLS, scTLSPort c)] else []) in
    if forallb (λ p, binds p.1 p.2) wanted then Some wanted else None.

Section Turn.
Context `{TurnAuth.HmacSha1}.
Context (env : string → string) (ParseIP : string → option string) (resolvePublicIP : option string)
        (binds : transport → Z → bool) (turnSecret : list Z).

Definition turnURLs (host : string) (udpPort tcpPort tlsPort : Z) : list string :=
  [("turn:" +:+ JoinHostPort host (NamePolicy.Itoa udpPort))%string] ++
  (if tcpPort >? 0 then [("turn:" +:+ JoinHostPort host (NamePolicy.Itoa tcpPort) +:+ "?transport=tcp")%string] else []) ++
  (if tlsPort >? 0 then [("turns:" +:+ JoinHostPort host (NamePolicy.Itoa tlsPort))%string] else []).

(** [setupTURN] at [now]: the servers given to clients and the ports listened on,
    or the process exits. *)
Definition setupTURN (now : Z) : option (list ICEServer * list (transport * Z)) :=
  if bool_decide (env "TURN_PUBLIC_IP" = "") then Some ([], [])
  else
    match (if bool_decide (Names.ToLower (env "TURN_PUBLIC_IP") = "auto") then resolvePublicIP else Some (env "TURN_PUBLIC_IP")) with
    | None => None
    | Some publicIPString =>
      match ParseIP publicIPString with
      | None => None
      | Some publicIP =>
        let udpPort := getenvInt env "TURN_UDP_PORT" 3478 in
        let tcpPort := getenvInt env "TURN_TCP_PORT" 3478 in
        let tlsPort := getenvInt env "TURN_TLS_PORT" 0 in
        match Start binds (mkServerConfig publicIP turnSecret udpPort tcpPort tlsPort false
                             (getenvInt env "TURN_RELAY_MIN_PORT" 0) (getenvInt env "TURN_RELAY_MAX_PORT" 0)) with
        | None => None
        | Some ports =>
          let '(username, password) := TurnAuth.Credentials turnSecret "relay" (2 * Hour) now in
          Some ([mkICE [("stun:" +:+ JoinHostPort publicIPString (NamePolicy.Itoa udpPort))%string] "" "";
                 mkICE (turnURLs publicIPString udpPort tcpPort tlsPort) username password], ports)
        end
      end
    end.

(** The TURN settings [main] gives to the Session service. *)
Definition service_turn : option TURNConfig :=
  if bool_decide (env "TURN_PUBLIC_IP" = "") then None
  else Some (mkTURN (env "TURN_PUBLIC_IP") turnSecret (getenvInt env "TURN_PORT" 3478) (getenvInt env "TURN_TLS_PORT" 5349) 0).

(** *** What is wrong with it *)

Lemma getenvInt_nonneg e key fallback : 0 <= fallback → 0 <= getenvInt e key fallback.
Proof. unfold getenvInt. intros Hf. case_if; [done|]. destruct (NamePolicy.Atoi _) as [n|]; [|done]. case_if; bool_hyps; lia. Qed.

Lemma setup_ports now servers ports :
  env "TURN_PUBLIC_IP" ≠ "" → setupTURN now = Some (servers, ports) →
  getenvInt env "TURN_TLS_PORT" 0 = 0 ∧ (∀ p, (TLS, p) ∉ ports) ∧
  ∃ host ips, servers = [mkICE ips "" "";
    mkICE (turnURLs host (getenvInt env "TURN_UDP_PORT" 3478) (getenvInt env "TURN_TCP_PORT" 3478) 0)
      (TurnAuth.Credentials turnSecret "relay" (2 * Hour) now).1 (TurnAuth.Credentials turnSecret "relay" (2 * Hour) now).2].
Proof.
  intros Hne. unfold setupTURN. rewrite bool_decide_false by done. destruct (if bool_decide _ then _ else _) as [host|]; [|done].
  destruct (ParseIP host) as [ip|]; [|done]. unfold Start. cbn [scUDPPort scTCPPort scTLSPort scTLSConfig].
  pose proof (getenvInt_nonneg env "TURN_TLS_PORT" 0 ltac:(done)) as Hn. set (tls := getenvInt env "TURN_TLS_PORT" 0) in *.
  case_if; [done|]. case_if; [done|]. rewrite andb_true_r. destruct (Z.gtb_spec tls 0) as [Ht|Ht]; [done|].
  assert (tls = 0) as -> by lia. destruct (forallb _ _); [|done].
  destruct (TurnAuth.Credentials turnSecret "relay" (2 * Hour) now) as [u p]. intros [= <- <-]. split; [done|]. split.
  - intros q. rewrite app_nil_r. repeat case_if; set_solver.
  - eauto.
Qed.

(** A relay that discovers its own address tells its clients to use a host named
    "auto".  With TURN enabled as the deployment file does it, by
    TURN_PUBLIC_IP=auto and no TLS port, a relay that starts has no TLS listener,
    and the Session service in it advertises STUN and TURN servers at the host
    "auto", one of them over TLS on port 5349. *)
Theorem auto_turn_is_advertised_literally now servers ports :
  env "TURN_PUBLIC_IP" = "auto" → env "TURN_PORT" = "" → env "TURN_TLS_PORT" = "" →
  setupTURN now = Some (servers, ports) →
  (∀ p, (TLS, p) ∉ ports) ∧
  ∃ c, service_turn = Some c ∧ ∀ sessionID at_,
    URLs <$> buildTURNICEServers c sessionID at_ =
      [["stun:auto:3478"]; ["turn:auto:3478?transport=udp"; "turn:auto:3478?transport=tcp"; "turns:auto:5349?transport=tcp"]].
Proof.
  intros Ha Hp Ht Hs. destruct (setup_ports now servers ports) as (_ & Hl & _); [by rewrite Ha|done|]. split; [done|].
  unfold service_turn. rewrite Ha, bool_decide_false by done. eexists. split; [done|]. intros sessionID at_.
  unfold getenvInt. rewrite Hp, Ht, !bool_decide_true by done. unfold buildTURNICEServers. cbn [PublicIP UDPPort TLSPort Secret CredentialTTLDuration].
  destruct (TurnAuth.Credentials _ _ _ _). reflexivity.
Qed.

End Turn.
End EmbeddedTurn.

Module TurnExample.
Import Environment AccessHandler EmbeddedTurn.
#[local] Instance no_hmac : TurnAuth.HmacSha1 := λ _ _, [].

(** The environment of the deployment file. *)
Definition deployed (key : string) : string :=
  if bool_decide (key = "TURN_PUBLIC_IP") then "auto"
  else if bool_decide (key = "TURN_UDP_PORT") || bool_decide (key = "TURN_TCP_PORT") then "3478"
  else if bool_decide (key = "TURN_RELAY_MIN_PORT") then "49160"
  else if bool_decide (key = "TURN_RELAY_MAX_PORT") then "49167" else "".
Definition resolved : option string := Some "192.0.2.7".
Definition setup (now : Z) := setupTURN deployed Some resolved (λ _ _, true) [] now.

Lemma auto_turn_is_advertised_literally_witness :
  ∃ servers ports c, setup 0 = Some (servers, ports) ∧ ports = [(UDP, 3478); (TCP, 3478)] ∧
    service_turn deployed [] = Some c ∧ PublicIP c = "auto" ∧ (∀ p, (TLS, p) ∉ ports).
Proof.
  destruct (setup 0) as [[servers ports]|] eqn:Hs; [|vm_compute in Hs; discriminate].
  destruct (auto_turn_is_advertised_literally deployed Some resolved (λ _ _, true) [] 0 servers ports
              ltac:(vm_compute; reflexivity) ltac:(vm_compute; reflexivity) ltac:(vm_compute; reflexivity) Hs) as (Hl & c & Hc & _).
  exists servers, ports, c. split_and!; [done| |exact Hc| |exact Hl].
  - vm_compute in Hs. by injection Hs as <- <-.
  - vm_compute in Hc. by injection Hc as <-.
Defined.

End TurnExample.

(** ** The limits of a server *)

Module ServerDefaults.

Definition defaultMaxRooms : Z := 100.
Definition defaultMaxListenersPerRoom : Z := 50.
Definition defaultMaxRoomsPerIPPerMinute : Z := 10.
Definition defaultMaxConcurrentHandshakes : Z := 128.
Definition defaultControlReconcileInterval : Z := 5 * Second.
Definition defaultControlAuthorityTimeout : Z := 5 * Second.

(** The numbers and names of [Config] that [New] resolves. *)
Record Config := mkConfig {
  MaxRooms : Z; MaxSubscribersPerRoom : Z; MaxRoomsPerIPPerMinute : Z; MaxConcurrentHandshakes : Z; MaxInvitations : Z;   (* int *)
  ControlAuthorityTimeout : Z; ControlReconcileInterval : Z;   (* time.Duration *)
  RelayEpoch : string; AuthorityMode : string }.

(** The same of [Server], with the limit of its Session registry, the capacity of
    its queue of state changes and the limit of its creation limiter. *)
Record Server := mkServer {
  maxRooms : Z; maxSubscribersPerRoom : Z; createLimit : Z; handshakes : Z; maxInvitations : Z;
  controlAuthorityTimeout : Z; controlReconcileInterval : Z; relayEpoch : string; authorityMode : string;
  registryMaxSubscriptions : Z; controlStateCapacity : Z }.

Definition or_default (n fallback : Z) : Z := if n <=? 0 then fallback else n.

(** [New]; [epoch] is the fresh identity. *)
Definition New (c : Config) (epoch : string) : Server :=
  let rooms := or_default (MaxRooms c) defaultMaxRooms in
  let subs := or_default (MaxSubscribersPerRoom c) defaultMaxListenersPerRoom in
  mkServer rooms subs
    (if MaxRoomsPerIPPerMinute c =? 0 then defaultMaxRoomsPerIPPerMinute else MaxRoomsPerIPPerMinute c)
    (or_default (MaxConcurrentHandshakes c) defaultMaxConcurrentHandshakes)
    (or_default (MaxInvitations c) (i64 (rooms * 4)))
    (if ControlAuthorityTimeout c <=? 0 then defaultControlAuthorityTimeout
     else if ControlAuthorityTimeout c >? defaultControlAuthorityTimeout then defaultControlAuthorityTimeout
     else ControlAuthorityTimeout c)
    (or_default (ControlReconcileInterval c) defaultControlReconcileInterval)
    (if bool_decide (RelayEpoch c = "") then epoch else RelayEpoch c)
    (if bool_decide (AuthorityMode c = "") then "standalone"%string else AuthorityMode c)
    subs rooms.

(** A server never starts without limits.  Whatever its configuration, the
    numbers of Sessions, listeners, handshakes and invitations it allows are
    positive, the queue of state changes has room for every Session, each Session
    enforces the limit on listeners that admission reserves against, an authority
    is given at most five seconds, and the process has an epoch of its own. *)
Theorem limits_in_force c epoch :
  MaxRooms c < 2 ^ 61 → epoch ≠ "" →
  let s := New c epoch in
  0 < maxRooms s ∧ 0 < maxSubscribersPerRoom s ∧ 0 < handshakes s ∧ 0 < maxInvitations s ∧
  controlStateCapacity s = maxRooms s ∧ registryMaxSubscriptions s = maxSubscribersPerRoom s ∧
  0 < controlAuthorityTimeout s <= 5 * Second ∧ 0 < controlReconcileInterval s ∧ relayEpoch s ≠ "".
Proof.
  intros Hr He. cbn. unfold or_default, defaultMaxRooms, defaultMaxListenersPerRoom, defaultMaxConcurrentHandshakes,
    defaultControlAuthorityTimeout, defaultControlReconcileInterval, Second in *.
  split_and!; repeat case_if; bool_hyps; try done; try lia; rewrite i64_small by (unfold_ints; lia); lia.
Qed.

Lemma limits_in_force_witness :
  maxInvitations (New (mkConfig 25 0 0 0 0 0 0 "" "") "e") = 100 ∧
  0 < maxInvitations (New (mkConfig 25 0 0 0 0 0 0 "" "") "e").
Proof.
  split; [reflexivity|]. refine (proj1 (proj2 (proj2 (proj2 (limits_in_force (mkConfig 25 0 0 0 0 0 0 "" "") "e" _ _))))).
  - vm_compute. reflexivity.
  - discriminate.
Defined.
End ServerDefaults.
