(* ===== verification/Sqlite.v ===== *)
(** * Sqlite: the store on disk, against the store in memory

    [Program]: a transaction of the access service is a program over the interface
    [storage.Tx], whatever store runs it; the transactions of [Access] and
    [Invitation] are such programs.

    [Sqlite] translates [access/storage/sqlite/sqlite.go].  The SQL statements are
    operations on tables, with the constraints of the schema; a statement, a
    check of the context or the commit may fail at any point.  The records are
    stored as JSON, whose encoder and parser are parameters. *)

From S2P Require Export Invitation.

Module Program.
Import Storage Token Access Invitation.

(** The operations of [storage.Tx], by the type of their answers. *)
Inductive call : Type → Type :=
| CSession (id : string) : call (option SessionRecord)
| CSessions (limit : Z) : call (list SessionRecord)
| CPutSession (r : SessionRecord) : call unit
| CDeleteSession (id : string) : call unit
| CGrant (locator : string) : call (option GrantRecord)
| CPutGrant (r : GrantRecord) : call unit
| CDeleteGrant (id : string) : call unit
| CReceipt (key : string) : call (option Receipt)
| CPutReceipt (r : Receipt) : call unit
| CCounts : call Counts
| CPruneExpired : call unit
| CNamespace : call Namespace
| CPutNamespace (n : Namespace) : call unit.

(** A callback: it reads the transaction's clock and calls its operations, whose
    errors it sees as values. *)
Inductive prog (A : Type) : Type :=
| Ret (a : A)
| Fail (err : error)
| Clock (k : Z → prog A)
| Call {B : Type} (c : call B) (k : result error B → prog A).
Arguments Ret {A} a.
Arguments Fail {A} err.
Arguments Clock {A} k.
Arguments Call {A B} c k.

Fixpoint bind {A B} (p : prog A) (f : A → prog B) : prog B :=
  match p with
  | Ret a => f a
  | Fail err => Fail err
  | Clock k => Clock (λ t, bind (k t) f)
  | Call c k => Call c (λ r, bind (k r) f)
  end.

(** [h] handles the outcome of [p], errors included. *)
Fixpoint handle {A B} (p : prog A) (h : result error A → prog B) : prog B :=
  match p with
  | Ret a => h (Ok a)
  | Fail err => h (Err err)
  | Clock k => Clock (λ t, handle (k t) h)
  | Call c k => Call c (λ r, handle (k r) h)
  end.

Definition call_tx {B} (c : call B) : prog B := Call c (λ r, match r with Ok b => Ret b | Err err => Fail err end).

(** Errors that do not come from the records: a cancelled context, a failing
    engine.  They end a strict program. *)
Definition disturbing (err : error) : Prop := err = ErrContext ∨ err = ErrStorage.

Fixpoint strict {A} (p : prog A) : Prop :=
  match p with
  | Ret _ | Fail _ => True
  | Clock k => ∀ t, strict (k t)
  | Call c k => (∀ err, disturbing err → k (Err err) = Fail err) ∧ ∀ r, strict (k r)
  end.

Lemma strict_bind {A B} (p : prog A) (f : A → prog B) : strict p → (∀ a, strict (f a)) → strict (bind p f).
Proof.
  intros Hp Hf. induction p as [a|err|k IH|B' c k IH]; cbn in *; [done|done|auto|].
  destruct Hp as [He Hp]. split; [|auto]. intros err Herr. by rewrite He.
Qed.

Lemma strict_handle {A B} (p : prog A) (h : result error A → prog B) :
  strict p → (∀ err, disturbing err → h (Err err) = Fail err) → (∀ r, strict (h r)) → strict (handle p h).
Proof.
  intros Hp Hs Hh. induction p as [a|err|k IH|B' c k IH]; cbn in *; [done|done|auto|].
  destruct Hp as [He Hp]. split; [|auto]. intros err Herr. rewrite He by done. by apply Hs.
Qed.

Lemma strict_call {B} (c : call B) : strict (call_tx c).
Proof. split; [done|]. by intros [b|err]. Qed.

Section InMemory.
Context `{RecordSizes}.

(** The operations of the store in memory. *)
Definition perform {B} (c : call B) : tx B :=
  match c with
  | CSession id => Session id
  | CSessions limit => Sessions limit
  | CPutSession r => PutSession r
  | CDeleteSession id => DeleteSession id
  | CGrant locator => Grant locator
  | CPutGrant r => PutGrant r
  | CDeleteGrant id => DeleteGrant id
  | CReceipt key => GetReceipt key
  | CPutReceipt r => PutReceipt r
  | CCounts => GetCounts
  | CPruneExpired => PruneExpired
  | CNamespace => GetNamespace
  | CPutNamespace n => PutNamespace n
  end.

Fixpoint in_memory {A} (p : prog A) : tx A :=
  match p with
  | Ret a => mret a
  | Fail err => fail err
  | Clock k => λ e s, in_memory (k (tx_now e)) e s
  | Call c k => λ e s, let '(s', r) := perform c e s in in_memory (k r) e s'
  end.

Lemma in_memory_bind {A B} (p : prog A) (f : A → prog B) e s :
  in_memory (bind p f) e s = (in_memory p ≫= λ a, in_memory (f a)) e s.
Proof.
  unfold mbind, tx_bind. revert s. induction p as [a|err|k IH|B' c k IH]; intros s; cbn; [done|done|apply IH|].
  destruct (perform c e s) as [s' r]. apply IH.
Qed.

Lemma in_memory_handle {A B} (p : prog A) (h : result error A → prog B) e s :
  in_memory (handle p h) e s = in_memory (h (in_memory p e s).2) e (in_memory p e s).1.
Proof.
  revert s. induction p as [a|err|k IH|B' c k IH]; intros s; cbn; [done|done|apply IH|].
  destruct (perform c e s) as [s' r]. apply IH.
Qed.

(** The transaction [m] is the program [program] over the interface. *)
Class Transaction {A} (m : tx A) := mkTransaction {
  program : prog A;
  program_strict : strict program;
  program_runs : ∀ e s, m e s = in_memory program e s }.
#[global] Arguments program {A} m {_}.

#[export] Instance transaction_ret {A} (a : A) : Transaction (mret a).
Proof. by exists (Ret a). Defined.
#[export] Instance transaction_fail {A} err : Transaction (fail (A := A) err).
Proof. by exists (Fail err). Defined.
#[export] Instance transaction_Now : Transaction Now.
Proof. by exists (Clock Ret). Defined.

Lemma call_runs {B} (c : call B) e s : perform c e s = in_memory (call_tx c) e s.
Proof. cbn [in_memory call_tx]. by destruct (perform c e s) as [s' [b|err]]. Qed.

#[export] Instance transaction_Session id : Transaction (Session id) :=
  mkTransaction _ _ (call_tx (CSession id)) (strict_call _) (call_runs (CSession id)).
#[export] Instance transaction_Sessions limit : Transaction (Sessions limit) :=
  mkTransaction _ _ (call_tx (CSessions limit)) (strict_call _) (call_runs (CSessions limit)).
#[export] Instance transaction_PutSession r : Transaction (PutSession r) :=
  mkTransaction _ _ (call_tx (CPutSession r)) (strict_call _) (call_runs (CPutSession r)).
#[export] Instance transaction_DeleteSession id : Transaction (DeleteSession id) :=
  mkTransaction _ _ (call_tx (CDeleteSession id)) (strict_call _) (call_runs (CDeleteSession id)).
#[export] Instance transaction_Grant locator : Transaction (Grant locator) :=
  mkTransaction _ _ (call_tx (CGrant locator)) (strict_call _) (call_runs (CGrant locator)).
#[export] Instance transaction_PutGrant r : Transaction (PutGrant r) :=
  mkTransaction _ _ (call_tx (CPutGrant r)) (strict_call _) (call_runs (CPutGrant r)).
#[export] Instance transaction_DeleteGrant id : Transaction (DeleteGrant id) :=
  mkTransaction _ _ (call_tx (CDeleteGrant id)) (strict_call _) (call_runs (CDeleteGrant id)).
#[export] Instance transaction_GetReceipt key : Transaction (GetReceipt key) :=
  mkTransaction _ _ (call_tx (CReceipt key)) (strict_call _) (call_runs (CReceipt key)).
#[export] Instance transaction_PutReceipt r : Transaction (PutReceipt r) :=
  mkTransaction _ _ (call_tx (CPutReceipt r)) (strict_call _) (call_runs (CPutReceipt r)).
#[export] Instance transaction_GetCounts : Transaction GetCounts :=
  mkTransaction _ _ (call_tx CCounts) (strict_call _) (call_runs CCounts).
#[export] Instance transaction_PruneExpired : Transaction PruneExpired :=
  mkTransaction _ _ (call_tx CPruneExpired) (strict_call _) (call_runs CPruneExpired).
#[export] Instance transaction_GetNamespace : Transaction GetNamespace :=
  mkTransaction _ _ (call_tx CNamespace) (strict_call _) (call_runs CNamespace).
#[export] Instance transaction_PutNamespace n : Transaction (PutNamespace n) :=
  mkTransaction _ _ (call_tx (CPutNamespace n)) (strict_call _) (call_runs (CPutNamespace n)).

#[export] Instance transaction_bind {A B} (m : tx A) (f : A → tx B) :
  Transaction m → (∀ a, Transaction (f a)) → Transaction (m ≫= f).
Proof.
  intros Hm Hf. exists (bind (program m) (λ a, program (f a))).
  - apply strict_bind; [apply program_strict|]. intros a. apply program_strict.
  - intros e s. rewrite in_memory_bind. unfold mbind, tx_bind. rewrite program_runs.
    destruct (in_memory (program m) e s) as [s' [a|err]]; [apply program_runs|done].
Defined.

#[export] Instance transaction_guard b err : Transaction (guard_tx b err).
Proof. unfold guard_tx. destruct b; apply _. Defined.
#[export] Instance transaction_if {A} (b : bool) (m1 m2 : tx A) :
  Transaction m1 → Transaction m2 → Transaction (if b then m1 else m2).
Proof. by destruct b. Defined.
#[export] Instance transaction_option {A B} (o : option B) (f : B → tx A) (m : tx A) :
  (∀ b, Transaction (f b)) → Transaction m → Transaction (match o with Some b => f b | None => m end).
Proof. by destruct o. Defined.
End InMemory.

(** ** The transactions of the access service *)

Section Service.
Context `{RecordSizes} `{Jwt}.

#[export] Instance transaction_lift {A} (r : result error A) : Transaction (lift r).
Proof. destruct r; apply _. Defined.
#[export] Instance transaction_reset_rows rows : Transaction (reset_rows rows).
Proof. induction rows; apply _. Defined.
#[export] Instance transaction_delete_rows rows : Transaction (delete_rows rows).
Proof. induction rows; apply _. Defined.
#[export] Instance transaction_on_no_rows {A} err (m : tx A) : Transaction m → Transaction (on_no_rows err m).
Proof.
  intros Hm. exists (handle (program m) (λ r, match r with Ok a => Ret a | Err ErrNoRows => Fail err | Err e => Fail e end)).
  - apply strict_handle; [apply program_strict|by intros err' [->| ->]|]. by intros [a|[]].
  - intros e s. rewrite in_memory_handle. unfold on_no_rows. rewrite program_runs.
    by destruct (in_memory (program m) e s) as [s' [a|[]]].
Defined.
#[export] Instance transaction_try_conflict (m : tx unit) : Transaction m → Transaction (try_conflict m).
Proof.
  intros Hm.
  exists (handle (program m) (λ r, match r with Ok _ => Ret true | Err ErrConflict => Ret false | Err e => Fail e end)).
  - apply strict_handle; [apply program_strict|by intros err' [->| ->]|]. by intros [a|[]].
  - intros e s. rewrite in_memory_handle. unfold try_conflict. rewrite program_runs.
    by destruct (in_memory (program m) e s) as [s' [a|[]]].
Defined.
#[export] Instance transaction_open c fresh : Transaction (open_tx c fresh) := _.
#[export] Instance transaction_reset n fresh : Transaction (reset_tx n fresh) := _.
#[export] Instance transaction_checkWriter s : Transaction (checkWriter s) := _.
#[export] Instance transaction_update {A} s (fn : tx A) : Transaction fn → Transaction (update_tx s fn) := _.
#[export] Instance transaction_active s id : Transaction (active s id) := _.
#[export] Instance transaction_sign s r c ttl now jti : Transaction (sign_tx s r c ttl now jti).
Proof. unfold sign_tx. destruct (SignProfile _ _ _ _ _ _ _) as [e|[]]; apply _. Defined.
#[export] Instance transaction_create s required id jti : Transaction (create_tx s required id jti) := _.
#[export] Instance transaction_get s id : Transaction (get_tx s id) := _.
#[export] Instance transaction_delete s id : Transaction (delete_tx s id) := _.
#[export] Instance transaction_issue s id bus role jti : Transaction (issue_tx s id bus role jti) := _.
#[export] Instance transaction_apply s id sn : Transaction (apply_tx s id sn) := _.
#[export] Instance transaction_authorize s id e : Transaction (authorize_tx s id e) := _.
#[export] Instance transaction_acquire s id epoch n : Transaction (acquire_tx s id epoch n) := _.
#[export] Instance transaction_renew s id e jti : Transaction (renew_tx s id e jti) := _.

Context `{Digests} `{Uuid} (tables : Lexicon.lexicon).

#[export] Instance transaction_allocate n r id bus policy now collisions random :
  Transaction (allocate tables n r id bus policy now collisions random).
Proof.
  revert collisions random. induction n as [|n IH]; intros collisions random; cbn [allocate]; [apply _|].
  destruct (Names.Generate _ _ _) as [[name rest]|]; [|apply _]. apply transaction_bind; [apply _|].
  intros [g|]; [apply IH|]. destruct (randomSessionID rest) as [[code rest1]|]; [|apply _].
  destruct (randomSessionID rest1) as [[grantID rest2]|]; apply _.
Defined.
#[export] Instance transaction_invite s id bus policy random : Transaction (invite_tx tables s id bus policy random) := _.
#[export] Instance transaction_inspect s locator : Transaction (inspect_tx tables s locator) := _.
#[export] Instance transaction_replay s locator code receipt : Transaction (replay s locator code receipt) := _.
#[export] Instance transaction_consume s locator code key encode jti :
  Transaction (consume tables s locator code key encode jti) := _.
#[export] Instance transaction_redeem s locator code key encode jti :
  Transaction (redeem_tx tables s locator code key encode jti).
Proof.
  unfold redeem_tx. apply transaction_bind; [apply _|]. intros [receipt|]; [apply _|].
  apply transaction_bind; [apply _|]. intros [response resolved]. apply _.
Defined.
End Service.
End Program.

Module Sqlite.
Import Storage Program.

(** [json.Marshal] and [json.Unmarshal] on the records. *)
Class RecordJson := {
  json_session : SessionRecord → option (list Z);
  json_grant : GrantRecord → option (list Z);
  json_receipt : Receipt → option (list Z);
  json_namespace : Namespace → option (list Z);
  parse_session : list Z → option SessionRecord;
  parse_grant : list Z → option GrantRecord;
  parse_receipt : list Z → option Receipt;
  parse_namespace : list Z → option Namespace }.

(** ** The schema *)

Record row := mkRow { expires_at : Z; payload : list Z }.
Record owned := mkOwned { session_id : string; contents : row }.

(** The tables by primary key; [access_namespace] has at most the row 1, and a row
    of [access_locators] is its [grant_id]. *)
Record tables := mkTables {
  access_namespace : option (list Z);
  access_sessions : gmap string row;
  access_grants : gmap string owned;
  access_locators : gmap string string;
  access_receipts : gmap string owned }.

Definition schema : tables := mkTables None ∅ ∅ ∅ ∅.

(** ** The statements

    [None] is a violated constraint. *)

Definition upsert_namespace (data : list Z) (t : tables) : option tables :=
  Some (mkTables (Some data) (access_sessions t) (access_grants t) (access_locators t) (access_receipts t)).

Definition upsert_session (id : string) (r : row) (t : tables) : option tables :=
  Some (mkTables (access_namespace t) (<[id := r]> (access_sessions t)) (access_grants t) (access_locators t)
          (access_receipts t)).

(** Whether the row [id] is one of those a [WHERE] clause selects. *)
Definition selected {A} (where_ : string → A → bool) (m : gmap string A) (id : string) : bool :=
  match m !! id with Some r => where_ id r | None => false end.

(** The rows that reference a deleted row are deleted with it. *)
Definition delete_grants (where_ : string → owned → bool) (t : tables) : option tables :=
  Some (mkTables (access_namespace t) (access_sessions t)
          (filter (λ kv, selected where_ (access_grants t) kv.1 = false) (access_grants t))
          (filter (λ kv, selected where_ (access_grants t) kv.2 = false) (access_locators t)) (access_receipts t)).

Definition delete_receipts (where_ : string → owned → bool) (t : tables) : option tables :=
  Some (mkTables (access_namespace t) (access_sessions t) (access_grants t) (access_locators t)
          (filter (λ kv, where_ kv.1 kv.2 = false) (access_receipts t))).

Definition delete_sessions (where_ : string → row → bool) (t : tables) : option tables :=
  t1 ← delete_grants (λ _ g, selected where_ (access_sessions t) (session_id g)) t;
  t2 ← delete_receipts (λ _ r, selected where_ (access_sessions t) (session_id r)) t1;
  Some (mkTables (access_namespace t2)
          (filter (λ kv, selected where_ (access_sessions t) kv.1 = false) (access_sessions t2)) (access_grants t2)
          (access_locators t2) (access_receipts t2)).

Definition insert_grant (id : string) (g : owned) (t : tables) : option tables :=
  guard (access_grants t !! id = None ∧ is_Some (access_sessions t !! session_id g));;
  Some (mkTables (access_namespace t) (access_sessions t) (<[id := g]> (access_grants t)) (access_locators t)
          (access_receipts t)).

Definition insert_locator (locator grant : string) (t : tables) : option tables :=
  guard (access_locators t !! locator = None ∧ is_Some (access_grants t !! grant));;
  Some (mkTables (access_namespace t) (access_sessions t) (access_grants t) (<[locator := grant]> (access_locators t))
          (access_receipts t)).

Definition insert_receipt (id : string) (r : owned) (t : tables) : option tables :=
  guard (access_receipts t !! id = None ∧ is_Some (access_sessions t !! session_id r));;
  Some (mkTables (access_namespace t) (access_sessions t) (access_grants t) (access_locators t)
          (<[id := r]> (access_receipts t))).

(** [SELECT payload FROM access_sessions ORDER BY id LIMIT n]; no limit if [n] is
    negative. *)
Definition select_sessions (n : Z) (t : tables) : list (list Z) :=
  let rows := (λ kr, payload kr.2) <$> sort_keys (map_to_list (access_sessions t)) in
  if n <? 0 then rows else take (Z.to_nat n) rows.

(** [SELECT g.payload FROM access_grants g JOIN access_locators l ...] *)
Definition select_grant (locator : string) (t : tables) : option (list Z) :=
  id ← access_locators t !! locator; payload ∘ contents <$> access_grants t !! id.

(** ** A transaction *)

(** What can go wrong with a statement or a check of the context. *)
Inductive fault := Canceled | Broken.
Definition fault_error (f : fault) : error := match f with Canceled => ErrContext | Broken => ErrStorage end.

(** The tables as the transaction sees them, and the faults to come. *)
Record conn := mkConn { private : tables; faults : list (option fault) }.

Definition sql (A : Type) : Type := env → conn → conn * result error A.
#[export] Instance sql_ret : MRet sql := λ A a e s, (s, Ok a).
#[export] Instance sql_bind : MBind sql := λ A B f m e s,
  match m e s with
  | (s', Ok a) => f a e s'
  | (s', Err err) => (s', Err err)
  end.
Definition sql_fail {A} (err : error) : sql A := λ e s, (s, Err err).

(** A point where a fault can strike. *)
Definition point : sql unit := λ e s,
  match faults s with
  | [] => (s, Ok tt)
  | None :: l => (mkConn (private s) l, Ok tt)
  | Some f :: l => (mkConn (private s) l, Err (fault_error f))
  end.

Definition select {A} (f : tables → A) : sql A := λ e s, (s, Ok (f (private s))).
Definition apply (f : tables → option tables) : sql unit := λ e s,
  match f (private s) with
  | Some t => (mkConn t (faults s), Ok tt)
  | None => (s, Err ErrStorage)
  end.
Definition check_mode : sql unit := λ e s,
  if decide (mode e = writeTransaction) then (s, Ok tt) else (s, Err ErrReadOnly).

Definition query {A} (f : tables → A) : sql A := point ≫= λ _, select f.

(** [t.write()], [t.exec], [t.load], [encode] *)
Definition write : sql unit := point ≫= λ _, check_mode.

Definition exec (f : tables → option tables) : sql unit := write ≫= λ _, point ≫= λ _, apply f.

Definition decode {A} (parse : list Z → option A) (data : list Z) : sql A :=
  if len data >? MaxRecordBytes then sql_fail ErrCapacity
  else match parse data with Some r => mret r | None => sql_fail ErrStorage end.

Definition load {A} (parse : list Z → option A) (f : tables → option (list Z)) : sql (option A) :=
  query f ≫= λ o, match o with None => mret None | Some data => decode parse data ≫= λ r, mret (Some r) end.

Definition encode (json : option (list Z)) : sql (list Z) :=
  match json with
  | None => sql_fail ErrStorage
  | Some data => if len data >? MaxRecordBytes then sql_fail ErrCapacity else mret data
  end.

Section Transaction.
Context `{RecordJson}.

Definition Session (id : string) : sql (option SessionRecord) :=
  load parse_session (λ t, payload <$> access_sessions t !! id).

(** The loop over the rows of [Sessions]. *)
Fixpoint scan (limit : Z) (rows : list (list Z)) (result : list SessionRecord) : sql (list SessionRecord) :=
  match rows with
  | [] => mret result
  | data :: rows' =>
    if len result >=? limit then sql_fail ErrCapacity
    else decode parse_session data ≫= λ r, scan limit rows' (result ++ [r])
  end.

Definition Sessions (limit : Z) : sql (list SessionRecord) :=
  if limit <? 0 then sql_fail ErrCapacity
  else query (select_sessions (i64 (limit + 1))) ≫= λ rows, scan limit rows [] ≫= λ result,
    point ≫= λ _, mret result.                                     (* rows.Err() *)

Definition PutSession (r : SessionRecord) : sql unit :=
  encode (json_session r) ≫= λ data, exec (upsert_session (seID r) (mkRow (UnixNano (seExpiresAt r)) data)).

Definition DeleteSession (id : string) : sql unit := exec (delete_sessions (λ k _, bool_decide (k = id))).

Definition Grant (locator : string) : sql (option GrantRecord) := load parse_grant (select_grant locator).

Definition conflict_if (b : bool) : sql unit := if b then sql_fail ErrConflict else mret tt.

Definition PutGrant (r : GrantRecord) : sql unit :=
  write ≫= λ _,
  conflict_if (bool_decide (grID r = "") || bool_decide (grJoinCode r = "") || bool_decide (grAlias r = "") ||
               bool_decide (grJoinCode r = grAlias r)) ≫= λ _,
  Session (grSessionID r) ≫= λ o, conflict_if (bool_decide (o = None)) ≫= λ _,
  Grant (grJoinCode r) ≫= λ o, conflict_if (bool_decide (is_Some o)) ≫= λ _,
  Grant (grAlias r) ≫= λ o, conflict_if (bool_decide (is_Some o)) ≫= λ _,
  load parse_grant (λ t, payload ∘ contents <$> access_grants t !! grID r) ≫= λ o,
  conflict_if (bool_decide (is_Some o)) ≫= λ _,
  encode (json_grant r) ≫= λ data,
  exec (insert_grant (grID r) (mkOwned (grSessionID r) (mkRow (UnixNano (grExpiresAt r)) data))) ≫= λ _,
  exec (λ t, t ← insert_locator (grJoinCode r) (grID r) t; insert_locator (grAlias r) (grID r) t).

Definition DeleteGrant (id : string) : sql unit := exec (delete_grants (λ k _, bool_decide (k = id))).

Definition GetReceipt (key : string) : sql (option Receipt) :=
  load parse_receipt (λ t, payload ∘ contents <$> access_receipts t !! key).

Definition PutReceipt (r : Receipt) : sql unit :=
  write ≫= λ _,
  Session (rcSessionID r) ≫= λ o, conflict_if (bool_decide (o = None)) ≫= λ _,
  GetReceipt (rcKey r) ≫= λ o, conflict_if (bool_decide (is_Some o)) ≫= λ _,
  encode (json_receipt r) ≫= λ data,
  exec (insert_receipt (rcKey r) (mkOwned (rcSessionID r) (mkRow (UnixNano (rcExpiresAt r)) data))).

Definition GetCounts : sql Counts :=
  query (λ t, mkCounts (Z.of_nat (size (access_sessions t))) (Z.of_nat (size (access_grants t)))
                (Z.of_nat (size (access_receipts t)))).

Definition due (now : Z) (r : row) : bool := expires_at r <=? UnixNano now.

Definition PruneExpired : sql unit := λ e,
  (exec (delete_sessions (λ _, due (tx_now e))) ≫= λ _,
   exec (delete_grants (λ _ g, due (tx_now e) (contents g))) ≫= λ _,
   exec (delete_receipts (λ _ r, due (tx_now e) (contents r)))) e.

Definition GetNamespace : sql Namespace :=
  load parse_namespace access_namespace ≫= λ o, mret (default no_namespace o).

Definition PutNamespace (n : Namespace) : sql unit :=
  encode (json_namespace n) ≫= λ data, exec (upsert_namespace data).

Definition perform {B} (c : call B) : sql B :=
  match c with
  | CSession id => Session id
  | CSessions limit => Sessions limit
  | CPutSession r => PutSession r
  | CDeleteSession id => DeleteSession id
  | CGrant locator => Grant locator
  | CPutGrant r => PutGrant r
  | CDeleteGrant id => DeleteGrant id
  | CReceipt key => GetReceipt key
  | CPutReceipt r => PutReceipt r
  | CCounts => GetCounts
  | CPruneExpired => PruneExpired
  | CNamespace => GetNamespace
  | CPutNamespace n => PutNamespace n
  end.

Fixpoint on_disk {A} (p : prog A) : sql A :=
  match p with
  | Ret a => mret a
  | Fail err => sql_fail err
  | Clock k => λ e s, on_disk (k (tx_now e)) e s
  | Call c k => λ e s, let '(s', r) := perform c e s in on_disk (k r) e s'
  end.

(** ** The store *)

Record Store := mkStore { database : tables; closed : bool }.

(** How the engine answers [COMMIT]: it may carry it out and fail to say so. *)
Inductive commit := Committed | Rejected | Unacknowledged.

(** [run]: the connection, [BEGIN], the check of the context, the callback, the
    check again and [COMMIT]; without a commit the deferred [ROLLBACK] leaves the
    database as it was. *)
Definition run {A} (m : transactionMode) (l : list (option fault)) (c : commit) (now : Z) (p : prog A) (s : Store)
  : Store * result error A :=
  if closed s then (s, Err ErrStorage)
  else
    match (point ≫= λ _, point ≫= λ _, point ≫= λ _, on_disk p ≫= λ a, point ≫= λ _, mret a)
            (mkEnv m now) (mkConn (database s) l) with
    | (_, Err err) => (s, Err err)
    | (s', Ok a) =>
      match c with
      | Committed => (mkStore (private s') false, Ok a)
      | Rejected => (s, Err ErrStorage)
      | Unacknowledged => (mkStore (private s') false, Err ErrStorage)
      end
    end.

Definition Close (s : Store) : Store := mkStore (database s) true.
End Transaction.

(** The database file: its permission bits, its [user_version] and its tables; a
    file that [os.OpenFile] creates has the mode 0600 and no tables yet. *)
Record file := mkFile { perm : Z; user_version : Z; saved : tables }.
Definition created : file := mkFile 384 0 schema.

(** [Open].  [absolute] is what [filepath.Abs] answers, and the file at that path, if
    there is one, is [disk]; a fault can strike each call to the operating system
    and each statement.  The schema creates only what is not there. *)
Definition Open (path : string) (absolute : option string) (l : list (option fault)) (disk : option file)
  : option file * result error Store :=
  if bool_decide (path = "") then (disk, Err ErrStorage)
  else match absolute with
  | None => (disk, Err ErrStorage)
  | Some _ =>
    match l !! 0%nat with
    | Some (Some _) => (disk, Err ErrStorage)                                (* os.OpenFile *)
    | _ =>
      let f := default created disk in
      match l !! 1%nat with
      | Some (Some _) => (Some f, Err ErrStorage)                            (* file.Stat, file.Close *)
      | _ =>
        if negb (Z.land (perm f) 63 =? 0) then (Some f, Err ErrStorage)
        else match l !! 2%nat with
        | Some (Some r) => (Some f, Err (fault_error r))                     (* PRAGMA user_version *)
        | _ =>
          if user_version f >? SchemaVersion then (Some f, Err ErrStorage)
          else match l !! 3%nat with
          | Some (Some r) => (Some f, Err (fault_error r))                   (* the schema *)
          | _ => (Some (mkFile (perm f) SchemaVersion (saved f)), Ok (mkStore (saved f) false))
          end
        end
      end
    end
  end.

(** ** Faults

    A program that no fault strikes does what it does without faults; otherwise it
    reports the fault. *)

Definition calm (l : list (option fault)) : Prop := Forall (λ f, f = None) l.

Definition undisturbed {A} (m : sql A) (e : env) (t : tables) : tables * result error A :=
  (private (m e (mkConn t [])).1, (m e (mkConn t [])).2).

Class Interruptible {A} (m : sql A) : Prop := {
  interruptible : ∀ e t l,
    (∃ l', m e (mkConn t l) = (mkConn (undisturbed m e t).1 l', (undisturbed m e t).2) ∧ (calm l → calm l')) ∨
    (∃ f, (m e (mkConn t l)).2 = Err (fault_error f) ∧ ¬ calm l);
  no_new_faults : ∀ e t, faults (m e (mkConn t [])).1 = [] }.

Lemma undisturbed_state {A} (m : sql A) `{!Interruptible m} e t :
  m e (mkConn t []) = (mkConn (undisturbed m e t).1 [], (undisturbed m e t).2).
Proof.
  unfold undisturbed. pose proof (no_new_faults (m := m) e t). destruct (m e (mkConn t [])) as [[t' l'] r]. cbn in *. by subst.
Qed.

Lemma undisturbed_bind {A B} (m : sql A) (f : A → sql B) `{!Interruptible m} e t :
  undisturbed (m ≫= f) e t =
  match (undisturbed m e t).2 with
  | Ok a => undisturbed (f a) e (undisturbed m e t).1
  | Err err => ((undisturbed m e t).1, Err err)
  end.
Proof.
  unfold undisturbed at 1. unfold mbind, sql_bind. rewrite (undisturbed_state m). by destruct (undisturbed m e t) as [t' [a|err]].
Qed.

#[export] Instance interruptible_local {A} (m : sql A) :
  (∀ e t l, m e (mkConn t l) = (mkConn (undisturbed m e t).1 l, (undisturbed m e t).2)) → Interruptible m | 10.
Proof.
  intros Hm. split; intros e t; [|by rewrite Hm]. intros l. left. exists l. by rewrite Hm.
Qed.

#[export] Instance interruptible_ret {A} (a : A) : Interruptible (mret a).
Proof. by apply interruptible_local. Qed.
#[export] Instance interruptible_fail {A} err : Interruptible (sql_fail (A := A) err).
Proof. by apply interruptible_local. Qed.
#[export] Instance interruptible_select {A} (f : tables → A) : Interruptible (select f).
Proof. by apply interruptible_local. Qed.
#[export] Instance interruptible_apply f : Interruptible (apply f).
Proof. apply interruptible_local. intros e t l. unfold undisturbed, apply. cbn. by destruct (f t). Qed.
#[export] Instance interruptible_check_mode : Interruptible check_mode.
Proof. apply interruptible_local. intros e t l. unfold undisturbed, check_mode. by case_decide. Qed.

#[export] Instance interruptible_point : Interruptible point.
Proof.
  split; [|done]. intros e t [|[f|] l]; cbn.
  - left. by exists [].
  - right. exists f. split; [done|]. by inversion 1.
  - left. exists l. split; [done|]. by inversion 1.
Qed.

#[export] Instance interruptible_bind {A B} (m : sql A) (f : A → sql B) :
  Interruptible m → (∀ a, Interruptible (f a)) → Interruptible (m ≫= f).
Proof.
  intros Hm Hf. split.
  - intros e t l. rewrite undisturbed_bind by done. unfold mbind, sql_bind.
    destruct (interruptible (m := m) e t l) as [(l' & Hl & Hc)|(f' & Hl & Hc)].
    + rewrite Hl. destruct (undisturbed m e t) as [t' [a|err]]; cbn [fst snd]; [|left; by exists l'].
      destruct (interruptible (m := f a) e t' l') as [(l'' & Hl' & Hc')|(f' & Hl' & Hc')].
      * left. exists l''. rewrite Hl'. auto.
      * right. exists f'. rewrite Hl'. auto.
    + right. exists f'. destruct (m e (mkConn t l)) as [s [a|err]]; cbn in *; [done|]. split; [congruence|done].
  - intros e t. unfold mbind, sql_bind. rewrite (undisturbed_state m). destruct (undisturbed m e t) as [t' [a|err]]; [|done].
    apply no_new_faults.
Qed.

#[export] Instance interruptible_if {A} (b : bool) (m1 m2 : sql A) :
  Interruptible m1 → Interruptible m2 → Interruptible (if b then m1 else m2).
Proof. by destruct b. Qed.
#[export] Instance interruptible_option {A B} (o : option B) (f : B → sql A) (m : sql A) :
  (∀ b, Interruptible (f b)) → Interruptible m → Interruptible (match o with Some b => f b | None => m end).
Proof. by destruct o. Qed.
#[export] Instance interruptible_option' {A B} (o : option B) (f : B → sql A) (m : sql A) :
  (∀ b, Interruptible (f b)) → Interruptible m → Interruptible (match o with None => m | Some b => f b end).
Proof. by destruct o. Qed.

Section Refinement.
Context `{RecordJson} `{RecordSizes}.

#[export] Instance interruptible_scan limit rows result : Interruptible (scan limit rows result).
Proof. revert result. induction rows as [|data rows IH]; intros result; cbn; [apply _|]. unfold decode. apply _. Qed.

#[export] Instance interruptible_PruneExpired : Interruptible PruneExpired.
Proof.
  assert (Hm : ∀ e, Interruptible (exec (delete_sessions (λ _, due (tx_now e))) ≫= λ _,
     exec (delete_grants (λ _ g, due (tx_now e) (contents g))) ≫= λ _,
     exec (delete_receipts (λ _ r, due (tx_now e) (contents r))))) by (intros e; unfold exec, write; apply _).
  split; intros e t; [intros l; apply (interruptible (Interruptible := Hm e) e t l)|apply (no_new_faults (Interruptible := Hm e))].
Qed.

#[export] Instance interruptible_perform {B} (c : call B) : Interruptible (perform c).
Proof.
  destruct c; cbn [perform]; try apply _;
    unfold Session, Sessions, PutSession, DeleteSession, Grant, PutGrant, DeleteGrant, GetReceipt, PutReceipt, GetCounts,
      GetNamespace, PutNamespace, Session, Grant, GetReceipt, load, decode, encode, conflict_if, exec, write, query; apply _.
Qed.

(** ** What the tables show *)

(** A record that survives its encoding, whose length is what [RecordSizes] says. *)
Definition faithful {A} (json : A → option (list Z)) (parse : list Z → option A) (bytes : A → Z) (r : A) : Prop :=
  ∃ data, json r = Some data ∧ parse data = Some r ∧ len data = bytes r.

Definition good_session (r : SessionRecord) : Prop :=
  faithful json_session parse_session session_bytes r ∧ is_i64 (seExpiresAt r).
Definition good_grant (r : GrantRecord) : Prop :=
  faithful json_grant parse_grant grant_bytes r ∧ is_i64 (grExpiresAt r) ∧ grant_bytes r <= MaxRecordBytes.
Definition good_receipt (r : Receipt) : Prop :=
  faithful json_receipt parse_receipt receipt_bytes r ∧ is_i64 (rcExpiresAt r) ∧ receipt_bytes r <= MaxRecordBytes.
Definition good_namespace (n : Namespace) : Prop := faithful json_namespace parse_namespace namespace_bytes n.

Definition session_row (r : SessionRecord) : row := mkRow (UnixNano (seExpiresAt r)) (default [] (json_session r)).
Definition grant_row (r : GrantRecord) : owned :=
  mkOwned (grSessionID r) (mkRow (UnixNano (grExpiresAt r)) (default [] (json_grant r))).
Definition receipt_row (r : Receipt) : owned :=
  mkOwned (rcSessionID r) (mkRow (UnixNano (rcExpiresAt r)) (default [] (json_receipt r))).

(** The database [t] holds the records [d]. *)
Record shows (t : tables) (d : records) : Prop := {
  shows_namespace : access_namespace t = None ∧ namespace d = no_namespace ∨
    access_namespace t = json_namespace (namespace d) ∧ good_namespace (namespace d) ∧
    namespace_bytes (namespace d) <= MaxRecordBytes;
  shows_sessions : access_sessions t = session_row <$> sessions d;
  shows_grants : access_grants t = grant_row <$> grants d;
  shows_locators : access_locators t = locators d;
  shows_receipts : access_receipts t = receipt_row <$> receipts d;
  shows_wf : wf d;
  good_sessions : ∀ k r, sessions d !! k = Some r → good_session r ∧ session_bytes r <= MaxRecordBytes;
  good_grants : ∀ k r, grants d !! k = Some r → good_grant r;
  good_receipts : ∀ k r, receipts d !! k = Some r → good_receipt r }.

Lemma schema_shows : shows schema (store_data NewStore).
Proof.
  split; cbn; rewrite ?fmap_empty; try done; try (intros k r Hr; by rewrite lookup_empty in Hr);
    first [by left|exact Access.empty_wf].
Qed.

(** *** One statement without faults *)

Lemma undisturbed_point e t : undisturbed point e t = (t, Ok tt).
Proof. done. Qed.
Lemma undisturbed_ret {A} (a : A) e t : undisturbed (mret a) e t = (t, Ok a).
Proof. done. Qed.
Lemma undisturbed_fail {A} err e t : undisturbed (sql_fail (A := A) err) e t = (t, Err err).
Proof. done. Qed.
Lemma undisturbed_query {A} (f : tables → A) e t : undisturbed (query f) e t = (t, Ok (f t)).
Proof. done. Qed.
Lemma undisturbed_write e t :
  undisturbed write e t = (t, if decide (mode e = writeTransaction) then Ok tt else Err ErrReadOnly).
Proof. unfold undisturbed, write, mbind, sql_bind, check_mode. cbn. by case_decide. Qed.
Lemma undisturbed_exec f e t :
  undisturbed (exec f) e t =
  if decide (mode e = writeTransaction)
  then match f t with Some t' => (t', Ok tt) | None => (t, Err ErrStorage) end else (t, Err ErrReadOnly).
Proof.
  unfold exec. rewrite undisturbed_bind by (unfold write; apply _). rewrite undisturbed_write. cbn [fst snd].
  case_decide; [|done]. rewrite undisturbed_bind by apply _. unfold undisturbed, apply. cbn. by destruct (f t).
Qed.

Lemma undisturbed_load {A} json parse (bytes : A → Z) f (o : option A) e t :
  f t = (default [] ∘ json) <$> o →
  (∀ r, o = Some r → faithful json parse bytes r ∧ bytes r <= MaxRecordBytes) →
  undisturbed (load parse f) e t = (t, Ok o).
Proof.
  intros Hf Ho. unfold load. rewrite undisturbed_bind by apply _. rewrite undisturbed_query. cbn [fst snd]. rewrite Hf.
  destruct o as [r|]; [|done]. destruct (Ho r eq_refl) as [(data & Hj & Hp & Hlen) Hb]. cbn. rewrite Hj. cbn.
  unfold decode. destruct (Z.gtb_spec (len data) MaxRecordBytes); [lia|]. by rewrite Hp.
Qed.

Lemma undisturbed_encode {A} json parse (bytes : A → Z) r e t :
  faithful json parse bytes r →
  undisturbed (encode (json r)) e t =
  (t, if bytes r >? MaxRecordBytes then Err ErrCapacity else Ok (default [] (json r))).
Proof. intros (data & Hj & _ & Hlen). rewrite Hj, <- Hlen. cbn [encode]. by destruct (_ >? _). Qed.

(** *** Deletions *)

(** Rows that are kept, as records that are kept. *)
Lemma filter_rows {A B} (f : A → B) (m m' : gmap string A) (gone : string → B → bool) :
  (∀ k r, m' !! k = Some r ↔ m !! k = Some r ∧ gone k (f r) = false) →
  filter (λ kv, gone kv.1 kv.2 = false) (f <$> m) = f <$> m'.
Proof.
  intros Hm. rewrite map_filter_fmap. f_equal. apply map_eq. intros k. apply option_eq. intros r.
  rewrite map_lookup_filter_Some, Hm. done.
Qed.

Lemma locators_kept d d' :
  indexed d → indexed d' → (∀ k g, grants d' !! k = Some g → grants d !! k = Some g) →
  ∀ l k, locators d' !! l = Some k ↔ locators d !! l = Some k ∧ is_Some (grants d' !! k).
Proof.
  intros [Hg Hl] [Hg' Hl'] Hsub l k. split.
  - intros Hk. destruct (Hl' l k Hk) as (g & Hgk & Hor). split; [|by eexists].
    destruct (Hg k g (Hsub k g Hgk)) as (_ & _ & H1 & H2). by destruct Hor as [->| ->].
  - intros [Hk [g Hgk]]. destruct (Hl l k Hk) as (g0 & Hg0 & Hor). assert (g0 = g) as -> by (apply Hsub in Hgk; congruence).
    destruct (Hg' k g Hgk) as (_ & _ & H1 & H2). by destruct Hor as [->| ->].
Qed.

Lemma delete_grants_shows p (q : GrantRecord → bool) t d d' :
  shows t d → (∀ k g, grants d !! k = Some g → p k (grant_row g) = q g) →
  (∀ k g, grants d' !! k = Some g ↔ grants d !! k = Some g ∧ q g = false) →
  sessions d' = sessions d → receipts d' = receipts d → namespace d' = namespace d → wf d' →
  ∃ t', delete_grants p t = Some t' ∧ shows t' d'.
Proof.
  intros [Hn Hs Hg Hl Hr [Hi Ha] Gs Gg Gr] Hp Hg' Es Er En Hw'. eexists. split; [reflexivity|].
  set (gone := selected p (access_grants t)).
  assert (Hgone : ∀ k g, grants d !! k = Some g → gone k = q g).
  { intros k g Hk. unfold gone, selected. rewrite Hg, lookup_fmap, Hk. by apply Hp. }
  split; cbn [access_namespace access_sessions access_grants access_locators access_receipts];
    rewrite ?Es, ?Er, ?En; try done.
  - rewrite Hg. apply (filter_rows grant_row _ _ (λ k _, gone k)). intros k g. rewrite Hg'. split.
    + intros [Hk Hq]. split; [done|]. by rewrite (Hgone k g).
    + intros [Hk Hq]. split; [done|]. by rewrite <- (Hgone k g).
  - rewrite Hl. apply map_eq. intros l. apply option_eq. intros k. rewrite map_lookup_filter_Some. cbn [snd].
    rewrite (locators_kept d d'); [|done|apply Hw'|by intros k' g Hk; apply Hg' in Hk as [? _]].
    split; intros [Hk Hx]; (split; [done|]).
    + destruct Hi as [_ Hlk]. destruct (Hlk l k Hk) as (g & Hgk & _). exists g. apply Hg'. split; [done|].
      by rewrite <- (Hgone k g).
    + destruct Hx as [g Hx]. apply Hg' in Hx as [Hgk Hq]. by rewrite (Hgone k g).
  - intros k g Hk. apply Hg' in Hk as [Hk _]. by eapply Gg.
Qed.

Lemma delete_receipts_shows p (q : Receipt → bool) t d d' :
  shows t d → (∀ k r, receipts d !! k = Some r → p k (receipt_row r) = q r) →
  (∀ k r, receipts d' !! k = Some r ↔ receipts d !! k = Some r ∧ q r = false) →
  sessions d' = sessions d → grants d' = grants d → locators d' = locators d → namespace d' = namespace d → wf d' →
  ∃ t', delete_receipts p t = Some t' ∧ shows t' d'.
Proof.
  intros [Hn Hs Hg Hl Hr [Hi Ha] Gs Gg Gr] Hp Hr' Es Eg El En Hw'. eexists. split; [reflexivity|].
  split; cbn [access_namespace access_sessions access_grants access_locators access_receipts];
    rewrite ?Es, ?Eg, ?El, ?En; try done.
  - rewrite Hr. apply (filter_rows receipt_row _ _ p). intros k r. rewrite Hr'. split.
    + intros [Hk Hq]. split; [done|]. by rewrite (Hp k r).
    + intros [Hk Hq]. split; [done|]. by rewrite <- (Hp k r).
  - intros k r Hk. apply Hr' in Hk as [Hk _]. by eapply Gr.
Qed.

(** The records between the steps of a cascade. *)
Lemma cascade_wf d d' :
  wf d → wf d' →
  (∀ k g, grants d' !! k = Some g → grants d !! k = Some g) →
  (∀ k r, receipts d' !! k = Some r → receipts d !! k = Some r) →
  wf (mkRecords (sessions d) (grants d') (locators d') (receipts d) (namespace d)) ∧
  wf (mkRecords (sessions d) (grants d') (locators d') (receipts d') (namespace d)).
Proof.
  intros [_ (A1 & A2 & A3)] [Hi' _] Hg Hr.
  split; (split; [exact Hi'|]); (split_and!; cbn; [done| |]); intros k x Hk; try apply Hr in Hk; try apply Hg in Hk; eauto.
Qed.

Lemma delete_sessions_shows p (q : string → SessionRecord → bool) t d d' :
  shows t d → (∀ k r, sessions d !! k = Some r → p k (session_row r) = q k r) →
  (∀ k r, sessions d' !! k = Some r ↔ sessions d !! k = Some r ∧ q k r = false) →
  (∀ k g, grants d' !! k = Some g ↔ grants d !! k = Some g ∧ is_Some (sessions d' !! grSessionID g)) →
  (∀ k r, receipts d' !! k = Some r ↔ receipts d !! k = Some r ∧ is_Some (sessions d' !! rcSessionID r)) →
  namespace d' = namespace d → wf d' →
  ∃ t', delete_sessions p t = Some t' ∧ shows t' d'.
Proof.
  intros Hsh Hp Hs' Hg' Hr' En Hw'. pose proof Hsh as [Hn Hs Hg Hl Hr Hw Gs Gg Gr].
  unfold delete_sessions. set (gone := selected p (access_sessions t)).
  destruct (cascade_wf d d' Hw Hw') as [Hw1 Hw2]; [by intros k g Hk; apply Hg' in Hk as [? _]|by intros k r Hk; apply Hr' in Hk as [? _]|].
  assert (Hgone : ∀ id, is_Some (sessions d !! id) → gone id = negb (bool_decide (is_Some (sessions d' !! id)))).
  { intros id [r Hid]. unfold gone, selected. rewrite Hs, lookup_fmap, Hid. cbn. rewrite (Hp id r Hid). case_bool_decide as Hx.
    - destruct Hx as [r' Hx]. apply Hs' in Hx as [Hx Hq]. by assert (r' = r) as -> by congruence.
    - destruct (q id r) eqn:Eq; [done|]. exfalso. apply Hx. exists r. by apply Hs'. }
  destruct Hw as [Hi (A1 & A2 & A3)].
  destruct (delete_grants_shows (λ _ g, gone (session_id g)) (λ g, negb (bool_decide (is_Some (sessions d' !! grSessionID g))))
              t d (mkRecords (sessions d) (grants d') (locators d') (receipts d) (namespace d)) Hsh) as (t1 & Ht1 & Hsh1); [| |done..|exact Hw1|].
  { intros k g Hk. cbn. by apply Hgone, (A2 k). }
  { intros k g. cbn. rewrite Hg'. by rewrite negb_false_iff, bool_decide_eq_true. }
  destruct (delete_receipts_shows (λ _ r, gone (session_id r)) (λ r, negb (bool_decide (is_Some (sessions d' !! rcSessionID r))))
              t1 _ (mkRecords (sessions d) (grants d') (locators d') (receipts d') (namespace d)) Hsh1) as (t2 & Ht2 & Hsh2); [| |done..|exact Hw2|].
  { intros k r Hk. cbn in *. apply Hgone. by apply (A3 k). }
  { intros k r. cbn. rewrite Hr'. by rewrite negb_false_iff, bool_decide_eq_true. }
  rewrite Ht1. cbn [mbind option_bind]. rewrite Ht2. cbn [mbind option_bind].
  eexists. split; [reflexivity|]. destruct Hsh2 as [Hn2 Hs2 Hg2 Hl2 Hr2 _ _ Gg2 Gr2]. cbn in *.
  split; cbn; rewrite ?En; try done.
  - rewrite Hs2. apply (filter_rows session_row _ _ (λ k _, gone k)). intros k r. rewrite Hs'. split; intros [Hk Hq]; (split; [done|]).
    + rewrite Hgone by (by eexists). apply negb_false_iff, bool_decide_eq_true. exists r. by apply Hs'.
    + rewrite Hgone in Hq by (by eexists). apply negb_false_iff, bool_decide_eq_true in Hq as [r' Hx].
      apply Hs' in Hx as [Hx Hq]. by assert (r' = r) as -> by congruence.
  - intros k r Hk. apply Hs' in Hk as [Hk _]. by eapply Gs.
Qed.

(** *** The operations *)

(** Without faults [q] on the tables does what [m] does on the records. *)
Definition simulates {B} (q : sql B) (m : tx B) (e : env) (t : tables) (d : records) : Prop :=
  ∃ t', undisturbed q e t = (t', (Storage.exec m e d).2) ∧ shows t' (Storage.exec m e d).1.

Lemma simulates_read {B} (q : sql B) (f : records → B) e t d :
  shows t d → undisturbed q e t = (t, Ok (f d)) → simulates q (read f) e t d.
Proof. intros Hs Hq. exists t. by rewrite exec_read. Qed.

Lemma simulates_write q m (f : tables → option tables) e t d d' :
  shows t d →
  undisturbed q e t = undisturbed (exec f) e t →
  (mode e = writeTransaction → Storage.exec m e d = (d', Ok tt) ∧ ∃ t', f t = Some t' ∧ shows t' d') →
  (mode e ≠ writeTransaction → Storage.exec m e d = (d, Err ErrReadOnly)) → simulates q m e t d.
Proof.
  intros Hs Hq Hw Hr. unfold simulates. rewrite Hq, undisturbed_exec. case_decide as Hm.
  - destruct (Hw Hm) as [-> (t' & -> & Ht')]. by exists t'.
  - rewrite Hr by done. by exists t.
Qed.

Lemma undisturbed_Session id e t d : shows t d → undisturbed (Session id) e t = (t, Ok (sessions d !! id)).
Proof.
  intros Hs. apply (undisturbed_load json_session parse_session session_bytes).
  - rewrite (shows_sessions _ _ Hs), lookup_fmap. by destruct (sessions d !! id).
  - intros r Hr. destruct (good_sessions _ _ Hs id r Hr) as [[Hf _] Hb]. done.
Qed.

Lemma undisturbed_Grant locator e t d :
  shows t d →
  undisturbed (Grant locator) e t =
    (t, Ok (match locators d !! locator with Some id => grants d !! id | None => None end)).
Proof.
  intros Hs. apply (undisturbed_load json_grant parse_grant grant_bytes).
  - unfold select_grant. rewrite (shows_locators _ _ Hs). destruct (locators d !! locator) as [id|]; [|done]. cbn.
    rewrite (shows_grants _ _ Hs), lookup_fmap. by destruct (grants d !! id).
  - intros r Hr. destruct (locators d !! locator) as [id|]; [|done]. by destruct (good_grants _ _ Hs id r Hr) as (Hf & _ & Hb).
Qed.

Lemma undisturbed_grant_id id e t d :
  shows t d →
  undisturbed (load parse_grant (λ t, payload ∘ contents <$> access_grants t !! id)) e t = (t, Ok (grants d !! id)).
Proof.
  intros Hs. apply (undisturbed_load json_grant parse_grant grant_bytes).
  - rewrite (shows_grants _ _ Hs), lookup_fmap. by destruct (grants d !! id).
  - intros r Hr. by destruct (good_grants _ _ Hs id r Hr) as (Hf & _ & Hb).
Qed.

Lemma undisturbed_GetReceipt key e t d : shows t d → undisturbed (GetReceipt key) e t = (t, Ok (receipts d !! key)).
Proof.
  intros Hs. apply (undisturbed_load json_receipt parse_receipt receipt_bytes).
  - rewrite (shows_receipts _ _ Hs), lookup_fmap. by destruct (receipts d !! key).
  - intros r Hr. by destruct (good_receipts _ _ Hs key r Hr) as (Hf & _ & Hb).
Qed.

Lemma simulates_GetCounts e t d : shows t d → simulates GetCounts Storage.GetCounts e t d.
Proof.
  intros Hs. apply simulates_read; [done|]. unfold GetCounts. rewrite undisturbed_query.
  by rewrite (shows_sessions _ _ Hs), (shows_grants _ _ Hs), (shows_receipts _ _ Hs), !map_size_fmap.
Qed.

Lemma simulates_GetNamespace e t d : shows t d → simulates GetNamespace Storage.GetNamespace e t d.
Proof.
  intros Hs. apply simulates_read; [done|]. unfold GetNamespace. rewrite undisturbed_bind by (unfold load, decode, query; apply _).
  destruct (shows_namespace _ _ Hs) as [[Ht Hd]|(Ht & Hg & Hb)].
  - rewrite (undisturbed_load json_namespace parse_namespace namespace_bytes _ None); [|by rewrite Ht|done].
    cbn [fst snd]. by rewrite Hd.
  - rewrite (undisturbed_load json_namespace parse_namespace namespace_bytes _ (Some (namespace d))); [done| |by intros r [= <-]].
    rewrite Ht. cbn. destruct Hg as (data & -> & _). done.
Qed.

Lemma undisturbed_scan limit rows rs e t acc :
  Forall (λ r, good_session r ∧ session_bytes r <= MaxRecordBytes) rs → rows = default [] ∘ json_session <$> rs →
  len acc <= limit →
  undisturbed (scan limit rows acc) e t = (t, if len acc + len rs >? limit then Err ErrCapacity else Ok (acc ++ rs)).
Proof.
  intros Hrs ->. revert acc. induction Hrs as [|r rs [[(data & Hj & Hp & Hl) _] Hb] _ IH]; intros acc Hacc; cbn [fmap list_fmap scan].
  { rewrite undisturbed_ret, app_nil_r. change (len []) with 0. destruct (Z.gtb_spec (len acc + 0) limit); [lia|done]. }
  change (r :: rs) with ([r] ++ rs). rewrite len_app. pose proof (len_nonneg rs). change (len [r]) with 1.
  destruct (Z.geb_spec (len acc) limit).
  { destruct (Z.gtb_spec (len acc + (1 + len rs)) limit); [done|lia]. }
  unfold compose. rewrite Hj. change (default [] (Some data)) with data. unfold decode. destruct (Z.gtb_spec (len data) MaxRecordBytes); [lia|]. rewrite Hp.
  rewrite undisturbed_bind by apply _. rewrite undisturbed_ret. cbn [fst snd].
  rewrite IH by (rewrite len_app; change (len [r]) with 1; lia). rewrite len_app, <- app_assoc. change (len [r]) with 1.
  by replace (len acc + 1 + len rs) with (len acc + (1 + len rs)) by lia.
Qed.

Lemma select_all t d :
  shows t d →
  (λ kr, payload kr.2) <$> sort_keys (map_to_list (access_sessions t)) =
  default [] ∘ json_session <$> map snd (sort_keys (map_to_list (sessions d))).
Proof.
  intros Hs. rewrite (shows_sessions _ _ Hs), map_to_list_fmap, sort_keys_map.
  generalize (sort_keys (map_to_list (sessions d))). induction l as [|[k r] l IH]; [done|]. cbn. by f_equal.
Qed.

Lemma simulates_Sessions limit e t d :
  shows t d → limit <= maxInt64 → simulates (Sessions limit) (Storage.Sessions limit) e t d.
Proof.
  intros Hs Hmax. exists t. unfold Sessions, Storage.Sessions. destruct (Z.ltb_spec limit 0); [by split|]. exec_step.
  set (rs := map snd (sort_keys (map_to_list (sessions d)))).
  assert (Hlen : len rs = Z.of_nat (size (sessions d))).
  { unfold rs, len, sort_keys. rewrite length_map, merge_sort_Permutation, length_map_to_list. done. }
  assert (Hgood : Forall (λ r, good_session r ∧ session_bytes r <= MaxRecordBytes) rs).
  { apply Forall_forall. intros r Hin. apply list_elem_of_In, in_map_iff in Hin as ([k r'] & <- & Hin).
    apply list_elem_of_In, elem_of_sort_keys, elem_of_map_to_list in Hin. by apply (good_sessions _ _ Hs k). }
  rewrite undisturbed_bind by apply _. rewrite undisturbed_query. cbn [fst snd].
  unfold select_sessions. rewrite (select_all t d) by done. fold rs.
  rewrite undisturbed_bind by apply _. rewrite <- Hlen.
  assert (Hscan : undisturbed (scan limit (if i64 (limit + 1) <? 0 then default [] ∘ json_session <$> rs
                    else take (Z.to_nat (i64 (limit + 1))) (default [] ∘ json_session <$> rs)) []) e t =
                  (t, if len rs >? limit then Err ErrCapacity else Ok rs)).
  { case_if; [by rewrite (undisturbed_scan _ _ rs)|].
    assert (Hi : i64 (limit + 1) = limit + 1).
    { destruct (decide (limit = maxInt64)) as [->|Hne]; [done|]. apply i64_small. unfold_ints. unfold maxInt64 in *. lia. }
    rewrite Hi. rewrite (undisturbed_scan _ _ (take (Z.to_nat (limit + 1)) rs));
      [|by apply Forall_take|by rewrite fmap_take|done].
    change (len []) with 0. unfold len. rewrite length_take. cbn [app].
    destruct (Z.gtb_spec (0 + Z.of_nat (Z.to_nat (limit + 1) `min` length rs)) limit),
      (Z.gtb_spec (Z.of_nat (length rs)) limit); try lia; [done|]. by rewrite take_ge by lia. }
  rewrite Hscan. cbn [fst snd]. by destruct (Z.gtb_spec (len rs) limit).
Qed.

Lemma put_session_shows r t d :
  shows t d → good_session r → session_bytes r <= MaxRecordBytes →
  wf (set_sessions (<[seID r := r]> (sessions d)) d) →
  ∃ t', upsert_session (seID r) (session_row r) t = Some t' ∧ shows t' (set_sessions (<[seID r := r]> (sessions d)) d).
Proof.
  intros [Hn Hs Hg Hl Hr Hw Gs Gg Gr] Hgood Hb Hw'. eexists. split; [reflexivity|]. split; cbn; try done.
  - by rewrite Hs, fmap_insert.
  - intros k r' Hk. apply lookup_insert_Some in Hk as [[<- <-]|[_ Hk]]; [done|]. by apply (Gs k).
Qed.

Lemma simulates_PutSession r e t d :
  shows t d → good_session r → simulates (PutSession r) (Storage.PutSession r) e t d.
Proof.
  intros Hs Hg. destruct e as [m now]. unfold PutSession, Storage.PutSession, bounded.
  destruct (Z.gtb_spec (session_bytes r) MaxRecordBytes) as [Hb|Hb].
  { exists t. exec_step. split; [|done]. rewrite undisturbed_bind by (unfold encode; apply _).
    rewrite (undisturbed_encode json_session parse_session session_bytes) by apply Hg.
    destruct (Z.gtb_spec (session_bytes r) MaxRecordBytes); [done|lia]. }
  eapply (simulates_write _ _ (upsert_session (seID r) (session_row r))); [done| | |].
  - rewrite undisturbed_bind by (unfold encode; apply _).
    rewrite (undisturbed_encode json_session parse_session session_bytes) by apply Hg.
    destruct (Z.gtb_spec (session_bytes r) MaxRecordBytes); [lia|done].
  - cbn. intros ->. split; [reflexivity|]. apply put_session_shows; [done..|]. apply put_session_wf, (shows_wf _ _ Hs).
  - cbn. by destruct m.
Qed.

Lemma simulates_PutNamespace n e t d :
  shows t d → good_namespace n → simulates (PutNamespace n) (Storage.PutNamespace n) e t d.
Proof.
  intros Hs Hg. destruct e as [m now]. unfold PutNamespace, Storage.PutNamespace, bounded.
  destruct (Z.gtb_spec (namespace_bytes n) MaxRecordBytes) as [Hb|Hb].
  { exists t. exec_step. split; [|done]. rewrite undisturbed_bind by (unfold encode; apply _).
    rewrite (undisturbed_encode json_namespace parse_namespace namespace_bytes) by apply Hg.
    destruct (Z.gtb_spec (namespace_bytes n) MaxRecordBytes); [done|lia]. }
  eapply (simulates_write _ _ (upsert_namespace (default [] (json_namespace n)))); [done| | |].
  - rewrite undisturbed_bind by (unfold encode; apply _).
    rewrite (undisturbed_encode json_namespace parse_namespace namespace_bytes) by apply Hg.
    destruct (Z.gtb_spec (namespace_bytes n) MaxRecordBytes); [lia|done].
  - cbn. intros ->. split; [reflexivity|]. eexists. split; [reflexivity|]. destruct Hs as [Hn Hs Hgr Hl Hr Hw Gs Gg Gr].
    split; cbn; try done. right. split_and!; [|done|done]. destruct Hg as (data & Hj & _). by rewrite Hj.
  - cbn. by destruct m.
Qed.

Lemma drop_session_shows id t d :
  shows t d → ∃ t', delete_sessions (λ k _, bool_decide (k = id)) t = Some t' ∧ shows t' (drop_session id d).
Proof.
  intros Hs. pose proof (shows_wf _ _ Hs) as Hw. destruct (drop_session_spec id d) as (H1 & H2 & H3 & H4 & _).
  destruct Hw as [Hi (A1 & A2 & A3)].
  apply (delete_sessions_shows _ (λ k _, bool_decide (k = id)) _ d); [done|done| | | |done|apply drop_session_wf, (shows_wf _ _ Hs)].
  - intros k r. rewrite H1, lookup_delete_Some, bool_decide_eq_false. naive_solver.
  - intros k g. rewrite H2, H1. split; intros [Hk Hx]; (split; [done|]).
    + rewrite lookup_delete_ne by done. by apply (A2 k).
    + intros E. rewrite E, lookup_delete_eq in Hx. by destruct Hx.
  - intros k r. rewrite H3, H1. split; intros [Hk Hx]; (split; [done|]).
    + rewrite lookup_delete_ne by done. by apply (A3 k).
    + intros E. rewrite E, lookup_delete_eq in Hx. by destruct Hx.
Qed.

Lemma drop_grant_shows id t d :
  shows t d → ∃ t', delete_grants (λ k _, bool_decide (k = id)) t = Some t' ∧ shows t' (drop_grant id d).
Proof.
  intros Hs. pose proof (shows_wf _ _ Hs) as [Hi Ha]. destruct (drop_grant_frame id d) as (E1 & E2 & E3).
  pose proof (drop_grant_grants id d) as Eg.
  apply (delete_grants_shows _ (λ g, bool_decide (grID g = id)) _ d); try done.
  - intros k g Hk. destruct Hi as [Hi _]. by destruct (Hi k g Hk) as (-> & _).
  - intros k g. rewrite Eg, lookup_delete_Some, bool_decide_eq_false. destruct Hi as [Hi _].
    split; intros [Hk Hx]; [destruct (Hi k g Hx) as (-> & _)|destruct (Hi k g Hk) as (E & _)]; split; congruence.
  - split; [by apply drop_grant_indexed|]. destruct Ha as (A1 & A2 & A3). split_and!; rewrite ?E1, ?E2, ?Eg; [done| |done].
    intros k g Hk. apply lookup_delete_Some in Hk as [_ Hk]. by apply (A2 k).
Qed.

Lemma simulates_DeleteSession id e t d : shows t d → simulates (DeleteSession id) (Storage.DeleteSession id) e t d.
Proof.
  intros Hs. destruct e as [m now]. eapply (simulates_write _ _ (delete_sessions (λ k _, bool_decide (k = id)))); [done|done| |].
  - cbn. intros ->. split; [apply exec_DeleteSession|]. by apply drop_session_shows.
  - cbn. by destruct m.
Qed.

Lemma simulates_DeleteGrant id e t d : shows t d → simulates (DeleteGrant id) (Storage.DeleteGrant id) e t d.
Proof.
  intros Hs. destruct e as [m now]. eapply (simulates_write _ _ (delete_grants (λ k _, bool_decide (k = id)))); [done|done| |].
  - cbn. intros ->. split; [apply exec_DeleteGrant|]. by apply drop_grant_shows.
  - cbn. by destruct m.
Qed.

(** An expiry in a column is compared like the instant it stands for. *)
Lemma due_expired now x data : is_i64 now → is_i64 x → due now (mkRow (UnixNano x) data) = expired now x.
Proof.
  intros Hn Hx. unfold due, expired, After, UnixNano. cbn. rewrite !i64_small by done.
  destruct (Z.leb_spec x now), (Z.ltb_spec now x); done || lia.
Qed.

Lemma prune_shows now t d :
  shows t d → is_i64 now →
  ∃ t1 t2 t3, delete_sessions (λ _, due now) t = Some t1 ∧
    delete_grants (λ _ g, due now (contents g)) t1 = Some t2 ∧
    delete_receipts (λ _ r, due now (contents r)) t2 = Some t3 ∧ shows t3 (prune now d).
Proof.
  intros Hs Hn. pose proof (shows_wf _ _ Hs) as Hw. unfold prune. set (keys := keys_with _ (sessions d)).
  destruct (fold_drop_session keys d) as (S1 & S2 & S3 & S4 & S5). set (d1 := foldl _ d keys) in *. specialize (S5 Hw).
  assert (Hkeep : ∀ id, is_Some (sessions d !! id) → id ∉ keys ↔ is_Some (sessions d1 !! id)).
  { intros id [r Hr]. rewrite S1. case_decide; [|by rewrite Hr]. by split; [|intros []]. }
  destruct Hw as [_ (A1 & A2 & A3)].
  destruct (delete_sessions_shows (λ _, due now) (λ _ r, expired now (seExpiresAt r)) t d d1 Hs) as (t1 & Ht1 & Hs1);
    [| | | |done|done|].
  { intros k r Hk. destruct (good_sessions _ _ Hs k r Hk) as [[_ Hx] _]. by apply due_expired. }
  { intros k r. rewrite S1. apply (keys_with_kept (λ r, expired now (seExpiresAt r))). }
  { intros k g. rewrite S2. split; intros [Hk Hx]; (split; [done|]); apply (Hkeep (grSessionID g)); try done; by apply (A2 k). }
  { intros k r. rewrite S3. split; intros [Hk Hx]; (split; [done|]); apply (Hkeep (rcSessionID r)); try done; by apply (A3 k). }
  set (gkeys := keys_with _ (grants d1)). destruct (fold_drop_grant gkeys d1) as (G1 & G2 & G3 & G4 & G5).
  set (d2 := foldl _ d1 gkeys) in *. pose proof (shows_wf _ _ Hs1) as [Hi1 (B1 & B2 & B3)].
  assert (Hgr : ∀ k g, grants d2 !! k = Some g ↔ grants d1 !! k = Some g ∧ expired now (grExpiresAt g) = false).
  { intros k g. rewrite G1. apply (keys_with_kept (λ g, expired now (grExpiresAt g))). }
  assert (Hw2 : wf d2).
  { split; [by apply G5|]. split_and!; rewrite ?G2, ?G3; [done| |done]. intros k g Hk. apply Hgr in Hk as [Hk _]. by apply (B2 k). }
  destruct (delete_grants_shows (λ _ g, due now (contents g)) (λ g, expired now (grExpiresAt g)) t1 d1 d2 Hs1)
    as (t2 & Ht2 & Hs2); [|done..|].
  { intros k g Hk. destruct (good_grants _ _ Hs1 k g Hk) as (_ & Hx & _). by apply due_expired. }
  destruct (delete_receipts_shows (λ _ r, due now (contents r)) (λ r, expired now (rcExpiresAt r)) t2 d2
              (set_receipts (filter (λ kr, expired now (rcExpiresAt kr.2) = false) (receipts d2)) d2) Hs2)
    as (t3 & Ht3 & Hs3); [| |done..| |].
  { intros k r Hk. destruct (good_receipts _ _ Hs2 k r Hk) as (_ & Hx & _). by apply due_expired. }
  { intros k r. cbn. by rewrite map_lookup_filter_Some. }
  { destruct Hw2 as [Hi2 (C1 & C2 & C3)]. split; [done|]. split_and!; cbn; [done|done|].
    intros k r Hk. apply map_lookup_filter_Some in Hk as [Hk _]. by apply C3. }
  by exists t1, t2, t3.
Qed.

Lemma simulates_PruneExpired e t d :
  shows t d → is_i64 (tx_now e) → simulates PruneExpired Storage.PruneExpired e t d.
Proof.
  intros Hs Hn. destruct e as [m now]. cbn in Hn. destruct (prune_shows now t d Hs Hn) as (t1 & t2 & t3 & H1 & H2 & H3 & H4).
  unfold simulates. destruct m; [by exists t|]. rewrite exec_PruneExpired. exists t3. split; [|done].
  change (undisturbed PruneExpired (mkEnv writeTransaction now) t) with (undisturbed
    (exec (delete_sessions (λ _, due now)) ≫= λ _, exec (delete_grants (λ _ g, due now (contents g))) ≫= λ _,
     exec (delete_receipts (λ _ r, due now (contents r)))) (mkEnv writeTransaction now) t).
  rewrite undisturbed_bind by (unfold exec, write; apply _). rewrite undisturbed_exec, decide_True, H1 by done. cbn [fst snd].
  rewrite undisturbed_bind by (unfold exec, write; apply _). rewrite undisturbed_exec, decide_True, H2 by done. cbn [fst snd].
  by rewrite undisturbed_exec, decide_True, H3 by done.
Qed.

(** *** Insertions *)

Lemma located d l : indexed d →
  bool_decide (is_Some (match locators d !! l with Some id => grants d !! id | None => None end)) =
  negb (bool_decide (locators d !! l = None)).
Proof.
  intros [_ Hl]. destruct (locators d !! l) as [id|] eqn:E; [|done]. destruct (Hl l id E) as (g & -> & _). done.
Qed.

Lemma add_grant_shows r t d :
  shows t d → good_grant r → insertable r d → wf (add_grant r d) →
  ∃ t1 t2, insert_grant (grID r) (grant_row r) t = Some t1 ∧
    (t ← insert_locator (grJoinCode r) (grID r) t1; insert_locator (grAlias r) (grID r) t) = Some t2 ∧
    shows t2 (add_grant r d).
Proof.
  intros [Hn Hs Hg Hl Hr Hw Gs Gg Gr] Hgood (_ & _ & _ & _ & Hne & Hses & Hid & Hcode & Halias) Hw'.
  assert (Hses' : is_Some (access_sessions t !! grSessionID r)) by (by rewrite Hs, lookup_fmap, fmap_is_Some).
  assert (Hid' : access_grants t !! grID r = None) by (by rewrite Hg, lookup_fmap, Hid).
  do 2 eexists. split; [|split].
  - unfold insert_grant. cbn [session_id grant_row]. by rewrite option_guard_True.
  - unfold insert_locator. cbn. rewrite option_guard_True; [|by rewrite Hl, lookup_insert_eq]. cbn.
    rewrite option_guard_True; [reflexivity|]. rewrite lookup_insert_ne, Hl, lookup_insert_eq by done. done.
  - split; cbn; try done; [by rewrite Hg, fmap_insert|by rewrite Hl|].
    intros k g Hk. apply lookup_insert_Some in Hk as [[<- <-]|[_ Hk]]; [done|]. by apply (Gg k).
Qed.

(** The checks of [PutGrant] and of [PutReceipt]. *)
Lemma conflict_step {B} b (m : sql B) e t :
  undisturbed (conflict_if b ≫= λ _, m) e t = if b then (t, Err ErrConflict) else undisturbed m e t.
Proof. rewrite undisturbed_bind by (unfold conflict_if; apply _). unfold conflict_if. by destruct b. Qed.

Ltac bind_with H := rewrite undisturbed_bind by (unfold Session, Grant, GetReceipt, load, decode, query, encode, exec, write; apply _);
  rewrite H; cbn [fst snd].

Lemma undisturbed_PutGrant r now t d :
  shows t d → good_grant r →
  undisturbed (PutGrant r) (mkEnv writeTransaction now) t =
  if decide (insertable r d) then
    undisturbed (exec (insert_grant (grID r) (grant_row r)) ≫= λ _,
      exec (λ t, t ← insert_locator (grJoinCode r) (grID r) t; insert_locator (grAlias r) (grID r) t))
      (mkEnv writeTransaction now) t
  else (t, Err ErrConflict).
Proof.
  intros Hs (Hf & _ & Hb). pose proof (shows_wf _ _ Hs) as [Hi _]. unfold PutGrant. bind_with undisturbed_write.
  rewrite decide_True by done. rewrite conflict_step. unfold insertable.
  repeat (case_bool_decide; cbn [orb]; [rewrite decide_False by tauto; done|]).
  bind_with (undisturbed_Session (grSessionID r) (mkEnv writeTransaction now) t d Hs). rewrite conflict_step.
  destruct (sessions d !! grSessionID r) as [sr|]; [|by rewrite decide_False by (by intros (_ & _ & _ & _ & _ & [? ?] & _))].
  rewrite bool_decide_eq_false_2 by done.
  bind_with (undisturbed_Grant (grJoinCode r) (mkEnv writeTransaction now) t d Hs). rewrite conflict_step, located by done.
  case_bool_decide; cbn [negb]; [|by rewrite decide_False by tauto].
  bind_with (undisturbed_Grant (grAlias r) (mkEnv writeTransaction now) t d Hs). rewrite conflict_step, located by done.
  case_bool_decide; cbn [negb]; [|by rewrite decide_False by tauto].
  bind_with (undisturbed_grant_id (grID r) (mkEnv writeTransaction now) t d Hs). rewrite conflict_step.
  destruct (grants d !! grID r) as [g|] eqn:Eg; [by rewrite decide_False by (by intros (_ & _ & _ & _ & _ & _ & ? & _))|]. rewrite bool_decide_eq_false_2 by (by intros [? ?]).
  bind_with (undisturbed_encode json_grant parse_grant grant_bytes r (mkEnv writeTransaction now) t Hf).
  destruct (Z.gtb_spec (grant_bytes r) MaxRecordBytes); [lia|]. rewrite decide_True; [done|]. split_and!; try done; lia.
Qed.

Lemma simulates_PutGrant r e t d : shows t d → good_grant r → simulates (PutGrant r) (Storage.PutGrant r) e t d.
Proof.
  intros Hs Hg. destruct e as [[|] now].
  - exists t. unfold PutGrant. rewrite undisturbed_bind by (unfold write; apply _). rewrite undisturbed_write. cbn [fst snd mode].
    rewrite decide_False by done. unfold Storage.PutGrant, bounded. exec_step.
    destruct (Z.gtb_spec (grant_bytes r) MaxRecordBytes) as [Hb|_]; [destruct Hg as (_ & _ & ?); lia|]. done.
  - unfold simulates. rewrite (undisturbed_PutGrant r now t d) by done. destruct (exec_PutGrant now r d) as [[Hins ->]|[Hn (err & -> & Herr)]].
    + rewrite decide_True by done. pose proof (Invitation.add_grant_wf r d (shows_wf _ _ Hs) Hins) as Hw.
      destruct (add_grant_shows r t d Hs Hg Hins Hw) as (t1 & t2 & H1 & H2 & H3). exists t2. split; [|done].
      rewrite undisturbed_bind by (unfold exec, write; apply _). rewrite undisturbed_exec, decide_True, H1 by done. cbn [fst snd].
      by rewrite undisturbed_exec, decide_True, H2 by done.
    + rewrite decide_False by done. exists t. split; [|done]. destruct Herr as [[_ Hb]| ->]; [destruct Hg as (_ & _ & ?); lia|done].
Qed.

Lemma simulates_PutReceipt r e t d : shows t d → good_receipt r → simulates (PutReceipt r) (Storage.PutReceipt r) e t d.
Proof.
  intros Hs Hg. pose proof Hg as (Hf & _ & Hb). destruct e as [[|] now].
  { exists t. unfold PutReceipt. rewrite undisturbed_bind by (unfold write; apply _). rewrite undisturbed_write. cbn [fst snd mode].
    rewrite decide_False by done. unfold Storage.PutReceipt, bounded. exec_step.
    destruct (Z.gtb_spec (receipt_bytes r) MaxRecordBytes); [lia|done]. }
  unfold simulates, PutReceipt. bind_with undisturbed_write. rewrite decide_True by done.
  bind_with (undisturbed_Session (rcSessionID r) (mkEnv writeTransaction now) t d Hs). rewrite conflict_step.
  destruct (exec_PutReceipt now r d) as [[(_ & [sr Hsr] & Hk) Hex]|[Hn (err & Hex & [[_ ?]| ->])]]; [|lia|]; rewrite Hex; cbn [fst snd].
  - rewrite Hsr, bool_decide_eq_false_2 by done.
    bind_with (undisturbed_GetReceipt (rcKey r) (mkEnv writeTransaction now) t d Hs). rewrite conflict_step, Hk.
    rewrite bool_decide_eq_false_2 by (by intros [? ?]).
    bind_with (undisturbed_encode json_receipt parse_receipt receipt_bytes r (mkEnv writeTransaction now) t Hf).
    destruct (Z.gtb_spec (receipt_bytes r) MaxRecordBytes); [lia|]. rewrite undisturbed_exec, decide_True by done.
    pose proof Hs as [Hn Hss Hgr Hl Hr Hw Gs Gg Gr]. fold (receipt_row r). unfold insert_receipt. cbn [session_id receipt_row].
    rewrite option_guard_True by (rewrite Hr, Hss, !lookup_fmap, Hk, Hsr; done). eexists. split; [reflexivity|].
    split; cbn; try done; [by rewrite Hr, fmap_insert| |].
    + apply (preserves (m := Storage.PutReceipt r) now d _ tt Hw Hex).
    + intros k x Hx. apply lookup_insert_Some in Hx as [[<- <-]|[_ Hx]]; [done|]. by apply (Gr k).
  - exists t. split; [|done]. destruct (sessions d !! rcSessionID r) as [sr|] eqn:Hsr; [|done]. rewrite bool_decide_eq_false_2 by done.
    bind_with (undisturbed_GetReceipt (rcKey r) (mkEnv writeTransaction now) t d Hs). rewrite conflict_step.
    destruct (receipts d !! rcKey r) as [x|] eqn:Hx; [done|]. exfalso. apply Hn. unfold receivable. by rewrite Hsr, Hx.
Qed.

(** *** Programs *)

(** What the two stores agree on: records that survive their encoding and fit,
    and a limit that is a Go [int]. *)
Definition admissible {B} (c : call B) : Prop :=
  match c with
  | CPutSession r => good_session r
  | CPutGrant r => good_grant r
  | CPutReceipt r => good_receipt r
  | CPutNamespace n => good_namespace n
  | CSessions limit => limit <= maxInt64
  | _ => True
  end.

(** The calls of the program, run on the records [d], are admissible. *)
Fixpoint storing {A} (p : prog A) (e : env) (d : records) : Prop :=
  match p with
  | Ret _ | Fail _ => True
  | Clock k => storing (k (tx_now e)) e d
  | Call c k =>
    admissible c ∧
    storing (k (Storage.exec (Program.perform c) e d).2) e (Storage.exec (Program.perform c) e d).1
  end.

Lemma perform_simulates {B} (c : call B) e t d :
  shows t d → is_i64 (tx_now e) → admissible c → simulates (perform c) (Program.perform c) e t d.
Proof.
  intros Hs Hn Hc. destruct c; cbn in Hc |- *.
  - by apply simulates_read, undisturbed_Session.
  - by apply simulates_Sessions.
  - by apply simulates_PutSession.
  - by apply simulates_DeleteSession.
  - by apply simulates_read, undisturbed_Grant.
  - by apply simulates_PutGrant.
  - by apply simulates_DeleteGrant.
  - by apply simulates_read, undisturbed_GetReceipt.
  - by apply simulates_PutReceipt.
  - by apply simulates_GetCounts.
  - by apply simulates_PruneExpired.
  - by apply simulates_GetNamespace.
  - by apply simulates_PutNamespace.
Qed.

#[export] Instance ctx_free_perform {B} (c : call B) : CtxFree (Program.perform c).
Proof. destruct c; apply _. Qed.

Lemma exec_call {A B} (c : call B) (k : result error B → prog A) e d :
  Storage.exec (in_memory (Call c k)) e d =
  Storage.exec (in_memory (k (Storage.exec (Program.perform c) e d).2)) e (Storage.exec (Program.perform c) e d).1.
Proof. unfold Storage.exec at 1. cbn [in_memory]. by rewrite (exec_state (Program.perform c)). Qed.

(** From tables [t] with the faults [l] to come, [q] ends with the answer and the
    records of [out], or with a fault. *)
Definition ends {A} (q : sql A) (e : env) (t : tables) (l : list (option fault)) (out : records * result error A) : Prop :=
  (∃ t' l', q e (mkConn t l) = (mkConn t' l', out.2) ∧ shows t' out.1 ∧ (calm l → calm l')) ∨
  (∃ f, (q e (mkConn t l)).2 = Err (fault_error f) ∧ ¬ calm l).

Lemma ends_point {A} (q : sql A) e t l out :
  (∀ l', ends q e t l' out) → ends (point ≫= λ _, q) e t l out.
Proof.
  intros Hq. unfold ends, mbind, sql_bind. destruct l as [|[f|] l]; cbn [point faults private].
  - apply (Hq []).
  - right. exists f. split; [done|]. by inversion 1.
  - destruct (Hq l) as [(t' & l' & H1 & H2 & H3)|(f & H1 & H2)]; [left|right].
    + exists t', l'. split_and!; [done|done|]. inversion 1. auto.
    + exists f. split; [done|]. by inversion 1.
Qed.

Lemma ends_checked {A} (q : sql A) e t l out :
  ends q e t l out → ends (q ≫= λ a, point ≫= λ _, mret a) e t l out.
Proof.
  intros [(t' & l' & H1 & H2 & H3)|(f & H1 & H2)]; unfold ends, mbind, sql_bind.
  - rewrite H1. destruct out as [d' [a|err]]; cbn [fst snd] in *; [|left; by exists t', l'].
    destruct l' as [|[f|] l']; cbn.
    + left. by exists t', [].
    + right. exists f. split; [done|]. intros Hl. apply H3 in Hl. by inversion Hl.
    + left. exists t', l'. split_and!; [done|done|]. intros Hl. apply H3 in Hl. by inversion Hl.
  - right. exists f. destruct (q e (mkConn t l)) as [s r]. cbn in H1. by subst r.
Qed.

Lemma on_disk_simulates {A} (p : prog A) e t d l :
  strict p → shows t d → is_i64 (tx_now e) → storing p e d → ends (on_disk p) e t l (Storage.exec (in_memory p) e d).
Proof.
  revert t d l. induction p as [a|err|k IH|B c k IH]; intros t d l Hp Hs Hn Hst.
  - left. by exists t, l.
  - left. by exists t, l.
  - apply (IH (tx_now e) t d l); [apply Hp|done..].
  - destruct Hp as [Hd Hp], Hst as [Hc Hst]. rewrite exec_call.
    unfold ends. cbn [on_disk]. destruct (perform_simulates c e t d Hs Hn Hc) as (t1 & Hu & Hs1).
    destruct (interruptible (m := perform c) e t l) as [(l1 & Hl & Hcalm)|(f & Hl & Hcalm)].
    + rewrite Hl, Hu. cbn [fst snd]. destruct (IH _ t1 _ l1 (Hp _) Hs1 Hn Hst) as [(t2 & l2 & H2 & Hs2 & Hc2)|(f & H2 & Hc2)].
      * left. exists t2, l2. auto.
      * right. exists f. auto.
    + right. exists f. destruct (perform c e (mkConn t l)) as [s r]. cbn in Hl. subst r. rewrite Hd; [done|].
      destruct f; [by left|by right].
Qed.

Lemma read_only {A} (p : prog A) now d : (Storage.exec (in_memory p) (mkEnv readTransaction now) d).1 = d.
Proof.
  revert d. induction p as [a|err|k IH|B c k IH]; intros d; [done|done|apply (IH now)|]. rewrite exec_call, IH.
  destruct c; cbn [Program.perform]; try done.
  - unfold Storage.Sessions. case_if; [done|]. exec_step. by case_if.
  - unfold Storage.PutSession, bounded. exec_step. by case_if.
  - unfold Storage.PutGrant, bounded. exec_step. by case_if.
  - unfold Storage.PutReceipt, bounded. exec_step. by case_if.
  - unfold Storage.PutNamespace, bounded. exec_step. by case_if.
Qed.

Lemma in_memory_state {A} (p : prog A) e d :
  in_memory p e (mkTxn d None) =
  (mkTxn (Storage.exec (in_memory p) e d).1 None, (Storage.exec (in_memory p) e d).2).
Proof.
  revert d. induction p as [a|err|k IH|B c k IH]; intros d; [done|done|apply (IH (tx_now e))|].
  rewrite exec_call, <- IH. cbn [in_memory]. by rewrite (exec_state (Program.perform c)).
Qed.

Lemma memory_run {A} (m : tx A) `{!Transaction m} md now d :
  Storage.run md None now m (Storage.mkStore d false) =
  match Storage.exec (in_memory (program m)) (mkEnv md now) d with
  | (d', Ok a) => (Storage.mkStore d' false, Ok a)
  | (_, Err err) => (Storage.mkStore d false, Err err)
  end.
Proof.
  unfold Storage.run. cbn [ctx_err ctx Storage.closed store_data]. rewrite program_runs, in_memory_state.
  destruct (Storage.exec _ _ d) as [d' [a|err]] eqn:E; [|done]. cbn [fst snd ctx_err ctx data]. case_decide as Hm; [done|].
  destruct md; [|done]. pose proof (read_only (program m) now d) as Hr. rewrite E in Hr. cbn in Hr. by subst d'.
Qed.

Lemma run_refines {A} (m : tx A) `{!Transaction m} md l c now t d :
  shows t d → is_i64 now → storing (program m) (mkEnv md now) d →
  let memory := Storage.run md None now m (Storage.mkStore d false) in
  let disk := run md l c now (program m) (mkStore t false) in
  (∀ a, disk.2 = Ok a → memory.2 = Ok a ∧ shows (database disk.1) (store_data memory.1)) ∧
  (∀ err, disk.2 = Err err →
     disk.1 = mkStore t false ∨
     c = Unacknowledged ∧ is_ok memory.2 = true ∧ shows (database disk.1) (store_data memory.1)) ∧
  (calm l → c = Committed → disk.2 = memory.2).
Proof.
  intros Hs Hn Hst. rewrite (memory_run m). cbv zeta. unfold run. cbn [closed database].
  set (body := point ≫= _). set (out := Storage.exec _ _ _).
  assert (Hbody : ends body (mkEnv md now) t l out).
  { do 3 (apply ends_point; intros ?). apply ends_checked. by apply on_disk_simulates; [apply program_strict|..]. }
  destruct Hbody as [(t' & l' & -> & Hs' & Hcalm)|(f & Hf & Hcalm)].
  - destruct out as [d' [a|err]]; cbn [fst snd] in *.
    + destruct c; cbn; split_and!; try done; try (intros ? [= <-]); try done; [by left|by right].
    + cbn. split_and!; [done|by left|done].
  - destruct (body (mkEnv md now) (mkConn t l)) as [s r]. cbn in Hf. subst r. cbn. split_and!; [done|by left|done].
Qed.


(** *** Expiry beyond the range of a column *)

Lemma run_call {B} (c : call B) md now t :
  run md [] Committed now (call_tx c) (mkStore t false) =
  match undisturbed (perform c) (mkEnv md now) t with
  | (t', Ok b) => (mkStore t' false, Ok b)
  | (_, Err err) => (mkStore t false, Err err)
  end.
Proof.
  unfold run. cbn [closed database]. unfold mbind, sql_bind. cbn [point faults call_tx on_disk].
  rewrite (undisturbed_state (perform c)). by destruct (undisturbed _ _ t) as [t' [b|err]].
Qed.

Lemma memory_put r now d :
  session_bytes r <= MaxRecordBytes →
  Storage.run writeTransaction None now (Storage.PutSession r) (Storage.mkStore d false) =
  (Storage.mkStore (set_sessions (<[seID r := r]> (sessions d)) d) false, Ok tt).
Proof.
  intros Hb. rewrite (memory_run (Storage.PutSession r)). cbn [program transaction_PutSession].
  unfold Storage.exec. rewrite <- (call_runs (CPutSession r)). cbn [Program.perform].
  rewrite (exec_state (Storage.PutSession r)), exec_PutSession. destruct (Z.gtb_spec (session_bytes r) MaxRecordBytes); [lia|done].
Qed.

Lemma memory_prune now d :
  Storage.run writeTransaction None now Storage.PruneExpired (Storage.mkStore d false) =
  (Storage.mkStore (prune now d) false, Ok tt).
Proof.
  rewrite (memory_run Storage.PruneExpired). cbn [program transaction_PruneExpired].
  unfold Storage.exec. rewrite <- (call_runs CPruneExpired). cbn [Program.perform].
  by rewrite (exec_state Storage.PruneExpired), exec_PruneExpired.
Qed.


(** *** Opening *)

(** Opening a database never loses a record.  It succeeds only on a file that no
    one but its owner can use and whose schema is not newer than the code's, and
    the store then has exactly the tables of the file, none for a new one; when it
    fails, an existing file is as it was. *)
Theorem open_preserves path absolute l disk :
  match Open path absolute l disk with
  | (disk', Ok s) =>
    path ≠ "" ∧ ∃ f, disk' = Some f ∧ s = mkStore (saved f) false ∧ user_version f = SchemaVersion ∧
    Z.land (perm f) 63 = 0 ∧
    match disk with
    | Some f0 => user_version f0 <= SchemaVersion ∧ saved f = saved f0 ∧ perm f = perm f0
    | None => shows (saved f) (store_data NewStore)
    end
  | (disk', Err _) => disk' = disk ∨ disk = None ∧ disk' = Some created
  end.
Proof.
  unfold Open. destruct (bool_decide_reflect (path = "")) as [|Hp]; [by left|]. destruct absolute; [|by left].
  assert (Hf : Some (default created disk) = disk ∨ disk = None ∧ Some (default created disk) = Some created)
    by (destruct disk; [by left|by right]).
  destruct (l !! 0%nat) as [[?|]|]; [by left|..]; (destruct (l !! 1%nat) as [[?|]|]; [done|..]);
    (destruct (Z.eqb_spec (Z.land (perm (default created disk)) 63) 0); cbn [negb]; [|done]);
    (destruct (l !! 2%nat) as [[?|]|]; [done|..]);
    (destruct (Z.gtb_spec (user_version (default created disk)) SchemaVersion); [done|]);
    (destruct (l !! 3%nat) as [[?|]|]; [done|..]);
    (split; [done|]; eexists; split_and!; [reflexivity..|done|]; destruct disk; [done|exact schema_shows]).
Qed.
End Refinement.
End Sqlite.

(** ** An example: Session records that differ only in their expiry, the namespace of one
    writer, and a codec that knows only these *)

Module SqliteExample.
Import Storage Program Sqlite.

Definition example (expires : Z) : SessionRecord :=
  mkSessionRecord 1 "s" "" "" 0 [] "opus" 0 no_relay 0 0 0 expires.

#[local] Instance example_json : RecordJson := {|
  json_session r := Some [seExpiresAt r];
  json_grant _ := None; json_receipt _ := None;
  json_namespace n := Some [nsSchemaVersion n; nsWriterTerm n; nsLeaseExpiresAt n];
  parse_session data := match data with [z] => Some (example z) | _ => None end;
  parse_grant _ := None; parse_receipt _ := None;
  parse_namespace data := match data with [a; b; c] => Some (mkNamespace a "i" b "standalone-relay" c) | _ => None end |}.
#[local] Instance example_sizes : RecordSizes := {|
  session_bytes _ := 1; grant_bytes _ := 1; receipt_bytes _ := 1; namespace_bytes _ := 3 |}.

Lemma example_faithful z : faithful json_session parse_session session_bytes (example z).
Proof. by exists [z]. Qed.

(** A transaction that stores a Session and reads it back. *)
Definition put_and_get : tx (option SessionRecord) :=
  Storage.PutSession (example 100) ≫= λ _, Storage.Session "s".
#[local] Instance put_and_get_transaction : Transaction put_and_get.
Proof. unfold put_and_get. apply _. Defined.


End SqliteExample.
