(* ===== verification/Process.v ===== *)
(** * Process: a relay process from its environment to its exit

    Translates [main] of [cmd/relay-server] ([main.go], [ice.go], [public_ip.go])
    with [discovery_http.go] of [internal/server], and [Serve] and [Shutdown] of
    [lifecycle.go] there: the settings the
    process refuses to start with, the store and the Session service it starts, the
    addresses it binds, and how the goroutine of the signal handler and [main] end
    the process. *)

From S2P Require Export Startup Sqlite.

(** ** From the environment to a server *)

Module MainProgram.
Import Environment Storage Program.

(** [net.ParseIP], printed again, and with [To4]; [net.LookupIP]; the answer of the
    address service. *)
Class Network := {
  ParseIP : string → option string;
  ParseIPv4 : string → option string;
  LookupIPv4 : string → option (list (option string));   (* To4 of each address *)
  ipify : option string }.                               (* the body of the response *)

(** The reasons for [os.Exit(1)]. *)
Inductive failure :=
| BadSecret | BadAuthorityMode | OtherDatabase | PathWithoutSqlite | BadStorage | StorageFailed
| BadLifetime | BadNamePolicy | ServiceFailed | NoControlPlane | BadCallback | BadTurnSecret | TurnFailed
| NoPublicIP | NoTcpListener | NoUdpSocket.

Inductive backend := Memory (st : Storage.Store) | Disk (st : Sqlite.Store).

Section Main.
Context `{RecordSizes} `{Sqlite.RecordJson} `{Token.Jwt} `{TurnAuth.HmacSha1} `{Network}.

Fixpoint first_some {A} (l : list (option A)) : option A :=
  match l with [] => None | Some a :: _ => Some a | None :: l' => first_some l' end.

Definition resolvePublicIP (env : string → string) : option string :=
  match (if bool_decide (env "FLY_PUBLIC_IP" = "") then None else ParseIPv4 (env "FLY_PUBLIC_IP")) with
  | Some ip => Some ip
  | None =>
    match (if bool_decide (env "FLY_APP_NAME" = "") then None
           else l ← LookupIPv4 (env "FLY_APP_NAME" +:+ ".fly.dev"); first_some l) with
    | Some ip => Some ip
    | None => body ← ipify; ParseIPv4 (Names.TrimSpace body)
    end
  end.

(** The network and the address of the media socket. *)
Definition iceUDPListenAddress (onFlyIO : bool) (bindIP : string) (port : Z) : string * string :=
  if onFlyIO then ("udp", AccessHandler.JoinHostPort "fly-global-services" (NamePolicy.Itoa port))
  else ("udp4", AccessHandler.JoinHostPort bindIP (NamePolicy.Itoa port)).

(** [NewService] on either store; [l] and [c] are the faults of the database. *)
Definition NewServiceOn (key : list Z) (cfg : Access.Config) (now : Z) (fresh : option string)
    (l : list (option Sqlite.fault)) (c : Sqlite.commit) (b : backend) : backend * result error Access.Service :=
  match b with
  | Memory st => let '(st', r) := Access.NewService key cfg None now fresh st in (Memory st', r)
  | Disk st =>
    if len key <? 32 then (b, Err ErrConfiguration)
    else if negb (NamePolicy.valid (Access.NamePolicy (Access.with_defaults cfg))) then (b, Err ErrConfiguration)
    else
      let cfg := Access.with_defaults cfg in
      match Sqlite.run writeTransaction l c now (program (Access.open_tx cfg fresh)) st with
      | (st', Ok ns) => (Disk st', Ok (Access.mkService key cfg (nsWriterTerm ns) (nsIncarnation ns)))
      | (st', Err e) => (Disk st', Err e)
      end
  end.

(** What the process finds around it: its environment, the database file, the time,
    a fresh identity, and which of the calls to other systems succeed. *)
Record world := mkWorld {
  env : string → string;
  abs : string → option string;
  disk : option Sqlite.file;
  open_faults : list (option Sqlite.fault);
  start_faults : list (option Sqlite.fault);
  start_commit : Sqlite.commit;
  now : Z;
  fresh : option string;
  plain_url : string → bool;   (* url.Parse: http or https, a host, and no user, query or fragment *)
  turn_binds : EmbeddedTurn.transport → Z → bool;
  listens : string → string → bool }.

Definition bytes (s : string) : list Z := (λ c, Z.of_nat (Ascii.nat_of_ascii c)) <$> Names.chars s.

(** The store of a standalone relay. *)
Definition open_backend (w : world) : option Sqlite.file * result failure backend :=
  let profile := getenv (env w) "POCKETSTATION_STORAGE" "memory" in
  if negb (bool_decide (env w "POCKETSTATION_DATABASE_URL" = "")) ||
     negb (bool_decide (env w "POCKETSTATION_INVITATION_DATABASE_URL" = "")) then (disk w, Err OtherDatabase)
  else if bool_decide (profile = "memory") then
    (disk w, if negb (bool_decide (env w "POCKETSTATION_SQLITE_PATH" = "")) then Err PathWithoutSqlite
             else Ok (Memory NewStore))
  else if bool_decide (profile = "sqlite") then
    match Sqlite.Open (env w "POCKETSTATION_SQLITE_PATH") (abs w (env w "POCKETSTATION_SQLITE_PATH"))
            (open_faults w) (disk w) with
    | (f, Ok st) => (f, Ok (Disk st))
    | (f, Err _) => (f, Err StorageFailed)
    end
  else (disk w, Err BadStorage).

Definition service_config (w : world) (ttl : Z) (policy : string) : Access.Config :=
  Access.mkConfig (getenvInt (env w) "RELAY_MAX_ROOMS" 100) (getenvInt (env w) "RELAY_MAX_INVITATIONS" 400)
    (getenvInt (env w) "POCKETSTATION_MAX_RECEIPTS" 400) 0 ttl 0 0 0 0 0 0
    (getenv (env w) "POCKETSTATION_WRITER_ID" "standalone-relay") 0 policy.

(** The Session service of a standalone relay. *)
Definition start_access (w : world) : option Sqlite.file * result failure (backend * Access.Service) :=
  match open_backend w with
  | (f, Err e) => (f, Err e)
  | (f, Ok b) =>
    (f, match Access.ParseSessionExpiryDuration (env w "POCKETSTATION_SESSION_TTL_SECONDS") with
        | Err _ => Err BadLifetime
        | Ok ttl =>
          match NamePolicy.ParseNameAllocationPolicy (env w "POCKETSTATION_NAME_POLICY") with
          | Err _ => Err BadNamePolicy
          | Ok policy =>
            match NewServiceOn (bytes (env w "POCKETSTATION_JWT_SECRET")) (service_config w ttl policy) (now w) (fresh w)
                    (start_faults w) (start_commit w) b with
            | (b', Ok s) => Ok (b', s)
            | (_, Err _) => Err ServiceFailed
            end
          end
        end)
  end.

(** [callback.NewClient] *)
Definition NewClient (w : world) (baseURL secret : string) : bool :=
  plain_url w baseURL && (len (bytes secret) >=? 32).

(** The settings of [access.HandlerConfig] and [session.RegistryConfig]. *)
Record limits := mkLimits {
  create_limit : Z; resolve_limit : Z; stun_urls : list string;
  service_turn : option AccessHandler.TURNConfig;
  inactivity_timeout : Z; reconnect_window : Z; max_buses : Z }.

(** What [main] has built when it calls [server.New]. *)
Record started := mkStarted {
  st_config : ServerDefaults.Config;
  st_limits : limits;
  st_access : option (backend * Access.Service);
  st_callback : option string;
  st_webhook : option string;
  st_clientICE : list AccessHandler.ICEServer;
  st_publicURL : string;
  st_tcp : option string;
  st_nat : list string;
  st_udp : string * string }.

Definition server_config (w : world) (mode : string) : ServerDefaults.Config :=
  let int := getenvInt (env w) in
  ServerDefaults.mkConfig (int "RELAY_MAX_ROOMS" 0) (int "RELAY_MAX_SUBSCRIBERS_PER_SESSION" 0)
    (int "MAX_ROOMS_PER_IP_PER_MINUTE" 0) (int "RELAY_MAX_CONCURRENT_HANDSHAKES" 0) (int "RELAY_MAX_INVITATIONS" 0)
    (i64 (int "CONTROL_AUTHORITY_TIMEOUT_MS" 5000 * Millisecond)) (i64 (int "CONTROL_RECONCILE_INTERVAL_SEC" 5 * Second))
    "" mode.

Definition other_limits (w : world) (turnSecret : list Z) : limits :=
  let int := getenvInt (env w) in
  mkLimits (int "MAX_ROOMS_PER_IP_PER_MINUTE" 10) (int "POCKETSTATION_INVITATION_RESOLVE_RATE_PER_MINUTE" 120)
    (splitComma (env w "POCKETSTATION_STUN_URLS")) (EmbeddedTurn.service_turn (env w) turnSecret)
    (i64 (int "ROOM_EXPIRY_MINUTES" 0 * Minute)) (i64 (int "SOURCE_RECONNECT_WINDOW_SEC" 0 * Second))
    (int "RELAY_MAX_BUSES_PER_SESSION" 0).

(** The ICE-TCP listener, if a port is set. *)
Definition tcp_listener (w : world) : result failure (option string) :=
  let tcpPort := getenvInt (env w) "ICE_TCP_PORT" 0 in
  if tcpPort >? 0 then
    let tcpAddr := AccessHandler.JoinHostPort "0.0.0.0" (NamePolicy.Itoa tcpPort) in
    if listens w "tcp4" tcpAddr then Ok (Some tcpAddr) else Err NoTcpListener
  else Ok None.

(** [cfg.NAT1To1IPs] *)
Definition nat_ips (w : world) : result failure (list string) :=
  let publicIPs := env w "RELAY_PUBLIC_IPS" in
  if bool_decide (publicIPs = "") then Ok []
  else if bool_decide (Names.ToLower publicIPs = "auto") then
    match resolvePublicIP (env w) with Some ip => Ok [ip] | None => Err NoPublicIP end
  else Ok (splitComma publicIPs).

Definition udp_socket (w : world) (nat : list string) : result failure (string * string) :=
  let onFlyIO := negb (bool_decide (env w "FLY_APP_NAME" = "")) in
  let udpBindIP :=
    match nat with
    | ip :: _ => if negb onFlyIO then default "0.0.0.0" (ParseIP ip) else "0.0.0.0"
    | [] => "0.0.0.0"
    end in
  let '(network, address) := iceUDPListenAddress onFlyIO udpBindIP (getenvInt (env w) "ICE_UDP_PORT" 0) in
  if listens w network address then Ok (network, address) else Err NoUdpSocket.

(** [callback.NewClient] in the mode that needs one. *)
Definition callback_client (w : world) (mode : string) : result failure (option string) :=
  let apiURL := env w "RELAY_API_SERVER_URL" in
  if bool_decide (mode = "control-plane") then
    if bool_decide (apiURL = "") then Err NoControlPlane
    else if NewClient w apiURL (env w "POCKETSTATION_INTERNAL_SECRET") then Ok (Some apiURL) else Err BadCallback
  else Ok None.

(** [main] after the Session service, up to the call of [server.New]. *)
Definition finish (w : world) (mode : string) (a : option (backend * Access.Service)) : result failure started :=
  match callback_client w mode with
  | Err e => Err e
  | Ok cb =>
    let webhook := if bool_decide (env w "WEBHOOK_URL" = "") then None else Some (env w "WEBHOOK_URL") in
    let turnSecret := bytes (env w "TURN_SHARED_SECRET") in
    if negb (bool_decide (env w "TURN_PUBLIC_IP" = "")) && (len turnSecret <? 32) then Err BadTurnSecret
    else
      match EmbeddedTurn.setupTURN (env w) ParseIP (resolvePublicIP (env w)) (turn_binds w) turnSecret (now w) with
      | None => Err TurnFailed
      | Some (clientICEServers, _) =>
        let url := getenv (env w) "PUBLIC_RELAY_URL" ("http://localhost:" +:+ NamePolicy.Itoa (getenvInt (env w) "PORT" 4800)) in
        match tcp_listener w with
        | Err e => Err e
        | Ok tcp =>
          match nat_ips w with
          | Err e => Err e
          | Ok nat =>
            match udp_socket w nat with
            | Err e => Err e
            | Ok udp =>
              Ok (mkStarted (server_config w mode) (other_limits w turnSecret) a cb webhook clientICEServers url tcp nat udp)
            end
          end
        end
      end
  end.

(** [main], up to the call of [server.New]: the database file it leaves and what it has
    built, or why it exits. *)
Definition main (w : world) : option Sqlite.file * result failure started :=
  if len (bytes (env w "POCKETSTATION_JWT_SECRET")) <? 32 then (disk w, Err BadSecret)
  else
    let authorityMode := getenv (env w) "RELAY_AUTHORITY_MODE" "standalone" in
    if bool_decide (authorityMode = "control-plane") then (disk w, finish w authorityMode None)
    else if bool_decide (authorityMode = "standalone") then
      match start_access w with
      | (f, Err e) => (f, Err e)
      | (f, Ok a) => (f, finish w authorityMode (Some a))
      end
    else (disk w, Err BadAuthorityMode).

(** *** What a running relay can rely on *)

Lemma open_backend_ok w f b :
  open_backend w = (f, Ok b) →
  match b with
  | Memory st => getenv (env w) "POCKETSTATION_STORAGE" "memory" = "memory" ∧
                 env w "POCKETSTATION_SQLITE_PATH" = "" ∧ f = disk w
  | Disk st =>
    env w "POCKETSTATION_STORAGE" = "sqlite" ∧ env w "POCKETSTATION_SQLITE_PATH" ≠ "" ∧
    Sqlite.Open (env w "POCKETSTATION_SQLITE_PATH") (abs w (env w "POCKETSTATION_SQLITE_PATH")) (open_faults w) (disk w) =
      (f, Ok st)
  end.
Proof.
  unfold open_backend. destruct (_ || _); [done|]. case_bool_decide as Hm.
  { case_bool_decide as Hp; cbn [negb]; [|done]. by intros [= <- <-]. }
  case_bool_decide as Hs; [|done].
  destruct (Sqlite.Open _ _ _ _) as [f' [st|e]] eqn:Ho; [|done]. intros [= <- <-]. split_and!; [| |done].
  - unfold getenv in Hs. by case_bool_decide.
  - intros Hp. by rewrite Hp in Ho.
Qed.

Lemma new_service_on_ok key cfg t fr l c b b' s :
  NewServiceOn key cfg t fr l c b = (b', Ok s) →
  Access.secret s = key ∧ match b, b' with Memory _, Memory _ | Disk _, Disk _ => True | _, _ => False end.
Proof.
  unfold NewServiceOn, Access.NewService. destruct b as [st|st]; (case_if; [done|]); (case_if; [done|]).
  - destruct (Update _ _ _ st) as [st' [ns|e]]; [|done]. by intros [= <- <-].
  - destruct (Sqlite.run _ _ _ _ _ st) as [st' [ns|e]]; [|done]. by intros [= <- <-].
Qed.

Lemma start_access_ok w f b s :
  start_access w = (f, Ok (b, s)) →
  ∃ b0 ttl policy, open_backend w = (f, Ok b0) ∧
    NewServiceOn (bytes (env w "POCKETSTATION_JWT_SECRET")) (service_config w ttl policy) (now w) (fresh w)
      (start_faults w) (start_commit w) b0 = (b, Ok s).
Proof.
  unfold start_access. destruct (open_backend w) as [f0 [b0|e]]; [|done].
  destruct (Access.ParseSessionExpiryDuration _) as [ttl|]; [|done].
  destruct (NamePolicy.ParseNameAllocationPolicy _) as [policy|]; [|done].
  destruct (NewServiceOn _ _ _ _ _ _ _) as [b' [s'|e]] eqn:Hn; [|done]. intros [= <- <- <-]. by exists b0, ttl, policy.
Qed.

Lemma finish_ok w mode a s :
  finish w mode a = Ok s →
  st_access s = a ∧ ServerDefaults.AuthorityMode (st_config s) = mode ∧ callback_client w mode = Ok (st_callback s) ∧
  (env w "TURN_PUBLIC_IP" ≠ "" → 32 <= len (bytes (env w "TURN_SHARED_SECRET"))) ∧
  nat_ips w = Ok (st_nat s) ∧ udp_socket w (st_nat s) = Ok (st_udp s).
Proof.
  unfold finish. destruct (callback_client w mode) as [cb|]; [|done]. case_if; [done|].
  destruct (EmbeddedTurn.setupTURN _ _ _ _ _ _) as [[ice ports]|]; [|done].
  destruct (tcp_listener w) as [tcp|]; [|done]. destruct (nat_ips w) as [nat|] eqn:Hn; [|done].
  destruct (udp_socket w nat) as [udp|] eqn:Hu; [|done]. intros [= <-]. cbn. split_and!; try done.
  intros Hne. rewrite bool_decide_false in E by done. bool_hyps. destruct E; [done|lia].
Qed.

(** A relay that starts is configured safely, whatever its environment.  Its signing
    secret has at least 32 bytes; it is either standalone, with a Session service of
    its own on one of the two stores, or placed under a control plane, with none and
    a callback client whose secret has at least 32 bytes; TURN is not offered
    with a shorter secret; the media socket is bound to the address it
    advertises, except behind the proxy that wants its own. *)
Theorem relay_starts_configured w f s :
  main w = (f, Ok s) →
  32 <= len (bytes (env w "POCKETSTATION_JWT_SECRET")) ∧
  (ServerDefaults.AuthorityMode (st_config s) = "standalone" ∧ st_callback s = None ∧
     (∃ b service, st_access s = Some (b, service) ∧ Access.secret service = bytes (env w "POCKETSTATION_JWT_SECRET") ∧
        match b with
        | Memory _ => env w "POCKETSTATION_SQLITE_PATH" = "" ∧ f = disk w
        | Disk _ => env w "POCKETSTATION_STORAGE" = "sqlite" ∧ env w "POCKETSTATION_SQLITE_PATH" ≠ ""
        end) ∨
   ServerDefaults.AuthorityMode (st_config s) = "control-plane" ∧ st_access s = None ∧ f = disk w ∧
     st_callback s = Some (env w "RELAY_API_SERVER_URL") ∧ 32 <= len (bytes (env w "POCKETSTATION_INTERNAL_SECRET"))) ∧
  (env w "TURN_PUBLIC_IP" ≠ "" → 32 <= len (bytes (env w "TURN_SHARED_SECRET"))) ∧
  (∀ advertised ip rest, env w "FLY_APP_NAME" = "" → st_nat s = advertised :: rest → ParseIP advertised = Some ip →
     st_udp s = ("udp4", AccessHandler.JoinHostPort ip (NamePolicy.Itoa (getenvInt (env w) "ICE_UDP_PORT" 0)))).
Proof.
  unfold main. destruct (Z.ltb_spec (len (bytes (env w "POCKETSTATION_JWT_SECRET"))) 32) as [|Hk]; [done|].
  set (mode := getenv _ _ _).
  assert (Hcommon : ∀ a, finish w mode a = Ok s → ∀ advertised ip rest,
    env w "FLY_APP_NAME" = "" → st_nat s = advertised :: rest → ParseIP advertised = Some ip →
    st_udp s = ("udp4", AccessHandler.JoinHostPort ip (NamePolicy.Itoa (getenvInt (env w) "ICE_UDP_PORT" 0)))).
  { intros a Hf advertised ip rest Hfly Hnat Hip. apply finish_ok in Hf as (_ & _ & _ & _ & _ & Hu). revert Hu.
    unfold udp_socket. rewrite Hfly, Hnat, bool_decide_true by done. cbn [negb]. rewrite Hip. cbn.
    case_if; [|done]. by intros [= <-]. }
  case_bool_decide as Hc; [|case_bool_decide as Hs; [|done]].
  - intros [= <- Hf]. pose proof (Hcommon _ Hf) as Hudp. apply finish_ok in Hf as (F1 & F2 & F3 & F4 & _). split_and!; [done| |done|done].
    right. rewrite F2. revert F3. unfold callback_client. rewrite bool_decide_true by done. case_if; [done|].
    unfold NewClient. case_if; [|done]. intros [= <-]. bool_hyps. split_and!; [done..|lia].
  - destruct (start_access w) as [f0 [[b service]|e]] eqn:Ha; [|done]. intros [= <- Hf].
    pose proof (Hcommon _ Hf) as Hudp. apply finish_ok in Hf as (F1 & F2 & F3 & F4 & _). split_and!; [done| |done|done].
    left. rewrite F2. split_and!; [done| |].
    + revert F3. unfold callback_client. rewrite bool_decide_false by done. by intros [= <-].
    + exists b, service. apply start_access_ok in Ha as (b0 & ttl & policy & Ho & Hn).
      apply new_service_on_ok in Hn as [Hkey Hb]. split_and!; [done|done|]. apply open_backend_ok in Ho.
      destruct b0, b; try done; destruct Ho as (O1 & O2 & O3); by split_and!.
Qed.

(** *** Restart *)

Lemma open_disk path absolute l disk f st :
  Sqlite.Open path absolute l disk = (f, Ok st) →
  st = Sqlite.mkStore (Sqlite.saved (default Sqlite.created disk)) false.
Proof.
  unfold Sqlite.Open. case_if; [done|]. destruct absolute; [|done].
  destruct (l !! 0%nat) as [[?|]|]; [done|..]; (destruct (l !! 1%nat) as [[?|]|]; [done|..]); (case_if; [done|]);
    (destruct (l !! 2%nat) as [[?|]|]; [done|..]); (case_if; [done|]);
    (destruct (l !! 3%nat) as [[?|]|]; [done|..]); by intros [= _ <-].
Qed.

(** C12: a standalone relay on the SQLite store comes back with everything it had stored.
    Started on a database file that holds some records, whatever fails on the
    way, a relay whose Session service starts has in its database the same
    Sessions, invitations, locators and receipts, and every Session is as it was
    except that nobody is connected to it. *)
Theorem restart_keeps_sessions w f b service f0 d :
  start_access w = (f, Ok (b, service)) → env w "POCKETSTATION_STORAGE" = "sqlite" →
  disk w = Some f0 → Sqlite.shows (Sqlite.saved f0) d → is_i64 (now w) →
  (∀ ttl policy, Sqlite.storing
     (program (Access.open_tx (Access.with_defaults (service_config w ttl policy)) (fresh w)))
     (mkEnv writeTransaction (now w)) d) →
  ∃ st ns, b = Disk st ∧ Access.term service = nsWriterTerm ns ∧ Access.incarnation service = nsIncarnation ns ∧
    Sqlite.shows (Sqlite.database st) (set_sessions (Access.reopened <$> sessions d) (set_namespace ns d)).
Proof.
  intros Hs Hprofile Hdisk Hshows Hnow Hstoring.
  apply start_access_ok in Hs as (b0 & ttl & policy & Ho & Hn). apply open_backend_ok in Ho.
  destruct b0 as [st0|st0].
  { destruct Ho as [Ho _]. unfold getenv in Ho. by rewrite Hprofile in Ho. }
  destruct Ho as (_ & _ & Ho). apply open_disk in Ho. rewrite Hdisk in Ho. cbn [default] in Ho. subst st0.
  unfold NewServiceOn in Hn. case_if; [done|]. case_if; [done|]. specialize (Hstoring ttl policy).
  set (cfg := Access.with_defaults (service_config w ttl policy)) in *.
  pose proof (Sqlite.run_refines (Access.open_tx cfg (fresh w)) writeTransaction (start_faults w) (start_commit w)
                (now w) _ d Hshows Hnow Hstoring) as (Hok & _ & _).
  destruct (Sqlite.run _ _ _ _ _ _) as [st [ns|e]]; [|done]. injection Hn as <- <-.
  destruct (Hok ns eq_refl) as [Hm Hshown]. exists st, ns. split_and!; [done..|]. cbn [fst] in Hshown.
  rewrite (Sqlite.memory_run (Access.open_tx cfg (fresh w))) in Hm, Hshown.
  destruct (Storage.exec _ _ d) as [d' [ns'|e]] eqn:Hex; [|done]. cbn in Hm, Hshown. injection Hm as ->.
  rewrite <- (Access.open_exact cfg (fresh w) (now w) d d' ns (Sqlite.shows_wf _ _ Hshows)); [done|].
  unfold Storage.exec in *. by rewrite program_runs.
Qed.
End Main.
End MainProgram.

(** ** An example: a standalone relay on a database with one Session *)

Module ProcessExample.
Import Environment Storage Program MainProgram.
#[local] Existing Instances SqliteExample.example_json SqliteExample.example_sizes TurnExample.no_hmac.
#[local] Instance example_network : Network := {|
  ParseIP s := Some s; ParseIPv4 s := Some s; LookupIPv4 _ := None; ipify := None |}.

Definition example_env (key : string) : string :=
  if bool_decide (key = "POCKETSTATION_JWT_SECRET") then "0123456789abcdef0123456789abcdef"
  else if bool_decide (key = "POCKETSTATION_STORAGE") then "sqlite"
  else if bool_decide (key = "POCKETSTATION_SQLITE_PATH") then "/data/access.db"
  else if bool_decide (key = "RELAY_PUBLIC_IPS") then "192.0.2.7, 192.0.2.8" else "".

Definition example_session : SessionRecord := SqliteExample.example 100.
Definition example_tables : Sqlite.tables :=
  default Sqlite.schema (Sqlite.upsert_session "s" (Sqlite.session_row example_session) Sqlite.schema).
Definition example_records : records :=
  set_sessions (<["s" := example_session]> (sessions (store_data NewStore))) (store_data NewStore).

Definition example_world : world :=
  mkWorld example_env Some (Some (Sqlite.mkFile 384 1 example_tables)) [] [] Sqlite.Committed 5 (Some "i")
    (λ _, true) (λ _ _, true) (λ _ _, true).

Lemma example_shows : Sqlite.shows example_tables example_records.
Proof.
  destruct (Sqlite.put_session_shows example_session Sqlite.schema (store_data NewStore) Sqlite.schema_shows)
    as (t & Ht & Hs).
  - split; [apply SqliteExample.example_faithful|by vm_compute].
  - by vm_compute.
  - apply put_session_wf, (Sqlite.shows_wf _ _ Sqlite.schema_shows).
  - unfold example_tables. cbn [example_session SqliteExample.example seID] in Ht. by rewrite Ht.
Qed.

Lemma relay_starts_configured_witness :
  ∃ f s, main example_world = (f, Ok s) ∧ st_udp s = ("udp4", "192.0.2.7:0").
Proof.
  destruct (main example_world) as [f [s|e]] eqn:Hm;
    [|assert (H : is_ok (main example_world).2 = true) by (vm_compute; reflexivity); rewrite Hm in H; discriminate].
  exists f, s. split; [reflexivity|].
  assert (Hn : match (main example_world).2 with Ok s => st_nat s | Err _ => [] end = ["192.0.2.7"; "192.0.2.8"])
    by (vm_compute; reflexivity). rewrite Hm in Hn. cbn in Hn.
  destruct (relay_starts_configured example_world f s Hm) as (_ & _ & _ & Hu).
  exact (Hu "192.0.2.7" "192.0.2.7" ["192.0.2.8"] eq_refl Hn eq_refl).
Defined.

Lemma restart_keeps_sessions_witness :
  ∃ f st service ns, start_access example_world = (f, Ok (Disk st, service)) ∧
    Sqlite.shows (Sqlite.database st)
      (set_sessions (Access.reopened <$> sessions example_records) (set_namespace ns example_records)).
Proof.
  destruct (start_access example_world) as [f [[b service]|e]] eqn:Hs;
    [|assert (H : is_ok (start_access example_world).2 = true) by (vm_compute; reflexivity); rewrite Hs in H; discriminate].
  destruct (restart_keeps_sessions example_world f b service (Sqlite.mkFile 384 1 example_tables) example_records Hs)
    as (st & ns & -> & _ & _ & H).
  - reflexivity.
  - reflexivity.
  - exact example_shows.
  - split; vm_compute; discriminate.
  - intros ttl policy. vm_compute. split; [exact I|].
    split; [exists [1; 1; 30000000005]; split; [|split]; reflexivity|split; [discriminate|exact I]].
  - exists f, st, service, ns. split; [reflexivity|exact H].
Defined.
End ProcessExample.

(** ** Discovery

    [discovery_http.go], with the parts of [url.Parse] and [net.ParseIP] that it uses. *)

Module Discovery.

Record URL := mkURL {
  Scheme : string; Opaque : string; Hostname : string; User : bool; RawQuery : string; Fragment : string }.

Definition maxPublicControlPlaneURLBytes : Z := 2048.

(** [strings.EqualFold] with an ASCII word: besides the letters in both cases, the long s
    (U+017F) folds to s and the Kelvin sign (U+212A) to k. *)
Definition code (c : Ascii.ascii) : Z := Z.of_nat (Ascii.nat_of_ascii c).
Fixpoint fold_special (l : list Ascii.ascii) : list Ascii.ascii :=
  match l with
  | a :: ((b :: l2) as l1) =>
    if (code a =? 197) && (code b =? 191) then Ascii.ascii_of_nat 115 :: fold_special l2
    else match l2 with
         | c :: l3 =>
           if (code a =? 226) && (code b =? 132) && (code c =? 170) then Ascii.ascii_of_nat 107 :: fold_special l3
           else a :: fold_special l1
         | [] => a :: fold_special l1
         end
  | _ => l
  end.
Definition EqualFold (s word : string) : bool :=
  bool_decide (Names.ToLower (Names.of_chars (fold_special (Names.chars s))) = Names.ToLower word).

Section Discovery.
Context (Parse : string → option URL) (IsLoopback : string → bool).   (* an IP address, and loopback *)

Definition validPublicControlPlaneURL (address : string) : bool :=
  if bool_decide (address = "") || (Z.of_nat (String.length address) >? maxPublicControlPlaneURLBytes) then false
  else match Parse address with
       | None => false
       | Some parsed =>
         if negb (bool_decide (Opaque parsed = "")) || bool_decide (Hostname parsed = "") || User parsed ||
            negb (bool_decide (RawQuery parsed = "")) || negb (bool_decide (Fragment parsed = "")) then false
         else if bool_decide (Scheme parsed = "https") then true
         else if negb (bool_decide (Scheme parsed = "http")) then false
         else if EqualFold (Hostname parsed) "localhost" then true
         else IsLoopback (Hostname parsed)
       end.

(** The document, or the status of the refusal. *)
Record document := mkDocument { authority_url : string; control_plane_url : option string }.

Definition serviceDiscovery (authorityMode publicRelayURL publicControlPlaneURL : string) : result Z document :=
  let managed := bool_decide (authorityMode = "control-plane") in
  let address := if managed then publicControlPlaneURL else publicRelayURL in
  if negb (validPublicControlPlaneURL address) then Err 503
  else Ok (mkDocument address (if managed then Some address else None)).

(** A relay never announces an authority that clients would reach in clear text over the
    network: the address announced is an https URL, or an http URL of the same
    host, with no credentials, query or fragment; and a managed relay announces its
    control plane, never itself. *)
Theorem discovery_is_secure mode relay plane doc :
  serviceDiscovery mode relay plane = Ok doc →
  ∃ u, Parse (authority_url doc) = Some u ∧ Hostname u ≠ "" ∧ User u = false ∧ RawQuery u = "" ∧ Fragment u = "" ∧
    (Scheme u = "https" ∨
     Scheme u = "http" ∧ (EqualFold (Hostname u) "localhost" = true ∨ IsLoopback (Hostname u) = true)) ∧
    (mode = "control-plane" → authority_url doc = plane ∧ control_plane_url doc = Some plane).
Proof.
  unfold serviceDiscovery. destruct (validPublicControlPlaneURL _) eqn:Hv; cbn [negb]; [|done]. intros [= <-].
  cbn [authority_url control_plane_url]. revert Hv. unfold validPublicControlPlaneURL. case_if; [done|].
  set (address := if bool_decide (mode = _) then _ else _). destruct (Parse address) as [u|]; [|done].
  case_if; [done|]. bool_hyps. intros Hv. exists u. split_and!; try done; try tauto.
  - revert Hv. destruct (bool_decide_reflect (Scheme u = "https")); [auto|].
    destruct (bool_decide_reflect (Scheme u = "http")); cbn [negb]; [|done]. destruct (EqualFold _ _); auto.
  - intros Hm. unfold address. by rewrite !bool_decide_true.
Qed.
End Discovery.

Lemma discovery_is_secure_witness :
  ∃ u, (λ _, Some (mkURL "https" "" "relay.example" false "" "")) "https://relay.example" = Some u ∧ Scheme u = "https".
Proof.
  destruct (discovery_is_secure (λ _, Some (mkURL "https" "" "relay.example" false "" "")) (λ _, false)
              "standalone" "https://relay.example" "" (mkDocument "https://relay.example" None))
    as (u & Hu & _); [vm_compute; reflexivity|].
  exists u. split; [exact Hu|]. by injection Hu as <-.
Defined.
End Discovery.

(** ** Serving and stopping

    [main] runs [Serve]; the goroutine that [main] starts waits for a signal and runs
    [Shutdown].  Requests come and finish on connections of the HTTP server, which
    behaves as [net/http] documents: once [Shutdown] is called it closes its listener,
    [ListenAndServe] returns [ErrServerClosed] at once, and [Shutdown] waits for the
    requests in flight until its context ends.  The process ends when [main] returns. *)

Module Lifecycle.

Inductive main_state :=
| MServe      (* before [Serve] has set [s.httpServer] *)
| MListen     (* before [ListenAndServe] *)
| MAccept     (* in the accept loop *)
| MClosed     (* [ListenAndServe] has returned [ErrServerClosed] *)
| MExited (code : Z).

Inductive handler_state :=
| HWait                        (* [sig := <-sigCh] *)
| HStop                        (* [turnSrv.Stop()] *)
| HFlag                        (* [s.shuttingDown = true] *)
| HPeers                       (* after the ingress connections, the server and the peers are read *)
| HShutdown (captured : bool)  (* the peers are closed; [httpServer != nil] *)
| HDrain                       (* in [httpServer.Shutdown] *)
| HClose                       (* [s.relaySessions.CloseAll()] *)
| HDone (failed : bool).

#[export] Instance handler_state_eq_dec : EqDecision handler_state.
Proof. solve_decision. Defined.

Record process := mkProcess {
  accessInitError : bool;
  httpServer : bool;        (* [s.httpServer] is set *)
  inShutdown : bool;        (* [httpServer.Shutdown] has been called *)
  listening : bool;
  active : nat;             (* requests in flight *)
  peers : nat;              (* signaling peers *)
  ingress : nat;            (* WebSocket media sources *)
  turnRunning : bool;
  shuttingDown : bool;
  sessionsClosed : bool;
  main_ : main_state;
  handler : handler_state }.

Definition start (initError : bool) (turn : bool) : process :=
  mkProcess initError false false false 0 0 0 turn false false MServe HWait.

Definition set_main (m : main_state) (p : process) : process :=
  mkProcess (accessInitError p) (httpServer p) (inShutdown p) (listening p) (active p) (peers p) (ingress p)
    (turnRunning p) (shuttingDown p) (sessionsClosed p) m (handler p).
Definition set_handler (h : handler_state) (p : process) : process :=
  mkProcess (accessInitError p) (httpServer p) (inShutdown p) (listening p) (active p) (peers p) (ingress p)
    (turnRunning p) (shuttingDown p) (sessionsClosed p) (main_ p) h.
Definition set_http (published shut listens_ : bool) (n : nat) (p : process) : process :=
  mkProcess (accessInitError p) published shut listens_ n (peers p) (ingress p)
    (turnRunning p) (shuttingDown p) (sessionsClosed p) (main_ p) (handler p).
Definition set_conns (ps is_ : nat) (p : process) : process :=
  mkProcess (accessInitError p) (httpServer p) (inShutdown p) (listening p) (active p) ps is_
    (turnRunning p) (shuttingDown p) (sessionsClosed p) (main_ p) (handler p).
Definition set_flags (turn stopping closed_ : bool) (p : process) : process :=
  mkProcess (accessInitError p) (httpServer p) (inShutdown p) (listening p) (active p) (peers p) (ingress p)
    turn stopping closed_ (main_ p) (handler p).

(** [Serve] and the end of [main]; [binds]: the address can be bound. *)
Definition main_step (binds : bool) (p : process) : option process :=
  match main_ p with
  | MServe =>
    if accessInitError p then Some (set_main (MExited 1) p)
    else Some (set_main MListen (set_http true (inShutdown p) (listening p) (active p) p))
  | MListen =>
    if inShutdown p then Some (set_main MClosed p)
    else if binds then Some (set_main MAccept (set_http (httpServer p) false true (active p) p))
    else Some (set_main (MExited 1) p)
  | MAccept => if inShutdown p then Some (set_main MClosed p) else None
  | MClosed => Some (set_main (MExited 0) p)
  | MExited _ => None
  end.

(** The goroutine of the signal; [expired]: the context of the drain has ended. *)
Definition handler_step (expired : bool) (p : process) : option process :=
  match handler p with
  | HWait => None
  | HStop => Some (set_handler HFlag (set_flags false (shuttingDown p) (sessionsClosed p) p))
  | HFlag => Some (set_handler HPeers (set_flags (turnRunning p) true (sessionsClosed p) (set_conns (peers p) 0 p)))
  | HPeers => Some (set_handler (HShutdown (httpServer p)) (set_conns 0 (ingress p) p))
  | HShutdown false => Some (set_handler HClose p)
  | HShutdown true => Some (set_handler HDrain (set_http (httpServer p) true false (active p) p))
  | HDrain =>
    if (active p =? 0)%nat then Some (set_handler HClose p)
    else if expired then Some (set_handler (HDone true) p) else None
  | HClose => Some (set_handler (HDone false) (set_flags (turnRunning p) (shuttingDown p) true p))
  | HDone _ => None
  end.

Inductive label :=
| LMain (binds : bool)
| LSignal
| LHandler (expired : bool)
| LRequest | LReply      (* a request arrives, or is answered *)
| LPeer | LIngress.      (* a signaling peer or a media source connects *)

Definition act (p : process) (l : label) : option process :=
  match l with
  | LMain binds => main_step binds p
  | LSignal => Some (if decide (handler p = HWait) then set_handler HStop p else p)
  | LHandler expired => handler_step expired p
  | LRequest => if listening p then Some (set_http (httpServer p) (inShutdown p) true (S (active p)) p) else None
  | LReply => match active p with
              | O => None
              | S n => Some (set_http (httpServer p) (inShutdown p) (listening p) n p)
              end
  | LPeer => if listening p then Some (set_conns (S (peers p)) (ingress p) p) else None
  | LIngress => if listening p && negb (shuttingDown p) then Some (set_conns (peers p) (S (ingress p)) p) else None
  end.

(** When [main] has returned there is no process. *)
Definition step (p : process) (l : label) : option process :=
  match main_ p with MExited _ => None | _ => act p l end.

Lemma step_act p l p' : step p l = Some p' → act p l = Some p'.
Proof. unfold step. by destruct (main_ p). Qed.

Fixpoint run (p : process) (ls : list label) : option process :=
  match ls with
  | [] => Some p
  | l :: ls' => p' ← step p l; run p' ls'
  end.

(** *** The invariant *)

(** The handler has passed the call of [httpServer.Shutdown]. *)
Definition called (h : handler_state) : bool := match h with HDrain | HDone true => true | _ => false end.

Record ok (p : process) : Prop := mkOk {
  ok_listening : listening p = true → inShutdown p = false;
  ok_called : called (handler p) = true → inShutdown p = true;
  ok_drained : inShutdown p = true →
    called (handler p) = true ∨ (handler p = HClose ∨ handler p = HDone false) ∧ active p = 0%nat;
  ok_closed : sessionsClosed p = true ↔ handler p = HDone false;
  ok_exit : main_ p = MClosed ∨ main_ p = MExited 0 → inShutdown p = true }.

Lemma ok_start initError turn : ok (start initError turn).
Proof. split; cbn; try done. by intros [?|?]. Qed.

(** Steps that leave the handler where it is. *)
Lemma ok_frame p p' :
  ok p → handler p' = handler p → inShutdown p' = inShutdown p → sessionsClosed p' = sessionsClosed p →
  (listening p' = true → inShutdown p = false) → (inShutdown p = true → active p = 0%nat → active p' = 0%nat) →
  (main_ p' = MClosed ∨ main_ p' = MExited 0 → inShutdown p = true) → ok p'.
Proof.
  intros [H1 H2 H3 H4 H5] Hh Hi Hc Hl Ha Hm. split; rewrite ?Hh, ?Hi, ?Hc; try done.
  intros Hin. destruct (H3 Hin) as [?|[? ?]]; [by left|right]. auto.
Qed.

Lemma ok_main_step binds p p' : ok p → main_step binds p = Some p' → ok p'.
Proof.
  intros Hok. pose proof Hok as [H1 H2 H3 H4 H5]. unfold main_step. destruct (main_ p) eqn:Hm.
  - destruct (accessInitError p); intros [= <-]; apply (ok_frame p); cbn; try done; by intros [?|?].
  - destruct (inShutdown p) eqn:Hi; [|destruct binds]; intros [= <-]; apply (ok_frame p); cbn; try done; try congruence;
      first [by rewrite Hi|by intros [?|?]].
  - destruct (inShutdown p) eqn:Hi; intros [= <-]. apply (ok_frame p); cbn; try done. by rewrite Hi.
  - intros [= <-]. apply (ok_frame p); cbn; try done. auto.
  - done.
Qed.

(** Steps of the handler before it calls [httpServer.Shutdown]. *)
Lemma ok_before p p' :
  ok p → inShutdown p = false → inShutdown p' = false → sessionsClosed p' = false → called (handler p') = false →
  handler p' ≠ HDone false → main_ p' = main_ p → ok p'.
Proof.
  intros [H1 H2 H3 H4 H5] Hi Hi' Hc Hcall Hd Hm. rewrite Hi in H5.
  split; rewrite ?Hi', ?Hc, ?Hcall, ?Hm; try done.
Qed.

Lemma ok_handler_step expired p p' : ok p → handler_step expired p = Some p' → ok p'.
Proof.
  intros Hok. pose proof Hok as [H1 H2 H3 H4 H5]. unfold handler_step.
  assert (Hdrained : handler p ≠ HDrain → handler p ≠ HClose → called (handler p) = false →
                     handler p ≠ HDone false → inShutdown p = false).
  { intros. destruct (inShutdown p) eqn:Hi; [|done]. destruct (H3 eq_refl) as [?|[[?|?] _]]; congruence. }
  assert (Hopen : handler p ≠ HDone false → sessionsClosed p = false).
  { intros Hne. apply not_true_is_false. by intros ?%H4. }
  destruct (handler p) as [| | | |[]| | |f] eqn:Hh; [done| | | | | | | |done];
    try (intros [= <-]; apply (ok_before p); cbn; auto; done).
  - intros [= <-]. split; cbn; rewrite ?Hopen by done; try done; auto.
  - destruct (active p =? 0)%nat eqn:Ha; [|destruct expired; [|done]]; intros [= <-];
      split; cbn; rewrite ?Hopen by done; try done; auto. apply Nat.eqb_eq in Ha. auto.
  - intros [= <-]. split; cbn; try done. intros Hi. destruct (H3 Hi) as [?|[_ ?]]; [done|auto].
Qed.

Lemma ok_step p l p' : ok p → step p l = Some p' → ok p'.
Proof.
  intros Hok Hs%step_act. unfold act in Hs.
  pose proof Hok as [H1 H2 H3 H4 H5]. destruct l.
  - by eapply ok_main_step.
  - case_decide as Hw; injection Hs as <-; [|done]. split; cbn; try done; rewrite Hw in *; [|naive_solver].
    intros Hi. destruct (H3 Hi) as [?|[[?|?] _]]; done.
  - by eapply ok_handler_step.
  - destruct (listening p) eqn:Hl; [|done]. injection Hs as <-. apply (ok_frame p); cbn; try done; auto.
    rewrite H1 by done. done.
  - destruct (active p) as [|n] eqn:Ha; [done|]. injection Hs as <-. apply (ok_frame p); cbn; try done; auto. lia.
  - destruct (listening p) eqn:Hl; [|done]. injection Hs as <-. apply (ok_frame p); cbn; try done; auto.
  - destruct (listening p && _) eqn:Hl; [|done]. injection Hs as <-. apply (ok_frame p); cbn; try done; auto.
Qed.

Lemma ok_run p ls p' : ok p → run p ls = Some p' → ok p'.
Proof.
  revert p. induction ls as [|l ls IH]; intros p Hok; cbn; [by intros [= <-]|].
  destruct (step p l) as [q|] eqn:Hs; cbn; [|done]. apply IH. by eapply ok_step.
Qed.

(** *** What a stop guarantees *)

(** An orderly stop: whenever the signal handler has finished without an error and
    had found the HTTP server, the server no longer listens, every request has been
    answered and every Session has been closed; and when it gave up because the
    drain took too long, no Session has been closed. *)
Theorem shutdown_completes initError turn ls p :
  run (start initError turn) ls = Some p →
  (handler p = HDone false → inShutdown p = true → listening p = false ∧ active p = 0%nat ∧ sessionsClosed p = true) ∧
  (handler p = HDone true → listening p = false ∧ sessionsClosed p = false).
Proof.
  intros Hrun. destruct (ok_run _ _ _ (ok_start initError turn) Hrun) as [H1 H2 H3 H4 H5].
  assert (Hl : inShutdown p = true → listening p = false).
  { intros Hi. apply not_true_is_false. intros Hl. by rewrite (H1 Hl) in Hi. }
  split.
  - intros Hh Hi. split_and!; [by apply Hl| |by apply H4]. destruct (H3 Hi) as [Hc|[_ Ha]]; [by rewrite Hh in Hc|done].
  - intros Hh. rewrite Hh in H2, H4. split; [apply Hl; by apply H2|]. apply not_true_is_false. by intros ?%H4.
Qed.

(** C35: the process does not wait for its own shutdown.  From the moment the signal
    handler waits in [httpServer.Shutdown] for the requests in flight, [main] can
    return and end the process with the exit code of a clean stop, whatever the
    number of those requests and however much of the grace period is left: none of
    them is answered and no Session is closed. *)
Theorem exit_cuts_drain initError turn ls p :
  run (start initError turn) ls = Some p → handler p = HDrain →
  (main_ p = MListen ∨ main_ p = MAccept ∨ main_ p = MClosed) →
  ∃ ms p', run p (LMain <$> ms) = Some p' ∧ main_ p' = MExited 0 ∧ handler p' = HDrain ∧
           active p' = active p ∧ sessionsClosed p' = false.
Proof.
  intros Hrun Hh Hm. destruct (ok_run _ _ _ (ok_start initError turn) Hrun) as [H1 H2 H3 H4 H5].
  rewrite Hh in H2, H4. assert (Hi : inShutdown p = true) by by apply H2.
  assert (Hc : sessionsClosed p = false) by (apply not_true_is_false; by intros ?%H4).
  destruct Hm as [Hm|[Hm|Hm]].
  1-2: exists [true; true]; unfold run, step, act, main_step; cbn; rewrite Hm; cbn; rewrite Hi; cbn; eexists; by split_and!.
  exists [true]. unfold run, step, act, main_step. cbn. rewrite Hm. cbn. eexists. by split_and!.
Qed.

(** The handler has announced the stop. *)
Definition announced (h : handler_state) : bool := match h with HWait | HStop | HFlag => false | _ => true end.

Record serving (p : process) : Prop := mkServing {
  sv_init : accessInitError p = false;
  sv_flag : announced (handler p) = true → shuttingDown p = true;
  sv_listening : main_ p = MAccept → inShutdown p = false → listening p = true }.

Lemma serving_step p l p' : serving p → step p l = Some p' → serving p'.
Proof.
  intros [H1 H2 H3] Hs%step_act. destruct l as [binds| |expired| | | |]; cbn [act] in Hs.
  - unfold main_step in Hs. rewrite H1 in Hs. destruct (main_ p) eqn:Hm; [| | | |done];
      [|destruct (inShutdown p); [|destruct binds]|destruct (inShutdown p); [|done]|]; injection Hs as <-; by split.
  - case_decide as Hw; injection Hs as <-; by split.
  - unfold handler_step in Hs. destruct (handler p) as [| | | |[]| | |] eqn:Hh;
      [done| | | | | |destruct (active p =? 0)%nat; [|destruct expired; [|done]]| |done]; injection Hs as <-; split; cbn; auto.
  - destruct (listening p); [|done]. injection Hs as <-. by split.
  - destruct (active p); [done|]. injection Hs as <-. by split.
  - destruct (listening p) eqn:Hl; [|done]. injection Hs as <-. by split.
  - destruct (listening p && _) eqn:Hl; [|done]. injection Hs as <-. by split.
Qed.

Lemma serving_run p ls p' : serving p → run p ls = Some p' → serving p'.
Proof.
  revert p. induction ls as [|l ls IH]; intros p Hok; cbn; [by intros [= <-]|].
  destruct (step p l) as [q|] eqn:Hs; cbn; [|done]. apply IH. by eapply serving_step.
Qed.

(** The handler has found no server and will call nothing. *)
Definition missed (h : handler_state) : bool := match h with HShutdown false | HClose | HDone false => true | _ => false end.
Definition before_exit (m : main_state) : bool := match m with MServe | MListen | MAccept => true | _ => false end.

Lemma missed_step p l p' :
  serving p → missed (handler p) = true → inShutdown p = false → before_exit (main_ p) = true → l ≠ LMain false →
  step p l = Some p' → missed (handler p') = true ∧ inShutdown p' = false ∧ before_exit (main_ p') = true.
Proof.
  intros [H1 _ _] Hh Hi Hm Hl Hs%step_act. destruct l as [[]| |expired| | | |]; cbn [act] in Hs.
  - unfold main_step in Hs. rewrite H1, Hi in Hs. destruct (main_ p); try done; injection Hs as <-; by split_and!.
  - done.
  - case_decide as Hw; injection Hs as <-; [by rewrite Hw in Hh|by split_and!].
  - unfold handler_step in Hs. destruct (handler p) as [| | | |[]| | |[]]; try done; injection Hs as <-; by split_and!.
  - destruct (listening p); [|done]. injection Hs as <-. by split_and!.
  - destruct (active p); [done|]. injection Hs as <-. by split_and!.
  - destruct (listening p); [|done]. injection Hs as <-. by split_and!.
  - destruct (listening p && _); [|done]. injection Hs as <-. by split_and!.
Qed.

Lemma missed_run p ls p' :
  serving p → missed (handler p) = true → inShutdown p = false → before_exit (main_ p) = true →
  Forall (λ l, l ≠ LMain false) ls → run p ls = Some p' →
  missed (handler p') = true ∧ inShutdown p' = false ∧ before_exit (main_ p') = true.
Proof.
  revert p. induction ls as [|l ls IH]; intros p Hs Hh Hi Hm Hls; cbn; [by intros [= <-]|].
  apply Forall_cons in Hls as [Hl Hls]. destruct (step p l) as [q|] eqn:Hq; cbn; [|done].
  destruct (missed_step p l q Hs Hh Hi Hm Hl Hq) as (? & ? & ?). by apply IH; [eapply serving_step|..].
Qed.

(** C36: a signal that comes too early is lost.  When the signal handler finds that [Serve]
    has not stored the HTTP server yet, it stops nothing: from then on, if the
    address can be bound, the process never ends, however many more signals it
    gets, and once it accepts connections it goes on accepting requests while it
    refuses media sources as a relay that shuts down. *)
Theorem early_signal_is_lost turn ls p ls' p' :
  run (start false turn) ls = Some p → handler p = HShutdown false → before_exit (main_ p) = true →
  Forall (λ l, l ≠ LMain false) ls' → run p ls' = Some p' →
  (∀ c, main_ p' ≠ MExited c) ∧
  (main_ p' = MAccept → is_Some (step p' LRequest) ∧ step p' LIngress = None).
Proof.
  intros Hrun Hh Hm Hls Hrun'. destruct (ok_run _ _ _ (ok_start false turn) Hrun) as [_ H2 H3 _ _].
  assert (Hi : inShutdown p = false).
  { apply not_true_is_false. intros Hi. destruct (H3 Hi) as [Hc|[[Hc|Hc] _]]; by rewrite Hh in Hc. }
  assert (Hs : serving p) by (eapply serving_run; [|exact Hrun]; by split).
  destruct (missed_run p ls' p') as (Q1 & Q2 & Q3); try done; [by rewrite Hh|]. split.
  - intros c Hc. by rewrite Hc in Q3.
  - intros Ha. destruct (serving_run _ _ _ Hs Hrun') as [_ F L]. unfold step, act. rewrite Ha, (L Ha Q2), F; [by eauto|].
    by destruct (handler p') as [| | | |[]| | |[]].
Qed.

(** *** Examples *)

(** One request is in flight when the signal comes. *)
Definition example_drain : list label :=
  [LMain true; LMain true; LRequest; LSignal; LHandler false; LHandler false; LHandler false; LHandler false].

Definition stopped_process : process := mkProcess false true true false 0 0 0 false true true MAccept (HDone false).

Lemma shutdown_completes_witness :
  run (start false true) (example_drain ++ [LReply; LHandler false; LHandler false]) = Some stopped_process ∧
  listening stopped_process = false ∧ active stopped_process = 0%nat ∧ sessionsClosed stopped_process = true.
Proof.
  assert (Hrun : run (start false true) (example_drain ++ [LReply; LHandler false; LHandler false]) = Some stopped_process)
    by (vm_compute; reflexivity).
  split; [exact Hrun|].
  apply (shutdown_completes false true (example_drain ++ [LReply; LHandler false; LHandler false]) stopped_process Hrun);
    reflexivity.
Defined.

Definition draining_process : process := mkProcess false true true false 1 0 0 false true false MAccept HDrain.

Lemma exit_cuts_drain_witness :
  run (start false true) example_drain = Some draining_process ∧
  ∃ ms p', run draining_process (LMain <$> ms) = Some p' ∧ main_ p' = MExited 0 ∧ handler p' = HDrain ∧
           active p' = active draining_process ∧ sessionsClosed p' = false.
Proof.
  assert (Hrun : run (start false true) example_drain = Some draining_process) by (vm_compute; reflexivity).
  split; [exact Hrun|].
  apply (exit_cuts_drain false true example_drain draining_process Hrun); [reflexivity|right; left; reflexivity].
Defined.

Definition early_process : process := mkProcess false false false false 0 0 0 false true false MServe (HShutdown false).
Definition late_process : process := mkProcess false true false true 0 0 0 false true true MAccept (HDone false).

Lemma early_signal_is_lost_witness :
  run (start false true) [LSignal; LHandler false; LHandler false; LHandler false] = Some early_process ∧
  run early_process [LHandler false; LHandler false; LMain true; LMain true; LSignal] = Some late_process ∧
  is_Some (step late_process LRequest) ∧ step late_process LIngress = None.
Proof.
  assert (H1 : run (start false true) [LSignal; LHandler false; LHandler false; LHandler false] = Some early_process)
    by (vm_compute; reflexivity).
  assert (H2 : run early_process [LHandler false; LHandler false; LMain true; LMain true; LSignal] = Some late_process)
    by (vm_compute; reflexivity).
  split; [exact H1|]. split; [exact H2|].
  apply (early_signal_is_lost true [LSignal; LHandler false; LHandler false; LHandler false] early_process
           [LHandler false; LHandler false; LMain true; LMain true; LSignal] late_process H1);
    [reflexivity|reflexivity|repeat constructor; discriminate|exact H2|reflexivity].
Defined.
End Lifecycle.
