(* ===== verification/Telemetry.v ===== *)
(** * Telemetry: the views of a running relay that its operators read

    Translates the snapshots of the pacer and of a downlink
    ([internal/media/downlink/pacer.go], [downlink.go]), of a bus and of a Session
    ([internal/session/audio_bus.go], [source.go], [subscription.go]), and the
    endpoints that show them
    ([internal/server/session_observations_http.go]).

    A snapshot loads its counters one by one while the worker runs: a load that the
    result depends on together with another is given its own state. *)

From S2P Require Export Downlink CadencePacer Observations.
From Stdlib Require Import SpecFloat.

(** ** The pacer *)

Module PacerTelemetry.
Import Pool Items Pacer Histogram.

Record PacerSnapshot := mkPacerSnapshot {
  Mode : string; EnqueuedCount : Z; SentCount : Z; QueueFullDrops : Z; StaleDrops : Z; QueueDepth : Z; QueuePeak : Z;
  MaxQueueAgeNs : Z; QueueAgeP95Ms : spec_float; LastSpacingNs : Z; SpacingP50Ms : spec_float; SpacingP95Ms : spec_float;
  MaxSpacingNs : Z; MaxTimerWaitNs : Z; MaxTimerOversleepNs : Z; MaxWriterDurationNs : Z; WriterBlockedCount : Z;
  PaddingPacketCount : Z; SourcePaddingStrippedCount : Z; LatePacketDropCount : Z; LatePaddingDropCount : Z;
  LateMediaDropCount : Z; GapTimeoutCount : Z; RecoveryPacketCount : Z; TimelineResets : Z; NackQueueDrops : Z;
  NackCacheHits : Z; NackCacheMisses : Z; NackThrottled : Z; RetransmitSentCount : Z; RetransmitErrorCount : Z;
  OutputSequenceDiscontinuityCount : Z; OutputTimestampDiscontinuityCount : Z; OutputMaxSequenceDelta : Z;
  OutputMaxTimestampDeltaSamples : Z }.

Definition mode (paceMedia : bool) : string := if paceMedia then "experimental-cadence" else "forward".

(** [Snapshot]: [enqueued] is loaded in the state [p1], [completed] in [p2] and the rest
    in [p]. *)
Definition Snapshot (paceMedia : bool) (p1 p2 p : pacer) : PacerSnapshot :=
  let enqueued := counters p1 enqueuedCount in
  let completed := counters p2 completedCount in
  let c := counters p in
  mkPacerSnapshot (mode paceMedia) (c enqueuedCount) (c sentCount) (c queueFullDrops) (c staleDrops)
    (u64 (enqueued - Z.min enqueued completed)) (c queuePeak)
    (c maxQueueAgeNs) (percentileMs (queueAgeHist p) p95) (c lastSpacingNs)
    (percentileMs (spacingHist p) p50) (percentileMs (spacingHist p) p95)
    (c maxSpacingNs) (c maxTimerWaitNs) (c maxTimerOversleepNs) (c maxWriterDurationNs) (c writerBlockedCount)
    (c paddingPacketCount) (c sourcePaddingStrippedCount) (c latePacketDropCount) (c latePaddingDropCount)
    (c lateMediaDropCount) (c gapTimeoutCount) (c recoveryPacketCount) (c timelineResets) (c nackQueueDrops)
    (c nackCacheHits) (c nackCacheMisses) (c nackThrottled) (c retransmitSentCount) (c retransmitErrorCount)
    (c outputSequenceDiscontinuityCount) (c outputTimestampDiscontinuityCount) (c outputMaxSequenceDelta)
    (c outputMaxTimestampDeltaSamples).

(** The snapshot of a pacer that forwards without a worker. *)
Definition passThroughSnapshot : PacerSnapshot :=
  mkPacerSnapshot "passthrough" 0 0 0 0 0 0 0 (float64 0) 0 (float64 0) (float64 0)
    0 0 0 0 0 0 0 0 0 0 0 0 0 0 0 0 0 0 0 0 0 0 0.

Section Depth.
Context `{codec : Rtp.Codec}.

(** The queue depth that telemetry shows is bounded.  Loaded at any two moments of any
    run, as long as the counters have not come near 2^64 and the count of
    completed packets has not wrapped in between, it is at most 65, the packets a
    queue and a worker can hold; and loaded at one moment in which no producer is
    between its send and its count, it is exactly their number. *)
Theorem snapshot_depth enqueues reqs ls s mode_ p2 p :
  Z.of_nat (length enqueues) < 2 ^ 63 → run (start enqueues reqs) ls = Some s →
  0 <= counters (pc s) enqueuedCount → 0 <= counters (pc s) completedCount →
  counters (pc s) enqueuedCount + sumZ (counting <$> producers s) < 2 ^ 64 →
  counters (pc s) completedCount + 65 < 2 ^ 64 →
  counters (pc s) completedCount <= counters p2 completedCount →
  0 <= QueueDepth (Snapshot mode_ (pc s) p2 p) <= 65 ∧
  (sumZ (counting <$> producers s) = 0 →
   QueueDepth (Snapshot mode_ (pc s) (pc s) p) = Z.of_nat (length (queue (pc s)) + length (pending (wk s)))).
Proof.
  intros Hfew Hrun He0 Hc0 He Hc Hle.
  pose proof (pacer_inv_run _ _ _ (pacer_inv_start enqueues reqs Hfew) Hrun) as Hinv.
  pose proof (inv_count _ Hinv) as Hcnt. pose proof (inv_bounds _ Hinv) as (Hq & Hp & _).
  unfold defaultPacerCapacity, pendingCapacity, defaultPacerCapacity in Hq, Hp.
  assert (Hpos : 0 <= sumZ (counting <$> producers s)).
  { apply sumZ_nonneg, Forall_fmap, Forall_forall. intros t _. unfold counting. cbn. destruct (pstate t); lia. }
  set (n := sumZ (counting <$> producers s)) in *. clearbody n.
  set (e := counters (pc s) enqueuedCount) in *. set (c := counters (pc s) completedCount) in *.
  change (2 ^ 64) with 18446744073709551616 in *.
  assert (Heq : e + n = c + Z.of_nat (length (queue (pc s)) + length (pending (wk s)))).
  { revert Hcnt. rewrite !u64_small; [done|unfold is_u64; lia..]. }
  unfold Snapshot. cbn [QueueDepth]. fold e. split.
  - set (c2 := counters p2 completedCount) in *. clearbody e c c2. rewrite u64_small by (unfold is_u64; lia). lia.
  - intros ->. fold c. clearbody e c. rewrite u64_small by (unfold is_u64; lia). lia.
Qed.
End Depth.
End PacerTelemetry.

(** ** Subscriptions, buses and Sessions *)

Module SessionTelemetry.
Import Histogram Feedback Extensions Downlink PacerTelemetry.

Record SubscriptionSnapshot := mkSubscriptionSnapshot {
  SubscriberID : string; sBusID : string; dlMode : string;
  sPacketsSent : Z; sBytesSent : Z; sWriteErrCount : Z; WriteP50Ms : spec_float; WriteP95Ms : spec_float;
  sReceiverReportCount : Z; ReceiverReportRttMs : spec_float; ReceiverReportJitterMs : spec_float; sFractionLostLast : Z;
  sNackCount : Z; sTwccFeedbackCount : Z;
  AbsCaptureTimeNegotiated : bool; AbsCaptureTimePatchedCount : Z;
  dlPacer : PacerSnapshot;   (* the fields copied from the pacer *)
  PacerMaxQueueAgeMs : spec_float; PacerLastSpacingMs : spec_float; PacerMaxSpacingMs : spec_float;
  PacerMaxTimerWaitMs : spec_float; PacerMaxTimerOversleepMs : spec_float; PacerMaxWriterDurationMs : spec_float;
  SenderReportKnown : bool; SenderReportSSRC : Z; SenderReportNTPTime : Z; SenderReportRTPTime : Z;
  SenderReportObservedAtNs : Z; SenderReportCount : Z; SenderReportClockNormalized : bool }.

Definition usToMs (us : Z) : spec_float := if us =? -1 then float64 (-1) else fdiv (float64 us) (float64 1000).
Definition nsToMs (ns : Z) : spec_float := fdiv (float64 ns) (float64 Millisecond).

Section Views.
Context {W : Type} `{Session.PacketWriter W} `{codec : Rtp.Codec}.

(** [Snapshot] of a downlink, when nothing changes it in between. *)
Definition DownlinkSnapshot (d : Downlink W) : SubscriptionSnapshot :=
  let ps := match pacer d with PassThrough => passThroughSnapshot | Forwarding p => Snapshot false p p p end in
  let '(report, known) :=
    match senderTimeline d with
    | Some t => Timeline.Snapshot t
    | None => (Timeline.mkSnapshot 0 0 0 0 0 0 0 false, false)
    end in
  mkSubscriptionSnapshot (id d) "" (Mode ps)
    (PacketsSent (stats d)) (BytesSent (stats d)) (WriteErrCount (stats d))
    (write_percentileMs (writeHist d) p50) (write_percentileMs (writeHist d) p95)
    (ReceiverReportCount (stats d)) (usToMs (RttLastUs (stats d))) (usToMs (JitterLastUs (stats d)))
    (u8 (FractionLostLast (stats d))) (NackCount (stats d)) (TwccFeedbackCount (stats d))
    (HasAbsCaptureTime (mapper d)) (AbsCapturePatched (stats d)) ps
    (nsToMs (MaxQueueAgeNs ps)) (nsToMs (LastSpacingNs ps)) (nsToMs (MaxSpacingNs ps)) (nsToMs (MaxTimerWaitNs ps))
    (nsToMs (MaxTimerOversleepNs ps)) (nsToMs (MaxWriterDurationNs ps))
    known (Timeline.snapSSRC report) (Timeline.snapNTPTime report) (Timeline.snapRTPTime report)
    (Timeline.ObservedAtNs report) (Timeline.ReportCount report) (Timeline.Normalized report).

Definition set_bus (bus : string) (s : SubscriptionSnapshot) : SubscriptionSnapshot :=
  mkSubscriptionSnapshot (SubscriberID s) bus (dlMode s) (sPacketsSent s) (sBytesSent s) (sWriteErrCount s)
    (WriteP50Ms s) (WriteP95Ms s) (sReceiverReportCount s) (ReceiverReportRttMs s) (ReceiverReportJitterMs s)
    (sFractionLostLast s) (sNackCount s) (sTwccFeedbackCount s) (AbsCaptureTimeNegotiated s)
    (AbsCaptureTimePatchedCount s) (dlPacer s) (PacerMaxQueueAgeMs s) (PacerLastSpacingMs s) (PacerMaxSpacingMs s)
    (PacerMaxTimerWaitMs s) (PacerMaxTimerOversleepMs s) (PacerMaxWriterDurationMs s) (SenderReportKnown s)
    (SenderReportSSRC s) (SenderReportNTPTime s) (SenderReportRTPTime s) (SenderReportObservedAtNs s)
    (SenderReportCount s) (SenderReportClockNormalized s).

Definition SubscriptionSnapshots (r : Session.RelaySession (S := Downlink W)) : list SubscriptionSnapshot :=
  omap (λ e, set_bus (Session.busID e) ∘ DownlinkSnapshot <$> Session.objects r !! Session.subscription e)
    (Session.subscriptions r).

(** [SourceClockSnapshot] of a bus; its timeline is one of [timelines]. *)
Record SourceClock := mkSourceClock {
  scBusID : string; scKnown : bool; scSSRC : Z; scNTPTime : Z; scRTPTime : Z; scObservedAtNs : Z; scReportCount : Z }.

Definition SourceClockSnapshot (timelines : list Timeline.Timeline) (b : AudioBus.AudioBus) : SourceClock :=
  match AudioBus.sourceTimeline (AudioBus.sources b) ≫= λ i, timelines !! i with
  | None => mkSourceClock (AudioBus.ID b) false 0 0 0 0 0
  | Some t =>
    let '(snapshot, ok) := Timeline.Snapshot t in
    mkSourceClock (AudioBus.ID b) ok (Timeline.snapSSRC snapshot) (Timeline.snapNTPTime snapshot)
      (Timeline.snapRTPTime snapshot) (Timeline.ObservedAtNs snapshot) (Timeline.ReportCount snapshot)
  end.

(** In the order of the map's keys; the code's order is that of a Go map. *)
Definition SourceClockSnapshots (r : Session.RelaySession (S := Downlink W)) : list SourceClock :=
  SourceClockSnapshot (Session.timelines r) <$> (snd <$> map_to_list (Session.buses r)).

Record MediaDebug := mkMediaDebug {
  mdSessionID : string; SourceClocks : list SourceClock; Downlinks : list SubscriptionSnapshot;
  SubscriptionEvictionsTotal : Z }.

Definition media_view (sessionID : string) (r : Session.RelaySession (S := Downlink W)) : MediaDebug :=
  mkMediaDebug sessionID (SourceClockSnapshots r) (SubscriptionSnapshots r) (Session.evictionsTotal (Session.stats r)).

(** [json.Encoder] refuses a number that is not finite, and then writes nothing; the
    status has been decided by then. *)
Definition finite (x : spec_float) : bool := match x with S754_zero _ | S754_finite _ _ _ => true | _ => false end.
Definition latency_body (st : Latency.LatencyStats) : option Latency.LatencyStats :=
  if forallb finite [Latency.CaptureP50Ms st; Latency.EncodeP50Ms st; Latency.RelayRttP50Ms st;
                     Latency.JitterBufferP50Ms st; Latency.DecodeP50Ms st; Latency.PacketLossPct st]
  then Some st else None.

Section Endpoints.
Context `{RecordSizes} `{Capabilities.UnverifiedJwt} {A : Type} {impl : Authority.Authority A}.

Definition mediaDebug secret c now (a : A) (o : Observations.observation) reg :=
  Observations.show (S := Downlink W) (λ r, Ok (media_view (Observations.oPath o) r)) secret c now a o reg.

(** [latency] is the window of the Session found. *)
Definition roomLatency (latency : Session.RelaySession (S := Downlink W) → Latency.latencyStore) secret c now (a : A)
    (o : Observations.observation) reg :=
  Observations.show (S := Downlink W) (λ r, Ok (latency_body (Latency.stats (latency r)))) secret c now a o reg.

Lemma snapshots_complete (r : Session.RelaySession (S := Downlink W)) :
  Forall (λ e, is_Some (Session.objects r !! Session.subscription e)) (Session.subscriptions r) →
  sBusID <$> SubscriptionSnapshots r = Session.busID <$> Session.subscriptions r.
Proof.
  unfold SubscriptionSnapshots. induction 1 as [|e l [d Hd] _ IH]; [done|]. cbn. rewrite Hd. cbn. by rewrite <- IH.
Qed.

(** The debug view is shown to members of the Session only, and is complete: one entry
    for each subscription, in order and with its bus, and one clock for each bus
    of the Session. *)
Theorem media_debug_complete secret c now a o reg reg' v :
  mediaDebug secret c now a o reg = (reg', Ok v) →
  ∃ claims r, Observations.may_observe secret c now a o claims ∧ (Observations.observed reg (Observations.oPath o)).2 = Some r ∧
    (Forall (λ e, is_Some (Session.objects r !! Session.subscription e)) (Session.subscriptions r) →
     sBusID <$> Downlinks v = Session.busID <$> Session.subscriptions r) ∧
    length (SourceClocks v) = size (Session.buses r) ∧
    SubscriptionEvictionsTotal v = Session.evictionsTotal (Session.stats r).
Proof.
  intros Hs. apply Observations.show_ok in Hs as (claims & r & Hm & _ & Ho & Hv). injection Hv as <-.
  exists claims, r. split_and!; [done|done|apply snapshots_complete| |done].
  cbn. unfold SourceClockSnapshots. rewrite !length_fmap. apply length_map_to_list.
Qed.
End Endpoints.
End Views.

(** *** Reports that hide the latency *)

Inductive report_answer := NotJoined | BadRequest | Recorded (utterance : bool).

(** [handleLatencyReport]: the error sent, or whether the webhook is told that somebody
    speaks. *)
Definition handleLatencyReport (joined : bool) (report : option Latency.latencySample) (ls : Latency.latencyStore)
  : Latency.latencyStore * report_answer :=
  if negb joined then (ls, NotJoined)
  else match report with
       | None => (ls, BadRequest)
       | Some rpt => (Latency.record rpt ls, Recorded (SFltb (float64 0) (Latency.captureMs rpt)))
       end.

(** What a peer that has joined makes of a list of reports. *)
Definition report_all (reports : list Latency.latencySample) (ls : Latency.latencyStore) : Latency.latencyStore :=
  foldl (λ ls rpt, (handleLatencyReport true (Some rpt) ls).1) ls reports.

Lemma window_of_repeats ss x :
  let ls := foldl (flip Latency.record) Latency.newLatencyStore (ss ++ replicate 100 x) in
  Latency.stats ls = Latency.stats (Latency.mkLatency (replicate 100 x) 0 true).
Proof.
  assert (Hr : ∀ l, Latency.ring (foldl (flip Latency.record) Latency.newLatencyStore l) l).
  { intros l. induction l as [|y l IH] using rev_ind; [by split|]. rewrite foldl_app. by apply Latency.record_ring. }
  cbv zeta. specialize (Hr (ss ++ replicate 100 x)). set (ls := foldl _ _ _) in *. clearbody ls.
  destruct (Latency.ring_window _ _ Hr) as [Hc Hw]. set (count := if Latency.full ls then _ else _) in *.
  assert (Hcount : count = 100).
  { rewrite Hc. unfold len. rewrite length_app, length_replicate. lia. }
  assert (Hwin : take (Z.to_nat count) (Latency.samples ls) = replicate 100 x).
  { symmetry. apply replicate_Permutation. rewrite Hw. unfold Latency.recent. rewrite length_app, length_replicate.
    replace (length ss + 100 - 100)%nat with (length ss) by lia. by rewrite drop_app_length. }
  unfold Latency.stats. fold count. rewrite Hcount in *. cbn [Z.eqb]. by rewrite Hwin.
Qed.

(** A member of a Session can make its latency unreadable.  The report of a client is
    recorded as it comes, and a hundred reports of the largest finite number, whatever
    came before, make the middle values add up to infinity: the endpoint then
    answers 200 with an empty body, although every report was a valid number. *)
Theorem large_reports_hide_latency ss x :
  Latency.captureMs x = S754_finite false (2 ^ 53 - 1) 971 →
  finite (Latency.captureMs x) = true ∧
  latency_body (Latency.stats (report_all (ss ++ replicate 100 x) Latency.newLatencyStore)) = None.
Proof.
  intros Hx. split; [by rewrite Hx|]. unfold report_all.
  change (λ ls rpt, (handleLatencyReport true (Some rpt) ls).1) with (flip Latency.record).
  rewrite window_of_repeats. unfold latency_body.
  assert (Hi : Latency.CaptureP50Ms (Latency.stats (Latency.mkLatency (replicate 100 x) 0 true)) = S754_infinity false).
  { unfold Latency.stats. cbn [Latency.full Latency.samples]. change (Latency.latencyWindowSizeCount =? 0) with false.
    cbn [Latency.CaptureP50Ms]. rewrite take_ge by (rewrite length_replicate; done). rewrite fmap_replicate, Hx.
    vm_compute. reflexivity. }
  cbn [forallb]. by rewrite Hi.
Qed.

Definition large_report : Latency.latencySample :=
  Latency.mkSample (S754_finite false (2 ^ 53 - 1) 971) Latency.fzero Latency.fzero Latency.fzero Latency.fzero Latency.fzero.

Lemma large_reports_hide_latency_witness :
  latency_body (Latency.stats (report_all ([] ++ replicate 100 large_report) Latency.newLatencyStore)) = None.
Proof. apply (large_reports_hide_latency [] large_report). reflexivity. Defined.
End SessionTelemetry.
